(* ===== verification/_CoqProject ===== *)
-Q . S2P
Prelude.v
CInt.v
LruSpec.v
Input.v
LruMain.v
LruCxx.v
MixHash.v
Chains.v
Links.v
CStore.v
CList.v
HashMap.v
LruC.v
LruNaive.v
LruDs.v
Idom.v
PermLoop.v
PermCycles.v
CreateLoops.v
Perm.v
PermFacts.v
PermGroup.v
Groups.v
PermArray.v
VecStore.v
VecFacts.v
MyVec.v
MyVecBuf.v
Llvm.v
LlvmCfg.v
LlvmList.v
Pcl.v
PclMain.v
PclTree.v
PclCalc.v
PclHeap.v
PclGen.v
PclElab.v
PclParse.v
PclProgram.v
PclProps.v
PclNaive.v
WVec.v
Lingeo.v
Matrix.v
Prim.v
MyVecOld.v
Sbt.v
Ocl.v
OclHist.v
OclCfg.v
OclHost.v
OclGemm.v
OclGemmHost.v
OclVadd.v
Meta.v
Algo.v
Doc.v
Zip.v
Vk.v
VkProgram.v
VkLogic.v
VkEvents.v
VkStages.v
VkObjects.v
VkCleanup.v
VkFrames.v
VkFrame.v
VkStart.v
VkMain.v
VkProps.v
Gl.v
Motion.v
GlLogic.v
MotionProps.v
Square.v
