(* ===== verification/Prelude.v ===== *)
(** * Verification of cpp-graduate

    The repository holds the programs of a course on C++. This library models those that have
    logic of their own, each as the Rocq functions and step relations its text describes, and
    proves what makes them correct; where a program is wrong the theorem says how.

    ** How the programs are modelled

    - Integers are [Z]; their width is written out where the code computes ([u32], [u64],
      [i32], [i64] here, [int] in [CInt]). Overflow of a signed type has no behaviour.
    - A computation without side effects is in [E]: no behaviour ([None]), a value ([Ok]) or an
      exception ([Throw]). With a store [S] it is in [C S] (C: may have no behaviour) or in
      [X S] (C++: may also throw, and then leaves a store too). An assertion that fails, an
      access outside an object, a double [free] and a null dereference have no behaviour.
      A theorem that gives the result of such a computation therefore also says that none of
      these happens.
    - Pointers are numbers and memory is a finite map, so sharing and dangling are in the
      model ([CStore], [VecStore], [Pcl], [LruDs], [LruNaive]). Allocations that fail are an
      input: every list of outcomes is allowed.
    - A loop that is not structural has fuel; running out is [None], the same as no behaviour.
      The fuel of a definition is computed from its arguments (the number of nodes, of
      elements, of the characters left, ...) and every property says that the code returns, so
      that fuel is enough. The interpreters of ParaCL, whose programs may run for ever, take
      the fuel as an argument: their theorems give the result for enough fuel where the
      meaning of the program is defined. The Vulkan program, which runs until its window is
      closed, takes the number of frames; a run that uses it up is [Paused], so that every
      prefix of an endless run is covered. Templates take the number of nested instantiations.
    - Code outside the repository is a parameter with its documented behaviour as hypotheses:
      LLVM ([Llvm.IRDocumented], shown satisfiable by [LlvmList]), the OpenCL runtime
      ([OclHost.runtime], [OclGemmHost.runtime], [OclVadd.runtime]), [std::atan] and
      [std::sin] ([Lingeo]), the answers of a Vulkan driver and of GLFW
      ([VkProgram.driver], [VkLogic.documented]), those of OpenGL and GLM ([Motion.driver],
      [MotionProps.glm_projects]), the order in which an unordered container is visited
      ([Groups]), the hash of one ([LruCxx] uses a map).
    - What is not documented is not assumed. A variable without a value is an [option], and
      reading it when it holds none ends the run without behaviour ([Motion.getShaderiv]) or in
      an outcome of its own ([VkProgram.Indeterminate]); a pointer out of an array and a
      buffer that a kernel may not read have no behaviour either ([OclGemmHost.copy_to],
      [Ocl.with_access]). Some programs of the repository therefore have no defined run; the
      theorem says so, and where the rest of the program is worth verifying another theorem
      starts after that point ([MotionProps]) or repairs it by a parameter ([OclHost]).

    ** The files

    Shared: [Prelude] (words, the monads, list lemmas, tactics), [CInt] ([int] and counting
    loops).

    _Caches_, [src/01-basics/lru-in-*]: four implementations of one contract.
    [LruSpec] is the abstract cache (a list, most recent first), its hits described by
    recency alone, and the interface [LruOps]/[LruLaws]; [Input] reads numbers ([read_integer]
    of the C and C++ programs); [LruMain] has the [main] functions, verified once against the
    interfaces. [LruCxx] is [cache.hpp]; [CStore], [Links], [CList] ([list.c]), [MixHash],
    [HashMap] ([hash_map.c]) and [LruC] ([lru.c], [main.c]) are [lru-in-c]; [Chains] and
    [LruDs] are [lru-in-c-datastructs]; [LruNaive] is [lru-in-c-naive]. Theorems: a request
    refines the abstract one ([lookup_update_refines], [lookup_update_correct]); the programs
    print the number of requests whose key is among the most recent ones ([cxx_main_hits],
    [c_main_hits], [ds_main_hits], [naive_main_hits]); they are total and give back all
    memory whatever the input and the allocations ([c_main_total], [lru_destroy_frees_all],
    [lru_create_correct]); a throwing loader or allocation leaves the cache consistent
    ([lookup_update_safe]); the mixer of keys is a bijection ([bucket_for_bijective_mix]).

    _Permutations_, [src/17-algorithms/permutations]: [Idom] ([idomain.hpp]), [PermLoop] and
    [CreateLoops] ([permloops.hpp]), [Perm] ([perms.hpp]), [Groups] ([groups.hpp]), with the
    theory in [PermCycles] and [PermFacts] and the promises in [PermGroup]: loops of a table
    and back, canonical forms, the group laws, orbits and their representatives. The values
    of a domain's type wrap around, so these hold for domains that end before the greatest
    value ([has_room]); for the others see [Permutation_id_wraps]. [PermArray]
    is the version of [src/18-constexpr/permutations], which agrees.

    _Vectors_: [VecStore], [VecFacts], [MyVec] and [MyVecBuf] are the four versions of
    [src/08-exceptions/myvec-demo]: the strong guarantee of [push] and of copying, and the
    leaks of the first version. [MyVecOld] has the versions of [src/archive/09-exceptions],
    [WVec] the vector of [src/14-iterators/wrongit.cc].

    _ParaCL_, [src/15-llvm]: [Llvm], [LlvmCfg] and [LlvmList] are what is used of LLVM; [Pcl]
    has the nodes, the symbol table, the interpreter and the code generator, [PclMain] the
    actions of the grammar and the driver. A program arrives as its derivation, since bison
    and flex generate the tables. [PclTree], [PclElab] give the meaning of a program,
    [PclCalc], [PclGen], [PclHeap], [PclParse] and [PclProgram] show that the interpreter,
    the generated function, deletion and the parser do what it says; [PclProps] states the
    properties: both back ends print the meaning and so the same; undeclared names are
    rejected; nothing leaks. [PclNaive] is the first version, of
    [src/archive/13-llvm/01-naive].

    _OpenCL_, [src/11-compute]: [Ocl] is the machine: work-items of groups that interleave
    step by step, and barriers. [OclHist] has the kernels of histograms, [OclGemm] those of
    matrix products, [OclVadd] vector addition; [OclCfg] reads the options; [OclHost] and
    [OclGemmHost] are the host programs. Theorems: every interleaving ends, never stuck at a
    barrier nor out of bounds, with the right counts or product ([hist_kernels_count],
    [gemm_kernels_multiply]). The histogram program never passes its check, since the kernel
    reads the buffer that was created for writing only ([main_never_passes]; with a readable
    buffer it passes exactly when the buffer happens to hold zeros,
    [main_passes_iff_zeroed]). The other program passes for square products whose data the
    arithmetic computes exactly, on the host and in a kernel that may contract a product and
    a sum, and is undefined when the first factor is larger ([gemm_main_result]).

    _Vulkan_, [src/10-3d/vk-simplest.cc]: [Vk] has the rules that Vulkan sets its callers, as
    a ghost state that follows the calls (objects, fences, semaphores, images, what may be
    executing); [VkProgram] is the whole program over a driver that answers its calls.
    [VkLogic] is a weakest precondition for it, [VkEvents] a logic of what it asks for;
    [VkStages], [VkObjects], [VkCleanup] (creating and destroying), [VkFrames], [VkFrame]
    (the state between two frames, resizing, one frame), [VkStart] and [VkMain] verify the
    operations in turn. A driver is [documented] when what it reports is consistent (handles
    are new, counts and indices are within what it has reported, a wait that succeeds means
    what it waits for has happened); calls may fail at any time. The calls whose results the
    program ignores are a separate assumption, [unchecked_succeed], and [calm] says that no
    call fails and the machine has what the program needs. The rules include that objects
    are destroyed before the device they belong to, and when nothing that is executing uses
    them. That a semaphore is not signalled again while a presentation may still wait for it
    is a rule kept apart ([presenting], [signals_free]), since the program breaks it.
    Theorems ([VkProps]): every call keeps the rules ([session_keeps_the_rules]); the
    program ends, and leaves exactly the objects that the code forgets ([main_ends]); what it
    asks for is supported ([requests_are_supported]).

    _OpenGL_, [src/10-3d/ogl-motion.cc] and [ogl-frag-shader.cc]: [Gl] is the state of a
    context and what each call does to it, [Motion] the two programs, [GlLogic] the rules for
    their runs and the operations they share. Both programs ask for the link status in a way
    that leaves their variable without a value and then read it, so neither has a defined
    run past that point ([renderer_outlives_context], which also says that the renderer is
    deleted after the context). From the linked program on, whatever the user does, every draw
    call reads a closed cube seen from outside, the camera keeps its limits and the skeleton
    mode is that of the context ([session_keeps_the_scene]), as long as GLM accepts the aspect
    of the window; [Square] shows that the other program draws its square and deletes what it
    made ([square_program_deletes]).

    _Single programs_: [Lingeo] ([src/02-lrefs/triangles], on IEEE arithmetic: no assertion
    fails and the result has no near vertices; where the crossing points lie, up to rounding,
    is not stated), [Matrix] (the [matrix_repro.cc] programs), [Prim]
    ([src/16-containers/prim.cc]), [Sbt] ([src/archive/older/09-containers]), [Meta] (the
    templates of [src/18-constexpr] and [src/archive/14-constexpr]), [Algo] ([repose.cc],
    [orbit.cc]), [Doc] (the drawable documents of [src/09-solid]: copies are deep, nothing
    leaks), [Zip] ([ziprange.hpp] of [src/14-iterators]).

    ** Not modelled

    - The first two programs of [src/10-3d] (a window; a square without shaders),
      [src/archive/07-compute], [cl_platform.c] and [cl_justbuf.c]: calls of OpenGL, GLFW and
      OpenCL without logic of their own, and samples of other authors ([movelight.c]); the
      kernels and hosts that compute something are modelled above.
    - Measurements ([benchcopy.cc], [benchemplace.cc], [qsortbench.cc], ...): they time the
      standard library.
    - [src/07-parsers] and [src/archive/06-parsers]: grammars whose tables and tokens bison
      and flex generate; the drivers hold a few lines.
    - Demonstrations of one rule of the language ([src/03-concrete], [src/05-opers],
      [src/06-inheritance], [src/12-templates], [src/13-sfinae], the rest of [src/09-solid],
      [src/04-raii]): the point of them is what the compiler accepts or which overload it
      selects, not what they compute.
    - Most of [src/archive]: older texts of programs that are modelled in their last version,
      and more demonstrations and measurements.
    - The rounding of the trigonometry of [Lingeo] and of the matrices of GLM; the contents of
      the pictures.
    - Output is modelled where it is a result; messages and times are not. Tests and scripts
      are not programs of the repository's own logic. *)

From stdpp Require Export base gmap list strings sorting.
From Stdlib Require Export ZArith Lia.

#[global] Open Scope Z_scope.

(** ** Machine integers

    A C or C++ integer is a [Z]; the wrap-around of the width is written out
    where the code computes. *)
Definition u32 (z : Z) : Z := z `mod` 2 ^ 32.
Definition u64 (z : Z) : Z := z `mod` 2 ^ 64.
Definition i32 (z : Z) : Z := (z + 2 ^ 31) `mod` 2 ^ 32 - 2 ^ 31.
Definition i64 (z : Z) : Z := (z + 2 ^ 63) `mod` 2 ^ 64 - 2 ^ 63.

Definition SIZE_MAX : Z := 2 ^ 64 - 1.
Definition INT64_MAX : Z := 2 ^ 63 - 1.
Definition INT64_MIN : Z := - 2 ^ 63.

Definition is_u64 (z : Z) : Prop := 0 <= z < 2 ^ 64.
Definition is_i64 (z : Z) : Prop := - 2 ^ 63 <= z < 2 ^ 63.

Create HintDb cpp discriminated.
Create HintDb word discriminated.

Lemma u64_range z : is_u64 (u64 z).
Proof. unfold is_u64, u64. apply Z.mod_pos_bound. lia. Qed.

Lemma u64_small z : is_u64 z → u64 z = z.
Proof. unfold is_u64, u64. intros. apply Z.mod_small. lia. Qed.

Lemma i64_range z : is_i64 (i64 z).
Proof.
  unfold is_i64, i64.
  pose proof (Z.mod_pos_bound (z + 2 ^ 63) (2 ^ 64) ltac:(lia)). lia.
Qed.

Lemma i64_small z : is_i64 z → i64 z = z.
Proof. unfold is_i64, i64. intros. rewrite Z.mod_small; lia. Qed.

Lemma u64_i64_inj x y : is_i64 x → is_i64 y → u64 x = u64 y → x = y.
Proof.
  unfold is_i64, u64. intros Hx Hy Heq.
  assert (Hd : (x - y) `mod` 2 ^ 64 = 0)
    by (rewrite Zminus_mod, Heq, Z.sub_diag; reflexivity).
  apply Z.mod_divide in Hd; [|lia]. destruct Hd as [k Hk]. nia.
Qed.

#[export] Hint Resolve u64_range i64_range : word.
Create Rewrite HintDb word_rw.

(** ** Computations over a store

    [C S A] is a computation of the source over a store [S]: it either returns a
    value and the next store, or has no defined behaviour ([None]: a dereference
    of a null, dangling or never allocated pointer, an index out of an array, a
    failed [assert]). *)
Definition C (S A : Type) : Type := S → option (A * S).

Global Instance C_ret {S} : MRet (C S) := λ A a s, Some (a, s).
Global Instance C_bind {S} : MBind (C S) := λ A B k m s,
  match m s with Some (a, s') => k a s' | None => None end.

Definition undefined {S A} : C S A := λ _, None.
Definition get {S} : C S S := λ s, Some (s, s).
Definition put {S} (s : S) : C S () := λ _, Some ((), s).
Definition modify {S} (f : S → S) : C S () := λ s, Some ((), f s).
Definition of_option {S A} (o : option A) : C S A :=
  λ s, match o with Some a => Some (a, s) | None => None end.
Definition assert {S} (b : bool) : C S () := if b then mret () else undefined.

Lemma C_bind_ret {S A B} (a : A) (k : A → C S B) s : (mret a ≫= k) s = k a s.
Proof. reflexivity. Qed.

Lemma C_bind_assoc {S A B D} (m : C S A) (k : A → C S B) (l : B → C S D) s :
  ((m ≫= k) ≫= l) s = (m ≫= λ a, k a ≫= l) s.
Proof. unfold mbind, C_bind. destruct (m s) as [[a s']|]; reflexivity. Qed.

Lemma C_bind_Some {S A B} (m : C S A) (k : A → C S B) s a s' :
  m s = Some (a, s') → (m ≫= k) s = k a s'.
Proof. intros H. unfold mbind, C_bind. rewrite H. reflexivity. Qed.

(** ** Computations that may throw

    [exited] is no exception but a call of [exit], which nothing catches.
    [X S A] is a C++ computation: defined or not, and if defined it returns or
    throws, in both cases with the store it leaves. *)
Inductive exn :=
| bad_alloc
| runtime_error (what : string)
| out_of_range (what : string)
| underflow_error (what : string)
| invalid_argument (what : string)
| length_error
| cl_error (function : string)
| exited (status : Z).

Inductive result (A : Type) :=
| Ok (a : A)
| Throw (e : exn).
Arguments Ok {A} _.
Arguments Throw {A} _.

#[export] Instance exn_eq_dec : EqDecision exn.
Proof. solve_decision. Defined.

Definition X (S A : Type) : Type := S → option (result A * S).

Global Instance X_ret {S} : MRet (X S) := λ A a s, Some (Ok a, s).
Global Instance X_bind {S} : MBind (X S) := λ A B k m s,
  match m s with
  | Some (Ok a, s') => k a s'
  | Some (Throw e, s') => Some (Throw e, s')
  | None => None
  end.

Definition throw {S A} (e : exn) : X S A := λ s, Some (Throw e, s).
Definition call {S A} (m : C S A) : X S A :=
  λ s, match m s with Some (a, s') => Some (Ok a, s') | None => None end.
Definition of_result {S A} (r : result A) : X S A := λ s, Some (r, s).
(** [try { m } catch (...) { h; throw; }] *)
Definition on_throw {S A} (m : X S A) (h : C S ()) : X S A := λ s,
  match m s with
  | Some (Throw e, s') =>
    match h s' with Some (_, s'') => Some (Throw e, s'') | None => None end
  | r => r
  end.

Lemma X_bind_Ok {S A B} (m : X S A) (k : A → X S B) s a s' :
  m s = Some (Ok a, s') → (m ≫= k) s = k a s'.
Proof. intros H. unfold mbind, X_bind. by rewrite H. Qed.

Lemma X_bind_Throw {S A B} (m : X S A) (k : A → X S B) s e s' :
  m s = Some (Throw e, s') → (m ≫= k) s = Some (Throw e, s').
Proof. intros H. unfold mbind, X_bind. by rewrite H. Qed.

Lemma C_bind_None {S A B} (m : C S A) (k : A → C S B) s : m s = None → (m ≫= k) s = None.
Proof. intros H. unfold mbind, C_bind. by rewrite H. Qed.

Lemma C_bind_inv {S A B} (m : C S A) (k : A → C S B) s r :
  (m ≫= k) s = Some r → ∃ a s1, m s = Some (a, s1) ∧ k a s1 = Some r.
Proof. unfold mbind, C_bind. destruct (m s) as [[a s1]|]; naive_solver. Qed.

Lemma X_bind_None {S A B} (m : X S A) (k : A → X S B) s : m s = None → (m ≫= k) s = None.
Proof. intros H. unfold mbind, X_bind. by rewrite H. Qed.

Lemma X_bind_assoc {S A B D} (m : X S A) (k : A → X S B) (l : B → X S D) s :
  ((m ≫= k) ≫= l) s = (m ≫= λ a, k a ≫= l) s.
Proof. unfold mbind, X_bind. destruct (m s) as [[[] ?]|]; done. Qed.

(** ** Computations without a store

    [E A] is the outcome of a C++ function that changes nothing outside: undefined,
    a value, or an exception. *)
Global Instance result_ret : MRet result := λ A a, Ok a.
Global Instance result_bind : MBind result := λ A B k r,
  match r with Ok a => k a | Throw e => Throw e end.

Definition E (A : Type) : Type := option (result A).

Global Instance E_ret : MRet E := λ A a, Some (Ok a).
Global Instance E_bind : MBind E := λ A B k m,
  match m with Some (Ok a) => k a | Some (Throw e) => Some (Throw e) | None => None end.

(** An access that may be out of bounds; a precondition. *)
Definition checked {A} (o : option A) : E A := Ok <$> o.
Definition require (b : bool) : E () := if b then Some (Ok ()) else None.
Definition raise {A} (e : exn) : E A := Some (Throw e).

Lemma E_bind_Ok {A B} (m : E A) (k : A → E B) a : m = Some (Ok a) → (m ≫= k) = k a.
Proof. by intros ->. Qed.

Lemma E_bind_checked {A B} (o : option A) (k : A → E B) a : o = Some a → (checked o ≫= k) = k a.
Proof. by intros ->. Qed.

Lemma E_bind_require {B} b (k : () → E B) : b = true → (require b ≫= k) = k ().
Proof. by intros ->. Qed.

(** Unfold the monadic structure of a computation of the source. *)
Ltac cunfold :=
  unfold mbind, mret, C_bind, C_ret, X_bind, X_ret, get, put, modify, of_option,
    assert, undefined, throw, call, of_result, on_throw.

(** Step over the first computation of a [C] or [X] sequence: one that computes,
    or one whose run is known. *)
Ltac cstep := first [erewrite C_bind_Some by reflexivity | erewrite X_bind_Ok by reflexivity];
  lazy beta.
Ltac cstep_by H := first [rewrite (C_bind_Some _ _ _ _ _ H) | rewrite (X_bind_Ok _ _ _ _ _ H)
  | rewrite (X_bind_Throw _ _ _ _ _ H)]; lazy beta.

(** ** Lists *)
#[global] Arguments list_filter : simpl never.
#[global] Arguments Nat.ltb : simpl never.
#[global] Arguments Nat.eqb : simpl never.

Section lists.
Context {A : Type}.
Implicit Types l : list A.

Lemma removelast_take l : removelast l = take (length l - 1) l.
Proof. rewrite removelast_firstn_len. f_equal. lia. Qed.

Lemma filter_ne_id `{EqDecision A} (k : A) l : k ∉ l → filter (λ x, x ≠ k) l = l.
Proof.
  induction l as [|x l IH]; intros Hk; [done|].
  apply not_elem_of_cons in Hk as [Hx Hk].
  rewrite filter_cons_True by congruence. by rewrite IH.
Qed.

Lemma not_elem_of_take (x : A) n l : x ∉ l → x ∉ take n l.
Proof. intros Hx Hin. apply Hx. apply elem_of_take in Hin as (i & Hi & _). by eapply list_elem_of_lookup_2. Qed.

Lemma NoDup_take n l : NoDup l → NoDup (take n l).
Proof. rewrite <- (take_drop n l) at 1. by intros [? _]%NoDup_app. Qed.

(** Removing an element that is among the first [S n] leaves [n] of them. *)
Lemma take_filter_ne `{EqDecision A} (n : nat) (k : A) l :
  NoDup l → k ∈ take (S n) l →
  filter (λ x, x ≠ k) (take (S n) l) = take n (filter (λ x, x ≠ k) l).
Proof.
  revert n. induction l as [|x l IH]; intros n Hnd Hin; [by apply elem_of_nil in Hin|].
  apply NoDup_cons in Hnd as [Hx Hnd]. cbn [take].
  destruct (decide (x = k)) as [->|Hne].
  - rewrite !filter_cons_False by naive_solver.
    rewrite !filter_ne_id; eauto using not_elem_of_take.
  - rewrite !filter_cons_True by done.
    cbn in Hin. apply elem_of_cons in Hin as [->|Hin]; [done|].
    destruct n as [|n]; [by apply elem_of_nil in Hin|].
    cbn. f_equal. by apply IH.
Qed.
End lists.
