(* ===== verification/CInt.v ===== *)
(** * Arithmetic on [int] in computations without state: overflow and a division by zero
    are undefined *)

From S2P Require Import Prelude.

Definition is_int (z : Z) : Prop := - 2 ^ 31 <= z < 2 ^ 31.
Definition int (z : Z) : E Z := if (- 2 ^ 31 <=? z) && (z <? 2 ^ 31) then mret z else None.
Definition idiv (a b : Z) : E Z := if b =? 0 then None else int (Z.quot a b).
Definition irem (a b : Z) : E Z := _ ← idiv a b; mret (Z.rem a b).

Lemma int_ok z : is_int z → int z = Some (Ok z).
Proof.
  unfold is_int, int. intros [H1 H2]. rewrite (proj2 (Z.leb_le _ _) H1), (proj2 (Z.ltb_lt _ _) H2). done.
Qed.

Lemma idiv_ok a b : 0 <= a → 0 < b → is_int a → idiv a b = Some (Ok (a / b)).
Proof.
  intros Ha Hb Hi. unfold idiv. rewrite (proj2 (Z.eqb_neq _ _)) by lia.
  rewrite Z.quot_div_nonneg by lia. apply int_ok. unfold is_int in *.
  pose proof (Z.div_pos a b Ha Hb). pose proof (Z.div_le_upper_bound a b a Hb ltac:(nia)). lia.
Qed.

Lemma irem_ok a b : 0 <= a → 0 < b → is_int a → irem a b = Some (Ok (a `mod` b)).
Proof.
  intros Ha Hb Hi. unfold irem. rewrite (E_bind_Ok _ _ _ (idiv_ok a b Ha Hb Hi)).
  by rewrite Z.rem_mod_nonneg by lia.
Qed.

(** ** Loops that count

    [for (int i = start; i < start + n; ++i) s = body(i, s);] *)
Fixpoint for_ {A} (n : nat) (i : Z) (body : Z → A → E A) (s : A) : E A :=
  match n with O => mret s | S n => s ← body i s; for_ n (i + 1) body s end.

Lemma for_run {A} (P : Z → A → Prop) body n i (s : A) :
  P i s →
  (∀ k s, i <= k < i + Z.of_nat n → P k s → ∃ s', body k s = Some (Ok s') ∧ P (k + 1) s') →
  ∃ s', for_ n i body s = Some (Ok s') ∧ P (i + Z.of_nat n) s'.
Proof.
  induction n as [|n IH] in i, s |- *; intros H0 Hstep.
  - exists s. split; [done|]. by replace (i + Z.of_nat 0) with i by lia.
  - destruct (Hstep i s ltac:(lia) H0) as (s1 & Hb & H1).
    destruct (IH (i + 1) s1 H1) as (s2 & Hf & H2).
    { intros k s' Hk. apply Hstep. lia. }
    exists s2. split; [simpl; by rewrite (E_bind_Ok _ _ _ Hb)|].
    by replace (i + Z.of_nat (S n)) with (i + 1 + Z.of_nat n) by lia.
Qed.
