(* ===== verification/LruSpec.v ===== *)
(** * The contract of a least-recently-used cache

    The abstract cache that the four implementations under [src/01-basics/]
    ([lru-in-cxx], [lru-in-c], [lru-in-c-datastructs], [lru-in-c-naive]) refine,
    the characterisation of its contents and of its hits by recency, and the
    interface ([LruOps], [LruLaws]) through which the request loops of the four
    programs are verified once. *)

From S2P Require Import Prelude.

(** ** The abstract cache: pairs of a key and a page, most recent first *)
Section spec.
Context {K V : Type} `{EqDecision K}.
Implicit Types (k : K) (l : list (K * V)) (ks : list K).

Record lru := Lru { cap : nat; items : list (K * V) }.

Definition lru_keys (s : lru) : list K := (items s).*1.

Fixpoint assoc (k : K) (l : list (K * V)) : option V :=
  match l with
  | [] => None
  | (k', v) :: l => if decide (k' = k) then Some v else assoc k l
  end.

Definition remove_key (k : K) (l : list (K * V)) : list (K * V) :=
  filter (λ kv, kv.1 ≠ k) l.

(** One request: was it a hit, the page, the next cache. *)
Definition access (load : K → V) (k : K) (s : lru) : bool * V * lru :=
  if decide (cap s = 0%nat) then (false, load k, s)
  else match assoc k (items s) with
       | Some v => (true, v, Lru (cap s) ((k, v) :: remove_key k (items s)))
       | None =>
         let kept := if decide (length (items s) = cap s)
                     then removelast (items s) else items s in
         (false, load k, Lru (cap s) ((k, load k) :: kept))
       end.

Fixpoint run (load : K → V) (ks : list K) (s : lru) : list bool * lru :=
  match ks with
  | [] => ([], s)
  | k :: ks =>
    let '(h, _, s) := access load k s in
    let '(hs, s) := run load ks s in (h :: hs, s)
  end.

(** The distinct keys of a request sequence, the most recent first. *)
Definition touch (recent : list K) (k : K) : list K :=
  k :: filter (λ x, x ≠ k) recent.
Definition recent (ks : list K) : list K := foldl touch [] ks.

Record lru_ok (s : lru) : Prop := {
  lru_ok_nodup : NoDup (lru_keys s);
  lru_ok_cap : (length (items s) ≤ cap s)%nat }.

(** *** Association lists *)
Lemma assoc_None k l : assoc k l = None ↔ k ∉ l.*1.
Proof.
  induction l as [|[k' v] l IH]; csimpl; [split; [intros _; apply not_elem_of_nil|done]|].
  rewrite not_elem_of_cons, <- IH. destruct (decide (k' = k)) as [->|Hne].
  - split; [done|]. by intros [[] _].
  - split; [|by intros [_ ?]]. intros H. split; [congruence|done].
Qed.

Lemma assoc_Some_elem k v l : assoc k l = Some v → (k, v) ∈ l.
Proof.
  induction l as [|[k' v'] l IH]; csimpl; [done|].
  destruct (decide (k' = k)) as [->|]; [intros [= ->]; left|right; auto].
Qed.

Lemma assoc_is_Some k l : k ∈ l.*1 → ∃ v, assoc k l = Some v.
Proof.
  intros Hk. destruct (assoc k l) as [v|] eqn:Ha; [by eauto|].
  by apply assoc_None in Ha.
Qed.

Lemma elem_assoc k v l : NoDup l.*1 → (k, v) ∈ l → assoc k l = Some v.
Proof.
  induction l as [|[k' v'] l IH]; csimpl; intros Hnd Hin; [by apply elem_of_nil in Hin|].
  apply NoDup_cons in Hnd as [Hk' Hnd].
  apply elem_of_cons in Hin as [[= -> ->]|Hin]; [by rewrite decide_True|].
  rewrite decide_False; [auto|]. intros ->. apply Hk'.
  apply list_elem_of_fmap. by exists (k, v).
Qed.

Lemma assoc_app k l1 l2 :
  assoc k (l1 ++ l2) = match assoc k l1 with Some v => Some v | None => assoc k l2 end.
Proof.
  induction l1 as [|[k' v] l1 IH]; csimpl; [done|]. by destruct (decide (k' = k)).
Qed.

(** Dropping the only pair that holds [key]. *)
Lemma assoc_without key v k l1 l2 :
  NoDup (l1 ++ (key, v) :: l2).*1 →
  assoc k (l1 ++ l2) = if decide (k = key) then None else assoc k (l1 ++ (key, v) :: l2).
Proof.
  rewrite fmap_app, fmap_cons, !assoc_app. csimpl. intros Hnd.
  apply NoDup_app in Hnd as (_ & Hd & Hnd). apply NoDup_cons in Hnd as [Hk _].
  destruct (decide (k = key)) as [->|Hne].
  - rewrite (proj2 (assoc_None key l1)); [by apply assoc_None|].
    intros Hin. apply (Hd key Hin). left.
  - destruct (assoc k l1); [done|]. by rewrite decide_False by congruence.
Qed.

Lemma assoc_perm k l1 l2 : NoDup l1.*1 → l1 ≡ₚ l2 → assoc k l1 = assoc k l2.
Proof.
  intros Hnd Hp. destruct (assoc k l2) as [v|] eqn:Ha.
  - apply elem_assoc; [done|]. rewrite Hp. by apply assoc_Some_elem.
  - apply assoc_None. apply assoc_None in Ha. by rewrite Hp.
Qed.

Lemma remove_key_fst k l : (remove_key k l).*1 = filter (λ x, x ≠ k) l.*1.
Proof.
  unfold remove_key. induction l as [|[k' v] l IH]; [done|].
  rewrite fmap_cons, (filter_cons _ k'), (filter_cons _ (k', v)). simpl.
  case_decide; [|done]. rewrite fmap_cons. by rewrite IH.
Qed.

Lemma remove_key_id k l : k ∉ l.*1 → remove_key k l = l.
Proof.
  unfold remove_key. induction l as [|[k' v] l IH]; [done|]. csimpl. intros Hk.
  rewrite filter_cons_True by (csimpl; set_solver). rewrite IH; set_solver.
Qed.

Lemma remove_key_split k v l1 l2 :
  NoDup (l1 ++ (k, v) :: l2).*1 → remove_key k (l1 ++ (k, v) :: l2) = l1 ++ l2.
Proof.
  rewrite fmap_app, fmap_cons. intros Hnd. apply NoDup_app in Hnd as (_ & Hd & Hnd).
  apply NoDup_cons in Hnd as [Hk _]. csimpl in *.
  unfold remove_key. rewrite filter_app, filter_cons_False by (csimpl; naive_solver).
  change (remove_key k l1 ++ remove_key k l2 = l1 ++ l2).
  rewrite !remove_key_id; set_solver.
Qed.

(** *** Recency lists *)
Lemma touch_NoDup r k : NoDup r → NoDup (touch r k).
Proof.
  intros Hr. apply NoDup_cons. split; [|by apply NoDup_filter].
  rewrite list_elem_of_filter. naive_solver.
Qed.

Lemma recent_snoc ks k : recent (ks ++ [k]) = touch (recent ks) k.
Proof. unfold recent. by rewrite foldl_app. Qed.

Lemma recent_NoDup ks : NoDup (recent ks).
Proof.
  induction ks as [|k ks IH] using rev_ind; [constructor|].
  rewrite recent_snoc. by apply touch_NoDup.
Qed.

Lemma recent_length ks : (length (recent ks) ≤ length ks)%nat.
Proof.
  induction ks as [|k ks IH] using rev_ind; [done|].
  rewrite recent_snoc, length_app. csimpl.
  pose proof (length_filter (λ x, x ≠ k) (recent ks)). lia.
Qed.

Lemma elem_of_recent ks k : k ∈ recent ks ↔ k ∈ ks.
Proof.
  induction ks as [|k' ks IH] using rev_ind; [done|].
  rewrite recent_snoc, elem_of_app, <- IH. unfold touch.
  rewrite elem_of_cons, list_elem_of_filter, list_elem_of_singleton.
  destruct (decide (k = k')); naive_solver.
Qed.

(** A request moves the bounded recency list the way the cache does. *)
Lemma take_touch n r k :
  NoDup r →
  take (S n) (touch r k) =
    if decide (k ∈ take (S n) r) then touch (take (S n) r) k
    else k :: take n r.
Proof.
  intros Hr. unfold touch. cbn [take]. case_decide as Hk; f_equal.
  - by rewrite take_filter_ne.
  - clear Hr. revert n Hk. induction r as [|x r IH]; intros n Hk; [done|].
    csimpl in Hk. apply not_elem_of_cons in Hk as [Hx Hk].
    rewrite filter_cons_True by congruence.
    destruct n as [|n]; [done|]. cbn [take]. f_equal. by apply IH.
Qed.

(** *** One request on a well-formed cache *)
Definition holds_recent (r : list K) (s : lru) : Prop := lru_keys s = take (cap s) r.

Lemma access_cap load k s : cap (access load k s).2 = cap s.
Proof. unfold access. repeat case_match; done. Qed.

Lemma holds_recent_ok r s : NoDup r → holds_recent r s → lru_ok s.
Proof.
  unfold holds_recent. intros Hr Hs. split.
  - rewrite Hs. by apply NoDup_take.
  - rewrite <- (length_fmap fst). unfold lru_keys in Hs. rewrite Hs.
    rewrite length_take. lia.
Qed.

Lemma access_holds_recent load k s r :
  NoDup r → holds_recent r s →
  (access load k s).1.1 = bool_decide (k ∈ take (cap s) r) ∧
  holds_recent (touch r k) (access load k s).2.
Proof.
  intros Hr Hs. unfold holds_recent in *. rewrite access_cap.
  unfold access. destruct s as [n l]; csimpl in *. unfold lru_keys in Hs. csimpl in Hs.
  case_decide as Hn; csimpl.
  { subst n. destruct l; [|done]. split; [|done]. by rewrite bool_decide_eq_false_2 by set_solver. }
  destruct n as [|n]; [done|]. rewrite take_touch by done.
  rewrite <- Hs. destruct (assoc k l) as [v|] eqn:Ha; csimpl.
  - assert (Hk : k ∈ l.*1).
    { apply list_elem_of_fmap. exists (k, v). split; [done|]. by apply assoc_Some_elem. }
    rewrite bool_decide_eq_true_2, decide_True by done. split; [done|].
    unfold lru_keys, touch. csimpl. by rewrite remove_key_fst.
  - apply assoc_None in Ha. rewrite bool_decide_eq_false_2, (decide_False (P := k ∈ _)) by done.
    split; [done|]. unfold lru_keys. csimpl. f_equal.
    assert (Hlen : length l = length (take (S n) r)) by (rewrite <- Hs; by rewrite length_fmap).
    rewrite length_take in Hlen. case_decide as Hfull.
    + rewrite removelast_take, fmap_take, Hs, take_take. f_equal. lia.
    + rewrite Hs, !take_ge; [done|lia|lia].
Qed.

Lemma run_app load ks1 ks2 s :
  run load (ks1 ++ ks2) s =
    let '(h1, s1) := run load ks1 s in
    let '(h2, s2) := run load ks2 s1 in (h1 ++ h2, s2).
Proof.
  revert s. induction ks1 as [|k ks1 IH]; intros s; csimpl; [by case_match|].
  destruct (access load k s) as [[h v] s1]. rewrite IH.
  repeat case_match; by simplify_eq.
Qed.

(** The hits of a request sequence, predicted from recency alone. *)
Fixpoint hits_from (n : nat) (r ks : list K) : list bool :=
  match ks with
  | [] => []
  | k :: ks => bool_decide (k ∈ take n r) :: hits_from n (touch r k) ks
  end.
Definition lru_hits (n : nat) (ks : list K) : list bool := hits_from n [] ks.

Lemma run_holds_recent load ks s r :
  NoDup r → holds_recent r s →
  (run load ks s).1 = hits_from (cap s) r ks ∧
  holds_recent (foldl touch r ks) (run load ks s).2.
Proof.
  revert s r. induction ks as [|k ks IH]; intros s r Hr Hs; [done|]. csimpl.
  destruct (access_holds_recent load k s r Hr Hs) as [Hhit Hnext].
  pose proof (access_cap load k s) as Hcap.
  destruct (access load k s) as [[h v] s1]. csimpl in *.
  destruct (IH s1 (touch r k)) as [Hhits Hend]; [by apply touch_NoDup|done|].
  destruct (run load ks s1) as [hs s2]. csimpl in *. by rewrite Hhits, Hcap, Hhit.
Qed.

(** From the empty cache the hits are those predicted by recency and the keys
    held are the most recent ones. *)
Lemma run_from_empty load ks n :
  (run load ks (Lru n [])).1 = lru_hits n ks ∧
  lru_keys (run load ks (Lru n [])).2 = take (cap (run load ks (Lru n [])).2) (recent ks).
Proof. apply run_holds_recent; [constructor|]. unfold holds_recent. csimpl. by rewrite take_nil. Qed.

(** *** Consequences for the number of hits *)
Definition count_hits (hs : list bool) : Z := Z.of_nat (length (filter Is_true hs)).

Lemma count_hits_cons h hs : count_hits (h :: hs) = Z.b2z h + count_hits hs.
Proof. unfold count_hits. rewrite filter_cons. destruct h; csimpl; lia. Qed.

Lemma count_hits_bound hs : 0 ≤ count_hits hs ≤ Z.of_nat (length hs).
Proof. unfold count_hits. pose proof (length_filter Is_true hs). lia. Qed.

(** A larger cache hits whenever a smaller one does (LRU is a stack algorithm). *)
Lemma hits_from_mono n m r ks :
  (n ≤ m)%nat → Forall2 (λ a b : bool, a → b) (hits_from n r ks) (hits_from m r ks).
Proof.
  intros Hnm. revert r. induction ks as [|k ks IH]; intros r; constructor; [|apply IH].
  rewrite !bool_decide_spec, !elem_of_take. intros (i & ? & ?). exists i. split; [done|lia].
Qed.

(** Two caches that have a slot for every request hit alike. *)
Lemma hits_from_large n m r ks :
  (length r + length ks ≤ n)%nat → (length r + length ks ≤ m)%nat →
  hits_from n r ks = hits_from m r ks.
Proof.
  revert r. induction ks as [|k ks IH]; intros r Hn Hm; [done|]. csimpl in *.
  rewrite !take_ge by lia. f_equal.
  apply IH; unfold touch; csimpl; pose proof (length_filter (λ x, x ≠ k) r); lia.
Qed.

(** A cache never uses more slots than it has requests, so the capacity may be
    clamped to the number of requests. *)
Lemma lru_hits_clamp n ks : lru_hits (n `min` length ks) ks = lru_hits n ks.
Proof.
  unfold lru_hits. destruct (decide (n ≤ length ks)%nat).
  - by rewrite Nat.min_l.
  - apply hits_from_large; csimpl; lia.
Qed.
End spec.
Arguments lru : clear implicits.

(** ** The interface between a cache and the program that counts its hits

    [lru_create] builds a cache of a capacity, or reports that it has no memory
    ([Some None]); [lru_destroy] releases it. [lru_request] is one request: no behaviour, an error reported to the caller
    ([None]), or a hit or miss. The pages of the example programs are the keys
    themselves, so the abstract loader is the identity. An implementation
    promises that requests simulate the abstract ones ([lru_rep] relates its
    stores to abstract caches) as long as its allocations succeed ([lru_plenty]),
    and that in any case they keep its own invariant ([lru_inv]). *)
Class LruOps (S : Type) := {
  lru_create : Z → option (option S);
  lru_request : Z → S → option (option bool * S);
  lru_destroy : S → option () }.

Class LruLaws (S : Type) `{LruOps S} := {
  lru_inv : S → Prop;
  lru_plenty : S → Prop;
  lru_rep : S → lru Z Z → Prop;
  lru_create_ok n :
    0 <= n <= INT64_MAX →
    ∃ r, lru_create n = Some r ∧ ∀ s, r = Some s → lru_rep s (Lru (Z.to_nat n) []);
  lru_destroy_ok s : lru_inv s → lru_destroy s = Some ();
  lru_rep_inv s a : lru_rep s a → lru_inv s;
  lru_request_inv k s :
    is_i64 k → lru_inv s → ∃ r s', lru_request k s = Some (r, s') ∧ lru_inv s';
  lru_request_ok k s a :
    is_i64 k → lru_rep s a → lru_plenty s →
    ∃ s', lru_request k s = Some (Some (access id k a).1.1, s') ∧
          lru_rep s' (access id k a).2 ∧ lru_plenty s' }.
