(* ===== verification/Input.v ===== *)
(** * Reading decimal integers

    The [read_integer] functions of [src/01-basics/lru-in-c/src/main.c],
    [src/01-basics/lru-in-c-datastructs/src/main.c] (the same text) and
    [src/01-basics/lru-in-cxx/cache.cc], over a byte stream whose end is either
    the end of the file or a read error. *)

From S2P Require Import Prelude.

Record stream := Stream {
  pending : list Z;   (* the bytes still to be read *)
  broken : bool;      (* reading past them is a read error, not an end of file *)
  error : bool        (* the error indicator ([ferror], [bad]) *) }.

Definition EOF : Z := -1.

Definition getchar : C stream Z := λ s,
  match pending s with
  | c :: cs => Some (c, Stream cs (broken s) (error s))
  | [] => Some (EOF, Stream [] (broken s) (error s || broken s))
  end.

Definition isspace (ch : Z) : bool := (ch =? 32) || ((9 <=? ch) && (ch <=? 13)).
Definition isdigit (ch : Z) : bool := (48 <=? ch) && (ch <=? 57).

(** ** C: [read_integer] over [getchar] *)
Module CRead.
(** [do ch = getchar(); while (ch != EOF && isspace((unsigned char)ch));] *)
Fixpoint skip_space (fuel : nat) : C stream Z :=
  match fuel with
  | O => undefined
  | S fuel =>
    ch ← getchar;
    if negb (ch =? EOF) && isspace (ch `mod` 256) then skip_space fuel else mret ch
  end.

(** The [do ... while] loop over the digits: [None] is its [return false]. *)
Fixpoint read_digits (fuel : nat) (limit magnitude ch : Z) : C stream (option (Z * Z)) :=
  match fuel with
  | O => undefined
  | S fuel =>
    let digit := u32 (ch - 48) in
    if u64 (limit - digit) `div` 10 <? magnitude then mret None
    else
      let magnitude := u64 (magnitude * 10 + digit) in
      ch ← getchar;
      if isdigit ch then read_digits fuel limit magnitude ch
      else mret (Some (magnitude, ch))
  end.

(** The value with its sign; the negation of [INT64_MIN] would overflow. *)
Definition signed_value (negative : bool) (magnitude : Z) : option Z :=
  if negative && (magnitude =? u64 (INT64_MAX + 1)) then Some INT64_MIN
  else if negative then (if i64 magnitude =? INT64_MIN then None else Some (- i64 magnitude))
  else Some (i64 magnitude).

(** The result is [Some] of the value stored, or [None] for [false]. *)
Definition read_integer : C stream (option Z) :=
  s ← get;
  ch ← skip_space (S (length (pending s)));
  let negative := ch =? 45 in
  ch ← (if (ch =? 45) || (ch =? 43) then getchar else mret ch);
  if negb (isdigit ch) then mret None
  else
    let limit := if negative then u64 (INT64_MAX + 1) else INT64_MAX in
    s ← get;
    r ← read_digits (S (length (pending s))) limit 0 ch;
    match r with
    | None => mret None
    | Some (magnitude, ch) =>
      s ← get;
      if error s || (negb (ch =? EOF) && negb (isspace (ch `mod` 256))) then mret None
      else v ← of_option (signed_value negative magnitude); mret (Some v)
    end.
End CRead.

(** ** C++: extraction from [std::cin] *)
Module CxxRead.
Fixpoint skip_ws (cs : list Z) : list Z :=
  match cs with c :: cs' => if isspace c then skip_ws cs' else cs | [] => [] end.

(** The digits accumulated by the extraction, and what follows them. *)
Fixpoint span_digits (cs : list Z) : list Z * list Z :=
  match cs with
  | c :: cs' =>
    if isdigit c then let '(ds, rest) := span_digits cs' in (c :: ds, rest) else ([], cs)
  | [] => ([], [])
  end.

Definition digits_value (ds : list Z) : Z := foldl (λ v d, v * 10 + (d - 48)) 0 ds.

(** [std::cin >> value] for a [long long]: [None] when it sets [failbit]. *)
Definition extract : C stream (option Z) :=
  s ← get;
  let cs := skip_ws (pending s) in
  let '(negative, cs) :=
    match cs with
    | c :: cs' => if c =? 45 then (true, cs') else if c =? 43 then (false, cs') else (false, cs)
    | [] => (false, [])
    end in
  let '(ds, rest) := span_digits cs in
  put (Stream rest (broken s) (error s || (bool_decide (rest = []) && broken s)));;
  let v := if negative then - digits_value ds else digits_value ds in
  mret (if bool_decide (ds = []) || negb ((INT64_MIN <=? v) && (v <=? INT64_MAX))
        then None else Some v).

Definition peek : C stream Z :=
  s ← get; mret (default EOF (head (pending s))).

Definition read_integer : C stream (option Z) :=
  v ← extract;
  match v with
  | None => mret None
  | Some v =>
    next ← peek;
    s ← get;
    mret (if negb (error s) && ((next =? EOF) || isspace (next `mod` 256))
          then Some v else None)
  end.
End CxxRead.

(** ** Decimal tokens *)
Definition digits_from (m : Z) (ds : list Z) : Z := foldl (λ v d, v * 10 + (d - 48)) m ds.

Inductive decimal : list Z → Z → Prop :=
| decimal_plain d ds : Forall isdigit (d :: ds) → decimal (d :: ds) (digits_from 0 (d :: ds))
| decimal_plus d ds : Forall isdigit (d :: ds) → decimal (43 :: d :: ds) (digits_from 0 (d :: ds))
| decimal_minus d ds :
    Forall isdigit (d :: ds) → decimal (45 :: d :: ds) (- digits_from 0 (d :: ds)).

(** What may follow a token: the end of the input or a space. *)
Definition terminated (rest : list Z) : Prop :=
  match rest with [] => True | c :: _ => isspace c end.

Lemma isdigit_range c : isdigit c ↔ 48 <= c <= 57.
Proof. unfold isdigit. rewrite andb_True, !Is_true_true, !Z.leb_le. lia. Qed.

Lemma isspace_range c : isspace c ↔ c = 32 ∨ 9 <= c <= 13.
Proof.
  unfold isspace. rewrite orb_True, andb_True, !Is_true_true, !Z.leb_le, Z.eqb_eq. lia.
Qed.

Lemma isdigit_false c : isdigit c = false ↔ ¬ 48 <= c <= 57.
Proof. rewrite <- isdigit_range. destruct (isdigit c); naive_solver. Qed.

Lemma isspace_false c : isspace c = false ↔ ¬ (c = 32 ∨ 9 <= c <= 13).
Proof. rewrite <- isspace_range. destruct (isspace c); naive_solver. Qed.

(** Decide the character tests that the context settles. *)
Ltac char_tests :=
  repeat match goal with
  | H : Is_true (isspace _) |- _ => apply isspace_range in H
  | H : Is_true (isdigit _) |- _ => apply isdigit_range in H
  | |- context [?a =? ?b] =>
    first [rewrite (proj2 (Z.eqb_eq a b)) by lia | rewrite (proj2 (Z.eqb_neq a b)) by lia]
  | |- context [isdigit ?c] =>
    first [rewrite (proj2 (isdigit_false c)) by lia
          | rewrite (Is_true_eq_true _ (proj2 (isdigit_range c) ltac:(lia)))]
  | |- context [isspace ?c] =>
    first [rewrite (proj2 (isspace_false c)) by lia
          | rewrite (Is_true_eq_true _ (proj2 (isspace_range c) ltac:(lia)))]
  end.

Lemma digits_from_mono m ds : Forall isdigit ds → 0 <= m → m <= digits_from m ds.
Proof.
  unfold digits_from. revert m. induction ds as [|d ds IH]; intros m Hds Hm; csimpl; [lia|].
  apply Forall_cons in Hds as [Hd%isdigit_range Hds].
  specialize (IH (m * 10 + (d - 48)) Hds). lia.
Qed.

Module CReadFacts.
Import CRead.

Lemma skip_space_ok ws c cs b e fuel :
  Forall isspace ws → ¬ isspace c → 0 <= c < 256 → (length ws < fuel)%nat →
  skip_space fuel (Stream (ws ++ c :: cs) b e) = Some (c, Stream cs b e).
Proof.
  intros Hws Hc Hr. revert fuel.
  induction ws as [|w ws IH]; intros [|fuel] Hf; csimpl in *; try lia; cstep.
  - rewrite Z.mod_small by lia. apply Is_true_false in Hc. by rewrite Hc, andb_false_r.
  - apply Forall_cons in Hws as [Hw Hws]. apply isspace_range in Hw.
    rewrite Z.mod_small by lia. unfold EOF. char_tests. csimpl. apply IH; [done|lia].
Qed.

(** The overflow test before each digit is exact. *)
Lemma overflow_test limit m d :
  48 <= d <= 57 → 9 <= limit <= 2 ^ 63 →
  (u64 (limit - u32 (d - 48)) `div` 10 <? m) = (limit <? m * 10 + (d - 48)).
Proof.
  intros Hd Hl. unfold u32. rewrite Z.mod_small by lia.
  rewrite u64_small by (unfold is_u64; lia).
  apply eq_bool_prop_intro. rewrite !Is_true_true, !Z.ltb_lt.
  Z.to_euclidean_division_equations. lia.
Qed.

Lemma next_magnitude limit m d :
  48 <= d <= 57 → 0 <= m → m * 10 + (d - 48) <= limit → limit <= 2 ^ 63 →
  u64 (m * 10 + u32 (d - 48)) = m * 10 + (d - 48).
Proof.
  intros. unfold u32. rewrite Z.mod_small by lia. apply u64_small. unfold is_u64. lia.
Qed.

(** The loop stores the value exactly when it does not exceed the limit. *)
Lemma read_digits_ok fuel limit m d ds rest b :
  Forall isdigit (d :: ds) → terminated rest → 0 <= m → 9 <= limit <= 2 ^ 63 →
  (length ds < fuel)%nat →
  ∃ s', read_digits fuel limit m d (Stream (ds ++ rest) b false) =
    Some (if digits_from m (d :: ds) <=? limit
          then Some (digits_from m (d :: ds), default EOF (head rest)) else None, s') ∧
    (digits_from m (d :: ds) <= limit →
     s' = Stream (tail rest) b (b && bool_decide (rest = []))).
Proof.
  revert m d fuel. induction ds as [|d' ds IH]; intros m d [|fuel] Hds Ht Hm Hl Hf;
    csimpl in *; try lia; apply Forall_cons in Hds as [Hd Hds];
    apply isdigit_range in Hd; rewrite overflow_test by done;
    pose proof (digits_from_mono (m * 10 + (d - 48)) _ Hds ltac:(lia)) as Hmono;
    destruct (Z.ltb_spec limit (m * 10 + (d - 48))) as [Hover|Hin].
  - rewrite (proj2 (Z.leb_gt _ _)) by lia. eexists. split; [done|]. lia.
  - rewrite (next_magnitude limit) by lia. rewrite (proj2 (Z.leb_le _ _)) by lia.
    destruct rest as [|c rest]; (cstep; csimpl).
    + eexists. split; [done|]. intros _. f_equal. by destruct b.
    + csimpl in Ht. unfold EOF. char_tests. eexists. split; [done|]. intros _. f_equal.
      by rewrite andb_false_r.
  - csimpl in *. rewrite (proj2 (Z.leb_gt _ _)) by lia. eexists. split; [done|]. lia.
  - rewrite (next_magnitude limit) by lia. cstep.
    apply Forall_cons in Hds as [Hd' Hds]. rewrite (Is_true_eq_true _ Hd').
    apply IH; [by constructor|done|lia|lia|lia].
Qed.

(** *** Every input is accepted or refused, and what is accepted is in range *)
Lemma getchar_pending s : ∃ c s', getchar s = Some (c, s') ∧
  (pending s = [] ∧ c = EOF ∧ pending s' = [] ∨ pending s = c :: pending s').
Proof. destruct s as [[|c cs] b e]; eexists _, _; csimpl; naive_solver. Qed.

Lemma skip_space_total fuel s :
  (length (pending s) < fuel)%nat → ∃ c s', skip_space fuel s = Some (c, s').
Proof.
  revert s. induction fuel as [|fuel IH]; intros s Hf; [lia|].
  destruct (getchar_pending s) as (c & s' & Hget & Hcase). cbn [skip_space].
  cstep_by Hget. destruct (negb (c =? EOF) && _) eqn:Hc; [|by eexists _, _].
  apply andb_prop in Hc as [Hc _]. destruct Hcase as [(_ & -> & _)|Hp]; [done|].
  apply IH. rewrite Hp in Hf. csimpl in Hf. lia.
Qed.

Lemma read_digits_total fuel limit m ch s :
  (length (pending s) < fuel)%nat → isdigit ch → 0 <= m → 9 <= limit <= 2 ^ 63 →
  ∃ r s', read_digits fuel limit m ch s = Some (r, s') ∧
    ∀ m' c, r = Some (m', c) → 0 <= m' <= limit.
Proof.
  revert m ch s. induction fuel as [|fuel IH]; intros m ch s Hf Hch Hm Hl; [lia|].
  apply isdigit_range in Hch. cbn [read_digits]. rewrite overflow_test by done.
  destruct (Z.ltb_spec limit (m * 10 + (ch - 48))); [by eexists _, _|].
  rewrite (next_magnitude limit) by lia.
  destruct (getchar_pending s) as (c & s' & Hget & Hcase). cstep_by Hget.
  destruct (isdigit c) eqn:Hc.
  - apply Is_true_true in Hc. destruct Hcase as [(_ & -> & _)|Hp]; [done|].
    apply IH; [rewrite Hp in Hf; csimpl in Hf; lia|done|lia|lia].
  - eexists _, _. split; [done|]. intros m' c' [= <- <-]. lia.
Qed.

#[local] Arguments skip_space : simpl never.
#[local] Arguments read_digits : simpl never.

Definition in_int64 (v : Z) : bool := (INT64_MIN <=? v) && (v <=? INT64_MAX).

(** The last lines of [read_integer], after the loop. *)
Lemma finish_value (negative : bool) m :
  0 <= m <= (if negative then 2 ^ 63 else 2 ^ 63 - 1) →
  signed_value negative m = Some (if negative then - m else m).
Proof.
  intros Hm. unfold signed_value. change (u64 (INT64_MAX + 1)) with (2 ^ 63).
  destruct negative; csimpl.
  - destruct (Z.eqb_spec m (2 ^ 63)) as [->|]; [done|].
    rewrite i64_small by (unfold is_i64; lia). unfold INT64_MIN. by rewrite (proj2 (Z.eqb_neq _ _)) by lia.
  - by rewrite i64_small by (unfold is_i64; lia).
Qed.

(** From the first digit on. *)
Definition read_magnitude (negative : bool) (ch : Z) : C stream (option Z) :=
  let limit := if negative then u64 (INT64_MAX + 1) else INT64_MAX in
  s ← get;
  r ← read_digits (S (length (pending s))) limit 0 ch;
  match r with
  | None => mret None
  | Some (magnitude, ch) =>
    s ← get;
    if error s || (negb (ch =? EOF) && negb (isspace (ch `mod` 256))) then mret None
    else v ← of_option (signed_value negative magnitude); mret (Some v)
  end.

Lemma read_magnitude_ok (negative : bool) d ds rest b :
  Forall isdigit (d :: ds) → terminated rest → (rest = [] → b = false) →
  let v := digits_from 0 (d :: ds) in
  ∃ s', read_magnitude negative d (Stream (ds ++ rest) b false) =
      Some (if in_int64 (if negative then - v else v)
            then Some (if negative then - v else v) else None, s') ∧
    (in_int64 (if negative then - v else v) → s' = Stream (tail rest) b false).
Proof.
  intros Hds Ht Hb v. unfold read_magnitude. cstep. csimpl.
  set (limit := if negative then _ else _).
  assert (Hlimit : limit = if negative then 2 ^ 63 else 2 ^ 63 - 1) by by destruct negative.
  destruct (read_digits_ok (S (length (ds ++ rest))) limit 0 d ds rest b Hds Ht ltac:(lia)
    ltac:(destruct negative; lia) ltac:(rewrite length_app; lia)) as (s' & Hrun & Hs').
  fold v in Hrun, Hs'. cstep_by Hrun.
  pose proof (digits_from_mono 0 (d :: ds) Hds ltac:(lia)) as Hpos. fold v in Hpos.
  assert (Hin : in_int64 (if negative then - v else v) = (v <=? limit)).
  { rewrite Hlimit. unfold in_int64, INT64_MIN, INT64_MAX.
    apply eq_bool_prop_intro. rewrite andb_True, !Is_true_true, !Z.leb_le.
    destruct negative; lia. }
  rewrite Hin. destruct (Z.leb_spec v limit) as [Hle|Hgt]; [|eexists; split; [done|done]].
  rewrite (Hs' Hle). cstep. csimpl.
  replace (b && _) with false.
  2: { destruct rest as [|c rest]; [rewrite Hb by done; done|by rewrite bool_decide_eq_false_2, andb_false_r]. }
  eexists. split; [|done].
  assert (Hsp : negb (default EOF (head rest) =? EOF) &&
                negb (isspace (default EOF (head rest) `mod` 256)) = false).
  { destruct rest as [|c rest]; csimpl in *; [done|].
    pose proof (proj1 (isspace_range c) Ht). rewrite Z.mod_small by lia.
    rewrite (Is_true_eq_true _ Ht). by rewrite andb_false_r. }
  rewrite Hsp. csimpl.
  by rewrite (finish_value negative v) by (destruct negative; lia).
Qed.

(** A whole decimal token followed by a space or the end of the input is read
    as its value when the value fits an [int64_t], and refused otherwise; one
    byte after the token is consumed. *)
Lemma c_read_integer_token ws cs v rest b :
  Forall isspace ws → decimal cs v → terminated rest → (rest = [] → b = false) →
  ∃ s', read_integer (Stream (ws ++ cs ++ rest) b false) =
      Some (if in_int64 v then Some v else None, s') ∧
    (in_int64 v → s' = Stream (tail rest) b false).
Proof.
  intros Hws Hcs Ht Hb. unfold read_integer. cstep. csimpl.
  destruct Hcs as [d ds Hds|d ds Hds|d ds Hds];
    pose proof (proj1 (Forall_cons _ _ _) Hds) as [Hd _];
    pose proof (proj1 (isdigit_range d) Hd) as Hr; csimpl;
    (erewrite C_bind_Some by (apply skip_space_ok;
       [done|rewrite isspace_range; lia|lia|rewrite length_app; csimpl; lia]));
    lazy beta; char_tests; csimpl; cstep; char_tests; csimpl.
  - apply (read_magnitude_ok false); done.
  - apply (read_magnitude_ok false); done.
  - apply (read_magnitude_ok true); done.
Qed.

Lemma read_magnitude_total negative ch s :
  isdigit ch → ∃ r s', read_magnitude negative ch s = Some (r, s') ∧
    ∀ v, r = Some v → is_i64 v.
Proof.
  intros Hch. unfold read_magnitude. cstep.
  set (limit := if negative then _ else _).
  assert (Hlimit : limit = if negative then 2 ^ 63 else 2 ^ 63 - 1) by by destruct negative.
  destruct (read_digits_total (S (length (pending s))) limit 0 ch s ltac:(lia) Hch ltac:(lia)
    ltac:(destruct negative; lia)) as (r & s' & Hrun & Hr).
  cstep_by Hrun. destruct r as [[m c]|]; [|by eexists _, _]. cstep.
  specialize (Hr m c eq_refl).
  destruct (error s' || _); [by eexists _, _|].
  rewrite (finish_value negative m) by (destruct negative; lia).
  assert (His : is_i64 (if negative then - m else m)) by (unfold is_i64; destruct negative; lia).
  eexists _, _. split; [done|]. by intros v [= <-].
Qed.

Lemma read_integer_total s :
  ∃ r s', read_integer s = Some (r, s') ∧ ∀ v, r = Some v → is_i64 v.
Proof.
  unfold read_integer. cstep.
  destruct (skip_space_total (S (length (pending s))) s ltac:(lia)) as (c & s1 & Hskip).
  cstep_by Hskip.
  assert (Hnext : ∃ ch s2, (if (c =? 45) || (c =? 43) then getchar else mret c) s1 = Some (ch, s2)).
  { destruct (_ || _); [|by eexists _, _].
    destruct (getchar_pending s1) as (? & ? & ? & _). by eexists _, _. }
  destruct Hnext as (ch & s2 & Hnext). cstep_by Hnext.
  destruct (isdigit ch) eqn:Hch; [|by eexists _, _].
  apply (read_magnitude_total (c =? 45)). by apply Is_true_true.
Qed.
End CReadFacts.

Module CxxReadFacts.
Import CxxRead.

Lemma skip_ws_ok ws c cs :
  Forall isspace ws → ¬ isspace c → skip_ws (ws ++ c :: cs) = c :: cs.
Proof.
  intros Hws Hc. induction Hws as [|w ws Hw Hws IH]; csimpl.
  - apply Is_true_false in Hc. by rewrite Hc.
  - by rewrite (Is_true_eq_true _ Hw).
Qed.

Lemma span_digits_ok ds rest :
  Forall isdigit ds → terminated rest → span_digits (ds ++ rest) = (ds, rest).
Proof.
  intros Hds Ht. induction Hds as [|d ds Hd Hds IH]; csimpl.
  - destruct rest as [|c rest]; [done|]. csimpl in *. by char_tests.
  - by rewrite (Is_true_eq_true _ Hd), IH.
Qed.

Lemma cxx_read_integer_token ws cs v rest :
  Forall isspace ws → decimal cs v → terminated rest → is_i64 v →
  read_integer (Stream (ws ++ cs ++ rest) false false)
    = Some (Some v, Stream rest false false).
Proof.
  intros Hws Hcs Ht Hv. unfold read_integer.
  assert (Hext : extract (Stream (ws ++ cs ++ rest) false false)
                 = Some (Some v, Stream rest false false)).
  { unfold extract. cstep. csimpl.
    assert (Hrange : (INT64_MIN <=? v) && (v <=? INT64_MAX) = true).
    { unfold is_i64, INT64_MIN, INT64_MAX in *. by rewrite !(proj2 (Z.leb_le _ _)) by lia. }
    destruct Hcs as [d ds Hds|d ds Hds|d ds Hds];
      pose proof (proj1 (Forall_cons _ _ _) Hds) as [Hd _];
      pose proof (proj1 (isdigit_range d) Hd) as Hr; csimpl;
      (rewrite skip_ws_ok by (done || rewrite isspace_range; lia));
      char_tests; rewrite ?app_comm_cons, span_digits_ok by done;
      cstep; rewrite andb_false_r;
      change (digits_value (d :: ds)) with (digits_from 0 (d :: ds));
      rewrite Hrange; done. }
  cstep_by Hext. cstep. cstep. csimpl.
  destruct rest as [|c rest]; csimpl in *; [done|].
  pose proof (proj1 (isspace_range c) Ht). rewrite Z.mod_small by lia.
  unfold EOF. rewrite (Is_true_eq_true _ Ht). by rewrite orb_true_r.
Qed.
End CxxReadFacts.

(** ** Sequences of tokens *)
Inductive reads : list Z → list Z → Prop :=
| reads_done text : reads text []
| reads_token ws cs v rest vs :
    Forall isspace ws → decimal cs v → is_i64 v → terminated rest → reads rest vs →
    reads (ws ++ cs ++ rest) (v :: vs).

Lemma reads_i64 text vs : reads text vs → Forall is_i64 vs.
Proof. induction 1; by constructor. Qed.

Lemma reads_drop_space c rest vs : isspace c → reads (c :: rest) vs → reads rest vs.
Proof.
  intros Hc Hr. remember (c :: rest) as text eqn:Htext.
  destruct Hr as [|ws cs v rest' vs Hws Hcs Hv Ht Hr]; [constructor|].
  destruct ws as [|w ws].
  - exfalso. apply isspace_range in Hc.
    destruct Hcs as [d ds Hds|d ds Hds|d ds Hds]; csimpl in *; simplify_eq; try lia.
    apply Forall_cons in Hds as [Hd%isdigit_range _]. lia.
  - csimpl in *. simplify_eq. apply Forall_cons in Hws as [_ Hws]. by constructor.
Qed.

(** The tokens, each after a space. *)
Definition render (toks : list (list Z)) : list Z := mjoin ((λ t, 32 :: t) <$> toks).

Lemma reads_render toks vs :
  Forall2 decimal toks vs → Forall is_i64 vs → reads (render toks) vs.
Proof.
  induction 1 as [|t v toks vs Ht _ IH]; intros Hvs; [constructor|].
  apply Forall_cons in Hvs as [Hv Hvs].
  apply (reads_token [32] t v (render toks)); [by repeat constructor|done..| |by apply IH].
  by destruct toks.
Qed.

(** Tokens of digits only. *)
Lemma decimals_plain toks :
  Forall (λ t, t ≠ [] ∧ Forall isdigit t) toks → Forall2 decimal toks (digits_from 0 <$> toks).
Proof.
  induction 1 as [|t toks [Hne Ht] _ IH]; csimpl; constructor; [|done].
  destruct t; [done|]. by constructor.
Qed.

(** The input ["2 5 7 8 7 9 8"]: a capacity, a count and five keys. *)
Definition sample_tokens : list (list Z) := [[50]; [53]; [55]; [56]; [55]; [57]; [56]].

Lemma sample_reads : reads (render sample_tokens) [2; 5; 7; 8; 7; 9; 8].
Proof.
  apply reads_render.
  - apply (decimals_plain sample_tokens). by repeat constructor.
  - unfold is_i64. repeat constructor; lia.
Qed.

(** What a program's [read_integer] promises to its main function. *)
Class Reader (rd : C stream (option Z)) := reader_reads text v vs :
  reads text (v :: vs) →
  ∃ rest, rd (Stream text false false) = Some (Some v, Stream rest false false) ∧
    reads rest vs.

#[export] Instance c_reader : Reader CRead.read_integer.
Proof.
  intros text v vs Hr. inversion Hr as [|ws cs ? rest ? Hws Hcs Hv Ht Hrest]; subst.
  destruct (CReadFacts.c_read_integer_token ws cs v rest false Hws Hcs Ht ltac:(done))
    as (s' & Hrun & Hs').
  assert (Hin : CReadFacts.in_int64 v = true).
  { unfold CReadFacts.in_int64, is_i64, INT64_MIN, INT64_MAX in *.
    by rewrite !(proj2 (Z.leb_le _ _)) by lia. }
  rewrite Hin in Hrun, Hs'. rewrite (Hs' I) in Hrun. eexists. split; [done|].
  destruct rest as [|c rest]; csimpl; [done|]. by eapply reads_drop_space.
Qed.

#[export] Instance cxx_reader : Reader CxxRead.read_integer.
Proof.
  intros text v vs Hr. inversion Hr as [|ws cs ? rest ? Hws Hcs Hv Ht Hrest]; subst.
  exists rest. split; [|done]. by apply CxxReadFacts.cxx_read_integer_token.
Qed.

(** A reader that always returns, and never a value out of range. *)
Definition total_reader (rd : C stream (option Z)) : Prop :=
  ∀ st, ∃ r st', rd st = Some (r, st') ∧ ∀ v, r = Some v → is_i64 v.

Lemma c_reader_total : total_reader CRead.read_integer.
Proof. intros st. apply CReadFacts.read_integer_total. Qed.

Lemma cxx_extract_total st :
  ∃ r st', CxxRead.extract st = Some (r, st') ∧ ∀ v, r = Some v → is_i64 v.
Proof.
  unfold CxxRead.extract. cstep. destruct (match _ with [] => _ | _ => _ end) as [negative cs].
  destruct (CxxRead.span_digits cs) as [ds rest]. cstep. eexists _, _. split; [done|].
  intros v Hv. destruct (bool_decide _); [done|]. csimpl in Hv.
  destruct (_ && _) eqn:Hr; [|done]. apply andb_prop in Hr as [H1 H2].
  apply Z.leb_le in H1, H2. csimpl in Hv. injection Hv as <-.
  unfold is_i64, INT64_MIN, INT64_MAX in *. lia.
Qed.

Lemma cxx_reader_total : total_reader CxxRead.read_integer.
Proof.
  intros st. unfold CxxRead.read_integer.
  destruct (cxx_extract_total st) as (r & st' & Hrun & Hr). cstep_by Hrun.
  destruct r as [v|]; [|by eexists _, _]. cstep. cstep.
  eexists _, _. split; [done|]. intros v' Hv'. apply Hr. by destruct (_ && _).
Qed.
