(* ===== verification/LruMain.v ===== *)
(** * The request loops and main functions of the cache programs

    [src/01-basics/lru-in-c/src/main.c], [src/01-basics/lru-in-c-datastructs/src/main.c]
    and [src/01-basics/lru-in-cxx/cache.cc] read a capacity, a count and a
    sequence of keys, and print the number of hits. They are verified here against
    the interfaces [Reader] and [LruLaws]; each cache file instantiates them. *)

From S2P Require Import Prelude LruSpec Input.

Definition EXIT_SUCCESS : Z := 0.
Definition EXIT_FAILURE : Z := 1.

(** A signed 64-bit computation: overflow is undefined. *)
Definition signed64 {S} (z : Z) : C S Z :=
  if (INT64_MIN <=? z) && (z <=? INT64_MAX) then mret z else undefined.

Section mains.
Context {S : Type} (rd : C stream (option Z)).
Context `{ops : LruOps S}.

(** [for (i = 0; i < n; ++i)]: read a key, make a request, count its hit; [None]
    when a key cannot be read or the cache reports an error. The cache is
    destroyed on every path. *)
Fixpoint request_loop (n : nat) (hits : Z) (s : S) : C stream (option Z) :=
  match n with
  | O => of_option (lru_destroy s);; mret (Some hits)
  | Datatypes.S n =>
    key ← rd;
    match key with
    | None => of_option (lru_destroy s);; mret None
    | Some key =>
      '(r, s) ← of_option (lru_request key s);
      match r with
      | None => of_option (lru_destroy s);; mret None
      | Some hit => hits ← signed64 (hits + Z.b2z hit); request_loop n hits s
      end
    end
  end.

(** The exit status and the numbers printed on the standard output;
    [stdout_ok] tells whether printing succeeds. *)
Definition report (stdout_ok : bool) (hits : option Z) : Z * list Z :=
  match hits with
  | None => (EXIT_FAILURE, [])
  | Some hits => (if stdout_ok then EXIT_SUCCESS else EXIT_FAILURE, [hits])
  end.

(** [main] of the C programs. *)
Definition main_c (stdout_ok : bool) : C stream (Z * list Z) :=
  capacity ← rd;
  match capacity with None => mret (EXIT_FAILURE, []) | Some capacity =>
  count ← rd;
  match count with None => mret (EXIT_FAILURE, []) | Some count =>
  if (capacity <? 0) || (count <? 0) then mret (EXIT_FAILURE, [])
  else
    let limit := u64 (if capacity <? count then capacity else count) in
    cache ← (if limit <=? SIZE_MAX then of_option (lru_create limit) else mret None);
    match cache with
    | None => mret (EXIT_FAILURE, [])
    | Some cache =>
      hits ← request_loop (Z.to_nat count) 0 cache;
      mret (report stdout_ok hits)
    end
  end end.

(** [main] of the C++ program. *)
Definition main_cxx (stdout_ok : bool) : C stream (Z * list Z) :=
  m ← rd;
  match m with None => mret (EXIT_FAILURE, []) | Some m =>
  n ← rd;
  match n with None => mret (EXIT_FAILURE, []) | Some n =>
  if (m <? 0) || (n <? 0) || (SIZE_MAX <? u64 m) then mret (EXIT_FAILURE, [])
  else
    cache ← of_option (lru_create (u64 m));
    match cache with
    | None => mret (EXIT_FAILURE, [])
    | Some cache =>
      hits ← request_loop (Z.to_nat n) 0 cache;
      mret (report stdout_ok hits)
    end
  end end.
End mains.

Lemma signed64_ok {S} z (s : S) : 0 <= z <= INT64_MAX → signed64 z s = Some (z, s).
Proof.
  intros Hz. unfold signed64, INT64_MIN in *.
  by rewrite !(proj2 (Z.leb_le _ _)) by lia.
Qed.

Section facts.
Context {S : Type} (rd : C stream (option Z)) `{ops : LruOps S} `{laws : !LruLaws S}.

Lemma create_rep n s :
  0 <= n <= INT64_MAX → lru_create n = Some (Some s) → lru_rep s (Lru (Z.to_nat n) []).
Proof. intros Hn Hc. destruct (lru_create_ok n Hn) as (r & Hr & Hrep). apply Hrep. congruence. Qed.

(** *** What the loop counts *)
Lemma request_loop_ok `{!Reader rd} text ks hits s a :
  reads text ks → lru_rep s a → lru_plenty s →
  0 <= hits → hits + Z.of_nat (length ks) <= INT64_MAX →
  ∃ st', request_loop rd (length ks) hits s (Stream text false false) =
    Some (Some (hits + count_hits (run id ks a).1), st').
Proof.
  revert text hits s a. induction ks as [|k ks IH]; intros text hits s a Ht Hrep Hpl H0 Hmax.
  { eexists. csimpl. rewrite (lru_destroy_ok s (lru_rep_inv s a Hrep)). cstep.
    unfold count_hits. csimpl. by rewrite Z.add_0_r. }
  assert (Hk : is_i64 k) by (apply reads_i64 in Ht; by apply Forall_cons in Ht as [? _]).
  destruct (reader_reads text k ks Ht) as (rest & Hread & Hrest). csimpl.
  cstep_by Hread. destruct (lru_request_ok k s a Hk Hrep Hpl) as (s1 & -> & Hrep1 & Hpl1).
  cstep. destruct (access id k a) as [[h v] a1]. csimpl in *.
  erewrite C_bind_Some by (apply signed64_ok; destruct h; csimpl; lia).
  destruct (IH rest (hits + Z.b2z h) s1 a1 Hrest Hrep1 Hpl1) as (st' & Hrun);
    [destruct h; csimpl; lia..|].
  exists st'. rewrite Hrun. destruct (run id ks a1) as [hs a2]. csimpl.
  rewrite count_hits_cons. do 3 f_equal. lia.
Qed.

(** *** The loop always ends with a defined result *)
Lemma request_loop_total n hits s st :
  total_reader rd → lru_inv s → 0 <= hits → hits + Z.of_nat n <= INT64_MAX →
  ∃ r st', request_loop rd n hits s st = Some (r, st').
Proof.
  intros Hrd. revert hits s st. induction n as [|n IH]; intros hits s st Hinv H0 Hmax.
  { csimpl. rewrite (lru_destroy_ok s Hinv). by eexists _, _. }
  csimpl. destruct (Hrd st) as (r & st1 & Hread & Hr). cstep_by Hread.
  destruct r as [k|]; [|rewrite (lru_destroy_ok s Hinv); by eexists _, _].
  destruct (lru_request_inv k s (Hr k eq_refl) Hinv) as (h & s1 & -> & Hinv1). cstep.
  destruct h as [h|]; [|rewrite (lru_destroy_ok s1 Hinv1); by eexists _, _].
  erewrite C_bind_Some by (apply signed64_ok; destruct h; csimpl; lia).
  apply IH; [done|destruct h; csimpl; lia..].
Qed.

(** *** The main functions *)
Lemma loop_from_empty `{!Reader rd} text ks n s :
  reads text ks → lru_rep s (Lru n []) → lru_plenty s →
  Z.of_nat (length ks) <= INT64_MAX →
  ∃ st', request_loop rd (length ks) 0 s (Stream text false false) =
    Some (Some (count_hits (lru_hits n ks)), st').
Proof.
  intros Ht Hrep Hpl Hmax.
  destruct (request_loop_ok text ks 0 s _ Ht Hrep Hpl) as (st' & ->); [lia..|].
  by rewrite (proj1 (run_from_empty id ks n)), Z.add_0_l; eexists.
Qed.

(** The sizes that the main functions pass to [lru_create]. *)
Lemma clamp_range capacity count :
  is_i64 capacity → is_i64 count → (capacity <? 0) || (count <? 0) = false →
  let limit := u64 (if capacity <? count then capacity else count) in
  limit = Z.min capacity count ∧ 0 <= limit <= INT64_MAX ∧ (limit <=? SIZE_MAX) = true ∧
  0 <= count.
Proof.
  unfold is_i64, INT64_MAX, SIZE_MAX. intros Hc Hn [H1 H2]%orb_false_elim.
  apply Z.ltb_ge in H1, H2. cbv zeta.
  rewrite u64_small by (unfold is_u64; destruct (_ <? _); lia).
  rewrite Z.leb_le. destruct (Z.ltb_spec capacity count); lia.
Qed.

Lemma main_c_hits `{!Reader rd} text capacity ks s stdout_ok :
  reads text (capacity :: Z.of_nat (length ks) :: ks) → 0 <= capacity →
  lru_create (Z.min capacity (Z.of_nat (length ks))) = Some (Some s) → lru_plenty s →
  ∃ st', main_c rd stdout_ok (Stream text false false) =
    Some ((if stdout_ok then EXIT_SUCCESS else EXIT_FAILURE,
           [count_hits (lru_hits (Z.to_nat capacity) ks)]), st').
Proof.
  intros Ht Hcap Hcreate Hpl. unfold main_c.
  pose proof (reads_i64 _ _ Ht) as Hall. apply Forall_cons in Hall as [Hc Hall].
  apply Forall_cons in Hall as [Hn _].
  destruct (reader_reads text _ _ Ht) as (rest & Hread & Ht1). cstep_by Hread.
  destruct (reader_reads rest _ _ Ht1) as (rest1 & Hread1 & Ht2). cstep_by Hread1.
  assert (Hneg : (capacity <? 0) || (Z.of_nat (length ks) <? 0) = false).
  { by rewrite !(proj2 (Z.ltb_ge _ _)) by lia. }
  rewrite Hneg. destruct (clamp_range _ _ Hc Hn Hneg) as (Hlim & Hrange & Hmax & _).
  cbv zeta in *. rewrite Hmax, Hlim, Hcreate. cstep.
  rewrite Hlim in Hrange. pose proof (create_rep _ s Hrange Hcreate) as Hrep.
  destruct (loop_from_empty rest1 ks _ s Ht2 Hrep Hpl) as (st' & Hrun); [unfold is_i64, INT64_MAX in *; lia|].
  rewrite Nat2Z.id. cstep_by Hrun. eexists.
  rewrite Z2Nat.inj_min, Nat2Z.id, lru_hits_clamp. done.
Qed.

Lemma main_c_total stdout_ok st :
  total_reader rd → ∃ r st', main_c rd stdout_ok st = Some (r, st').
Proof.
  intros Hrd. unfold main_c.
  destruct (Hrd st) as (c & st1 & Hread & Hc). cstep_by Hread.
  destruct c as [capacity|]; [|by eexists _, _].
  destruct (Hrd st1) as (c & st2 & Hread1 & Hn). cstep_by Hread1.
  destruct c as [count|]; [|by eexists _, _].
  destruct ((capacity <? 0) || (count <? 0)) eqn:Hneg; [by eexists _, _|].
  destruct (clamp_range _ _ (Hc _ eq_refl) (Hn _ eq_refl) Hneg) as (Hlim & Hrange & Hmax & H0).
  cbv zeta in *. rewrite Hmax.
  destruct (lru_create_ok _ Hrange) as ([s|] & -> & Hrep); cstep; [|by eexists _, _].
  destruct (request_loop_total (Z.to_nat count) 0 s st2 Hrd
    (lru_rep_inv _ _ (Hrep _ eq_refl))) as (r & st3 & Hrun);
    [lia|specialize (Hn _ eq_refl); unfold is_i64, INT64_MAX in *; lia|].
  cstep_by Hrun. by eexists _, _.
Qed.

Lemma main_cxx_hits `{!Reader rd} text capacity ks s stdout_ok :
  reads text (capacity :: Z.of_nat (length ks) :: ks) → 0 <= capacity →
  lru_create capacity = Some (Some s) → lru_plenty s →
  ∃ st', main_cxx rd stdout_ok (Stream text false false) =
    Some ((if stdout_ok then EXIT_SUCCESS else EXIT_FAILURE,
           [count_hits (lru_hits (Z.to_nat capacity) ks)]), st').
Proof.
  intros Ht Hcap Hcreate Hpl. unfold main_cxx.
  pose proof (reads_i64 _ _ Ht) as Hall. apply Forall_cons in Hall as [Hc Hall].
  apply Forall_cons in Hall as [Hn _]. unfold is_i64 in *.
  destruct (reader_reads text _ _ Ht) as (rest & Hread & Ht1). cstep_by Hread.
  destruct (reader_reads rest _ _ Ht1) as (rest1 & Hread1 & Ht2). cstep_by Hread1.
  rewrite u64_small by (unfold is_u64; lia).
  assert (Hneg : (capacity <? 0) || (Z.of_nat (length ks) <? 0) || (SIZE_MAX <? capacity) = false).
  { unfold SIZE_MAX. by rewrite !(proj2 (Z.ltb_ge _ _)) by lia. }
  rewrite Hneg, Hcreate. cstep.
  pose proof (create_rep capacity s ltac:(unfold INT64_MAX; lia) Hcreate) as Hrep.
  destruct (loop_from_empty rest1 ks _ s Ht2 Hrep Hpl) as (st' & Hrun); [unfold INT64_MAX; lia|].
  rewrite Nat2Z.id. cstep_by Hrun. by eexists.
Qed.
End facts.
