(* ===== verification/LruCxx.v ===== *)
(** * [src/01-basics/lru-in-cxx/cache.hpp]: the cache over [std::list] and
    [std::unordered_map]

    A [std::list] is the sequence of its elements, each with the identity that
    its iterators carry (iterators stay valid under [splice] and until their
    element is erased); the [unordered_map] is a finite map from keys to those
    identities. The loader may throw, and so may the allocations of
    [emplace_front] and [emplace]. *)

From S2P Require Import Prelude LruSpec Input LruMain.

Section cache_t.
Context {T KeyT : Type} `{Countable KeyT}.

(** Iterators of the [std::list]. *)
Abbreviation ListIt := nat (only parsing).

Record cache_t := Cache {
  sz_ : Z;
  cache_ : list (ListIt * (KeyT * T));
  hash_ : gmap KeyT ListIt;
  next_it : ListIt  (* the identity the next allocated element gets *) }.

Definition make_cache (sz : Z) : cache_t := Cache sz [] ∅ 0.

Definition max_capacity (c : cache_t) : Z := sz_ c.
Definition full (c : cache_t) : bool := Z.of_nat (length (cache_ c)) =? sz_ c.

Definition set_cache (l : list (ListIt * (KeyT * T))) (c : cache_t) : cache_t :=
  Cache (sz_ c) l (hash_ c) (next_it c).
Definition set_hash (m : gmap KeyT ListIt) (c : cache_t) : cache_t :=
  Cache (sz_ c) (cache_ c) m (next_it c).

(** [cache_.splice(cache_.begin(), cache_, eltit)]: undefined when [eltit] is
    not an iterator into the list. *)
Definition splice_begin (eltit : ListIt) : C cache_t () :=
  c ← get;
  '(i, e) ← of_option (list_find (λ e, e.1 = eltit) (cache_ c));
  put (set_cache (e :: delete i (cache_ c)) c).

(** [hash_.erase(cache_.back().first); cache_.pop_back();] undefined on an
    empty list. *)
Definition evict_back : C cache_t () :=
  c ← get;
  e ← of_option (last (cache_ c));
  put (set_hash (delete e.2.1 (hash_ c)) c);;
  modify (λ c, set_cache (removelast (cache_ c)) c).

(** [cache_.emplace_front(key, page)] *)
Definition emplace_front (allocated : bool) (key : KeyT) (page : T) : X cache_t () :=
  if allocated
  then call (modify (λ c, Cache (sz_ c) ((next_it c, (key, page)) :: cache_ c)
                                (hash_ c) (S (next_it c))))
  else throw bad_alloc.

(** [hash_.emplace(key, cache_.begin())]: no effect when the key is present. *)
Definition hash_emplace (allocated : bool) (key : KeyT) : X cache_t () :=
  c ← call get;
  it ← call (of_option (fst <$> head (cache_ c)));
  match hash_ c !! key with
  | Some _ => mret ()
  | None => if allocated then call (put (set_hash (<[key:=it]> (hash_ c)) c))
            else throw bad_alloc
  end.

(** [front_ok] and [hash_ok] tell whether the two node allocations succeed. *)
Definition lookup_update (front_ok hash_ok : bool) (slow_get_page : KeyT → result T)
    (key : KeyT) : X cache_t bool :=
  c ← call get;
  if max_capacity c =? 0 then mret false
  else match hash_ c !! key with
  | Some eltit => call (splice_begin eltit);; mret true
  | None =>
    page ← of_result (slow_get_page key);
    (if full c then call evict_back else mret ());;
    emplace_front front_ok key page;;
    hash_emplace hash_ok key;;
    mret false
  end.

(** ** Invariants *)
Implicit Types c : cache_t.

(** What holds whatever throws: every iterator of the table points to a live
    element of the list that holds its key. *)
Record cache_safe c : Prop := {
  safe_its : NoDup (cache_ c).*1;
  safe_fresh : ∀ e, e ∈ cache_ c → (e.1 < next_it c)%nat;
  safe_size : Z.of_nat (length (cache_ c)) ≤ sz_ c;
  safe_hash : ∀ k it, hash_ c !! k = Some it → ∃ v, (it, (k, v)) ∈ cache_ c }.

(** What holds as long as no allocation fails: the table indexes the list. *)
Record cache_ok c : Prop := {
  ok_safe : cache_safe c;
  ok_keys : NoDup (cache_ c).*2.*1;
  ok_index : ∀ it k v, (it, (k, v)) ∈ cache_ c → hash_ c !! k = Some it }.

(** The abstract cache. *)
Definition abs c : lru KeyT T := Lru (Z.to_nat (sz_ c)) (cache_ c).*2.

(** ** The list operations *)
Lemma cache_split c it kv :
  NoDup (cache_ c).*1 → (it, kv) ∈ cache_ c →
  ∃ l1 l2, cache_ c = l1 ++ (it, kv) :: l2 ∧
    splice_begin it c = Some ((), set_cache ((it, kv) :: l1 ++ l2) c).
Proof.
  intros Hnd (l1 & l2 & Hl)%list_elem_of_split. exists l1, l2. split; [done|].
  unfold splice_begin. cunfold.
  assert (Hfind : list_find (λ e, e.1 = it) (cache_ c) = Some (length l1, (it, kv))).
  { apply list_find_Some. rewrite Hl. split; [by rewrite list_lookup_middle|]. split; [done|].
    intros j y Hj Hlt <-. rewrite Hl, fmap_app, fmap_cons in Hnd.
    apply NoDup_app in Hnd as (_ & Hd & _). apply (Hd y.1); [|by left].
    rewrite lookup_app_l in Hj by done. apply list_elem_of_fmap. exists y.
    split; [done|]. by eapply list_elem_of_lookup_2. }
  rewrite Hfind. csimpl. rewrite Hl at 1. by rewrite delete_middle.
Qed.

Lemma evict_back_app c l e :
  cache_ c = l ++ [e] →
  evict_back c = Some ((), Cache (sz_ c) l (delete e.2.1 (hash_ c)) (next_it c)).
Proof.
  intros Hl. unfold evict_back. cunfold. rewrite Hl, last_snoc. csimpl.
  unfold set_cache, set_hash. csimpl. by rewrite Hl, removelast_last.
Qed.

Lemma cache_nonempty c :
  sz_ c ≠ 0 → full c = true → ∃ l e, cache_ c = l ++ [e].
Proof.
  unfold full. intros Hsz Hf%Z.eqb_eq. destruct (cache_ c) as [|x l] using rev_ind; [|by eauto].
  csimpl in *. lia.
Qed.

(** ** Memory safety whatever throws *)
Lemma splice_safe c it kv l1 l2 :
  cache_ c = l1 ++ (it, kv) :: l2 → cache_safe c →
  cache_safe (set_cache ((it, kv) :: l1 ++ l2) c).
Proof.
  intros Hl [Hits Hfr Hsz Hh].
  assert (Hp : (it, kv) :: l1 ++ l2 ≡ₚ cache_ c) by (rewrite Hl; apply Permutation_middle).
  split; csimpl; [change (NoDup ((it, kv) :: l1 ++ l2).*1); by rewrite Hp| | |].
  - intros e He. apply Hfr. by rewrite <- Hp.
  - assert (length ((it, kv) :: l1 ++ l2) = length (cache_ c)) as Hlen by by rewrite Hp.
    csimpl in Hlen. lia.
  - intros k it' Hk. destruct (Hh k it' Hk) as [v Hv]. exists v. by rewrite Hp.
Qed.

Lemma evict_safe c l e :
  cache_ c = l ++ [e] → cache_safe c →
  cache_safe (Cache (sz_ c) l (delete e.2.1 (hash_ c)) (next_it c)) ∧
  Z.of_nat (length l) < sz_ c.
Proof.
  intros Hl [Hits Hfr Hsz Hh]. rewrite Hl in *.
  rewrite length_app in Hsz. csimpl in Hsz. split; [split; csimpl|lia].
  - rewrite fmap_app in Hits. by apply NoDup_app in Hits as [? _].
  - intros e' He'. apply Hfr. set_solver.
  - lia.
  - intros k it [Hne Hk]%lookup_delete_Some. destruct (Hh k it Hk) as [v Hv].
    exists v. apply elem_of_app in Hv as [|Hv]; [done|].
    apply list_elem_of_singleton in Hv as <-. by csimpl in *.
Qed.

Lemma front_safe c key page :
  Z.of_nat (length (cache_ c)) < sz_ c → cache_safe c →
  cache_safe (Cache (sz_ c) ((next_it c, (key, page)) :: cache_ c) (hash_ c) (S (next_it c))).
Proof.
  intros Hlt [Hits Hfr Hsz Hh]. split; csimpl.
  - apply NoDup_cons. split; [|done]. intros (e & He & Hin)%list_elem_of_fmap.
    specialize (Hfr e Hin). lia.
  - intros e [->|He]%elem_of_cons; csimpl; [lia|]. specialize (Hfr e He). lia.
  - lia.
  - intros k it Hk. destruct (Hh k it Hk) as [v Hv]. exists v. by right.
Qed.

Lemma emplace_safe c ok key page l :
  cache_ c = (next_it c - 1, (key, page))%nat :: l → cache_safe c →
  ∃ r c', hash_emplace ok key c = Some (r, c') ∧ cache_safe c' ∧ sz_ c' = sz_ c.
Proof.
  intros Hl Hs. unfold hash_emplace. cunfold. rewrite Hl. csimpl.
  destruct (hash_ c !! key) eqn:Hk; [by eauto|]. destruct ok; [|by eauto].
  eexists _, _. split; [done|]. split; [|done]. destruct Hs as [Hits Hfr Hsz Hh]. split; csimpl; [done..|].
  intros k it. rewrite lookup_insert_Some. intros [[-> <-]|[Hne Hk']]; [|by apply Hh].
  exists page. rewrite Hl. left.
Qed.

Lemma make_room_safe c :
  cache_safe c → sz_ c ≠ 0 →
  ∃ c', (if full c then call evict_back else mret ()) c = Some (Ok (), c') ∧
    cache_safe c' ∧ Z.of_nat (length (cache_ c')) < sz_ c' ∧ sz_ c' = sz_ c.
Proof.
  intros Hs Hsz. destruct (full c) eqn:Hf.
  - destruct (cache_nonempty c Hsz Hf) as (l & e & Hl).
    unfold call. erewrite evict_back_app by done. eexists. split; [done|].
    by destruct (evict_safe c l e Hl Hs).
  - exists c. split; [done|]. split; [done|]. split; [|done].
    unfold full in Hf. apply Z.eqb_neq in Hf. pose proof (safe_size c Hs). lia.
Qed.

Lemma lookup_update_safe_run front_ok hash_ok slow_get_page key c :
  cache_safe c →
  ∃ r c', lookup_update front_ok hash_ok slow_get_page key c = Some (r, c') ∧
    cache_safe c' ∧ sz_ c' = sz_ c.
Proof.
  intros Hs. unfold lookup_update, max_capacity.
  erewrite X_bind_Ok by done.
  destruct (sz_ c =? 0) eqn:Hz; [by eexists _, _|]. apply Z.eqb_neq in Hz.
  destruct (hash_ c !! key) as [it|] eqn:Hk.
  - destruct (safe_hash c Hs key it Hk) as [v Hv].
    destruct (cache_split c it _ (safe_its c Hs) Hv) as (l1 & l2 & Hl & Hrun).
    erewrite X_bind_Ok by (unfold call; by rewrite Hrun).
    eexists _, _. split; [done|]. split; [by eapply splice_safe|done].
  - destruct (slow_get_page key) as [page|e]; [|by eexists _, _].
    erewrite X_bind_Ok by done.
    destruct (make_room_safe c Hs Hz) as (c1 & Hroom & Hs1 & Hlt & Hsz).
    rewrite (X_bind_Ok _ _ _ _ _ Hroom).
    destruct front_ok; [|by eexists _, _].
    erewrite X_bind_Ok by done.
    edestruct (emplace_safe (Cache (sz_ c1) ((next_it c1, (key, page)) :: cache_ c1)
      (hash_ c1) (S (next_it c1))) hash_ok key page (cache_ c1)) as ([[]|e] & c2 & Hrun & Hs2 & Hsz2).
    { csimpl. by rewrite Nat.sub_0_r. }
    { by apply front_safe. }
    + rewrite (X_bind_Ok _ _ _ _ _ Hrun). eexists _, _. split; [done|]. split; [done|].
      csimpl in *. congruence.
    + rewrite (X_bind_Throw _ _ _ _ _ Hrun). eexists _, _. split; [done|]. split; [done|].
      csimpl in *. congruence.
Qed.

(** ** Refinement when nothing fails *)
Lemma ok_lookup c key it :
  cache_ok c → hash_ c !! key = Some it →
  ∃ v, (it, (key, v)) ∈ cache_ c ∧ assoc key (cache_ c).*2 = Some v.
Proof.
  intros [Hs Hnd Hix] Hk. destruct (safe_hash c Hs key it Hk) as [v Hv].
  exists v. split; [done|]. apply elem_assoc; [done|].
  apply list_elem_of_fmap. by exists (it, (key, v)).
Qed.

Lemma ok_lookup_None c key :
  cache_ok c → hash_ c !! key = None → assoc key (cache_ c).*2 = None.
Proof.
  intros [Hs Hnd Hix] Hk. apply assoc_None. intros Hin.
  apply list_elem_of_fmap in Hin as ([k v] & -> & Hin).
  apply list_elem_of_fmap in Hin as ([it [k' v']] & [= -> ->] & Hin).
  apply Hix in Hin. csimpl in *. congruence.
Qed.

Lemma splice_ok c it k v l1 l2 :
  cache_ c = l1 ++ (it, (k, v)) :: l2 → cache_ok c →
  cache_ok (set_cache ((it, (k, v)) :: l1 ++ l2) c) ∧
  (l1 ++ l2).*2 = remove_key k (cache_ c).*2.
Proof.
  intros Hl [Hs Hnd Hix].
  assert (Hp : (it, (k, v)) :: l1 ++ l2 ≡ₚ cache_ c) by (rewrite Hl; apply Permutation_middle).
  split; [split; csimpl|].
  - by eapply splice_safe.
  - change (NoDup ((it, (k, v)) :: l1 ++ l2).*2.*1). by rewrite Hp.
  - intros it' k' v'. rewrite Hp. apply Hix.
  - rewrite Hl, !fmap_app, fmap_cons. rewrite Hl, !fmap_app, !fmap_cons in Hnd.
    csimpl. symmetry. apply remove_key_split. by rewrite fmap_app, fmap_cons.
Qed.

Lemma evict_ok c l e :
  cache_ c = l ++ [e] → cache_ok c →
  cache_ok (Cache (sz_ c) l (delete e.2.1 (hash_ c)) (next_it c)).
Proof.
  intros Hl [Hs Hnd Hix]. split; csimpl.
  - by destruct (evict_safe c l e Hl Hs).
  - rewrite Hl, !fmap_app in Hnd. by apply NoDup_app in Hnd as [? _].
  - intros it k v Hin. rewrite lookup_delete_ne; [apply (Hix it k v); rewrite Hl; set_solver|].
    intros <-. rewrite Hl, !fmap_app in Hnd. apply NoDup_app in Hnd as (_ & Hd & _).
    apply (Hd e.2.1); [|set_solver]. apply list_elem_of_fmap.
    exists (e.2.1, v). split; [done|]. apply list_elem_of_fmap. by exists (it, (e.2.1, v)).
Qed.

Lemma insert_ok c key page :
  Z.of_nat (length (cache_ c)) < sz_ c → cache_ok c → hash_ c !! key = None →
  cache_ok (Cache (sz_ c) ((next_it c, (key, page)) :: cache_ c)
              (<[key := next_it c]> (hash_ c)) (S (next_it c))).
Proof.
  intros Hlt Hok Hk. pose proof (ok_lookup_None c key Hok Hk) as Hnone.
  apply assoc_None in Hnone. destruct Hok as [Hs Hnd Hix].
  pose proof (front_safe c key page Hlt Hs) as [Hits Hfr Hsz Hh]. csimpl in *.
  split; [split; csimpl; [done..|]| |]; csimpl.
  - intros k it. rewrite lookup_insert_Some. intros [[-> <-]|[Hne Hk']]; [|by apply Hh].
    exists page. left.
  - by apply NoDup_cons.
  - intros it k v [[= -> -> ->]|Hin]%elem_of_cons; [by rewrite lookup_insert_eq|].
    rewrite lookup_insert_ne; [by apply (Hix it k v)|]. intros <-. apply Hnone.
    apply list_elem_of_fmap. exists (key, v). split; [done|].
    apply list_elem_of_fmap. by exists (it, (key, v)).
Qed.

(** Making room on a miss keeps what the abstract cache keeps. *)
Lemma make_room_ok c key :
  cache_ok c → sz_ c ≠ 0 → hash_ c !! key = None →
  ∃ c', (if full c then call evict_back else mret ()) c = Some (Ok (), c') ∧
    cache_ok c' ∧ hash_ c' !! key = None ∧ Z.of_nat (length (cache_ c')) < sz_ c' ∧
    sz_ c' = sz_ c ∧
    (cache_ c').*2 = (if decide (length (cache_ c).*2 = Z.to_nat (sz_ c))
                      then removelast (cache_ c).*2 else (cache_ c).*2).
Proof.
  intros Hok Hsz Hk. pose proof (safe_size c (ok_safe c Hok)) as Hle.
  rewrite length_fmap. unfold full. destruct (_ =? _) eqn:Hf.
  - destruct (cache_nonempty c Hsz Hf) as (l & e & Hl).
    unfold call. erewrite evict_back_app by done. eexists. split; [done|].
    split; [by apply evict_ok|]. split; [by apply lookup_delete_None; right|]. csimpl.
    split; [by destruct (evict_safe c l e Hl (ok_safe c Hok))|]. split; [done|].
    rewrite decide_True by (apply Z.eqb_eq in Hf; lia).
    rewrite Hl, fmap_app. symmetry. apply removelast_last.
  - exists c. apply Z.eqb_neq in Hf. split; [done|]. split; [done|]. split; [done|].
    split; [lia|]. split; [done|]. by rewrite decide_False by lia.
Qed.

Lemma cxx_lookup_update_run (load : KeyT → T) key c :
  cache_ok c →
  ∃ c', lookup_update true true (λ k, Ok (load k)) key c
          = Some (Ok (access load key (abs c)).1.1, c') ∧
    cache_ok c' ∧ abs c' = (access load key (abs c)).2.
Proof.
  intros Hok. unfold lookup_update, max_capacity, access, abs at 1 2 3. csimpl.
  erewrite X_bind_Ok by done. pose proof (safe_size c (ok_safe c Hok)) as Hle.
  destruct (sz_ c =? 0) eqn:Hz.
  { apply Z.eqb_eq in Hz. rewrite decide_True by lia. by eexists. }
  apply Z.eqb_neq in Hz. rewrite decide_False by lia.
  destruct (hash_ c !! key) as [it|] eqn:Hk.
  - destruct (ok_lookup c key it Hok Hk) as (v & Hv & ->). csimpl.
    destruct (cache_split c it _ (safe_its c (ok_safe c Hok)) Hv) as (l1 & l2 & Hl & Hrun).
    erewrite X_bind_Ok by (unfold call; by rewrite Hrun).
    destruct (splice_ok c it key v l1 l2 Hl Hok) as [Hok' Hrem].
    eexists. split; [done|]. split; [done|].
    unfold abs. csimpl. by rewrite Hrem.
  - rewrite (ok_lookup_None c key Hok Hk). csimpl.
    erewrite X_bind_Ok by done.
    destruct (make_room_ok c key Hok Hz Hk) as (c1 & Hroom & Hok1 & Hk1 & Hlt & Hsz & Hkeep).
    rewrite (X_bind_Ok _ _ _ _ _ Hroom). erewrite X_bind_Ok by done.
    erewrite X_bind_Ok by (unfold hash_emplace; cunfold; csimpl; by rewrite Hk1).
    eexists. split; [done|]. unfold set_hash. csimpl. split; [by apply insert_ok|].
    unfold abs. csimpl. by rewrite Hkeep, Hsz.
Qed.

Lemma make_cache_ok sz : 0 ≤ sz → cache_ok (make_cache sz).
Proof.
  intros Hsz. split; [split|..]; csimpl; try constructor.
  - intros e He. by apply elem_of_nil in He.
  - lia.
  - intros k it. by rewrite lookup_empty.
  - intros it k v He. by apply elem_of_nil in He.
Qed.
End cache_t.
Arguments cache_t : clear implicits.
Arguments cache_t _ _ {_ _}.

(** ** What a request does *)

(** C6: whatever the loader throws and whichever allocation fails, a request on
    a cache whose table points into its list has a defined behaviour, and the
    table still points into the list afterwards: no iterator ever dangles. *)
Theorem lookup_update_safe `{Countable KeyT} {T} front_ok hash_ok slow_get_page key (c : cache_t T KeyT) :
  cache_safe c →
  ∃ r c', lookup_update front_ok hash_ok slow_get_page key c = Some (r, c') ∧
    cache_safe c' ∧ sz_ c' = sz_ c.
Proof. apply lookup_update_safe_run. Qed.

Lemma lookup_update_safe_witness :
  cache_safe (make_cache 1 : cache_t Z Z) ∧
  ∃ r c', lookup_update true false (λ k, Ok k) 7 (make_cache 1) = Some (r, c') ∧
    cache_safe c' ∧ sz_ c' = 1.
Proof.
  assert (Hs : cache_safe (make_cache 1 : cache_t Z Z)) by (apply make_cache_ok; lia).
  split; [exact Hs|]. exact (lookup_update_safe true false (λ k, Ok k) 7 (make_cache 1) Hs).
Defined.

(** C1: with a loader and allocations that succeed, a request behaves as a
    request on the abstract least-recently-used cache: same hit or miss, same
    pages, same recency order, same victim; and the table keeps indexing the
    list. *)
Theorem lookup_update_refines `{Countable KeyT} {T} (load : KeyT → T) key (c : cache_t T KeyT) :
  cache_ok c →
  ∃ c', lookup_update true true (λ k, Ok (load k)) key c
          = Some (Ok (access load key (abs c)).1.1, c') ∧
    cache_ok c' ∧ abs c' = (access load key (abs c)).2.
Proof. apply cxx_lookup_update_run. Qed.

Lemma lookup_update_refines_witness :
  cache_ok (make_cache 1 : cache_t Z Z) ∧
  ∃ c', lookup_update true true (λ k, Ok (k * k)) 7 (make_cache 1) = Some (Ok false, c') ∧
    cache_ok c' ∧ abs c' = Lru 1 [(7, 49)].
Proof.
  assert (Hok : cache_ok (make_cache 1 : cache_t Z Z)) by (apply make_cache_ok; lia).
  split; [exact Hok|]. exact (lookup_update_refines (λ k, k * k) 7 (make_cache 1) Hok).
Defined.


(** ** [cache.cc]: the program over [cache_t<Page, PageId>] *)

(** [Page slow_get_page(PageId key) { return key; }] *)
Definition slow_get_page (key : Z) : result Z := Ok key.

#[export] Instance cxx_ops : LruOps (cache_t Z Z) := {
  lru_create n := Some (Some (make_cache n));
  lru_destroy _ := Some ();
  lru_request key c :=
    match lookup_update true true slow_get_page key c with
    | Some (Ok hit, c') => Some (Some hit, c')
    | _ => None
    end }.

#[export] Program Instance cxx_laws : LruLaws (cache_t Z Z) := {
  lru_inv := cache_ok;
  lru_plenty _ := True;
  lru_rep c a := cache_ok c ∧ abs c = a }.
Next Obligation.
  intros n Hn. eexists. split; [done|]. intros c [= <-].
  split; [apply make_cache_ok; lia|done].
Qed.
Next Obligation. done. Qed.
Next Obligation. by intros c a [? _]. Qed.
Next Obligation.
  intros k c _ Hok. destruct (cxx_lookup_update_run id k c Hok) as (c' & Hrun & Hok' & _).
  eexists _, c'. split; [|done]. unfold lru_request, cxx_ops, slow_get_page.
  by rewrite (Hrun : lookup_update _ _ (λ k, Ok k) _ _ = _).
Qed.
Next Obligation.
  intros k c a _ [Hok <-] _. destruct (cxx_lookup_update_run id k c Hok) as (c' & Hrun & Hok' & Ha).
  exists c'. unfold lru_request, cxx_ops, slow_get_page.
  by rewrite (Hrun : lookup_update _ _ (λ k, Ok k) _ _ = _).
Qed.

Definition main : bool → C stream (Z * list Z) :=
  main_cxx (S := cache_t Z Z) CxxRead.read_integer.

(** C8: on an input that holds a capacity, a count and that many keys, the C++
    program prints the number of requests whose key is among the [capacity] most
    recently requested distinct keys. *)
Theorem cxx_main_hits text capacity ks stdout_ok :
  reads text (capacity :: Z.of_nat (length ks) :: ks) → 0 <= capacity →
  ∃ st', main stdout_ok (Stream text false false) =
    Some ((if stdout_ok then EXIT_SUCCESS else EXIT_FAILURE,
           [count_hits (lru_hits (Z.to_nat capacity) ks)]), st').
Proof. intros Ht Hcap. by apply (main_cxx_hits _ text capacity ks (make_cache capacity)). Qed.

Lemma cxx_main_hits_witness :
  reads (render sample_tokens) [2; 5; 7; 8; 7; 9; 8] ∧
  ∃ st', main true (Stream (render sample_tokens) false false) = Some ((0, [1]), st').
Proof.
  split; [exact sample_reads|].
  exact (cxx_main_hits (render sample_tokens) 2 [7; 8; 7; 9; 8] true sample_reads ltac:(lia)).
Defined.
