(* ===== verification/MixHash.v ===== *)
(** * The key mixer of the C caches

    [bucket_for] occurs with the same text in [src/01-basics/lru-in-c/src/hash_map.c],
    [src/01-basics/lru-in-c-datastructs/src/int_map.c] and
    [src/01-basics/lru-in-c-naive/main.c]: three xor-shift rounds around two
    multiplications by odd constants, modulo the number of buckets. The mixer loses
    no information: it is a permutation of the 64-bit words, so keys collide only
    through the final remainder. *)

From S2P Require Import Prelude.
From Stdlib Require Import Btauto.

Definition MUL1 : Z := 0xbf58476d1ce4e5b9.
Definition MUL2 : Z := 0x94d049bb133111eb.

(** The hash before the remainder: every step on [uint64_t]. *)
Definition mix (key : Z) : Z :=
  let hash := u64 key in
  let hash := Z.lxor hash (Z.shiftr hash 30) in
  let hash := u64 (hash * MUL1) in
  let hash := Z.lxor hash (Z.shiftr hash 27) in
  let hash := u64 (hash * MUL2) in
  let hash := Z.lxor hash (Z.shiftr hash 31) in
  hash.

Definition bucket_for (bucket_count key : Z) : Z := mix key `mod` bucket_count.

(** ** The inverse mixer *)
Definition INV1 : Z := 0x96de1b173f119089.
Definition INV2 : Z := 0x319642b2d24d8ec3.

Definition xorshift (n x : Z) : Z := Z.lxor x (Z.shiftr x n).
Definition unxorshift (n y : Z) : Z :=
  Z.lxor y (Z.lxor (Z.shiftr y n) (Z.shiftr y (2 * n))).

Definition unmix (hash : Z) : Z :=
  let hash := unxorshift 31 hash in
  let hash := u64 (hash * INV2) in
  let hash := unxorshift 27 hash in
  let hash := u64 (hash * INV1) in
  let hash := unxorshift 30 hash in
  i64 hash.

(** Words are closed under the bit operations. *)
Lemma is_u64_alt z : is_u64 z ↔ 0 <= z ∧ Z.shiftr z 64 = 0.
Proof.
  unfold is_u64. rewrite Z.shiftr_div_pow2 by lia. split.
  - intros Hz. rewrite Z.div_small by done. lia.
  - intros [H0 Hd]. split; [done|]. apply Z.div_small_iff in Hd; lia.
Qed.

Lemma lxor_u64 a b : is_u64 a → is_u64 b → is_u64 (Z.lxor a b).
Proof.
  rewrite !is_u64_alt. intros [Ha Ha'] [Hb Hb']. split.
  - apply Z.lxor_nonneg. lia.
  - by rewrite Z.shiftr_lxor, Ha', Hb'.
Qed.

Lemma shiftr_u64 a n : 0 <= n → is_u64 a → is_u64 (Z.shiftr a n).
Proof.
  unfold is_u64. intros Hn [H0 H1]. split; [by apply Z.shiftr_nonneg|].
  rewrite Z.shiftr_div_pow2 by done.
  eapply Z.le_lt_trans; [|exact H1]. apply Z.div_le_upper_bound; [lia|].
  pose proof (Z.pow_pos_nonneg 2 n ltac:(lia) Hn). nia.
Qed.

#[export] Hint Resolve lxor_u64 shiftr_u64 u64_range : word.
#[export] Hint Extern 1 (0 <= _) => lia : word.

Lemma xorshift_u64 n x : 0 <= n → is_u64 x → is_u64 (xorshift n x).
Proof. unfold xorshift. auto with word. Qed.

Lemma unxorshift_u64 n x : 0 <= n → is_u64 x → is_u64 (unxorshift n x).
Proof. unfold unxorshift. auto 6 with word. Qed.

#[export] Hint Resolve xorshift_u64 unxorshift_u64 : word.

Lemma shiftr_large x n : 64 <= n → is_u64 x → Z.shiftr x n = 0.
Proof.
  intros Hn [_ Hx]%is_u64_alt. replace n with (64 + (n - 64)) by lia.
  rewrite <- Z.shiftr_shiftr by lia. by rewrite Hx, Z.shiftr_0_l.
Qed.

(** Both directions reduce to [x ^ (x >> 3n)], and [3n] is at least the width. *)
Lemma unxorshift_xorshift n x : 22 <= n → is_u64 x → unxorshift n (xorshift n x) = x.
Proof.
  intros Hn Hx. unfold unxorshift, xorshift.
  rewrite !Z.shiftr_lxor, !Z.shiftr_shiftr by lia.
  replace (n + n) with (2 * n) by lia. rewrite (shiftr_large x (n + 2 * n)) by (done || lia).
  apply Z.bits_inj_iff'. intros i Hi. rewrite !Z.lxor_spec, Z.bits_0. btauto.
Qed.

Lemma xorshift_unxorshift n y : 22 <= n → is_u64 y → xorshift n (unxorshift n y) = y.
Proof.
  intros Hn Hy. unfold unxorshift, xorshift.
  rewrite !Z.shiftr_lxor, !Z.shiftr_shiftr by lia.
  replace (n + n) with (2 * n) by lia. replace (2 * n + n) with (3 * n) by lia.
  rewrite (shiftr_large y (3 * n)) by (done || lia).
  apply Z.bits_inj_iff'. intros i Hi. rewrite !Z.lxor_spec, Z.bits_0. btauto.
Qed.

Lemma mul_inverse a b x : u64 (a * b) = 1 → is_u64 x → u64 (u64 (x * a) * b) = x.
Proof.
  unfold u64. intros Hab Hx. rewrite Z.mul_mod_idemp_l by lia.
  rewrite <- Z.mul_assoc, <- Z.mul_mod_idemp_r by lia.
  rewrite Hab, Z.mul_1_r. by apply u64_small.
Qed.

Lemma i64_u64 z : is_i64 z → i64 (u64 z) = z.
Proof.
  intros Hz. unfold i64, u64. rewrite Zplus_mod_idemp_l. by apply i64_small.
Qed.

Lemma u64_i64 z : is_u64 z → u64 (i64 z) = z.
Proof.
  intros Hz. unfold i64, u64. rewrite Zminus_mod_idemp_l.
  replace (z + 2 ^ 63 - 2 ^ 63) with z by lia. by apply u64_small.
Qed.

Lemma mix_steps key :
  mix key = xorshift 31 (u64 (xorshift 27 (u64 (xorshift 30 (u64 key) * MUL1)) * MUL2)).
Proof. reflexivity. Qed.

Lemma unmix_steps hash :
  unmix hash =
    i64 (unxorshift 30 (u64 (unxorshift 27 (u64 (unxorshift 31 hash * INV2)) * INV1))).
Proof. reflexivity. Qed.

Lemma mix_u64 key : is_u64 (mix key).
Proof. rewrite mix_steps. auto 10 with word. Qed.

Lemma unmix_mix key : is_i64 key → unmix (mix key) = key.
Proof.
  intros Hk. rewrite unmix_steps, mix_steps.
  rewrite unxorshift_xorshift, mul_inverse, unxorshift_xorshift, mul_inverse,
    unxorshift_xorshift, i64_u64; auto 10 with word; lia.
Qed.

Lemma mix_unmix hash : is_u64 hash → mix (unmix hash) = hash.
Proof.
  intros Hh. rewrite unmix_steps, mix_steps.
  rewrite u64_i64, xorshift_unxorshift, mul_inverse, xorshift_unxorshift, mul_inverse,
    xorshift_unxorshift; auto 10 with word; lia.
Qed.

(** C9: the mixer is a bijection between the [int64_t] keys and the [uint64_t]
    hashes, and the bucket is an index of the bucket array. *)
Theorem bucket_for_bijective_mix bucket_count :
  0 < bucket_count →
  (∀ key, is_i64 key → unmix (mix key) = key ∧ 0 <= bucket_for bucket_count key < bucket_count) ∧
  (∀ hash, is_u64 hash → is_i64 (unmix hash) ∧ mix (unmix hash) = hash).
Proof.
  intros Hn. split.
  - intros key Hk. split; [by apply unmix_mix|]. by apply Z.mod_pos_bound.
  - intros hash Hh. split; [apply i64_range|by apply mix_unmix].
Qed.

Lemma bucket_for_bijective_mix_witness :
  0 < 1000 ∧ 0 <= bucket_for 1000 (-5) < 1000 ∧ mix (unmix 12345) = 12345.
Proof.
  pose proof (bucket_for_bijective_mix 1000 ltac:(lia)) as [H1 H2].
  split; [lia|]. split; [apply H1; unfold is_i64; lia|apply H2; unfold is_u64; lia].
Defined.

Lemma bucket_for_range n key : 0 < n → 0 <= bucket_for n key < n.
Proof. apply Z.mod_pos_bound. Qed.
