(* ===== verification/Chains.v ===== *)
(** * Hash chains of slots

    The bucket tables of [src/01-basics/lru-in-c-naive] and
    [src/01-basics/lru-in-c-datastructs]: the entries are numbered slots that the caller
    owns, linked into one chain per bucket. [nx] is the link of a slot, [None] for a slot
    that may not be read; [key] is the key it holds. *)

From S2P Require Import Prelude LruSpec MixHash.

(** Where the links of the chain of a bucket begin: in the table, or in a slot. *)
Inductive link := Bucket (i : nat) | NextOf (x : nat).

#[export] Instance link_eq_dec : EqDecision link.
Proof. solve_decision. Defined.

Section chains.
Implicit Types (nx : nat → option (option nat)) (key : nat → Z) (p q : option nat) (x y z : nat)
  (l b : list nat) (arr : list (option nat)) (bs : list (list nat)).

Fixpoint chain nx p l : Prop :=
  match l with
  | [] => p = None
  | x :: l => p = Some x ∧ ∃ q, nx x = Some q ∧ chain nx q l
  end.

Lemma chain_ext nx nx' p l : (∀ z, z ∈ l → nx' z = nx z) → chain nx p l → chain nx' p l.
Proof.
  revert p. induction l as [|x l IH]; intros p Hz; cbn; [done|].
  intros (-> & q & Hq & Hl). split; [done|]. exists q. rewrite Hz by left. split; [done|].
  apply IH; [|done]. intros z Hin. apply Hz. by right.
Qed.

(** Linking past [x]. *)
Lemma chain_skip nx nx' p l1 y x l2 :
  NoDup (l1 ++ y :: x :: l2) → nx' y = nx x → (∀ z, z ∈ l1 ++ l2 → nx' z = nx z) →
  chain nx p (l1 ++ y :: x :: l2) → chain nx' p (l1 ++ y :: l2).
Proof.
  revert p. induction l1 as [|w l1 IH]; intros p Hnd Hy Hz; cbn.
  - intros (-> & q & _ & -> & q' & Hq' & Hl). split; [done|]. exists q'.
    split; [by rewrite Hy|]. eapply chain_ext; [|exact Hl]. intros z Hin. by apply Hz.
  - intros (-> & q & Hq & Hl). apply NoDup_cons in Hnd as [_ Hnd]. split; [done|]. exists q.
    rewrite Hz by left. split; [done|]. apply IH; [done|done| |done]. intros z Hin. apply Hz. by right.
Qed.

(** The element after [l1] is reached through the last link of it. *)
Lemma chain_middle nx p l1 x l2 :
  chain nx p (l1 ++ x :: l2) → ∃ q, nx x = Some q ∧ chain nx q l2 ∧ q = head l2.
Proof.
  revert p. induction l1 as [|w l1 IH]; intros p; cbn; [|naive_solver].
  intros (_ & q & Hq & Hl). exists q. split; [done|]. split; [done|]. destruct l2; cbn in *; naive_solver.
Qed.

Lemma chain_head nx p l : chain nx p l → p = head l.
Proof. destruct l; cbn; naive_solver. Qed.

(** ** Tables of [n] buckets *)
Definition home (n k : Z) : nat := Z.to_nat (bucket_for n k).

Record table nx key (n : Z) arr bs : Prop := {
  tb_count : 0 < n ∧ Z.of_nat (length bs) = n;
  tb_chains : Forall2 (chain nx) arr bs;
  tb_nodup : NoDup (mjoin bs);
  tb_home : ∀ i b x, bs !! i = Some b → x ∈ b → home n (key x) = i }.

Lemma table_bucket nx key n arr bs k :
  table nx key n arr bs → ∃ p b, arr !! home n k = Some p ∧ bs !! home n k = Some b ∧ chain nx p b.
Proof.
  intros [[Hn Hlen] Hch _ _]. pose proof (bucket_for_range n k Hn) as Hr.
  destruct (lookup_lt_is_Some_2 bs (home n k)) as [b Hb]; [unfold home; lia|].
  destruct (Forall2_lookup_r _ _ _ _ _ Hch Hb) as (p & Hp & Hc). eauto.
Qed.

Lemma elem_of_bucket nx key n arr bs x :
  table nx key n arr bs → x ∈ mjoin bs → ∃ b, bs !! home n (key x) = Some b ∧ x ∈ b.
Proof.
  intros [_ _ _ Hh] (b & Hx & Hb)%list_elem_of_join. apply list_elem_of_lookup in Hb as [i Hi].
  exists b. by rewrite (Hh i b x).
Qed.

Lemma elem_of_bucket_join bs i b x : bs !! i = Some b → x ∈ b → x ∈ mjoin bs.
Proof. intros Hb Hx. apply list_elem_of_join. exists b. split; [done|]. by eapply list_elem_of_lookup_2. Qed.

(** Replacing a bucket. *)
Lemma join_insert bs i b b' :
  bs !! i = Some b → ∃ rest, mjoin bs ≡ₚ b ++ rest ∧ mjoin (<[i := b']> bs) ≡ₚ b' ++ rest.
Proof.
  intros Hi. exists (mjoin (take i bs) ++ mjoin (drop (S i) bs)).
  rewrite insert_take_drop by (by eapply lookup_lt_Some).
  rewrite <- (take_drop_middle bs i b Hi) at 1. rewrite !join_app. cbn.
  split; apply Permutation_app_swap_app.
Qed.

Lemma table_bucket_nodup nx key n arr bs i b : table nx key n arr bs → bs !! i = Some b → NoDup b.
Proof.
  intros Ht Hb. destruct (join_insert bs i b [] Hb) as (rest & Hj & _).
  pose proof (tb_nodup _ _ _ _ _ Ht) as Hnd. rewrite Hj in Hnd. by apply NoDup_app in Hnd as [? _].
Qed.

Lemma table_update nx nx' key key' n arr bs i b b' q :
  table nx key n arr bs → bs !! i = Some b → chain nx' q b' →
  (∀ z, z ∈ mjoin bs → z ∉ b → nx' z = nx z ∧ key' z = key z) →
  (∀ z, z ∈ b' → home n (key' z) = i) → NoDup b' →
  (∀ z, z ∈ b' → z ∈ b ∨ z ∉ mjoin bs) →
  table nx' key' n (<[i := q]> arr) (<[i := b']> bs).
Proof.
  intros [Hc Hch Hnd Hh] Hi Hq Hext Hb' Hnb' Hfresh. assert (Hlt := lookup_lt_Some _ _ _ Hi).
  destruct (join_insert bs i b b' Hi) as (rest & Hp & Hp').
  assert (Hother : ∀ j c z, j ≠ i → bs !! j = Some c → z ∈ c → z ∈ mjoin bs ∧ z ∉ b).
  { intros j c z Hji Hj Hz. split; [apply list_elem_of_join; exists c; split; [done|by eapply list_elem_of_lookup_2]|].
    intros Hzb. pose proof (Hh i b z Hi Hzb). pose proof (Hh j c z Hj Hz). congruence. }
  split.
  - by rewrite length_insert.
  - apply Forall2_same_length_lookup_2; [rewrite !length_insert; by eapply Forall2_length|].
    intros j p c Hp1 Hc1. destruct (decide (j = i)) as [->|Hji].
    + rewrite list_lookup_insert_eq in Hc1 by done.
      rewrite list_lookup_insert_eq in Hp1 by (apply Forall2_length in Hch; lia). by simplify_eq.
    + rewrite list_lookup_insert_ne in Hc1 by done. rewrite list_lookup_insert_ne in Hp1 by done.
      eapply chain_ext; [|exact (Forall2_lookup_lr _ _ _ _ _ _ Hch Hp1 Hc1)].
      intros z Hz. destruct (Hother j c z Hji Hc1 Hz) as [H1 H2]. by apply Hext.
  - rewrite Hp'. rewrite Hp in Hnd. apply NoDup_app in Hnd as (H1 & H2 & H3). apply NoDup_app.
    split; [done|]. split; [|done]. intros z Hz Hr.
    destruct (Hfresh z Hz) as [Hzb|Hz2]; [by apply (H2 z)|]. apply Hz2. rewrite Hp. set_solver.
  - intros j c z Hj Hz. destruct (decide (j = i)) as [->|Hji].
    + rewrite list_lookup_insert_eq in Hj by done. simplify_eq. by apply Hb'.
    + rewrite list_lookup_insert_ne in Hj by done. destruct (Hother j c z Hji Hj Hz) as [H1 H2].
      destruct (Hext z H1 H2) as [_ ->]. by eapply Hh.
Qed.

(** A new slot at the front of its bucket. *)
Lemma table_insert nx nx' key key' n arr bs x p :
  table nx key n arr bs → x ∉ mjoin bs → let i := home n (key' x) in
  arr !! i = Some p → nx' x = Some p →
  (∀ z, z ∈ mjoin bs → nx' z = nx z ∧ key' z = key z) →
  ∃ b, bs !! i = Some b ∧ p = head b ∧
    table nx' key' n (<[i := Some x]> arr) (<[i := x :: b]> bs) ∧ mjoin (<[i := x :: b]> bs) ≡ₚ x :: mjoin bs.
Proof.
  intros Ht Hx i Hp Hnx Hext. destruct (table_bucket _ _ _ _ _ (key' x) Ht) as (p' & b & Hp' & Hb & Hc).
  fold i in Hp', Hb. assert (p' = p) as -> by congruence. exists b. split; [done|]. split; [by eapply chain_head|].
  destruct (join_insert bs i b (x :: b) Hb) as (rest & H1 & H2).
  assert (Hin : ∀ z, z ∈ b → z ∈ mjoin bs) by (intros z Hz; rewrite H1; set_solver).
  split; [|rewrite H2, H1; done].
  eapply table_update; [exact Ht|exact Hb| | | | |].
  - cbn. split; [done|]. exists p. split; [done|]. eapply chain_ext; [|exact Hc].
    intros z Hz. by apply Hext, Hin.
  - intros z Hz _. by apply Hext.
  - intros z [->|Hz]%elem_of_cons; [done|]. destruct (Hext z (Hin z Hz)) as [_ ->]. by eapply (tb_home _ _ _ _ _ Ht).
  - apply NoDup_cons. split; [by intros ?%Hin|]. pose proof (tb_nodup _ _ _ _ _ Ht) as Hnd.
    rewrite H1 in Hnd. by apply NoDup_app in Hnd as [? _].
  - intros z [->|Hz]%elem_of_cons; [by right|by left].
Qed.

(** Unlinking a slot, through the table or through the slot before it. *)
Lemma table_remove nx nx' key n arr bs x b1 b2 :
  table nx key n arr bs → let i := home n (key x) in bs !! i = Some (b1 ++ x :: b2) →
  (∀ z, z ∈ mjoin bs → z ≠ x → Some z ≠ last b1 → nx' z = nx z) →
  (∀ y, last b1 = Some y → nx' y = nx x) →
  table nx' key n (match last b1 with None => <[i := head b2]> arr | Some _ => arr end) (<[i := b1 ++ b2]> bs) ∧
  mjoin bs ≡ₚ x :: mjoin (<[i := b1 ++ b2]> bs).
Proof.
  intros Ht i Hb Hext Hlast. destruct (join_insert bs i _ (b1 ++ b2) Hb) as (rest & H1 & H2).
  assert (Hin : ∀ z, z ∈ b1 ++ x :: b2 → z ∈ mjoin bs) by (intros z Hz; rewrite H1; set_solver).
  assert (Hnd := tb_nodup _ _ _ _ _ Ht). rewrite H1 in Hnd. apply NoDup_app in Hnd as (Hnd & _ & _).
  destruct (Forall2_lookup_r _ _ _ _ _ (tb_chains _ _ _ _ _ Ht) Hb) as (p & Hp & Hc).
  split; [|rewrite H2, H1, <- !app_assoc; cbn; symmetry; apply Permutation_middle].
  assert (Hn2 : NoDup (b1 ++ b2)).
  { apply NoDup_app in Hnd as (N1 & N2 & N3). apply NoDup_cons in N3 as [_ N3]. apply NoDup_app.
    split; [done|]. split; [|done]. intros z Hz Hz2. apply (N2 z Hz). by right. }
  assert (Hx : x ∉ b1 ++ b2).
  { intros Hx. apply NoDup_app in Hnd as (_ & N2 & N3). apply NoDup_cons in N3 as [N3 _].
    apply elem_of_app in Hx as [Hx|Hx]; [|done]. apply (N2 x Hx). left. }
  assert (Hch : chain nx' (match last b1 with None => head b2 | Some _ => p end) (b1 ++ b2)).
  { destruct b1 as [|y b1' _] using rev_ind; cbn [app last].
    - cbn in Hc. destruct Hc as (-> & q & Hq & Hc). rewrite <- (chain_head _ _ _ Hc).
      eapply chain_ext; [|exact Hc]. intros z Hz. apply Hext; [|intros ->; by apply Hx|done].
      apply Hin. by right.
    - rewrite last_snoc in *. rewrite <- app_assoc in Hc, Hnd, Hn2, Hx |- *. cbn in Hc, Hnd, Hn2, Hx |- *.
      eapply chain_skip; [exact Hnd|by apply Hlast| |exact Hc].
      intros z Hz. apply Hext; [apply Hin; set_solver|intros ->; apply Hx; set_solver|].
      intros [= ->]. apply NoDup_app in Hn2 as (_ & N2 & N3). apply NoDup_cons in N3 as [N3 _].
      apply elem_of_app in Hz as [Hz|Hz]; [|done]. apply (N2 y Hz). left. }
  assert (Hupd : table nx' key n (<[i := match last b1 with None => head b2 | Some _ => p end]> arr)
    (<[i := b1 ++ b2]> bs)).
  { eapply table_update; [exact Ht|exact Hb|exact Hch| | |exact Hn2|].
    - intros z Hz Hzb. split; [|done]. apply Hext; [done|set_solver|].
      intros Hl. symmetry in Hl. apply last_Some_elem_of in Hl. set_solver.
    - intros z Hz. eapply (tb_home _ _ _ _ _ Ht); [exact Hb|]. set_solver.
    - intros z Hz. left. set_solver. }
  destruct (last b1); [|done]. by rewrite (list_insert_id arr i p Hp) in Hupd.
Qed.
End chains.

(** ** The slots as a cache

    The slots in use, the most recent first; the page of a key is the key. *)
Section slots.
Implicit Types (key : nat → Z) (xs : list nat) (x : nat) (k : Z).

Definition slot_items key xs : list (Z * Z) := (λ x, (key x, key x)) <$> xs.

Lemma slot_items_fst key xs : (slot_items key xs).*1 = key <$> xs.
Proof. unfold slot_items. by rewrite <- list_fmap_compose. Qed.

Lemma slot_items_ext key key' xs : (∀ x, x ∈ xs → key' x = key x) → slot_items key' xs = slot_items key xs.
Proof. intros Hk. apply list_fmap_ext. intros i x Hx%list_elem_of_lookup_2. by rewrite Hk. Qed.

Lemma access_slot_hit c key xs1 x xs2 :
  c ≠ 0%nat → NoDup (key <$> xs1 ++ x :: xs2) →
  access id (key x) (Lru c (slot_items key (xs1 ++ x :: xs2))) =
    (true, key x, Lru c (slot_items key (x :: xs1 ++ xs2))).
Proof.
  intros Hc Hnd. unfold access. cbn [cap items]. rewrite decide_False by done.
  rewrite <- slot_items_fst in Hnd.
  assert (Hsplit : slot_items key (xs1 ++ x :: xs2) = slot_items key xs1 ++ (key x, key x) :: slot_items key xs2)
    by (unfold slot_items; by rewrite fmap_app, fmap_cons).
  rewrite Hsplit in *. rewrite (elem_assoc (key x) (key x) _ Hnd) by (apply elem_of_app; right; left).
  rewrite remove_key_split by done. unfold slot_items. by rewrite fmap_cons, fmap_app.
Qed.

Lemma access_slot_miss c key xs k :
  c ≠ 0%nat → k ∉ key <$> xs →
  access id k (Lru c (slot_items key xs)) =
    (false, k, Lru c ((k, k) :: slot_items key (if decide (length xs = c) then removelast xs else xs))).
Proof.
  intros Hc Hk. unfold access. cbn [cap items]. rewrite decide_False by done.
  rewrite (proj2 (assoc_None k _)) by (by rewrite slot_items_fst).
  assert (Hlen : length (slot_items key xs) = length xs) by (unfold slot_items; by rewrite length_fmap).
  rewrite Hlen. destruct (decide (length xs = c)); [|done].
  unfold slot_items. by rewrite !removelast_take, fmap_take, length_fmap.
Qed.

(** *** Searching a chain *)
Definition search key k (b : list nat) : option nat := head (filter (λ x, key x = k) b).

Lemma search_cons key k x b : search key k (x :: b) = if decide (key x = k) then Some x else search key k b.
Proof. unfold search. rewrite filter_cons. by destruct (decide _). Qed.

Lemma search_table nx key n arr bs k b :
  table nx key n arr bs → bs !! home n k = Some b →
  match search key k b with
  | Some x => x ∈ mjoin bs ∧ x ∈ b ∧ key x = k
  | None => k ∉ key <$> mjoin bs
  end.
Proof.
  intros Ht Hb. unfold search. destruct (filter (λ x, key x = k) b) as [|x l] eqn:Hf; cbn.
  - intros (x & -> & Hx)%list_elem_of_fmap.
    destruct (elem_of_bucket _ _ _ _ _ x Ht Hx) as (b' & Hb' & Hxb). assert (b' = b) as -> by congruence.
    assert (Hin : x ∈ filter (λ y, key y = key x) b) by (by apply list_elem_of_filter).
    rewrite Hf in Hin. by apply elem_of_nil in Hin.
  - assert (Hin : x ∈ filter (λ y, key y = k) b) by (rewrite Hf; left).
    apply list_elem_of_filter in Hin as [Hk Hx]. split; [|done].
    apply list_elem_of_join. exists b. split; [done|]. by eapply list_elem_of_lookup_2.
Qed.
End slots.
