(* ===== verification/Links.v ===== *)
(** * Doubly linked rings in a heap

    The pointer structure shared by the two C lists ([src/01-basics/lru-in-c/src/list.c]
    and [src/01-basics/lru-in-c-datastructs/src/list.c]): circular lists around a
    sentinel. A heap is a finite map from pointers to nodes; dereferencing a pointer
    that is not in the heap has no behaviour. *)

From S2P Require Import Prelude.

(** ** Segments of a successor function

    [seg f a l b]: following [f] from [a] visits [l] and then reaches [b]. A doubly
    linked list is a segment of [next] and, backwards, a segment of [prev]. *)
Section seg.
Context {P : Type} `{EqDecision P}.
Implicit Types (f g : P → option P) (a b x : P) (l : list P).

Fixpoint seg f a l b : Prop :=
  match l with
  | [] => f a = Some b
  | x :: l => f a = Some x ∧ seg f x l b
  end.

Definition last_of a l : P := default a (last l).

Lemma last_of_cons a x l : last_of a (x :: l) = last_of x l.
Proof. unfold last_of. rewrite last_cons. by destruct (last l). Qed.

Lemma last_of_snoc a x l : last_of a (l ++ [x]) = x.
Proof. unfold last_of. by rewrite last_snoc. Qed.

Lemma last_of_elem a l : last_of a l ∈ a :: l.
Proof.
  unfold last_of. destruct (last l) eqn:Hl; csimpl; [|left].
  right. by apply last_Some_elem_of.
Qed.

Lemma seg_app f a l1 x l2 b :
  seg f a (l1 ++ x :: l2) b ↔ seg f a l1 x ∧ seg f x l2 b.
Proof. revert a. induction l1 as [|y l1 IH]; intros a; csimpl; [done|]. rewrite IH. naive_solver. Qed.

(** The segment depends on [f] at [a :: l] only. *)
Lemma seg_ext f g a l b : (∀ p, p ∈ a :: l → g p = f p) → seg f a l b → seg g a l b.
Proof.
  revert a. induction l as [|x l IH]; intros a Hfg; csimpl.
  - rewrite Hfg; [done|left].
  - intros [Ha Hl]. rewrite Hfg by left. split; [done|].
    apply IH; [|done]. intros p Hp. apply Hfg. by right.
Qed.

Lemma seg_last f a l b : seg f a l b → f (last_of a l) = Some b.
Proof.
  revert a. induction l as [|x l IH]; intros a; csimpl; [done|].
  intros [_ Hl]. rewrite last_of_cons. by apply IH.
Qed.

(** Redirecting the last pointer of a segment. *)
Lemma seg_redirect f g a l b b' :
  NoDup (a :: l) → (∀ p, p ∈ a :: l → p ≠ last_of a l → g p = f p) →
  g (last_of a l) = Some b' → seg f a l b → seg g a l b'.
Proof.
  revert a. induction l as [|x l IH]; intros a Hnd Hfg Hlast; csimpl; [done|].
  intros [Ha Hl]. rewrite last_of_cons in *. apply NoDup_cons in Hnd as [Hna Hnd].
  split.
  - rewrite Hfg; [done|left|]. intros ->. apply Hna. apply last_of_elem.
  - apply IH; [done| |done|done]. intros p Hp. apply Hfg. by right.
Qed.

(** Inserting [x] after the element at the end of [a :: l1]. *)
Lemma seg_insert f g a l1 x l2 b :
  NoDup (a :: l1 ++ l2) → x ∉ a :: l1 ++ l2 →
  (∀ p, p ∈ a :: l1 ++ l2 → p ≠ last_of a l1 → g p = f p) →
  g (last_of a l1) = Some x → g x = f (last_of a l1) →
  seg f a (l1 ++ l2) b → seg g a (l1 ++ x :: l2) b.
Proof.
  revert a. induction l1 as [|y l1 IH]; intros a Hnd Hx Hfg Hp Hgx; csimpl in *.
  - intros Hs. split; [done|]. change (last_of a []) with a in *.
    apply NoDup_cons in Hnd as [Hna _].
    destruct l2 as [|z l2]; csimpl in *; [congruence|].
    destruct Hs as [Ha Hs]. split; [congruence|]. eapply seg_ext; [|exact Hs].
    intros p Hin. apply Hfg; [by right|]. intros ->. done.
  - rewrite last_of_cons in *. intros [Ha Hs].
    apply NoDup_cons in Hnd as [Hna Hnd]. split.
    + rewrite Hfg; [done|left|]. intros Heq. apply Hna. rewrite Heq.
      pose proof (last_of_elem y l1) as Hin. rewrite app_comm_cons.
      apply elem_of_app. by left.
    + apply IH; [done| | |done|done|done].
      * intros Hin. apply Hx. by right.
      * intros p Hin. apply Hfg. by right.
Qed.

(** Skipping over [x]. *)
Lemma seg_remove f g a l1 x l2 b :
  NoDup (a :: l1 ++ x :: l2) →
  (∀ p, p ∈ a :: l1 ++ l2 → p ≠ last_of a l1 → g p = f p) →
  g (last_of a l1) = f x →
  seg f a (l1 ++ x :: l2) b → seg g a (l1 ++ l2) b.
Proof.
  revert a. induction l1 as [|y l1 IH]; intros a Hnd Hfg Hp; csimpl in *.
  - change (last_of a []) with a in *. apply NoDup_cons in Hnd as [Hna _].
    intros [Ha Hs]. destruct l2 as [|z l2]; csimpl in *; [congruence|].
    destruct Hs as [Hx Hs]. split; [congruence|]. eapply seg_ext; [|exact Hs].
    intros p Hin. apply Hfg; [by right|]. intros ->. apply Hna. by right.
  - rewrite last_of_cons in *. intros [Ha Hs].
    apply NoDup_cons in Hnd as [Hna Hnd]. split.
    + rewrite Hfg; [done|left|]. intros Heq. apply Hna. rewrite Heq.
      pose proof (last_of_elem y l1) as Hin. rewrite app_comm_cons.
      apply elem_of_app. by left.
    + apply IH; [done| |done|done]. intros p Hin. apply Hfg. by right.
Qed.
End seg.

(** ** The heap of nodes *)
Record node (P V : Type) := Node { prev : P; next : P; value : V }.
Arguments Node {P V}.
Arguments prev {P V}.
Arguments next {P V}.
Arguments value {P V}.

Section heap.
Context {P V : Type} `{Countable P}.
Abbreviation heap := (gmap P (node P V)) (only parsing).
Implicit Types (h : gmap P (node P V)) (p q x : P) (l : list P).

Definition deref p : C heap (node P V) := h ← get; of_option (h !! p).
Definition set_prev p q : C heap () :=
  n ← deref p; modify (λ h, <[p := Node q (next n) (value n)]> h).
Definition set_next p q : C heap () :=
  n ← deref p; modify (λ h, <[p := Node (prev n) q (value n)]> h).

(** [prepend] of list.c, [list_push_front] of the intrusive list: link [x] after
    the sentinel. *)
Definition prepend (sentinel x : P) : C heap () :=
  set_prev x sentinel;;
  s ← deref sentinel;
  set_next x (next s);;
  n ← deref x;
  set_prev (next n) x;;
  set_next sentinel x.

(** [detach] of list.c, the first two lines of [list_remove] of the intrusive list. *)
Definition detach (x : P) : C heap () :=
  n ← deref x;
  set_next (prev n) (next n);;
  n ← deref x;
  set_prev (next n) (prev n).

Definition next_of h p : option P := next <$> h !! p.
Definition prev_of h p : option P := prev <$> h !! p.
Definition value_of h p : option V := value <$> h !! p.

(** [p] is the sentinel of a ring through the nodes [l]. *)
Record ring h p l : Prop := {
  ring_nodup : NoDup (p :: l);
  ring_next : seg (next_of h) p l p;
  ring_prev : seg (prev_of h) p (reverse l) p }.

Definition same_nodes h h' : Prop := dom h' = dom h ∧ ∀ p, value_of h' p = value_of h p.

Lemma set_next_run h p q :
  p ∈ dom h →
  ∃ h', set_next p q h = Some ((), h') ∧ same_nodes h h' ∧
    (∀ r, next_of h' r = if decide (r = p) then Some q else next_of h r) ∧
    (∀ r, prev_of h' r = prev_of h r).
Proof.
  intros [n Hn]%elem_of_dom. unfold set_next, deref. cunfold. rewrite Hn.
  eexists. split; [done|]. split; [split|].
  - apply dom_insert_lookup_L. by eexists.
  - intros r. unfold value_of. destruct (decide (p = r)) as [->|];
      simplify_map_eq; done.
  - unfold next_of, prev_of. split; intros r; (destruct (decide (p = r)) as [->|];
      [rewrite ?decide_True by done|rewrite ?decide_False by congruence]; by simplify_map_eq).
Qed.

Lemma set_prev_run h p q :
  p ∈ dom h →
  ∃ h', set_prev p q h = Some ((), h') ∧ same_nodes h h' ∧
    (∀ r, prev_of h' r = if decide (r = p) then Some q else prev_of h r) ∧
    (∀ r, next_of h' r = next_of h r).
Proof.
  intros [n Hn]%elem_of_dom. unfold set_prev, deref. cunfold. rewrite Hn.
  eexists. split; [done|]. split; [split|].
  - apply dom_insert_lookup_L. by eexists.
  - intros r. unfold value_of. destruct (decide (p = r)) as [->|];
      simplify_map_eq; done.
  - unfold next_of, prev_of. split; intros r; (destruct (decide (p = r)) as [->|];
      [rewrite ?decide_True by done|rewrite ?decide_False by congruence]; by simplify_map_eq).
Qed.

Lemma same_nodes_trans h1 h2 h3 : same_nodes h1 h2 → same_nodes h2 h3 → same_nodes h1 h3.
Proof. unfold same_nodes. intros [H1 H2] [H3 H4]. split; [congruence|]. intros. by rewrite H4. Qed.

Lemma same_nodes_dom h1 h2 p : same_nodes h1 h2 → p ∈ dom h1 → p ∈ dom h2.
Proof. by intros [-> _]. Qed.

Lemma deref_run h p q : next_of h p = Some q → ∃ n, deref p h = Some (n, h) ∧ next n = q ∧ h !! p = Some n.
Proof.
  unfold next_of, deref. intros (n & Hn & ->)%fmap_Some_1. exists n.
  cunfold. by rewrite Hn.
Qed.

Lemma prev_of_dom h p q : prev_of h p = Some q → p ∈ dom h.
Proof. unfold prev_of. intros (n & Hn & _)%fmap_Some_1. apply elem_of_dom. by eexists. Qed.
Lemma next_of_dom h p q : next_of h p = Some q → p ∈ dom h.
Proof. unfold next_of. intros (n & Hn & _)%fmap_Some_1. apply elem_of_dom. by eexists. Qed.

Lemma deref_links h p a b :
  prev_of h p = Some a → next_of h p = Some b →
  ∃ v, deref p h = Some (Node a b v, h).
Proof.
  unfold prev_of, next_of, deref. intros (n & Hn & ->)%fmap_Some_1. rewrite Hn. csimpl.
  intros [= <-]. exists (value n). cunfold. rewrite Hn. by destruct n.
Qed.

(** *** Rings *)
Lemma last_of_reverse p l : last_of p (reverse l) = default p (head l).
Proof. unfold last_of. by rewrite last_reverse. Qed.

Lemma seg_first f p l q : seg f p l q → f p = Some (default q (head l)).
Proof. destruct l; csimpl; [done|by intros [? _]]. Qed.

Lemma seg_dom_next h p l q : seg (next_of h) p l q → ∀ r, r ∈ p :: l → r ∈ dom h.
Proof.
  revert p. induction l as [|x l IH]; intros p; csimpl.
  - intros Hp r ->%list_elem_of_singleton. by eapply next_of_dom.
  - intros [Hp Hs] r [->|Hr]%elem_of_cons; [by eapply next_of_dom|by eapply IH].
Qed.

Lemma ring_dom h p l r : ring h p l → r ∈ p :: l → r ∈ dom h.
Proof. intros [_ Hn _]. by eapply seg_dom_next. Qed.

(** Pointers as [prepend] and [detach] leave them. *)
Lemma ring_prepended h h' p x l :
  ring h p l → x ∉ p :: l → let y := default p (head l) in
  (∀ r, next_of h' r = if decide (r = p) then Some x else if decide (r = x) then Some y else next_of h r) →
  (∀ r, prev_of h' r = if decide (r = y) then Some x else if decide (r = x) then Some p else prev_of h r) →
  ring h' p (x :: l).
Proof.
  intros [Hnd Hnx Hpv] Hx y HN HP. pose proof (seg_first _ _ _ _ Hnx) as Hfirst. fold y in Hfirst.
  assert (Hxp : x ≠ p) by (intros ->; apply Hx; left).
  assert (Hxy : x ≠ y) by (intros ->; apply Hx; unfold y; destruct l; [left|right; left]). split.
  - apply NoDup_cons in Hnd as [Hpl Hl]. apply not_elem_of_cons in Hx as [_ Hxl].
    apply NoDup_cons. rewrite not_elem_of_cons. split; [done|]. by apply NoDup_cons.
  - apply (seg_insert (next_of h) _ p [] x l p); csimpl; [done|done| | | |done]; change (last_of p []) with p.
    + intros r Hr Hrp. rewrite HN, !decide_False; [done| |done]. by intros ->.
    + by rewrite HN, decide_True.
    + by rewrite HN, decide_False, decide_True.
  - rewrite reverse_cons.
    assert (Hmem : ∀ r, r ∈ p :: reverse l ++ [] ↔ r ∈ p :: l).
    { intros r. rewrite app_nil_r. rewrite !elem_of_cons, elem_of_reverse. done. }
    apply (seg_insert (prev_of h) _ p (reverse l) x [] p); rewrite ?last_of_reverse; fold y.
    + by rewrite app_nil_r, reverse_Permutation.
    + by rewrite Hmem.
    + intros r Hr Hry. rewrite HP, !decide_False; [done| |done]. intros ->. by rewrite Hmem in Hr.
    + by rewrite HP, decide_True.
    + rewrite HP, decide_False, decide_True by done.
      symmetry. apply seg_last in Hpv. by rewrite last_of_reverse in Hpv.
    + by rewrite app_nil_r.
Qed.

Lemma ring_detached h h' p l1 x l2 :
  ring h p (l1 ++ x :: l2) → let a := last_of p l1 in let b := default p (head l2) in
  (∀ r, next_of h' r = if decide (r = a) then Some b else next_of h r) →
  (∀ r, prev_of h' r = if decide (r = b) then Some a else prev_of h r) →
  next_of h x = Some b → prev_of h x = Some a → ring h' p (l1 ++ l2).
Proof.
  intros [Hnd Hnx Hpv] a b HN HP Hnb Hpa.
  assert (Hb : last_of p (reverse l2) = b) by apply last_of_reverse.
  assert (Hrev : reverse (l1 ++ x :: l2) = reverse l2 ++ x :: reverse l1)
    by by rewrite reverse_app, reverse_cons, <- app_assoc. split.
  - rewrite app_comm_cons in Hnd |- *. apply NoDup_app in Hnd as (H1 & H2 & H3).
    apply NoDup_cons in H3 as [H3 H4]. apply NoDup_app. split; [done|]. split; [|done].
    intros r Hr Hr2. apply (H2 r Hr). by right.
  - apply (seg_remove (next_of h) _ p l1 x l2 p); [done| | |done]; fold a.
    + intros r _ Hr. by rewrite HN, decide_False.
    + by rewrite HN, decide_True, Hnb.
  - rewrite reverse_app. rewrite Hrev in Hpv.
    apply (seg_remove (prev_of h) _ p (reverse l2) x (reverse l1) p); [| | |done]; rewrite ?Hb.
    + by rewrite <- Hrev, reverse_Permutation.
    + intros r _ Hr. by rewrite HP, decide_False.
    + by rewrite HP, decide_True, Hpa.
Qed.

Lemma prepend_run h p x l :
  ring h p l → x ∉ p :: l → x ∈ dom h →
  ∃ h', prepend p x h = Some ((), h') ∧ ring h' p (x :: l) ∧ same_nodes h h'.
Proof.
  intros Hring Hx Hdom. pose proof Hring as [_ Hnx _]. set (y := default p (head l)).
  assert (Hy : y ∈ p :: l) by (unfold y; destruct l; [left|right; left]).
  pose proof (seg_first _ _ _ _ Hnx) as Hfirst. fold y in Hfirst.
  unfold prepend.
  destruct (set_prev_run h x p Hdom) as (h1 & Hrun1 & Hs1 & Hp1 & Hn1). cstep_by Hrun1.
  destruct (deref_run h1 p y) as (s & Hd & Hsn & _); [by rewrite Hn1|]. cstep_by Hd. rewrite Hsn.
  destruct (set_next_run h1 x y) as (h2 & Hrun2 & Hs2 & Hn2 & Hp2);
    [by eapply same_nodes_dom|]. cstep_by Hrun2.
  destruct (deref_run h2 x y) as (n & Hd2 & Hnn & _); [by rewrite Hn2, decide_True|].
  cstep_by Hd2. rewrite Hnn.
  assert (Hdy : y ∈ dom h2).
  { destruct Hs1 as [E1 _], Hs2 as [E2 _]. rewrite E2, E1.
    eapply seg_dom_next; [exact Hnx|done]. }
  destruct (set_prev_run h2 y x Hdy) as (h3 & Hrun3 & Hs3 & Hp3 & Hn3). cstep_by Hrun3.
  assert (Hdp : p ∈ dom h3).
  { destruct Hs1 as [E1 _], Hs2 as [E2 _], Hs3 as [E3 _]. rewrite E3, E2, E1.
    eapply seg_dom_next; [exact Hnx|left]. }
  destruct (set_next_run h3 p x Hdp) as (h4 & Hrun4 & Hs4 & Hn4 & Hp4).
  exists h4. split; [done|]. split; [|eauto using same_nodes_trans].
  apply (ring_prepended h); [done|done| |]; intros r; [by rewrite Hn4, Hn3, Hn2, Hn1|by rewrite Hp4, Hp3, Hp2, Hp1].
Qed.

Lemma detach_run h p l1 x l2 :
  ring h p (l1 ++ x :: l2) →
  ∃ h', detach x h = Some ((), h') ∧ ring h' p (l1 ++ l2) ∧ same_nodes h h'.
Proof.
  intros Hring. pose proof Hring as [Hnd Hnx Hpv'].
  rewrite reverse_app, reverse_cons, <- app_assoc in Hpv'. csimpl in Hpv'.
  set (a := last_of p l1). set (b := default p (head l2)).
  destruct (proj1 (seg_app _ _ _ _ _ _) Hnx) as [Hnx1 Hnx2].
  destruct (proj1 (seg_app _ _ _ _ _ _) Hpv') as [Hpv1 Hpv2].
  assert (Hna : next_of h a = Some x) by by apply seg_last.
  assert (Hnb : next_of h x = Some b) by by apply seg_first in Hnx2.
  assert (Hpb : prev_of h b = Some x) by (unfold b; rewrite <- last_of_reverse; by apply seg_last).
  assert (Hpa : prev_of h x = Some a).
  { apply seg_first in Hpv2. rewrite Hpv2. unfold a, last_of.
    by rewrite <- (reverse_involutive l1), last_reverse, reverse_involutive. }
  assert (Hax : a ≠ x).
  { pose proof (last_of_elem p l1 : a ∈ p :: l1) as Hin.
    rewrite app_comm_cons in Hnd. apply NoDup_app in Hnd as (_ & Hd & _).
    intros ->. eapply Hd; [exact Hin|left]. }
  assert (Hbx : b ≠ x).
  { unfold b. apply NoDup_cons in Hnd as [Hp Hnd]. apply NoDup_app in Hnd as (_ & _ & Hnd).
    apply NoDup_cons in Hnd as [Hx _]. destruct l2 as [|z l2]; csimpl.
    - intros ->. apply Hp. apply elem_of_app. right. left.
    - intros ->. apply Hx. left. }
  unfold detach. destruct (deref_links h x a b Hpa Hnb) as (v & Hd). cstep_by Hd. csimpl.
  destruct (set_next_run h a b) as (h1 & Hrun1 & Hs1 & Hn1 & Hp1); [by eapply next_of_dom|].
  cstep_by Hrun1.
  destruct (deref_links h1 x a b) as (v' & Hd');
    [by rewrite Hp1|by rewrite Hn1, decide_False|].
  cstep_by Hd'. csimpl.
  destruct (set_prev_run h1 b a) as (h2 & Hrun2 & Hs2 & Hp2 & Hn2);
    [eapply same_nodes_dom; [done|by eapply prev_of_dom]|].
  exists h2. split; [done|]. split; [|by eapply same_nodes_trans].
  apply (ring_detached h h2 p l1 x l2); [done| | |done|done]; intros r; [by rewrite Hn2, Hn1|by rewrite Hp2, Hp1].
Qed.
End heap.
