(* ===== verification/CStore.v ===== *)
(** * The memory of [src/01-basics/lru-in-c]

    One typed heap per structure of the program, a supply of addresses that are
    never reused, and the outcomes of the allocations to come. A dereference, a
    [free] or an array access that the C program may not make has no behaviour. *)

From S2P Require Import Prelude Links.

(** Addresses; [NULL] is [0]. *)
Abbreviation ptr := nat (only parsing).
Definition NULL : ptr := 0%nat.

(** [struct HashMapEntry] of hash_map.c *)
Record HashMapEntry := Entry { e_key : Z; e_value : ptr; e_next : ptr }.
(** [struct HashMap] of hash_map.c *)
Record HashMap := Map { buckets : ptr; bucket_count : Z }.
(** [CacheEntry] of lru.c; the page is indeterminate until it is loaded. *)
Record CacheEntry := Page { c_key : Z; c_value : option Z }.
(** [struct LruCache] of lru.c *)
Record LruCache := Cache { recency : ptr; index : ptr; capacity : Z; size_ : Z }.

Record store := Store {
  nodes : gmap ptr (node ptr ptr);  (* [struct ListNode], [struct List] *)
  entries : gmap ptr HashMapEntry;
  arrays : gmap ptr (list ptr);     (* bucket arrays *)
  maps : gmap ptr HashMap;
  pages : gmap ptr CacheEntry;
  caches : gmap ptr LruCache;
  brk : ptr;                        (* the next address to hand out *)
  plan : list bool                  (* which of the next allocations succeed *) }.

Definition set_nodes x s := Store x (entries s) (arrays s) (maps s) (pages s) (caches s) (brk s) (plan s).
Definition set_entries x s := Store (nodes s) x (arrays s) (maps s) (pages s) (caches s) (brk s) (plan s).
Definition set_arrays x s := Store (nodes s) (entries s) x (maps s) (pages s) (caches s) (brk s) (plan s).
Definition set_maps x s := Store (nodes s) (entries s) (arrays s) x (pages s) (caches s) (brk s) (plan s).
Definition set_pages x s := Store (nodes s) (entries s) (arrays s) (maps s) x (caches s) (brk s) (plan s).
Definition set_caches x s := Store (nodes s) (entries s) (arrays s) (maps s) (pages s) x (brk s) (plan s).
Definition set_alloc b p s := Store (nodes s) (entries s) (arrays s) (maps s) (pages s) (caches s) b p.

(** [malloc]: a fresh address or [NULL]; past the end of the plan it succeeds. *)
Definition malloc : C store ptr := λ s,
  match plan s with
  | false :: p => Some (NULL, set_alloc (brk s) p s)
  | true :: p => Some (brk s, set_alloc (S (brk s)) p s)
  | [] => Some (brk s, set_alloc (S (brk s)) [] s)
  end.

(** Run a computation on the heap of list nodes. *)
Definition on_nodes {A} (m : C (gmap ptr (node ptr ptr)) A) : C store A := λ s,
  match m (nodes s) with Some (a, h) => Some (a, set_nodes h s) | None => None end.

Definition load {A} (heap : store → gmap ptr A) (p : ptr) : C store A :=
  s ← get; of_option (heap s !! p).

(** [free] of an object that is allocated; of [NULL], nothing. *)
Definition free {A} (heap : store → gmap ptr A) (update : gmap ptr A → store → store)
    (p : ptr) : C store () :=
  if decide (p = NULL) then mret ()
  else (_ ← load heap p; modify (λ s, update (delete p (heap s)) s)).

(** Addresses handed out so far are below [brk], and [NULL] is none of them. *)
Record store_wf (s : store) : Prop := {
  wf_brk : (0 < brk s)%nat;
  wf_nodes : ∀ p, p ∈ dom (nodes s) → (0 < p < brk s)%nat;
  wf_entries : ∀ p, p ∈ dom (entries s) → (0 < p < brk s)%nat;
  wf_arrays : ∀ p, p ∈ dom (arrays s) → (0 < p < brk s)%nat;
  wf_maps : ∀ p, p ∈ dom (maps s) → (0 < p < brk s)%nat;
  wf_pages : ∀ p, p ∈ dom (pages s) → (0 < p < brk s)%nat;
  wf_caches : ∀ p, p ∈ dom (caches s) → (0 < p < brk s)%nat }.

Definition empty_store (p : list bool) : store := Store ∅ ∅ ∅ ∅ ∅ ∅ 1 p.

Lemma empty_store_wf p : store_wf (empty_store p).
Proof. split; csimpl; [lia|set_solver..]. Qed.

(** All allocations to come succeed. *)
Definition plenty (s : store) : Prop := Forall Is_true (plan s).

Lemma malloc_run s :
  ∃ pl, (plenty s → Forall Is_true pl) ∧
    (malloc s = Some (NULL, set_alloc (brk s) pl s) ∧ ¬ plenty s ∨
     malloc s = Some (brk s, set_alloc (S (brk s)) pl s)).
Proof.
  unfold malloc, plenty. destruct (plan s) as [|[] pl].
  - exists []. split; [done|by right].
  - exists pl. split; [by intros [_ ?]%Forall_cons|by right].
  - exists pl. split; [by intros [? _]%Forall_cons|]. left.
    split; [done|]. by intros [? _]%Forall_cons.
Qed.

Lemma free_run {A} heap (update : gmap ptr A → store → store) p x s :
  heap s !! p = Some x → p ≠ NULL →
  free heap update p s = Some ((), update (delete p (heap s)) s).
Proof.
  intros Hx Hp. unfold free, load. rewrite decide_False by done. cunfold. by rewrite Hx.
Qed.

Lemma free_null {A} heap (update : gmap ptr A → store → store) s :
  free heap update NULL s = Some ((), s).
Proof. unfold free. by rewrite decide_True. Qed.

Lemma load_run {A} (heap : store → gmap ptr A) p x s :
  heap s !! p = Some x → load heap p s = Some (x, s).
Proof. intros Hx. unfold load. cunfold. by rewrite Hx. Qed.

Lemma on_nodes_run {A} (m : C (gmap ptr (node ptr ptr)) A) s a h :
  m (nodes s) = Some (a, h) → on_nodes m s = Some (a, set_nodes h s).
Proof. intros Hm. unfold on_nodes. by rewrite Hm. Qed.

Create Rewrite HintDb store.

Lemma set_nodes_id s : set_nodes (nodes s) s = s.
Proof. by destruct s. Qed.

Lemma set_entries_id s : set_entries (entries s) s = s.
Proof. by destruct s. Qed.

Lemma set_arrays_id s : set_arrays (arrays s) s = s.
Proof. by destruct s. Qed.

Lemma set_nodes_twice h1 h2 s : set_nodes h1 (set_nodes h2 s) = set_nodes h1 s.
Proof. done. Qed.

#[export] Hint Rewrite set_nodes_id set_entries_id set_arrays_id set_nodes_twice : store.

(** Operations that allocate nothing only shrink the heaps. *)
Lemma wf_shrink s s' :
  store_wf s → (brk s ≤ brk s')%nat →
  dom (nodes s') ⊆ dom (nodes s) → dom (entries s') ⊆ dom (entries s) →
  dom (arrays s') ⊆ dom (arrays s) → dom (maps s') ⊆ dom (maps s) →
  dom (pages s') ⊆ dom (pages s) → dom (caches s') ⊆ dom (caches s) → store_wf s'.
Proof.
  intros [W1 W2 W3 W4 W5 W6 W7] Hb D1 D2 D3 D4 D5 D6.
  split; [lia|intros p Hp..].
  - specialize (W2 p (D1 p Hp)). lia.
  - specialize (W3 p (D2 p Hp)). lia.
  - specialize (W4 p (D3 p Hp)). lia.
  - specialize (W5 p (D4 p Hp)). lia.
  - specialize (W6 p (D5 p Hp)). lia.
  - specialize (W7 p (D6 p Hp)). lia.
Qed.
