(* ===== verification/CList.v ===== *)
(** * [src/01-basics/lru-in-c/src/list.c]: the circular doubly linked list

    The list structure is its sentinel node, at the address of the list itself.
    [clist s l ns]: the list at [l] holds the nodes [ns], most recent first. *)

From S2P Require Import Prelude Links CStore.

Definition list_create : C store ptr :=
  list ← malloc;
  (if decide (list = NULL) then mret ()
   else modify (λ s, set_nodes (<[list := Node list list NULL]> (nodes s)) s));;
  mret list.

Definition list_empty (list : ptr) : C store bool :=
  n ← on_nodes (deref list); mret (bool_decide (next n = list)).

Definition list_front (list : ptr) : C store ptr :=
  empty ← list_empty list;
  n ← on_nodes (deref list);
  mret (if empty : bool then NULL else next n).

Definition list_back (list : ptr) : C store ptr :=
  empty ← list_empty list;
  n ← on_nodes (deref list);
  mret (if empty : bool then NULL else prev n).

Definition list_value (node : ptr) : C store ptr :=
  n ← on_nodes (deref node); mret (value n).

Definition prepend (list node : ptr) : C store () := on_nodes (Links.prepend list node).
Definition detach (node : ptr) : C store () := on_nodes (Links.detach node).

(** The fresh node is given its value before it is linked. *)
Definition list_push_front (list value : ptr) : C store ptr :=
  node ← malloc;
  if decide (node = NULL) then mret NULL
  else
    modify (λ s, set_nodes (<[node := Node NULL NULL value]> (nodes s)) s);;
    prepend list node;;
    mret node.

Definition list_move_front (list node : ptr) : C store () :=
  detach node;; prepend list node.

Definition list_remove (list node : ptr) : C store () :=
  detach node;; free nodes set_nodes node.

(** [while (!list_empty(list)) list_remove(list, list_front(list));] *)
Fixpoint remove_all (fuel : nat) (list : ptr) : C store () :=
  match fuel with
  | O => undefined
  | S fuel =>
    empty ← list_empty list;
    if empty : bool then mret ()
    else (front ← list_front list; list_remove list front;; remove_all fuel list)
  end.

Definition list_destroy (list : ptr) : C store () :=
  if decide (list = NULL) then mret ()
  else (s ← get; remove_all (S (size (nodes s))) list;; free nodes set_nodes list).

(** ** The list at an address *)
Record clist (s : store) (l : ptr) (ns : list ptr) : Prop := {
  clist_ring : ring (nodes s) l ns;
  clist_dom : ∀ p, p ∈ dom (nodes s) ↔ p ∈ l :: ns }.

(** The payload of a node. *)
Definition payload (s : store) (p : ptr) : option ptr := value_of (nodes s) p.

Lemma clist_ext s s' l ns : nodes s' = nodes s → clist s l ns → clist s' l ns.
Proof. intros Hn [H1 H2]. split; by rewrite Hn. Qed.

Section facts.
Implicit Types (s : store) (l p x : ptr) (ns : list ptr).

(** A read of the list leaves the store as it is. *)
Lemma on_deref s p n : nodes s !! p = Some n → on_nodes (deref p) s = Some (n, s).
Proof.
  intros Hn. erewrite on_nodes_run; [by rewrite set_nodes_id|].
  unfold deref. cunfold. by rewrite Hn.
Qed.

Lemma clist_sentinel s l ns :
  clist s l ns → ∃ n, nodes s !! l = Some n ∧
    next n = default l (head ns) ∧ prev n = default l (last ns).
Proof.
  intros [[Hnd Hnx Hpv] _]. apply seg_first in Hnx, Hpv. rewrite head_reverse in Hpv.
  unfold next_of, prev_of in *. destruct (nodes s !! l) as [n|]; [|done].
  exists n. csimpl in *. naive_solver.
Qed.

Lemma clist_not_sentinel s l ns x : clist s l ns → x ∈ ns → x ≠ l.
Proof. intros [[Hnd _ _] _] Hx ->. by apply NoDup_cons in Hnd as [? _]. Qed.

Lemma list_empty_run s l ns :
  clist s l ns → list_empty l s = Some (bool_decide (ns = []), s).
Proof.
  intros Hl. destruct (clist_sentinel s l ns Hl) as (n & Hn & Hnx & _).
  unfold list_empty. cstep_by (on_deref s l n Hn). rewrite Hnx.
  unfold mret, C_ret. do 2 f_equal. apply bool_decide_ext.
  destruct ns as [|x ns]; csimpl; [done|]. split; [|done]. intros ->.
  exfalso. eapply (clist_not_sentinel s l); [done|left|done].
Qed.

Lemma list_front_run s l x ns :
  clist s l (x :: ns) → list_front l s = Some (x, s).
Proof.
  intros Hl. destruct (clist_sentinel s l _ Hl) as (n & Hn & Hnx & _).
  unfold list_front. cstep_by (list_empty_run s l _ Hl). cstep_by (on_deref s l n Hn).
  by rewrite Hnx.
Qed.

Lemma list_back_run s l x ns :
  clist s l (ns ++ [x]) → list_back l s = Some (x, s).
Proof.
  intros Hl. destruct (clist_sentinel s l _ Hl) as (n & Hn & _ & Hpv).
  unfold list_back. cstep_by (list_empty_run s l _ Hl). cstep_by (on_deref s l n Hn).
  rewrite bool_decide_eq_false_2 by by destruct ns. by rewrite Hpv, last_snoc.
Qed.

Lemma list_value_run s p v : payload s p = Some v → list_value p s = Some (v, s).
Proof.
  unfold payload, value_of. intros (n & Hn & ->)%fmap_Some_1.
  unfold list_value. by cstep_by (on_deref s p n Hn).
Qed.

(** Relinking keeps the domain and the payloads. *)
Lemma clist_relink s h l ns ns' :
  clist s l ns → ring h l ns' → ns' ≡ₚ ns → same_nodes (nodes s) h →
  clist (set_nodes h s) l ns' ∧ ∀ p, payload (set_nodes h s) p = payload s p.
Proof.
  intros [Hr Hd] Hr' Hp [Hdom Hval]. split; [split; [done|]|exact Hval].
  intros q. csimpl. by rewrite Hdom, Hd, Hp.
Qed.

Lemma list_move_front_run s l ns1 x ns2 :
  clist s l (ns1 ++ x :: ns2) →
  ∃ s', list_move_front l x s = Some ((), s') ∧ clist s' l (x :: ns1 ++ ns2) ∧
    (∀ p, payload s' p = payload s p) ∧ ∃ h, s' = set_nodes h s.
Proof.
  intros Hl. pose proof Hl as [Hr Hd].
  destruct (detach_run (nodes s) l ns1 x ns2 Hr) as (h1 & Hrun1 & Hr1 & Hs1).
  destruct (prepend_run h1 l x (ns1 ++ ns2) Hr1) as (h2 & Hrun2 & Hr2 & Hs2).
  { destruct Hr as [Hnd _ _]. rewrite <- (Permutation_middle ns1 ns2 x) in Hnd.
    apply NoDup_cons in Hnd as [Hl1 Hnd]. apply NoDup_cons in Hnd as [Hx _].
    apply not_elem_of_cons. split; [|done]. intros ->. apply Hl1. left. }
  { eapply same_nodes_dom; [done|]. apply Hd. right. apply elem_of_app. right. left. }
  exists (set_nodes h2 s). unfold list_move_front, detach, prepend.
  cstep_by (on_nodes_run _ s _ _ Hrun1).
  rewrite (on_nodes_run (Links.prepend l x) (set_nodes h1 s) () h2 Hrun2).
  split; [done|].
  destruct (clist_relink s h2 l _ (x :: ns1 ++ ns2) Hl Hr2) as [Hl2 Hpay];
    [apply Permutation_middle|by eapply same_nodes_trans|by eauto].
Qed.

Lemma list_remove_run s l ns1 x ns2 :
  clist s l (ns1 ++ x :: ns2) → x ≠ NULL →
  ∃ s', list_remove l x s = Some ((), s') ∧ clist s' l (ns1 ++ ns2) ∧
    (∀ p, p ≠ x → payload s' p = payload s p) ∧ ∃ h, s' = set_nodes h s.
Proof.
  intros Hl Hx0. pose proof Hl as [Hr Hd].
  destruct (detach_run (nodes s) l ns1 x ns2 Hr) as (h1 & Hrun1 & Hr1 & [Hdom Hval]).
  assert (Hnx : x ∉ l :: ns1 ++ ns2).
  { destruct Hr as [Hnd _ _]. rewrite <- (Permutation_middle ns1 ns2 x) in Hnd.
    apply NoDup_cons in Hnd as [Hl1 Hnd]. apply NoDup_cons in Hnd as [Hx _].
    apply not_elem_of_cons. split; [|done]. intros ->. apply Hl1. left. }
  assert (Hin : x ∈ dom h1).
  { rewrite Hdom. apply Hd. right. apply elem_of_app. right. left. }
  apply elem_of_dom in Hin as [n Hn].
  exists (set_nodes (delete x h1) s). unfold list_remove, detach.
  cstep_by (on_nodes_run _ s _ _ Hrun1).
  rewrite (free_run nodes set_nodes x n (set_nodes h1 s) Hn Hx0). split; [done|].
  split; [split; csimpl|split; [|by eexists]].
  - destruct Hr1 as [Hnd Hnx1 Hpv1]. split; [done| |].
    + eapply seg_ext; [|done]. intros p Hp. unfold next_of.
      rewrite lookup_delete_ne; [done|]. by intros ->.
    + eapply seg_ext; [|done]. intros p Hp. unfold prev_of.
      rewrite lookup_delete_ne; [done|]. intros ->. apply Hnx.
      by rewrite <- (reverse_Permutation (ns1 ++ ns2)).
  - intros p. rewrite dom_delete_L, elem_of_difference, Hdom, Hd.
    rewrite !elem_of_cons, !elem_of_app, elem_of_cons, elem_of_singleton.
    rewrite elem_of_cons, elem_of_app in Hnx.
    destruct (decide (p = x)) as [->|]; naive_solver.
  - intros p Hp. unfold payload, value_of. csimpl. rewrite lookup_delete_ne by done.
    apply Hval.
Qed.

Lemma list_push_front_run s l v ns :
  clist s l ns → store_wf s →
  ∃ x s' pl, list_push_front l v s = Some (x, s') ∧ (plenty s → Forall Is_true pl) ∧
    (x = NULL ∧ ¬ plenty s ∧ s' = set_alloc (brk s) pl s ∨
     x = brk s ∧ clist s' l (x :: ns) ∧ payload s' x = Some v ∧
     (∀ p, p ≠ x → payload s' p = payload s p) ∧
     ∃ h, s' = set_nodes h (set_alloc (S (brk s)) pl s)).
Proof.
  intros [Hr Hd] Hwf. unfold list_push_front.
  destruct (malloc_run s) as (pl & Hpl & [[Hm Hnot]|Hm]); cstep_by Hm.
  { rewrite decide_True by done. eexists _, _, pl. split; [done|]. split; [done|]. by left. }
  rewrite decide_False by (pose proof (wf_brk s Hwf); unfold NULL; lia). cstep.
  set (x := brk s) in *. set (s1 := set_alloc (S x) pl s).
  assert (Hfresh : x ∉ l :: ns).
  { intros Hx. apply Hd, (wf_nodes s Hwf) in Hx. lia. }
  assert (Hnodes : nodes s1 = nodes s) by done.
  assert (Hnone : nodes s !! x = None).
  { apply not_elem_of_dom. by rewrite Hd. }
  set (h1 := <[x := Node NULL NULL v]> (nodes s1)).
  assert (Hr1 : ring h1 l ns).
  { destruct Hr as [Hnd Hn Hp]. unfold h1. rewrite Hnodes. split; [done| |].
    - eapply seg_ext; [|done]. intros p Hpin. unfold next_of.
      rewrite lookup_insert_ne; [done|]. by intros ->.
    - eapply seg_ext; [|done]. intros p Hpin. unfold prev_of.
      rewrite lookup_insert_ne; [done|]. intros <-. apply Hfresh.
      by rewrite <- (reverse_Permutation ns). }
  destruct (prepend_run h1 l x ns Hr1 Hfresh) as (h2 & Hrun & Hr2 & [Hdom2 Hval2]).
  { unfold h1. rewrite dom_insert_L. set_solver. }
  unfold prepend. cstep_by (on_nodes_run (Links.prepend l x) (set_nodes h1 s1) () h2 Hrun).
  exists x, (set_nodes h2 s1), pl. split; [done|]. split; [done|]. right. split; [done|].
  split; [split; [done|]|split; [|split]].
  - intros p. csimpl. rewrite Hdom2. unfold h1. rewrite dom_insert_L, Hnodes.
    rewrite elem_of_union, elem_of_singleton, Hd, !elem_of_cons. naive_solver.
  - unfold payload. csimpl. rewrite Hval2. unfold h1, value_of.
    by rewrite lookup_insert_eq.
  - intros p Hp. unfold payload. csimpl. rewrite Hval2. unfold h1, value_of.
    by rewrite lookup_insert_ne, Hnodes.
  - by eexists.
Qed.

Lemma list_create_run s :
  store_wf s → nodes s = ∅ →
  ∃ l s' pl, list_create s = Some (l, s') ∧ (plenty s → Forall Is_true pl) ∧
    (l = NULL ∧ ¬ plenty s ∧ s' = set_alloc (brk s) pl s ∨
     l = brk s ∧ clist s' l [] ∧ ∃ h, s' = set_nodes h (set_alloc (S (brk s)) pl s)).
Proof.
  intros Hwf Hempty. unfold list_create.
  destruct (malloc_run s) as (pl & Hpl & [[Hm Hnot]|Hm]); cstep_by Hm.
  { rewrite decide_True by done. eexists _, _, pl. split; [done|]. split; [done|]. by left. }
  rewrite decide_False by (pose proof (wf_brk s Hwf); unfold NULL; lia). cstep.
  eexists _, _, pl. split; [done|]. split; [done|].
  right. split; [done|]. split; [|by eexists]. split.
  - unfold next_of, prev_of. split; csimpl; [repeat constructor; set_solver|..];
      unfold next_of, prev_of; by rewrite lookup_insert_eq.
  - intros p. csimpl. rewrite Hempty, dom_insert_L. set_solver.
Qed.

(** The destruction loop removes every node, and the fuel it gets is enough. *)
Lemma remove_all_run fuel s l ns :
  clist s l ns → store_wf s → (length ns < fuel)%nat →
  ∃ h, remove_all fuel l s = Some ((), set_nodes h s) ∧ clist (set_nodes h s) l [].
Proof.
  revert fuel s. induction ns as [|x ns IH]; intros [|fuel] s Hl Hwf Hf; csimpl in *; try lia.
  - cstep_by (list_empty_run s l _ Hl). exists (nodes s). by rewrite set_nodes_id.
  - cstep_by (list_empty_run s l _ Hl). rewrite bool_decide_eq_false_2 by done.
    cstep_by (list_front_run s l x ns Hl).
    assert (Hx0 : x ≠ NULL).
    { assert (x ∈ dom (nodes s)) as Hx by (apply Hl; right; left).
      apply (wf_nodes s Hwf) in Hx. unfold NULL. lia. }
    destruct (list_remove_run s l [] x ns Hl Hx0) as (s1 & Hrun & Hl1 & _ & h & ->).
    cstep_by Hrun. destruct (IH fuel (set_nodes h s) Hl1) as (h' & Hrun2 & Hl2).
    + split; try apply Hwf. intros p Hp.
      apply (wf_nodes s Hwf). apply Hl. apply Hl1 in Hp. set_solver.
    + lia.
    + by exists h'.
Qed.

Lemma clist_fuel s l ns : clist s l ns → (length ns < S (size (nodes s)))%nat.
Proof.
  intros Hl. assert (list_to_set ns ⊆ dom (nodes s)) as Hsub.
  { intros p Hp. apply Hl. right. by apply elem_of_list_to_set in Hp. }
  apply subseteq_size in Hsub. rewrite size_list_to_set, size_dom in Hsub; [lia|].
  destruct Hl as [[Hnd _ _] _]. by apply NoDup_cons in Hnd as [_ ?].
Qed.

(** Destroying the list frees all its nodes. *)
Lemma list_destroy_run s l ns :
  clist s l ns → store_wf s →
  list_destroy l s = Some ((), set_nodes ∅ s).
Proof.
  intros Hl Hwf. unfold list_destroy.
  assert (Hl0 : l ≠ NULL).
  { assert (l ∈ dom (nodes s)) as Hx by (apply Hl; left).
    apply (wf_nodes s Hwf) in Hx. unfold NULL. lia. }
  rewrite decide_False by done. cstep.
  destruct (remove_all_run (S (size (nodes s))) s l ns Hl Hwf) as (h & Hrun & Hl1).
  { by eapply clist_fuel. }
  cstep_by Hrun. destruct (clist_sentinel _ l [] Hl1) as (n & Hn & _).
  rewrite (free_run nodes set_nodes l n _ Hn Hl0).
  assert (Hempty : delete l h = ∅).
  { apply dom_empty_inv_L. rewrite dom_delete_L. apply set_eq. intros p.
    destruct Hl1 as [_ Hd]. rewrite elem_of_difference. csimpl in Hd. rewrite Hd. set_solver. }
  csimpl. by rewrite Hempty.
Qed.
End facts.
