(* ===== verification/HashMap.v ===== *)
(** * [src/01-basics/lru-in-c/src/hash_map.c]: the chained hash table

    [chash s map m]: the table at [map] represents the finite map [m] from keys to
    values. Its buckets are null-terminated chains of heap entries; a chain holds
    no key twice, and every entry of the heap is in exactly one chain. *)

From S2P Require Import Prelude LruSpec MixHash CStore.

(** ** The operations *)
Definition SIZEOF_PTR : Z := 8.

Definition hash_map_create (n : Z) : C store ptr :=
  if (n =? 0) || (SIZE_MAX `div` SIZEOF_PTR <? n) then mret NULL
  else
    map ← malloc;
    if decide (map = NULL) then mret NULL
    else
      a ← malloc;
      modify (λ s, set_maps (<[map := Map a 0]> (maps s)) s);;
      if decide (a = NULL) then free maps set_maps map;; mret NULL
      else
        modify (λ s, set_arrays (<[a := replicate (Z.to_nat n) NULL]> (arrays s)) s);;
        modify (λ s, set_maps (<[map := Map a n]> (maps s)) s);;
        mret map.

(** [for (entry = ...; entry; entry = entry->next)] *)
Fixpoint find_from (fuel : nat) (key : Z) (entry : ptr) : C store (option ptr) :=
  match fuel with
  | O => undefined
  | S fuel =>
    if decide (entry = NULL) then mret None
    else
      e ← load entries entry;
      if e_key e =? key then mret (Some (e_value e)) else find_from fuel key (e_next e)
  end.

(** [map->buckets[i]] *)
Definition read_bucket (a : ptr) (i : Z) : C store ptr :=
  arr ← load arrays a; of_option (arr !! Z.to_nat i).
Definition write_bucket (a : ptr) (i : Z) (p : ptr) : C store () :=
  arr ← load arrays a;
  _ ← of_option (arr !! Z.to_nat i);
  modify (λ s, set_arrays (<[a := <[Z.to_nat i := p]> arr]> (arrays s)) s).

(** The value found; [None] is the result [false]. *)
Definition hash_map_find (map : ptr) (key : Z) : C store (option ptr) :=
  m ← load maps map;
  first ← read_bucket (buckets m) (bucket_for (bucket_count m) key);
  s ← get;
  find_from (S (size (entries s))) key first.

Inductive HashMapResult := HASH_MAP_INSERTED | HASH_MAP_DUPLICATE | HASH_MAP_NO_MEMORY.

Definition hash_map_insert (map : ptr) (key : Z) (value : ptr) : C store HashMapResult :=
  existing ← hash_map_find map key;
  match existing with
  | Some _ => mret HASH_MAP_DUPLICATE
  | None =>
    entry ← malloc;
    if decide (entry = NULL) then mret HASH_MAP_NO_MEMORY
    else
      m ← load maps map;
      let bucket := bucket_for (bucket_count m) key in
      first ← read_bucket (buckets m) bucket;
      modify (λ s, set_entries (<[entry := Entry key value first]> (entries s)) s);;
      write_bucket (buckets m) bucket entry;;
      mret HASH_MAP_INSERTED
  end.

(** A [HashMapEntry **]: the head of a bucket or the [next] field of an entry. *)
Inductive link := BucketAt (a : ptr) (i : Z) | NextOf (entry : ptr).

Definition read_link (l : link) : C store ptr :=
  match l with
  | BucketAt a i => read_bucket a i
  | NextOf p => e ← load entries p; mret (e_next e)
  end.
Definition write_link (l : link) (q : ptr) : C store () :=
  match l with
  | BucketAt a i => write_bucket a i q
  | NextOf p =>
    e ← load entries p;
    modify (λ s, set_entries (<[p := Entry (e_key e) (e_value e) q]> (entries s)) s)
  end.

(** [while ( *link && ( *link)->key != key) link = &( *link)->next;] *)
Fixpoint seek (fuel : nat) (key : Z) (l : link) : C store link :=
  match fuel with
  | O => undefined
  | S fuel =>
    p ← read_link l;
    if decide (p = NULL) then mret l
    else
      e ← load entries p;
      if e_key e =? key then mret l else seek fuel key (NextOf p)
  end.

Definition hash_map_remove (map : ptr) (key : Z) : C store bool :=
  m ← load maps map;
  s ← get;
  l ← seek (S (size (entries s))) key (BucketAt (buckets m) (bucket_for (bucket_count m) key));
  entry ← read_link l;
  if decide (entry = NULL) then mret false
  else
    e ← load entries entry;
    write_link l (e_next e);;
    free entries set_entries entry;;
    mret true.

(** [while (entry) { next = entry->next; free(entry); entry = next; }] *)
Fixpoint free_chain (fuel : nat) (entry : ptr) : C store () :=
  match fuel with
  | O => undefined
  | S fuel =>
    if decide (entry = NULL) then mret ()
    else
      e ← load entries entry;
      free entries set_entries entry;;
      free_chain fuel (e_next e)
  end.

(** [for (i = 0; i < map->bucket_count; ++i)] *)
Fixpoint free_buckets (count : nat) (i : Z) (a : ptr) : C store () :=
  match count with
  | O => mret ()
  | S count =>
    entry ← read_bucket a i;
    s ← get;
    free_chain (S (size (entries s))) entry;;
    free_buckets count (i + 1) a
  end.

Definition hash_map_destroy (map : ptr) : C store () :=
  if decide (map = NULL) then mret ()
  else
    m ← load maps map;
    free_buckets (Z.to_nat (bucket_count m)) 0 (buckets m);;
    free arrays set_arrays (buckets m);;
    free maps set_maps map.

(** ** Chains *)
Abbreviation chain := (list (ptr * (Z * ptr))) (only parsing).

Fixpoint hchain (E : gmap ptr HashMapEntry) (p : ptr) (l : list (ptr * (Z * ptr))) : Prop :=
  match l with
  | [] => p = NULL
  | (a, (k, v)) :: l =>
    p = a ∧ a ≠ NULL ∧ ∃ nx, E !! a = Some (Entry k v nx) ∧ hchain E nx l
  end.

Section chains.
Implicit Types (E : gmap ptr HashMapEntry) (p : ptr) (l : list (ptr * (Z * ptr))).

Lemma hchain_ext E E' p l :
  (∀ a, a ∈ l.*1 → E' !! a = E !! a) → hchain E p l → hchain E' p l.
Proof.
  revert p. induction l as [|[a [k v]] l IH]; intros p Hag; csimpl; [done|].
  intros (-> & Ha & nx & Hnx & Hl). split; [done|]. split; [done|].
  exists nx. rewrite Hag by (csimpl; left). split; [done|].
  apply IH; [|done]. intros b Hb. apply Hag. csimpl. by right.
Qed.

Lemma find_from_run fuel key p l s :
  hchain (entries s) p l → (length l < fuel)%nat →
  find_from fuel key p s = Some (assoc key l.*2, s).
Proof.
  revert fuel p. induction l as [|[a [k v]] l IH]; intros [|fuel] p Hl Hf; csimpl in *; try lia.
  - subst p. by rewrite decide_True.
  - destruct Hl as (-> & Ha & nx & Hnx & Hl). rewrite decide_False by done.
    cstep_by (load_run entries a _ s Hnx). csimpl.
    destruct (Z.eqb_spec k key) as [->|Hne]; [by rewrite decide_True|].
    rewrite decide_False by done. apply IH; [done|lia].
Qed.

(** Unlinking the entry after [y]. *)
Lemma hchain_unlink E p l1 y ky vy x kx vx nx l2 :
  NoDup (l1 ++ (y, (ky, vy)) :: (x, (kx, vx)) :: l2).*1 →
  hchain E p (l1 ++ (y, (ky, vy)) :: (x, (kx, vx)) :: l2) →
  E !! x = Some (Entry kx vx nx) →
  hchain (delete x (<[y := Entry ky vy nx]> E)) p (l1 ++ (y, (ky, vy)) :: l2).
Proof.
  revert p. induction l1 as [|[a [k v]] l1 IH]; intros p; csimpl; intros Hnd.
  - intros (-> & Hy & n1 & Hn1 & -> & Hx & n2 & Hn2 & Hl2) Hex.
    apply NoDup_cons in Hnd as [Hy2 Hnd]. apply NoDup_cons in Hnd as [Hx2 Hnd].
    apply not_elem_of_cons in Hy2 as [Hyx Hy2].
    split; [done|]. split; [done|]. exists nx.
    rewrite lookup_delete_ne, lookup_insert_eq by done. split; [done|].
    assert (n2 = nx) as -> by congruence. eapply hchain_ext; [|done].
    intros b Hb. rewrite lookup_delete_ne, lookup_insert_ne; [done|..]; by intros <-.
  - intros (-> & Ha & n1 & Hn1 & Hl) Hex. apply NoDup_cons in Hnd as [Ha2 Hnd].
    rewrite fmap_app, !fmap_cons in Ha2. csimpl in Ha2.
    split; [done|]. split; [done|]. exists n1.
    rewrite lookup_delete_ne, lookup_insert_ne; [split; [done|by apply IH]|..];
      intros ->; apply Ha2; apply elem_of_app; right; [left|right; left].
Qed.
End chains.

#[global] Arguments find_from : simpl never.

(** ** The table at an address *)
Definition addrs (bs : list (list (ptr * (Z * ptr)))) : list ptr := (mjoin bs).*1.

Definition bucket_of (bs : list (list (ptr * (Z * ptr)))) (n key : Z) : list (Z * ptr) :=
  (default [] (bs !! Z.to_nat (bucket_for n key))).*2.

Record hmap_rep (s : store) (map a : ptr) (n : Z) (arr : list ptr)
    (bs : list (list (ptr * (Z * ptr)))) : Prop := {
  hm_map : maps s = {[map := Map a n]};
  hm_array : arrays s = {[a := arr]};
  hm_count : 0 < n ∧ Z.of_nat (length bs) = n;
  hm_chains : Forall2 (hchain (entries s)) arr bs;
  hm_addrs : NoDup (addrs bs);
  hm_dom : ∀ p, p ∈ dom (entries s) ↔ p ∈ addrs bs;
  hm_keys : Forall (λ b, NoDup b.*2.*1) bs }.

Definition chash (s : store) (map : ptr) (m : gmap Z ptr) : Prop :=
  ∃ a n arr bs, hmap_rep s map a n arr bs ∧ ∀ k, assoc k (bucket_of bs n k) = m !! k.

Lemma chash_ext s s' map m :
  entries s' = entries s → arrays s' = arrays s → maps s' = maps s →
  chash s map m → chash s' map m.
Proof.
  intros HE HA HM (a & n & arr & bs & [] & Hm). exists a, n, arr, bs.
  split; [|done]. split; rewrite ?HE, ?HA, ?HM; done.
Qed.

Section facts.
Implicit Types (s : store) (map a p x : ptr) (arr : list ptr) (m : gmap Z ptr)
  (bs : list (list (ptr * (Z * ptr)))) (b : list (ptr * (Z * ptr))).

Lemma addrs_app bs1 bs2 : addrs (bs1 ++ bs2) = addrs bs1 ++ addrs bs2.
Proof. unfold addrs. by rewrite join_app, fmap_app. Qed.
Lemma addrs_cons b bs : addrs (b :: bs) = b.*1 ++ addrs bs.
Proof. unfold addrs. csimpl. by rewrite fmap_app. Qed.

(** The bucket of a key, and the buckets around it. *)
Lemma bucket_split s map a n arr bs key :
  hmap_rep s map a n arr bs →
  ∃ arr1 p arr2 bs1 b bs2,
    arr = arr1 ++ p :: arr2 ∧ bs = bs1 ++ b :: bs2 ∧
    length arr1 = Z.to_nat (bucket_for n key) ∧ length bs1 = Z.to_nat (bucket_for n key) ∧
    hchain (entries s) p b ∧
    Forall2 (hchain (entries s)) arr1 bs1 ∧ Forall2 (hchain (entries s)) arr2 bs2.
Proof.
  intros [_ _ [Hn Hlen] Hch _ _ _].
  pose proof (bucket_for_range n key Hn) as Hr. set (i := Z.to_nat (bucket_for n key)).
  destruct (lookup_lt_is_Some_2 bs i) as [b Hb]; [lia|].
  rewrite <- (take_drop_middle bs i b Hb) in Hch |- *.
  apply Forall2_app_inv_r in Hch as (arr1 & arr2 & H1 & H2 & ->).
  apply Forall2_cons_inv_r in H2 as (p & arr2' & Hp & H2 & ->).
  eexists arr1, p, arr2', _, b, _. split; [done|]. split; [done|].
  assert (length (take i bs) = i) by (rewrite length_take; lia).
  apply Forall2_length in H1 as Hl1. split; [lia|]. done.
Qed.

Lemma bucket_of_middle bs1 b bs2 n key :
  length bs1 = Z.to_nat (bucket_for n key) → bucket_of (bs1 ++ b :: bs2) n key = b.*2.
Proof. intros Hl. unfold bucket_of. by rewrite list_lookup_middle by done. Qed.

Lemma bucket_of_other bs1 b b' bs2 n key key' :
  length bs1 = Z.to_nat (bucket_for n key) → 0 < n → bucket_for n key' ≠ bucket_for n key →
  bucket_of (bs1 ++ b :: bs2) n key' = bucket_of (bs1 ++ b' :: bs2) n key'.
Proof.
  intros Hl Hn Hne. unfold bucket_of. f_equal. f_equal.
  pose proof (bucket_for_range n key Hn). pose proof (bucket_for_range n key' Hn).
  set (i := Z.to_nat (bucket_for n key')) in *.
  assert (i ≠ length bs1) by lia.
  destruct (decide (i < length bs1)%nat).
  - by rewrite !lookup_app_l by lia.
  - rewrite !lookup_app_r by lia. by destruct (i - length bs1)%nat as [|j] eqn:Hj; [lia|].
Qed.

(** Chains of other buckets do not see an update of entries they do not hold. *)
Lemma chains_ext (E E' : gmap ptr HashMapEntry) arr bs :
  (∀ p, p ∈ addrs bs → E' !! p = E !! p) →
  Forall2 (hchain E) arr bs → Forall2 (hchain E') arr bs.
Proof.
  intros Hag Hch. induction Hch as [|p b arr bs Hp Hch IH]; constructor.
  - eapply hchain_ext; [|done]. intros q Hq. apply Hag. rewrite addrs_cons, elem_of_app. by left.
  - apply IH. intros q Hq. apply Hag. rewrite addrs_cons, elem_of_app. by right.
Qed.

Lemma chain_fuel s map a n arr bs b :
  hmap_rep s map a n arr bs → b ∈ bs → (length b < S (size (entries s)))%nat.
Proof.
  intros [_ _ _ _ Hnd Hdom _] (bs1 & bs2 & ->)%list_elem_of_split.
  rewrite addrs_app, addrs_cons in *. apply NoDup_app in Hnd as (_ & _ & Hnd).
  apply NoDup_app in Hnd as (Hb & _ & _).
  assert (Hsub : list_to_set (C := gset ptr) b.*1 ⊆ dom (entries s)).
  { intros p Hp%elem_of_list_to_set. rewrite Hdom, !elem_of_app. tauto. }
  apply subseteq_size in Hsub.
  rewrite size_list_to_set, length_fmap, size_dom in Hsub by done. lia.
Qed.

Lemma read_bucket_run s a arr i p :
  arrays s = {[a := arr]} → arr !! Z.to_nat i = Some p → read_bucket a i s = Some (p, s).
Proof.
  intros Ha Hp. unfold read_bucket.
  cstep_by (load_run arrays a arr s ltac:(rewrite Ha; apply lookup_singleton_eq)).
  cunfold. by rewrite Hp.
Qed.

Lemma write_bucket_run s a arr i q :
  arrays s = {[a := arr]} → is_Some (arr !! Z.to_nat i) →
  write_bucket a i q s = Some ((), set_arrays {[a := <[Z.to_nat i := q]> arr]} s).
Proof.
  intros Ha [p Hp]. unfold write_bucket.
  cstep_by (load_run arrays a arr s ltac:(rewrite Ha; apply lookup_singleton_eq)).
  cunfold. rewrite Hp, Ha. by rewrite insert_singleton_eq.
Qed.

Lemma find_run s map m key :
  chash s map m → hash_map_find map key s = Some (m !! key, s).
Proof.
  intros (a & n & arr & bs & Hrep & Hm).
  destruct (bucket_split s map a n arr bs key Hrep)
    as (arr1 & p & arr2 & bs1 & b & bs2 & Harr & Hbs & Hl1 & Hl2 & Hp & _).
  unfold hash_map_find.
  cstep_by (load_run maps map (Map a n) s ltac:(rewrite (hm_map _ _ _ _ _ _ Hrep); apply lookup_singleton_eq)).
  csimpl. erewrite C_bind_Some.
  2: { apply (read_bucket_run s a arr); [apply Hrep|]. rewrite Harr. by apply list_lookup_middle. }
  cstep. rewrite (find_from_run _ key p b s Hp); [|eapply chain_fuel; [done|set_solver]].
  do 2 f_equal. rewrite <- (Hm key), Hbs. by rewrite bucket_of_middle.
Qed.

(** *** Replacing the bucket of a key *)
Lemma rep_middle s s' map a n arr1 p p' arr2 bs1 b b' bs2 :
  hmap_rep s map a n (arr1 ++ p :: arr2) (bs1 ++ b :: bs2) →
  Forall2 (hchain (entries s)) arr1 bs1 → Forall2 (hchain (entries s)) arr2 bs2 →
  maps s' = maps s → arrays s' = {[a := arr1 ++ p' :: arr2]} →
  hchain (entries s') p' b' →
  (∀ q, q ∈ addrs bs1 ∨ q ∈ addrs bs2 → entries s' !! q = entries s !! q) →
  NoDup b'.*1 → (∀ q, q ∈ b'.*1 → q ∉ addrs bs1 ∧ q ∉ addrs bs2) →
  (∀ q, q ∈ dom (entries s') ↔ q ∈ b'.*1 ∨ q ∈ addrs bs1 ∨ q ∈ addrs bs2) →
  NoDup b'.*2.*1 →
  hmap_rep s' map a n (arr1 ++ p' :: arr2) (bs1 ++ b' :: bs2).
Proof.
  intros [Hmap Harr [Hn Hlen] Hch Hnd Hdom Hkeys] H1 H2 Hmaps Harr' Hp' Hag Hnd' Hdis Hdom' Hkeys'.
  rewrite addrs_app, addrs_cons in Hnd.
  apply NoDup_app in Hnd as (Hnd1 & Hd1 & Hnd). apply NoDup_app in Hnd as (Hndb & Hdb & Hnd2).
  split.
  - congruence.
  - done.
  - rewrite length_app in *. csimpl in *. done.
  - apply Forall2_app; [|constructor; [done|]].
    + eapply chains_ext; [|done]. auto.
    + eapply chains_ext; [|done]. auto.
  - rewrite addrs_app, addrs_cons. apply NoDup_app. split; [done|]. split.
    + intros q Hq [Hb|Hb]%elem_of_app; [by apply Hdis in Hb as [? _]|].
      apply (Hd1 q Hq). apply elem_of_app. by right.
    + apply NoDup_app. split; [done|]. split; [|done]. intros q Hq. by apply Hdis.
  - intros q. rewrite addrs_app, addrs_cons, !elem_of_app, Hdom'. tauto.
  - apply Forall_app in Hkeys as [? Hk]. apply Forall_cons in Hk as [_ ?].
    apply Forall_app. split; [done|]. by constructor.
Qed.

Lemma get_middle m bs1 b b' bs2 n key o :
  length bs1 = Z.to_nat (bucket_for n key) → 0 < n →
  (∀ k, assoc k (bucket_of (bs1 ++ b :: bs2) n k) = m !! k) →
  (∀ k, assoc k b'.*2 = if decide (k = key) then o else assoc k b.*2) →
  ∀ k, assoc k (bucket_of (bs1 ++ b' :: bs2) n k) = partial_alter (λ _, o) key m !! k.
Proof.
  intros Hl Hn Hm Hb' k. destruct (decide (bucket_for n k = bucket_for n key)) as [Heq|Hne].
  - rewrite bucket_of_middle by by rewrite Heq. rewrite Hb'.
    destruct (decide (k = key)) as [->|Hk]; [by rewrite lookup_partial_alter_eq|].
    rewrite lookup_partial_alter_ne by done. rewrite <- Hm.
    by rewrite bucket_of_middle by by rewrite Heq.
  - rewrite lookup_partial_alter_ne by by intros ->.
    rewrite <- Hm. f_equal. by apply (bucket_of_other _ _ _ _ n key).
Qed.

(** *** Insertion *)
Lemma insert_fresh s s' map a n arr1 p arr2 bs1 b bs2 key value x :
  hmap_rep s map a n (arr1 ++ p :: arr2) (bs1 ++ b :: bs2) →
  hchain (entries s) p b →
  Forall2 (hchain (entries s)) arr1 bs1 → Forall2 (hchain (entries s)) arr2 bs2 →
  x ≠ NULL → x ∉ dom (entries s) → key ∉ b.*2.*1 →
  maps s' = maps s → arrays s' = {[a := arr1 ++ x :: arr2]} →
  entries s' = <[x := Entry key value p]> (entries s) →
  hmap_rep s' map a n (arr1 ++ x :: arr2) (bs1 ++ ((x, (key, value)) :: b) :: bs2).
Proof.
  intros Hrep Hp H1 H2 Hx0 Hx Hkey Hmaps Harr Hent.
  pose proof Hrep as [_ _ _ _ Hnd Hdom Hkeys]. rewrite Hdom in Hx.
  rewrite addrs_app, addrs_cons in Hnd, Hdom, Hx. rewrite !elem_of_app in Hx.
  apply NoDup_app in Hnd as (Hnd1 & Hd1 & Hnd). apply NoDup_app in Hnd as (Hndb & Hdb & Hnd2).
  assert (Hag : ∀ q, q ≠ x → entries s' !! q = entries s !! q).
  { intros q Hq. by rewrite Hent, lookup_insert_ne. }
  apply (rep_middle s s' map a n arr1 p x arr2 bs1 b); try done.
  - csimpl. split; [done|]. split; [done|]. exists p.
    rewrite Hent at 1. rewrite lookup_insert_eq. split; [done|].
    eapply hchain_ext; [|done]. intros q Hq. apply Hag. intros ->. naive_solver.
  - intros q Hq. apply Hag. intros ->. naive_solver.
  - csimpl. apply NoDup_cons. naive_solver.
  - csimpl. intros q [->|Hq]%elem_of_cons; [naive_solver|]. split.
    + intros Hq1. apply (Hd1 q Hq1). apply elem_of_app. by left.
    + by apply Hdb.
  - intros q. rewrite Hent, dom_insert_L. csimpl.
    rewrite elem_of_union, elem_of_singleton, elem_of_cons, Hdom, !elem_of_app. tauto.
  - csimpl. apply Forall_app in Hkeys as [_ Hk]. apply Forall_cons in Hk as [Hk _].
    by apply NoDup_cons.
Qed.

Lemma insert_run s map m key value :
  chash s map m → store_wf s →
  ∃ r s' pl, hash_map_insert map key value s = Some (r, s') ∧ (plenty s → Forall Is_true pl) ∧
    (r = HASH_MAP_DUPLICATE ∧ is_Some (m !! key) ∧ s' = s ∨
     r = HASH_MAP_NO_MEMORY ∧ ¬ plenty s ∧ s' = set_alloc (brk s) pl s ∨
     r = HASH_MAP_INSERTED ∧ m !! key = None ∧ chash s' map (<[key := value]> m) ∧
     store_wf s' ∧ ∃ E ar, s' = set_entries E (set_arrays ar (set_alloc (S (brk s)) pl s))).
Proof.
  intros Hc Hwf. unfold hash_map_insert. cstep_by (find_run s map m key Hc).
  destruct (m !! key) as [v|] eqn:Hk.
  { eexists _, _, []. split; [done|]. split; [by constructor|]. left. split; [done|].
    by split; [eexists|]. }
  destruct (malloc_run s) as (pl & Hpl & [[Hm Hnot]|Hm]); cstep_by Hm.
  { rewrite decide_True by done. eexists _, _, pl. split; [done|]. split; [done|].
    right; left. done. }
  set (x := brk s) in *. set (s1 := set_alloc (S x) pl s).
  assert (Hx0 : x ≠ NULL) by (pose proof (wf_brk s Hwf); unfold NULL, x; lia).
  rewrite decide_False by done.
  destruct Hc as (a & n & arr & bs & Hrep & Hget).
  destruct (bucket_split s map a n arr bs key Hrep)
    as (arr1 & p & arr2 & bs1 & b & bs2 & -> & -> & Hl1 & Hl2 & Hp & H1 & H2).
  assert (Hmaps : maps s1 !! map = Some (Map a n)).
  { csimpl. rewrite (hm_map _ _ _ _ _ _ Hrep). apply lookup_singleton_eq. }
  assert (Harr1 : arrays s1 = {[a := arr1 ++ p :: arr2]}) by apply Hrep.
  cstep_by (load_run maps map (Map a n) s1 Hmaps). csimpl.
  erewrite C_bind_Some.
  2: { apply (read_bucket_run s1 a _ _ p Harr1). by apply list_lookup_middle. }
  cstep. erewrite C_bind_Some.
  2: { apply (write_bucket_run _ a (arr1 ++ p :: arr2)); [exact Harr1|].
       rewrite list_lookup_middle by done. by eexists. }
  rewrite (insert_app_r_alt arr1) by lia. rewrite Hl1, Nat.sub_diag. csimpl.
  eexists _, _, pl. split; [done|]. split; [done|].
  right; right. split; [done|]. split; [done|].
  assert (Hxd : x ∉ dom (entries s)).
  { intros Hx%(wf_entries s Hwf). unfold x in Hx. lia. }
  assert (Hkb : key ∉ b.*2.*1).
  { apply assoc_None. rewrite <- Hk, <- Hget. by rewrite bucket_of_middle. }
  split; [|split; [|by eexists _, _]].
  - exists a, n, (arr1 ++ x :: arr2), (bs1 ++ ((x, (key, value)) :: b) :: bs2). split.
    + apply (insert_fresh s _ map a n arr1 p arr2 bs1 b bs2 key value x); done.
    + apply (get_middle m bs1 b _ bs2 n key (Some value)); [done|apply Hrep|done|].
      intros k. csimpl. destruct (decide (key = k)) as [->|]; [by rewrite decide_True|].
      by rewrite (decide_False (P := k = key)) by congruence.
  - pose proof Hwf as [W1 W2 W3 W4 W5 W6 W7]. split; csimpl; try lia;
      intros q Hq; try (first [apply W2 in Hq|apply W5 in Hq|apply W6 in Hq|apply W7 in Hq]; lia).
    + rewrite dom_insert_L in Hq. apply elem_of_union in Hq as [->%elem_of_singleton|Hq].
      * unfold x. lia.
      * apply W3 in Hq. lia.
    + assert (q ∈ dom (arrays s)) as Hqa.
      { rewrite (hm_array _ _ _ _ _ _ Hrep). rewrite !dom_singleton_L in *. done. }
      apply W4 in Hqa. lia.
Qed.

(** *** Removal *)

(** Where the search of [hash_map_remove] stops: at the link to the entry that
    holds the key. *)
Definition link_before (lk : link) (c : list (ptr * (Z * ptr))) : link :=
  match last c with None => lk | Some e => NextOf e.1 end.

Lemma link_before_cons lk e c : link_before lk (e :: c) = link_before (NextOf e.1) c.
Proof. unfold link_before. rewrite last_cons. by destruct (last c). Qed.

Lemma seek_run fuel key lk p c s :
  read_link lk s = Some (p, s) → hchain (entries s) p c → (length c < fuel)%nat →
  (assoc key c.*2 = None ∧
   ∃ lk', seek fuel key lk s = Some (lk', s) ∧ read_link lk' s = Some (NULL, s)) ∨
  ∃ c1 x v c2, c = c1 ++ (x, (key, v)) :: c2 ∧ assoc key c.*2 = Some v ∧
    seek fuel key lk s = Some (link_before lk c1, s) ∧
    read_link (link_before lk c1) s = Some (x, s).
Proof.
  revert fuel lk p. induction c as [|[a [k v]] c IH]; intros [|fuel] lk p Hlk Hc Hf;
    csimpl in *; try lia; cstep_by Hlk.
  - subst p. rewrite decide_True by done. left. split; [done|]. exists lk. split; done.
  - destruct Hc as (-> & Ha & nx & Hnx & Hc). rewrite (decide_False (P := a = NULL)) by done.
    cstep_by (load_run entries a _ s Hnx). csimpl.
    destruct (Z.eqb_spec k key) as [->|Hne].
    + right. exists [], a, v, c. rewrite decide_True by done. split_and!; done.
    + rewrite decide_False by done.
      destruct (IH fuel (NextOf a) nx) as [(Hno & Hs)|(c1 & x & w & c2 & -> & Hsome & Hs & Hr)].
      * cbn. by cstep_by (load_run entries a _ s Hnx).
      * done.
      * lia.
      * by left.
      * right. exists ((a, (k, v)) :: c1), x, w, c2. by rewrite link_before_cons.
Qed.

(** The association list of a bucket without the removed entry. *)
Lemma assoc_removed (c1 c2 : list (ptr * (Z * ptr))) x key v k :
  NoDup (c1 ++ (x, (key, v)) :: c2).*2.*1 →
  assoc k (c1 ++ c2).*2 =
    if decide (k = key) then None else assoc k (c1 ++ (x, (key, v)) :: c2).*2.
Proof. rewrite !(fmap_app snd), (fmap_cons snd). apply (assoc_without key v). Qed.

Lemma NoDup_without {A} (l1 l2 : list A) (e : A) : NoDup (l1 ++ e :: l2) → NoDup (l1 ++ l2).
Proof. rewrite <- Permutation_middle. by intros [_ ?]%NoDup_cons. Qed.

(** Unlinking an entry of a bucket and freeing it leaves a table: the heap [E] and the new
    beginning [p'] of the chain differ from the old ones on that bucket alone. *)
Lemma remove_rep s map a n arr1 p p' arr2 bs1 c1 x key v c2 bs2 E :
  hmap_rep s map a n (arr1 ++ p :: arr2) (bs1 ++ (c1 ++ (x, (key, v)) :: c2) :: bs2) →
  Forall2 (hchain (entries s)) arr1 bs1 → Forall2 (hchain (entries s)) arr2 bs2 →
  (∀ q, q ∉ (c1 ++ (x, (key, v)) :: c2).*1 → E !! q = entries s !! q) → dom E = dom (entries s) →
  hchain (delete x E) p' (c1 ++ c2) →
  hmap_rep (set_entries (delete x E) (set_entries E (set_arrays {[a := arr1 ++ p' :: arr2]} s))) map a n
    (arr1 ++ p' :: arr2) (bs1 ++ (c1 ++ c2) :: bs2).
Proof.
  intros Hrep H1 H2 HE HdE Hch. pose proof Hrep as [Hmap Harr _ _ Hnd Hdom Hkeys].
  rewrite addrs_app, addrs_cons in Hnd, Hdom.
  apply NoDup_app in Hnd as (Hnd1 & Hd1 & Hnd). apply NoDup_app in Hnd as (Hndb & Hdb & Hnd2).
  assert (Hkb : NoDup (c1 ++ (x, (key, v)) :: c2).*2.*1).
  { apply Forall_app in Hkeys as [_ Hk]. by apply Forall_cons in Hk as [? _]. }
  assert (Hsub : ∀ q, q ∈ (c1 ++ (x, (key, v)) :: c2).*1 ↔ q = x ∨ q ∈ (c1 ++ c2).*1).
  { intros q. rewrite !fmap_app, fmap_cons, !elem_of_app, elem_of_cons. csimpl. tauto. }
  assert (Hndb' : NoDup (c1 ++ c2).*1).
  { rewrite fmap_app, fmap_cons in Hndb. rewrite fmap_app. by eapply NoDup_without. }
  assert (Hkb' : NoDup (c1 ++ c2).*2.*1).
  { rewrite !fmap_app, !fmap_cons in Hkb. rewrite !fmap_app. by eapply NoDup_without. }
  assert (Hxn : x ∉ (c1 ++ c2).*1).
  { rewrite fmap_app, fmap_cons, <- Permutation_middle in Hndb.
    apply NoDup_cons in Hndb as [Hxx _]. by rewrite fmap_app. }
  assert (Hdis : ∀ q, q ∈ (c1 ++ (x, (key, v)) :: c2).*1 → q ∉ addrs bs1 ∧ q ∉ addrs bs2).
  { intros q Hq. split; [|by apply Hdb]. intros Hq1. apply (Hd1 q Hq1). apply elem_of_app. by left. }
  apply (rep_middle s _ map a n arr1 p p' arr2 bs1 (c1 ++ (x, (key, v)) :: c2)); try done; csimpl.
  - intros q Hq. assert (Hqb : q ∉ (c1 ++ (x, (key, v)) :: c2).*1) by (intros Hqb%Hdis; naive_solver).
    assert (Hqx : q ≠ x) by (intros ->; by apply Hqb, Hsub; left).
    rewrite lookup_delete_ne by done. by apply HE.
  - intros q Hq. apply Hdis, Hsub. by right.
  - intros q. rewrite dom_delete_L, HdE, elem_of_difference, elem_of_singleton, Hdom.
    rewrite !elem_of_app, Hsub. assert (Hx := Hdis x ltac:(apply Hsub; by left)). naive_solver.
Qed.

Lemma hchain_middle E p c1 y ky vy c2 :
  hchain E p (c1 ++ (y, (ky, vy)) :: c2) → ∃ q, E !! y = Some (Entry ky vy q).
Proof.
  revert p. induction c1 as [|[q [k w]] c1 IH]; intros p; csimpl.
  - intros (_ & _ & n1 & Hn1 & _). by eexists.
  - intros (_ & _ & n1 & _ & Hc). by eapply IH.
Qed.

(** The state after the entry [x] has been unlinked from its bucket and freed. *)
Lemma remove_write s map a n arr1 p arr2 bs1 c1 x key v c2 bs2 nx :
  hmap_rep s map a n (arr1 ++ p :: arr2) (bs1 ++ (c1 ++ (x, (key, v)) :: c2) :: bs2) →
  hchain (entries s) p (c1 ++ (x, (key, v)) :: c2) →
  Forall2 (hchain (entries s)) arr1 bs1 → Forall2 (hchain (entries s)) arr2 bs2 →
  length arr1 = Z.to_nat (bucket_for n key) →
  entries s !! x = Some (Entry key v nx) →
  ∃ s1 E ar p', write_link (link_before (BucketAt a (bucket_for n key)) c1) nx s = Some ((), s1) ∧
    s1 = set_entries E (set_arrays ar s) ∧ E !! x = Some (Entry key v nx) ∧
    dom ar = dom (arrays s) ∧
    hmap_rep (set_entries (delete x E) s1) map a n (arr1 ++ p' :: arr2)
      (bs1 ++ (c1 ++ c2) :: bs2).
Proof.
  intros Hrep Hp H1 H2 Hl1 Hex.
  pose proof Hrep as [Hmap Harr _ _ Hnd _ _].
  rewrite addrs_app, addrs_cons in Hnd. apply NoDup_app in Hnd as (_ & _ & Hnd). apply NoDup_app in Hnd as (Hndb & _ & _).
  assert (Hfinish := λ E p', remove_rep s map a n arr1 p p' arr2 bs1 c1 x key v c2 bs2 E Hrep H1 H2).
  assert (Hxn : x ∉ (c1 ++ c2).*1).
  { rewrite fmap_app, fmap_cons, <- Permutation_middle in Hndb.
    apply NoDup_cons in Hndb as [Hxx _]. by rewrite fmap_app. }
  destruct c1 as [|e c1 _] using rev_ind.
  - unfold link_before, write_link. csimpl in *.
    rewrite (write_bucket_run s a (arr1 ++ p :: arr2)); [|done|rewrite list_lookup_middle by done; by eexists].
    rewrite insert_app_r_alt, Hl1, Nat.sub_diag by lia. csimpl.
    exists (set_arrays {[a := arr1 ++ nx :: arr2]} s), (entries s), {[a := arr1 ++ nx :: arr2]}, nx.
    split; [done|]. split; [done|]. split; [done|].
    split; [by rewrite Harr, !dom_singleton_L|].
    apply (Hfinish (entries s) nx ltac:(done) eq_refl). csimpl in *. destruct Hp as (-> & _ & n2 & Hn2 & Hc2).
    assert (n2 = nx) as -> by congruence. eapply hchain_ext; [|done].
    intros q Hq. rewrite lookup_delete_ne; [done|]. by intros <-.
  - destruct e as [y [ky vy]]. rewrite <- !app_assoc in Hp, Hndb. csimpl in Hp. csimpl in Hndb.
    unfold link_before, write_link. rewrite last_snoc.
    destruct (hchain_middle _ _ _ _ _ _ _ Hp) as [n1 Hy]. cstep_by (load_run entries y _ s Hy). csimpl.
    assert (Hyx : y ≠ x).
    { intros ->. apply Hxn. rewrite !fmap_app. csimpl. set_solver. }
    eexists _, (<[y := Entry ky vy nx]> (entries s)), (arrays s), p.
    split; [done|]. split; [by rewrite set_arrays_id|]. split; [by rewrite lookup_insert_ne|].
    split; [done|].
    assert (Hs : s = set_arrays {[a := arr1 ++ p :: arr2]} s) by (rewrite <- Harr; by rewrite set_arrays_id).
    rewrite Hs at 3. apply Hfinish; [|apply dom_insert_lookup_L; by eexists|].
    + intros q Hq. rewrite lookup_insert_ne; [done|]. intros <-. apply Hq.
      rewrite !fmap_app. csimpl. set_solver.
    + rewrite <- app_assoc. csimpl. by eapply hchain_unlink.
Qed.

Lemma remove_run s map m key :
  chash s map m → store_wf s →
  (m !! key = None ∧ hash_map_remove map key s = Some (false, s)) ∨
  ∃ s' E ar, is_Some (m !! key) ∧ hash_map_remove map key s = Some (true, s') ∧
    chash s' map (delete key m) ∧ store_wf s' ∧ s' = set_entries E (set_arrays ar s).
Proof.
  intros (a & n & arr & bs & Hrep & Hget) Hwf.
  destruct (bucket_split s map a n arr bs key Hrep)
    as (arr1 & p & arr2 & bs1 & b & bs2 & -> & -> & Hl1 & Hl2 & Hp & H1 & H2).
  assert (Hb : assoc key b.*2 = m !! key) by (rewrite <- Hget; by rewrite bucket_of_middle).
  assert (Hfuel : (length b < S (size (entries s)))%nat)
    by (eapply chain_fuel; [done|apply elem_of_app; right; left]).
  assert (Hlk : read_link (BucketAt a (bucket_for n key)) s = Some (p, s)).
  { apply (read_bucket_run s a _ _ p (hm_array _ _ _ _ _ _ Hrep)). by apply list_lookup_middle. }
  unfold hash_map_remove.
  cstep_by (load_run maps map (Map a n) s ltac:(rewrite (hm_map _ _ _ _ _ _ Hrep); apply lookup_singleton_eq)).
  cstep. cbn [buckets bucket_count].
  destruct (seek_run _ key _ p b s Hlk Hp Hfuel)
    as [(Hno & lk' & Hseek & Hr)|(c1 & x & v & c2 & -> & Hsome & Hseek & Hr)];
    cstep_by Hseek; cstep_by Hr.
  { left. rewrite decide_True by done. by rewrite <- Hb. }
  right.
  assert (Hx : ∃ nx, entries s !! x = Some (Entry key v nx) ∧ x ≠ NULL).
  { clear -Hp. revert p Hp. induction c1 as [|[q [k w]] c1 IH]; intros p; csimpl.
    - intros (-> & Hx & nx & Hnx & _). by exists nx.
    - intros (_ & _ & n1 & _ & Hc). by eapply IH. }
  destruct Hx as (nx & Hex & Hx0). rewrite decide_False by done.
  cstep_by (load_run entries x _ s Hex). cbn [e_next].
  destruct (remove_write s map a n arr1 p arr2 bs1 c1 x key v c2 bs2 nx Hrep Hp H1 H2 Hl1 Hex)
    as (s1 & E & ar & p' & Hw & -> & HE & Hda & Hrep').
  cstep_by Hw.
  rewrite (C_bind_Some _ _ _ _ _ (free_run entries set_entries x _
    (set_entries E (set_arrays ar s)) HE Hx0)).
  eexists _, (delete x E), ar. split; [by rewrite <- Hb|]. split; [done|].
  assert (HdE : ∀ q, q ∈ dom (delete x E) → (0 < q < brk s)%nat).
  { intros q Hq. apply (hm_dom _ _ _ _ _ _ Hrep') in Hq. apply (wf_entries s Hwf).
    apply (hm_dom _ _ _ _ _ _ Hrep). rewrite !addrs_app, !addrs_cons in *.
    rewrite !fmap_app, !fmap_cons, !elem_of_app in *. csimpl. rewrite elem_of_cons. tauto. }
  split; [|split; [|done]].
  - eexists a, n, (arr1 ++ p' :: arr2), (bs1 ++ (c1 ++ c2) :: bs2). split; [exact Hrep'|].
    apply (get_middle m bs1 (c1 ++ (x, (key, v)) :: c2) _ bs2 n key None);
      [done|apply Hrep|done|]. intros k. apply assoc_removed.
    pose proof (hm_keys _ _ _ _ _ _ Hrep) as Hkeys. apply Forall_app in Hkeys as [_ Hk].
    by apply Forall_cons in Hk as [? _].
  - pose proof Hwf as [W1 W2 W3 W4 W5 W6 W7]. split; csimpl; auto.
    intros q Hq. apply W4. by rewrite <- Hda.
Qed.

(** *** Creation *)
Lemma hchain_replicate (E : gmap ptr HashMapEntry) k :
  Forall2 (hchain E) (replicate k NULL) (replicate k []).
Proof. induction k; constructor; done. Qed.

Lemma addrs_replicate k : addrs (replicate k []) = [].
Proof. induction k as [|k IH]; [done|]. csimpl. by rewrite addrs_cons, IH. Qed.

Lemma create_run s n :
  store_wf s → entries s = ∅ → arrays s = ∅ → maps s = ∅ →
  0 < n <= SIZE_MAX `div` SIZEOF_PTR →
  ∃ map s' pl br, hash_map_create n s = Some (map, s') ∧ (plenty s → Forall Is_true pl) ∧
    (brk s ≤ br)%nat ∧
    (map = NULL ∧ ¬ plenty s ∧ s' = set_alloc br pl s ∨
     map ≠ NULL ∧ chash s' map ∅ ∧ store_wf s' ∧
     ∃ mp ar, s' = set_maps mp (set_arrays ar (set_alloc br pl s))).
Proof.
  intros Hwf HE HA HM [Hn1 Hn2]. unfold hash_map_create.
  rewrite (proj2 (Z.eqb_neq n 0)) by lia. rewrite (proj2 (Z.ltb_ge _ n)) by lia.
  cbn [orb]. pose proof (wf_brk s Hwf) as Hb.
  destruct (malloc_run s) as (pl & Hpl & [[Hm Hnot]|Hm]); cstep_by Hm.
  { rewrite decide_True by done. eexists _, _, pl, (brk s). split; [done|]. split; [done|].
    split; [lia|]. by left. }
  rewrite decide_False by (unfold NULL; lia).
  set (map := brk s). set (s1 := set_alloc (S map) pl s).
  destruct (malloc_run s1) as (pl2 & Hpl2 & [[Hm2 Hnot2]|Hm2]); cstep_by Hm2; cstep.
  - rewrite decide_True by done.
    erewrite C_bind_Some
      by (apply (free_run maps set_maps map (Map NULL 0));
          [csimpl; apply lookup_insert_eq|unfold NULL, map; lia]).
    eexists _, _, pl2, (S map). split; [done|]. split; [intros H; by apply Hpl2, Hpl|].
    split; [lia|]. left. split; [done|]. split; [intros H; by apply Hnot2, Hpl|].
    csimpl. rewrite HM. rewrite delete_insert_id by apply lookup_empty.
    destruct s; csimpl in *. by rewrite HM.
  - rewrite decide_False by (unfold NULL; csimpl; lia). cstep. cstep. csimpl.
    eexists map, _, pl2, (S (S map)). split; [done|]. split; [intros H; by apply Hpl2, Hpl|].
    split; [lia|]. right. split; [unfold NULL, map; lia|]. split; [|split; [|by eexists _, _]].
    + exists (S map), n, (replicate (Z.to_nat n) NULL), (replicate (Z.to_nat n) []).
      split; [split; csimpl|].
      * rewrite HM. by rewrite insert_insert_eq.
      * by rewrite HA.
      * rewrite length_replicate. lia.
      * apply hchain_replicate.
      * rewrite addrs_replicate. constructor.
      * intros q. rewrite addrs_replicate, HE. set_solver.
      * apply Forall_replicate. constructor.
      * intros k. unfold bucket_of.
        rewrite lookup_replicate_2; [done|].
        pose proof (bucket_for_range n k Hn1). lia.
    + pose proof Hwf as [W1 W2 W3 W4 W5 W6 W7].
      split; csimpl; unfold map in *; try lia; intros q Hq;
        try (first [apply W2 in Hq|apply W3 in Hq|apply W6 in Hq|apply W7 in Hq]; lia).
      * rewrite HA, dom_insert_L in Hq. set_unfold. lia.
      * rewrite HM, !dom_insert_L in Hq. set_unfold. lia.
Qed.

(** *** Destruction *)
Lemma hchain_dom (E : gmap ptr HashMapEntry) p b q : hchain E p b → q ∈ b.*1 → q ∈ dom E.
Proof.
  revert p. induction b as [|[x [k v]] b IH]; intros p; csimpl.
  - by intros _ ?%elem_of_nil.
  - intros (_ & _ & nx & Hnx & Hb) [->|Hq]%elem_of_cons; [|by eapply IH].
    apply elem_of_dom. by eexists.
Qed.

Lemma hchain_fuel (E : gmap ptr HashMapEntry) p b :
  hchain E p b → NoDup b.*1 → (length b < S (size E))%nat.
Proof.
  intros Hb Hnd. assert (Hsub : list_to_set (C := gset ptr) b.*1 ⊆ dom E).
  { intros q Hq%elem_of_list_to_set. by eapply hchain_dom. }
  apply subseteq_size in Hsub.
  rewrite size_list_to_set, length_fmap, size_dom in Hsub by done. lia.
Qed.

Lemma free_chain_run fuel p b s :
  hchain (entries s) p b → NoDup b.*1 → (length b < fuel)%nat →
  ∃ E, free_chain fuel p s = Some ((), set_entries E s) ∧
    (∀ q, q ∉ b.*1 → E !! q = entries s !! q) ∧ ∀ q, q ∈ b.*1 → E !! q = None.
Proof.
  revert fuel p s. induction b as [|[x [k v]] b IH]; intros [|fuel] p s Hb Hnd Hf;
    csimpl in *; try lia.
  - subst p. rewrite decide_True by done. exists (entries s). rewrite set_entries_id.
    split; [done|]. split; [done|]. by intros q ?%elem_of_nil.
  - destruct Hb as (-> & Hx & nx & Hnx & Hb). apply NoDup_cons in Hnd as [Hxb Hnd].
    rewrite decide_False by done. cstep_by (load_run entries x _ s Hnx).
    cstep_by (free_run entries set_entries x _ s Hnx Hx). cbn [e_next].
    destruct (IH fuel nx (set_entries (delete x (entries s)) s)) as (E & Hrun & Hout & Hin).
    + csimpl. eapply hchain_ext; [|done]. intros q Hq. rewrite lookup_delete_ne; [done|].
      by intros <-.
    + done.
    + lia.
    + exists E. split; [done|]. csimpl in Hout. split.
      * intros q [Hqx Hq]%not_elem_of_cons. rewrite Hout by done. by rewrite lookup_delete_ne.
      * intros q [->|Hq]%elem_of_cons; [|by apply Hin].
        rewrite Hout by done. apply lookup_delete_eq.
Qed.

Lemma free_buckets_run arr1 arr2 bs a s :
  arrays s = {[a := arr1 ++ arr2]} → Forall2 (hchain (entries s)) arr2 bs →
  NoDup (addrs bs) → (∀ q, q ∈ dom (entries s) → q ∈ addrs bs) →
  free_buckets (length arr2) (Z.of_nat (length arr1)) a s = Some ((), set_entries ∅ s).
Proof.
  revert arr1 bs s. induction arr2 as [|p arr2 IH]; intros arr1 bs s Ha Hch Hnd Hdom.
  - apply Forall2_nil_inv_l in Hch as ->. csimpl.
    assert (entries s = ∅) as He.
    { apply dom_empty_inv_L, set_eq. intros q. split; [|set_solver].
      intros Hq%Hdom. by apply elem_of_nil in Hq. }
    rewrite <- He, set_entries_id. done.
  - apply Forall2_cons_inv_l in Hch as (b & bs' & Hp & Hch & ->).
    rewrite addrs_cons in Hnd, Hdom. apply NoDup_app in Hnd as (Hndb & Hd & Hnd). csimpl.
    cstep_by (read_bucket_run s a _ (Z.of_nat (length arr1)) p Ha
      ltac:(rewrite Nat2Z.id; by apply list_lookup_middle)). cstep.
    destruct (free_chain_run _ p b s Hp Hndb (hchain_fuel _ p b Hp Hndb))
      as (E & Hrun & Hout & Hin).
    cstep_by Hrun.
    replace (Z.of_nat (length arr1) + 1) with (Z.of_nat (length (arr1 ++ [p])))
      by (rewrite length_app; csimpl; lia).
    rewrite (IH (arr1 ++ [p]) bs' (set_entries E s)); [done|..].
    + csimpl. by rewrite <- app_assoc.
    + eapply chains_ext; [|done]. intros q Hq. apply Hout. intros Hqb. by apply (Hd q).
    + done.
    + csimpl. intros q [e He]%elem_of_dom. destruct (decide (q ∈ b.*1)) as [Hqb|Hqb].
      * by rewrite Hin in He.
      * rewrite Hout in He by done. assert (Hq : q ∈ dom (entries s)) by (apply elem_of_dom; by eexists).
        apply Hdom in Hq. rewrite elem_of_app in Hq. naive_solver.
Qed.

(** Destroying the table frees all its entries, its bucket array and itself. *)
Lemma destroy_run s map m :
  chash s map m → store_wf s →
  hash_map_destroy map s = Some ((), set_maps ∅ (set_arrays ∅ (set_entries ∅ s))).
Proof.
  intros (a & n & arr & bs & Hrep & _) Hwf.
  pose proof Hrep as [Hmap Harr [Hn Hlen] Hch Hnd Hdom _].
  assert (Hm0 : map ≠ NULL).
  { assert (map ∈ dom (maps s)) as Hin by (rewrite Hmap, dom_singleton_L; set_solver).
    apply (wf_maps s Hwf) in Hin. unfold NULL. lia. }
  assert (Ha0 : a ≠ NULL).
  { assert (a ∈ dom (arrays s)) as Hin by (rewrite Harr, dom_singleton_L; set_solver).
    apply (wf_arrays s Hwf) in Hin. unfold NULL. lia. }
  unfold hash_map_destroy. rewrite decide_False by done.
  cstep_by (load_run maps map (Map a n) s ltac:(rewrite Hmap; apply lookup_singleton_eq)).
  cbn [buckets bucket_count].
  apply Forall2_length in Hch as Hl.
  replace (Z.to_nat n) with (length arr) by lia.
  rewrite (C_bind_Some _ _ _ _ _ (free_buckets_run [] arr bs a s Harr Hch Hnd
    ltac:(intros q; apply Hdom))).
  erewrite C_bind_Some
    by (apply (free_run arrays set_arrays a arr);
        [csimpl; rewrite Harr; apply lookup_singleton_eq|done]).
  rewrite (free_run maps set_maps map (Map a n))
    by (done || (csimpl; rewrite Hmap; apply lookup_singleton_eq)).
  csimpl. rewrite Harr, Hmap, !delete_singleton_eq. done.
Qed.
End facts.
