(* ===== verification/LruC.v ===== *)
(** * [src/01-basics/lru-in-c]: the cache over the list and the hash table

    [lru.c] and [main.c] of the program. [lc s cache cap sz xs]: the cache structure
    at [cache] has capacity [cap] and size field [sz], and holds the slots [xs], most
    recent first: a list node, the page structure it points to, its key and page. *)

From S2P Require Import Prelude LruSpec Input LruMain MixHash Links CStore CList HashMap.

Inductive LruResult :=
| LRU_HIT | LRU_MISS | LRU_NO_MEMORY | LRU_INVALID_ARGUMENT | LRU_INDEX_ERROR.

#[export] Instance LruResult_eq_dec : EqDecision LruResult.
Proof. solve_decision. Defined.

Definition set_cache (cache : ptr) (c : LruCache) : C store () :=
  modify (λ s, set_caches (<[cache := c]> (caches s)) s).

Definition evict_oldest (cache : ptr) : C store () :=
  c ← load caches cache;
  node ← list_back (recency c);
  entry ← list_value node;
  e ← load pages entry;
  hash_map_remove (index c) (c_key e);;
  list_remove (recency c) node;;
  free pages set_pages entry;;
  c ← load caches cache;
  set_cache cache (Cache (recency c) (index c) (capacity c) (u64 (size_ c - 1))).

(** The result code, and the value stored through [value] if one is. *)
Definition insert_page (cache : ptr) (key : Z) (slow_get_page : Z → Z)
    : C store (LruResult * option Z) :=
  entry ← malloc;
  if decide (entry = NULL) then mret (LRU_NO_MEMORY, None)
  else
    modify (λ s, set_pages (<[entry := Page key None]> (pages s)) s);;
    c ← load caches cache;
    node ← list_push_front (recency c) entry;
    if decide (node = NULL) then
      free pages set_pages entry;; mret (LRU_NO_MEMORY, None)
    else
      result ← hash_map_insert (index c) key node;
      match result with
      | HASH_MAP_INSERTED =>
        e ← load pages entry;
        modify (λ s, set_pages
          (<[entry := Page (c_key e) (Some (slow_get_page key))]> (pages s)) s);;
        c ← load caches cache;
        (if size_ c =? capacity c then evict_oldest cache else mret ());;
        c ← load caches cache;
        set_cache cache (Cache (recency c) (index c) (capacity c) (u64 (size_ c + 1)));;
        e ← load pages entry;
        mret (LRU_MISS, c_value e)
      | _ =>
        list_remove (recency c) node;;
        free pages set_pages entry;;
        mret (match result with HASH_MAP_NO_MEMORY => LRU_NO_MEMORY | _ => LRU_INDEX_ERROR end,
              None)
      end.

Definition lru_create (cap : Z) : C store ptr :=
  cache ← malloc;
  if decide (cache = NULL) then mret NULL
  else
    set_cache cache (Cache NULL NULL 0 0);;
    l ← list_create;
    set_cache cache (Cache l NULL 0 0);;
    m ← hash_map_create (if cap =? 0 then 1 else cap);
    set_cache cache (Cache l m 0 0);;
    if decide (l = NULL ∨ m = NULL) then
      list_destroy l;; hash_map_destroy m;; free caches set_caches cache;; mret NULL
    else
      set_cache cache (Cache l m cap 0);;
      mret cache.

(** [while (!list_empty(cache->recency)) evict_oldest(cache);] *)
Fixpoint evict_all (fuel : nat) (cache : ptr) : C store () :=
  match fuel with
  | O => undefined
  | S fuel =>
    c ← load caches cache;
    empty ← list_empty (recency c);
    if empty : bool then mret () else evict_oldest cache;; evict_all fuel cache
  end.

Definition lru_destroy (cache : ptr) : C store () :=
  if decide (cache = NULL) then mret ()
  else
    s ← get;
    evict_all (S (size (nodes s))) cache;;
    c ← load caches cache;
    list_destroy (recency c);;
    hash_map_destroy (index c);;
    free caches set_caches cache.

(** [slow_get_page] is null when it is [None]; [value] tells whether the output
    pointer is not null. *)
Definition lookup_update (cache : ptr) (key : Z) (slow_get_page : option (Z → Z))
    (value : bool) : C store (LruResult * option Z) :=
  match slow_get_page with
  | Some slow_get_page =>
    if decide (cache = NULL) then mret (LRU_INVALID_ARGUMENT, None)
    else if negb value then mret (LRU_INVALID_ARGUMENT, None)
    else
      c ← load caches cache;
      if capacity c =? 0 then mret (LRU_MISS, Some (slow_get_page key))
      else
        found ← hash_map_find (index c) key;
        match found with
        | Some node =>
          list_move_front (recency c) node;;
          entry ← list_value node;
          e ← load pages entry;
          mret (LRU_HIT, c_value e)
        | None => insert_page cache key slow_get_page
        end
  | None => mret (LRU_INVALID_ARGUMENT, None)
  end.

(** ** The cache at an address *)
Record slot := Slot { s_node : ptr; s_page : ptr; s_key : Z; s_value : option Z }.

Definition key_node (x : slot) : Z * ptr := (s_key x, s_node x).

Definition slot_ok (s : store) (x : slot) : Prop :=
  payload s (s_node x) = Some (s_page x) ∧ pages s !! s_page x = Some (Page (s_key x) (s_value x)).

Record lc (s : store) (cache : ptr) (cap sz : Z) (xs : list slot) : Prop := {
  lc_wf : store_wf s;
  lc_cap : is_u64 cap;
  lc_addr : cache ≠ NULL;
  lc_parts : ∃ l m, caches s = {[cache := Cache l m cap sz]} ∧
    clist s l (s_node <$> xs) ∧
    ∃ f, chash s m f ∧ ∀ k, f !! k = assoc k (key_node <$> xs);
  lc_slots : ∀ x, x ∈ xs → slot_ok s x;
  lc_pages : ∀ p, p ∈ dom (pages s) ↔ p ∈ s_page <$> xs;
  lc_nodup : NoDup (s_page <$> xs);
  lc_keys : NoDup (s_key <$> xs) }.

Section facts.
Implicit Types (s : store) (cache : ptr) (x : slot) (xs : list slot).

Lemma key_node_fst xs : (key_node <$> xs).*1 = s_key <$> xs.
Proof. rewrite <- list_fmap_compose. by apply list_fmap_ext. Qed.

Lemma set_cache_run s cache c :
  set_cache cache c s = Some ((), set_caches (<[cache := c]> (caches s)) s).
Proof. done. Qed.

Lemma load_cache s cache c : caches s = {[cache := c]} → load caches cache s = Some (c, s).
Proof. intros Hc. apply load_run. rewrite Hc. apply lookup_singleton_eq. Qed.

Lemma slot_ok_ext s s' x :
  payload s' (s_node x) = payload s (s_node x) → pages s' !! s_page x = pages s !! s_page x →
  slot_ok s x → slot_ok s' x.
Proof. unfold slot_ok. by intros -> ->. Qed.

Lemma page_not_null s cache cap sz xs x : lc s cache cap sz xs → x ∈ xs → s_page x ≠ NULL.
Proof.
  intros Hlc Hx. assert (Hd : s_page x ∈ dom (pages s)).
  { apply (lc_pages _ _ _ _ _ Hlc). by apply list_elem_of_fmap_2. }
  apply (wf_pages s (lc_wf _ _ _ _ _ Hlc)) in Hd. unfold NULL. lia.
Qed.

Lemma node_not_null s l ns p : store_wf s → clist s l ns → p ∈ ns → p ≠ NULL.
Proof.
  intros Hwf Hl Hp. assert (Hd : p ∈ dom (nodes s)) by (apply Hl; by right).
  apply (wf_nodes s Hwf) in Hd. unfold NULL. lia.
Qed.

Lemma clist_NoDup s l ns : clist s l ns → NoDup ns.
Proof. intros [[Hnd _ _] _]. by apply NoDup_cons in Hnd as [_ ?]. Qed.

Lemma NoDup_fmap_snoc {B} (g : slot → B) xs x :
  NoDup (g <$> xs ++ [x]) → NoDup (g <$> xs) ∧ ∀ y, y ∈ xs → g y ≠ g x.
Proof.
  rewrite fmap_app. intros (Hnd & Hd & _)%NoDup_app. split; [done|].
  intros y Hy Heq. apply (Hd (g y)); [by apply list_elem_of_fmap_2|].
  rewrite Heq. left.
Qed.

(** *** Eviction *)
Lemma evict_run s cache cap sz xs x :
  lc s cache cap sz (xs ++ [x]) →
  ∃ s', evict_oldest cache s = Some ((), s') ∧ lc s' cache cap (u64 (sz - 1)) xs ∧
    plan s' = plan s ∧ brk s' = brk s ∧
    (∀ p, p ≠ s_page x → pages s' !! p = pages s !! p).
Proof.
  intros Hlc. pose proof Hlc as [Hwf Hcap Hc0 (l & m & Hcache & Hl & f & Hf & Hfx) Hslots Hpages Hndp Hndk].
  assert (Hx : x ∈ xs ++ [x]) by (apply elem_of_app; right; left).
  destruct (Hslots x Hx) as [Hpay Hpage].
  destruct (NoDup_fmap_snoc _ _ _ Hndp) as [Hndp' Hpx].
  destruct (NoDup_fmap_snoc _ _ _ Hndk) as [Hndk' Hkx].
  destruct (NoDup_fmap_snoc _ _ _ (clist_NoDup _ _ _ Hl)) as [_ Hnx].
  unfold evict_oldest. cstep_by (load_cache s cache _ Hcache). cbn [recency index].
  rewrite fmap_app in Hl.
  cstep_by (list_back_run s l (s_node x) (s_node <$> xs) Hl).
  cstep_by (list_value_run s _ _ Hpay).
  cstep_by (load_run pages _ _ s Hpage). cbn [c_key].
  destruct (remove_run s m f (s_key x) Hf Hwf)
    as [[Hno _]|(s1 & E & ar & _ & Hrem & Hf1 & Hwf1 & Hs1)].
  { exfalso. rewrite Hfx in Hno. apply assoc_None in Hno. rewrite key_node_fst in Hno.
    apply Hno. by apply list_elem_of_fmap_2. }
  cstep_by Hrem. subst s1.
  pose proof (clist_ext s (set_entries E (set_arrays ar s)) l _ eq_refl Hl) as Hl1.
  destruct (list_remove_run _ l (s_node <$> xs) (s_node x) [] Hl1) as (s2 & Hrun2 & Hl2 & Hpay2 & h & ->).
  { apply (node_not_null s l _ _ Hwf Hl). set_solver. }
  cstep_by Hrun2. rewrite app_nil_r in Hl2.
  erewrite C_bind_Some by (eapply (free_run pages set_pages); [exact Hpage|by eapply page_not_null]).
  erewrite C_bind_Some by (apply (load_cache _ cache (Cache l m cap sz)); exact Hcache).
  rewrite set_cache_run. eexists. split; [done|]. cbn [recency index capacity size_].
  split; [|split; [done|split; [done|]]]; csimpl.
  2: { intros p Hp. by rewrite lookup_delete_ne. }
  split; csimpl; try done.
  - eapply wf_shrink; [exact Hwf1|csimpl; lia|csimpl..]; try done.
    + intros p Hp. apply Hl. apply Hl2 in Hp. set_solver.
    + rewrite dom_delete_L. set_solver.
    + rewrite Hcache, insert_singleton_eq, !dom_singleton_L. done.
  - exists l, m. split; [by rewrite Hcache, insert_singleton_eq|]. split; [by eapply clist_ext; [|exact Hl2]|].
    exists (delete (s_key x) f). split; [by eapply chash_ext; [..|exact Hf1]|]. intros k.
    rewrite lookup_delete, Hfx, fmap_app.
    pose proof (assoc_without (s_key x) (s_node x) k (key_node <$> xs) []) as Hw.
    rewrite app_nil_r in Hw. rewrite Hw.
    + by destruct (decide (s_key x = k)), (decide (k = s_key x)); try congruence.
    + change [(s_key x, s_node x)] with (key_node <$> [x]).
      rewrite <- fmap_app, key_node_fst. done.
  - intros y Hy. eapply slot_ok_ext; [| |apply (Hslots y); set_solver]; csimpl.
    + apply (Hpay2 (s_node y)). by apply Hnx.
    + rewrite lookup_delete_ne; [done|]. intros Heq. by apply (Hpx y Hy).
  - intros p. rewrite dom_delete_L, elem_of_difference, elem_of_singleton, Hpages, fmap_app.
    rewrite elem_of_app. split; [set_solver|]. intros Hp. split; [by left|]. intros ->.
    apply list_elem_of_fmap in Hp as (y & Heq & Hy). by apply (Hpx y).
Qed.

(** *** Steps that do not change what the cache holds *)
Lemma lc_set_alloc s cache cap sz xs b pl :
  (brk s ≤ b)%nat → lc s cache cap sz xs → lc (set_alloc b pl s) cache cap sz xs.
Proof.
  intros Hb [Hwf Hcap Hc0 (l & m & Hcache & Hl & f & Hf & Hfx) Hslots Hpages Hndp Hndk].
  split; try done; [by eapply wf_shrink|].
  exists l, m. split; [done|]. split; [by eapply clist_ext; [|exact Hl]|].
  exists f. split; [by eapply chash_ext; [..|exact Hf]|done].
Qed.

Lemma lc_set_size s cache cap sz sz' xs l m :
  caches s = {[cache := Cache l m cap sz]} → lc s cache cap sz xs →
  lc (set_caches (<[cache := Cache l m cap sz']> (caches s)) s) cache cap sz' xs.
Proof.
  intros Hcache [Hwf Hcap Hc0 (l' & m' & Hcache' & Hl & f & Hf & Hfx) Hslots Hpages Hndp Hndk].
  rewrite Hcache in Hcache'. apply (map_singleton_inj) in Hcache' as [_ [= <- <-]].
  rewrite Hcache, insert_singleton_eq. split; try done.
  - eapply wf_shrink; [exact Hwf|done..|]. csimpl. by rewrite Hcache, !dom_singleton_L.
  - exists l, m. split; [done|]. split; [by eapply clist_ext; [|exact Hl]|].
    exists f. split; [by eapply chash_ext; [..|exact Hf]|done].
Qed.

Lemma wf_add_page s pg pl :
  store_wf s → store_wf (set_pages (<[brk s := pg]> (pages s)) (set_alloc (S (brk s)) pl s)).
Proof.
  intros [W1 W2 W3 W4 W5 W6 W7].
  split; csimpl; try lia; intros p Hp;
    try (first [apply W2 in Hp|apply W3 in Hp|apply W4 in Hp|apply W5 in Hp|apply W7 in Hp]; lia).
  rewrite dom_insert_L in Hp. apply elem_of_union in Hp as [->%elem_of_singleton|Hp]; [lia|].
  apply W6 in Hp. lia.
Qed.

Lemma wf_push s h pl l ns :
  store_wf s → clist s l ns → clist (set_nodes h (set_alloc (S (brk s)) pl s)) l (brk s :: ns) →
  store_wf (set_nodes h (set_alloc (S (brk s)) pl s)).
Proof.
  intros [W1 W2 W3 W4 W5 W6 W7] [_ Hd] [_ Hd'].
  split; csimpl; try lia; intros p Hp;
    try (first [apply W3 in Hp|apply W4 in Hp|apply W5 in Hp|apply W6 in Hp|apply W7 in Hp]; lia).
  apply Hd' in Hp. rewrite !elem_of_cons in Hp.
  destruct (decide (p = brk s)) as [->|Hne]; [lia|].
  assert (Hin : p ∈ dom (nodes s)) by (apply Hd; rewrite elem_of_cons; tauto).
  apply W2 in Hin. lia.
Qed.

Lemma wf_drop_node s h l (p0 : ptr) ns :
  store_wf s → clist s l (p0 :: ns) → clist (set_nodes h s) l ns → store_wf (set_nodes h s).
Proof.
  intros Hwf Hl Hl'. eapply wf_shrink; [exact Hwf|done| |done..].
  intros p Hp. apply Hl. apply Hl' in Hp. set_solver.
Qed.

(** *** A hit *)
Lemma move_front_lc s cache cap sz l m xs1 x xs2 :
  caches s = {[cache := Cache l m cap sz]} → lc s cache cap sz (xs1 ++ x :: xs2) →
  ∃ s', list_move_front l (s_node x) s = Some ((), s') ∧
    lc s' cache cap sz (x :: xs1 ++ xs2) ∧ plan s' = plan s.
Proof.
  intros Hcache [Hwf Hcap Hc0 (l' & m' & Hcache' & Hl & f & Hf & Hfx) Hslots Hpages Hndp Hndk].
  rewrite Hcache in Hcache'. apply (map_singleton_inj) in Hcache' as [_ [= <- <-]].
  rewrite fmap_app, fmap_cons in Hl.
  destruct (list_move_front_run s l _ (s_node x) _ Hl) as (s1 & Hrun & Hl1 & Hpay & h & ->).
  rewrite <- fmap_app, <- (fmap_cons s_node) in Hl1.
  assert (Hp : x :: xs1 ++ xs2 ≡ₚ xs1 ++ x :: xs2) by apply Permutation_middle.
  eexists. split; [done|]. split; [|done]. split; try done.
  - eapply wf_shrink; [exact Hwf|done| |done..]. intros p Hin.
    apply Hl. apply Hl1 in Hin. rewrite <- (fmap_cons s_node), <- (fmap_app s_node).
    rewrite <- Hp. done.
  - exists l, m. split; [done|]. split; [done|]. exists f.
    split; [by eapply chash_ext; [..|exact Hf]|]. intros k. rewrite Hfx.
    symmetry. apply assoc_perm; [|by rewrite Hp]. rewrite key_node_fst. by rewrite Hp.
  - intros y. rewrite Hp. intros Hy. eapply slot_ok_ext; [apply Hpay|done|by apply Hslots].
  - intros p. by rewrite Hp.
  - by rewrite Hp.
  - by rewrite Hp.
Qed.

(** *** A miss *)

(** The page structure is freed again when the node or the index entry cannot be
    allocated, and nothing else has changed. *)
Lemma undo_page s cache cap sz xs pl pg :
  lc s cache cap sz xs →
  ∃ s', free pages set_pages (brk s)
      (set_pages (<[brk s := pg]> (pages s)) (set_alloc (S (brk s)) pl s)) = Some ((), s') ∧
    s' = set_alloc (S (brk s)) pl s.
Proof.
  intros Hlc. pose proof (lc_wf _ _ _ _ _ Hlc) as Hwf. eexists. split.
  - eapply (free_run pages set_pages); [csimpl; apply lookup_insert_eq|].
    pose proof (wf_brk s Hwf). unfold NULL. lia.
  - csimpl. rewrite delete_insert_id; [by destruct s|].
    apply not_elem_of_dom. intros Hd%(wf_pages s Hwf). lia.
Qed.

(** The node that has been linked is removed again when the index has no memory. *)
Lemma undo_node s cache cap sz xs l m pl h pl2 pl4 key :
  caches s = {[cache := Cache l m cap sz]} → lc s cache cap sz xs →
  clist s l (s_node <$> xs) →
  let node := S (brk s) in
  let s3 := set_nodes h (set_alloc (S node) pl2
    (set_pages (<[brk s := Page key None]> (pages s)) (set_alloc (S (brk s)) pl s))) in
  clist s3 l (node :: (s_node <$> xs)) → payload s3 node = Some (brk s) →
  (∀ p, p ≠ node → payload s3 p = payload s p) →
  ∃ s', (list_remove l node;; free pages set_pages (brk s);; mret (LRU_NO_MEMORY, None))
      (set_alloc (brk s3) pl4 s3) = Some ((LRU_NO_MEMORY, None : option Z), s') ∧
    lc s' cache cap sz xs ∧ plan s' = pl4.
Proof.
  intros Hcache Hlc Hl node s3 Hl3 Hpay Hpay'.
  pose proof Hlc as [Hwf Hcap Hc0 (l' & m' & Hcache' & _ & f & Hf & Hfx) Hslots Hpages Hndp Hndk].
  rewrite Hcache in Hcache'. apply (map_singleton_inj) in Hcache' as [_ [= <- <-]].
  set (s4 := set_alloc (brk s3) pl4 s3).
  assert (Hl4 : clist s4 l ([] ++ node :: (s_node <$> xs))) by by eapply clist_ext; [|exact Hl3].
  destruct (list_remove_run s4 l [] node _ Hl4 ltac:(done)) as (s5 & Hrun & Hl5 & Hpay5 & h5 & ->).
  cstep_by Hrun.
  erewrite C_bind_Some by (eapply (free_run pages set_pages);
    [csimpl; apply lookup_insert_eq|pose proof (wf_brk s Hwf); unfold NULL; lia]).
  eexists. split; [done|]. split; [|done].
  assert (Hfresh : brk s ∉ dom (pages s)) by (intros Hd%(wf_pages s Hwf); lia).
  assert (Hpg : delete (brk s) (<[brk s:=Page key None]> (pages s)) = pages s)
    by (apply delete_insert_id; by apply not_elem_of_dom).
  split; csimpl; rewrite ?Hpg; try done.
  - eapply wf_shrink; [exact (wf_add_page s (Page key None) pl Hwf)|csimpl; lia|..]; csimpl; try done.
    + intros p Hp. apply Hl. by apply Hl5 in Hp.
    + rewrite dom_insert_L. set_solver.
  - exists l, m. split; [done|]. split; [by eapply clist_ext; [|exact Hl5]|].
    exists f. split; [by eapply chash_ext; [..|exact Hf]|done].
  - intros x Hx. eapply slot_ok_ext; [| |by apply Hslots]; csimpl; [|done].
    assert (Hne : s_node x ≠ node).
    { assert (Hd : s_node x ∈ dom (nodes s)) by (apply Hl; right; by apply list_elem_of_fmap_2).
      apply (wf_nodes s Hwf) in Hd. unfold node. lia. }
    etransitivity; [exact (Hpay5 _ Hne)|exact (Hpay' _ Hne)].
Qed.

(** Linking and indexing the new slot. *)
Lemma lc_insert s cache cap sz xs l m f h E ar pl pl2 b pl4 key load :
  caches s = {[cache := Cache l m cap sz]} → lc s cache cap sz xs →
  clist s l (s_node <$> xs) →
  (∀ k, f !! k = assoc k (key_node <$> xs)) → f !! key = None →
  let node := S (brk s) in
  let s3 := set_nodes h (set_alloc (S node) pl2
    (set_pages (<[brk s := Page key None]> (pages s)) (set_alloc (S (brk s)) pl s))) in
  let s4 := set_entries E (set_arrays ar (set_alloc b pl4 s3)) in
  clist s3 l (node :: (s_node <$> xs)) → payload s3 node = Some (brk s) →
  (∀ p, p ≠ node → payload s3 p = payload s p) →
  store_wf s4 → chash s4 m (<[key := node]> f) →
  lc (set_pages (<[brk s := Page key (Some (load key))]> (pages s4)) s4) cache cap sz
    (Slot node (brk s) key (Some (load key)) :: xs).
Proof.
  intros Hcache [Hwf Hcap Hc0 _ Hslots Hpages Hndp Hndk] Hl Hfx Hkey node s3 s4
    Hl3 Hpay Hpay' Hwf4 Hf4.
  assert (Hfresh : ∀ x, x ∈ xs → s_page x ≠ brk s ∧ s_node x ≠ node).
  { intros x Hx. split.
    - assert (Hd : s_page x ∈ dom (pages s)) by (apply Hpages; by apply list_elem_of_fmap_2).
      apply (wf_pages s Hwf) in Hd. lia.
    - assert (Hd : s_node x ∈ dom (nodes s)).
      { apply Hl. right. by apply list_elem_of_fmap_2. }
      apply (wf_nodes s Hwf) in Hd. unfold node. lia. }
  split; try done.
  - eapply wf_shrink; [exact Hwf4|done..| |done]. csimpl.
    rewrite insert_insert_eq, !dom_insert_L. set_solver.
  - exists l, m. split; [done|]. split; [by eapply clist_ext; [|exact Hl3]|].
    exists (<[key := node]> f). split; [by eapply chash_ext; [..|exact Hf4]|].
    intros k. rewrite lookup_insert, fmap_cons. csimpl. by rewrite Hfx.
  - intros x [->|Hx]%elem_of_cons.
    + split; [exact Hpay|]. csimpl. apply lookup_insert_eq.
    + destruct (Hfresh x Hx) as [Hp Hn]. eapply slot_ok_ext; [by apply Hpay'| |by apply Hslots].
      csimpl. by rewrite !lookup_insert_ne.
  - intros p. csimpl. rewrite insert_insert_eq, dom_insert_L.
    rewrite elem_of_union, elem_of_singleton, Hpages, elem_of_cons. done.
  - csimpl. apply NoDup_cons. split; [|done].
    intros (x & Heq & Hx)%list_elem_of_fmap. by destruct (Hfresh x Hx).
  - csimpl. apply NoDup_cons. split; [|done].
    rewrite Hfx in Hkey. apply assoc_None in Hkey. by rewrite key_node_fst in Hkey.
Qed.

Definition kept_slots (cap : Z) (xs : list slot) : list slot :=
  if decide (Z.of_nat (length xs) = cap) then removelast xs else xs.

Lemma kept_length cap xs :
  0 < cap → Z.of_nat (length xs) <= cap → Z.of_nat (length (kept_slots cap xs)) < cap.
Proof.
  unfold kept_slots. intros Hc Hle. case_decide; [|lia].
  rewrite removelast_take, length_take. lia.
Qed.

(** The end of [insert_page], after the index entry has been made. *)
Definition finish_insert (cache entry : ptr) : C store (LruResult * option Z) :=
  c ← load caches cache;
  (if size_ c =? capacity c then evict_oldest cache else mret ());;
  c ← load caches cache;
  set_cache cache (Cache (recency c) (index c) (capacity c) (u64 (size_ c + 1)));;
  e ← load pages entry;
  mret (LRU_MISS, c_value e).

Lemma lc_cache_at s cache cap sz xs :
  lc s cache cap sz xs → ∃ l m, caches s = {[cache := Cache l m cap sz]}.
Proof. intros [_ _ _ (l & m & Hc & _) _ _ _ _]. by eexists _, _. Qed.

Lemma make_room s cache cap x xs :
  0 < cap → Z.of_nat (length xs) <= cap →
  lc s cache cap (Z.of_nat (length xs)) (x :: xs) →
  ∃ s', (if Z.of_nat (length xs) =? cap then evict_oldest cache else mret ()) s = Some ((), s') ∧
    lc s' cache cap (Z.of_nat (length (kept_slots cap xs))) (x :: kept_slots cap xs) ∧
    plan s' = plan s ∧ pages s' !! s_page x = pages s !! s_page x.
Proof.
  intros Hc Hle Hlc. unfold kept_slots. destruct (Z.eqb_spec (Z.of_nat (length xs)) cap) as [Heq|Hne].
  - rewrite decide_True by done.
    destruct xs as [|z ys _] using rev_ind; [csimpl in *; lia|]. rewrite removelast_last.
    rewrite app_comm_cons in Hlc.
    destruct (evict_run s cache cap _ (x :: ys) z Hlc) as (s' & Hrun & Hlc' & Hplan & _ & Hpg).
    exists s'. split; [done|]. split; [|split; [done|]].
    + replace (Z.of_nat (length ys)) with (u64 (Z.of_nat (length (ys ++ [z])) - 1)); [done|].
      rewrite length_app. csimpl. pose proof (lc_cap _ _ _ _ _ Hlc) as Hcap.
      unfold is_u64 in Hcap. rewrite length_app in Heq. csimpl in Heq.
      rewrite u64_small by (unfold is_u64; lia). lia.
    + apply Hpg. pose proof (lc_nodup _ _ _ _ _ Hlc) as Hnd. rewrite fmap_app in Hnd.
      apply NoDup_app in Hnd as (_ & Hd & _). intros Hzx.
      apply (Hd (s_page x)); csimpl; [left|rewrite Hzx; left].
  - rewrite decide_False by done. by exists s.
Qed.

Lemma finish_insert_run s cache cap x xs v :
  0 < cap → Z.of_nat (length xs) <= cap →
  lc s cache cap (Z.of_nat (length xs)) (x :: xs) → s_value x = Some v →
  ∃ s', finish_insert cache (s_page x) s = Some ((LRU_MISS, Some v), s') ∧
    lc s' cache cap (Z.of_nat (length (x :: kept_slots cap xs))) (x :: kept_slots cap xs) ∧
    plan s' = plan s.
Proof.
  intros Hc Hle Hlc Hv. destruct (lc_cache_at _ _ _ _ _ Hlc) as (l & m & Hcache).
  unfold finish_insert. cstep_by (load_cache s cache _ Hcache). cbn [size_ capacity].
  destruct (make_room s cache cap x xs Hc Hle Hlc) as (s1 & Hrun & Hlc1 & Hplan & Hpg).
  cstep_by Hrun. destruct (lc_cache_at _ _ _ _ _ Hlc1) as (l1 & m1 & Hcache1).
  cstep_by (load_cache s1 cache _ Hcache1).
  cstep_by (set_cache_run s1 cache
    (Cache l1 m1 cap (u64 (Z.of_nat (length (kept_slots cap xs)) + 1)))).
  assert (Hpage : pages s1 !! s_page x = Some (Page (s_key x) (s_value x))).
  { apply (lc_slots _ _ _ _ _ Hlc1 x). left. }
  erewrite C_bind_Some by (apply (load_run pages); exact Hpage). cbn [c_value]. rewrite Hv.
  eexists. split; [done|]. split; [|exact Hplan].
  pose proof (kept_length cap xs Hc Hle) as Hk.
  pose proof (lc_cap _ _ _ _ _ Hlc) as Hcap. unfold is_u64 in Hcap.
  rewrite u64_small by (unfold is_u64; lia).
  replace (Z.of_nat (length (x :: kept_slots cap xs)))
    with (Z.of_nat (length (kept_slots cap xs)) + 1) by (csimpl; lia).
  by eapply lc_set_size.
Qed.

Lemma insert_page_run s cache cap xs key load :
  0 < cap → Z.of_nat (length xs) <= cap →
  lc s cache cap (Z.of_nat (length xs)) xs → key ∉ s_key <$> xs →
  ∃ out s', insert_page cache key load s = Some (out, s') ∧ (plenty s → plenty s') ∧
    (out = (LRU_NO_MEMORY, None) ∧ ¬ plenty s ∧ lc s' cache cap (Z.of_nat (length xs)) xs ∨
     out = (LRU_MISS, Some (load key)) ∧
     ∃ x, s_key x = key ∧ s_value x = Some (load key) ∧
       lc s' cache cap (Z.of_nat (length (x :: kept_slots cap xs))) (x :: kept_slots cap xs)).
Proof.
  intros Hc Hle Hlc Hkey. set (sz := Z.of_nat (length xs)) in *.
  pose proof Hlc as [Hwf _ _ (l & m & Hcache & Hl & f & Hf & Hfx) _ _ _ _].
  assert (Hfk : f !! key = None) by (rewrite Hfx; apply assoc_None; by rewrite key_node_fst).
  unfold insert_page.
  destruct (malloc_run s) as (pl & Hpl & [[Hm Hnot]|Hm]); cstep_by Hm.
  { rewrite decide_True by done. eexists _, _. split; [done|]. split; [done|]. left.
    split; [done|]. split; [done|]. by apply lc_set_alloc. }
  rewrite decide_False by (pose proof (wf_brk s Hwf); unfold NULL; lia). cstep.
  set (s2 := set_pages (<[brk s := Page key None]> (pages s)) (set_alloc (S (brk s)) pl s)).
  assert (Hwf2 : store_wf s2) by by apply wf_add_page.
  assert (Hl2 : clist s2 l (s_node <$> xs)) by by eapply clist_ext; [|exact Hl].
  cstep_by (load_cache s2 cache _ Hcache). cbn [recency index].
  destruct (list_push_front_run s2 l (brk s) _ Hl2 Hwf2)
    as (node & s3 & pl2 & Hpush & Hpl2 & [(-> & Hnot & ->)|(-> & Hl3 & Hpay & Hpay' & h & ->)]).
  { cstep_by Hpush. rewrite decide_True by done.
    destruct (undo_page s cache cap sz xs pl2 (Page key None) Hlc) as (su & Hundo & ->).
    change (set_alloc (brk s2) pl2 s2)
      with (set_pages (<[brk s := Page key None]> (pages s)) (set_alloc (S (brk s)) pl2 s)).
    cstep_by Hundo. eexists _, _. split; [done|]. split; [intros H; by apply Hpl2, Hpl|].
    left. split; [done|]. split; [intros H; by apply Hnot, Hpl|].
    apply lc_set_alloc; [lia|done]. }
  cstep_by Hpush. pose proof (wf_push s2 h pl2 l _ Hwf2 Hl2 Hl3) as Hwf3.
  rewrite decide_False by (pose proof (wf_brk s2 Hwf2); unfold NULL; lia).
  set (s3 := set_nodes h (set_alloc (S (brk s2)) pl2 s2)) in *.
  assert (Hf3 : chash s3 m f) by by eapply chash_ext; [..|exact Hf].
  destruct (insert_run s3 m f key (brk s2) Hf3 Hwf3) as (r & s4 & pl4 & Hins & Hpl4 & Hcases).
  cstep_by Hins.
  destruct Hcases as [(_ & Hdup & _)|[(-> & Hnot & ->)|(-> & _ & Hf4 & Hwf4 & E & ar & ->)]].
  { rewrite Hfk in Hdup. destruct Hdup as [? ?]. congruence. }
  - destruct (undo_node s cache cap sz xs l m pl h pl2 pl4 key Hcache Hlc Hl Hl3 Hpay Hpay')
      as (s5 & Hrun & Hlc5 & Hplan).
    eexists _, _. split; [exact Hrun|]. split; [unfold plenty; rewrite Hplan; intros H; by apply Hpl4, Hpl2, Hpl|].
    left. split; [done|]. split; [intros H; by apply Hnot, Hpl2, Hpl|done].
  - pose proof (lc_insert s cache cap sz xs l m f h E ar pl pl2 (S (brk s3)) pl4 key load
      Hcache Hlc Hl Hfx Hfk Hl3 Hpay Hpay' Hwf4 Hf4) as Hlc4.
    set (s4 := set_entries E (set_arrays ar (set_alloc (S (brk s3)) pl4 s3))) in *.
    assert (Hpg : pages s4 !! brk s = Some (Page key None)) by apply lookup_insert_eq.
    erewrite C_bind_Some by (apply (load_run pages); exact Hpg). cstep. cbn [c_key].
    destruct (finish_insert_run _ cache cap _ xs (load key) Hc Hle Hlc4 eq_refl)
      as (s5 & Hrun & Hlc5 & Hplan).
    eexists _, _. split; [exact Hrun|]. split.
    { unfold plenty. rewrite Hplan. intros H. by apply Hpl4, Hpl2, Hpl. }
    right. split; [done|]. eexists. split; [|split; [|exact Hlc5]]; done.
Qed.
(** *** The cache of an abstract one *)
Definition slot_item (x : slot) : Z * option Z := (s_key x, s_value x).
Definition full_item (kv : Z * Z) : Z * option Z := (kv.1, Some kv.2).

(** The cache at [cache] holds the items of [a], in its order. *)
Definition holds (s : store) (cache : ptr) (a : lru Z Z) : Prop :=
  ∃ xs, lc s cache (Z.of_nat (cap a)) (Z.of_nat (length xs)) xs ∧
    (length xs ≤ cap a)%nat ∧ slot_item <$> xs = full_item <$> items a.

Lemma items_keys xs (kvs : list (Z * Z)) :
  slot_item <$> xs = full_item <$> kvs → s_key <$> xs = kvs.*1 ∧ length xs = length kvs.
Proof.
  intros Heq. split.
  - apply (f_equal (fmap fst)) in Heq. by rewrite <- !list_fmap_compose in Heq.
  - apply (f_equal length) in Heq. by rewrite !length_fmap in Heq.
Qed.

Lemma found_slot s cache cap sz xs key node (f : gmap Z ptr) :
  (∀ k, f !! k = assoc k (key_node <$> xs)) → lc s cache cap sz xs →
  f !! key = Some node →
  ∃ xs1 x xs2, xs = xs1 ++ x :: xs2 ∧ s_key x = key ∧ s_node x = node.
Proof.
  intros Hfx Hlc Hk. rewrite Hfx in Hk. apply assoc_Some_elem in Hk.
  apply list_elem_of_fmap in Hk as (x & [= -> ->] & Hx).
  apply list_elem_of_split in Hx as (xs1 & xs2 & ->). by exists xs1, x, xs2.
Qed.

Lemma split_items xs1 x xs2 (kvs : list (Z * Z)) :
  slot_item <$> xs1 ++ x :: xs2 = full_item <$> kvs → NoDup (s_key <$> xs1 ++ x :: xs2) →
  ∃ v, s_value x = Some v ∧ assoc (s_key x) kvs = Some v ∧
    slot_item <$> x :: xs1 ++ xs2 = full_item <$> (s_key x, v) :: remove_key (s_key x) kvs.
Proof.
  intros Heq Hnd. destruct (items_keys _ _ Heq) as [Hkeys _]. rewrite Hkeys in Hnd.
  rewrite fmap_app in Heq. symmetry in Heq.
  apply fmap_app_inv in Heq as (kv1 & kv2 & H1 & H2 & ->).
  symmetry in H2. apply fmap_cons_inv in H2 as ([k v] & kv2' & Hx & H2 & ->).
  injection Hx as Hk Hv. csimpl in Hk. csimpl in Hv. subst k. exists v. split; [done|]. split.
  - apply elem_assoc; [done|]. set_solver.
  - rewrite remove_key_split by done. rewrite !fmap_cons, !fmap_app.
    f_equal; [|by f_equal]. unfold slot_item, full_item. by rewrite Hv.
Qed.

Lemma kept_items cap xs (kvs : list (Z * Z)) :
  slot_item <$> xs = full_item <$> kvs →
  slot_item <$> kept_slots (Z.of_nat cap) xs =
    full_item <$> (if decide (length kvs = cap) then removelast kvs else kvs).
Proof.
  intros Heq. destruct (items_keys _ _ Heq) as [_ Hlen]. unfold kept_slots.
  destruct (decide (length kvs = cap)) as [Hc|Hc].
  - rewrite decide_True by lia. rewrite !removelast_take, !fmap_take, Heq, Hlen. done.
  - by rewrite decide_False by lia.
Qed.
Lemma access_hit (load : Z → Z) key v (a : lru Z Z) :
  cap a ≠ 0%nat → assoc key (items a) = Some v →
  access load key a = (true, v, Lru (cap a) ((key, v) :: remove_key key (items a))).
Proof. intros Hc Ha. unfold access. by rewrite decide_False, Ha by done. Qed.

Lemma access_miss (load : Z → Z) key (a : lru Z Z) :
  cap a ≠ 0%nat → assoc key (items a) = None →
  access load key a = (false, load key, Lru (cap a) ((key, load key) ::
    if decide (length (items a) = cap a) then removelast (items a) else items a)).
Proof. intros Hc Ha. unfold access. by rewrite decide_False, Ha by done. Qed.

Lemma hit_run s cache (a : lru Z Z) key fetch node l m (f : gmap Z ptr) xs :
  cap a ≠ 0%nat → caches s = {[cache := Cache l m (Z.of_nat (cap a)) (Z.of_nat (length xs))]} →
  (∀ k, f !! k = assoc k (key_node <$> xs)) → f !! key = Some node →
  lc s cache (Z.of_nat (cap a)) (Z.of_nat (length xs)) xs → (length xs ≤ cap a)%nat →
  slot_item <$> xs = full_item <$> items a →
  ∃ v a' s', access fetch key a = (true, v, a') ∧ holds s' cache a' ∧ plan s' = plan s ∧
    (list_move_front l node;;
     entry ← list_value node; e ← load pages entry; mret (LRU_HIT, c_value e)) s =
    Some ((LRU_HIT, Some v), s').
Proof.
  intros Hc Hcache Hfx Hk Hlc Hle Hitems.
  destruct (found_slot _ _ _ _ _ _ _ _ Hfx Hlc Hk) as (xs1 & x & xs2 & -> & <- & <-).
  destruct (split_items _ _ _ _ Hitems (lc_keys _ _ _ _ _ Hlc)) as (v & Hv & Ha & Hitems').
  exists v. eexists. rewrite (access_hit fetch _ v a Hc Ha).
  destruct (move_front_lc s cache _ _ l m xs1 x xs2 Hcache Hlc) as (s' & Hrun & Hlc' & Hplan).
  exists s'. split; [done|]. split; [|split; [done|]].
  - exists (x :: xs1 ++ xs2). csimpl.
    rewrite <- (Permutation_length (Permutation_middle xs1 xs2 x)) in Hle, Hlc'.
    csimpl in *. split; [done|]. split; [done|exact Hitems'].
  - destruct (lc_slots _ _ _ _ _ Hlc' x) as [Hpay Hpage]; [left|].
    cstep_by Hrun. cstep_by (list_value_run s' _ _ Hpay).
    erewrite C_bind_Some by (apply (load_run pages); exact Hpage). by rewrite <- Hv.
Qed.

Lemma lookup_update_run s cache (a : lru Z Z) key fetch :
  holds s cache a →
  ∃ out s', lookup_update cache key (Some fetch) true s = Some (out, s') ∧
    (plenty s → plenty s') ∧
    (out = (LRU_NO_MEMORY, None) ∧ ¬ plenty s ∧ holds s' cache a ∨
     ∃ hit page a', access fetch key a = (hit, page, a') ∧
       out = (if hit : bool then LRU_HIT else LRU_MISS, Some page) ∧ holds s' cache a').
Proof.
  intros (xs & Hlc & Hle & Hitems). unfold lookup_update.
  rewrite (decide_False (P := cache = NULL)) by apply (lc_addr _ _ _ _ _ Hlc). cbn [negb].
  pose proof Hlc as [_ _ _ (l & m & Hcache & Hl & f & Hf & Hfx) _ _ _ _].
  cstep_by (load_cache s cache _ Hcache). cbn [capacity index recency].
  destruct (Z.eqb_spec (Z.of_nat (cap a)) 0) as [H0|H0].
  { eexists _, s. split; [done|]. split; [done|]. right. exists false, (fetch key), a.
    split; [unfold access; by rewrite decide_True by lia|]. split; [done|]. by exists xs. }
  cstep_by (find_run s m f key Hf). destruct (f !! key) as [node|] eqn:Hk.
  - destruct (hit_run s cache a key fetch node l m f xs ltac:(lia) Hcache Hfx Hk Hlc Hle Hitems)
      as (v & a' & s' & Ha & Hh & Hplan & Hrun).
    eexists _, s'. split; [exact Hrun|]. split; [unfold plenty; by rewrite Hplan|].
    right. by exists true, v, a'.
  - assert (Hkey : key ∉ s_key <$> xs).
    { rewrite Hfx in Hk. apply assoc_None in Hk. by rewrite key_node_fst in Hk. }
    destruct (insert_page_run s cache (Z.of_nat (cap a)) xs key fetch ltac:(lia) ltac:(lia) Hlc Hkey)
      as (out & s' & Hrun & Hpl & Hcases).
    exists out, s'. split; [exact Hrun|]. split; [done|].
    destruct Hcases as [(-> & Hnot & Hlc')|(-> & x & Hx & Hv & Hlc')].
    { left. split; [done|]. split; [done|]. by exists xs. }
    right. eexists false, (fetch key), _. split; [apply access_miss; [lia|]|].
    { apply assoc_None. by rewrite <- (proj1 (items_keys _ _ Hitems)). }
    split; [done|]. exists (x :: kept_slots (Z.of_nat (cap a)) xs). split; [exact Hlc'|].
    pose proof (kept_length (Z.of_nat (cap a)) xs) as Hlen. split; [csimpl; lia|].
    csimpl. rewrite (kept_items (cap a) xs _ Hitems). unfold slot_item, full_item. by rewrite Hx, Hv.
Qed.
(** *** Creation *)
Definition index_limit : Z := SIZE_MAX `div` SIZEOF_PTR.

Lemma index_limit_eq : index_limit = 2305843009213693951.
Proof. done. Qed.

Lemma create_index_run s n :
  store_wf s → entries s = ∅ → arrays s = ∅ → maps s = ∅ → 0 < n →
  ∃ map s' pl br, hash_map_create n s = Some (map, s') ∧ (plenty s → Forall Is_true pl) ∧
    (brk s ≤ br)%nat ∧
    (map = NULL ∧ (plenty s → index_limit < n) ∧ s' = set_alloc br pl s ∨
     map ≠ NULL ∧ chash s' map ∅ ∧ store_wf s' ∧
     ∃ mp ar, s' = set_maps mp (set_arrays ar (set_alloc br pl s))).
Proof.
  intros Hwf HE HA HM Hn. destruct (Z.le_gt_cases n index_limit) as [Hle|Hgt].
  - destruct (create_run s n Hwf HE HA HM) as (map & s' & pl & br & Hrun & Hpl & Hbr & Hcases);
      [done|]. exists map, s', pl, br. split_and!; [done..|].
    destruct Hcases as [(-> & Hnot & ->)|Hcases]; [left|by right].
    split_and!; [done| |done]. by intros ?%Hnot.
  - exists NULL, s, (plan s), (brk s). unfold hash_map_create.
    rewrite (proj2 (Z.ltb_lt _ n)) by exact Hgt. rewrite orb_true_r.
    split_and!; [done..|]. left. split_and!; [done..|]. by destruct s.
Qed.

Lemma wf_add_cache s c pl :
  store_wf s → store_wf (set_caches (<[brk s := c]> (caches s)) (set_alloc (S (brk s)) pl s)).
Proof.
  intros [W1 W2 W3 W4 W5 W6 W7].
  split; csimpl; try lia; intros p Hp;
    try (first [apply W2 in Hp|apply W3 in Hp|apply W4 in Hp|apply W5 in Hp|apply W6 in Hp]; lia).
  rewrite dom_insert_L in Hp. apply elem_of_union in Hp as [->%elem_of_singleton|Hp]; [lia|].
  apply W7 in Hp. lia.
Qed.

Lemma set_cache_at s cache c c' :
  caches s = {[cache := c]} → set_cache cache c' s = Some ((), set_caches {[cache := c']} s).
Proof. intros Hc. by rewrite set_cache_run, Hc, insert_singleton_eq. Qed.

Lemma wf_set_cache s cache c c' :
  caches s = {[cache := c]} → store_wf s → store_wf (set_caches {[cache := c']} s).
Proof.
  intros Hc Hwf. eapply wf_shrink; [exact Hwf|done..|]. csimpl.
  by rewrite Hc, !dom_singleton_L.
Qed.

Lemma free_cache s cache c :
  caches s = {[cache := c]} → cache ≠ NULL →
  free caches set_caches cache s = Some ((), set_caches ∅ s).
Proof.
  intros Hc H0. rewrite (free_run caches set_caches cache c s); [|by rewrite Hc, lookup_singleton_eq|done].
  by rewrite Hc, delete_singleton_eq.
Qed.

(** An empty list and an empty table make the empty cache. *)
Lemma holds_empty s cache l m n :
  store_wf s → is_u64 (Z.of_nat n) → cache ≠ NULL → pages s = ∅ →
  caches s = {[cache := Cache l m (Z.of_nat n) 0]} → clist s l [] → chash s m ∅ →
  holds s cache (Lru n []).
Proof.
  intros Hwf Hn H0 Hp Hc Hl Hm. exists []. split; [|by split; [csimpl; lia|]].
  split; csimpl; try done.
  - exists l, m. split; [done|]. split; [done|]. exists ∅. split; [done|].
    intros k. by rewrite lookup_empty.
  - by intros x ?%elem_of_nil.
  - intros p. rewrite Hp, dom_empty_L. set_solver.
  - constructor.
  - constructor.
Qed.

(** The store with nothing allocated. *)
Definition cleared (s : store) : store := Store ∅ ∅ ∅ ∅ ∅ ∅ (brk s) (plan s).

(** Both parts are released when one of them could not be allocated. *)
Lemma undo_create s cache c l m :
  store_wf s → caches s = {[cache := c]} → cache ≠ NULL → pages s = ∅ →
  (l = NULL ∧ nodes s = ∅ ∨ clist s l []) →
  (m = NULL ∧ entries s = ∅ ∧ arrays s = ∅ ∧ maps s = ∅ ∨ chash s m ∅) →
  (list_destroy l;; hash_map_destroy m;; free caches set_caches cache;; mret NULL) s =
    Some (NULL, cleared s).
Proof.
  intros Hwf Hc H0 Hp Hl Hm.
  assert (Hl' : list_destroy l s = Some ((), set_nodes ∅ s)).
  { destruct Hl as [[-> Hn]|Hl]; [|by eapply list_destroy_run].
    unfold list_destroy. rewrite decide_True by done. rewrite <- Hn. by rewrite set_nodes_id. }
  cstep_by Hl'.
  assert (Hwf' : store_wf (set_nodes ∅ s)) by (eapply wf_shrink; [exact Hwf|done| |done..]; csimpl; set_solver).
  assert (Hm' : hash_map_destroy m (set_nodes ∅ s) =
    Some ((), set_maps ∅ (set_arrays ∅ (set_entries ∅ (set_nodes ∅ s))))).
  { destruct Hm as [(-> & HE & HA & HM)|Hm].
    - unfold hash_map_destroy. rewrite decide_True by done.
      destruct s. csimpl in *. by subst.
    - eapply destroy_run; [|done]. by eapply chash_ext; [..|exact Hm]. }
  cstep_by Hm'. erewrite C_bind_Some by (eapply free_cache; [exact Hc|done]).
  unfold cleared. by rewrite <- Hp.
Qed.
Lemma create_recency_run s :
  store_wf s → nodes s = ∅ →
  ∃ l h b pl, list_create s = Some (l, set_nodes h (set_alloc b pl s)) ∧
    (plenty s → Forall Is_true pl) ∧ store_wf (set_nodes h (set_alloc b pl s)) ∧
    (l = NULL ∧ h = ∅ ∧ ¬ plenty s ∨ l ≠ NULL ∧ clist (set_nodes h (set_alloc b pl s)) l []).
Proof.
  intros Hwf Hn. destruct (list_create_run s Hwf Hn) as (l & s2 & pl & Hrun & Hpl & Hcases).
  destruct Hcases as [(-> & Hnot & ->)|(-> & Hl & h & ->)].
  - exists NULL, ∅, (brk s), pl. rewrite Hrun.
    split_and!; [destruct s; csimpl in *; by subst|done| |by left].
    eapply wf_shrink; [exact Hwf|done|..]; csimpl; set_solver.
  - exists (brk s), h, (S (brk s)), pl. split_and!; [done..| |right].
    + destruct Hwf as [W1 W2 W3 W4 W5 W6 W7]. split; csimpl; try lia; intros p Hp;
        try (first [apply W3 in Hp|apply W4 in Hp|apply W5 in Hp|apply W6 in Hp|apply W7 in Hp]; lia).
      apply Hl in Hp. apply list_elem_of_singleton in Hp. lia.
    + split; [|done]. pose proof (wf_brk s Hwf). unfold NULL. lia.
Qed.

Lemma lru_create_run p n :
  is_u64 (Z.of_nat n) →
  ∃ cache s', lru_create (Z.of_nat n) (empty_store p) = Some (cache, s') ∧
    (Forall Is_true p → plenty s') ∧
    (cache = NULL ∧ (Forall Is_true p → index_limit < Z.max (Z.of_nat n) 1) ∧ s' = cleared s' ∨
     cache ≠ NULL ∧ holds s' cache (Lru n [])).
Proof.
  intros Hn. unfold lru_create. set (s0 := empty_store p).
  pose proof (empty_store_wf p) as Hwf0.
  destruct (malloc_run s0) as (pl & Hpl & [[Hm Hnot]|Hm]); cstep_by Hm.
  { rewrite decide_True by done. eexists _, _. split; [done|]. split; [exact Hpl|].
    left. split_and!; [done| |done]. by intros ?%Hnot. }
  rewrite decide_False by done. set (cache := brk s0).
  set (s1 := set_caches {[cache := Cache NULL NULL 0 0]} (set_alloc (S cache) pl s0)).
  assert (Hwf1 : store_wf s1) by exact (wf_add_cache s0 _ pl Hwf0).
  erewrite C_bind_Some by apply set_cache_run.
  change (set_caches _ (set_alloc _ _ s0)) with s1.
  destruct (create_recency_run s1 Hwf1 eq_refl) as (l & h & b & pl2 & Hrun & Hpl2 & Hwf2 & Hl).
  cstep_by Hrun. erewrite C_bind_Some by (by eapply set_cache_at).
  set (s3 := set_caches _ _). assert (Hwf3 : store_wf s3) by by eapply wf_set_cache.
  assert (Hcap : 0 < (if Z.of_nat n =? 0 then 1 else Z.of_nat n) <= Z.max (Z.of_nat n) 1)
    by (destruct (Z.eqb_spec (Z.of_nat n) 0); lia).
  destruct (create_index_run s3 _ Hwf3 eq_refl eq_refl eq_refl (proj1 Hcap))
    as (m & s4 & pl4 & br & Hrunm & Hpl4 & Hbr & Hm4).
  cstep_by Hrunm.
  assert (Hs4 : ∃ mp ar, s4 = set_maps mp (set_arrays ar (set_alloc br pl4 s3)) ∧ store_wf s4 ∧
    (m = NULL ∧ mp = ∅ ∧ ar = ∅ ∧ (plenty s3 → index_limit < Z.max (Z.of_nat n) 1) ∨
     m ≠ NULL ∧ chash s4 m ∅)).
  { destruct Hm4 as [(-> & Hbig & ->)|(Hm0 & Hf & Hwf & mp & ar & ->)].
    - exists ∅, ∅. split_and!; [done|by eapply wf_shrink|]. left. split_and!; [done..|].
      intros H%Hbig. lia.
    - exists mp, ar. split_and!; [done..|by right]. }
  clear Hm4. destruct Hs4 as (mp & ar & -> & Hwf4 & Hm4).
  erewrite C_bind_Some by (by eapply set_cache_at). set (s5 := set_caches _ _).
  assert (Hwf5 : store_wf s5) by by eapply wf_set_cache.
  assert (Hp5 : Forall Is_true p → plenty s5) by (intros H; by apply Hpl4, Hpl2, Hpl).
  assert (Hl5 : l ≠ NULL → clist s5 l []).
  { destruct Hl as [(-> & _)|[_ Hl]]; [done|]. intros _. by eapply clist_ext; [|exact Hl]. }
  assert (Hm5 : m ≠ NULL → chash s5 m ∅).
  { destruct Hm4 as [(-> & _)|[_ Hf]]; [done|]. intros _. by eapply chash_ext; [..|exact Hf]. }
  destruct (decide (l = NULL ∨ m = NULL)) as [Hor|Hor].
  - rewrite (undo_create s5 cache _ l m Hwf5 eq_refl ltac:(done) eq_refl).
    + eexists _, _. split; [done|]. split; [done|]. left. split_and!; [done| |done].
      intros H. destruct Hm4 as [(_ & _ & _ & Hbig)|[Hm0 _]]; [by apply Hbig, Hpl2, Hpl|].
      destruct Hl as [(_ & _ & Hnot)|[Hl0 _]]; [by destruct Hnot; apply Hpl|tauto].
    + destruct Hl as [(-> & -> & _)|[Hl0 _]]; [by left|right; auto].
    + destruct Hm4 as [(-> & -> & -> & _)|[Hm0 _]]; [by left|right; auto].
  - erewrite C_bind_Some by (by eapply set_cache_at). eexists _, _. split; [done|].
    split; [done|]. right. split; [done|].
    apply (holds_empty _ _ l m n); try done; [by eapply wf_set_cache| |].
    + eapply clist_ext; [|apply Hl5; tauto]. done.
    + eapply chash_ext; [..|apply Hm5; tauto]; done.
Qed.
(** *** Whether [lru_create] has a cache to return *)
(** The next allocation fails. *)
Definition fails (p : list bool) : bool := match p with false :: _ => true | _ => false end.

Lemma malloc_exact s :
  malloc s = Some (if fails (plan s) then NULL else brk s,
    set_alloc (if fails (plan s) then brk s else S (brk s)) (tail (plan s)) s).
Proof. unfold malloc. by destruct (plan s) as [|[]]. Qed.

Lemma plan_two (p : list bool) : Forall Is_true (take 2 p) ↔ fails p = false ∧ fails (tail p) = false.
Proof. destruct p as [|[] [|[] p]]; cbn; rewrite ?Forall_cons, ?Forall_nil; naive_solver. Qed.

Lemma plan_four (p : list bool) :
  Forall Is_true (take 4 p) ↔ fails p = false ∧ fails (tail p) = false ∧ Forall Is_true (take 2 (tail (tail p))).
Proof. destruct p as [|[] [|[] p]]; cbn; rewrite ?Forall_cons, ?Forall_nil; naive_solver. Qed.

Lemma list_create_null s :
  (0 < brk s)%nat → ∃ l s', list_create s = Some (l, s') ∧
    (l = NULL ↔ fails (plan s) = true) ∧ plan s' = tail (plan s) ∧ (brk s ≤ brk s')%nat.
Proof.
  intros Hb. unfold list_create. rewrite (C_bind_Some _ _ _ _ _ (malloc_exact s)).
  destruct (fails (plan s)).
  - rewrite decide_True by done. by eexists _, _.
  - rewrite decide_False by (unfold NULL; lia). eexists _, _. split; [reflexivity|]. cbn. unfold NULL.
    split; [split; [lia|done]|]. split; [done|lia].
Qed.

Lemma hash_map_create_null n s m s' :
  hash_map_create n s = Some (m, s') → 0 < n → (0 < brk s)%nat →
  m = NULL ↔ index_limit < n ∨ ¬ Forall Is_true (take 2 (plan s)).
Proof.
  unfold hash_map_create. intros H Hn Hb. rewrite (proj2 (Z.eqb_neq n 0)) in H by lia. cbn [orb] in H.
  change (SIZE_MAX `div` SIZEOF_PTR) with index_limit in H. rewrite plan_two.
  destruct (Z.ltb_spec index_limit n); [injection H; naive_solver|].
  rewrite (C_bind_Some _ _ _ _ _ (malloc_exact s)) in H. destruct (fails (plan s)).
  { rewrite decide_True in H by done. injection H. naive_solver. }
  rewrite decide_False in H by (unfold NULL; lia).
  rewrite (C_bind_Some _ _ _ _ _ (malloc_exact _)) in H. cbn [plan set_alloc brk] in H.
  erewrite C_bind_Some in H by reflexivity. destruct (fails (tail (plan s))).
  { rewrite decide_True in H by done. apply C_bind_inv in H as (? & ? & _ & H). injection H. naive_solver. }
  rewrite decide_False in H by (unfold NULL; lia). do 2 (erewrite C_bind_Some in H by reflexivity).
  injection H as <- _. split; [unfold NULL; lia|]. intros [?|[]]; [lia|done].
Qed.

Lemma lru_create_null p n cache s' :
  lru_create (Z.of_nat n) (empty_store p) = Some (cache, s') →
  cache = NULL ↔ index_limit < Z.max (Z.of_nat n) 1 ∨ ¬ Forall Is_true (take 4 p).
Proof.
  unfold lru_create. intros H. rewrite plan_four.
  rewrite (C_bind_Some _ _ _ _ _ (malloc_exact _)) in H. cbn [plan empty_store brk] in H. destruct (fails p).
  { rewrite decide_True in H by done. injection H. naive_solver. }
  rewrite decide_False in H by done. erewrite C_bind_Some in H by reflexivity.
  match type of H with (list_create ≫= _) ?s = _ => destruct (list_create_null s) as (l & s1 & Hl & Hnull & Hp & Hb); [cbn; lia|] end.
  rewrite (C_bind_Some _ _ _ _ _ Hl) in H. cbn [plan set_alloc set_caches empty_store brk] in *.
  erewrite C_bind_Some in H by reflexivity.
  apply C_bind_inv in H as (m & s2 & Hm & H). apply hash_map_create_null in Hm; [|destruct (Z.eqb_spec (Z.of_nat n) 0); lia|cbn; lia].
  cbn [plan set_caches] in Hm. rewrite Hp in Hm.
  assert (Hmax : (if Z.of_nat n =? 0 then 1 else Z.of_nat n) = Z.max (Z.of_nat n) 1) by (destruct (Z.eqb_spec (Z.of_nat n) 0); lia).
  rewrite Hmax in Hm. erewrite C_bind_Some in H by reflexivity. destruct (decide (l = NULL ∨ m = NULL)) as [Hor|Hor].
  - do 3 apply C_bind_inv in H as (? & ? & _ & H). injection H as <- _. split; [|done]. intros _.
    destruct (fails (tail p)); naive_solver.
  - erewrite C_bind_Some in H by reflexivity. injection H as <- _. split; [done|]. destruct (fails (tail p)); naive_solver.
Qed.

(** *** Destruction *)
Lemma evict_all_run fuel s cache cap sz xs :
  lc s cache cap sz xs → (length xs < fuel)%nat →
  ∃ s' sz', evict_all fuel cache s = Some ((), s') ∧ lc s' cache cap sz' [] ∧
    plan s' = plan s ∧ brk s' = brk s.
Proof.
  revert fuel s sz. induction xs as [|x xs IH] using rev_ind; intros [|fuel] s sz Hlc Hf; try lia;
    pose proof Hlc as [_ _ _ (l & m & Hcache & Hl & _) _ _ _ _]; csimpl;
    cstep_by (load_cache s cache _ Hcache); cbn [recency].
  - cstep_by (list_empty_run s l [] Hl). by exists s, sz.
  - cstep_by (list_empty_run s l _ Hl). rewrite bool_decide_eq_false_2.
    2: { rewrite fmap_app. by destruct (s_node <$> xs). }
    destruct (evict_run s cache cap sz xs x Hlc) as (s1 & Hrun & Hlc1 & Hp1 & Hb1 & _).
    cstep_by Hrun. rewrite length_app in Hf. csimpl in Hf.
    destruct (IH fuel s1 _ Hlc1) as (s2 & sz2 & Hrun2 & Hlc2 & Hp2 & Hb2); [lia|].
    exists s2, sz2. split_and!; [done..|congruence|congruence].
Qed.

(** The loop of [lru_destroy] ends, and every object of the cache is freed once. *)
Lemma lru_destroy_run s cache a :
  holds s cache a → lru_destroy cache s = Some ((), cleared s).
Proof.
  intros (xs & Hlc & Hle & _). unfold lru_destroy.
  rewrite (decide_False (P := cache = NULL)) by apply (lc_addr _ _ _ _ _ Hlc). cstep.
  destruct (evict_all_run (S (size (nodes s))) s cache _ _ xs Hlc)
    as (s1 & sz1 & Hrun & Hlc1 & Hp & Hb).
  { destruct (lc_parts _ _ _ _ _ Hlc) as (l & m & _ & Hl & _).
    rewrite <- (length_fmap s_node). by eapply clist_fuel. }
  cstep_by Hrun. pose proof Hlc1 as [Hwf _ H0 (l & m & Hcache & Hl & f & Hf & _) _ Hpg _ _].
  assert (Hpages : pages s1 = ∅).
  { apply dom_empty_inv_L, set_eq. intros p. rewrite Hpg. set_solver. }
  cstep_by (load_cache s1 cache _ Hcache). cbn [recency index].
  cstep_by (list_destroy_run s1 l _ Hl Hwf).
  erewrite C_bind_Some.
  2: { eapply destroy_run; [by eapply chash_ext; [..|exact Hf]|].
       eapply wf_shrink; [exact Hwf|done| |done..]. csimpl. set_solver. }
  erewrite free_cache; [|exact Hcache|done].
  unfold cleared. rewrite <- Hp, <- Hb. destruct s1. csimpl in *. by subst.
Qed.
End facts.

(** ** What [lookup_update] does, on every path *)

(** C2: on a cache that holds the items of an abstract least-recently-used cache,
    [lookup_update] is defined, whichever of its allocations fail, and either
    answers as the abstract cache does and moves to a store that holds its
    successor, or reports that there is no memory, in a store where the cache
    holds exactly what it held; it never reports an inconsistent index. *)
Theorem lookup_update_correct s cache (a : lru Z Z) key fetch :
  holds s cache a →
  ∃ out s', lookup_update cache key (Some fetch) true s = Some (out, s') ∧
    (plenty s → plenty s') ∧
    (out = (LRU_NO_MEMORY, None) ∧ ¬ plenty s ∧ holds s' cache a ∨
     ∃ hit page a', access fetch key a = (hit, page, a') ∧
       out = (if hit : bool then LRU_HIT else LRU_MISS, Some page) ∧ holds s' cache a').
Proof. apply lookup_update_run. Qed.

(** The cache of capacity 1 that [lru_create] makes when every allocation succeeds. *)
Definition sample : option (ptr * store) := lru_create (Z.of_nat 1) (empty_store []).
Definition sample_cache : ptr := default NULL (fst <$> sample).
Definition sample_store : store := default (empty_store []) (snd <$> sample).

Lemma sample_holds : holds sample_store sample_cache (Lru 1 []).
Proof.
  destruct (lru_create_run [] 1) as (cache & s & Hrun & _ & Hcases); [by unfold is_u64|].
  unfold sample_store, sample_cache, sample. rewrite Hrun. csimpl.
  destruct Hcases as [(_ & Hbig & _)|[_ Hh]]; [|done].
  specialize (Hbig (Forall_nil_2 _)). rewrite index_limit_eq in Hbig. lia.
Qed.

Lemma lookup_update_correct_witness :
  holds sample_store sample_cache (Lru 1 []) ∧
  ∃ out s', lookup_update sample_cache 5 (Some (λ k, k + 1)) true sample_store = Some (out, s') ∧
    (plenty sample_store → plenty s') ∧
    (out = (LRU_NO_MEMORY, None) ∧ ¬ plenty sample_store ∧ holds s' sample_cache (Lru 1 []) ∨
     ∃ hit page a', access (λ k, k + 1) 5 (Lru 1 []) = (hit, page, a') ∧
       out = (if hit : bool then LRU_HIT else LRU_MISS, Some page) ∧ holds s' sample_cache a').
Proof.
  split; [exact sample_holds|].
  exact (lookup_update_correct sample_store sample_cache (Lru 1 []) 5 (λ k, k + 1) sample_holds).
Defined.

(** C5: from an empty heap, [lru_create] yields a cache that holds nothing exactly when its
    four allocations succeed and the table fits into the address space; otherwise it returns
    null and has released whatever it had allocated. *)
Theorem lru_create_correct p n :
  is_u64 (Z.of_nat n) →
  ∃ cache s', lru_create (Z.of_nat n) (empty_store p) = Some (cache, s') ∧
    if decide (Z.max (Z.of_nat n) 1 <= index_limit ∧ Forall Is_true (take 4 p))
    then cache ≠ NULL ∧ holds s' cache (Lru n []) else cache = NULL ∧ s' = cleared s'.
Proof.
  intros Hn. destruct (lru_create_run p n Hn) as (cache & s' & Hrun & _ & Hcases).
  exists cache, s'. split; [done|]. apply lru_create_null in Hrun.
  case_decide as Hok; destruct Hcases as [(Hnull & _ & Hs)|[Hne Hh]]; try done.
  - apply Hrun in Hnull as [?|?]; [lia|tauto].
  - destruct Hne. apply Hrun. destruct (decide (index_limit < Z.max (Z.of_nat n) 1)); [by left|right]. intros ?. apply Hok. split; [lia|done].
Qed.

Lemma lru_create_correct_witness :
  is_u64 3 ∧ ∃ cache s', lru_create 3 (empty_store [true; false]) = Some (cache, s') ∧
    if decide (3 <= index_limit ∧ Forall Is_true [true; false])
    then cache ≠ NULL ∧ holds s' cache (Lru 3 []) else cache = NULL ∧ s' = cleared s'.
Proof.
  split; [by unfold is_u64|].
  exact (lru_create_correct [true; false] 3 ltac:(by unfold is_u64)).
Defined.

(** C4: [lru_destroy] terminates and frees the whole cache: nodes, entries, pages,
    buckets, table and list; nothing is freed twice and nothing is left. *)
Theorem lru_destroy_frees_all s cache a :
  holds s cache a → lru_destroy cache s = Some ((), cleared s).
Proof. apply lru_destroy_run. Qed.

Lemma lru_destroy_frees_all_witness :
  holds sample_store sample_cache (Lru 1 []) ∧
  lru_destroy sample_cache sample_store = Some ((), cleared sample_store).
Proof.
  split; [exact sample_holds|].
  exact (lru_destroy_frees_all sample_store sample_cache (Lru 1 []) sample_holds).
Defined.

(** ** [main.c] *)

(** The loader of the program; a store and the address of its cache. *)
Definition slow_get_page (key : Z) : Z := key.
#[global] Arguments slow_get_page : simpl never.
#[global] Arguments lookup_update : simpl never.
#[global] Arguments lru_destroy : simpl never.

Definition c_request (key : Z) (s : store * ptr) : option (option bool * (store * ptr)) :=
  match lookup_update s.2 key (Some slow_get_page) true s.1 with
  | Some ((result, _), s') =>
    Some (match result with LRU_HIT => Some true | LRU_MISS => Some false | _ => None end,
          (s', s.2))
  | None => None
  end.

Section program.
(** Which allocations succeed. *)
Variable allocations : list bool.

#[local] Instance c_ops : LruOps (store * ptr) := {
  LruSpec.lru_create n :=
    match lru_create n (empty_store allocations) with
    | Some (cache, s) => Some (if decide (cache = NULL) then None else Some (s, cache))
    | None => None
    end;
  lru_request := c_request;
  LruSpec.lru_destroy s :=
    match lru_destroy s.2 s.1 with Some _ => Some () | None => None end }.

#[local] Program Instance c_laws : LruLaws (store * ptr) := {
  lru_inv s := ∃ a, holds s.1 s.2 a;
  lru_plenty s := plenty s.1;
  lru_rep s a := holds s.1 s.2 a }.
Next Obligation.
  intros n [Hn Hmax]. pose proof (lru_create_run allocations (Z.to_nat n)) as Hrun.
  rewrite Z2Nat.id in Hrun by done.
  destruct Hrun as (cache & s & Hrun & _ & [(-> & _ & _)|[H0 Hh]]).
  { unfold is_u64, INT64_MAX in *. lia. }
  - exists None. split; [|done]. csimpl. by rewrite Hrun.
  - exists (Some (s, cache)). split; [|by intros ? [= <-]]. csimpl.
    rewrite Hrun. by rewrite decide_False.
Qed.
Next Obligation. intros [s cache] [a Hh]. csimpl in *. by rewrite (lru_destroy_run s cache a). Qed.
Next Obligation. intros s a Hh. by exists a. Qed.
Next Obligation.
  intros k [s cache] _ [a Hh]. csimpl in *. unfold c_request. csimpl.
  destruct (lookup_update_run s cache a k slow_get_page Hh) as (out & s' & -> & _ & Hcases).
  destruct out as [result v]. eexists _, _. split; [done|]. csimpl.
  destruct Hcases as [(_ & _ & Hh')|(hit & page & a' & _ & _ & Hh')]; by eexists.
Qed.
Next Obligation.
  intros k [s cache] a _ Hh Hpl. csimpl in *. unfold c_request. csimpl.
  destruct (lookup_update_run s cache a k slow_get_page Hh) as (out & s' & -> & Hpl' & Hcases).
  destruct Hcases as [(_ & Hnot & _)|(hit & page & a' & Ha & -> & Hh')]; [done|].
  change slow_get_page with (@id Z) in Ha. rewrite Ha.
  exists (s', cache). split; [by destruct hit|]. by split; [|apply Hpl'].
Qed.

Definition main : bool → C stream (Z * list Z) := main_c CRead.read_integer.

Lemma create_plenty n :
  Forall Is_true allocations → 0 <= n <= index_limit →
  ∃ s, LruSpec.lru_create n = Some (Some s) ∧ lru_plenty s.
Proof.
  intros Hall Hn. destruct (lru_create_run allocations (Z.to_nat n))
    as (cache & s & Hrun & Hpl & Hcases).
  { rewrite index_limit_eq in Hn. unfold is_u64. lia. }
  rewrite Z2Nat.id in Hrun by lia. exists (s, cache). split; [|by apply Hpl]. csimpl.
  rewrite Hrun. destruct Hcases as [(_ & Hbig & _)|[H0 _]].
  - specialize (Hbig Hall). rewrite index_limit_eq in *. lia.
  - by rewrite decide_False.
Qed.
End program.
#[local] Existing Instances c_ops c_laws.

(** C7: with enough memory, on an input that holds a capacity, a count and that
    many keys, the C program prints the number of requests whose key is among the
    [capacity] most recently requested distinct keys. *)
Theorem c_main_hits allocations text capacity ks stdout_ok :
  Forall Is_true allocations →
  reads text (capacity :: Z.of_nat (length ks) :: ks) → 0 <= capacity →
  Z.min capacity (Z.of_nat (length ks)) <= index_limit →
  ∃ st', main allocations stdout_ok (Stream text false false) =
    Some ((if stdout_ok then EXIT_SUCCESS else EXIT_FAILURE,
           [count_hits (lru_hits (Z.to_nat capacity) ks)]), st').
Proof.
  intros Hall Ht Hcap Hlim.
  destruct (create_plenty allocations (Z.min capacity (Z.of_nat (length ks))) Hall ltac:(lia))
    as (s & Hcreate & Hpl).
  by apply (main_c_hits _ text capacity ks s).
Qed.

Lemma c_main_hits_witness :
  reads (render sample_tokens) [2; 5; 7; 8; 7; 9; 8] ∧
  ∃ st', main [] true (Stream (render sample_tokens) false false) = Some ((0, [1]), st').
Proof.
  split; [exact sample_reads|].
  assert (Hlim : Z.min 2 5 <= index_limit) by by vm_compute.
  exact (c_main_hits [] (render sample_tokens) 2 [7; 8; 7; 9; 8] true
    (Forall_nil_2 _) sample_reads ltac:(lia) Hlim).
Defined.

(** C3: whatever the input and whichever allocations fail, the C program ends with
    a defined result: it dereferences no null or dangling pointer, frees nothing
    twice, indexes no array out of its bounds and overflows no signed integer. *)
Theorem c_main_total allocations stdout_ok st :
  ∃ r st', main allocations stdout_ok st = Some (r, st').
Proof. eapply main_c_total; [apply c_laws|apply c_reader_total]. Qed.
