(* ===== verification/LruNaive.v ===== *)
(** * [src/01-basics/lru-in-c-naive]: the cache in one function

    The nodes are one array; list pointers and chain pointers are subscripts of it, or
    [None] for null. The two lists of [main.c], through [prev] and [next] and through
    [hash_next], share the nodes. *)

From S2P Require Import Prelude LruSpec Input LruMain MixHash Chains Links.

Record Node := mkNode { value : Z; prev : option nat; next : option nat; hash_next : option nat }.

(** [nodes], [used] and the members of [Cache]. *)
Record Cache := mkCache {
  nodes : list Node;
  used : Z;
  head : option nat;
  tail : option nat;
  buckets : list (option nat);
  capacity : Z }.

Definition SIZEOF_NODE : Z := 32.
Definition SIZEOF_PTR : Z := 8.

Definition set_nodes ns c := mkCache ns (used c) (head c) (tail c) (buckets c) (capacity c).
Definition set_head p : C Cache () :=
  modify (λ c, mkCache (nodes c) (used c) p (tail c) (buckets c) (capacity c)).
Definition set_tail p : C Cache () :=
  modify (λ c, mkCache (nodes c) (used c) (head c) p (buckets c) (capacity c)).
Definition set_used n : C Cache () :=
  modify (λ c, mkCache (nodes c) n (head c) (tail c) (buckets c) (capacity c)).

Definition load (x : nat) : C Cache Node := c ← get; of_option (nodes c !! x).
Definition store (x : nat) (n : Node) : C Cache () :=
  _ ← load x; modify (λ c, set_nodes (<[x := n]> (nodes c)) c).
Definition set_prev (x : nat) p : C Cache () := n ← load x; store x (mkNode (value n) p (next n) (hash_next n)).
Definition set_next (x : nat) p : C Cache () := n ← load x; store x (mkNode (value n) (prev n) p (hash_next n)).
Definition set_value (x : nat) v : C Cache () := n ← load x; store x (mkNode v (prev n) (next n) (hash_next n)).
Definition set_hash_next (x : nat) p : C Cache () := n ← load x; store x (mkNode (value n) (prev n) (next n) p).

Definition read_bucket (i : Z) : C Cache (option nat) := c ← get; of_option (buckets c !! Z.to_nat i).
Definition write_bucket (i : Z) (p : option nat) : C Cache () :=
  _ ← read_bucket i;
  modify (λ c, mkCache (nodes c) (used c) (head c) (tail c) (<[Z.to_nat i := p]> (buckets c)) (capacity c)).

(** [*link] of a [Node **] *)
Definition read_link (lk : link) : C Cache (option nat) :=
  match lk with Bucket i => read_bucket (Z.of_nat i) | NextOf x => n ← load x; mret (hash_next n) end.
Definition write_link (lk : link) (p : option nat) : C Cache () :=
  match lk with Bucket i => write_bucket (Z.of_nat i) p | NextOf x => set_hash_next x p end.

Definition unlink_node (node : nat) : C Cache () :=
  n ← load node;
  match prev n with Some p => set_next p (next n) | None => set_head (next n) end;;
  n ← load node;
  match next n with Some q => set_prev q (prev n) | None => set_tail (prev n) end.

Definition prepend (node : nat) : C Cache () :=
  set_prev node None;;
  c ← get;
  set_next node (head c);;
  c ← get;
  match head c with Some h => set_prev h (Some node) | None => set_tail (Some node) end;;
  set_head (Some node).

(** [while (node && node->value != value) node = node->hash_next;] *)
Fixpoint find_from (fuel : nat) (v : Z) (node : option nat) : C Cache (option nat) :=
  match fuel with
  | O => undefined
  | S fuel =>
    match node with
    | None => mret None
    | Some x => n ← load x; if value n =? v then mret (Some x) else find_from fuel v (hash_next n)
    end
  end.

(** [while ( *link != node) link = &( *link)->hash_next;] *)
Fixpoint seek (fuel : nat) (node : nat) (lk : link) : C Cache link :=
  match fuel with
  | O => undefined
  | S fuel =>
    p ← read_link lk;
    if decide (p = Some node) then mret lk
    else match p with Some y => seek fuel node (NextOf y) | None => undefined end
  end.

(** The least recently used node, out of its chain and of the list. *)
Definition reuse : C Cache nat :=
  c ← get;
  node ← of_option (tail c);
  n ← load node;
  let old_bucket := bucket_for (capacity c) (value n) in
  lk ← seek (S (length (nodes c))) node (Bucket (Z.to_nat old_bucket));
  n ← load node;
  write_link lk (hash_next n);;
  unlink_node node;;
  mret node.

(** The body of the loop of [main]: is the value in the cache? *)
Definition request (v : Z) : C Cache bool :=
  c ← get;
  if capacity c =? 0 then mret false
  else
    let bucket := bucket_for (capacity c) v in
    p ← read_bucket bucket;
    found ← find_from (S (length (nodes c))) v p;
    match found with
    | Some node => unlink_node node;; prepend node;; mret true
    | None =>
      node ← (if used c <? capacity c then (set_used (used c + 1);; mret (Z.to_nat (used c))) else reuse);
      set_value node v;;
      h ← read_bucket bucket;
      set_hash_next node h;;
      write_bucket bucket (Some node);;
      prepend node;;
      mret false
    end.

(** ** The program *)

(** [scanf] of a 64-bit integer: the longest prefix that is one. The conversion of a
    number out of range is undefined. *)
Definition scan : C stream (option Z) :=
  s ← get;
  let cs := CxxRead.skip_ws (pending s) in
  let '(negative, cs) :=
    match cs with
    | c :: cs' => if c =? 45 then (true, cs') else if c =? 43 then (false, cs') else (false, cs)
    | [] => (false, [])
    end in
  let '(ds, rest) := CxxRead.span_digits cs in
  put (Stream rest (broken s) (error s || (bool_decide (rest = []) && broken s)));;
  let v := if negative then - CxxRead.digits_value ds else CxxRead.digits_value ds in
  if bool_decide (ds = []) then mret None
  else if (INT64_MIN <=? v) && (v <=? INT64_MAX) then mret (Some v) else undefined.

(** [calloc]: whether it succeeds is the head of the list. *)
Definition calloc_ok (allocations : list bool) : bool * list bool :=
  match allocations with [] => (true, []) | b :: l => (b, l) end.

Definition zero_node : Node := mkNode 0 None None None.

(** The checks and allocations before the loop. *)
Definition create (allocations : list bool) (limit : Z) : option Cache :=
  if (SIZE_MAX `div` SIZEOF_NODE <? limit) || (SIZE_MAX `div` SIZEOF_PTR <? limit) then None
  else if limit =? 0 then Some (mkCache [] 0 None None [] 0)
  else
    let '(ok1, allocations) := calloc_ok allocations in
    let '(ok2, allocations) := calloc_ok allocations in
    if negb ok1 || negb ok2 then None
    else Some (mkCache (replicate (Z.to_nat limit) zero_node) 0 None None (replicate (Z.to_nat limit) None) limit).

(** [free(nodes); free(cache.buckets);] *)
Definition release : C Cache () :=
  modify (λ c, mkCache [] (used c) (head c) (tail c) [] (capacity c)).

Section program.
Variable allocations : list bool.

#[local] Instance naive_ops : LruOps Cache := {
  lru_create n := Some (create allocations n);
  lru_request k s := match request k s with Some (h, s) => Some (Some h, s) | None => None end;
  lru_destroy s := fst <$> release s }.

(** [printf] is not checked. *)
Definition main : C stream (Z * list Z) := main_c scan true.
End program.

(** ** The recency list

    With the two ends of the list as a sentinel, [unlink_node] and [prepend] are the
    operations on rings of [Links]. *)
Abbreviation lnode := (Links.node (option nat) ()) (only parsing).

Definition node_links (n : Node) : Links.node (option nat) () := Links.Node (prev n) (next n) ().
Definition heap_of (c : Cache) : gmap (option nat) (Links.node (option nat) ()) :=
  <[None := Links.Node (tail c) (head c) ()]> (kmap Some (map_seq 0 (node_links <$> nodes c) : gmap nat _)).

(** Everything but the list. *)
Definition frame (c : Cache) : list (Z * option nat) * Z * list (option nat) * Z :=
  ((λ n, (value n, hash_next n)) <$> nodes c, used c, buckets c, capacity c).

Section list.
Implicit Types (c : Cache) (x : nat) (p q : option nat).

Lemma heap_none c : heap_of c !! None = Some (Links.Node (tail c) (head c) ()).
Proof. unfold heap_of. by rewrite lookup_insert_eq. Qed.

Lemma heap_some c x : heap_of c !! Some x = node_links <$> nodes c !! x.
Proof.
  unfold heap_of. rewrite lookup_insert_ne by done. rewrite lookup_kmap by apply _.
  by rewrite lookup_map_seq_0, list_lookup_fmap.
Qed.

Lemma heap_set_node c x n :
  is_Some (nodes c !! x) →
  heap_of (set_nodes (<[x := n]> (nodes c)) c) = <[Some x := node_links n]> (heap_of c).
Proof.
  intros [m Hm]. apply map_eq. intros [z|].
  - rewrite heap_some. cbn [nodes set_nodes]. destruct (decide (z = x)) as [->|Hne].
    + rewrite list_lookup_insert_eq by (by eapply lookup_lt_Some). by rewrite lookup_insert_eq.
    + rewrite list_lookup_insert_ne, lookup_insert_ne by congruence. by rewrite heap_some.
  - rewrite lookup_insert_ne by done. by rewrite !heap_none.
Qed.

Lemma frame_set_node c x n m :
  nodes c !! x = Some m → value n = value m → hash_next n = hash_next m →
  frame (set_nodes (<[x := n]> (nodes c)) c) = frame c.
Proof.
  intros Hm Hv Hh. unfold frame. cbn. do 3 f_equal. apply list_eq. intros z.
  rewrite !list_lookup_fmap. destruct (decide (z = x)) as [->|Hne].
  - rewrite list_lookup_insert_eq by (by eapply lookup_lt_Some). rewrite Hm. cbn. congruence.
  - by rewrite list_lookup_insert_ne by done.
Qed.

Lemma naive_load_run c x n : nodes c !! x = Some n → load x c = Some (n, c).
Proof. intros Hn. unfold load. cunfold. by rewrite Hn. Qed.

Lemma store_run c x n m : nodes c !! x = Some m → store x n c = Some ((), set_nodes (<[x := n]> (nodes c)) c).
Proof. intros Hn. unfold store. by cstep_by (naive_load_run c x m Hn). Qed.

Lemma deref_heap c x n h :
  deref (Some x) (heap_of c) = Some (n, h) →
  h = heap_of c ∧ ∃ m, nodes c !! x = Some m ∧ n = node_links m ∧ load x c = Some (m, c).
Proof.
  unfold deref. cunfold. rewrite heap_some. destruct (nodes c !! x) as [m|] eqn:Hm; cbn; [|done].
  intros [= <- <-]. split; [done|]. exists m. split; [done|]. split; [done|]. by apply naive_load_run.
Qed.

Lemma deref_ends c n h :
  deref None (heap_of c) = Some (n, h) → h = heap_of c ∧ n = Links.Node (tail c) (head c) ().
Proof. unfold deref. cunfold. rewrite heap_none. by intros [= <- <-]. Qed.

(** Writing a link of a node, or an end of the list. *)
Definition link_next p q : C Cache () := match p with Some x => set_next x q | None => set_head q end.
Definition link_prev p q : C Cache () := match p with Some x => set_prev x q | None => set_tail q end.

Lemma link_next_run c p q h :
  Links.set_next p q (heap_of c) = Some ((), h) →
  ∃ c', link_next p q c = Some ((), c') ∧ heap_of c' = h ∧ frame c' = frame c.
Proof.
  unfold Links.set_next. destruct (deref p (heap_of c)) as [[n h1]|] eqn:Hd;
    [rewrite (C_bind_Some _ _ _ _ _ Hd)|by rewrite (C_bind_None _ _ _ Hd)].
  intros [= <-]. destruct p as [x|]; cbn [link_next].
  - apply deref_heap in Hd as (-> & m & Hm & -> & Hl). eexists. unfold set_next.
    rewrite (C_bind_Some _ _ _ _ _ Hl). split; [by eapply store_run|]. rewrite heap_set_node by done.
    split; [done|]. by eapply frame_set_node.
  - apply deref_ends in Hd as [-> ->]. eexists. split; [done|].
    split; [|done]. unfold heap_of. cbn. by rewrite insert_insert_eq.
Qed.

Lemma link_prev_run c p q h :
  Links.set_prev p q (heap_of c) = Some ((), h) →
  ∃ c', link_prev p q c = Some ((), c') ∧ heap_of c' = h ∧ frame c' = frame c.
Proof.
  unfold Links.set_prev. destruct (deref p (heap_of c)) as [[n h1]|] eqn:Hd;
    [rewrite (C_bind_Some _ _ _ _ _ Hd)|by rewrite (C_bind_None _ _ _ Hd)].
  intros [= <-]. destruct p as [x|]; cbn [link_prev].
  - apply deref_heap in Hd as (-> & m & Hm & -> & Hl). eexists. unfold set_prev.
    rewrite (C_bind_Some _ _ _ _ _ Hl). split; [by eapply store_run|]. rewrite heap_set_node by done.
    split; [done|]. by eapply frame_set_node.
  - apply deref_ends in Hd as [-> ->]. eexists. split; [done|].
    split; [|done]. unfold heap_of. cbn. by rewrite insert_insert_eq.
Qed.

Lemma bind_inv {S A B} (m : C S A) (k : A → C S B) s r :
  (m ≫= k) s = Some r → ∃ a s', m s = Some (a, s') ∧ k a s' = Some r.
Proof. unfold mbind, C_bind. destruct (m s) as [[a s']|]; [|done]. eauto. Qed.

Lemma unlink_run c x h :
  detach (Some x) (heap_of c) = Some ((), h) →
  ∃ c', unlink_node x c = Some ((), c') ∧ heap_of c' = h ∧ frame c' = frame c.
Proof.
  unfold detach, unlink_node. intros (n & h1 & Hd & (u & h2 & Hs & (n2 & h3 & Hd2 & Hp)%bind_inv)%bind_inv)%bind_inv.
  apply deref_heap in Hd as (-> & m & _ & -> & Hl). rewrite (C_bind_Some _ _ _ _ _ Hl). destruct u.
  apply link_next_run in Hs as (c1 & Hr1 & <- & Hf1). cbn [node_links Links.prev Links.next] in Hr1.
  unfold link_next in Hr1. rewrite (C_bind_Some _ _ _ _ _ Hr1).
  apply deref_heap in Hd2 as (-> & m2 & _ & -> & Hl2). rewrite (C_bind_Some _ _ _ _ _ Hl2).
  apply link_prev_run in Hp as (c2 & Hr2 & <- & Hf2). exists c2. split; [done|]. split; [done|]. congruence.
Qed.

Lemma set_next_inv c x p c' :
  set_next x p c = Some ((), c') →
  ∃ n, nodes c' !! x = Some (mkNode (value n) (prev n) p (hash_next n)) ∧ head c' = head c.
Proof.
  unfold set_next, store, load, set_nodes. cunfold.
  destruct (nodes c !! x) as [n|] eqn:Hn; [|done]. rewrite Hn. intros [= <-]. exists n. cbn. split; [|done].
  by rewrite list_lookup_insert_eq by (by eapply lookup_lt_Some).
Qed.

Lemma prepend_sim c x h :
  Links.prepend None (Some x) (heap_of c) = Some ((), h) →
  ∃ c', prepend x c = Some ((), c') ∧ heap_of c' = h ∧ frame c' = frame c.
Proof.
  unfold Links.prepend, prepend.
  intros (u1 & h1 & H1 & (s & h2 & H2 & (u2 & h3 & H3 & (n & h4 & H4 & (u4 & h5 & H5 & H6)%bind_inv)%bind_inv)%bind_inv)%bind_inv)%bind_inv.
  destruct u1, u2, u4. apply link_prev_run in H1 as (c1 & R1 & <- & F1). cbn [link_prev] in R1.
  rewrite (C_bind_Some _ _ _ _ _ R1). cstep.
  apply deref_ends in H2 as [-> ->]. cbn [Links.next] in H3.
  apply link_next_run in H3 as (c2 & R2 & <- & F2). cbn [link_next] in R2.
  rewrite (C_bind_Some _ _ _ _ _ R2). cstep.
  destruct (set_next_inv _ _ _ _ R2) as (m & Hm1 & Hhead).
  apply deref_heap in H4 as (-> & m' & Hm & -> & _). rewrite Hhead.
  assert (Hnx : next m' = head c1) by (rewrite Hm1 in Hm; by simplify_eq).
  cbn [node_links Links.next] in H5. rewrite Hnx in H5.
  apply link_prev_run in H5 as (c3 & R3 & <- & F3). unfold link_prev in R3. rewrite (C_bind_Some _ _ _ _ _ R3).
  apply link_next_run in H6 as (c4 & R4 & <- & F4). cbn [link_next] in R4.
  exists c4. split; [exact R4|]. split; [done|]. congruence.
Qed.
End list.

(** ** The whole cache *)
Definition links_of (c : Cache) (x : nat) : option (option nat) := hash_next <$> nodes c !! x.
Definition key_of (c : Cache) (x : nat) : Z := default 0 (value <$> nodes c !! x).

(** The nodes [xs] are in the list, the most recent first, and in the chains. *)
Record rep0 (c : Cache) (n : nat) (xs : list nat) (bs : list (list nat)) : Prop := {
  r_nodes : length (nodes c) = n;
  r_capacity : capacity c = Z.of_nat n;
  r_ring : ring (heap_of c) None (Some <$> xs);
  r_table : table (links_of c) (key_of c) (capacity c) (buckets c) bs;
  r_members : mjoin bs ≡ₚ xs;
  r_keys : NoDup (key_of c <$> xs) }.

(** The nodes in use are the first ones of the array. *)
Record rep (c : Cache) (n : nat) (xs : list nat) (bs : list (list nat)) : Prop := {
  r_rep0 : rep0 c n xs bs;
  r_used : used c = Z.of_nat (length xs);
  r_first : xs ≡ₚ seq 0 (length xs);
  r_room : (length xs ≤ n)%nat }.

Section facts.
Implicit Types (c : Cache) (x : nat) (xs b : list nat) (bs : list (list nat)).

Lemma frame_inv c c' :
  frame c' = frame c →
  length (nodes c') = length (nodes c) ∧ (∀ x, links_of c' x = links_of c x) ∧ (∀ x, key_of c' x = key_of c x) ∧
  used c' = used c ∧ buckets c' = buckets c ∧ capacity c' = capacity c.
Proof.
  unfold frame. intros [= Hn Hu Hb Hc].
  assert (Hl : ∀ x, (λ n, (value n, hash_next n)) <$> nodes c' !! x = (λ n, (value n, hash_next n)) <$> nodes c !! x).
  { intros x. by rewrite <- !list_lookup_fmap, Hn. }
  split_and!; [by rewrite <- (length_fmap (λ n, (value n, hash_next n))), Hn, length_fmap| | |done..];
    intros x; specialize (Hl x); unfold links_of, key_of;
    destruct (nodes c' !! x), (nodes c !! x); cbn in *; congruence.
Qed.

Lemma rep0_relist c c' n xs xs' bs :
  rep0 c n xs bs → frame c' = frame c → ring (heap_of c') None (Some <$> xs') → xs' ≡ₚ xs → rep0 c' n xs' bs.
Proof.
  intros [H1 H2 H3 [T1 T2 T3 T4] H5 H6] (Hn & Hl & Hk & Hu & Hb & Hc)%frame_inv Hr Hp.
  split; [congruence|congruence|done| |by rewrite Hp|].
  - rewrite Hc, Hb. split; [done| |done|].
    + eapply Forall2_impl; [exact T2|]. intros p b. by apply chain_ext.
    + intros i b x Hi Hx. rewrite Hk. by eapply T4.
  - rewrite Hp. replace (key_of c' <$> xs) with (key_of c <$> xs); [done|].
    apply list_fmap_ext. intros i x _. by rewrite Hk.
Qed.

Lemma in_range c xs x : ring (heap_of c) None (Some <$> xs) → x ∈ xs → (x < length (nodes c))%nat.
Proof.
  intros Hr Hx. assert (Hd : Some x ∈ dom (heap_of c)).
  { eapply ring_dom; [exact Hr|]. right. by apply list_elem_of_fmap_2. }
  apply elem_of_dom in Hd as [m Hm]. rewrite heap_some in Hm.
  apply fmap_Some_1 in Hm as (n & Hn & _). by eapply lookup_lt_Some.
Qed.

Lemma fresh_dom c x : (x < length (nodes c))%nat → Some x ∈ dom (heap_of c).
Proof.
  intros Hx. apply elem_of_dom. rewrite heap_some. destruct (lookup_lt_is_Some_2 _ _ Hx) as [n ->]. by eexists.
Qed.

Lemma members_bound xs n : NoDup xs → (∀ x, x ∈ xs → (x < n)%nat) → (length xs ≤ n)%nat.
Proof.
  intros Hnd Hx. rewrite <- (length_seq n 0). apply submseteq_length, NoDup_submseteq; [done|].
  intros x Hin%Hx. apply elem_of_seq. lia.
Qed.

Lemma ring_slots c xs : ring (heap_of c) None (Some <$> xs) → NoDup xs.
Proof. intros [Hnd _ _]. apply NoDup_cons in Hnd as [_ Hnd]. by apply NoDup_fmap_1 in Hnd. Qed.

Lemma bucket_bound c n xs bs i b :
  rep0 c n xs bs → bs !! i = Some b → (length b ≤ length (nodes c))%nat.
Proof.
  intros [H1 H2 H3 H4 H5 H6] Hb. destruct (join_insert bs i b b Hb) as (rest & Hj & _).
  apply members_bound.
  - pose proof (tb_nodup _ _ _ _ _ H4) as Hnd. rewrite Hj in Hnd. by apply NoDup_app in Hnd as [? _].
  - intros x Hx. eapply in_range; [exact H3|]. rewrite <- H5, Hj. set_solver.
Qed.

(** *** Chains *)
Lemma naive_find_run c v fuel p b :
  chain (links_of c) p b → (length b < fuel)%nat →
  find_from fuel v p c = Some (search (key_of c) v b, c).
Proof.
  revert p fuel. induction b as [|x b IH]; intros p [|fuel] Hc Hf; cbn in *; try lia.
  - by subst p.
  - destruct Hc as (-> & q & Hq & Hc). rewrite search_cons.
    unfold links_of in Hq. apply fmap_Some_1 in Hq as (n & Hn & ->).
    rewrite (C_bind_Some _ _ _ _ _ (naive_load_run c x n Hn)).
    assert (Hk : key_of c x = value n) by (unfold key_of; by rewrite Hn). rewrite Hk.
    destruct (Z.eqb_spec (value n) v) as [->|Hne]; [by rewrite decide_True|].
    rewrite decide_False by done. apply IH; [done|lia].
Qed.

Lemma naive_read_bucket_run c k p : buckets c !! home (capacity c) k = Some p →
  read_bucket (bucket_for (capacity c) k) c = Some (p, c).
Proof. intros Hp. unfold read_bucket. cstep. unfold of_option, home in *. by rewrite Hp. Qed.

Lemma naive_seek_run c x b1 b2 fuel lk p :
  read_link lk c = Some (p, c) → chain (links_of c) p (b1 ++ x :: b2) → x ∉ b1 → (length b1 < fuel)%nat →
  seek fuel x lk c = Some (match last b1 with Some y => NextOf y | None => lk end, c).
Proof.
  revert fuel lk p. induction b1 as [|y b1 IH]; intros [|fuel] lk p Hlk Hc Hx Hf; cbn in *; try lia;
    rewrite (C_bind_Some _ _ _ _ _ Hlk).
  - destruct Hc as (-> & _). by rewrite decide_True.
  - destruct Hc as (-> & q & Hq & Hc). apply not_elem_of_cons in Hx as [Hxy Hx].
    rewrite decide_False by congruence. rewrite (IH fuel (NextOf y) q); [| |done|done|lia].
    + change (match b1 with [] => Some y | _ :: _ => last b1 end) with (last (y :: b1)). rewrite last_cons.
      by destruct (last b1).
    + cbn. unfold links_of in Hq. apply fmap_Some_1 in Hq as (n & Hn & ->).
      by rewrite (C_bind_Some _ _ _ _ _ (naive_load_run c y n Hn)).
Qed.
End facts.

Section requests.
Implicit Types (c : Cache) (x : nat) (xs ys b : list nat) (bs : list (list nat)).

(** Moving a node to the front. *)
Lemma move_run c n xs1 x xs2 bs :
  rep0 c n (xs1 ++ x :: xs2) bs →
  ∃ c', (unlink_node x;; prepend x) c = Some ((), c') ∧ frame c' = frame c ∧ rep0 c' n (x :: xs1 ++ xs2) bs.
Proof.
  intros Hr. pose proof (r_ring _ _ _ _ Hr) as Hring. rewrite fmap_app, fmap_cons in Hring.
  assert (Hnd := ring_nodup _ _ _ Hring).
  destruct (detach_run _ _ _ _ _ Hring) as (h1 & Hd & Hring1 & Hs1).
  destruct (unlink_run c x h1 Hd) as (c1 & R1 & <- & F1).
  destruct (prepend_run (heap_of c1) None (Some x) ((Some <$> xs1) ++ (Some <$> xs2))) as (h2 & Hp & Hring2 & Hs2); [done| | |].
  - apply NoDup_cons in Hnd as [_ Hnd]. apply NoDup_app in Hnd as (_ & N2 & N3). apply NoDup_cons in N3 as [N3 _].
    rewrite not_elem_of_cons, not_elem_of_app. split; [done|]. split; [|done]. intros Hx. apply (N2 _ Hx). left.
  - eapply same_nodes_dom; [exact Hs1|]. eapply ring_dom; [exact Hring|]. right. apply elem_of_app. right. left.
  - destruct (prepend_sim c1 x h2 Hp) as (c2 & R2 & <- & F2). exists c2. rewrite (C_bind_Some _ _ _ _ _ R1).
    split; [done|]. split; [congruence|]. eapply rep0_relist; [exact Hr|congruence| |].
    + by rewrite fmap_cons, fmap_app.
    + by rewrite Permutation_middle.
Qed.

(** A node that is in no list gets the value [v] and is put in front of its bucket and of the list. *)
(** The writes of a miss before the slot [x] is linked into the list. *)
Lemma install_writes {A} c x v m p (k : C Cache A) :
  nodes c !! x = Some m → buckets c !! home (capacity c) v = Some p →
  (set_value x v;; h ← read_bucket (bucket_for (capacity c) v); set_hash_next x h;;
    write_bucket (bucket_for (capacity c) v) (Some x);; k) c =
  k (mkCache (<[x := mkNode v (prev m) (next m) p]> (nodes c)) (used c) (head c) (tail c)
      (<[home (capacity c) v := Some x]> (buckets c)) (capacity c)).
Proof.
  intros Hmx Hp. assert (Hlt := lookup_lt_Some _ _ _ Hmx).
  set (c1 := set_nodes (<[x := mkNode v (prev m) (next m) (hash_next m)]> (nodes c)) c).
  assert (R1 : set_value x v c = Some ((), c1)).
  { unfold set_value. rewrite (C_bind_Some _ _ _ _ _ (naive_load_run c x m Hmx)). by eapply store_run. }
  rewrite (C_bind_Some _ _ _ _ _ R1).
  assert (R2 : read_bucket (bucket_for (capacity c) v) c1 = Some (p, c1)) by exact (naive_read_bucket_run c1 v p Hp).
  rewrite (C_bind_Some _ _ _ _ _ R2).
  set (c2 := set_nodes (<[x := mkNode v (prev m) (next m) p]> (nodes c)) c).
  assert (Hx1 : nodes c1 !! x = Some (mkNode v (prev m) (next m) (hash_next m)))
    by (cbn; by rewrite list_lookup_insert_eq by lia).
  assert (R3 : set_hash_next x p c1 = Some ((), c2)).
  { unfold set_hash_next. rewrite (C_bind_Some _ _ _ _ _ (naive_load_run c1 x _ Hx1)).
    erewrite store_run by exact Hx1. unfold c1, c2, set_nodes. cbn. by rewrite list_insert_insert_eq. }
  rewrite (C_bind_Some _ _ _ _ _ R3). unfold write_bucket.
  rewrite C_bind_assoc. by rewrite (C_bind_Some _ _ _ _ _ (naive_read_bucket_run c2 v p Hp)).
Qed.

Lemma install_run c n x ys bs v :
  rep0 c n ys bs → (0 < n)%nat → x ∉ ys → (x < n)%nat → v ∉ key_of c <$> ys →
  ∃ c' bs', (let bucket := bucket_for (capacity c) v in
      set_value x v;; h ← read_bucket bucket; set_hash_next x h;; write_bucket bucket (Some x);; prepend x;; mret false) c = Some (false, c') ∧
    rep0 c' n (x :: ys) bs' ∧ used c' = used c ∧ key_of c' x = v ∧ (∀ y, y ≠ x → key_of c' y = key_of c y).
Proof.
  intros Hr Hn Hx Hxn Hv. pose proof Hr as [Hnodes Hcap Hring Ht Hm Hk].
  destruct (lookup_lt_is_Some_2 (nodes c) x) as [m Hmx]; [lia|].
  destruct (table_bucket _ _ _ _ _ v Ht) as (p & b & Hp & Hb & _). cbv zeta.
  rewrite (install_writes c x v m p _ Hmx Hp). set (i := home (capacity c) v). set (c3 := mkCache _ _ _ _ _ _).
  assert (Hheap : heap_of c3 = heap_of c).
  { transitivity (heap_of (set_nodes (nodes c3) c)); [done|]. cbn. rewrite heap_set_node by done.
    apply insert_id. rewrite heap_some, Hmx. done. }
  assert (Hlx : links_of c3 x = Some p) by (unfold links_of; cbn; by rewrite list_lookup_insert_eq by lia).
  assert (Hkx : key_of c3 x = v) by (unfold key_of; cbn; by rewrite list_lookup_insert_eq by lia).
  assert (Hother : ∀ y, y ≠ x → links_of c3 y = links_of c y ∧ key_of c3 y = key_of c y).
  { intros y Hy. unfold links_of, key_of. cbn. by rewrite list_lookup_insert_ne. }
  assert (Hxm : x ∉ mjoin bs) by (by rewrite Hm).
  destruct (table_insert _ (links_of c3) _ (key_of c3) _ _ _ x p Ht Hxm) as (b' & Hb' & _ & Ht3 & Hm3);
    rewrite ?Hkx; [exact Hp|exact Hlx| |].
  { intros z Hz. apply Hother. by intros ->. }
  rewrite Hkx in Hb', Ht3, Hm3. fold i in Hb', Ht3, Hm3.
  destruct (prepend_run (heap_of c) None (Some x) (Some <$> ys)) as (h & Hpre & Hring4 & Hs4); [done| | |].
  { rewrite not_elem_of_cons. split; [done|]. intros (y & [= <-] & Hy)%list_elem_of_fmap. done. }
  { apply fresh_dom. lia. }
  rewrite <- Hheap in Hpre. destruct (prepend_sim c3 x h Hpre) as (c4 & R5 & <- & F5).
  exists c4, (<[i := x :: b']> bs). split; [by rewrite (C_bind_Some _ _ _ _ _ R5)|].
  assert (Hr3 : frame c4 = frame c3 → used c4 = used c ∧ (∀ y, key_of c4 y = key_of c3 y)).
  { intros (_ & _ & Hkk & Hu & _)%frame_inv. done. }
  destruct (Hr3 F5) as [Hu4 Hk4].
  split; [|split; [done|split; [by rewrite Hk4|intros y Hy; rewrite Hk4; by apply Hother]]].
  apply frame_inv in F5 as (Hlen & Hl & Hkk & _ & Hbk & Hcp). split.
  - rewrite Hlen. cbn. by rewrite length_insert.
  - by rewrite Hcp.
  - done.
  - rewrite Hcp, Hbk. destruct Ht3 as [T1 T2 T3 T4]. split; [done| |done|].
    + eapply Forall2_impl; [exact T2|]. intros q l. by apply chain_ext.
    + intros j l z Hj Hz. rewrite Hkk. by eapply T4.
  - rewrite Hm3. by rewrite Hm.
  - rewrite fmap_cons, Hkk, Hkx. assert (Hys : key_of c4 <$> ys = key_of c <$> ys).
    { apply list_fmap_ext. intros j y Hy%list_elem_of_lookup_2. rewrite Hkk. apply Hother. by intros ->. }
    rewrite Hys. by apply NoDup_cons.
Qed.
End requests.

Section eviction.
Implicit Types (c : Cache) (x : nat) (xs ys b : list nat) (bs : list (list nat)).

Lemma tail_run c ys x : ring (heap_of c) None (Some <$> ys ++ [x]) → tail c = Some x.
Proof.
  intros [_ _ Hp]. apply seg_first in Hp. unfold prev_of in Hp. rewrite heap_none in Hp. cbn in Hp.
  rewrite fmap_app, reverse_app in Hp. cbn in Hp. congruence.
Qed.

(** Unlinking from the chain. *)
Lemma unchain_run c n xs x bs b1 b2 m :
  rep0 c n xs bs → nodes c !! x = Some m → let i := home (capacity c) (key_of c x) in
  bs !! i = Some (b1 ++ x :: b2) →
  ∃ c', write_link (match last b1 with Some y => NextOf y | None => Bucket i end) (hash_next m) c = Some ((), c') ∧
    heap_of c' = heap_of c ∧ length (nodes c') = length (nodes c) ∧ used c' = used c ∧ capacity c' = capacity c ∧
    (∀ y, key_of c' y = key_of c y) ∧
    table (links_of c') (key_of c') (capacity c) (buckets c') (<[i := b1 ++ b2]> bs) ∧
    mjoin bs ≡ₚ x :: mjoin (<[i := b1 ++ b2]> bs).
Proof.
  intros Hr Hmx i Hb. pose proof Hr as [Hnodes Hcap Hring Ht Hmem Hk].
  destruct (Forall2_lookup_r _ _ _ _ _ (tb_chains _ _ _ _ _ Ht) Hb) as (p & Hp & Hc).
  destruct (chain_middle _ _ _ _ _ Hc) as (q & Hq & _ & Hq2).
  assert (Hqm : hash_next m = q) by (unfold links_of in Hq; rewrite Hmx in Hq; by injection Hq).
  destruct (last b1) as [y|] eqn:Hlast; cbn [write_link].
  - assert (Hy : ∃ ny, nodes c !! y = Some ny).
    { apply last_Some in Hlast as [b1' ->]. rewrite <- app_assoc in Hc.
      apply chain_middle in Hc as (q' & Hq' & _). unfold links_of in Hq'.
      apply fmap_Some_1 in Hq' as (ny & Hny & _). eauto. }
    destruct Hy as [ny Hny]. set (ny' := mkNode (value ny) (prev ny) (next ny) (hash_next m)).
    exists (set_nodes (<[y := ny']> (nodes c)) c). split.
    { unfold set_hash_next. rewrite (C_bind_Some _ _ _ _ _ (naive_load_run c y ny Hny)). by eapply store_run. }
    assert (Hkey : ∀ z, key_of (set_nodes (<[y := ny']> (nodes c)) c) z = key_of c z).
    { intros z. unfold key_of. cbn. destruct (decide (z = y)) as [->|Hz].
      - rewrite list_lookup_insert_eq by (by eapply lookup_lt_Some). by rewrite Hny.
      - by rewrite list_lookup_insert_ne. }
    split; [|split; [cbn; by rewrite length_insert|split; [done|split; [done|split; [done|]]]]].
    { rewrite heap_set_node by done. apply insert_id. by rewrite heap_some, Hny. }
    destruct (table_remove _ (links_of (set_nodes (<[y := ny']> (nodes c)) c)) _ _ _ _ x b1 b2 Ht Hb) as [Ht' Hm'].
    { intros z _ _ Hz. rewrite Hlast in Hz. unfold links_of. cbn. rewrite list_lookup_insert_ne by congruence. done. }
    { intros z Hz. assert (z = y) as -> by congruence. unfold links_of. cbn.
      rewrite list_lookup_insert_eq by (by eapply lookup_lt_Some). by rewrite Hmx. }
    split; [|done]. rewrite Hlast in Ht'. destruct Ht' as [T1 T2 T3 T4]. split; [done|done|done|].
    intros j b z Hj Hz. rewrite Hkey. by eapply T4.
  - exists (mkCache (nodes c) (used c) (head c) (tail c) (<[i := hash_next m]> (buckets c)) (capacity c)). split.
    { unfold write_bucket. assert (Hrd : read_bucket (Z.of_nat i) c = Some (p, c))
        by (unfold read_bucket; cstep; rewrite Nat2Z.id; unfold of_option; by rewrite Hp).
      rewrite (C_bind_Some _ _ _ _ _ Hrd). by rewrite Nat2Z.id. }
    do 5 (split; [done|]).
    destruct (table_remove _ (links_of c) _ _ _ _ x b1 b2 Ht Hb) as [Ht' Hm']; [done|by rewrite Hlast|].
    split; [|done]. rewrite Hlast in Ht'. by rewrite Hqm, Hq2.
Qed.

Lemma reuse_run c n ys x bs :
  rep0 c n (ys ++ [x]) bs →
  ∃ c' bs', reuse c = Some (x, c') ∧ rep0 c' n ys bs' ∧ used c' = used c ∧ capacity c' = capacity c ∧
    (∀ y, key_of c' y = key_of c y).
Proof.
  intros Hr. pose proof Hr as [Hnodes Hcap Hring Ht Hmem Hk]. unfold reuse. cstep.
  rewrite (tail_run c ys x Hring). cstep.
  assert (Hxn : (x < length (nodes c))%nat) by (eapply in_range; [exact Hring|set_solver]).
  destruct (lookup_lt_is_Some_2 _ _ Hxn) as [m Hmx]. rewrite (C_bind_Some _ _ _ _ _ (naive_load_run c x m Hmx)).
  assert (Hkx : key_of c x = value m) by (unfold key_of; by rewrite Hmx).
  destruct (elem_of_bucket _ _ _ _ _ x Ht) as (b & Hb & Hxb); [rewrite Hmem; set_solver|].
  destruct (list_elem_of_split _ _ Hxb) as (b1 & b2 & ->).
  destruct (Forall2_lookup_r _ _ _ _ _ (tb_chains _ _ _ _ _ Ht) Hb) as (p & Hp & Hc).
  assert (Hnb : x ∉ b1).
  { pose proof (tb_nodup _ _ _ _ _ Ht) as Hnd. destruct (join_insert bs _ _ [] Hb) as (rest & Hj & _).
    rewrite Hj in Hnd. apply NoDup_app in Hnd as (Hnd & _). apply NoDup_app in Hnd as (_ & N & _).
    intros Hx. apply (N x Hx). left. }
  pose proof (bucket_bound _ _ _ _ _ _ Hr Hb) as Hlen. rewrite length_app in Hlen. cbn in Hlen.
  cbv zeta. rewrite <- Hkx. fold (home (capacity c) (key_of c x)). set (i := home (capacity c) (key_of c x)) in *.
  assert (Hrd : read_link (Bucket i) c = Some (p, c)).
  { cbn. unfold read_bucket. cstep. rewrite Nat2Z.id. unfold of_option. by rewrite Hp. }
  rewrite (C_bind_Some _ _ _ _ _ (naive_seek_run c x b1 b2 (S (length (nodes c))) (Bucket i) p Hrd Hc Hnb ltac:(lia))).
  rewrite (C_bind_Some _ _ _ _ _ (naive_load_run c x m Hmx)).
  destruct (unchain_run c n _ x bs b1 b2 m Hr Hmx Hb) as (c1 & R1 & Hh1 & Hl1 & Hu1 & Hc1 & Hk1 & Ht1 & Hm1).
  fold i in R1, Ht1, Hm1. rewrite (C_bind_Some _ _ _ _ _ R1).
  rewrite fmap_app in Hring. cbn in Hring.
  destruct (detach_run _ _ _ _ _ Hring) as (h2 & Hd & Hring2 & _). rewrite <- Hh1 in Hd.
  destruct (unlink_run c1 x h2 Hd) as (c2 & R2 & <- & F2). rewrite (C_bind_Some _ _ _ _ _ R2).
  exists c2, (<[i := b1 ++ b2]> bs). split; [done|].
  apply frame_inv in F2 as (Hlen2 & Hl2 & Hk2 & Hu2 & Hb2 & Hc2).
  split; [|split; [congruence|split; [congruence|intros y; by rewrite Hk2]]]. split.
  - congruence.
  - congruence.
  - by rewrite app_nil_r in Hring2.
  - rewrite Hc2, Hb2, Hc1. destruct Ht1 as [T1 T2 T3 T4]. split; [done| |done|].
    + eapply Forall2_impl; [exact T2|]. intros q l. by apply chain_ext.
    + intros j l z Hj Hz. rewrite Hk2. by eapply T4.
  - rewrite Hmem in Hm1. rewrite Permutation_app_comm in Hm1. cbn in Hm1. by apply Permutation_cons_inv in Hm1.
  - rewrite fmap_app in Hk. apply NoDup_app in Hk as (Hk & _).
    replace (key_of c2 <$> ys) with (key_of c <$> ys); [done|]. apply list_fmap_ext. intros j y _. by rewrite Hk2, Hk1.
Qed.
End eviction.

(** ** Requests *)
Section refinement.
Implicit Types (c : Cache) (x : nat) (xs : list nat) (bs : list (list nat)) (a : lru Z Z).

(** The cache of capacity [n] holds the items of [a]. *)
Definition holds c (n : nat) a : Prop :=
  cap a = n ∧
  (n = 0%nat ∧ capacity c = 0 ∧ items a = [] ∨
   n ≠ 0%nat ∧ ∃ xs bs, rep c n xs bs ∧ items a = slot_items (key_of c) xs).

Lemma seq_not_in xs : xs ≡ₚ seq 0 (length xs) → length xs ∉ xs.
Proof. intros Hp Hin. rewrite Hp in Hin at 2. apply elem_of_seq in Hin. lia. Qed.

Lemma key_items_ext c c' xs :
  (∀ y, y ∈ xs → key_of c' y = key_of c y) → slot_items (key_of c') xs = slot_items (key_of c) xs.
Proof. apply slot_items_ext. Qed.

Lemma naive_hit_run c n xs1 x xs2 bs :
  n ≠ 0%nat → rep c n (xs1 ++ x :: xs2) bs →
  ∃ c', (unlink_node x;; prepend x;; mret true) c = Some (true, c') ∧ rep c' n (x :: xs1 ++ xs2) bs ∧
    (∀ y, key_of c' y = key_of c y).
Proof.
  intros Hn [Hr Hu Hf Hroom]. destruct (move_run c n xs1 x xs2 bs Hr) as (c' & Hrun & Hfr & Hr').
  exists c'. rewrite <- C_bind_assoc, (C_bind_Some _ _ _ _ _ Hrun). split; [done|].
  apply frame_inv in Hfr as (_ & _ & Hk & Hu' & _). split; [|done].
  assert (Hlen : length (x :: xs1 ++ xs2) = length (xs1 ++ x :: xs2)).
  { cbn. rewrite !length_app. cbn. lia. }
  split; [done|by rewrite Hlen, Hu'|by rewrite Hlen, <- Hf, Permutation_middle|by rewrite Hlen].
Qed.

(** The node that a miss fills, taken out of the structures if it was used. *)
Lemma naive_take_run c n xs bs v :
  n ≠ 0%nat → rep c n xs bs → v ∉ key_of c <$> xs →
  let ys := if decide (length xs = n) then removelast xs else xs in
  ∃ x c1 bs1, (if used c <? capacity c then (set_used (used c + 1);; mret (Z.to_nat (used c))) else reuse) c = Some (x, c1) ∧
    rep0 c1 n ys bs1 ∧ capacity c1 = capacity c ∧ x ∉ ys ∧ (x < n)%nat ∧ v ∉ key_of c1 <$> ys ∧
    (∀ y, key_of c1 y = key_of c y) ∧ used c1 = Z.of_nat (S (length ys)) ∧ x :: ys ≡ₚ seq 0 (S (length ys)) ∧ (S (length ys) ≤ n)%nat.
Proof.
  intros Hn [Hr Hu Hf Hroom] Hv ys. assert (Hcap := r_capacity _ _ _ _ Hr).
  destruct (decide (length xs = n)) as [Hfull|Hfull]; subst ys.
  - rewrite (proj2 (Z.ltb_ge _ _)) by lia. destruct xs as [|x ys _] using rev_ind; [cbn in *; lia|].
    rewrite removelast_last. rewrite length_app in *. cbn [length] in *.
    destruct (reuse_run c n ys x bs Hr) as (c1 & bs1 & Hrun & Hr1 & Hu1 & Hc1 & Hk1).
    assert (Hnd := ring_slots _ _ (r_ring _ _ _ _ Hr)). apply NoDup_app in Hnd as (_ & Hnd & _).
    exists x, c1, bs1. split; [done|]. split; [done|]. split; [done|].
    split; [intros Hx; apply (Hnd x Hx); left|].
    split; [rewrite <- (r_nodes _ _ _ _ Hr); eapply in_range; [exact (r_ring _ _ _ _ Hr)|set_solver]|].
    split; [|split; [done|split; [lia|split; [|lia]]]].
    + replace (key_of c1 <$> ys) with (key_of c <$> ys) by (apply list_fmap_ext; intros; by rewrite Hk1).
      rewrite fmap_app in Hv. set_solver.
    + rewrite Permutation_cons_append. by replace (S (length ys)) with (length ys + 1)%nat by lia.
  - assert (Hlt : (length xs < n)%nat) by lia. rewrite (proj2 (Z.ltb_lt _ _)) by lia. cstep.
    eexists (length xs), _, bs. rewrite Hu, Nat2Z.id. split; [done|].
    split; [destruct Hr; by split|]. split; [done|]. split; [by apply seq_not_in|]. split; [done|].
    split; [done|]. split; [done|]. split; [cbn; lia|]. split; [|lia].
    rewrite seq_S, Permutation_app_comm. cbn. by apply Permutation_skip.
Qed.

Lemma request_run v c n a :
  holds c n a → ∃ c', request v c = Some ((access id v a).1.1, c') ∧ holds c' n (access id v a).2.
Proof.
  intros [Hcap [(-> & Hc0 & Hit)|(Hn & xs & bs & Hrep & Hit)]]; unfold request; cstep.
  { rewrite Hc0. cbn. exists c. unfold access. rewrite Hcap, decide_True by done. split; [done|].
    split; [done|]. by left. }
  pose proof Hrep as [Hr Hu Hf Hroom]. pose proof Hr as [Hnodes Hcapc Hring Ht Hmem Hk].
  rewrite (proj2 (Z.eqb_neq _ _)) by lia.
  destruct (table_bucket _ _ _ _ _ v Ht) as (p & b & Hp & Hb & Hc).
  rewrite (C_bind_Some _ _ _ _ _ (naive_read_bucket_run c v p Hp)).
  pose proof (bucket_bound _ _ _ _ _ _ Hr Hb) as Hlen.
  rewrite (C_bind_Some _ _ _ _ _ (naive_find_run c v (S (length (nodes c))) p b Hc ltac:(lia))).
  pose proof (search_table _ _ _ _ _ v b Ht Hb) as Hs. destruct a as [ca its]. cbn [cap items] in *. subst ca its.
  destruct (search (key_of c) v b) as [x|].
  - destruct Hs as (Hx & _ & <-). rewrite Hmem in Hx. destruct (list_elem_of_split _ _ Hx) as (xs1 & xs2 & ->).
    destruct (naive_hit_run c n xs1 x xs2 bs Hn Hrep) as (c' & Hrun & Hrep' & Hkk). exists c'.
    rewrite access_slot_hit by done. split; [done|]. split; [done|]. right. split; [done|].
    exists (x :: xs1 ++ xs2), bs. split; [done|]. cbn [items snd]. symmetry. by apply key_items_ext.
  - rewrite Hmem in Hs. destruct (naive_take_run c n xs bs v Hn Hrep Hs) as
      (x & c1 & bs1 & R1 & Hr1 & Hc1 & Hx & Hxn & Hv1 & Hk1 & Hu1 & Hp1 & Hle).
    rewrite (C_bind_Some _ _ _ _ _ R1). set (ys := if decide _ then _ else _) in *.
    destruct (install_run c1 n x ys bs1 v Hr1 ltac:(lia) Hx Hxn Hv1) as (c2 & bs2 & R2 & Hr2 & Hu2 & Hkx & Hky).
    rewrite Hc1 in R2. cbv zeta in R2. exists c2. rewrite access_slot_miss by done. split; [exact R2|].
    split; [done|]. right. split; [done|]. exists (x :: ys), bs2. split.
    + split; [done|rewrite Hu2, Hu1; done|done|done].
    + cbn [items snd]. unfold slot_items. rewrite fmap_cons, Hkx. fold ys. f_equal.
      fold (slot_items (key_of c2) ys). fold (slot_items (key_of c) ys). symmetry. apply key_items_ext.
      intros y Hy. rewrite Hky, Hk1; [done|]. by intros ->.
Qed.

(** *** The new cache *)
Lemma naive_create_run allocations (n : Z) :
  0 <= n → ∀ c, create allocations n = Some c → holds c (Z.to_nat n) (Lru (Z.to_nat n) []).
Proof.
  intros Hn c. unfold create. destruct (_ || _); [done|]. destruct (Z.eqb_spec n 0) as [->|Hne].
  { intros [= <-]. split; [done|]. by left. }
  destruct (calloc_ok allocations) as [ok1 al]. destruct (calloc_ok al) as [ok2 al2].
  destruct (_ || _); [done|]. intros [= <-]. split; [done|]. right. split; [lia|].
  exists [], (replicate (Z.to_nat n) []). split; [|done].
  assert (Hj : mjoin (replicate (Z.to_nat n) []) = ([] : list nat)).
  { induction (Z.to_nat n) as [|k IH]; [done|]. cbn. exact IH. }
  split; [|done|done|cbn; lia]. split.
  - cbn. by rewrite length_replicate.
  - cbn. lia.
  - split; [apply NoDup_singleton| |]; cbn; unfold next_of, prev_of; by rewrite heap_none.
  - split.
    + cbn. rewrite length_replicate. lia.
    + cbn. apply Forall2_replicate. done.
    + rewrite Hj. constructor.
    + intros i b x Hi Hx. apply lookup_replicate in Hi as [-> _]. by apply elem_of_nil in Hx.
  - by rewrite Hj.
  - constructor.
Qed.

Lemma release_run c : fst <$> release c = Some ().
Proof. done. Qed.
End refinement.

(** *** The reader *)
#[export] Instance scan_reader : Reader scan.
Proof.
  intros text v vs Hr. inversion Hr as [|ws cs ? rest ? Hws Hcs Hv Ht Hrest]; subst.
  exists rest. split; [|done]. unfold scan. cstep. csimpl.
  assert (Hrange : (INT64_MIN <=? v) && (v <=? INT64_MAX) = true).
  { unfold is_i64, INT64_MIN, INT64_MAX in *. by rewrite !(proj2 (Z.leb_le _ _)) by lia. }
  destruct Hcs as [d ds Hds|d ds Hds|d ds Hds];
    pose proof (proj1 (Forall_cons _ _ _) Hds) as [Hd _];
    pose proof (proj1 (isdigit_range d) Hd) as Hdr; csimpl;
    (rewrite CxxReadFacts.skip_ws_ok by (done || rewrite isspace_range; lia));
    char_tests; rewrite ?app_comm_cons, CxxReadFacts.span_digits_ok by done;
    cstep; rewrite andb_false_r;
    change (CxxRead.digits_value (d :: ds)) with (digits_from 0 (d :: ds));
    rewrite Hrange; done.
Qed.

(** *** The program *)
Section program.
Variable allocations : list bool.

#[local] Existing Instance naive_ops.

#[local] Program Instance naive_laws : @LruLaws Cache (naive_ops allocations) := {
  lru_inv c := ∃ n a, holds c n a;
  lru_plenty c := True;
  lru_rep c a := ∃ n, holds c n a }.
Next Obligation.
  intros n [Hn _]. exists (create allocations n). split; [done|]. intros c Hc.
  exists (Z.to_nat n). by eapply naive_create_run.
Qed.
Next Obligation. done. Qed.
Next Obligation. intros c a (n & Hh). by exists n, a. Qed.
Next Obligation.
  intros k c _ (n & a & Hh). destruct (request_run k c n a Hh) as (c' & Hrun & Hh').
  cbn. rewrite Hrun. eexists _, c'. split; [done|]. by exists n, (access id k a).2.
Qed.
Next Obligation.
  intros k c a _ (n & Hh) _. destruct (request_run k c n a Hh) as (c' & Hrun & Hh').
  cbn. rewrite Hrun. exists c'. split; [done|]. split; [|done]. by exists n.
Qed.

Lemma naive_main_run text cap ks :
  Forall Is_true allocations →
  reads text (cap :: Z.of_nat (length ks) :: ks) → 0 <= cap →
  Z.min cap (Z.of_nat (length ks)) <= SIZE_MAX `div` SIZEOF_NODE →
  ∃ st', main allocations (Stream text false false) =
    Some ((EXIT_SUCCESS, [count_hits (lru_hits (Z.to_nat cap) ks)]), st').
Proof.
  intros Hall Ht Hcap Hlim. unfold main.
  set (n := Z.min cap (Z.of_nat (length ks))) in *.
  assert (Hc : ∃ c, create allocations n = Some c).
  { unfold create. rewrite !(proj2 (Z.ltb_ge _ _)); [|by change (SIZE_MAX `div` SIZEOF_NODE) with 576460752303423487 in Hlim;
      change (SIZE_MAX `div` SIZEOF_PTR) with 2305843009213693951; lia|done].
    cbn [orb]. destruct (n =? 0); [by eexists|].
    destruct allocations as [|b1 [|b2 al]]; cbn; [by eexists|..].
    - apply Forall_cons in Hall as [Hb _]. apply Is_true_true in Hb as ->. by eexists.
    - apply Forall_cons in Hall as [Hb Hall]. apply Forall_cons in Hall as [Hb2 _].
      apply Is_true_true in Hb as ->. apply Is_true_true in Hb2 as ->. by eexists. }
  destruct Hc as [c Hc].
  apply (main_c_hits (ops := naive_ops allocations) scan text cap ks c true Ht Hcap); [cbn; fold n; by rewrite Hc|done].
Qed.
End program.

(** ** Properties *)

(** C29: when every allocation succeeds, and the capacity or the count is at most what one
    allocation can hold ([SIZE_MAX / sizeof] of a node), then, on an input that holds a
    capacity that is not negative, a count and that many keys, the one-function program prints the number of requests whose key is among the [capacity] most
    recently requested distinct keys, and exits successfully; its two interleaved linked
    structures refine the abstract cache. *)
Theorem naive_main_hits allocations text cap ks :
  Forall Is_true allocations →
  reads text (cap :: Z.of_nat (length ks) :: ks) → 0 <= cap →
  Z.min cap (Z.of_nat (length ks)) <= SIZE_MAX `div` SIZEOF_NODE →
  ∃ st', main allocations (Stream text false false) =
    Some ((EXIT_SUCCESS, [count_hits (lru_hits (Z.to_nat cap) ks)]), st').
Proof. apply naive_main_run. Qed.

Lemma naive_main_hits_witness :
  ∃ st', main [true; true] (Stream (render sample_tokens) false false) = Some ((0, [1]), st').
Proof.
  assert (Hlim : Z.min 2 5 <= SIZE_MAX `div` SIZEOF_NODE) by by vm_compute.
  assert (Hall : Forall Is_true [true; true]) by by repeat constructor.
  exact (naive_main_hits [true; true] (render sample_tokens) 2 [7; 8; 7; 9; 8] Hall sample_reads ltac:(lia) Hlim).
Defined.

(** A number that is out of range has no defined conversion. *)
Example scan_overflow : scan (Stream (replicate 20 57) false false) = None.
Proof. vm_compute. reflexivity. Qed.
