(* ===== verification/LruDs.v ===== *)
(** * [src/01-basics/lru-in-c-datastructs]: intrusive list, intrusive map and cache

    [CacheEntry]s are the elements of one array; an element embeds a [ListLink] and an
    [IntMapEntry]. A pointer to an element, to its link or to its map entry is its
    subscript; [Head] is the link that [LruCache] embeds. There is one cache: each of its
    three allocations is a part of the store, absent when not allocated. *)

From S2P Require Import Prelude LruSpec Input LruMain MixHash Chains Links.

(** [ListLink *] *)
Inductive place := Null | Head | Elem (i : nat).

#[export] Instance place_eq_dec : EqDecision place.
Proof. solve_decision. Defined.

Definition place_code (p : place) : option (option nat) :=
  match p with Null => None | Head => Some None | Elem i => Some (Some i) end.
Definition place_decode (c : option (option nat)) : place :=
  match c with None => Null | Some None => Head | Some (Some i) => Elem i end.
#[export] Instance place_countable : Countable place.
Proof. by apply (inj_countable' place_code place_decode); intros []. Defined.

(** [value] points to the [CacheEntry]. *)
Record IntMapEntry := MapEntry { key : Z; value : option nat; m_next : option nat; prev_next : option link }.

(** Whether the pointers [index.buckets] and [entries] are not null, and the counters. *)
Record LruCache := Cache { index_buckets : bool; bucket_count : Z; entries : bool; capacity : Z; used : Z }.

Record store := Store {
  cache : option LruCache;
  links : gmap place (node place ());   (* [recency] of the cache and of the elements *)
  mappings : option (list IntMapEntry); (* [mapping] of the elements *)
  buckets : option (list (option nat));
  plan : list bool }.

Definition set_cache x s := Store x (links s) (mappings s) (buckets s) (plan s).
Definition set_links x s := Store (cache s) x (mappings s) (buckets s) (plan s).
Definition set_mappings x s := Store (cache s) (links s) x (buckets s) (plan s).
Definition set_buckets x s := Store (cache s) (links s) (mappings s) x (plan s).

Definition load_cache : C store LruCache := s ← get; of_option (cache s).
Definition update_cache (c : LruCache) : C store () := _ ← load_cache; modify (set_cache (Some c)).

(** Does the next [calloc] succeed? *)
Definition calloc_ok : C store bool := λ s,
  match plan s with
  | [] => Some (true, s)
  | b :: p => Some (b, Store (cache s) (links s) (mappings s) (buckets s) p)
  end.

(** ** [list.c] *)
Definition on_links {A} (m : C (gmap place (node place ())) A) : C store A := λ s,
  match m (links s) with Some (a, h) => Some (a, set_links h s) | None => None end.

Definition list_init (l : place) : C store () :=
  on_links (_ ← deref l; modify (<[l := Node l l ()]>)).
Definition list_empty (head : place) : C store bool := on_links (n ← deref head; mret (bool_decide (next n = head))).
Definition list_push_front (head l : place) : C store () := on_links (Links.prepend head l).
Definition list_remove (l : place) : C store () := on_links (Links.detach l);; list_init l.

(** ** [int_map.c] *)
Definition SIZEOF_PTR : Z := 8.

Definition load_entry (e : nat) : C store IntMapEntry :=
  s ← get; ms ← of_option (mappings s); of_option (ms !! e).
Definition store_entry (e : nat) (m : IntMapEntry) : C store () :=
  _ ← load_entry e; modify (λ s, set_mappings ((λ ms, <[e := m]> ms) <$> mappings s) s).

Definition read_bucket (i : nat) : C store (option nat) :=
  s ← get; bs ← of_option (buckets s); of_option (bs !! i).
Definition write_bucket (i : nat) (p : option nat) : C store () :=
  _ ← read_bucket i; modify (λ s, set_buckets ((λ bs, <[i := p]> bs) <$> buckets s) s).

(** [*link = p] of an [IntMapEntry **] *)
Definition write_link (l : link) (p : option nat) : C store () :=
  match l with
  | Bucket i => write_bucket i p
  | NextOf e => m ← load_entry e; store_entry e (MapEntry (key m) (value m) p (prev_next m))
  end.

Definition int_map_init (n : Z) : C store bool :=
  c ← load_cache;
  update_cache (Cache false 0 (entries c) (capacity c) (used c));;
  if (n =? 0) || (SIZE_MAX `div` SIZEOF_PTR <? n) then mret false
  else
    ok ← calloc_ok;
    if negb ok then mret false
    else
      modify (set_buckets (Some (replicate (Z.to_nat n) None)));;
      update_cache (Cache true n (entries c) (capacity c) (used c));;
      mret true.

Definition int_map_remove (e : nat) : C store () :=
  m ← load_entry e;
  l ← of_option (prev_next m);
  write_link l (m_next m);;
  m ← load_entry e;
  match m_next m with
  | Some q => n ← load_entry q; store_entry q (MapEntry (key n) (value n) (m_next n) (prev_next m))
  | None => mret ()
  end;;
  m ← load_entry e;
  store_entry e (MapEntry (key m) (value m) None None).

(** [while (map->buckets[i]) int_map_remove(map, map->buckets[i]);] *)
Fixpoint empty_bucket (fuel : nat) (i : nat) : C store () :=
  match fuel with
  | O => undefined
  | S fuel => p ← read_bucket i; match p with None => mret () | Some e => int_map_remove e;; empty_bucket fuel i end
  end.

Fixpoint empty_buckets (count i : nat) (fuel : nat) : C store () :=
  match count with O => mret () | S count => empty_bucket fuel i;; empty_buckets count (S i) fuel end.

Definition int_map_destroy : C store () :=
  c ← load_cache;
  s ← get;
  empty_buckets (Z.to_nat (bucket_count c)) 0 (S (length (default [] (mappings s))));;
  (if index_buckets c then (s ← get; _ ← of_option (buckets s); modify (set_buckets None)) else mret ());;
  c ← load_cache;
  update_cache (Cache false 0 (entries c) (capacity c) (used c)).

Fixpoint find_from (fuel : nat) (k : Z) (entry : option nat) : C store (option nat) :=
  match fuel with
  | O => undefined
  | S fuel =>
    match entry with
    | None => mret None
    | Some e => m ← load_entry e; if key m =? k then mret (Some e) else find_from fuel k (m_next m)
    end
  end.

Definition int_map_find (k : Z) : C store (option nat) :=
  c ← load_cache;
  if bucket_count c =? 0 then mret None
  else
    p ← read_bucket (home (bucket_count c) k);
    s ← get;
    find_from (S (length (default [] (mappings s)))) k p.

Definition int_map_insert (e : nat) : C store bool :=
  c ← load_cache;
  m ← load_entry e;
  stop ← (if (bucket_count c =? 0) || bool_decide (is_Some (prev_next m)) then mret true
    else f ← int_map_find (key m); mret (bool_decide (is_Some f)));
  if stop : bool then mret false
  else
    let head := home (bucket_count c) (key m) in
    p ← read_bucket head;
    store_entry e (MapEntry (key m) (value m) p (Some (Bucket head)));;
    match p with
    | Some q => n ← load_entry q; store_entry q (MapEntry (key n) (value n) (m_next n) (Some (NextOf e)))
    | None => mret ()
    end;;
    write_bucket head (Some e);;
    mret true.

(** ** [lru.c] *)
Definition SIZEOF_CACHE_ENTRY : Z := 48.

Definition zero_mapping : IntMapEntry := MapEntry 0 None None None.
Definition zero_link : node place () := Node Null Null ().

(** [free(cache->entries)]: the elements disappear. *)
Definition free_entries : C store () :=
  c ← load_cache;
  if entries c then
    s ← get; ms ← of_option (mappings s);
    modify (λ s, set_mappings None (set_links (filter (λ x, x.1 = Head) (links s)) s))
  else mret ().

Definition free_cache : C store () :=
  _ ← load_cache; modify (λ s, set_cache None (set_links (delete Head (links s)) s)).

Definition lru_destroy : C store () :=
  s ← get;
  match cache s with
  | None => mret ()
  | Some _ => int_map_destroy;; free_entries;; free_cache
  end.

(** Is the pointer that is returned not null? *)
Definition lru_create (cap : Z) : C store bool :=
  if SIZE_MAX `div` SIZEOF_CACHE_ENTRY <? cap then mret false
  else
    ok ← calloc_ok;
    if negb ok then mret false
    else
      modify (λ s, set_cache (Some (Cache false 0 false 0 0)) (set_links (<[Head := zero_link]> (links s)) s));;
      list_init Head;;
      failed ← (if cap =? 0 then mret false
        else
          ok ← calloc_ok;
          if negb ok then mret true
          else
            modify (λ s, set_mappings (Some (replicate (Z.to_nat cap) zero_mapping))
              (set_links (list_to_map ((λ i, (Elem i, zero_link)) <$> seq 0 (Z.to_nat cap)) ∪ links s) s));;
            c ← load_cache;
            update_cache (Cache (index_buckets c) (bucket_count c) true (capacity c) (used c));;
            ok ← int_map_init cap;
            mret (negb ok));
      if failed : bool then lru_destroy;; mret false
      else
        c ← load_cache;
        update_cache (Cache (index_buckets c) (bucket_count c) (entries c) cap (used c));;
        mret true.

Definition lru_access (k : Z) : C store bool :=
  c ← load_cache;
  if capacity c =? 0 then mret false
  else
    found ← int_map_find k;
    entry ← match found with
      | Some f =>
        m ← load_entry f;
        entry ← of_option (value m);
        list_remove (Elem entry);;
        mret entry
      | None =>
        entry ← (if used c <? capacity c then
            update_cache (Cache (index_buckets c) (bucket_count c) (entries c) (capacity c) (used c + 1));;
            list_init (Elem (Z.to_nat (used c)));;
            mret (Z.to_nat (used c))
          else
            h ← on_links (deref Head);
            entry ← match prev h with Elem i => mret i | _ => undefined end;
            list_remove (Elem entry);;
            int_map_remove entry;;
            mret entry);
        m ← load_entry entry;
        store_entry entry (MapEntry k (value m) (m_next m) (prev_next m));;
        m ← load_entry entry;
        store_entry entry (MapEntry (key m) (Some entry) (m_next m) (prev_next m));;
        inserted ← int_map_insert entry;
        assert inserted;;
        mret entry
      end;
    list_push_front Head (Elem entry);;
    mret (bool_decide (is_Some found)).

(** ** [main.c]: its [read_integer] has the text of that of [lru-in-c] *)
Definition read_integer : C stream (option Z) := CRead.read_integer.

Section program.
Variable allocations : list bool.

#[local] Instance ds_ops : LruOps store := {
  LruSpec.lru_create n :=
    match lru_create n (Store None ∅ None None allocations) with
    | Some (ok, s) => Some (if ok : bool then Some s else None)
    | None => None
    end;
  lru_request k s := match lru_access k s with Some (h, s) => Some (Some h, s) | None => None end;
  LruSpec.lru_destroy s := match lru_destroy s with Some _ => Some () | None => None end }.

Definition main : bool → C stream (Z * list Z) := main_c read_integer.
End program.

(** ** The map *)
Section backs.
Implicit Types (bk : nat → option (option link)) (lk : link) (l : list nat) (x : nat).

(** The pointers back along a chain that begins at [lk]. *)
Fixpoint backs bk lk l : Prop :=
  match l with [] => True | x :: l => bk x = Some (Some lk) ∧ backs bk (NextOf x) l end.

Definition end_link lk l : link := match last l with Some y => NextOf y | None => lk end.

Lemma end_link_cons lk x l : end_link lk (x :: l) = end_link (NextOf x) l.
Proof. unfold end_link. rewrite last_cons. by destruct (last l). Qed.

Lemma backs_app bk lk l1 l2 : backs bk lk (l1 ++ l2) ↔ backs bk lk l1 ∧ backs bk (end_link lk l1) l2.
Proof.
  revert lk. induction l1 as [|x l1 IH]; intros lk; [cbn; tauto|].
  rewrite end_link_cons. cbn. rewrite IH. tauto.
Qed.

Lemma backs_ext bk bk' lk l : (∀ x, x ∈ l → bk' x = bk x) → backs bk lk l → backs bk' lk l.
Proof.
  revert lk. induction l as [|x l IH]; intros lk Hx; cbn; [done|]. intros [H1 H2].
  rewrite Hx by left. split; [done|]. apply IH; [|done]. intros z Hz. apply Hx. by right.
Qed.
Lemma backs_cons_insert bk bk' lk x l :
  NoDup (x :: l) → bk' x = Some (Some lk) →
  (∀ z, z ≠ x → bk' z = if decide (head l = Some z) then Some (Some (NextOf x)) else bk z) →
  backs bk lk l → backs bk' lk (x :: l).
Proof.
  intros [Hx Hnd]%NoDup_cons Hbx Hz Hl. split; [done|]. destruct l as [|y l]; [done|]. cbn in *. destruct Hl as [_ Hl].
  assert (Hne : ∀ z, z ∈ y :: l → z ≠ x) by (by intros z Hin ->). apply NoDup_cons in Hnd as [Hy _]. split.
  - rewrite Hz by (apply Hne; left). by rewrite decide_True.
  - eapply backs_ext; [|exact Hl]. intros z Hin. rewrite Hz by (apply Hne; by right).
    rewrite decide_False; [done|]. by intros [= ->].
Qed.

Lemma backs_remove bk bk' lk l1 x l2 :
  NoDup (l1 ++ x :: l2) → (∀ z, z ≠ x → bk' z = if decide (head l2 = Some z) then bk x else bk z) →
  backs bk lk (l1 ++ x :: l2) → backs bk' lk (l1 ++ l2).
Proof.
  intros Hnd Hz (H1 & H2 & H3)%backs_app. apply NoDup_app in Hnd as (_ & N1 & [N2 N3]%NoDup_cons). apply backs_app. split.
  - eapply backs_ext; [|exact H1]. intros z Hin. rewrite Hz by (intros ->; apply (N1 x Hin); left).
    rewrite decide_False; [done|]. intros Hh. apply (N1 z Hin). right. by apply head_Some_elem_of.
  - destruct l2 as [|y l2]; [done|]. cbn in *. destruct H3 as [_ H3].
    assert (Hne : ∀ z, z ∈ y :: l2 → z ≠ x) by (by intros z Hin ->). apply NoDup_cons in N3 as [N3 _]. split.
    + rewrite Hz by (apply Hne; left). by rewrite decide_True.
    + eapply backs_ext; [|exact H3]. intros z Hin. rewrite Hz by (apply Hne; by right).
      rewrite decide_False; [done|]. by intros [= ->].
Qed.
End backs.

Section map.
Implicit Types (ms : list IntMapEntry) (e x y z : nat) (b : list nat) (bs : list (list nat)) (arr : list (option nat))
  (c : option LruCache) (ls : gmap place (node place ())) (pl : list bool).

Definition lk ms e : option (option nat) := m_next <$> ms !! e.
Definition ky ms e : Z := default 0 (key <$> ms !! e).
Definition vl ms e : option (option nat) := value <$> ms !! e.
Definition bk ms e : option (option link) := prev_next <$> ms !! e.

(** The table [arr] with the chains [bs] of [n] buckets over the elements [ms]. *)
Record imap (n : nat) ms arr bs : Prop := {
  im_len : length ms = n;
  im_table : table (lk ms) (ky ms) (Z.of_nat n) arr bs;
  im_backs : ∀ i b, bs !! i = Some b → backs (bk ms) (Bucket i) b;
  im_free : ∀ e, (e < n)%nat → e ∉ mjoin bs → bk ms e = Some None }.

Lemma load_entry_run ms e m c ls ao pl :
  ms !! e = Some m → load_entry e (Store c ls (Some ms) ao pl) = Some (m, Store c ls (Some ms) ao pl).
Proof. intros Hm. unfold load_entry. cunfold. cbn. by rewrite Hm. Qed.

Lemma store_entry_run ms e m m' c ls ao pl :
  ms !! e = Some m → store_entry e m' (Store c ls (Some ms) ao pl) = Some ((), Store c ls (Some (<[e := m']> ms)) ao pl).
Proof. intros Hm. unfold store_entry. by rewrite (C_bind_Some _ _ _ _ _ (load_entry_run ms e m _ _ _ _ Hm)). Qed.

Lemma ds_read_bucket_run arr i p c ls (mo : option (list IntMapEntry)) pl :
  arr !! i = Some p → read_bucket i (Store c ls mo (Some arr) pl) = Some (p, Store c ls mo (Some arr) pl).
Proof. intros Hp. unfold read_bucket. cunfold. cbn. by rewrite Hp. Qed.

Lemma ds_write_bucket_run arr i p q c ls (mo : option (list IntMapEntry)) pl :
  arr !! i = Some p → write_bucket i q (Store c ls mo (Some arr) pl) = Some ((), Store c ls mo (Some (<[i := q]> arr)) pl).
Proof. intros Hp. unfold write_bucket. by rewrite (C_bind_Some _ _ _ _ _ (ds_read_bucket_run arr i p _ _ _ _ Hp)). Qed.

(** What a write of one entry changes. *)
Record changes ms ms' (y : nat) (p : option nat) (l : option link) : Prop := {
  ch_len : length ms' = length ms;
  ch_lk : ∀ z, lk ms' z = if decide (z = y) then Some p else lk ms z;
  ch_bk : ∀ z, bk ms' z = if decide (z = y) then Some l else bk ms z;
  ch_ky : ∀ z, ky ms' z = ky ms z;
  ch_vl : ∀ z, vl ms' z = vl ms z }.

Lemma write_entry ms y m p l :
  ms !! y = Some m → changes ms (<[y := MapEntry (key m) (value m) p l]> ms) y p l.
Proof.
  intros Hm. assert (Hlt := lookup_lt_Some _ _ _ Hm). split; [by rewrite length_insert|..];
    intros z; unfold lk, bk, ky, vl; (destruct (decide (z = y)) as [->|Hne];
      [rewrite list_lookup_insert_eq by done; by rewrite ?Hm|by rewrite list_lookup_insert_ne]).
Qed.

Lemma member_range n ms arr bs z : imap n ms arr bs → z ∈ mjoin bs → (z < n)%nat.
Proof.
  intros [Hl Ht _ _] (b & Hz & Hb)%list_elem_of_join. apply list_elem_of_lookup in Hb as [i Hb].
  destruct (Forall2_lookup_r _ _ _ _ _ (tb_chains _ _ _ _ _ Ht) Hb) as (p & _ & Hc).
  apply list_elem_of_split in Hz as (b1 & b2 & ->). apply chain_middle in Hc as (q & Hq & _).
  unfold lk in Hq. apply fmap_Some_1 in Hq as (m & Hm & _). rewrite <- Hl. by eapply lookup_lt_Some.
Qed.

(** Replacing one bucket of the table. *)
Lemma imap_update n ms ms' arr arr' bs i b b' :
  imap n ms arr bs → bs !! i = Some b → length ms' = length ms → (∀ z, ky ms' z = ky ms z) →
  table (lk ms') (ky ms) (Z.of_nat n) arr' (<[i := b']> bs) → backs (bk ms') (Bucket i) b' →
  (∀ z, z ∈ mjoin bs → z ∉ b → bk ms' z = bk ms z) →
  (∀ z, (z < n)%nat → z ∉ mjoin (<[i := b']> bs) → bk ms' z = Some None) →
  imap n ms' arr' (<[i := b']> bs).
Proof.
  intros [Hlen Ht Hbk _] Hb Hl Hky Ht' Hb' Hz Hfree. split; [congruence| | |done].
  - destruct Ht' as [T1 T2 T3 T4]. split; [done|done|done|]. intros j l z Hj Hin. rewrite Hky. by eapply T4.
  - intros j l Hj. destruct (decide (j = i)) as [->|Hji].
    { rewrite list_lookup_insert_eq in Hj by (by eapply lookup_lt_Some). by injection Hj as <-. }
    rewrite list_lookup_insert_ne in Hj by done. eapply backs_ext; [|by apply Hbk].
    intros z Hin. apply Hz; [by eapply elem_of_bucket_join|]. intros Hzb.
    pose proof (tb_home _ _ _ _ _ Ht i b z Hb Hzb). pose proof (tb_home _ _ _ _ _ Ht j l z Hj Hin). congruence.
Qed.

(** Writing the pointer back of the entry [p] points to, if any. *)
Lemma set_back_run ms p l c ls ao pl :
  (∀ q, p = Some q → (q < length ms)%nat) →
  ∃ ms', (match p with
      | Some q => n ← load_entry q; store_entry q (MapEntry (key n) (value n) (m_next n) l)
      | None => mret () end) (Store c ls (Some ms) ao pl) = Some ((), Store c ls (Some ms') ao pl) ∧
    length ms' = length ms ∧ (∀ z, p ≠ Some z → ms' !! z = ms !! z) ∧
    (∀ z, bk ms' z = if decide (p = Some z) then Some l else bk ms z) ∧
    ∀ z, lk ms' z = lk ms z ∧ ky ms' z = ky ms z ∧ vl ms' z = vl ms z.
Proof.
  intros Hp. destruct p as [q|]; [|by exists ms]. destruct (lookup_lt_is_Some_2 ms q (Hp q eq_refl)) as [m Hm].
  rewrite (C_bind_Some _ _ _ _ _ (load_entry_run ms q m _ _ _ _ Hm)). erewrite store_entry_run by exact Hm.
  destruct (write_entry ms q m (m_next m) l Hm) as [C1 C2 C3 C4 C5]. eexists. split; [done|]. split; [done|].
  split; [intros z Hz; apply list_lookup_insert_ne; congruence|]. split; intros z.
  - rewrite C3. by destruct (decide (z = q)), (decide (Some q = Some z)); simplify_eq.
  - rewrite C2. split; [|done]. destruct (decide (z = q)) as [->|]; [|done]. unfold lk. by rewrite Hm.
Qed.

(** Writing the link after [b1] in the chain of the bucket [i]. *)
Lemma write_link_run ms arr i b1 p q c ls pl :
  arr !! i = Some p → (∀ y, last b1 = Some y → (y < length ms)%nat) →
  let arr' := match last b1 with None => <[i := q]> arr | Some _ => arr end in
  ∃ ms', write_link (end_link (Bucket i) b1) q (Store c ls (Some ms) (Some arr) pl) =
      Some ((), Store c ls (Some ms') (Some arr') pl) ∧ length ms' = length ms ∧
    (∀ z, last b1 ≠ Some z → ms' !! z = ms !! z) ∧
    (∀ y, last b1 = Some y → lk ms' y = Some q) ∧
    ∀ z, bk ms' z = bk ms z ∧ ky ms' z = ky ms z ∧ vl ms' z = vl ms z.
Proof.
  intros Hp Hb. unfold end_link. destruct (last b1) as [y|]; cbn [write_link].
  - destruct (lookup_lt_is_Some_2 ms y (Hb y eq_refl)) as [m Hm].
    rewrite (C_bind_Some _ _ _ _ _ (load_entry_run ms y m _ _ _ _ Hm)). erewrite store_entry_run by exact Hm.
    destruct (write_entry ms y m q (prev_next m) Hm) as [C1 C2 C3 C4 C5]. eexists. split; [done|]. split; [done|].
    split; [intros z Hz; apply list_lookup_insert_ne; congruence|].
    split; [intros z [= <-]; by rewrite C2, decide_True|]. intros z. split; [|done]. rewrite C3.
    destruct (decide (z = y)) as [->|]; [|done]. unfold bk. by rewrite Hm.
  - erewrite ds_write_bucket_run by exact Hp. by exists ms.
Qed.

(** *** [int_map_remove] *)
Lemma remove_steps n ms arr bs e b1 b2 c ls pl :
  imap n ms arr bs → let i := home (Z.of_nat n) (ky ms e) in bs !! i = Some (b1 ++ e :: b2) →
  ∃ ms', int_map_remove e (Store c ls (Some ms) (Some arr) pl) =
      Some ((), Store c ls (Some ms') (Some (match last b1 with None => <[i := head b2]> arr | Some _ => arr end)) pl) ∧
    length ms' = length ms ∧ bk ms' e = Some None ∧
    (∀ z, z ≠ e → Some z ≠ last b1 → lk ms' z = lk ms z) ∧ (∀ y, last b1 = Some y → lk ms' y = lk ms e) ∧
    (∀ z, z ≠ e → bk ms' z = if decide (head b2 = Some z) then bk ms e else bk ms z) ∧
    (∀ z, ky ms' z = ky ms z ∧ vl ms' z = vl ms z).
Proof.
  intros Him i Hb. pose proof Him as [Hlen Ht Hbk _].
  assert (Hin : ∀ z, z ∈ b1 ++ e :: b2 → (z < length ms)%nat).
  { intros z Hz. rewrite Hlen. eapply member_range; [exact Him|]. by eapply elem_of_bucket_join. }
  assert (Hnd := table_bucket_nodup _ _ _ _ _ _ _ Ht Hb). apply NoDup_app in Hnd as (_ & N1 & [N2 _]%NoDup_cons).
  assert (Hlast : ∀ y, last b1 = Some y → y ≠ e ∧ (y < length ms)%nat).
  { intros y Hy%last_Some_elem_of. split; [intros ->; apply (N1 e Hy); left|]. apply Hin, elem_of_app. by left. }
  assert (Hhead : ∀ q, head b2 = Some q → q ≠ e ∧ (q < length ms)%nat).
  { intros q Hq%head_Some_elem_of. split; [by intros ->|]. apply Hin, elem_of_app. right. by right. }
  destruct (Forall2_lookup_r _ _ _ _ _ (tb_chains _ _ _ _ _ Ht) Hb) as (p & Hp & Hc).
  destruct (chain_middle _ _ _ _ _ Hc) as (q & Hq & _ & ->). apply fmap_Some_1 in Hq as (m & Hm & Hmn). symmetry in Hmn.
  pose proof (Hbk i _ Hb) as [_ [Hback _]]%backs_app. unfold bk in Hback. rewrite Hm in Hback. injection Hback as Hmb.
  unfold int_map_remove. rewrite (C_bind_Some _ _ _ _ _ (load_entry_run ms e m _ _ _ _ Hm)), Hmb, Hmn. cstep.
  destruct (write_link_run ms arr i b1 p (head b2) c ls pl Hp) as (ms1 & R1 & L1 & E1 & N & S1); [apply Hlast|].
  rewrite (C_bind_Some _ _ _ _ _ R1).
  assert (Hm1 : ms1 !! e = Some m) by (rewrite E1; [done|by intros [? _]%Hlast]).
  rewrite (C_bind_Some _ _ _ _ _ (load_entry_run ms1 e m _ _ _ _ Hm1)), Hmn.
  edestruct (set_back_run ms1 (head b2) (prev_next m)) as (ms2 & R2 & L2 & E2 & B2 & S2); [rewrite L1; apply Hhead|].
  rewrite (C_bind_Some _ _ _ _ _ R2).
  assert (Hm2 : ms2 !! e = Some m) by (rewrite E2; [done|by intros [? _]%Hhead]).
  rewrite (C_bind_Some _ _ _ _ _ (load_entry_run ms2 e m _ _ _ _ Hm2)). erewrite store_entry_run by exact Hm2.
  destruct (write_entry ms2 e m None None Hm2) as [C1 C2 C3 C4 C5].
  eexists. split; [done|]. split; [congruence|]. split; [by rewrite C3, decide_True|].
  split; [|split; [|split]]; intros z.
  - intros Hze Hzl. rewrite C2, decide_False by done. destruct (S2 z) as [-> _]. unfold lk. by rewrite E1.
  - intros Hz. rewrite C2, decide_False by (by apply Hlast). destruct (S2 z) as [-> _]. rewrite (N z Hz). unfold lk. by rewrite Hm, <- Hmn.
  - intros Hz. rewrite C3, decide_False, B2 by done. destruct (S1 z) as [-> _]. unfold bk at 2. by rewrite Hm.
  - rewrite C4, C5. destruct (S2 z) as (_ & -> & ->). apply S1.
Qed.

Lemma int_map_remove_run n ms arr bs e b1 b2 c ls pl :
  imap n ms arr bs → let i := home (Z.of_nat n) (ky ms e) in bs !! i = Some (b1 ++ e :: b2) →
  ∃ ms' arr', int_map_remove e (Store c ls (Some ms) (Some arr) pl) = Some ((), Store c ls (Some ms') (Some arr') pl) ∧
    imap n ms' arr' (<[i := b1 ++ b2]> bs) ∧ mjoin bs ≡ₚ e :: mjoin (<[i := b1 ++ b2]> bs) ∧
    (∀ z, ky ms' z = ky ms z ∧ vl ms' z = vl ms z).
Proof.
  intros Him i Hb. pose proof Him as [Hlen Ht Hbk Hfree].
  destruct (remove_steps n ms arr bs e b1 b2 c ls pl Him Hb) as (ms' & R & L & Be & N1 & N2 & B & S).
  destruct (table_remove (lk ms) (lk ms') (ky ms) (Z.of_nat n) arr bs e b1 b2 Ht Hb) as [Ht' Hj]; [by intros; apply N1|done|].
  assert (Hother : ∀ z, z ≠ e → z ∉ b1 ++ e :: b2 → bk ms' z = bk ms z).
  { intros z Hze Hz. rewrite B by done. rewrite decide_False; [done|].
    intros Hh%head_Some_elem_of. apply Hz, elem_of_app. right. by right. }
  exists ms', (match last b1 with None => <[i := head b2]> arr | Some _ => arr end). split; [done|]. split; [|done].
  eapply imap_update; [done|exact Hb|done|apply S|done| | |].
  - eapply backs_remove; [exact (table_bucket_nodup _ _ _ _ _ _ _ Ht Hb)|exact B|by apply Hbk].
  - intros z Hz Hzb. apply Hother; [|done]. intros ->. apply Hzb, elem_of_app. right. left.
  - intros z Hzn Hz. destruct (decide (z = e)) as [->|Hze]; [done|].
    assert (Hzm : z ∉ mjoin bs) by (rewrite Hj, not_elem_of_cons; done).
    rewrite Hother; [by apply Hfree|done|]. intros Hzb. by apply Hzm; eapply elem_of_bucket_join.
Qed.

(** *** [int_map_find] and [int_map_insert] *)
Lemma bucket_length n ms arr bs i b : imap n ms arr bs → bs !! i = Some b → (length b ≤ n)%nat.
Proof.
  intros Him Hb. destruct (join_insert bs i b b Hb) as (rest & Hj & _).
  rewrite <- (length_seq n 0). apply submseteq_length, NoDup_submseteq.
  - pose proof (tb_nodup _ _ _ _ _ (im_table _ _ _ _ Him)) as Hnd. rewrite Hj in Hnd. by apply NoDup_app in Hnd as [? _].
  - intros x Hx. apply elem_of_seq. cbn. split; [lia|]. eapply member_range; [exact Him|]. rewrite Hj. set_solver.
Qed.

Lemma ds_find_from_run ms fuel k p b c ls ao pl :
  chain (lk ms) p b → (length b < fuel)%nat →
  find_from fuel k p (Store c ls (Some ms) ao pl) = Some (search (ky ms) k b, Store c ls (Some ms) ao pl).
Proof.
  revert fuel p. induction b as [|x b IH]; intros [|fuel] p Hc Hf; cbn in *; try lia.
  - by subst p.
  - destruct Hc as (-> & q & Hq & Hc). rewrite search_cons. unfold lk in Hq. apply fmap_Some_1 in Hq as (m & Hm & ->).
    rewrite (C_bind_Some _ _ _ _ _ (load_entry_run ms x m _ _ _ _ Hm)).
    assert (Hk : ky ms x = key m) by (unfold ky; by rewrite Hm). rewrite Hk.
    destruct (Z.eqb_spec (key m) k) as [->|Hne]; [by rewrite decide_True|].
    rewrite decide_False by done. apply IH; [done|lia].
Qed.

Lemma int_map_find_run n ms arr bs k ib eb cp u ls pl :
  imap n ms arr bs →
  let s := Store (Some (Cache ib (Z.of_nat n) eb cp u)) ls (Some ms) (Some arr) pl in
  ∃ b, bs !! home (Z.of_nat n) k = Some b ∧ int_map_find k s = Some (search (ky ms) k b, s).
Proof.
  intros Him s. pose proof (im_table _ _ _ _ Him) as Ht.
  destruct (table_bucket _ _ _ _ _ k Ht) as (p & b & Hp & Hb & Hc). exists b. split; [done|].
  unfold int_map_find. subst s. cstep. destruct (tb_count _ _ _ _ _ Ht) as [Hn _].
  cbn [bucket_count]. rewrite (proj2 (Z.eqb_neq _ _)) by lia.
  rewrite (C_bind_Some _ _ _ _ _ (ds_read_bucket_run arr _ p _ _ _ _ Hp)). cstep.
  apply ds_find_from_run; [done|]. cbn. rewrite (im_len _ _ _ _ Him).
  pose proof (bucket_length _ _ _ _ _ _ Him Hb). lia.
Qed.

(** The writes of [int_map_insert], which link [e] before the first entry [p] of its bucket. *)
Lemma insert_steps n ms arr bs e m i b p c ls pl :
  imap n ms arr bs → ms !! e = Some m → e ∉ mjoin bs → bs !! i = Some b → arr !! i = Some p →
  ∃ ms', (store_entry e (MapEntry (key m) (value m) p (Some (Bucket i)));;
      match p with
      | Some q => n ← load_entry q; store_entry q (MapEntry (key n) (value n) (m_next n) (Some (NextOf e)))
      | None => mret ()
      end;;
      write_bucket i (Some e);; mret true) (Store c ls (Some ms) (Some arr) pl) =
      Some (true, Store c ls (Some ms') (Some (<[i := Some e]> arr)) pl) ∧
    length ms' = length ms ∧ lk ms' e = Some p ∧ bk ms' e = Some (Some (Bucket i)) ∧
    (∀ z, z ≠ e → lk ms' z = lk ms z) ∧
    (∀ z, z ≠ e → bk ms' z = if decide (head b = Some z) then Some (Some (NextOf e)) else bk ms z) ∧
    (∀ z, ky ms' z = ky ms z ∧ vl ms' z = vl ms z).
Proof.
  intros Him Hm He Hb Hp. pose proof Him as [Hlen Ht _ _].
  assert (Hhead : p = head b) by (eapply chain_head; by eapply (Forall2_lookup_lr _ _ _ _ _ _ (tb_chains _ _ _ _ _ Ht))).
  assert (Hq : ∀ q, p = Some q → q ≠ e ∧ (q < length ms)%nat).
  { rewrite Hhead. intros q Hq%head_Some_elem_of. assert (q ∈ mjoin bs) by (by eapply elem_of_bucket_join).
    split; [by intros ->|]. rewrite Hlen. by eapply member_range. }
  erewrite C_bind_Some by (by apply (store_entry_run ms e m)).
  destruct (write_entry ms e m p (Some (Bucket i)) Hm) as [C1 C2 C3 C4 C5]. set (ms1 := <[e := _]> ms) in *.
  edestruct (set_back_run ms1 p (Some (NextOf e))) as (ms2 & R2 & L2 & _ & B2 & S2); [rewrite C1; apply Hq|].
  rewrite (C_bind_Some _ _ _ _ _ R2). erewrite C_bind_Some by (by apply ds_write_bucket_run with (p := p)).
  exists ms2. split; [done|]. split; [congruence|].
  split; [destruct (S2 e) as [-> _]; by rewrite C2, decide_True|].
  split; [rewrite B2, decide_False by (by intros [? _]%Hq); by rewrite C3, decide_True|]. split; [|split]; intros z.
  - intros Hz. destruct (S2 z) as [-> _]. by rewrite C2, decide_False.
  - intros Hz. rewrite B2, Hhead, C3. by rewrite (decide_False (P := z = e)).
  - destruct (S2 z) as (_ & -> & ->). by rewrite C4, C5.
Qed.

Lemma int_map_insert_run n ms arr bs e m ib eb cp u ls pl :
  imap n ms arr bs → ms !! e = Some m → e ∉ mjoin bs → key m ∉ ky ms <$> mjoin bs →
  let s := λ ms arr, Store (Some (Cache ib (Z.of_nat n) eb cp u)) ls (Some ms) (Some arr) pl in
  ∃ ms' arr' bs', int_map_insert e (s ms arr) = Some (true, s ms' arr') ∧ imap n ms' arr' bs' ∧
    mjoin bs' ≡ₚ e :: mjoin bs ∧ (∀ z, ky ms' z = ky ms z ∧ vl ms' z = vl ms z).
Proof.
  intros Him Hm He Hk s. pose proof Him as [Hlen Ht Hbk Hfree].
  assert (Hlt : (e < n)%nat) by (rewrite <- Hlen; by eapply lookup_lt_Some).
  assert (Hpn : prev_next m = None).
  { specialize (Hfree e Hlt He). unfold bk in Hfree. rewrite Hm in Hfree. by injection Hfree. }
  assert (Hke : ky ms e = key m) by (unfold ky; by rewrite Hm).
  destruct (tb_count _ _ _ _ _ Ht) as [Hn _]. unfold int_map_insert, s. cstep.
  rewrite (C_bind_Some _ _ _ _ _ (load_entry_run ms e m _ _ _ _ Hm)). cbn [bucket_count].
  rewrite (proj2 (Z.eqb_neq _ _)), Hpn by lia. rewrite bool_decide_eq_false_2 by (by intros []). cbn [orb].
  destruct (int_map_find_run n ms arr bs (key m) ib eb cp u ls pl Him) as (b & Hb & Hf). cbv zeta in Hf.
  rewrite C_bind_assoc, (C_bind_Some _ _ _ _ _ Hf). pose proof (search_table _ _ _ _ _ (key m) b Ht Hb) as Hs.
  destruct (search (ky ms) (key m) b) as [x|].
  { exfalso. destruct Hs as (Hx & _ & Hkx). apply Hk. rewrite <- Hkx. by apply list_elem_of_fmap_2. }
  cstep. rewrite bool_decide_eq_false_2 by (by intros []). cbv zeta. rewrite <- Hke in Hb |- *.
  set (i := home (Z.of_nat n) (ky ms e)) in *.
  destruct (Forall2_lookup_r _ _ _ _ _ (tb_chains _ _ _ _ _ Ht) Hb) as (p & Hp & _).
  rewrite (C_bind_Some _ _ _ _ _ (ds_read_bucket_run arr i p _ _ _ _ Hp)). rewrite Hke.
  edestruct (insert_steps n ms arr bs e m i b p) as (ms' & R & L & Ne & Be & N & B & S); [done..|].
  destruct (table_insert (lk ms) (lk ms') (ky ms) (ky ms) (Z.of_nat n) arr bs e p Ht He Hp Ne) as (b' & Hb' & _ & Ht' & Hj).
  { intros z Hz. split; [|done]. apply N. by intros ->. }
  fold i in Hb', Ht', Hj. assert (b' = b) as -> by congruence.
  assert (Hin : ∀ z, z ∈ b → z ∈ mjoin bs) by (intros z Hz; by eapply elem_of_bucket_join).
  exists ms', (<[i := Some e]> arr), (<[i := e :: b]> bs). split; [exact R|]. split; [|split; [exact Hj|exact S]].
  assert (Hother : ∀ z, z ≠ e → z ∉ b → bk ms' z = bk ms z).
  { intros z Hze Hz. rewrite B by done. rewrite decide_False; [done|]. by intros ?%head_Some_elem_of. }
  eapply imap_update; [done|exact Hb|done|apply S|done| | |].
  - eapply backs_cons_insert; [|done|exact B|by apply Hbk].
    apply NoDup_cons. split; [by intros ?%Hin|exact (table_bucket_nodup _ _ _ _ _ _ _ Ht Hb)].
  - intros z Hz Hzb. apply Hother; [by intros ->|done].
  - intros z Hzn Hz. rewrite Hj, not_elem_of_cons in Hz. destruct Hz as [Hze Hz].
    rewrite Hother by auto. by apply Hfree.
Qed.

(** *** Emptying the table *)
Lemma empty_bucket_run n ms arr bs i b fuel c ls pl :
  imap n ms arr bs → bs !! i = Some b → (length b < fuel)%nat →
  ∃ ms' arr', empty_bucket fuel i (Store c ls (Some ms) (Some arr) pl) = Some ((), Store c ls (Some ms') (Some arr') pl) ∧
    imap n ms' arr' (<[i := []]> bs).
Proof.
  revert ms arr bs fuel. induction b as [|e b IH]; intros ms arr bs [|fuel] Him Hb Hf; cbn in Hf; try lia;
    destruct (Forall2_lookup_r _ _ _ _ _ (tb_chains _ _ _ _ _ (im_table _ _ _ _ Him)) Hb) as (p & Hp & Hc);
    cbn [empty_bucket]; rewrite (C_bind_Some _ _ _ _ _ (ds_read_bucket_run arr i p _ _ _ _ Hp)).
  - cbn in Hc. subst p. exists ms, arr. split; [done|]. by rewrite list_insert_id.
  - cbn in Hc. destruct Hc as (-> & _).
    assert (Hi : home (Z.of_nat n) (ky ms e) = i).
    { eapply (tb_home _ _ _ _ _ (im_table _ _ _ _ Him)); [exact Hb|left]. }
    destruct (int_map_remove_run n ms arr bs e [] b c ls pl Him) as (ms1 & arr1 & R1 & Him1 & _ & _); [by rewrite Hi|].
    rewrite Hi in Him1. rewrite (C_bind_Some _ _ _ _ _ R1).
    destruct (IH ms1 arr1 _ fuel Him1) as (ms2 & arr2 & R2 & Him2).
    { by rewrite list_lookup_insert_eq by (by eapply lookup_lt_Some). }
    { lia. }
    exists ms2, arr2. split; [done|]. by rewrite list_insert_insert_eq in Him2.
Qed.

Lemma empty_buckets_run n count i fuel ms arr bs c ls pl :
  imap n ms arr bs → (i + count = n)%nat → (n < fuel)%nat →
  ∃ ms' arr', empty_buckets count i fuel (Store c ls (Some ms) (Some arr) pl) = Some ((), Store c ls (Some ms') (Some arr') pl) ∧
    length ms' = n.
Proof.
  revert i ms arr bs. induction count as [|count IH]; intros i ms arr bs Him Hi Hf; cbn [empty_buckets].
  { exists ms, arr. split; [done|]. by eapply im_len. }
  destruct (tb_count _ _ _ _ _ (im_table _ _ _ _ Him)) as [_ Hlb].
  destruct (lookup_lt_is_Some_2 bs i) as [b Hb]; [lia|].
  destruct (empty_bucket_run n ms arr bs i b fuel c ls pl Him Hb) as (ms1 & arr1 & R1 & Him1).
  { pose proof (bucket_length _ _ _ _ _ _ Him Hb). lia. }
  rewrite (C_bind_Some _ _ _ _ _ R1). eapply IH; [exact Him1|lia|done].
Qed.
End map.

(** ** The cache *)
Section list_facts.
Implicit Types (ls : gmap place (node place ())) (p x : place) (l : list place)
  (c : option LruCache) (mo : option (list IntMapEntry)) (ao : option (list (option nat))) (pl : list bool).

Lemma ring_insert_other ls p l x n : x ∉ p :: l → ring ls p l → ring (<[x := n]> ls) p l.
Proof.
  intros Hx [Hnd Hn Hp]. assert (Hne : ∀ y, y ∈ p :: l → x ≠ y) by (intros y Hy ->; done).
  split; [done|..].
  - eapply seg_ext; [|exact Hn]. intros y Hy. unfold next_of. by rewrite lookup_insert_ne by auto.
  - eapply seg_ext; [|exact Hp]. intros y Hy. unfold prev_of. rewrite lookup_insert_ne; [done|].
    apply Hne. apply elem_of_cons in Hy as [->|Hy]; [left|right]. by rewrite elem_of_reverse in Hy.
Qed.

Lemma list_init_run ls x c mo ao pl :
  x ∈ dom ls → list_init x (Store c ls mo ao pl) = Some ((), Store c (<[x := Node x x ()]> ls) mo ao pl).
Proof. intros [n Hn]%elem_of_dom. unfold list_init, on_links, deref. cunfold. cbn. by rewrite Hn. Qed.

Lemma ds_list_remove_run ls l1 x l2 c mo ao pl :
  ring ls Head (l1 ++ x :: l2) →
  ∃ ls', list_remove x (Store c ls mo ao pl) = Some ((), Store c ls' mo ao pl) ∧
    ring ls' Head (l1 ++ l2) ∧ dom ls' = dom ls.
Proof.
  intros Hr. destruct (detach_run ls Head l1 x l2 Hr) as (h & Hd & Hr1 & [Hdom _]).
  assert (Hx : x ∈ dom ls) by (eapply ring_dom; [exact Hr|right; apply elem_of_app; right; left]).
  exists (<[x := Node x x ()]> h). unfold list_remove.
  assert (R1 : on_links (detach x) (Store c ls mo ao pl) = Some ((), Store c h mo ao pl)).
  { unfold on_links. cbn. by rewrite Hd. }
  rewrite (C_bind_Some _ _ _ _ _ R1). split; [apply list_init_run; by rewrite Hdom|]. split.
  - apply ring_insert_other; [|done]. assert (Hnd := ring_nodup _ _ _ Hr).
    apply NoDup_cons in Hnd as [H1 Hnd]. apply NoDup_app in Hnd as (_ & N2 & N3). apply NoDup_cons in N3 as [N3 _].
    rewrite not_elem_of_cons, not_elem_of_app. split; [intros ->; apply H1; apply elem_of_app; right; left|].
    split; [|done]. intros Hin. apply (N2 x Hin). left.
  - rewrite <- Hdom. apply dom_insert_lookup_L. apply elem_of_dom. by rewrite Hdom.
Qed.

Lemma ds_list_push_front_run ls x l c mo ao pl :
  ring ls Head l → x ∉ Head :: l → x ∈ dom ls →
  ∃ ls', list_push_front Head x (Store c ls mo ao pl) = Some ((), Store c ls' mo ao pl) ∧
    ring ls' Head (x :: l) ∧ dom ls' = dom ls.
Proof.
  intros Hr Hx Hd. destruct (prepend_run ls Head x l Hr Hx Hd) as (h & Hp & Hr1 & [Hdom _]).
  exists h. split; [|done]. unfold list_push_front, on_links. cbn. by rewrite Hp.
Qed.
End list_facts.

Section cache_facts.
Implicit Types (ls : gmap place (node place ())) (ms : list IntMapEntry) (arr : list (option nat))
  (e x : nat) (xs ys : list nat) (bs : list (list nat)) (pl : list bool) (k u : Z).

(** The elements [es] are in the map, those of [xs] in the list, the most recent first. *)
Record crep (n : nat) ls ms arr es xs bs : Prop := {
  cr_map : imap n ms arr bs;
  cr_members : mjoin bs ≡ₚ es;
  cr_values : ∀ e, e ∈ es → vl ms e = Some (Some e);
  cr_keys : NoDup (ky ms <$> es);
  cr_ring : ring ls Head (Elem <$> xs);
  cr_dom : ∀ e, (e < n)%nat → Elem e ∈ dom ls }.

Definition full_cache (n : nat) u : option LruCache := Some (Cache true (Z.of_nat n) true (Z.of_nat n) u).

Lemma elem_in_list e xs : e ∉ xs → Elem e ∉ Head :: (Elem <$> xs).
Proof.
  intros He. rewrite not_elem_of_cons. split; [done|]. intros (y & [= <-] & Hy)%list_elem_of_fmap. done.
Qed.

Lemma push_front_crep n ls ms arr e ys bs c pl :
  crep n ls ms arr (e :: ys) ys bs → e ∉ ys → (e < n)%nat →
  ∃ ls', list_push_front Head (Elem e) (Store c ls (Some ms) (Some arr) pl) = Some ((), Store c ls' (Some ms) (Some arr) pl) ∧
    crep n ls' ms arr (e :: ys) (e :: ys) bs.
Proof.
  intros [H1 H2 H3 H4 H5 H6] He Hen.
  destruct (ds_list_push_front_run ls (Elem e) (Elem <$> ys) c (Some ms) (Some arr) pl H5) as (ls' & R & Hr & Hd).
  { by apply elem_in_list. }
  { by apply H6. }
  exists ls'. split; [done|]. split; try done. intros z Hz. rewrite Hd. by apply H6.
Qed.

Lemma remove_crep n ls ms arr xs1 e xs2 bs c pl :
  crep n ls ms arr (xs1 ++ e :: xs2) (xs1 ++ e :: xs2) bs →
  ∃ ls', list_remove (Elem e) (Store c ls (Some ms) (Some arr) pl) = Some ((), Store c ls' (Some ms) (Some arr) pl) ∧
    crep n ls' ms arr (e :: xs1 ++ xs2) (xs1 ++ xs2) bs ∧ e ∉ xs1 ++ xs2 ∧ (e < n)%nat.
Proof.
  intros [H1 H2 H3 H4 H5 H6]. rewrite fmap_app, fmap_cons in H5.
  destruct (ds_list_remove_run ls (Elem <$> xs1) (Elem e) (Elem <$> xs2) c (Some ms) (Some arr) pl H5) as (ls' & R & Hr & Hd).
  assert (Hp : xs1 ++ e :: xs2 ≡ₚ e :: xs1 ++ xs2) by (symmetry; apply Permutation_middle).
  exists ls'. split; [done|]. split; [|split].
  - split; [done|by rewrite H2|intros z Hz; apply H3; by rewrite Hp|by rewrite <- Hp|by rewrite fmap_app|].
    intros z Hz. rewrite Hd. by apply H6.
  - pose proof (tb_nodup _ _ _ _ _ (im_table _ _ _ _ H1)) as Hnd. rewrite H2, Hp in Hnd.
    by apply NoDup_cons in Hnd as [? _].
  - eapply member_range; [exact H1|]. rewrite H2, Hp. left.
Qed.

(** A free element is given the key and is put in the map. *)
Lemma ds_fill_run n ls ms arr e ys bs k ib eb cp u pl :
  crep n ls ms arr ys ys bs → e ∉ ys → (e < n)%nat → k ∉ ky ms <$> ys →
  let s := λ ms arr, Store (Some (Cache ib (Z.of_nat n) eb cp u)) ls (Some ms) (Some arr) pl in
  ∃ ms' arr' bs', (m ← load_entry e;
      store_entry e (MapEntry k (value m) (m_next m) (prev_next m));;
      m ← load_entry e;
      store_entry e (MapEntry (key m) (Some e) (m_next m) (prev_next m));;
      inserted ← int_map_insert e;
      assert inserted;;
      mret e) (s ms arr) = Some (e, s ms' arr') ∧
    crep n ls ms' arr' (e :: ys) ys bs' ∧ ky ms' e = k ∧ (∀ z, z ≠ e → ky ms' z = ky ms z).
Proof.
  intros [Him Hmem Hv Hk Hr Hd] He Hen Hkn s. pose proof Him as [Hlen Ht Hbk Hfree].
  assert (Hem : e ∉ mjoin bs) by (by rewrite Hmem).
  destruct (lookup_lt_is_Some_2 ms e) as [m Hm]; [lia|].
  assert (Hpn : prev_next m = None).
  { specialize (Hfree e Hen Hem). unfold bk in Hfree. rewrite Hm in Hfree. by injection Hfree. }
  unfold s. rewrite (C_bind_Some _ _ _ _ _ (load_entry_run ms e m _ _ _ _ Hm)).
  erewrite C_bind_Some by (by apply (store_entry_run ms e m)).
  set (m1 := MapEntry k (value m) (m_next m) (prev_next m)).
  assert (Hm1 : <[e := m1]> ms !! e = Some m1) by (by rewrite list_lookup_insert_eq by lia).
  rewrite (C_bind_Some _ _ _ _ _ (load_entry_run _ e m1 _ _ _ _ Hm1)).
  erewrite C_bind_Some by (by apply (store_entry_run _ e m1)). rewrite list_insert_insert_eq. cbn [m1 key m_next prev_next].
  set (m2 := MapEntry k (Some e) (m_next m) (prev_next m)). set (ms2 := <[e := m2]> ms).
  assert (Hm2 : ms2 !! e = Some m2) by (unfold ms2; by rewrite list_lookup_insert_eq by lia).
  assert (Hother : ∀ z, z ≠ e → ms2 !! z = ms !! z) by (intros z Hz; unfold ms2; by rewrite list_lookup_insert_ne).
  assert (Hmo : ∀ z, z ∈ mjoin bs → z ≠ e) by (by intros z Hz ->).
  assert (Him2 : imap n ms2 arr bs).
  { split.
    - unfold ms2. by rewrite length_insert.
    - destruct Ht as [T1 T2 T3 T4]. split; [done| |done|].
      + apply Forall2_same_length_lookup_2; [by eapply Forall2_length|]. intros i p b Hp Hb.
        eapply chain_ext; [|exact (Forall2_lookup_lr _ _ _ _ _ _ T2 Hp Hb)]. intros z Hz. unfold lk. rewrite Hother; [done|].
        apply Hmo. apply list_elem_of_join. exists b. split; [done|]. by eapply list_elem_of_lookup_2.
      + intros i b z Hb Hz. unfold ky. rewrite Hother; [by eapply T4|]. apply Hmo. apply list_elem_of_join.
        exists b. split; [done|]. by eapply list_elem_of_lookup_2.
    - intros i b Hb. eapply backs_ext; [|by apply Hbk]. intros z Hz. unfold bk. rewrite Hother; [done|].
      apply Hmo. apply list_elem_of_join. exists b. split; [done|]. by eapply list_elem_of_lookup_2.
    - intros z Hzn Hz. destruct (decide (z = e)) as [->|Hze].
      + unfold bk. rewrite Hm2. cbn. by rewrite Hpn.
      + unfold bk. rewrite Hother by done. by apply Hfree. }
  assert (Hkys : ky ms2 <$> ys = ky ms <$> ys).
  { apply list_fmap_ext. intros i z Hz%list_elem_of_lookup_2. unfold ky. rewrite Hother; [done|]. by intros ->. }
  destruct (int_map_insert_run n ms2 arr bs e m2 ib eb cp u ls pl Him2 Hm2 Hem) as (ms3 & arr3 & bs3 & R3 & Him3 & Hm3 & S3).
  { rewrite Hmem, Hkys. exact Hkn. }
  cbv zeta in R3. rewrite (C_bind_Some _ _ _ _ _ R3). cstep. exists ms3, arr3, bs3. split; [done|].
  assert (Hke : ky ms3 e = k) by (destruct (S3 e) as [-> _]; unfold ky; by rewrite Hm2).
  assert (Hkz : ∀ z, z ≠ e → ky ms3 z = ky ms z).
  { intros z Hz. destruct (S3 z) as [-> _]. unfold ky. by rewrite Hother. }
  split; [|done]. split; [done|by rewrite Hm3, Hmem| | |done|done].
  - intros z [->|Hz]%elem_of_cons; destruct (S3 z) as [_ ->] || destruct (S3 e) as [_ ->].
    + unfold vl. by rewrite Hm2.
    + unfold vl. rewrite Hother by (by intros ->). by apply Hv.
  - rewrite fmap_cons, Hke. replace (ky ms3 <$> ys) with (ky ms <$> ys); [by apply NoDup_cons|].
    apply list_fmap_ext. intros i z Hz%list_elem_of_lookup_2. symmetry. apply Hkz. by intros ->.
Qed.
End cache_facts.

Section refinement.
Implicit Types (ls : gmap place (node place ())) (ms : list IntMapEntry) (arr : list (option nat))
  (e x : nat) (xs ys : list nat) (bs : list (list nat)) (pl : list bool) (k u : Z) (a : lru Z Z).

(** The cache of capacity [n] holds the items of [a]; its first elements are in use. *)
Definition holds (s : store) (n : nat) a : Prop :=
  cap a = n ∧
  (n = 0%nat ∧ items a = [] ∧ (∃ ls pl, s = Store (Some (Cache false 0 false 0 0)) ls None None pl ∧ delete Head ls = ∅) ∨
   n ≠ 0%nat ∧ ∃ ls ms arr xs bs pl,
     s = Store (full_cache n (Z.of_nat (length xs))) ls (Some ms) (Some arr) pl ∧ crep n ls ms arr xs xs bs ∧
     xs ≡ₚ seq 0 (length xs) ∧ (length xs ≤ n)%nat ∧ items a = slot_items (ky ms) xs).

Lemma holds_full n ls ms arr xs bs pl :
  n ≠ 0%nat → crep n ls ms arr xs xs bs → xs ≡ₚ seq 0 (length xs) → (length xs ≤ n)%nat →
  holds (Store (full_cache n (Z.of_nat (length xs))) ls (Some ms) (Some arr) pl) n (Lru n (slot_items (ky ms) xs)).
Proof. intros Hn Hr Hp Hl. split; [done|]. right. split; [done|]. by exists ls, ms, arr, xs, bs, pl. Qed.

(** The element that a miss fills. *)
Lemma ds_take_run n ls ms arr xs bs pl :
  n ≠ 0%nat → crep n ls ms arr xs xs bs → xs ≡ₚ seq 0 (length xs) → (length xs ≤ n)%nat →
  let s := λ u ls ms arr, Store (full_cache n u) ls (Some ms) (Some arr) pl in
  let u := Z.of_nat (length xs) in
  let ys := if decide (length xs = n) then removelast xs else xs in
  ∃ e ls1 ms1 arr1 bs1, (if u <? Z.of_nat n then
      update_cache (Cache true (Z.of_nat n) true (Z.of_nat n) (u + 1));;
      list_init (Elem (Z.to_nat u));;
      mret (Z.to_nat u)
    else
      h ← on_links (deref Head);
      entry ← match prev h with Elem i => mret i | _ => undefined end;
      list_remove (Elem entry);;
      int_map_remove entry;;
      mret entry) (s u ls ms arr) = Some (e, s (Z.of_nat (S (length ys))) ls1 ms1 arr1) ∧
    crep n ls1 ms1 arr1 ys ys bs1 ∧ e ∉ ys ∧ (e < n)%nat ∧ (∀ z, ky ms1 z = ky ms z) ∧
    e :: ys ≡ₚ seq 0 (S (length ys)) ∧ (S (length ys) ≤ n)%nat.
Proof.
  intros Hn Hr Hf Hroom s u ys. destruct (decide (length xs = n)) as [Hfull|Hfull]; subst ys u.
  - rewrite (proj2 (Z.ltb_ge _ _)) by lia. destruct xs as [|e ys _] using rev_ind; [cbn in *; lia|].
    rewrite removelast_last. rewrite length_app in *. cbn [length] in *.
    pose proof (cr_ring _ _ _ _ _ _ _ Hr) as Hring.
    assert (Hprev : prev_of ls Head = Some (Elem e)).
    { destruct Hring as [_ _ Hp]. apply seg_first in Hp. rewrite fmap_app, reverse_app in Hp. exact Hp. }
    unfold prev_of in Hprev. apply fmap_Some_1 in Hprev as (h & Hh & Hpe).
    assert (R0 : on_links (deref Head) (s (Z.of_nat (length ys + 1)) ls ms arr) =
      Some (h, s (Z.of_nat (length ys + 1)) ls ms arr)).
    { unfold on_links, deref, s. cunfold. cbn. by rewrite Hh. }
    rewrite (C_bind_Some _ _ _ _ _ R0), <- Hpe. cstep.
    destruct (remove_crep n ls ms arr ys e [] bs (full_cache n (Z.of_nat (length ys + 1))) pl Hr) as (ls1 & R1 & Hr1 & He & Hen).
    rewrite !app_nil_r in *. rewrite (C_bind_Some _ _ _ _ _ R1).
    destruct Hr1 as [Him Hmem Hv Hk Hring1 Hd].
    destruct (elem_of_bucket _ _ _ _ _ e (im_table _ _ _ _ Him)) as (b & Hb & Heb); [rewrite Hmem; left|].
    destruct (list_elem_of_split _ _ Heb) as (b1 & b2 & ->).
    destruct (int_map_remove_run n ms arr bs e b1 b2 (full_cache n (Z.of_nat (length ys + 1))) ls1 pl Him Hb)
      as (ms2 & arr2 & R2 & Him2 & Hm2 & S2). rewrite (C_bind_Some _ _ _ _ _ R2).
    eexists e, ls1, ms2, arr2, _. split.
    { replace (S (length ys)) with (length ys + 1)%nat by lia. done. }
    split; [|split; [done|split; [done|split; [apply S2|split; [|lia]]]]].
    + split; [exact Him2| | | |done|done].
      * rewrite Hmem in Hm2. by apply Permutation_cons_inv in Hm2.
      * intros z Hz. destruct (S2 z) as [_ ->]. apply Hv. by right.
      * rewrite fmap_cons in Hk. apply NoDup_cons in Hk as [_ Hk].
        replace (ky ms2 <$> ys) with (ky ms <$> ys); [done|]. apply list_fmap_ext. intros i z _. by destruct (S2 z) as [-> _].
    + rewrite Permutation_cons_append. by replace (S (length ys)) with (length ys + 1)%nat by lia.
  - assert (Hlt : (length xs < n)%nat) by lia. rewrite (proj2 (Z.ltb_lt _ _)) by lia. unfold s, full_cache. cstep.
    rewrite Nat2Z.id.
    assert (He : length xs ∉ xs) by (intros Hin; rewrite Hf in Hin at 2; apply elem_of_seq in Hin; lia).
    cbn [set_cache links mappings buckets plan].
    erewrite C_bind_Some by (apply list_init_run; by apply (cr_dom _ _ _ _ _ _ _ Hr)).
    eexists (length xs), _, ms, arr, bs. split.
    { replace (Z.of_nat (S (length xs))) with (Z.of_nat (length xs) + 1) by lia. done. }
    split; [|split; [done|split; [done|split; [done|split; [|lia]]]]].
    + destruct Hr as [Him Hmem Hv Hk Hring Hd]. split; try done.
      * apply ring_insert_other; [by apply elem_in_list|done].
      * intros z Hz. rewrite dom_insert. apply elem_of_union_r. by apply Hd.
    + rewrite seq_S, Permutation_app_comm. cbn. by apply Permutation_skip.
Qed.

Lemma lru_access_run k s n a :
  holds s n a → ∃ s', lru_access k s = Some ((access id k a).1.1, s') ∧ holds s' n (access id k a).2.
Proof.
  intros [Hcap [(-> & Hit & ls & pl & -> & Hls)|(Hn & ls & ms & arr & xs & bs & pl & -> & Hr & Hf & Hroom & Hit)]].
  { eexists. unfold access. rewrite Hcap, decide_True by done. split; [done|]. split; [done|]. left.
    split; [done|]. split; [done|]. by eexists _, _. }
  unfold lru_access. cstep. cbn [capacity]. rewrite (proj2 (Z.eqb_neq _ _)) by lia.
  destruct (int_map_find_run n ms arr bs k true true (Z.of_nat n) (Z.of_nat (length xs)) ls pl (cr_map _ _ _ _ _ _ _ Hr))
    as (b & Hb & Hfind).
  cbv zeta in Hfind. unfold full_cache at 1. rewrite (C_bind_Some _ _ _ _ _ Hfind).
  pose proof (search_table _ _ _ _ _ k b (im_table _ _ _ _ (cr_map _ _ _ _ _ _ _ Hr)) Hb) as Hs.
  pose proof (cr_members _ _ _ _ _ _ _ Hr) as Hmem. pose proof (cr_keys _ _ _ _ _ _ _ Hr) as Hk.
  destruct a as [ca its]. cbn [cap items] in *. subst ca its.
  destruct (search (ky ms) k b) as [e|].
  - destruct Hs as (He & _ & <-). rewrite Hmem in He. pose proof (cr_values _ _ _ _ _ _ _ Hr e He) as Hv.
    unfold vl in Hv. apply fmap_Some_1 in Hv as (m & Hm & Hmv).
    destruct (list_elem_of_split _ _ He) as (xs1 & xs2 & ->).
    rewrite C_bind_assoc, (C_bind_Some _ _ _ _ _ (load_entry_run ms e m _ _ _ _ Hm)), <- Hmv.
    rewrite C_bind_assoc. cstep.
    destruct (remove_crep n ls ms arr xs1 e xs2 bs (full_cache n (Z.of_nat (length (xs1 ++ e :: xs2)))) pl Hr) as (ls1 & R1 & Hr1 & Hex & Hen).
    unfold full_cache at 1 in R1. rewrite C_bind_assoc, (C_bind_Some _ _ _ _ _ R1). cstep.
    destruct (push_front_crep n ls1 ms arr e (xs1 ++ xs2) bs (full_cache n (Z.of_nat (length (xs1 ++ e :: xs2)))) pl Hr1 Hex Hen) as (ls2 & R2 & Hr2).
    rewrite (C_bind_Some _ _ _ _ _ R2). eexists. rewrite access_slot_hit by done. split; [done|]. cbn [snd].
    assert (Hlen : length (xs1 ++ e :: xs2) = length (e :: xs1 ++ xs2)) by (cbn; rewrite !length_app; cbn; lia).
    rewrite Hlen. apply (holds_full n ls2 ms arr (e :: xs1 ++ xs2) bs pl Hn Hr2); [|lia].
    by rewrite <- Hlen, <- Hf, Permutation_middle.
  - rewrite Hmem in Hs. destruct (ds_take_run n ls ms arr xs bs pl Hn Hr Hf Hroom) as
      (e & ls1 & ms1 & arr1 & bs1 & R1 & Hr1 & He & Hen & Hk1 & Hp & Hle).
    cbv zeta in R1. unfold full_cache at 1 in R1. cbn [used index_buckets bucket_count entries].
    rewrite C_bind_assoc, (C_bind_Some _ _ _ _ _ R1). set (ys := if decide _ then _ else _) in *.
    assert (Hks : k ∉ ky ms1 <$> ys).
    { replace (ky ms1 <$> ys) with (ky ms <$> ys) by (apply list_fmap_ext; intros; by rewrite Hk1).
      unfold ys. intros Hin. apply Hs. destruct (decide _); [|done]. apply list_elem_of_fmap in Hin as (z & -> & Hz).
      apply list_elem_of_fmap_2. rewrite removelast_take in Hz. apply elem_of_take in Hz as (i & Hz & _). by eapply list_elem_of_lookup_2. }
    destruct (ds_fill_run n ls1 ms1 arr1 e ys bs1 k true true (Z.of_nat n) (Z.of_nat (S (length ys))) pl Hr1 He Hen Hks)
      as (ms2 & arr2 & bs2 & R2 & Hr2 & Hke & Hkz).
    cbv zeta in R2. unfold full_cache at 1. rewrite (C_bind_Some _ _ _ _ _ R2).
    destruct (push_front_crep n ls1 ms2 arr2 e ys bs2 (full_cache n (Z.of_nat (S (length ys)))) pl Hr2 He Hen) as (ls3 & R3 & Hr3).
    unfold full_cache at 1 in R3. rewrite (C_bind_Some _ _ _ _ _ R3). eexists. rewrite access_slot_miss by done.
    split; [done|]. cbn [snd]. fold ys.
    replace ((k, k) :: slot_items (ky ms) ys) with (slot_items (ky ms2) (e :: ys)).
    { change (S (length ys)) with (length (e :: ys)).
      apply (holds_full n ls3 ms2 arr2 (e :: ys) bs2 pl Hn Hr3); [exact Hp|exact Hle]. }
    unfold slot_items. rewrite fmap_cons, Hke. f_equal. apply list_fmap_ext.
    intros i z Hz%list_elem_of_lookup_2. rewrite Hkz, Hk1; [done|]. by intros ->.
Qed.
End refinement.

(** ** Creation and destruction *)
Section life.
Implicit Types (ls : gmap place (node place ())) (ms : list IntMapEntry) (arr : list (option nat))
  (e : nat) (bs : list (list nat)) (pl : list bool) (a : lru Z Z) (s : store).

Definition nothing pl : store := Store None ∅ None None pl.

Lemma calloc_run s :
  ∃ b pl, calloc_ok s = Some (b, Store (cache s) (links s) (mappings s) (buckets s) pl) ∧
    (Forall Is_true (plan s) → b = true ∧ Forall Is_true pl).
Proof.
  unfold calloc_ok. destruct (plan s) as [|b pl] eqn:Hp.
  - exists true, []. destruct s; cbn in *. subst. auto.
  - exists b, pl. split; [done|]. intros [Hb ?]%Forall_cons. by destruct b.
Qed.

(** Destruction of a cache without a table. *)
Lemma destroy_empty_run ls pl :
  delete Head ls = ∅ → lru_destroy (Store (Some (Cache false 0 false 0 0)) ls None None pl) = Some ((), nothing pl).
Proof.
  intros Hls. transitivity (Some ((), Store None (delete Head ls) None None pl)); [reflexivity|by rewrite Hls].
Qed.

Lemma free_all_links ls : delete Head (filter (λ x : place * node place (), x.1 = Head) ls) = ∅.
Proof.
  apply map_eq. intros p. rewrite lookup_empty. destruct (decide (p = Head)) as [->|Hne]; [by rewrite lookup_delete_eq|].
  rewrite lookup_delete_ne by done. apply map_lookup_filter_None. right. by intros.
Qed.

Lemma destroy_no_table_run ls ms pl :
  lru_destroy (Store (Some (Cache false 0 true 0 0)) ls (Some ms) None pl) = Some ((), nothing pl).
Proof.
  transitivity (Some ((), Store None (delete Head (filter (λ x : place * node place (), x.1 = Head) ls)) None None pl));
    [reflexivity|by rewrite free_all_links].
Qed.

Lemma destroy_full_run n ls ms arr bs u cp pl :
  imap n ms arr bs →
  lru_destroy (Store (Some (Cache true (Z.of_nat n) true cp u)) ls (Some ms) (Some arr) pl) = Some ((), nothing pl).
Proof.
  intros Him. unfold lru_destroy. cstep. cbn [cache]. unfold int_map_destroy. rewrite !C_bind_assoc. cstep.
  rewrite !C_bind_assoc. cstep. cbn [bucket_count mappings]. rewrite Nat2Z.id.
  match goal with |- context [empty_buckets n 0 ?f] => replace f with (S n) by (by rewrite <- (im_len _ _ _ _ Him)) end.
  destruct (empty_buckets_run n n 0 (S n) ms arr bs (Some (Cache true (Z.of_nat n) true cp u)) ls pl Him)
    as (ms1 & arr1 & R1 & _); [lia|lia|].
  rewrite C_bind_assoc, (C_bind_Some _ _ _ _ _ R1).
  transitivity (Some ((), Store None (delete Head (filter (λ x : place * node place (), x.1 = Head) ls)) None None pl));
    [reflexivity|by rewrite free_all_links].
Qed.

Lemma holds_destroy s n a : holds s n a → ∃ pl, lru_destroy s = Some ((), nothing pl).
Proof.
  intros [_ [(_ & _ & ls & pl & -> & Hls)|(_ & ls & ms & arr & xs & bs & pl & -> & Hr & _)]]; exists pl.
  - by apply destroy_empty_run.
  - eapply destroy_full_run. by eapply cr_map.
Qed.

Lemma element_links n e :
  (e < n)%nat → (list_to_map ((λ i, (Elem i, zero_link)) <$> seq 0 n) : gmap place (node place ())) !! Elem e = Some zero_link.
Proof.
  intros He. apply elem_of_list_to_map_1.
  - rewrite <- list_fmap_compose. apply NoDup_fmap_2; [by intros ?? [= ->]|apply NoDup_seq].
  - apply list_elem_of_fmap. exists e. split; [done|]. apply elem_of_seq. lia.
Qed.

Lemma head_links n :
  (list_to_map ((λ i, (Elem i, zero_link)) <$> seq 0 n) : gmap place (node place ())) !! Head = None.
Proof.
  apply not_elem_of_list_to_map_1. rewrite <- list_fmap_compose. by intros (i & Hi & _)%list_elem_of_fmap.
Qed.

Definition new_links (n : nat) : gmap place (node place ()) :=
  list_to_map ((λ i, (Elem i, zero_link)) <$> seq 0 n) ∪ {[Head := Node Head Head ()]}.

Lemma new_crep n :
  n ≠ 0%nat → crep n (new_links n) (replicate n zero_mapping) (replicate n None) [] [] (replicate n []).
Proof.
  intros Hn. assert (Hj : mjoin (replicate n []) = ([] : list nat)).
  { clear Hn. induction n as [|n IH]; [done|]. exact IH. }
  assert (Hhead : new_links n !! Head = Some (Node Head Head ())).
  { unfold new_links. rewrite lookup_union_r by apply head_links. by rewrite lookup_singleton_eq. }
  split; [split| | | | |].
  - apply length_replicate.
  - split.
    + rewrite length_replicate. lia.
    + by apply Forall2_replicate.
    + rewrite Hj. constructor.
    + intros i b x Hi Hx. apply lookup_replicate in Hi as [-> _]. by apply elem_of_nil in Hx.
  - intros i b Hb. by apply lookup_replicate in Hb as [-> _].
  - intros e He _. unfold bk. by rewrite lookup_replicate_2.
  - by rewrite Hj.
  - by intros e He%elem_of_nil.
  - constructor.
  - split; [apply NoDup_singleton| |]; cbn; unfold next_of, prev_of; by rewrite Hhead.
  - intros e He. apply elem_of_dom. unfold new_links. erewrite lookup_union_Some_l by (by apply element_links). by eexists.
Qed.

Lemma ds_lru_create_run p (n : Z) :
  0 <= n <= INT64_MAX →
  ∃ ok s, lru_create n (nothing p) = Some (ok, s) ∧
    (ok = false ∧ (∃ pl, s = nothing pl) ∧ (Forall Is_true p → SIZE_MAX `div` SIZEOF_CACHE_ENTRY < n) ∨
     ok = true ∧ holds s (Z.to_nat n) (Lru (Z.to_nat n) [])).
Proof.
  intros Hn. unfold lru_create. destruct (Z.ltb_spec (SIZE_MAX `div` SIZEOF_CACHE_ENTRY) n) as [Hbig|Hsmall].
  { eexists _, _. split; [done|]. left. eauto. }
  destruct (calloc_run (nothing p)) as (b1 & p1 & R1 & P1). rewrite (C_bind_Some _ _ _ _ _ R1). cbn in P1.
  destruct b1; cbn [negb].
  2: { eexists _, _. split; [done|]. left. split; [done|]. split; [by eexists|]. intros Hp. by destruct (P1 Hp). }
  cstep. unfold set_cache, set_links, nothing. cbn [cache links mappings buckets plan].
  erewrite C_bind_Some by (apply list_init_run; rewrite dom_insert; set_solver).
  rewrite insert_insert_eq. set (h := <[Head := _]> ∅).
  assert (Hh : delete Head h = ∅) by (unfold h; rewrite delete_insert_eq; by rewrite delete_empty).
  destruct (Z.eqb_spec n 0) as [->|Hn0].
  { rewrite C_bind_ret. cstep. eexists _, _. split; [done|]. right. split; [done|]. split; [done|]. left.
    split; [done|]. split; [done|]. by eexists _, _. }
  rewrite C_bind_assoc.
  destruct (calloc_run (Store (Some (Cache false 0 false 0 0)) h None None p1)) as (b2 & p2 & R2 & P2).
  rewrite (C_bind_Some _ _ _ _ _ R2). cbn [plan] in P2. destruct b2; cbn [negb].
  2: { rewrite C_bind_ret. rewrite (C_bind_Some _ _ _ _ _ (destroy_empty_run h p2 Hh)).
       eexists _, _. split; [done|]. left. split; [done|]. split; [by eexists|].
       intros Hp. destruct (P1 Hp) as [_ Hp1]. by destruct (P2 Hp1). }
  rewrite C_bind_assoc. cstep. rewrite C_bind_assoc. cstep. rewrite C_bind_assoc. cstep. rewrite C_bind_assoc.
  unfold set_cache, set_links, set_mappings. cbn [cache links mappings buckets plan index_buckets bucket_count entries capacity used].
  change (list_to_map _ ∪ h) with (new_links (Z.to_nat n)).
  unfold int_map_init. rewrite C_bind_assoc. cstep. rewrite C_bind_assoc. cstep.
  unfold set_cache. cbn [cache links mappings buckets plan index_buckets bucket_count entries capacity used].
  rewrite (proj2 (Z.eqb_neq n 0)) by done. rewrite (proj2 (Z.ltb_ge (SIZE_MAX `div` SIZEOF_PTR) n)).
  2: { change (SIZE_MAX `div` SIZEOF_CACHE_ENTRY) with 384307168202282325 in Hsmall.
       change (SIZE_MAX `div` SIZEOF_PTR) with 2305843009213693951. lia. }
  cbn [orb]. rewrite C_bind_assoc.
  destruct (calloc_run (Store (Some (Cache false 0 true 0 0)) (new_links (Z.to_nat n))
    (Some (replicate (Z.to_nat n) zero_mapping)) None p2)) as (b3 & p3 & R3 & P3).
  rewrite (C_bind_Some _ _ _ _ _ R3). cbn [plan] in P3. destruct b3; cbn [negb].
  2: { rewrite C_bind_ret. rewrite C_bind_ret. cbn [negb cache links mappings buckets plan].
       rewrite (C_bind_Some _ _ _ _ _ (destroy_no_table_run _ _ p3)).
       eexists _, _. split; [done|]. left. split; [done|]. split; [by eexists|].
       intros Hp. destruct (P1 Hp) as [_ Hp1]. destruct (P2 Hp1) as [_ Hp2]. by destruct (P3 Hp2). }
  cunfold. cbn. eexists _, _. split; [done|]. right. split; [done|]. split; [done|]. right. split; [lia|].
  eexists _, _, _, [], _, p3. split; [|split; [apply new_crep; lia|cbn; split_and!; [done|lia|done]]].
  unfold full_cache, set_cache, set_buckets. cbn. rewrite Z2Nat.id by lia. done.
Qed.
End life.

(** ** The program *)
Section laws.
Variable allocations : list bool.

#[local] Existing Instance ds_ops.

#[local] Program Instance ds_laws : @LruLaws store (ds_ops allocations) := {
  lru_inv s := ∃ n a, holds s n a;
  lru_plenty s := True;
  lru_rep s a := ∃ n, holds s n a }.
Next Obligation.
  intros n Hn. destruct (ds_lru_create_run allocations n Hn) as (ok & s & Hrun & Hc). cbn. unfold nothing in Hrun. rewrite Hrun.
  eexists. split; [done|]. intros s'. destruct Hc as [(-> & _)|[-> Hh]]; [done|]. intros [= <-]. by eexists.
Qed.
Next Obligation. intros s (n & a & Hh). destruct (holds_destroy s n a Hh) as (pl & Hd). cbn. by rewrite Hd. Qed.
Next Obligation. intros s a (n & Hh). by exists n, a. Qed.
Next Obligation.
  intros k s _ (n & a & Hh). destruct (lru_access_run k s n a Hh) as (s' & Hrun & Hh').
  cbn. rewrite Hrun. eexists _, s'. split; [done|]. by exists n, (access id k a).2.
Qed.
Next Obligation.
  intros k s a _ (n & Hh) _. destruct (lru_access_run k s n a Hh) as (s' & Hrun & Hh').
  cbn. rewrite Hrun. exists s'. split; [done|]. split; [|done]. by exists n.
Qed.

Lemma ds_main_run text cap ks stdout_ok :
  Forall Is_true allocations →
  reads text (cap :: Z.of_nat (length ks) :: ks) → 0 <= cap →
  Z.min cap (Z.of_nat (length ks)) <= SIZE_MAX `div` SIZEOF_CACHE_ENTRY →
  ∃ st', main allocations stdout_ok (Stream text false false) =
    Some ((if stdout_ok then EXIT_SUCCESS else EXIT_FAILURE, [count_hits (lru_hits (Z.to_nat cap) ks)]), st').
Proof.
  intros Hall Ht Hcap Hlim. unfold main.
  set (n := Z.min cap (Z.of_nat (length ks))) in *.
  assert (Hn : 0 <= n <= INT64_MAX).
  { change (SIZE_MAX `div` SIZEOF_CACHE_ENTRY) with 384307168202282325 in Hlim. unfold INT64_MAX. lia. }
  destruct (ds_lru_create_run allocations n Hn) as (ok & s & Hrun & [(_ & _ & Hbig)|[-> Hh]]).
  { specialize (Hbig Hall). lia. }
  apply (main_c_hits (ops := ds_ops allocations) CRead.read_integer text cap ks s stdout_ok Ht Hcap); [|done].
  cbn. fold n. unfold nothing in Hrun. by rewrite Hrun.
Qed.

Lemma total_run stdout_ok st : ∃ r st', main allocations stdout_ok st = Some (r, st').
Proof. eapply main_c_total; [apply ds_laws|apply c_reader_total]. Qed.
End laws.

(** ** Properties *)

(** C30: with enough memory, on an input that holds a capacity, a count and that many
    keys, the program over the intrusive list and the intrusive map prints the number of
    requests whose key is among the [capacity] most recently requested distinct keys. *)
Theorem ds_main_hits allocations text cap ks stdout_ok :
  Forall Is_true allocations →
  reads text (cap :: Z.of_nat (length ks) :: ks) → 0 <= cap →
  Z.min cap (Z.of_nat (length ks)) <= SIZE_MAX `div` SIZEOF_CACHE_ENTRY →
  ∃ st', main allocations stdout_ok (Stream text false false) =
    Some ((if stdout_ok then EXIT_SUCCESS else EXIT_FAILURE, [count_hits (lru_hits (Z.to_nat cap) ks)]), st').
Proof. apply ds_main_run. Qed.

Lemma ds_main_hits_witness :
  ∃ st', main [true; true; true] true (Stream (render sample_tokens) false false) = Some ((0, [1]), st').
Proof.
  assert (Hlim : Z.min 2 5 <= SIZE_MAX `div` SIZEOF_CACHE_ENTRY) by by vm_compute.
  assert (Hall : Forall Is_true [true; true; true]) by by repeat constructor.
  exact (ds_main_hits [true; true; true] (render sample_tokens) 2 [7; 8; 7; 9; 8] true Hall sample_reads ltac:(lia) Hlim).
Defined.

(** Whatever the input and whichever allocations fail, the program over the
    intrusive structures ends with a defined result: it follows no null pointer, indexes
    no array out of its bounds, its assertion holds and everything is released. *)
Theorem ds_main_total allocations stdout_ok st :
  ∃ r st', main allocations stdout_ok st = Some (r, st').
Proof. apply total_run. Qed.
