(* ===== verification/Idom.v ===== *)
(** * [src/17-algorithms/permutations/idomain.hpp]: integral domains

    [Idom<T, start_, fin_>] holds a value of the range from [start_] to [fin_]. A
    value is the integer it holds; the constructor is the only way to make one. The
    values of the underlying type itself wrap around. *)

From stdpp Require Import pretty.
From S2P Require Import Prelude.

(** The underlying types of [UnsignedDomain] and [CharDomain]; [char] is signed.
    [++x] wraps around in both. *)
Inductive value_type := Unsigned | Char.
Definition value_min (T : value_type) : Z := match T with Unsigned => 0 | Char => -128 end.
Definition value_max (T : value_type) : Z := match T with Unsigned => 2 ^ 32 - 1 | Char => 127 end.
Definition increment (T : value_type) (x : Z) : Z :=
  if x =? value_max T then value_min T else x + 1.

Section idom.
Variable T : value_type.
Variables start_ fin_ : Z.

Definition Idom (val : Z) : result Z :=
  if fin_ <? val then Throw (out_of_range ("value too big for domain: " +:+ pretty val))
  else if val <? start_ then Throw (out_of_range "value too small for domain")
  else Ok val.

Definition in_dom (x : Z) : Prop := start_ <= x <= fin_.

(** [fin - start + 1], computed in [unsigned] or, from [char]s, in [int]. *)
Definition iota_size : Z :=
  match T with Unsigned => (fin_ - start_ + 1) mod 2 ^ 32 | Char => fin_ - start_ + 1 end.

(** [ret[i] = value; ++value] for each element of the array. *)
Fixpoint iota_fill (n : nat) (value : Z) : result (list Z) :=
  match n with
  | O => Ok []
  | S n => x ← Idom value; xs ← iota_fill n (increment T value); Ok (x :: xs)
  end.

Definition iota : result (list Z) := iota_fill (Z.to_nat iota_size) start_.

(** Position of an element in a table over the domain. *)
Definition ix (x : Z) : nat := Z.to_nat (x - start_).

Lemma Idom_Ok val : in_dom val → Idom val = Ok val.
Proof.
  intros [H1 H2]. unfold Idom.
  by rewrite (proj2 (Z.ltb_ge _ _) H2), (proj2 (Z.ltb_ge _ _) H1).
Qed.

Lemma Idom_inv val x : Idom val = Ok x → x = val ∧ in_dom x.
Proof.
  unfold Idom, in_dom. destruct (Z.ltb_spec fin_ val), (Z.ltb_spec val start_); naive_solver.
Qed.

Lemma Idom_out val : ¬ in_dom val → ∃ what, Idom val = Throw (out_of_range what).
Proof.
  unfold in_dom, Idom. intros Hv. destruct (Z.ltb_spec fin_ val); [by eexists|].
  destruct (Z.ltb_spec val start_); [by eexists|]. lia.
Qed.

(** The bounds are values of [T], with room for the [++] after the last element. *)
Definition has_room : Prop := value_min T <= start_ ∧ fin_ < value_max T.
Hypothesis Hroom : has_room.

Lemma increment_in x : x <= fin_ → increment T x = x + 1.
Proof using Hroom.
  destruct Hroom as [_ Hmax]. intros Hx. unfold increment. by rewrite (proj2 (Z.eqb_neq _ _)) by lia.
Qed.

Lemma iota_fill_ok n v :
  start_ <= v → v + Z.of_nat n <= fin_ + 1 → iota_fill n v = Ok (seqZ v (Z.of_nat n)).
Proof using Hroom.
  revert v. induction n as [|n IH]; intros v H1 H2; [done|]. cbn [iota_fill].
  rewrite Idom_Ok by (unfold in_dom; lia). unfold mbind, result_bind.
  rewrite increment_in, IH by lia. rewrite (seqZ_cons v) by lia. do 3 f_equal; lia.
Qed.

Lemma iota_ok : start_ <= fin_ + 1 → iota = Ok (seqZ start_ (fin_ - start_ + 1)).
Proof.
  destruct Hroom as [Hmin Hmax]. intros Hd. assert (Hs : iota_size = fin_ - start_ + 1).
  { unfold iota_size. destruct T; [|done]. cbn in *. apply Z.mod_small. lia. }
  unfold iota. rewrite Hs, iota_fill_ok by lia. do 2 f_equal. lia.
Qed.

Lemma ix_inj x y : in_dom x → in_dom y → ix x = ix y → x = y.
Proof. unfold in_dom, ix. lia. Qed.
End idom.
