(* ===== verification/PermLoop.v ===== *)
(** * [src/17-algorithms/permutations/permloops.hpp]: permutation loops

    A [PermLoop<T>] over the domain from [start] to [fin] is its vector [loop_].
    [checks] tells whether the program is built with [-DCHECKS]. A failed assert,
    an access outside a table and a loop that does not end are undefined. *)

From S2P Require Import Prelude Idom.

Section permloop.
Variable T : value_type.
Variables start fin : Z.
Variable checks : bool.
Implicit Types table : list Z.

(** [std::min_element]: the position of the first smallest element, the end for an
    empty range. *)
Fixpoint min_element (l : list Z) : nat :=
  match l with
  | [] => 0%nat
  | x :: r =>
    match r !! min_element r with
    | Some y => if y <? x then S (min_element r) else 0%nat
    | None => 0%nat
    end
  end.

(** [std::rotate(begin, begin + i, end)] *)
Definition rotate (i : nat) (l : list Z) : list Z := drop i l ++ take i l.

Definition reroll loop_ : list Z := rotate (min_element loop_) loop_.

Definition check loop_ : result () :=
  match loop_ with
  | [] => Throw (runtime_error "PermLoop shall be non-empty")
  | front :: _ =>
    if decide (size (list_to_set loop_ : gset Z) ≠ length loop_)
    then Throw (runtime_error "PermLoop elements shall be unique")
    else if decide (loop_ !! min_element loop_ ≠ Some front)
    then Throw (runtime_error "Unnormalized state detected")
    else Ok ()
  end.

(** What the constructors and modifiers end with. *)
Definition checked_loop loop_ : result (list Z) :=
  if checks then (check loop_;; Ok loop_) else Ok loop_.

Definition PermLoop (ls : list Z) : result (list Z) := checked_loop (reroll ls).
Definition add (x : Z) loop_ : result (list Z) := checked_loop (reroll (loop_ ++ [x])).
Definition inverse loop_ : result (list Z) :=
  if (length loop_ <? 3)%nat then Ok loop_
  else match loop_ with [] => Ok [] | x :: r => checked_loop (x :: reverse r) end.

Definition smallest loop_ : option Z := head loop_.
Definition contains loop_ (x : Z) : bool := bool_decide (is_Some (list_find (λ y, y = x) loop_)).

(** [apply] of an element; [find] and the element after it, or the first. *)
Definition apply loop_ (x : Z) : Z :=
  match list_find (λ y, y = x) loop_ with
  | None => x
  | Some (it, _) => match loop_ !! S it with Some nxt => nxt | None => default x (head loop_) end
  end.

(** The position of [x] in a table; [x] is an element of the domain. *)
Definition index (x : Z) : option nat := if start <=? x then Some (ix start x) else None.

(** The range-based loop of [apply] on a table: [nxt] is the last position. *)
Fixpoint shift_table (front : Z) loop_ table (nxt : nat) : option (list Z * nat) :=
  match loop_ with
  | [] => Some (table, nxt)
  | l :: loop_ =>
    let prev := nxt in
    nxt ← index l;
    if l =? front then shift_table front loop_ table nxt
    else
      v ← table !! nxt;
      if (prev <? length table)%nat then shift_table front loop_ (<[prev := v]> table) nxt
      else None
  end.

Definition apply_table loop_ table : option (list Z) :=
  front ← head loop_;
  back ← last loop_;
  if (start <? fin) && (start <=? front) && (back <=? fin)
     && (Z.of_nat (length table) =? fin - start + 1)
  then
    nxt ← index front;
    tmp ← table !! nxt;
    '(table, nxt) ← shift_table front loop_ table nxt;
    if (nxt <? length table)%nat then Some (<[nxt := tmp]> table) else None
  else None.

Definition equals (lhs rhs : list Z) : bool := bool_decide (lhs = rhs).

Fixpoint less_from (lhs rhs : list Z) : bool :=
  match lhs, rhs with
  | x :: lhs, y :: rhs => if negb (x =? y) then x <? y else less_from lhs rhs
  | _, _ => false
  end.
Definition less (lhs rhs : list Z) : bool :=
  if negb (length lhs =? length rhs)%nat then (length lhs <? length rhs)%nat
  else less_from lhs rhs.

(** [dump], the elements printed by [show]. *)
Definition dump (show : Z → string) loop_ : string :=
  String.concat "" ((λ t,
    (if decide (Some t = head loop_) then "(" else "") +:+ show t +:+
    (if decide (Some t = last loop_) then ")" else " ")) <$> loop_).

(** ** [create_loops] *)

(** The inner loop: follow [table] from [nxt] back to [t], marking on the way. *)
Fixpoint follow_cycle (fuel : nat) (t : Z) table (perm : list Z) (marked : list bool) (nxt : Z)
    : E (list Z * list bool) :=
  match fuel with
  | O => None
  | S fuel =>
    if nxt =? t then mret (perm, marked)
    else
      perm ← Some (add nxt perm) : E _;
      i ← checked (index nxt);
      require (i <? length marked)%nat;;
      nxt ← checked (table !! i);
      follow_cycle fuel t table perm (<[i := true]> marked) nxt
  end.

(** [std::find(marked.begin() + k, marked.end(), false)] *)
Definition find_unmarked (k : nat) (marked : list bool) : nat :=
  match list_find (λ b, b = false) (drop k marked) with
  | Some (i, _) => (k + i)%nat
  | None => length marked
  end.

Fixpoint scan (fuel : nat) table (marked : list bool) (relt : nat) (out : list (list Z))
    : E (list (list Z)) :=
  match fuel with
  | O => None
  | S fuel =>
    if (relt =? length marked)%nat then mret out
    else
      t ← Some (Idom start fin (start + Z.of_nat relt)) : E _;
      perm ← Some (PermLoop [t]) : E _;
      nxt ← checked (table !! relt);
      '(perm, marked) ← follow_cycle (S (length table)) t table perm (<[relt := true]> marked) nxt;
      scan fuel table marked (find_unmarked (S relt) marked) (out ++ [perm])
  end.

Definition create_loops table : E (list (list Z)) :=
  scan (S (length table)) table (replicate (length table) false) 0 [].

(** ** [simplify_loops]: the loops are applied to the identity table, last first *)
Fixpoint apply_loops (loops : list (list Z)) table : option (list Z) :=
  match loops with
  | [] => Some table
  | l :: loops => table ← apply_table l table; apply_loops loops table
  end.

Definition simplify_loops (loops : list (list Z)) : E (list (list Z)) :=
  table ← Some (iota T start fin) : E _;
  table ← checked (apply_loops (reverse loops) table);
  create_loops table.
End permloop.

(** The example of the header comment, over the domain [a, g] as [1, 7]:
    (a c f g) (b c d) (a e d) (f a d e) (b g f a e) is (a d g) (b c e) (f). *)
Example simplify_header_example :
  simplify_loops Char 1 7 true [[1; 3; 6; 7]; [2; 3; 4]; [1; 5; 4]; [6; 1; 4; 5]; [2; 7; 6; 1; 5]] =
    Some (Ok [[1; 4; 7]; [2; 3; 5]; [6]]).
Proof. vm_compute. reflexivity. Qed.

Example create_header_example :
  create_loops 1 7 true [4; 3; 5; 7; 2; 6; 1] = Some (Ok [[1; 4; 7]; [2; 3; 5]; [6]]).
Proof. vm_compute. reflexivity. Qed.
