(* ===== verification/PermCycles.v ===== *)
(** * The theory of permutation loops

    Normal loops, what [apply] does to an element, to a rotated loop and to a
    table, and the cycles of a permutation given by a table. *)

From S2P Require Import Prelude Idom PermLoop.

(** A loop in the form the comment of permloops.hpp requires. *)
Definition normal (c : list Z) : Prop :=
  NoDup c ∧ ∃ x r, c = x :: r ∧ ∀ y, y ∈ r → x < y.

#[global] Hint Rewrite @elem_of_app @elem_of_cons : perm.

(** ** The smallest element first *)
Lemma min_element_spec l :
  l ≠ [] → ∃ x, l !! min_element l = Some x ∧ (∀ y, y ∈ l → x <= y) ∧
    ∀ y, y ∈ take (min_element l) l → x < y.
Proof.
  induction l as [|x l IH]; [done|]. intros _. cbn [min_element].
  destruct l as [|z l']; [|set (l := z :: l') in *].
  { exists x. split; [done|]. split; [|set_solver].
    intros y ->%list_elem_of_singleton. lia. }
  destruct IH as (m & Hm & Hle & Hlt); [done|]. rewrite Hm.
  destruct (Z.ltb_spec m x) as [Hmx|Hmx].
  - exists m. split; [done|]. split.
    + intros y [->|Hy]%elem_of_cons; [lia|auto].
    + cbn [take]. intros y [->|Hy]%elem_of_cons; [lia|auto].
  - exists x. split; [done|]. split; [|set_solver].
    intros y [->|Hy]%elem_of_cons; [lia|]. specialize (Hle y Hy). lia.
Qed.

Lemma rotate_perm i l : rotate i l ≡ₚ l.
Proof. unfold rotate. rewrite Permutation_app_comm. by rewrite take_drop. Qed.

Lemma reroll_perm l : reroll l ≡ₚ l.
Proof. apply rotate_perm. Qed.

Lemma reroll_normal l : l ≠ [] → NoDup l → normal (reroll l).
Proof.
  intros Hl Hnd. split; [by rewrite reroll_perm|].
  destruct (min_element_spec l Hl) as (x & Hx & Hle & Hlt).
  unfold reroll, rotate. erewrite drop_S by done. rewrite <- app_comm_cons.
  eexists x, _. split; [done|]. intros y [Hy|Hy]%elem_of_app; [|auto].
  assert (x <= y) by (apply Hle; rewrite <- (take_drop (S (min_element l)) l); set_solver).
  assert (x ≠ y); [|lia]. intros ->.
  rewrite <- (take_drop_middle l (min_element l) y Hx) in Hnd.
  apply NoDup_app in Hnd as (_ & _ & Hnd). by apply NoDup_cons in Hnd as [? _].
Qed.

Lemma reroll_id l : normal l → reroll l = l.
Proof.
  intros (_ & x & r & -> & Hlt). unfold reroll, rotate.
  destruct (min_element_spec (x :: r)) as (m & Hm & Hle & Htk); [done|].
  destruct (min_element (x :: r)) as [|i]; [apply app_nil_r|].
  exfalso. specialize (Htk x). cbn [take] in Htk.
  assert (m <= x) by (apply Hle; left). assert (m < x) by (apply Htk; left).
  cbn in Hm. apply list_elem_of_lookup_2, Hlt in Hm. lia.
Qed.

Lemma size_NoDup (l : list Z) : size (list_to_set l : gset Z) = length l ↔ NoDup l.
Proof.
  split; [|apply size_list_to_set].
  induction l as [|x l IH]; [constructor|]. cbn [list_to_set length].
  destruct (decide (x ∈ l)) as [Hx|Hx].
  - rewrite subseteq_union_1_L by set_solver. intros Hs. exfalso.
    assert (Hle : ∀ l : list Z, (size (list_to_set l : gset Z) ≤ length l)%nat).
    { clear. intros l. induction l as [|x l IH]; cbn [list_to_set length]; [by rewrite size_empty|].
      rewrite size_union_alt, size_singleton.
      pose proof (subseteq_size (list_to_set l ∖ {[x]} : gset Z) (list_to_set l)). set_solver by lia. }
    specialize (Hle l). lia.
  - rewrite size_union by set_solver. rewrite size_singleton. intros Hs.
    constructor; [done|]. apply IH. lia.
Qed.

(** The run-time check accepts exactly the normal loops. *)
Lemma check_normal l : check l = Ok () ↔ normal l.
Proof.
  unfold check, normal. destruct l as [|x r].
  { split; [done|]. intros (_ & x & r & [=] & _). }
  rewrite <- size_NoDup. case_decide as Hsz; [naive_solver|].
  split.
  - case_decide as Hm; [done|]. intros _. split; [done|].
    exists x, r. split; [done|]. intros y Hy.
    destruct (min_element_spec (x :: r)) as (m & Hm' & Hle & _); [done|].
    rewrite Hm in Hm'. injection Hm' as <-. assert (x <= y) by (apply Hle; by right).
    assert (x ≠ y); [|lia]. intros ->. apply size_NoDup, NoDup_cons in Hsz as [? _]. done.
  - intros (_ & x' & r' & [= <- <-] & Hlt). case_decide as Hm; [|done]. exfalso. apply Hm.
    destruct (min_element_spec (x :: r)) as (m & Hm' & Hle & _); [done|]. rewrite Hm'.
    f_equal. assert (m <= x) by (apply Hle; left).
    apply list_elem_of_lookup_2, elem_of_cons in Hm' as [->|Hin]; [done|].
    apply Hlt in Hin. lia.
Qed.

Lemma checked_loop_ok checks l : normal l → checked_loop checks l = Ok l.
Proof. intros Hl%check_normal. unfold checked_loop. destruct checks; [by rewrite Hl|done]. Qed.

(** ** [apply] of an element *)
Lemma find_split (l1 : list Z) x l2 :
  x ∉ l1 → list_find (λ y, y = x) (l1 ++ x :: l2) = Some (length l1, x).
Proof.
  intros Hx. apply list_find_Some. split; [by apply list_lookup_middle|].
  split; [done|]. intros j y Hy Hj ->. apply Hx. rewrite lookup_app_l in Hy by done.
  by eapply list_elem_of_lookup_2.
Qed.

Lemma apply_split l1 x l2 :
  x ∉ l1 → apply (l1 ++ x :: l2) x = default x (head (l2 ++ l1)).
Proof.
  intros Hx. unfold apply. rewrite find_split by done.
  rewrite lookup_app_r by lia. rewrite Nat.sub_succ_l, Nat.sub_diag by lia. cbn.
  destruct l2 as [|y l2]; [|done]. cbn. by destruct l1.
Qed.

Lemma apply_head x r : apply (x :: r) x = default x (head r).
Proof. rewrite <- (app_nil_r r) at 2. apply (apply_split [] x r), not_elem_of_nil. Qed.

Lemma apply_out c x : x ∉ c → apply c x = x.
Proof.
  intros Hx. unfold apply. destruct (list_find _ c) as [[i y]|] eqn:Hf; [|done].
  apply list_find_Some in Hf as (Hi & -> & _). by apply list_elem_of_lookup_2 in Hi.
Qed.

(** Splitting a loop at an element. *)
Lemma NoDup_split (c : list Z) x :
  NoDup c → x ∈ c → ∃ l1 l2, c = l1 ++ x :: l2 ∧ x ∉ l1 ∧ x ∉ l2.
Proof.
  intros Hnd (l1 & l2 & ->)%list_elem_of_split. exists l1, l2. split; [done|].
  apply NoDup_app in Hnd as (_ & Hd & Hnd). apply NoDup_cons in Hnd as [Hx _].
  split; [|done]. intros Hin. apply (Hd x Hin). left.
Qed.

Lemma apply_in c x : NoDup c → x ∈ c → apply c x ∈ c.
Proof.
  intros Hnd Hx. destruct (NoDup_split c x Hnd Hx) as (l1 & l2 & -> & H1 & _).
  rewrite apply_split by done. destruct l2 as [|y l2]; [destruct l1|]; cbn; set_solver.
Qed.

(** Every element of a loop has a predecessor in it. *)
Lemma apply_surj c y : NoDup c → y ∈ c → ∃ x, x ∈ c ∧ apply c x = y.
Proof.
  intros Hnd Hy. destruct (NoDup_split c y Hnd Hy) as (l1 & l2 & -> & H1 & H2).
  destruct l1 as [|x l1 _] using rev_ind.
  - destruct l2 as [|x l2 _] using rev_ind; cbn.
    + exists y. split; [left|]. exact (apply_split [] y [] ltac:(set_solver)).
    + exists x. split; [set_solver|]. rewrite app_comm_cons.
      rewrite apply_split; [done|]. apply (NoDup_app (y :: l2) [x]) in Hnd as (_ & Hd & _).
      intros Hin. apply (Hd x Hin). left.
  - exists x. split; [set_solver|]. rewrite <- app_assoc in Hnd |- *. cbn in *.
    rewrite apply_split; [done|]. apply NoDup_app in Hnd as (_ & Hd & _).
    intros Hin. apply (Hd x Hin). left.
Qed.

Lemma apply_in_iff c x : NoDup c → apply c x ∈ c ↔ x ∈ c.
Proof.
  intros Hnd. split; [|by apply apply_in]. intros Hin.
  destruct (decide (x ∈ c)) as [|Hx]; [done|]. by rewrite apply_out in Hin.
Qed.

(** A rotation of the loop does not change what it does. *)
Lemma apply_rotate i c x : NoDup c → apply (rotate i c) x = apply c x.
Proof.
  intros Hnd. destruct (decide (x ∈ c)) as [Hx|Hx].
  2: { rewrite !apply_out; [done..|]. by rewrite rotate_perm. }
  unfold rotate. rewrite <- (take_drop i c) in Hnd, Hx. rewrite <- (take_drop i c) at 3.
  revert Hnd Hx. generalize (take i c), (drop i c). intros a b Hnd Hx.
  pose proof Hnd as (_ & Hd & _)%NoDup_app.
  apply elem_of_app in Hx as [(l1 & l2 & ->)%list_elem_of_split|(l1 & l2 & ->)%list_elem_of_split].
  - rewrite <- app_assoc in Hnd. cbn in Hnd. apply NoDup_app in Hnd as (_ & Hd' & _).
    rewrite app_assoc, <- (app_assoc l1). cbn.
    assert (x ∉ l1) by (intros Hin; apply (Hd' x Hin); left).
    rewrite !apply_split; [by rewrite app_assoc|set_solver|].
    intros [Hb|Hl]%elem_of_app; [|done]. apply (Hd x); set_solver.
  - rewrite app_assoc in Hnd. apply NoDup_app in Hnd as (_ & Hd' & _).
    rewrite app_assoc, <- (app_assoc l1). cbn.
    assert (x ∉ a ++ l1) by (intros Hin; apply (Hd' x Hin); left).
    rewrite !apply_split by set_solver. by rewrite app_assoc.
Qed.

Lemma apply_reroll c x : NoDup c → apply (reroll c) x = apply c x.
Proof. apply apply_rotate. Qed.

Lemma apply_inj c x y : NoDup c → apply c x = apply c y → x = y.
Proof.
  intros Hnd Heq. assert (Hxy : x ∈ c ↔ y ∈ c).
  { rewrite <- (apply_in_iff c x Hnd), <- (apply_in_iff c y Hnd). by rewrite Heq. }
  destruct (decide (x ∈ c)) as [Hx|Hx]; [|rewrite !apply_out in Heq by tauto; done].
  destruct (NoDup_split c x Hnd Hx) as (l1 & l2 & -> & H1 & H2).
  rewrite <- (apply_rotate (length l1) _ x), <- (apply_rotate (length l1) _ y) in Heq by done.
  assert (Hnd' : NoDup (rotate (length l1) (l1 ++ x :: l2))) by by rewrite rotate_perm.
  assert (Hy : y ∈ rotate (length l1) (l1 ++ x :: l2)) by (rewrite rotate_perm; tauto).
  unfold rotate in *. rewrite drop_app_length, take_app_length in *. cbn in *.
  revert Heq Hnd' Hy. generalize (l2 ++ l1). clear. intros r Heq Hnd Hy.
  destruct (NoDup_split (x :: r) y Hnd Hy) as (k1 & k2 & Hr & Hk1 & Hk2).
  destruct k1 as [|z k1]; [by injection Hr|]. injection Hr as <- ->. exfalso.
  pose proof (apply_split (x :: k1) y k2 Hk1) as Hay. cbn in Hay. rewrite Hay in Heq.
  pose proof (apply_split [] x (k1 ++ y :: k2) ltac:(set_solver)) as Hax. cbn in Hax.
  rewrite Hax, app_nil_r in Heq.
  apply NoDup_cons in Hnd as [Hx Hnd]. apply NoDup_app in Hnd as (Hn1 & Hd & Hn2).
  destruct k1 as [|w k1], k2 as [|v k2]; cbn in *; simplify_eq; set_solver.
Qed.

(** ** [apply] of a table *)
Section tables.
Variables start fin : Z.
Implicit Types t table : list Z.

Abbreviation in_dom := (in_dom start fin).
Abbreviation ix := (ix start).

Definition width : Z := fin - start + 1.
Definition table_ok t : Prop := Z.of_nat (length t) = width.

Lemma ix_lt t x : table_ok t → in_dom x → (ix x < length t)%nat.
Proof. unfold table_ok, width, Idom.in_dom, Idom.ix. lia. Qed.

Lemma index_ix x : in_dom x → index start x = Some (ix x).
Proof. intros [Hx _]. unfold index. by rewrite (proj2 (Z.leb_le _ _) Hx). Qed.

Lemma at_table t x : table_ok t → in_dom x → ∃ v, t !! ix x = Some v.
Proof. intros Ht Hx. apply lookup_lt_is_Some. by apply ix_lt. Qed.

Lemma ix_ne x y : in_dom x → in_dom y → x ≠ y → ix x ≠ ix y.
Proof. intros Hx Hy Hne Heq. apply Hne. by eapply ix_inj. Qed.

Definition final (p : Z) (rest : list Z) : Z := default p (last rest).

Lemma final_cons p l rest : final p (l :: rest) = final l rest.
Proof. unfold final. rewrite last_cons. by destruct (last rest). Qed.

(** The shift moves each entry to the place of its predecessor. *)
Lemma shift_table_run front rest p t :
  table_ok t → Forall in_dom (p :: rest) → NoDup (p :: rest) → front ∉ rest →
  ∃ t', shift_table start front rest t (ix p) = Some (t', ix (final p rest)) ∧ table_ok t' ∧
    (∀ x, in_dom x → x ∉ p :: rest → t' !! ix x = t !! ix x) ∧
    (∀ l1 x y l2, p :: rest = l1 ++ x :: y :: l2 → t' !! ix x = t !! ix y).
Proof.
  revert p t. induction rest as [|l rest IH]; intros p t Ht Hdom Hnd Hf.
  { exists t. split_and!; try done. intros [|? [|? l1]] x y l2; naive_solver. }
  apply Forall_cons in Hdom as [Hp Hdom]. pose proof Hdom as Hdom'.
  apply Forall_cons in Hdom' as [Hl Hrest]. apply NoDup_cons in Hnd as [Hpn Hnd].
  apply not_elem_of_cons in Hf as [Hfl Hf].
  destruct (at_table t l Ht Hl) as (v & Hv).
  destruct (IH l (<[ix p := v]> t)) as (t' & Hrun & Ht' & Hout & Hin); try done.
  { unfold table_ok. by rewrite length_insert. }
  assert (Hne : ∀ x, x ∈ l :: rest → in_dom x ∧ x ≠ p).
  { intros x Hx. split; [|by intros ->]. by eapply Forall_forall in Hdom. }
  exists t'. cbn [shift_table]. rewrite index_ix by done. cbn.
  rewrite (proj2 (Z.eqb_neq l front)) by done. rewrite Hv. cbn.
  rewrite (proj2 (Nat.ltb_lt _ _)) by (by apply ix_lt).
  rewrite final_cons. split_and!; [done..| |].
  - intros x Hx [Hxp Hxl]%not_elem_of_cons. rewrite Hout by done.
    rewrite list_lookup_insert_ne; [done|]. apply ix_ne; auto.
  - intros [|z l1] x y l2 Heq; cbn in Heq; injection Heq.
    + intros -> -> ->. rewrite Hout by done.
      rewrite list_lookup_insert_eq by (by apply ix_lt). done.
    + clear Heq. intros Heq ->. rewrite (Hin l1 x y l2 Heq). rewrite list_lookup_insert_ne; [done|].
      destruct (Hne y) as [Hy Hyp]; [rewrite Heq; set_solver|]. apply ix_ne; auto.
Qed.

Theorem apply_table_run c t :
  start < fin → c ≠ [] → Forall in_dom c → NoDup c → table_ok t →
  ∃ t', apply_table start fin c t = Some t' ∧ table_ok t' ∧
    ∀ x, in_dom x → t' !! ix x = t !! ix (apply c x).
Proof.
  intros Hdom Hne Hc Hnd Ht. destruct c as [|p rest]; [done|].
  pose proof Hc as Hc'. apply Forall_cons in Hc' as [Hp Hrest].
  pose proof Hnd as Hnd'. apply NoDup_cons in Hnd' as [Hpr Hnd'].
  destruct (shift_table_run p rest p t Ht Hc Hnd Hpr) as (t' & Hrun & Ht' & Hout & Hin).
  assert (Hfin : in_dom (final p rest)).
  { unfold final. destruct (last rest) as [z|] eqn:Hz; [|done]. apply last_Some_elem_of in Hz.
    by eapply Forall_forall in Hrest. }
  destruct (at_table t p Ht Hp) as (tmp & Htmp).
  exists (<[ix (final p rest) := tmp]> t'). split_and!.
  - unfold apply_table. cbn.
    rewrite last_cons. 
    replace (match last rest with Some y => Some y | None => Some p end) with (Some (final p rest))
      by (unfold final; by destruct (last rest)). cbn.
    unfold Idom.in_dom, table_ok, width in *.
    rewrite !(proj2 (Z.ltb_lt _ _)), !(proj2 (Z.leb_le _ _)), (proj2 (Z.eqb_eq _ _)) by lia. cbn.
    rewrite index_ix by done. cbn. rewrite Htmp. cbn. rewrite Z.eqb_refl.
    rewrite Hrun. cbn. by rewrite (proj2 (Nat.ltb_lt _ _)) by (by apply ix_lt).
  - unfold table_ok. by rewrite length_insert.
  - intros x Hx. destruct (decide (x ∈ p :: rest)) as [Hxc|Hxc].
    + destruct (NoDup_split _ x Hnd Hxc) as (l1 & l2 & Heq & H1 & H2).
      rewrite Heq, apply_split by done. destruct l2 as [|y l2].
      * assert (Hx' : final p rest = x).
        { rewrite <- (final_cons p p rest). unfold final. by rewrite Heq, last_snoc. }
        rewrite Hx', list_lookup_insert_eq by (by apply ix_lt). rewrite <- Htmp.
        destruct l1 as [|z l1]; cbn in *; congruence.
      * rewrite list_lookup_insert_ne; [by apply (Hin l1 x y l2)|]. apply ix_ne; [done..|].
        rewrite <- (final_cons p p rest). unfold final. rewrite Heq, last_app, last_cons.
        destruct (last (y :: l2)) as [z|] eqn:Hz; [|by apply last_None in Hz]. cbn.
        apply last_Some_elem_of in Hz. congruence.
    + rewrite list_lookup_insert_ne; [rewrite Hout, apply_out by done; done|].
      apply ix_ne; [done..|]. intros <-. apply Hxc. unfold final.
      destruct (last rest) as [z|] eqn:Hz; [|left]. right. by apply last_Some_elem_of.
Qed.

(** ** The permutation a table stands for *)
Definition tab t (x : Z) : Z := default x (t !! ix x).

Definition perm_table t : Prop := table_ok t ∧ Forall in_dom t ∧ NoDup t.

Lemma tab_lookup t x : table_ok t → in_dom x → t !! ix x = Some (tab t x).
Proof. intros Ht Hx. destruct (at_table t x Ht Hx) as (v & Hv). unfold tab. by rewrite Hv. Qed.

Lemma table_ext t t' :
  table_ok t → table_ok t' → (∀ x, in_dom x → tab t x = tab t' x) → t = t'.
Proof.
  intros Ht Ht' Heq. apply list_eq. intros i.
  destruct (decide (i < length t)%nat) as [Hi|Hi].
  - assert (Hx : in_dom (start + Z.of_nat i)).
    { unfold table_ok, width, Idom.in_dom in *. lia. }
    replace i with (ix (start + Z.of_nat i)) by (unfold Idom.ix; lia).
    rewrite !tab_lookup by done. by rewrite Heq.
  - rewrite !lookup_ge_None_2; [done|unfold table_ok in *; lia..].
Qed.

Lemma tab_dom t x : perm_table t → in_dom x → in_dom (tab t x).
Proof.
  intros (Ht & Hd & _) Hx. eapply Forall_forall; [exact Hd|].
  eapply list_elem_of_lookup_2. by apply tab_lookup.
Qed.

Lemma tab_inj t x y : perm_table t → in_dom x → in_dom y → tab t x = tab t y → x = y.
Proof.
  intros (Ht & _ & Hnd) Hx Hy Heq. eapply ix_inj; [done..|].
  eapply NoDup_lookup; [exact Hnd|by apply tab_lookup|]. rewrite Heq. by apply tab_lookup.
Qed.

(** The elements of the domain, in order. *)
Definition domain : list Z := seqZ start width.

Lemma elem_of_domain x : x ∈ domain ↔ in_dom x.
Proof. unfold domain, width, Idom.in_dom. rewrite elem_of_seqZ. lia. Qed.

Lemma domain_table : 0 <= width → perm_table domain.
Proof.
  intros Hw. split_and!.
  - unfold table_ok, domain. rewrite length_seqZ. lia.
  - apply Forall_forall. intros x. apply elem_of_domain.
  - apply NoDup_seqZ.
Qed.

Lemma tab_domain x : in_dom x → tab domain x = x.
Proof.
  intros Hx. unfold tab, domain. rewrite lookup_seqZ_lt; [|unfold Idom.in_dom, Idom.ix, width in *; lia].
  cbn. unfold Idom.in_dom, Idom.ix in *. lia.
Qed.

(** A set of distinct elements of the domain is no larger than a table. *)
Lemma dom_length t l : table_ok t → Forall in_dom l → NoDup l → (length l ≤ length t)%nat.
Proof.
  intros Ht Hd Hnd. assert (Hs : l ⊆+ domain).
  { apply NoDup_submseteq; [done|]. intros x Hx. apply elem_of_domain. by eapply Forall_forall in Hd. }
  apply submseteq_length in Hs. unfold domain in Hs. rewrite length_seqZ in Hs.
  unfold table_ok in Ht. lia.
Qed.

(** ** Cycles of a permutation *)
Section cycles.
Variable f : Z → Z.

(** A normal loop that moves its elements as [f] does. *)
Definition cycle (c : list Z) : Prop := normal c ∧ Forall in_dom c ∧ ∀ x, x ∈ c → apply c x = f x.

Definition linked (c : list Z) : Prop := ∀ l1 x y l2, c = l1 ++ x :: y :: l2 → f x = y.

Lemma linked_snoc c x y : linked (c ++ [x]) → f x = y → linked ((c ++ [x]) ++ [y]).
Proof.
  intros Hc Hf l1 a b l2 Heq. destruct l2 as [|z l2 _] using rev_ind.
  - rewrite <- app_assoc in Heq. cbn in Heq.
    change (l1 ++ [a; b]) with (l1 ++ [a] ++ [b]) in Heq. rewrite app_assoc in Heq.
    change (c ++ [x; y]) with (c ++ [x] ++ [y]) in Heq. rewrite app_assoc in Heq.
    apply app_inj_2 in Heq as [Heq [= ->]]; [|done]. by apply app_inj_2 in Heq as [_ [= ->]].
  - rewrite !app_comm_cons, app_assoc in Heq. apply app_inj_2 in Heq as [Heq _]; [|done].
    by eapply Hc.
Qed.

Lemma linked_cycle c h r :
  c = h :: r → normal c → Forall in_dom c → linked c → f (final h r) = h → cycle c.
Proof.
  intros Heq Hn Hd Hl Hf. split; [done|]. split; [done|]. intros x Hx.
  destruct Hn as [Hnd _]. destruct (NoDup_split c x Hnd Hx) as (l1 & l2 & Hc & H1 & H2).
  rewrite Hc, apply_split by done. destruct l2 as [|y l2]; [|symmetry; by eapply Hl].
  assert (final h r = x).
  { rewrite <- (final_cons h h r). unfold final. by rewrite <- Heq, Hc, last_snoc. }
  subst x. rewrite Hf. rewrite Heq in Hc. destruct l1 as [|z l1]; cbn in *; congruence.
Qed.

Lemma cycle_pred c y : cycle c → y ∈ c → ∃ x, x ∈ c ∧ f x = y.
Proof.
  intros ((Hnd & _) & _ & Hf) Hy. destruct (apply_surj c y Hnd Hy) as (x & Hx & Hxy).
  exists x. split; [done|]. by rewrite <- Hf.
Qed.

Lemma cycle_closed c x : cycle c → x ∈ c → f x ∈ c.
Proof. intros ((Hnd & _) & _ & Hf) Hx. rewrite <- Hf by done. by apply apply_in. Qed.
End cycles.
End tables.
