(* ===== verification/CreateLoops.v ===== *)
(** * [create_loops]: the loops of a permutation given by its table

    The inner loop ends with the cycle of its first element, the outer one with
    disjoint loops that cover the domain, smallest elements first; the fuel given
    to both is enough, and the run-time checks of [-DCHECKS] never fail. *)

From S2P Require Import Prelude Idom PermLoop PermCycles.

Section create.
Variables start fin : Z.
Variable checks : bool.
Variable table : list Z.
Hypothesis Htable : perm_table start fin table.

Abbreviation in_dom := (in_dom start fin).
Abbreviation ix := (ix start).
Abbreviation f := (tab start table).
Abbreviation cycle := (cycle start fin (tab start table)).
Abbreviation linked := (linked (tab start table)).

(** The elements marked so far. *)
Definition marks (marked : list bool) (M : list Z) : Prop :=
  length marked = length table ∧
  (∀ x, in_dom x → marked !! ix x = Some true ↔ x ∈ M).

Definition pred_closed (M : list Z) : Prop := ∀ x, in_dom x → f x ∈ M → x ∈ M.

Lemma marks_insert marked M x :
  in_dom x → marks marked M → marks (<[ix x := true]> marked) (x :: M).
Proof.
  intros Hx [Hlen Hm]. split; [by rewrite length_insert|]. intros y Hy.
  rewrite elem_of_cons. destruct (decide (y = x)) as [->|Hne].
  - rewrite list_lookup_insert_eq; [naive_solver|]. rewrite Hlen.
    by eapply ix_lt; [apply Htable|].
  - rewrite list_lookup_insert_ne by (by eapply ix_ne). rewrite Hm by done. naive_solver.
Qed.

Lemma marks_perm marked M M' : M ≡ₚ M' → marks marked M → marks marked M'.
Proof. intros Hp [Hl Hm]. split; [done|]. intros x Hx. rewrite Hm by done. by rewrite Hp. Qed.

(** The next element is a new one, unless it is the first again. *)
Lemma next_fresh t r M :
  let acc := t :: r in
  NoDup acc → Forall in_dom acc → linked acc → (∀ x, x ∈ acc → x ∉ M) → pred_closed M →
  f (final t r) ≠ t → f (final t r) ∉ acc ∧ f (final t r) ∉ M.
Proof.
  intros acc Hnd Hd Hl HM Hp Hne.
  assert (Hfin : final t r ∈ acc).
  { unfold final, acc. destruct (last r) as [z|] eqn:Hz; [|left].
    right. by apply last_Some_elem_of. }
  assert (Hfd : in_dom (final t r)) by (by eapply Forall_forall in Hd).
  split; [|intros Hin; by eapply HM, Hp].
  intros Hin. destruct (NoDup_split acc _ Hnd Hin) as (l1 & l2 & Hacc & H1 & H2).
  destruct l1 as [|x l1 _] using rev_ind; [unfold acc in Hacc; cbn in Hacc; congruence|].
  rewrite <- app_assoc in Hacc. cbn in Hacc.
  assert (Hx : x = final t r).
  { eapply tab_inj; [exact Htable| |done|by eapply Hl].
    eapply Forall_forall in Hd; [exact Hd|]. rewrite Hacc. set_solver. }
  assert (Hlast : last acc = Some (final t r)).
  { unfold acc. rewrite last_cons. unfold final. by destruct (last r). }
  rewrite Hacc in Hlast, Hnd. apply NoDup_app in Hnd as (_ & _ & Hnd).
  apply NoDup_cons in Hnd as [Hx' _]. rewrite Hx in Hx'. apply Hx'.
  rewrite last_app, last_cons in Hlast.
  destruct (last (f (final t r) :: l2)) as [z|] eqn:Hz; [|by apply last_None in Hz].
  injection Hlast as ->. by apply last_Some_elem_of.
Qed.

Lemma normal_snoc t r x : normal (t :: r) → x ∉ t :: r → t < x → normal ((t :: r) ++ [x]).
Proof.
  intros (Hnd & t' & r' & [= <- <-] & Hlt) Hx Htx. split.
  - apply NoDup_app. split_and!; [done|set_solver|apply NoDup_singleton].
  - exists t, (r ++ [x]). split; [done|]. intros y [Hy| ->%list_elem_of_singleton]%elem_of_app; auto.
Qed.

Lemma follow_cycle_run fuel t r M marked :
  let acc := t :: r in
  normal acc → Forall in_dom acc → linked acc → (∀ x, x ∈ acc → x ∉ M) → pred_closed M →
  (∀ y, in_dom y → y < t → y ∈ M) → marks marked (acc ++ M) →
  (length table < fuel + length acc)%nat →
  ∃ c marked', follow_cycle start checks fuel t table acc marked (f (final t r)) =
      Some (Ok (c, marked')) ∧
    head c = Some t ∧ cycle c ∧ (∀ x, x ∈ c → x ∉ M) ∧ marks marked' (c ++ M).
Proof.
  revert r marked. induction fuel as [|fuel IH]; intros r marked acc Hn Hd Hl HM Hp Hlt Hmk Hfuel.
  { exfalso. destruct Hn as [Hnd _].
    pose proof (dom_length start fin table acc (proj1 Htable) Hd Hnd). unfold acc in *. lia. }
  cbn [follow_cycle]. destruct (Z.eqb_spec (f (final t r)) t) as [Heq|Hne].
  { exists acc, marked. split; [done|]. split; [done|]. split; [|done]. by eapply linked_cycle. }
  destruct (next_fresh t r M (proj1 Hn) Hd Hl HM Hp Hne) as [Hacc HnM].
  assert (Hfin : in_dom (final t r)).
  { apply Forall_cons in Hd as [Ht Hr]. unfold final. destruct (last r) as [z|] eqn:Hz; [|done].
    apply last_Some_elem_of in Hz. by eapply Forall_forall in Hr. }
  assert (Hnx : in_dom (f (final t r))) by by apply (tab_dom start fin).
  assert (Htn : t < f (final t r)).
  { assert (¬ f (final t r) < t); [|cbn in *; lia]. intros Hlt'. by apply HnM, Hlt. }
  pose proof (normal_snoc t r _ Hn Hacc Htn) as Hn'.
  unfold add, acc. rewrite (reroll_id _ Hn'), (checked_loop_ok _ _ Hn'). erewrite E_bind_Ok by done.
  rewrite (index_ix start fin) by done. erewrite E_bind_checked by done.
  rewrite E_bind_require.
  2: { apply Nat.ltb_lt. rewrite (proj1 Hmk). by eapply ix_lt; [apply Htable|]. }
  erewrite E_bind_checked by (eapply tab_lookup; [apply Htable|done]).
  replace (f (f (final t r))) with (f (final t (r ++ [f (final t r)])))
    by (unfold final at 1; by rewrite last_snoc).
  apply (IH (r ++ [f (final t r)])); try done.
  - rewrite app_comm_cons. apply Forall_app. split; [done|]. by apply Forall_singleton.
  - unfold acc in *. destruct r as [|z r' _] using rev_ind.
    + apply (linked_snoc f [] t); done.
    + rewrite app_comm_cons. rewrite app_comm_cons in Hl |- *. apply linked_snoc; [done|].
      unfold final. by rewrite last_snoc.
  - intros x [Hx| ->%list_elem_of_singleton]%(elem_of_app acc); auto.
  - eapply marks_perm; [|by apply marks_insert]. rewrite app_comm_cons.
    apply (Permutation_app_tail M), (Permutation_cons_append acc).
  - rewrite length_cons, length_app. cbn in *. lia.
Qed.
(** ** The outer loop *)
Definition first_of (c : list Z) : Z := default 0 (smallest c).

Record loops_of (out : list (list Z)) : Prop := {
  loops_cycles : Forall cycle out;
  loops_disjoint : NoDup (mjoin out);
  loops_cover : ∀ x, x ∈ mjoin out ↔ in_dom x;
  loops_sorted : StronglySorted (λ c d, first_of c < first_of d) out }.

Lemma find_unmarked_spec k marked :
  (k ≤ length marked)%nat →
  let j := find_unmarked k marked in
  (k ≤ j ≤ length marked)%nat ∧
  (∀ i, (k ≤ i < j)%nat → marked !! i = Some true) ∧
  ((j < length marked)%nat → marked !! j = Some false).
Proof.
  intros Hk j. unfold j, find_unmarked. destruct (list_find _ _) as [[i b]|] eqn:Hf.
  - apply list_find_Some in Hf as (Hi & -> & Hlt). rewrite lookup_drop in Hi.
    pose proof (lookup_lt_Some _ _ _ Hi). split; [lia|]. split; [|done].
    intros i' Hi'. destruct (marked !! i') as [[]|] eqn:Hm; [done| |].
    + exfalso. apply (Hlt (i' - k)%nat false); [|lia|done].
      rewrite lookup_drop. replace (k + (i' - k))%nat with i' by lia. done.
    + apply lookup_ge_None in Hm. lia.
  - split; [lia|]. split; [|lia]. intros i Hi. apply list_find_None in Hf.
    destruct (lookup_lt_is_Some_2 marked i) as [b Hb]; [lia|]. rewrite Hb.
    eapply Forall_forall in Hf; [|apply (list_elem_of_lookup_2 _ (i - k)%nat); rewrite lookup_drop;
      replace (k + (i - k))%nat with i by lia; exact Hb].
    by destruct b.
Qed.

Lemma cycles_pred_closed out : Forall cycle out → pred_closed (mjoin out).
Proof.
  intros Hout x Hx Hin. apply list_elem_of_join in Hin as (c & Hfx & Hc).
  pose proof Hout as Hcyc. eapply Forall_forall in Hcyc; [|exact Hc].
  destruct (cycle_pred start fin _ c _ Hcyc Hfx) as (y & Hy & Hxy).
  apply list_elem_of_join. exists c. split; [|done].
  destruct Hcyc as (_ & Hd & _). eapply Forall_forall in Hd; [|exact Hy].
  by rewrite <- (tab_inj start fin table y x Htable Hd Hx Hxy).
Qed.

Lemma sorted_snoc out c (b : Z) :
  StronglySorted (λ c d, first_of c < first_of d) out → Forall (λ d, first_of d < b) out →
  first_of c = b → StronglySorted (λ c d, first_of c < first_of d) (out ++ [c]).
Proof.
  intros Hs Hb <-. induction Hs as [|d out Hs IH Hd]; [repeat constructor|].
  apply Forall_cons in Hb as [Hdb Hb]. cbn. constructor; [auto|].
  apply Forall_app. split; [done|]. by apply Forall_singleton.
Qed.

Lemma unmarked_new marked out relt :
  marks marked (mjoin out) → (relt < length table)%nat → marked !! relt = Some false →
  in_dom (start + Z.of_nat relt) ∧ start + Z.of_nat relt ∉ mjoin out ∧
  ix (start + Z.of_nat relt) = relt.
Proof.
  intros [Hlen Hm] Hlt Hf. destruct Htable as (Ht & _).
  assert (Hix : ix (start + Z.of_nat relt) = relt) by (unfold Idom.ix; lia).
  assert (Hd : in_dom (start + Z.of_nat relt)).
  { unfold Idom.in_dom, table_ok, width in *. lia. }
  split; [done|]. split; [|done]. intros Hin%Hm; [|done]. rewrite Hix in Hin. congruence.
Qed.

(** The state of the scan at the position [relt]: the cycles of every smaller element are out. *)
Record scanned (marked : list bool) (relt : nat) (out : list (list Z)) : Prop := {
  sc_cycles : Forall cycle out;
  sc_disjoint : NoDup (mjoin out);
  sc_marks : marks marked (mjoin out);
  sc_range : (relt ≤ length table)%nat;
  sc_below : ∀ y, in_dom y → y < start + Z.of_nat relt → y ∈ mjoin out;
  sc_next : (relt < length table)%nat → marked !! relt = Some false;
  sc_sorted : StronglySorted (λ c d, first_of c < first_of d) out;
  sc_heads : Forall (λ d, first_of d < start + Z.of_nat relt) out }.

Lemma scanned_all marked out : scanned marked (length table) out → loops_of out.
Proof.
  intros [Hcyc Hnd _ _ Hlow _ Hsort _]. split; try done. intros x. split.
  - intros (c & Hx & Hc)%list_elem_of_join. eapply Forall_forall in Hcyc as (_ & Hd & _); [|exact Hc].
    by eapply Forall_forall in Hd.
  - intros Hx. apply Hlow; [done|]. destruct Htable as (Ht & _). unfold Idom.in_dom, table_ok, width in *. lia.
Qed.

(** The cycle of the first unmarked element is added, and the scan goes to the next one. *)
Lemma scanned_step marked marked' relt out c :
  scanned marked relt out → (relt < length table)%nat →
  head c = Some (start + Z.of_nat relt) → cycle c → (∀ x, x ∈ c → x ∉ mjoin out) → marks marked' (c ++ mjoin out) →
  scanned marked' (find_unmarked (S relt) marked') (out ++ [c]) ∧ (relt < find_unmarked (S relt) marked')%nat.
Proof.
  intros [Hcyc Hnd _ _ Hlow _ Hsort Hheads] Hlt Hhead Hc HcM Hmk. set (t := start + Z.of_nat relt) in *.
  assert (Hjoin : mjoin (out ++ [c]) = mjoin out ++ c) by (rewrite join_app; cbn; by rewrite app_nil_r).
  assert (Hmk2 : marks marked' (mjoin (out ++ [c]))).
  { eapply marks_perm; [|exact Hmk]. rewrite Hjoin. apply Permutation_app_comm. }
  destruct (find_unmarked_spec (S relt) marked') as (Hj & Htrue & Hfalse); [rewrite (proj1 Hmk2); lia|].
  rewrite (proj1 Hmk2) in Hj, Hfalse.
  assert (Hfirst : first_of c = t) by (unfold first_of, smallest; by rewrite Hhead).
  split; [|lia]. split; [|rewrite Hjoin|done|lia| |done|by eapply sorted_snoc|].
  - apply Forall_app. split; [done|]. by apply Forall_singleton.
  - apply NoDup_app. split_and!; [done| |apply Hc]. intros x Hx Hxc. by apply (HcM x).
  - intros y Hy Hylt. destruct (decide (y < t)) as [Hyt|Hyt].
    + rewrite Hjoin. apply elem_of_app. left. by apply Hlow.
    + destruct (decide (y = t)) as [->|Hyne].
      * rewrite Hjoin. apply elem_of_app. right. by apply head_Some_elem_of.
      * apply (proj2 Hmk2); [done|]. apply Htrue. unfold Idom.ix, t in *. lia.
  - apply Forall_app. split.
    + eapply Forall_impl; [exact Hheads|]. cbn. intros d. unfold t. lia.
    + apply Forall_singleton. rewrite Hfirst. unfold t. lia.
Qed.

Lemma scan_run fuel marked relt out :
  scanned marked relt out → (length table - relt < fuel)%nat →
  ∃ out', scan start fin checks fuel table marked relt out = Some (Ok out') ∧ loops_of out'.
Proof.
  revert marked relt out. induction fuel as [|fuel IH]; intros marked relt out Hsc Hfuel; [lia|].
  pose proof Hsc as [Hcyc _ Hmk Hle Hlow Hrelt _ _].
  cbn [scan]. rewrite (proj1 Hmk). destruct (Nat.eqb_spec relt (length table)) as [->|Hne].
  { exists out. split; [done|]. by eapply scanned_all. }
  destruct (unmarked_new marked out relt Hmk ltac:(lia) (Hrelt ltac:(lia))) as (Hd & HM & Hix).
  set (t := start + Z.of_nat relt) in *.
  rewrite (Idom_Ok start fin t Hd). erewrite E_bind_Ok by done.
  assert (Hn : normal [t]).
  { split; [apply NoDup_singleton|]. exists t, []. split; [done|]. by intros y ?%elem_of_nil. }
  unfold PermLoop. rewrite (reroll_id [t] Hn), (checked_loop_ok _ _ Hn). erewrite E_bind_Ok by done.
  erewrite E_bind_checked by (rewrite <- Hix; eapply tab_lookup; [apply Htable|done]).
  destruct (follow_cycle_run (S (length table)) t [] (mjoin out) (<[relt := true]> marked))
    as (c & marked' & Hrun & Hhead & Hc & HcM & Hmk').
  { done. }
  { by apply Forall_singleton. }
  { intros [|? [|]] ? ? ?; naive_solver. }
  { by intros x ->%list_elem_of_singleton. }
  { by apply cycles_pred_closed. }
  { done. }
  { rewrite <- Hix. by apply marks_insert. }
  { cbn. lia. }
  change (final t []) with t in Hrun. rewrite Hrun. erewrite E_bind_Ok by done.
  destruct (scanned_step marked marked' relt out c Hsc ltac:(lia) Hhead Hc HcM Hmk') as [Hsc' Hlt].
  apply IH; [done|lia].
Qed.

Lemma create_loops_run :
  ∃ out, create_loops start fin checks table = Some (Ok out) ∧ loops_of out.
Proof.
  apply scan_run; [|lia]. split; try done; try lia; cbn.
  - constructor.
  - split; [by rewrite length_replicate|]. intros x Hx. split; [|by intros ?%elem_of_nil].
    intros Hm. apply lookup_replicate in Hm as [? _]. done.
  - intros y [Hy _] Hlt. lia.
  - intros Hlt. by apply lookup_replicate_2.
  - constructor.
Qed.
End create.
