(* ===== verification/Perm.v ===== *)
(** * [src/17-algorithms/permutations/perms.hpp]: permutations of a domain

    A [Permutation<T>] is its vector [loops_]. The canonical form covers the domain
    with disjoint normal loops, those with larger smallest elements first. *)

From stdpp Require Import sorting.
From S2P Require Import Prelude Idom PermLoop PermCycles CreateLoops.

Section perm.
Variable T : value_type.
Variables start fin : Z.
Variable checks : bool.
Implicit Types loops p q lhs rhs input this : list (list Z).

(** [for (auto x = T::start; x <= T::fin; ++x)]: [x] is of the underlying type, so
    that [++x] wraps around. The body has run for the whole domain after
    [fin - start + 1] turns; a loop that goes on is back at the smallest value of the
    type, and its body either throws there or has been there before. *)
Fixpoint loop_from {A} (fuel : nat) (body : A → Z → E A) (x : Z) (a : A) : E A :=
  match fuel with
  | O => None
  | S fuel =>
    if x <=? fin then (a ← body a x; loop_from fuel body (increment T x) a) else mret a
  end.
Definition domain_loop {A} (body : A → Z → E A) (a : A) : E A :=
  loop_from (S (Z.to_nat (fin - start + 1))) body start a.

(** [contains] *)
Definition perm_contains loops (elem : Z) : bool := existsb (λ l, contains l elem) loops.

(** The pairs of neighbours in the last loop of [check]. *)
Fixpoint check_order loops : result () :=
  match loops with
  | l :: (r :: _) as rest =>
    if first_of l =? first_of r then Throw (runtime_error "Loops with equal elements are here")
    else if first_of l <? first_of r then Throw (runtime_error "Canonical form broken")
    else check_order rest
  | _ => Ok ()
  end.

(** The body of the loop of [check]: [contains] takes an element of the domain. *)
Definition covered loops (_ : ()) (x : Z) : E () :=
  elem ← Some (Idom start fin x) : E _;
  if perm_contains loops elem then mret ()
  else Some (Throw (runtime_error "Every domain element shall be covered")).

Definition perm_check loops : E () :=
  if fin <=? start then Some (Throw (runtime_error "Domain error"))
  else if bool_decide (loops = []) then Some (Throw (runtime_error "Empty permutation"))
  else
    domain_loop (covered loops) ();;
    Some (check_order loops).

Definition checked_perm loops : E (list (list Z)) :=
  if checks then (perm_check loops;; mret loops) else mret loops.

(** [sortloops]: decreasing smallest elements *)
Definition loop_before (lhs rhs : list Z) : Prop := first_of rhs <= first_of lhs.
#[global] Instance loop_before_dec (lhs rhs : list Z) : Decision (loop_before lhs rhs).
Proof. unfold loop_before. apply _. Defined.
Definition sortloops loops : list (list Z) := merge_sort loop_before loops.

(** [Permutation()]; the body of its loop is [loops_.push_back(PermLoop<T>{x})]. *)
Definition push_loop loops (x : Z) : E (list (list Z)) :=
  elem ← Some (Idom start fin x) : E _;
  l ← Some (PermLoop checks [elem]) : E _;
  mret (loops ++ [l]).
Definition Permutation_id : E (list (list Z)) :=
  loops ← domain_loop push_loop [];
  checked_perm (sortloops loops).

(** [Permutation(ibeg, ifin)] *)
Definition Permutation_of loops : E (list (list Z)) :=
  loops ← simplify_loops T start fin checks loops;
  checked_perm (sortloops loops).

Definition lmul input this : E (list (list Z)) :=
  outloops ← simplify_loops T start fin checks (input ++ this);
  checked_perm (sortloops outloops).

Definition rmul this input : E (list (list Z)) :=
  outloops ← simplify_loops T start fin checks (this ++ input);
  checked_perm (sortloops outloops).

Definition product lhs rhs : E (list (list Z)) := rmul lhs rhs.

(** [Permutation::inverse], in place; [invert] on a copy *)
Fixpoint perm_inverse loops : result (list (list Z)) :=
  match loops with
  | [] => Ok []
  | l :: ls => l ← inverse checks l; ls ← perm_inverse ls; Ok (l :: ls)
  end.
Definition invert lhs : result (list (list Z)) := perm_inverse lhs.

Definition perm_apply loops (elem : Z) : Z := foldl (λ res ploop, apply ploop res) elem loops.

(** [apply] of a table: all loops, in direct order *)
Definition perm_apply_table loops (table : list Z) : option (list Z) :=
  apply_loops start fin loops table.

Definition perm_equals lhs rhs : bool := bool_decide (rhs = lhs).

Fixpoint perm_less_from lhs rhs : bool :=
  match lhs, rhs with
  | l :: lhs, r :: rhs => if negb (equals l r) then less l r else perm_less_from lhs rhs
  | _, _ => false
  end.
Definition perm_less lhs rhs : bool :=
  if negb (length rhs =? length lhs)%nat then (length lhs <? length rhs)%nat
  else perm_less_from lhs rhs.

Definition perm_dump (show : Z → string) loops : string :=
  String.concat "" (dump show <$> loops).
End perm.

(** The example of the header comment: (3 1 6)(5 4) over [1, 6] is (4 5)(2)(1 6 3). *)
Example canonical_header_example :
  Permutation_of Char 1 6 true [[1; 6; 3]; [4; 5]] = Some (Ok [[4; 5]; [2]; [1; 6; 3]]).
Proof. vm_compute. reflexivity. Qed.

(** The product of permtests.cc: (1 3 2)(1 2 4)(1 4 3 2). *)
Example mult_test_example :
  Permutation_of Char 1 4 true [[1; 3; 2]; [1; 2; 4]; [1; 4; 3; 2]] =
    Some (Ok [[4]; [3]; [1; 2]]).
Proof. vm_compute. reflexivity. Qed.
