(* ===== verification/PermFacts.v ===== *)
(** * Permutations: canonical forms and the group operations

    The constructors and multiplications yield the canonical form, which is unique;
    the run-time checks of [-DCHECKS] accept it; products compose and inverses
    invert, so that canonical permutations with [equals] form a group. *)

From stdpp Require Import sorting.
From S2P Require Import Prelude Idom PermLoop PermCycles CreateLoops Perm.

Section facts.
Variable T : value_type.
Variables start fin : Z.
Variable checks : bool.
Hypothesis Hdom : start < fin.
Implicit Types loops p q lhs rhs input this : list (list Z).

Abbreviation in_dom := (in_dom start fin).

(** A loop that the class accepts. *)
Definition good_loop (c : list Z) : Prop := normal c ∧ Forall in_dom c.

Record canonical p : Prop := {
  can_loops : Forall good_loop p;
  can_disjoint : NoDup (mjoin p);
  can_cover : ∀ x, x ∈ mjoin p ↔ in_dom x;
  can_sorted : StronglySorted (λ c d, first_of d < first_of c) p }.

Lemma normal_first c : normal c → ∃ r, c = first_of c :: r.
Proof. intros (_ & x & r & -> & _). by exists r. Qed.

Lemma first_of_min c x : normal c → x ∈ c → first_of c <= x.
Proof.
  intros (_ & y & r & -> & Hlt) [->|Hx]%elem_of_cons; [by unfold first_of; cbn|].
  unfold first_of. cbn. specialize (Hlt x Hx). lia.
Qed.

Lemma first_of_in c : normal c → first_of c ∈ c.
Proof. intros Hc. destruct (normal_first c Hc) as [r Hr]. rewrite Hr at 2. left. Qed.

(** ** What a permutation does to an element *)
Lemma perm_apply_out p x : x ∉ mjoin p → perm_apply p x = x.
Proof.
  unfold perm_apply. induction p as [|c p IH]; [done|]. cbn. rewrite not_elem_of_app.
  intros [Hc Hp]. rewrite apply_out by done. auto.
Qed.

Lemma perm_apply_in p c x :
  Forall (λ c, NoDup c) p → NoDup (mjoin p) → c ∈ p → x ∈ c → perm_apply p x = apply c x.
Proof.
  induction p as [|d p IH]; intros Hnd Hj Hc Hx; [by apply elem_of_nil in Hc|].
  apply Forall_cons in Hnd as [Hd Hnd]. apply NoDup_app in Hj as (_ & Hdis & Hj).
  cbn. apply elem_of_cons in Hc as [->|Hc].
  - apply perm_apply_out. apply Hdis. by apply apply_in.
  - rewrite (apply_out d); [by apply IH|]. intros Hxd. apply (Hdis x Hxd).
    apply list_elem_of_join. by exists c.
Qed.

Lemma perm_apply_app p q x : perm_apply (p ++ q) x = perm_apply q (perm_apply p x).
Proof. apply foldl_app. Qed.

Lemma good_NoDup p : Forall good_loop p → Forall (λ c, NoDup c) p.
Proof. intros Hp. eapply Forall_impl; [exact Hp|]. by intros c [[? _] _]. Qed.

Lemma perm_apply_dom p x : Forall good_loop p → in_dom x → in_dom (perm_apply p x).
Proof.
  unfold perm_apply. intros Hp. revert x. induction Hp as [|c p [[Hnd _] Hd] Hp IH]; [done|].
  intros x Hx. cbn. apply IH. destruct (decide (x ∈ c)) as [Hxc|Hxc]; [|by rewrite apply_out].
  eapply Forall_forall; [exact Hd|]. by apply apply_in.
Qed.

Lemma perm_apply_inj p x y : Forall good_loop p → perm_apply p x = perm_apply p y → x = y.
Proof.
  unfold perm_apply. intros Hp. revert x y. induction Hp as [|c p [[Hnd _] _] Hp IH]; [done|].
  intros x y Heq. by apply (apply_inj c), IH.
Qed.

(** ** The table of a product of loops *)
Lemma apply_table_perm c t :
  good_loop c → perm_table start fin t →
  ∃ t', apply_table start fin c t = Some t' ∧ perm_table start fin t' ∧
    ∀ x, in_dom x → tab start t' x = tab start t (apply c x).
Proof.
  intros [(Hnd & Hex) Hc] Hp. pose proof Hp as (Ht & Hd & Hn).
  assert (Hne : c ≠ []) by (destruct Hex as (x & r & -> & _); done).
  destruct (apply_table_run start fin c t Hdom Hne Hc Hnd Ht) as (t' & Hrun & Ht' & Hat).
  exists t'. split; [done|].
  assert (Hap : ∀ x, in_dom x → in_dom (apply c x)).
  { intros x Hx. apply (perm_apply_dom [c]); [|done]. by apply Forall_singleton. }
  assert (Htab : ∀ x, in_dom x → tab start t' x = tab start t (apply c x)).
  { intros x Hx. unfold tab. rewrite Hat by done.
    destruct (at_table start fin t _ Ht (Hap x Hx)) as (v & ->). done. }
  assert (Hpos : ∀ i v, t' !! i = Some v →
    ∃ x, in_dom x ∧ i = ix start x ∧ v = tab start t (apply c x)).
  { intros i v Hi. exists (start + Z.of_nat i). apply lookup_lt_Some in Hi as Hlt.
    assert (Hx : in_dom (start + Z.of_nat i)).
    { unfold table_ok, width, Idom.in_dom in *. lia. }
    assert (Hix : ix start (start + Z.of_nat i) = i) by (unfold ix; lia).
    split; [done|]. split; [done|]. rewrite <- Htab by done. unfold tab. by rewrite Hix, Hi. }
  split; [split; [done|]|done]. split.
  - apply Forall_lookup. intros i v Hi. destruct (Hpos i v Hi) as (x & Hx & _ & ->).
    apply (tab_dom start fin); auto.
  - apply NoDup_alt. intros i j v Hi Hj.
    destruct (Hpos i v Hi) as (x & Hx & -> & Hv). destruct (Hpos j v Hj) as (y & Hy & -> & Hv').
    f_equal. apply (apply_inj c); [done|]. rewrite Hv in Hv'.
    eapply (tab_inj start fin); eauto.
Qed.

Lemma apply_loops_run loops t :
  Forall good_loop loops → perm_table start fin t →
  ∃ t', apply_loops start fin loops t = Some t' ∧ perm_table start fin t' ∧
    ∀ x, in_dom x → tab start t' x = tab start t (perm_apply (reverse loops) x).
Proof.
  intros Hl. revert t. induction Hl as [|c loops Hc Hl IH]; intros t Ht; [by exists t|].
  destruct (apply_table_perm c t Hc Ht) as (t1 & Hrun1 & Ht1 & Hat1).
  destruct (IH t1 Ht1) as (t2 & Hrun2 & Ht2 & Hat2). exists t2.
  cbn [apply_loops]. rewrite Hrun1. split; [done|]. split; [done|]. intros x Hx.
  rewrite reverse_cons, perm_apply_app. rewrite Hat2 by done. apply Hat1.
  apply perm_apply_dom; [|done]. by apply Forall_reverse.
Qed.

Hypothesis Hroom : has_room T start fin.

Lemma simplify_loops_run loops :
  Forall good_loop loops →
  ∃ t out, simplify_loops T start fin checks loops = Some (Ok out) ∧
    loops_of start fin t out ∧ perm_table start fin t ∧
    ∀ x, in_dom x → tab start t x = perm_apply loops x.
Proof.
  intros Hl. unfold simplify_loops. rewrite (iota_ok T start fin Hroom) by lia.
  erewrite E_bind_Ok by done.
  change (seqZ start (fin - start + 1)) with (domain start fin).
  destruct (apply_loops_run (reverse loops) (domain start fin)) as (t & Hrun & Ht & Htab).
  { by apply Forall_reverse. }
  { apply domain_table. unfold width. lia. }
  erewrite E_bind_checked by exact Hrun.
  destruct (create_loops_run start fin checks t Ht) as (out & Hout & Hof).
  exists t, out. split; [done|]. split; [done|]. split; [done|]. intros x Hx.
  rewrite Htab, reverse_involutive by done. apply (tab_domain start fin).
  by apply perm_apply_dom.
Qed.

(** ** Sorting the loops *)
#[local] Instance loop_before_total : Total loop_before.
Proof. intros c d. unfold loop_before. lia. Qed.
#[local] Instance loop_before_trans : Transitive loop_before.
Proof. intros c d e. unfold loop_before. lia. Qed.

Lemma strict_sorted p :
  NoDup (first_of <$> p) → StronglySorted loop_before p →
  StronglySorted (λ c d, first_of d < first_of c) p.
Proof.
  intros Hnd Hs. induction Hs as [|c p Hs IH Hc]; [constructor|].
  apply NoDup_cons in Hnd as [Hnc Hnd]. constructor; [auto|].
  apply Forall_forall. intros d Hd. eapply Forall_forall in Hc; [|exact Hd].
  unfold loop_before in Hc. assert (first_of d ≠ first_of c); [|lia].
  intros Heq. apply Hnc. rewrite <- Heq. by apply list_elem_of_fmap_2.
Qed.

Lemma ascending_NoDup p :
  StronglySorted (λ c d, first_of c < first_of d) p → NoDup (first_of <$> p).
Proof.
  induction 1 as [|c p Hs IH Hc]; [constructor|]. cbn. constructor; [|done].
  intros (d & Heq & Hd)%list_elem_of_fmap. eapply Forall_forall in Hc; [|exact Hd]. lia.
Qed.

Lemma sortloops_canonical t out :
  Forall (cycle start fin (tab start t)) out → NoDup (mjoin out) →
  (∀ x, x ∈ mjoin out ↔ in_dom x) → NoDup (first_of <$> out) →
  canonical (sortloops out) ∧
  ∀ x, in_dom x → perm_apply (sortloops out) x = tab start t x.
Proof.
  intros Hcyc Hnd Hcov Hsort.
  assert (Hp : sortloops out ≡ₚ out) by apply merge_sort_Permutation.
  assert (Hgood : Forall good_loop (sortloops out)).
  { rewrite Hp. eapply Forall_impl; [exact Hcyc|]. by intros c (Hn & Hd & _). }
  assert (Hj : NoDup (mjoin (sortloops out))) by (by rewrite Hp).
  split.
  - split; [done|done| |].
    + intros x. by rewrite Hp.
    + apply strict_sorted; [by rewrite Hp|].
      apply (StronglySorted_merge_sort loop_before).
  - intros x Hx. apply Hcov in Hx as Hin. apply list_elem_of_join in Hin as (c & Hxc & Hc).
    rewrite (perm_apply_in _ c); [|by apply good_NoDup|done|by rewrite Hp|done].
    eapply Forall_forall in Hcyc as (_ & _ & Hf); [|exact Hc]. by apply Hf.
Qed.

Lemma sorted_loops_of t out :
  loops_of start fin t out →
  canonical (sortloops out) ∧
  ∀ x, in_dom x → perm_apply (sortloops out) x = tab start t x.
Proof. intros [Hcyc Hnd Hcov Hs]. apply sortloops_canonical; auto using ascending_NoDup. Qed.

(** ** The run-time check accepts canonical permutations *)
Lemma contains_elem c x : contains c x = true ↔ x ∈ c.
Proof.
  unfold contains. rewrite bool_decide_eq_true. split.
  - intros [[i y] Hf]. apply list_find_Some in Hf as (Hi & -> & _).
    by eapply list_elem_of_lookup_2.
  - intros Hx. apply list_find_elem_of with (x := x); done.
Qed.

Lemma perm_contains_elem p x : perm_contains p x = true ↔ x ∈ mjoin p.
Proof.
  unfold perm_contains. rewrite existsb_exists, list_elem_of_join.
  setoid_rewrite contains_elem. setoid_rewrite <- list_elem_of_In. naive_solver.
Qed.

Lemma check_order_sorted p :
  StronglySorted (λ c d, first_of d < first_of c) p → check_order p = Ok ().
Proof.
  induction 1 as [|c [|d p] Hs IH Hc]; [done..|]. cbn [check_order].
  apply Forall_cons in Hc as [Hcd _].
  rewrite (proj2 (Z.eqb_neq _ _)), (proj2 (Z.ltb_ge _ _)) by lia. done.
Qed.

Lemma loop_from_run {A} (body : A → Z → E A) (f : A → Z → A) n x a :
  (∀ a x, in_dom x → body a x = Some (Ok (f a x))) →
  start <= x → x + Z.of_nat n = fin + 1 →
  loop_from T fin (S n) body x a = Some (Ok (foldl f a (seqZ x (Z.of_nat n)))).
Proof using Hroom.
  intros Hb. revert x a. induction n as [|n IH]; intros x a Hx Hn.
  - cbn [loop_from]. by rewrite (proj2 (Z.leb_gt _ _)) by lia.
  - remember (S n) as fuel. cbn [loop_from]. subst fuel.
    rewrite (proj2 (Z.leb_le _ _)) by lia. rewrite (seqZ_cons x) by lia.
    erewrite E_bind_Ok by (apply Hb; unfold Idom.in_dom; lia).
    rewrite (increment_in T start fin Hroom) by lia. rewrite IH by lia. cbn. do 4 f_equal; lia.
Qed.

Lemma domain_loop_run {A} (body : A → Z → E A) (f : A → Z → A) a :
  (∀ a x, in_dom x → body a x = Some (Ok (f a x))) →
  domain_loop T start fin body a = Some (Ok (foldl f a (domain start fin))).
Proof.
  intros Hb. unfold domain_loop. rewrite (loop_from_run _ f) by (done || lia).
  unfold domain, width. do 4 f_equal. lia.
Qed.

Lemma perm_check_canonical p : canonical p → perm_check T start fin p = Some (Ok ()).
Proof.
  intros [Hg Hd Hcov Hs]. unfold perm_check.
  rewrite (proj2 (Z.leb_gt _ _)) by done.
  rewrite bool_decide_eq_false_2.
  2: { intros ->. apply (elem_of_nil start), Hcov. unfold Idom.in_dom. lia. }
  rewrite (E_bind_Ok _ _ tt).
  - by rewrite check_order_sorted.
  - rewrite (domain_loop_run _ (λ _ _, tt)); [do 2 f_equal; by destruct (foldl _ _ _)|].
    intros [] x Hx. unfold covered. erewrite E_bind_Ok by (by rewrite Idom_Ok).
    by rewrite (proj2 (perm_contains_elem p x)) by by apply Hcov.
Qed.

Lemma checked_perm_ok p : canonical p → checked_perm T start fin checks p = Some (Ok p).
Proof. intros Hp%perm_check_canonical. unfold checked_perm. destruct checks; [by rewrite Hp|done]. Qed.

(** ** Construction from loops *)
Lemma Permutation_of_run loops :
  Forall good_loop loops →
  ∃ p, Permutation_of T start fin checks loops = Some (Ok p) ∧ canonical p ∧
    ∀ x, in_dom x → perm_apply p x = perm_apply loops x.
Proof.
  intros Hl. destruct (simplify_loops_run loops Hl) as (t & out & Hrun & Hof & Ht & Htab).
  destruct (sorted_loops_of t out Hof) as [Hcan Happ].
  exists (sortloops out). unfold Permutation_of. rewrite (E_bind_Ok _ _ _ Hrun).
  rewrite checked_perm_ok by done. split; [done|]. split; [done|].
  intros x Hx. by rewrite Happ, Htab.
Qed.

(** ** The inverse *)
Lemma inverse_loop c :
  good_loop c → ∃ d, inverse checks c = Ok d ∧ good_loop d ∧ d ≡ₚ c ∧ first_of d = first_of c ∧
    ∀ x, apply d (apply c x) = x.
Proof.
  clear Hroom.
  intros [Hn Hd]. pose proof Hn as (Hnd & y & r & -> & Hlt). unfold inverse.
  assert (Hp : y :: reverse r ≡ₚ y :: r) by (by rewrite reverse_Permutation).
  assert (Hn' : normal (y :: reverse r)).
  { split; [by rewrite Hp|]. exists y, (reverse r). split; [done|].
    intros z Hz. apply Hlt. by rewrite elem_of_reverse in Hz. }
  assert (Hinv : ∀ x, apply (y :: reverse r) (apply (y :: r) x) = x).
  { intros x. destruct (decide (x ∈ y :: r)) as [Hx|Hx].
    2: { rewrite !apply_out; [done|done|]. rewrite (apply_out (y :: r)) by done. by rewrite Hp. }
    destruct (NoDup_split _ x Hnd Hx) as (l1 & l2 & Heq & H1 & H2).
    rewrite Heq, apply_split by done. destruct l1 as [|y' l1].
    - injection Heq as <- <-. destruct r as [|z r]; [apply apply_head|].
      cbn [head default app]. rewrite reverse_cons, app_comm_cons.
      rewrite apply_split; [done|]. rewrite elem_of_cons, elem_of_reverse.
      apply NoDup_cons in Hnd as [Hy Hnd]. apply NoDup_cons in Hnd as [Hz _]. set_solver.
    - injection Heq as <- ->. rewrite reverse_app, reverse_cons.
      apply NoDup_cons in Hnd as [Hy Hnd]. apply NoDup_app in Hnd as (Hnd1 & Hdis & Hnd2).
      apply NoDup_cons in Hnd2 as [Hx2 Hnd2].
      destruct l2 as [|z l2].
      + cbn [head app default]. rewrite apply_head. done.
      + cbn [head default app]. rewrite reverse_cons, <- !app_assoc. cbn [app].
        rewrite app_comm_cons, apply_split; [done|].
        rewrite elem_of_cons, elem_of_reverse. apply NoDup_cons in Hnd2 as [Hz _]. set_solver. }
  exists (y :: reverse r). split; [|split; [split; [done|by rewrite Hp]|done]].
  destruct (Nat.ltb_spec (length (y :: r)) 3) as [Hlen|Hlen]; [|by apply checked_loop_ok].
  destruct r as [|z [|]]; [done|done|cbn in Hlen; lia].
Qed.

Lemma perm_inverse_run p :
  Forall good_loop p →
  ∃ q, perm_inverse checks p = Ok q ∧ Forall good_loop q ∧
    Forall2 (λ c d, d ≡ₚ c ∧ first_of d = first_of c ∧ ∀ x, apply d (apply c x) = x) p q.
Proof.
  induction 1 as [|c p Hc Hp (q & Hq & Hgq & H2)]; [by exists []|].
  destruct (inverse_loop c Hc) as (d & Hd & Hgd & Hperm). exists (d :: q).
  cbn. rewrite Hd. cbn. rewrite Hq. cbn. split; [done|]. split; by constructor.
Qed.

Lemma inverse_canonical p :
  canonical p →
  ∃ q, perm_inverse checks p = Ok q ∧ canonical q ∧
    ∀ x, in_dom x → perm_apply q (perm_apply p x) = x.
Proof.
  intros [Hg Hd Hcov Hs]. destruct (perm_inverse_run p Hg) as (q & Hq & Hgq & H2).
  assert (Hj : mjoin q ≡ₚ mjoin p).
  { clear -H2. induction H2 as [|c d p q (Hcd & _) _ IH]; [done|]. cbn. by rewrite Hcd, IH. }
  exists q. split; [done|]. split; [split; [done| | |]|].
  - by rewrite Hj.
  - intros x. by rewrite Hj.
  - clear -Hs H2. induction H2 as [|c d p q (_ & Hf & _) H2 IH]; [constructor|].
    apply StronglySorted_inv in Hs as [Hs Hc]. constructor; [auto|].
    rewrite Hf. clear -Hc H2. induction H2 as [|c' d' p q (_ & Hf' & _) H2 IH]; [constructor|].
    apply Forall_cons in Hc as [Hc' Hc]. constructor; [lia|auto].
  - intros x Hx. apply Hcov in Hx as Hin. apply list_elem_of_join in Hin as (c & Hxc & Hc).
    apply list_elem_of_lookup_1 in Hc as (i & Hi).
    destruct (Forall2_lookup_l _ _ _ _ _ H2 Hi) as (d & Hdq & Hcd & _ & Hinv).
    apply list_elem_of_lookup_2 in Hi. apply list_elem_of_lookup_2 in Hdq.
    assert (Hnd : NoDup c) by (by eapply Forall_forall in Hg as [[? _] _]).
    rewrite (perm_apply_in p c x); [|by apply good_NoDup|done..].
    rewrite (perm_apply_in q d); [done|by apply good_NoDup|by rewrite Hj|done|].
    rewrite Hcd. by apply apply_in.
Qed.

(** ** The canonical form is unique *)

(** A loop is determined by its first element and what it does. *)
Lemma same_loop_from l x a b :
  NoDup (l ++ x :: a) → NoDup (l ++ x :: b) →
  (∀ y, y ∈ l ++ x :: a → y ∈ l ++ x :: b → apply (l ++ x :: a) y = apply (l ++ x :: b) y) →
  a = b.
Proof.
  clear Hroom.
  assert (Hhead : ∀ (l : list Z) x z (c : list Z), NoDup (l ++ x :: z :: c) →
    default x (head l) ≠ z).
  { intros l' x' z c Hnd. rewrite cons_middle, app_assoc in Hnd.
    apply NoDup_app in Hnd as (_ & Hd & _). intros <-.
    apply (Hd (default x' (head l'))); [|left]. destruct l'; cbn; set_solver. }
  revert l x b. induction a as [|z a IH]; intros l x b Ha Hb Heq;
    pose proof (Heq x ltac:(set_solver) ltac:(set_solver)) as Hx;
    rewrite !apply_split in Hx
      by (intros Hin; apply NoDup_app in Hb as (_ & Hd & _); apply (Hd x Hin); left).
  - destruct b as [|w b]; [done|]. exfalso. by apply (Hhead l x w b Hb).
  - destruct b as [|w b]; [exfalso; by apply (Hhead l x z a Ha)|]. cbn in Hx. subst w.
    assert (Hm : ∀ c, (l ++ [x]) ++ c = l ++ x :: c) by (intros; by rewrite <- app_assoc).
    f_equal. apply (IH (l ++ [x]) z b); [by rewrite Hm..|].
    intros y. rewrite !Hm. apply Heq.
Qed.

Lemma same_loop c d :
  normal c → normal d → first_of c = first_of d →
  (∀ y, y ∈ c → y ∈ d → apply c y = apply d y) → c = d.
Proof.
  intros Hc Hd Hf Heq. destruct (normal_first c Hc) as (a & Ha), (normal_first d Hd) as (b & Hb).
  destruct Hc as [Hnc _], Hd as [Hnd _]. rewrite Hf in Ha. revert Ha Hb.
  generalize (first_of d). intros h -> ->. f_equal.
  by apply (same_loop_from [] h).
Qed.

(** What is closed under a loop and meets it contains it. *)
Lemma loop_closed c x (P : Z → Prop) :
  NoDup c → x ∈ c → P x → (∀ y, y ∈ c → P y → P (apply c y)) → ∀ y, y ∈ c → P y.
Proof.
  clear Hroom.
  intros Hnd Hx HP Hstep. destruct (NoDup_split c x Hnd Hx) as (l1 & l2 & Hc & H1 & H2).
  assert (Hr : rotate (length l1) c ≡ₚ c) by apply rotate_perm.
  assert (Hap : ∀ y, apply (rotate (length l1) c) y = apply c y) by (intros; by apply apply_rotate).
  assert (Heq : rotate (length l1) c = [] ++ x :: (l2 ++ l1)).
  { rewrite Hc. unfold rotate. by rewrite drop_app_length, take_app_length. }
  assert (Hgen : ∀ r l z, rotate (length l1) c = l ++ z :: r → P z → Forall P r).
  { induction r as [|w r IH]; intros l z Hlz HPz; [constructor|].
    assert (HPw : P w).
    { replace w with (apply c z); [apply Hstep; [|done]; rewrite <- Hr, Hlz; set_solver|].
      rewrite <- Hap, Hlz. apply apply_split. rewrite <- Hr, Hlz in Hnd.
      apply NoDup_app in Hnd as (_ & Hd & _). intros Hin. apply (Hd z Hin). left. }
    constructor; [done|]. apply (IH (l ++ [z]) w); [|done]. by rewrite Hlz, <- app_assoc. }
  intros y Hy. rewrite <- Hr, Heq in Hy. apply elem_of_cons in Hy as [->|Hy]; [done|].
  specialize (Hgen _ _ _ Heq HP). by eapply Forall_forall in Hgen.
Qed.

Lemma canonical_subset p q c :
  canonical p → canonical q → (∀ x, in_dom x → perm_apply p x = perm_apply q x) →
  c ∈ p → c ∈ q.
Proof.
  intros [Hgp Hdp Hcp _] [Hgq Hdq Hcq _] Heq Hc.
  assert (Hnc : good_loop c) by (by eapply Forall_forall in Hgp). destruct Hnc as [Hnc Hdc].
  assert (Hin : first_of c ∈ mjoin q).
  { apply Hcq, Hcp, list_elem_of_join. exists c. split; [by apply first_of_in|done]. }
  apply list_elem_of_join in Hin as (d & Hfd & Hd).
  assert (Hnd : good_loop d) by (by eapply Forall_forall in Hgq). destruct Hnd as [Hnd Hdd].
  assert (Hsame : ∀ y, y ∈ c → y ∈ d → apply c y = apply d y).
  { intros y Hyc Hyd. rewrite <- (perm_apply_in p c y), <- (perm_apply_in q d y);
      try done; try by apply good_NoDup.
    apply Heq. by eapply Forall_forall in Hdc. }
  assert (Hsub : ∀ y, y ∈ d → y ∈ c).
  { apply (loop_closed d (first_of c)); [apply Hnd|done|by apply first_of_in|].
    intros y Hyd Hyc. rewrite <- Hsame by done. apply apply_in; [apply Hnc|done]. }
  assert (Hfirst : first_of c = first_of d).
  { pose proof (first_of_min c (first_of d) Hnc (Hsub _ (first_of_in d Hnd))).
    pose proof (first_of_min d (first_of c) Hnd Hfd). lia. }
  by rewrite (same_loop c d Hnc Hnd Hfirst Hsame).
Qed.

Lemma sorted_strict_NoDup p : StronglySorted (λ c d, first_of d < first_of c) p → NoDup p.
Proof.
  induction 1 as [|c p Hs IH Hc]; constructor; [|done].
  intros Hin. eapply Forall_forall in Hc; [|exact Hin]. lia.
Qed.

Lemma canonical_unique p q :
  canonical p → canonical q → (∀ x, in_dom x → perm_apply p x = perm_apply q x) → p = q.
Proof.
  intros Hp Hq Heq. eapply StronglySorted_unique_strong; [|apply Hp|apply Hq|].
  - cbn. intros c d _ _. lia.
  - apply NoDup_Permutation; [apply sorted_strict_NoDup, Hp|apply sorted_strict_NoDup, Hq|].
    intros c. split; [by apply canonical_subset|].
    apply canonical_subset; [done..|]. intros x Hx. by rewrite Heq.
Qed.

(** ** The identity *)
Lemma push_loop_run loops x :
  in_dom x → push_loop start fin checks loops x = Some (Ok (loops ++ [[x]])).
Proof.
  intros Hx. unfold push_loop. erewrite E_bind_Ok by (by rewrite Idom_Ok).
  assert (Hn : normal [x]).
  { split; [apply NoDup_singleton|]. exists x, []. split; [done|]. by intros y ?%elem_of_nil. }
  erewrite E_bind_Ok; [done|]. unfold PermLoop. by rewrite (reroll_id [x] Hn), checked_loop_ok.
Qed.

Lemma push_all (xs : list Z) (l : list (list Z)) :
  foldl (λ loops x, loops ++ [[x]]) l xs = l ++ ((λ x, [x]) <$> xs).
Proof.
  revert l. induction xs as [|x xs IH]; intros l; cbn; [by rewrite app_nil_r|].
  by rewrite IH, <- app_assoc.
Qed.

Lemma Permutation_id_run :
  ∃ p, Permutation_id T start fin checks = Some (Ok p) ∧ canonical p ∧
    ∀ x, in_dom x → perm_apply p x = x.
Proof.
  unfold Permutation_id.
  assert (Hd : Forall in_dom (domain start fin)).
  { apply Forall_forall. intros x. apply elem_of_domain. }
  erewrite E_bind_Ok by (apply domain_loop_run; apply push_loop_run).
  rewrite push_all. cbn [app].
  set (out := (λ x, [x]) <$> domain start fin).
  assert (Hj : mjoin out = domain start fin).
  { unfold out. generalize (domain start fin). intros l.
    induction l as [|x l IH]; [done|]. cbn. by f_equal. }
  destruct (sortloops_canonical (domain start fin) out) as [Hcan Happ].
  - apply Forall_fmap. eapply Forall_impl; [exact Hd|]. intros x Hx. split; [|split].
    + split; [apply NoDup_singleton|]. exists x, []. split; [done|]. by intros y ?%elem_of_nil.
    + by apply Forall_singleton.
    + intros y ->%list_elem_of_singleton. rewrite apply_head. cbn. symmetry. by apply (tab_domain start fin).
  - rewrite Hj. apply NoDup_seqZ.
  - intros x. rewrite Hj. apply elem_of_domain.
  - unfold out. rewrite <- list_fmap_compose. erewrite list_fmap_ext; [rewrite list_fmap_id; apply NoDup_seqZ|].
    done.
  - exists (sortloops out). rewrite checked_perm_ok by done. split; [done|]. split; [done|].
    intros x Hx. rewrite Happ by done. by apply (tab_domain start fin).
Qed.

(** ** Multiplication *)
Lemma rmul_run p q :
  canonical p → canonical q →
  ∃ r, rmul T start fin checks p q = Some (Ok r) ∧ canonical r ∧
    ∀ x, in_dom x → perm_apply r x = perm_apply q (perm_apply p x).
Proof.
  intros Hp Hq. destruct (Permutation_of_run (p ++ q)) as (r & Hr & Hcan & Happ).
  { apply Forall_app. split; [apply Hp|apply Hq]. }
  exists r. split; [done|]. split; [done|]. intros x Hx. by rewrite Happ, perm_apply_app.
Qed.

Lemma lmul_run p q :
  canonical p → canonical q →
  ∃ r, lmul T start fin checks p q = Some (Ok r) ∧ canonical r ∧
    ∀ x, in_dom x → perm_apply r x = perm_apply q (perm_apply p x).
Proof. apply rmul_run. Qed.

Lemma canonical_dom p x : canonical p → in_dom x → in_dom (perm_apply p x).
Proof. intros [Hg _ _ _]. by apply perm_apply_dom. Qed.

(** ** The group operations *)
Lemma product_is p q r :
  canonical p → canonical q → canonical r →
  (∀ x, in_dom x → perm_apply r x = perm_apply q (perm_apply p x)) →
  product T start fin checks p q = Some (Ok r).
Proof.
  intros Hp Hq Hr Heq. destruct (rmul_run p q Hp Hq) as (r' & Hrun & Hr' & Happ).
  unfold product. rewrite Hrun. do 2 f_equal. apply canonical_unique; [done..|].
  intros x Hx. by rewrite Happ, Heq.
Qed.

Lemma product_assoc p q r :
  canonical p → canonical q → canonical r →
  (pq ← product T start fin checks p q; product T start fin checks pq r) =
    (qr ← product T start fin checks q r; product T start fin checks p qr).
Proof.
  intros Hp Hq Hr. destruct (rmul_run p q Hp Hq) as (pq & Hpq & Hcpq & Hapq).
  destruct (rmul_run q r Hq Hr) as (qr & Hqr & Hcqr & Haqr).
  destruct (rmul_run pq r Hcpq Hr) as (s & Hs & Hcs & Has).
  unfold product. rewrite (E_bind_Ok _ _ _ Hpq), (E_bind_Ok _ _ _ Hqr), Hs. symmetry.
  apply product_is; [done..|]. intros x Hx. rewrite Has, Hapq by done.
  rewrite Haqr; [done|]. by apply canonical_dom.
Qed.

(** A left inverse on a finite domain is a right inverse. *)
Lemma inverse_right p q x :
  canonical p → canonical q →
  (∀ x, in_dom x → perm_apply q (perm_apply p x) = x) → in_dom x →
  x = perm_apply p (perm_apply q x).
Proof.
  intros Hp Hq Hinv Hx. apply (perm_apply_inj q); [apply Hq|].
  rewrite Hinv; [done|]. by apply canonical_dom.
Qed.
End facts.

(** ** Order: sizes first, then element by element *)
Definition strict_total {A} (lt : A → A → bool) : Prop :=
  (∀ x, lt x x = false) ∧ (∀ x y z, lt x y = true → lt y z = true → lt x z = true) ∧
  (∀ x y, x ≠ y → lt x y = true ∨ lt y x = true).

Section shortlex.
Context {A : Type} `{EqDecision A} (lt : A → A → bool).

Fixpoint lex (l r : list A) : bool :=
  match l, r with
  | x :: l, y :: r => if decide (x = y) then lex l r else lt x y
  | _, _ => false
  end.
Definition shortlex (l r : list A) : bool :=
  if (length l =? length r)%nat then lex l r else (length l <? length r)%nat.

Lemma lex_trans l m r :
  strict_total lt → lex l m = true → lex m r = true → lex l r = true.
Proof.
  intros (Hirr & Htr & _). revert m r. induction l as [|x l IH]; intros [|y m] [|z r]; try done.
  cbn. destruct (decide (x = y)) as [->|Hxy].
  - destruct (decide (y = z)) as [->|Hyz]; [|done]. apply IH.
  - destruct (decide (y = z)) as [->|Hyz]; [by rewrite decide_False|].
    intros H1 H2. rewrite decide_False; [by apply (Htr x y z)|].
    intros ->. specialize (Htr _ _ _ H1 H2). by rewrite Hirr in Htr.
Qed.

Lemma shortlex_strict_total : strict_total lt → strict_total shortlex.
Proof.
  intros Hlt. pose proof Hlt as (Hirr & _ & Htot). unfold shortlex. split_and!.
  - intros l. rewrite Nat.eqb_refl. induction l as [|x l IH]; [done|]. cbn. by destruct (decide (x = x)).
  - intros l m r.
    destruct (Nat.eqb_spec (length l) (length m)), (Nat.eqb_spec (length m) (length r)),
      (Nat.eqb_spec (length l) (length r)); try lia; rewrite ?Nat.ltb_lt; try lia.
    by apply lex_trans.
  - intros l r Hne. rewrite (Nat.eqb_sym (length r)).
    destruct (Nat.eqb_spec (length l) (length r)) as [Heq|Hlen]; [|rewrite !Nat.ltb_lt; lia].
    revert r Heq Hne. induction l as [|x l IH]; intros [|y r] Heq Hne; try done. cbn in *.
    destruct (decide (x = y)) as [->|Hxy].
    + rewrite decide_True by done. apply IH; [lia|]. congruence.
    + rewrite decide_False by done. by apply Htot.
Qed.
End shortlex.

Lemma ltb_strict_total : strict_total Z.ltb.
Proof.
  split_and!.
  - apply Z.ltb_irrefl.
  - intros x y z. rewrite !Z.ltb_lt. lia.
  - intros x y Hne. rewrite !Z.ltb_lt. lia.
Qed.

Lemma less_shortlex (c d : list Z) : less c d = shortlex Z.ltb c d.
Proof.
  unfold less, shortlex. destruct (Nat.eqb_spec (length c) (length d)) as [Hl|]; [|done]. cbn.
  clear Hl. revert d. induction c as [|x c IH]; intros [|y d]; [done..|]. cbn.
  destruct (decide (x = y)), (Z.eqb_spec x y); cbn; auto; congruence.
Qed.

Lemma less_strict_total : strict_total less.
Proof.
  pose proof (shortlex_strict_total Z.ltb ltb_strict_total) as (H1 & H2 & H3).
  split_and!; intros *; rewrite !less_shortlex; eauto.
Qed.

Lemma perm_less_shortlex p q : perm_less p q = shortlex less p q.
Proof.
  unfold perm_less, shortlex. rewrite (Nat.eqb_sym (length q)).
  destruct (Nat.eqb_spec (length p) (length q)) as [Hl|]; [|done]. cbn.
  clear Hl. revert q. induction p as [|c p IH]; intros [|d q]; [done..|]. cbn.
  unfold equals, bool_decide, decide. destruct (decide_rel _ c d); cbn; auto.
Qed.

Lemma perm_less_strict_total : strict_total perm_less.
Proof.
  pose proof (shortlex_strict_total less less_strict_total) as (H1 & H2 & H3).
  split_and!; intros *; rewrite !perm_less_shortlex; eauto.
Qed.
