(* ===== verification/PermGroup.v ===== *)
(** * What the permutation classes promise

    The properties of [permloops.hpp] and [perms.hpp] over a domain from [start] to
    [fin], with or without the run-time checks of [-DCHECKS]. The loops over the domain
    need [has_room]: the domain ends before the greatest value of its type. What the
    default constructor does otherwise is the last theorem. *)

From S2P Require Import Prelude Idom PermLoop PermCycles CreateLoops Perm PermFacts.

(** A concrete loop is normal and over its domain. *)
Ltac good_loop :=
  split; [split; [apply (bool_decide_unpack (NoDup _)); vm_compute; exact I|
    eexists _, _; split; [reflexivity|apply Forall_forall; repeat constructor]]|
    repeat constructor; unfold Idom.in_dom; lia].

Lemma sample_canonical : canonical 1 3 [[2; 3]; [1]].
Proof.
  split.
  - repeat (constructor; [good_loop|]). constructor.
  - apply (bool_decide_unpack (NoDup _)). by vm_compute.
  - intros x. unfold in_dom. cbn. rewrite !elem_of_cons, elem_of_nil. lia.
  - repeat constructor.
Qed.



(** C11: over a domain of at least two elements that ends before the greatest value
    of its type, and from any loops over it that are normal and repeat no element, overlapping
    each other or not, the constructor ends, throws nothing and yields the canonical form (which [check] accepts) of the
    permutation that applies the loops one after another. *)
Theorem permutation_canonical T start fin checks loops :
  has_room T start fin → start < fin → Forall (good_loop start fin) loops →
  ∃ p, Permutation_of T start fin checks loops = Some (Ok p) ∧ canonical start fin p ∧
    perm_check T start fin p = Some (Ok ()) ∧
    ∀ x, in_dom start fin x → perm_apply p x = perm_apply loops x.
Proof.
  intros Hroom Hd Hl.
  destruct (Permutation_of_run T start fin checks Hd Hroom loops Hl) as (p & Hp & Hc & Ha).
  exists p. split_and!; [done..| |done]. by apply perm_check_canonical.
Qed.

Lemma permutation_canonical_witness :
  Forall (good_loop 1 6) [[1; 6; 3]; [4; 5]; [3; 4]] ∧
  ∃ p, Permutation_of Unsigned 1 6 false [[1; 6; 3]; [4; 5]; [3; 4]] = Some (Ok p) ∧ canonical 1 6 p ∧
    perm_check Unsigned 1 6 p = Some (Ok ()) ∧
    ∀ x, in_dom 1 6 x → perm_apply p x = perm_apply [[1; 6; 3]; [4; 5]; [3; 4]] x.
Proof.
  assert (Hg : Forall (good_loop 1 6) [[1; 6; 3]; [4; 5]; [3; 4]]).
  { repeat (constructor; [good_loop|]). constructor. }
  split; [exact Hg|]. exact (permutation_canonical Unsigned 1 6 false _ ltac:(by split) ltac:(lia) Hg).
Defined.

(** Two canonical permutations are [equals] exactly when they move every element
    of the domain to the same place. *)
Theorem equals_extensional start fin p q :
  start < fin → canonical start fin p → canonical start fin q →
  perm_equals p q = true ↔ ∀ x, in_dom start fin x → perm_apply p x = perm_apply q x.
Proof.
  intros Hd Hp Hq. unfold perm_equals. rewrite bool_decide_eq_true. split; [by intros ->|].
  intros Heq. symmetry. by apply (canonical_unique start fin).
Qed.

Lemma equals_extensional_witness :
  canonical 1 3 [[2; 3]; [1]] ∧
  (perm_equals [[2; 3]; [1]] [[2; 3]; [1]] = true ↔
   ∀ x, in_dom 1 3 x → perm_apply [[2; 3]; [1]] x = perm_apply [[2; 3]; [1]] x).
Proof.
  split; [exact sample_canonical|].
  exact (equals_extensional 1 3 _ _ ltac:(lia) sample_canonical sample_canonical).
Defined.

(** C13: over a domain of at least two elements that ends before the greatest value
    of its type, the product of canonical permutations is the canonical form of applying the
    left one first, and [lmul] and [rmul] are mirror images. *)
Theorem product_composes T start fin checks p q :
  has_room T start fin → start < fin → canonical start fin p → canonical start fin q →
  ∃ r, product T start fin checks p q = Some (Ok r) ∧ lmul T start fin checks p q = Some (Ok r) ∧
    canonical start fin r ∧
    ∀ x, in_dom start fin x → perm_apply r x = perm_apply q (perm_apply p x).
Proof.
  intros Hroom Hd Hp Hq.
  destruct (rmul_run T start fin checks Hd Hroom p q Hp Hq) as (r & Hr & Hc & Ha).
  by exists r.
Qed.

Lemma product_composes_witness :
  ∃ r, product Char 1 3 true [[2; 3]; [1]] [[2; 3]; [1]] = Some (Ok r) ∧
    lmul Char 1 3 true [[2; 3]; [1]] [[2; 3]; [1]] = Some (Ok r) ∧ canonical 1 3 r ∧
    ∀ x, in_dom 1 3 x → perm_apply r x = perm_apply [[2; 3]; [1]] (perm_apply [[2; 3]; [1]] x).
Proof.
  exact (product_composes Char 1 3 true _ _ ltac:(by split) ltac:(lia) sample_canonical sample_canonical).
Defined.

(** C12: the canonical permutations of a domain of at least two elements that ends
    before the greatest value of its type are a group: [product] is
    associative, the default permutation is neutral, and [invert] gives the inverse
    on both sides. *)
Theorem permutation_group T start fin checks p q r :
  has_room T start fin → start < fin → canonical start fin p → canonical start fin q → canonical start fin r →
  (pq ← product T start fin checks p q; product T start fin checks pq r) =
    (qr ← product T start fin checks q r; product T start fin checks p qr) ∧
  ∃ id p', Permutation_id T start fin checks = Some (Ok id) ∧ invert checks p = Ok p' ∧
    canonical start fin id ∧ canonical start fin p' ∧
    product T start fin checks id p = Some (Ok p) ∧ product T start fin checks p id = Some (Ok p) ∧
    product T start fin checks p p' = Some (Ok id) ∧ product T start fin checks p' p = Some (Ok id).
Proof.
  intros Hroom Hd Hp Hq Hr. split; [by apply product_assoc|].
  destruct (Permutation_id_run T start fin checks Hd Hroom) as (id & Hid & Hcid & Haid).
  destruct (inverse_canonical start fin checks Hd p Hp) as (p' & Hp' & Hcp' & Hap').
  exists id, p'. split_and!; [done..| | | |]; apply (product_is T start fin checks Hd Hroom); try done.
  - intros x Hx. by rewrite Haid.
  - intros x Hx. rewrite Haid; [done|]. by apply (canonical_dom start fin).
  - intros x Hx. by rewrite Haid, Hap'.
  - intros x Hx. rewrite Haid by done. by apply (inverse_right start fin p p').
Qed.

Lemma permutation_group_witness :
  (pq ← product Char 1 3 true [[2; 3]; [1]] [[2; 3]; [1]]; product Char 1 3 true pq [[2; 3]; [1]]) =
    (qr ← product Char 1 3 true [[2; 3]; [1]] [[2; 3]; [1]]; product Char 1 3 true [[2; 3]; [1]] qr) ∧
  ∃ id p', Permutation_id Char 1 3 true = Some (Ok id) ∧ invert true [[2; 3]; [1]] = Ok p' ∧
    canonical 1 3 id ∧ canonical 1 3 p' ∧
    product Char 1 3 true id [[2; 3]; [1]] = Some (Ok [[2; 3]; [1]]) ∧
    product Char 1 3 true [[2; 3]; [1]] id = Some (Ok [[2; 3]; [1]]) ∧
    product Char 1 3 true [[2; 3]; [1]] p' = Some (Ok id) ∧
    product Char 1 3 true p' [[2; 3]; [1]] = Some (Ok id).
Proof.
  exact (permutation_group Char 1 3 true _ _ _ ltac:(by split) ltac:(lia) sample_canonical sample_canonical
    sample_canonical).
Defined.

(** [less] on loops and [less] on permutations are strict total orders. *)
Theorem less_strict_orders : strict_total less ∧ strict_total perm_less.
Proof. split; [exact less_strict_total|exact perm_less_strict_total]. Qed.

(** ** Domains that end at the greatest value of the type *)



