(* ===== verification/Groups.v ===== *)
(** * [src/17-algorithms/permutations/groups.hpp]: orbits

    An [unordered_set] is a finite set and an [unordered_map] a finite map; a loop
    over one visits its elements in an order [order_set], [order_map] that nothing
    is known of except that it is an order of the elements. *)

From stdpp Require Import relations fin_maps.
From S2P Require Import Prelude Idom PermLoop PermCycles CreateLoops Perm PermFacts.

Section orbits.
Variables start fin : Z.
Variable checks : bool.
Implicit Types gens : list (list (list Z)).

(** The two nested loops of [orbit]: images of an element, of all elements. *)
Definition add_images gens (orbit : gset Z) (elem : Z) (tmp : gset Z) : gset Z :=
  foldl (λ tmp gen, let newelem := perm_apply gen elem in
    if decide (newelem ∈ orbit) then tmp else {[newelem]} ∪ tmp) tmp gens.

Fixpoint orbit_loop (order_set : gset Z → list Z) (fuel : nat) gens (orbit next : gset Z) : option (gset Z) :=
  match fuel with
  | O => None
  | S fuel =>
    if decide (next = ∅) then Some orbit
    else
      let orbit := orbit ∪ next in
      let tmp := foldl (λ tmp elem, add_images gens orbit elem tmp) ∅ (order_set next) in
      orbit_loop order_set fuel gens orbit tmp
  end.

(** Each turn adds an element of the domain to the orbit. *)
Definition orbit_fuel : nat := S (S (Z.to_nat (fin - start + 1))).

Definition orbit (order_set : gset Z → list Z) (num : Z) gens : option (gset Z) :=
  orbit_loop order_set orbit_fuel gens ∅ {[num]}.

Variable T : value_type.

(** [try_emplace] evaluates the product and drops it when the key is present. *)
Fixpoint reps_images gens (orbit : gmap Z (list (list Z))) (elem : Z) (curgen : list (list Z))
    (tmp : gmap Z (list (list Z))) : E (gmap Z (list (list Z))) :=
  match gens with
  | [] => mret tmp
  | gen :: gens =>
    let newelem := perm_apply gen elem in
    match orbit !! newelem with
    | Some _ => reps_images gens orbit elem curgen tmp
    | None =>
      p ← product T start fin checks curgen gen;
      reps_images gens orbit elem curgen
        (match tmp !! newelem with Some _ => tmp | None => <[newelem := p]> tmp end)
    end
  end.

Fixpoint reps_next gens (orbit : gmap Z (list (list Z))) (next : list (Z * list (list Z)))
    (tmp : gmap Z (list (list Z))) : E (gmap Z (list (list Z))) :=
  match next with
  | [] => mret tmp
  | (elem, curgen) :: next =>
    tmp ← reps_images gens orbit elem curgen tmp;
    reps_next gens orbit next tmp
  end.

Fixpoint reps_loop (order_map : gmap Z (list (list Z)) → list (Z * list (list Z)))
    (fuel : nat) gens (orbit next : gmap Z (list (list Z))) : E (gmap Z (list (list Z))) :=
  match fuel with
  | O => None
  | S fuel =>
    if decide (next = ∅) then mret orbit
    else
      let orbit := orbit ∪ next in
      tmp ← reps_next gens orbit (order_map next) ∅;
      reps_loop order_map fuel gens orbit tmp
  end.

Definition orbit_reps (order_map : gmap Z (list (list Z)) → list (Z * list (list Z)))
    (num : Z) gens : E (gmap Z (list (list Z))) :=
  id ← Permutation_id T start fin checks;
  reps_loop order_map orbit_fuel gens ∅ {[num := id]}.

(** ** Reachability *)
Hypothesis Hdom : start < fin.

Abbreviation in_dom := (in_dom start fin).

Definition moves gens (x y : Z) : Prop := ∃ g, g ∈ gens ∧ y = perm_apply g x.
Definition reaches gens : relation Z := rtc (moves gens).

Section bfs.
Variable gens : list (list (list Z)).
Variable num : Z.
Hypothesis Hgens : Forall (canonical start fin) gens.
Hypothesis Hnum : in_dom num.

(** The elements found ([orbit]) and those found last ([next]). *)
Record search (orbit next : gset Z) : Prop := {
  search_num : num ∈ orbit ∪ next;
  search_reach : ∀ x, x ∈ orbit ∪ next → reaches gens num x ∧ in_dom x;
  search_closed : ∀ x y, x ∈ orbit → moves gens x y → y ∈ orbit ∪ next;
  search_disjoint : orbit ## next }.

Definition images (orbit next tmp : gset Z) : Prop :=
  ∀ y, y ∈ tmp ↔ y ∉ orbit ∧ ∃ x, x ∈ next ∧ moves gens x y.

Lemma moves_dom x y : in_dom x → moves gens x y → in_dom y.
Proof.
  intros Hx (g & Hg & ->). eapply Forall_forall in Hgens; [|exact Hg].
  by apply (canonical_dom start fin).
Qed.

Lemma search_start : search ∅ {[num]}.
Proof.
  split; [set_solver| |set_solver|set_solver].
  intros x Hx. assert (x = num) as -> by set_solver. split; [constructor|done].
Qed.

Lemma search_step orbit next tmp :
  search orbit next → images (orbit ∪ next) next tmp → search (orbit ∪ next) tmp.
Proof.
  intros [H1 H2 H3 H4] Him. split.
  - set_solver.
  - intros y [Hy|Hy]%elem_of_union; [by apply H2|].
    apply Him in Hy as (_ & x & Hx & Hm). destruct (H2 x) as [Hr Hd]; [set_solver|].
    split; [by eapply rtc_r|]. by eapply moves_dom.
  - intros x y Hx Hm. destruct (decide (y ∈ orbit ∪ next)) as [|Hy]; [set_solver|].
    apply elem_of_union_r, Him. split; [done|]. exists x. split; [|done].
    apply elem_of_union in Hx as [Hx|Hx]; [|done]. exfalso. by eapply Hy, H3.
  - intros y Hy Hy'. by apply Him in Hy' as [? _].
Qed.

Lemma search_end orbit : search orbit ∅ → ∀ x, x ∈ orbit ↔ reaches gens num x.
Proof.
  intros [H1 H2 H3 _] x. split; [intros Hx; apply H2; set_solver|].
  assert (Hclosed : ∀ y z, reaches gens y z → y ∈ orbit → z ∈ orbit).
  { induction 1 as [|y z w Hm _ IH]; [done|]. intros Hy. apply IH.
    specialize (H3 y z Hy Hm). set_solver. }
  intros Hr. apply (Hclosed num); [done|set_solver].
Qed.

(** The orbit stays inside the domain, and grows as long as something is found. *)
Lemma search_size orbit next :
  search orbit next → (size orbit ≤ Z.to_nat (fin - start + 1))%nat.
Proof.
  intros [_ H2 _ _]. assert (Hs : orbit ⊆ list_to_set (domain start fin)).
  { intros x Hx. apply elem_of_list_to_set, elem_of_domain, H2. set_solver. }
  apply subseteq_size in Hs. rewrite size_list_to_set in Hs by apply NoDup_seqZ.
  unfold domain, width in Hs. rewrite length_seqZ in Hs. done.
Qed.

Lemma search_grows orbit next :
  search orbit next → next ≠ ∅ → (S (size orbit) ≤ size (orbit ∪ next))%nat.
Proof.
  intros [_ _ _ Hd] Hne. rewrite size_union by done.
  assert (size next ≠ 0%nat) by (by intros Hz%size_empty_inv%leibniz_equiv). lia.
Qed.

End bfs.

(** ** [orbit] *)
Section sets.
Variable order_set : gset Z → list Z.
Hypothesis order_set_perm : ∀ s, order_set s ≡ₚ elements s.

Lemma add_images_spec gs orbit x tmp y :
  y ∈ add_images gs orbit x tmp ↔ y ∈ tmp ∨ y ∉ orbit ∧ moves gs x y.
Proof.
  unfold add_images, moves. revert tmp. induction gs as [|g gs IH]; intros tmp; cbn.
  { set_solver. }
  rewrite IH. setoid_rewrite elem_of_cons. case_decide as Hin; [naive_solver|].
  rewrite elem_of_union, elem_of_singleton. naive_solver.
Qed.

Lemma all_images gens orbit next :
  images gens orbit next (foldl (λ tmp elem, add_images gens orbit elem tmp) ∅ (order_set next)).
Proof.
  intros y. assert (Hgen : ∀ l tmp,
    y ∈ foldl (λ tmp elem, add_images gens orbit elem tmp) tmp l ↔
    y ∈ tmp ∨ y ∉ orbit ∧ ∃ x, x ∈ l ∧ moves gens x y).
  { induction l as [|x l IH]; intros tmp; cbn; [set_solver|].
    rewrite IH, add_images_spec. setoid_rewrite elem_of_cons. naive_solver. }
  rewrite Hgen. setoid_rewrite order_set_perm. setoid_rewrite elem_of_elements. set_solver.
Qed.

Lemma orbit_loop_run gens num fuel orbit next :
  Forall (canonical start fin) gens → in_dom num → search gens num orbit next → (Z.to_nat (fin - start + 1) + 1 < fuel + size orbit)%nat →
  ∃ orb, orbit_loop order_set fuel gens orbit next = Some orb ∧ ∀ x, x ∈ orb ↔ reaches gens num x.
Proof.
  intros Hg Hnum. revert orbit next. induction fuel as [|fuel IH]; intros orbit next Hs Hf.
  { apply search_size in Hs; [lia|done..]. }
  cbn [orbit_loop]. case_decide as Hne.
  - subst next. exists orbit. split; [done|]. by apply search_end.
  - pose proof Hs as Hgrow; apply search_grows in Hgrow; [|exact Hne]. apply IH; [|lia].
    apply search_step; try done. apply all_images.
Qed.

(** C16: [orbit] ends and returns exactly the elements that the generators reach
    from the start, in whatever order the sets are visited. *)
Theorem orbit_correct num gens :
  in_dom num → Forall (canonical start fin) gens →
  ∃ orb, orbit order_set num gens = Some orb ∧ ∀ x, x ∈ orb ↔ reaches gens num x.
Proof.
  intros Hnum Hg. apply orbit_loop_run; [done..|by apply search_start|].
  unfold orbit_fuel. rewrite size_empty. lia.
Qed.

End sets.

(** ** [orbit_reps] *)

(** A representative of an element moves [num] to it. *)
Definition rep_of (num x : Z) (g : list (list Z)) : Prop :=
  canonical start fin g ∧ perm_apply g num = x.
Definition reps_ok (num : Z) (m : gmap Z (list (list Z))) : Prop := map_Forall (rep_of num) m.

Hypothesis Hroom : has_room T start fin.

Lemma reps_images_run num gs orbit x cur tmp :
  in_dom num →
  Forall (canonical start fin) gs → in_dom x → rep_of num x cur → reps_ok num tmp →
  ∃ tmp', reps_images gs orbit x cur tmp = Some (Ok tmp') ∧ reps_ok num tmp' ∧
    ∀ y, y ∈ dom tmp' ↔ y ∈ dom tmp ∨ y ∉ dom orbit ∧ moves gs x y.
Proof.
  intros Hnum Hgs Hx [Hcur Hcx]. revert tmp. induction Hgs as [|g gs Hg Hgs IH]; intros tmp Htmp.
  { exists tmp. split; [done|]. split; [done|]. unfold moves. set_solver. }
  cbn [reps_images]. unfold moves. setoid_rewrite elem_of_cons.
  destruct (orbit !! perm_apply g x) as [p|] eqn:Ho.
  - destruct (IH tmp Htmp) as (tmp' & Hrun & Hok & Hd). exists tmp'. split; [done|].
    split; [done|]. intros y. rewrite Hd. apply elem_of_dom_2 in Ho. unfold moves. naive_solver.
  - destruct (rmul_run T start fin checks Hdom Hroom cur g Hcur Hg) as (r & Hr & Hcan & Happ).
    rewrite (E_bind_Ok _ _ _ (Hr : product _ _ _ _ _ _ = _)).
    assert (Hrep : rep_of num (perm_apply g x) r).
    { split; [done|]. by rewrite Happ, Hcx. }
    apply not_elem_of_dom in Ho.
    destruct (tmp !! perm_apply g x) as [p|] eqn:Ht.
    + destruct (IH tmp Htmp) as (tmp' & Hrun & Hok & Hd). exists tmp'. split; [done|].
      split; [done|]. intros y. rewrite Hd. apply elem_of_dom_2 in Ht. unfold moves. naive_solver.
    + destruct (IH (<[perm_apply g x := r]> tmp)) as (tmp' & Hrun & Hok & Hd).
      { by apply map_Forall_insert_2. }
      exists tmp'. split; [done|]. split; [done|]. intros y. rewrite Hd, dom_insert_L.
      rewrite elem_of_union, elem_of_singleton. unfold moves. naive_solver.
Qed.

Lemma reps_next_run gens num orbit next tmp :
  in_dom num →
  Forall (canonical start fin) gens →
  Forall (λ '(x, g), in_dom x ∧ rep_of num x g) next → reps_ok num tmp →
  ∃ tmp', reps_next gens orbit next tmp = Some (Ok tmp') ∧ reps_ok num tmp' ∧
    ∀ y, y ∈ dom tmp' ↔ y ∈ dom tmp ∨ y ∉ dom orbit ∧ ∃ x, x ∈ next.*1 ∧ moves gens x y.
Proof.
  intros Hnum Hgens Hn. revert tmp. induction Hn as [|[x g] next [Hx Hg] Hn IH]; intros tmp Htmp.
  { exists tmp. split; [done|]. split; [done|]. set_solver. }
  cbn [reps_next].
  destruct (reps_images_run num gens orbit x g tmp Hnum Hgens Hx Hg Htmp) as (t1 & Hrun1 & Hok1 & Hd1).
  rewrite (E_bind_Ok _ _ _ Hrun1). destruct (IH t1 Hok1) as (t2 & Hrun2 & Hok2 & Hd2).
  exists t2. split; [done|]. split; [done|]. intros y. rewrite Hd2, Hd1, fmap_cons. cbn.
  setoid_rewrite elem_of_cons. naive_solver.
Qed.

Section maps.
Variable order_map : gmap Z (list (list Z)) → list (Z * list (list Z)).
Hypothesis order_map_perm : ∀ m, order_map m ≡ₚ map_to_list m.

Lemma visited_dom (m : gmap Z (list (list Z))) x : x ∈ (order_map m).*1 ↔ x ∈ dom m.
Proof.
  rewrite order_map_perm, list_elem_of_fmap. split.
  - intros ([x' g] & -> & Hx). apply elem_of_map_to_list in Hx. by eapply elem_of_dom_2.
  - intros [g Hx]%elem_of_dom. exists (x, g). split; [done|]. by apply elem_of_map_to_list.
Qed.

Lemma reps_loop_run gens num fuel orbit next :
  Forall (canonical start fin) gens → in_dom num →
  search gens num (dom orbit) (dom next) → reps_ok num orbit → reps_ok num next →
  (Z.to_nat (fin - start + 1) + 1 < fuel + size (dom orbit))%nat →
  ∃ orb, reps_loop order_map fuel gens orbit next = Some (Ok orb) ∧ reps_ok num orb ∧
    ∀ x, x ∈ dom orb ↔ reaches gens num x.
Proof.
  intros Hg Hnum. revert orbit next. induction fuel as [|fuel IH]; intros orbit next Hs Ho Hn Hf.
  { apply search_size in Hs; [lia|done..]. }
  cbn [reps_loop]. case_decide as Hne.
  - subst next. exists orbit. split; [done|]. split; [done|].
    rewrite dom_empty_L in Hs. by apply search_end.
  - destruct (reps_next_run gens num (orbit ∪ next) (order_map next) ∅ Hnum Hg) as (tmp & Hrun & Htmp & Hd).
    { rewrite order_map_perm. apply Forall_forall. intros [x g] Hx.
      apply elem_of_map_to_list in Hx. pose proof (Hn x g Hx). split; [|done].
      apply elem_of_dom_2 in Hx. apply (search_reach _ _ _ _ Hs). set_solver. }
    { apply map_Forall_empty. }
    rewrite (E_bind_Ok _ _ _ Hrun).
    assert (Hne' : dom next ≠ ∅) by (by intros ?%dom_empty_inv_L).
    pose proof Hs as Hgrow. apply search_grows in Hgrow; [|done..].
    apply IH; [|by apply map_Forall_union_2|done|rewrite dom_union_L; lia].
    rewrite dom_union_L. apply search_step; try done. intros y. rewrite Hd, dom_union_L, dom_empty_L.
    setoid_rewrite visited_dom. set_solver.
Qed.
(** C15: over a domain of at least two elements that ends before the greatest value
    of its type, from canonical generators and in whatever order the maps are visited,
    [orbit_reps] ends and maps exactly the elements of the orbit, each to a
    canonical permutation that moves the start to it. *)
Theorem orbit_reps_correct num gens :
  in_dom num → Forall (canonical start fin) gens →
  ∃ orb, orbit_reps order_map num gens = Some (Ok orb) ∧
    (∀ x, is_Some (orb !! x) ↔ reaches gens num x) ∧
    ∀ x g, orb !! x = Some g → canonical start fin g ∧ perm_apply g num = x.
Proof.
  intros Hnum Hg. destruct (Permutation_id_run T start fin checks Hdom Hroom) as (id & Hid & Hcid & Haid).
  unfold orbit_reps. rewrite (E_bind_Ok _ _ _ Hid).
  destruct (reps_loop_run gens num orbit_fuel ∅ {[num := id]} Hg Hnum) as (orb & Hrun & Hok & Hd).
  - rewrite dom_empty_L, dom_singleton_L. by apply search_start.
  - apply map_Forall_empty.
  - apply map_Forall_singleton. split; [done|]. by apply Haid.
  - unfold orbit_fuel. rewrite dom_empty_L, size_empty. lia.
  - exists orb. split; [done|]. split; [|exact Hok]. intros x. by rewrite <- elem_of_dom.
Qed.
End maps.
End orbits.

(** The generators of permtests.cc, over [1, 4]: (1 2 3 4) and (1 2). *)
Definition test_gens : list (list (list Z)) := [[[1; 2; 3; 4]]; [[4]; [3]; [1; 2]]].

Ltac small_canonical :=
  split; [repeat (constructor; [split; [split; [apply (bool_decide_unpack (NoDup _)); vm_compute;
      exact I|eexists _, _; split; [reflexivity|apply Forall_forall; repeat constructor]]|
      repeat constructor; unfold Idom.in_dom; lia]|]); constructor
    |apply (bool_decide_unpack (NoDup _)); by vm_compute
    |intros x; unfold in_dom; cbn; rewrite !elem_of_cons, elem_of_nil; lia
    |repeat constructor].

Lemma test_gens_canonical : Forall (canonical 1 4) test_gens.
Proof. constructor; [small_canonical|]. constructor; [small_canonical|constructor]. Qed.

Lemma orbit_correct_witness :
  in_dom 1 4 3 ∧ ∃ orb, orbit 1 4 elements 3 test_gens = Some orb ∧
    ∀ x, x ∈ orb ↔ reaches test_gens 3 x.
Proof.
  assert (H3 : in_dom 1 4 3) by (unfold in_dom; lia). split; [exact H3|].
  exact (orbit_correct 1 4 ltac:(lia) elements (λ s, Permutation_refl _) 3 test_gens H3
    test_gens_canonical).
Defined.

Lemma orbit_reps_correct_witness :
  in_dom 1 4 3 ∧ ∃ orb, orbit_reps 1 4 true Char map_to_list 3 test_gens = Some (Ok orb) ∧
    (∀ x, is_Some (orb !! x) ↔ reaches test_gens 3 x) ∧
    ∀ x g, orb !! x = Some g → canonical 1 4 g ∧ perm_apply g 3 = x.
Proof.
  assert (H3 : in_dom 1 4 3) by (unfold in_dom; lia). split; [exact H3|].
  exact (orbit_reps_correct 1 4 true Char ltac:(lia) ltac:(by split) map_to_list (λ m, Permutation_refl _) 3 test_gens H3
    test_gens_canonical).
Defined.
