(* ===== verification/PermArray.v ===== *)
(** * [src/18-constexpr/permutations]: permutation loops of a fixed size

    The loops of [PermLoop] again, as literal types: the elements are a [std::array] of
    [N], the checks of [apply] on the table are compiled out. [create_loops] and
    [simplify_loops] cannot be instantiated, for [add] is compiled out too, and have no
    definition here. *)

From stdpp Require Import pretty.
From S2P Require Import Prelude.
From S2P Require Idom PermLoop.

Module CE.

(** ** [idomain.hpp] *)
Section idom.
Variables start_ fin_ : Z.

Definition Idom (val : Z) : result Z :=
  if fin_ <? val then Throw (out_of_range ("value too big for domain: " +:+ pretty val))
  else if val <? start_ then Throw (out_of_range "value too small for domain")
  else Ok val.

Fixpoint iota_fill (n : nat) (value : Z) : result (list Z) :=
  match n with
  | O => Ok []
  | S n => x ← Idom value; xs ← iota_fill n (value + 1); Ok (x :: xs)
  end.

Definition iota : result (list Z) := iota_fill (Z.to_nat (fin_ - start_ + 1)) start_.

Definition idom_dump (val_ : Z) : string := pretty val_.
End idom.

(** ** [permloops.hpp] *)

(** [*(t.begin() + Ns)] for each [Ns]; none may be past the end. *)
Definition make_array_impl (t : list Z) (Ns : list nat) : option (list Z) := mapM (λ n, t !! n) Ns.
Definition make_array (N : nat) (t : list Z) : option (list Z) := make_array_impl t (seq 0 N).

Section permloop.
Variables start fin : Z.
Variable checks : bool.

Definition reroll (loop_ : list Z) : list Z :=
  let smallest := PermLoop.min_element loop_ in PermLoop.rotate smallest loop_.

Definition check (loop_ : list Z) : result () :=
  if decide (loop_ = []) then Throw (runtime_error "PermLoop shall be non-empty")
  else if checks then
    let uniqs : gset Z := list_to_set loop_ in
    if decide (size uniqs ≠ length loop_) then Throw (runtime_error "PermLoop elements shall be unique")
    else
      let smallest := PermLoop.min_element loop_ in
      if decide (loop_ !! smallest ≠ head loop_) then Throw (runtime_error "Unnormalized state detected")
      else Ok ()
  else Ok ().

Definition PermLoop (N : nat) (ls : list Z) : E (list Z) :=
  loop_ ← checked (make_array N ls);
  let loop_ := reroll loop_ in
  Some (check loop_);;
  mret loop_.

Definition inverse (loop_ : list Z) : result (list Z) :=
  if (length loop_ <? 3)%nat then Ok loop_
  else
    let loop_ := take 1 loop_ ++ reverse (drop 1 loop_) in
    check loop_;; Ok loop_.

Definition smallest (loop_ : list Z) : option Z := head loop_.
Definition contains (loop_ : list Z) (x : Z) : bool := bool_decide (is_Some (list_find (λ y, y = x) loop_)).
Definition equals (loop_ rhs : list Z) : bool := bool_decide (loop_ = rhs).
Definition loop_size (loop_ : list Z) : nat := length loop_.

(** The loop over [i] of [less]. *)
Fixpoint less_at (n i : nat) (loop_ rhs : list Z) : option bool :=
  match n with
  | O => Some false
  | S n =>
    x ← loop_ !! i; y ← rhs !! i;
    if negb (x =? y) then Some (x <? y) else less_at n (S i) loop_ rhs
  end.

Definition less (loop_ rhs : list Z) : option bool :=
  let sz := length rhs in
  if negb (length loop_ =? sz)%nat then Some (length loop_ <? sz)%nat else less_at sz 0 loop_ rhs.

Definition apply (loop_ : list Z) (x : Z) : Z :=
  match list_find (λ y, y = x) loop_ with
  | None => x
  | Some (it, _) =>
    match loop_ !! S it with Some nxt => nxt | None => default x (head loop_) end
  end.

(** [l - T::start] as an index of the table *)
Definition index (l : Z) : option nat := if start <=? l then Some (Z.to_nat (l - start)) else None.

Fixpoint shift (front : Z) (ls table : list Z) (nxt : nat) : option (list Z * nat) :=
  match ls with
  | [] => Some (table, nxt)
  | l :: ls =>
    let prev := nxt in
    nxt ← index l;
    if l =? front then shift front ls table nxt
    else v ← table !! nxt; _ ← table !! prev; shift front ls (<[prev := v]> table) nxt
  end.

Definition apply_table (loop_ : list Z) (table : list Z) : option (list Z) :=
  front ← head loop_;
  nxt ← index front;
  tmp ← table !! nxt;
  '(table, nxt) ← shift front loop_ table nxt;
  _ ← table !! nxt;
  Some (<[nxt := tmp]> table).

Fixpoint dump_from (front back : Z) (ls : list Z) : string :=
  match ls with
  | [] => ""
  | t :: ls =>
    (if t =? front then "(" else "") +:+ idom_dump t +:+ (if t =? back then ")" else " ") +:+ dump_from front back ls
  end.

Definition dump (loop_ : list Z) : option string :=
  front ← head loop_; back ← last loop_; Some (dump_from front back loop_).
End permloop.

(** [permtests.cc] *)
Definition test_permloop_apply : E (list Z) :=
  Init ← Some (iota 1 4) : E _;
  PL ← PermLoop false 4 [4; 2; 1; 3];
  checked (apply_table 1 PL Init).

(** Its comment: (4, 2, 1, 3) applied to [1, 2, 3, 4] yields [3, 1, 4, 2]. *)
Example test_permloop_apply_result : test_permloop_apply = Some (Ok [3; 1; 4; 2]).
Proof. vm_compute. reflexivity. Qed.
End CE.

(** ** The two versions *)
Import PermLoop.

Lemma mapM_seq (t : list Z) k N :
  mapM (λ n, t !! n) (seq k N) = if decide (k + N ≤ length t)%nat then Some (take N (drop k t)) else
    if decide (N = 0)%nat then Some [] else None.
Proof.
  revert k. induction N as [|N IH]; intros k.
  { cbn. rewrite take_0. by case_decide. }
  cbn [seq mapM]. rewrite IH. destruct (t !! k) as [x|] eqn:Hx; cbn.
  - pose proof (lookup_lt_Some _ _ _ Hx). rewrite (drop_S _ _ _ Hx). cbn.
    repeat case_decide; try lia; try done.
  - apply lookup_ge_None in Hx. repeat case_decide; try lia; try done.
Qed.

Lemma make_array_run N t :
  CE.make_array N t = if decide (N ≤ length t)%nat then Some (take N t) else None.
Proof. unfold CE.make_array, CE.make_array_impl. rewrite mapM_seq. repeat case_decide; try done; lia. Qed.

Lemma check_agrees checks c : c ≠ [] → CE.check checks c = if checks then PermLoop.check c else Ok ().
Proof. intros Hc. unfold CE.check. rewrite decide_False by done. destruct checks; [|done]. by destruct c. Qed.

Lemma reroll_nonempty l : l ≠ [] → PermLoop.reroll l ≠ [].
Proof.
  intros Hl Hr. apply Hl. unfold PermLoop.reroll, rotate in Hr. apply app_eq_nil in Hr as [Hd Ht].
  by rewrite <- (take_drop (min_element l) l), Hd, Ht.
Qed.

Lemma shift_agrees start front ls table nxt :
  CE.shift start front ls table nxt = shift_table start front ls table nxt.
Proof.
  revert table nxt. induction ls as [|l ls IH]; intros table nxt; [done|]. cbn.
  change (CE.index start l) with (index start l). destruct (index start l) as [n|]; [|done]. cbn.
  destruct (l =? front); [done|]. destruct (table !! n) as [v|]; [|done]. cbn.
  destruct (Nat.ltb_spec nxt (length table)) as [Hlt|Hge].
  - apply lookup_lt_is_Some in Hlt as [w ->]. cbn. apply IH.
  - by rewrite lookup_ge_None_2.
Qed.

Lemma apply_table_agrees start fin c table t' :
  apply_table start fin c table = Some t' → CE.apply_table start c table = Some t'.
Proof.
  unfold apply_table, CE.apply_table. destruct (head c) as [front|]; [|done]. cbn.
  destruct (last c) as [back|]; [|done]. cbn. destruct (_ && _); [|done].
  change (CE.index start front) with (index start front). destruct (index start front) as [n|]; [|done]. cbn.
  destruct (table !! n) as [tmp|]; [|done]. cbn. rewrite shift_agrees.
  destruct (shift_table start front c table n) as [[t2 n2]|]; [|done]. cbn.
  destruct (Nat.ltb_spec n2 (length t2)) as [Hlt|Hge]; [|done]. by apply lookup_lt_is_Some in Hlt as [w ->].
Qed.

Lemma less_at_agrees n i l r :
  length l = (i + n)%nat → length r = (i + n)%nat → CE.less_at n i l r = Some (less_from (drop i l) (drop i r)).
Proof.
  revert i. induction n as [|n IH]; intros i Hl Hr.
  - by rewrite !drop_ge by lia.
  - destruct (lookup_lt_is_Some_2 l i) as [x Hx]; [lia|]. destruct (lookup_lt_is_Some_2 r i) as [y Hy]; [lia|].
    cbn. rewrite Hx, Hy, (drop_S _ _ _ Hx), (drop_S _ _ _ Hy). cbn.
    destruct (x =? y); cbn; [apply IH; lia|done].
Qed.

Lemma less_agrees l r : CE.less l r = Some (less l r).
Proof.
  unfold CE.less, less. destruct (length l =? length r)%nat eqn:He; [|done]. apply Nat.eqb_eq in He. cbn.
  by apply less_at_agrees.
Qed.

(** The loops of the compile-time version are those of [src/17-algorithms]. The
    constructor from [N] of at least [N] listed elements makes the loop that the other
    makes from the first [N], and has no behaviour for fewer; inverses, comparisons and
    images of elements are the same; and applied to a table that the other accepts,
    which checks what this one does not, it gives the same table. *)
Theorem array_loops_agree start fin checks N ls c d x table t' :
  N ≠ 0%nat → c ≠ [] → apply_table start fin c table = Some t' →
  CE.PermLoop checks N ls =
    (if decide (N ≤ length ls)%nat then Some (PermLoop.PermLoop checks (take N ls)) else None) ∧
  CE.inverse checks c = PermLoop.inverse checks c ∧
  CE.apply c x = PermLoop.apply c x ∧ CE.contains c x = PermLoop.contains c x ∧
  CE.equals c d = PermLoop.equals c d ∧ CE.less c d = Some (PermLoop.less c d) ∧
  CE.apply_table start c table = Some t'.
Proof.
  intros HN Hc Ht. split; [|split; [|split; [done|split; [done|split; [done|split]]]]].
  - unfold CE.PermLoop. rewrite make_array_run. case_decide as Hlen; [|done]. cbn.
    assert (Hne : take N ls ≠ []) by (intros Hnil; apply (f_equal length) in Hnil; rewrite length_take in Hnil; cbn in Hnil; lia).
    change (CE.reroll (take N ls)) with (PermLoop.reroll (take N ls)).
    rewrite check_agrees by (by apply reroll_nonempty). unfold PermLoop.PermLoop, checked_loop.
    destruct checks; [|done]. by destruct (PermLoop.check _).
  - unfold CE.inverse, inverse. destruct (length c <? 3)%nat; [done|]. destruct c as [|y r]; [done|]. cbn [take drop app].
    rewrite check_agrees by done. unfold checked_loop. by destruct checks.
  - apply less_agrees.
  - by eapply apply_table_agrees.
Qed.

Lemma array_loops_agree_witness :
  CE.PermLoop true 4 [4; 2; 1; 3] = Some (PermLoop.PermLoop true [4; 2; 1; 3]) ∧
  CE.inverse true [1; 3; 4; 2] = PermLoop.inverse true [1; 3; 4; 2] ∧
  CE.apply [1; 3; 4; 2] 3 = PermLoop.apply [1; 3; 4; 2] 3 ∧
  CE.contains [1; 3; 4; 2] 3 = PermLoop.contains [1; 3; 4; 2] 3 ∧
  CE.equals [1; 3; 4; 2] [1; 2] = PermLoop.equals [1; 3; 4; 2] [1; 2] ∧
  CE.less [1; 3; 4; 2] [1; 2] = Some (PermLoop.less [1; 3; 4; 2] [1; 2]) ∧
  CE.apply_table 1 [1; 3; 4; 2] [1; 2; 3; 4] = Some [3; 1; 4; 2].
Proof.
  apply (array_loops_agree 1 4 true 4 [4; 2; 1; 3] [1; 3; 4; 2] [1; 2] 3 [1; 2; 3; 4] [3; 1; 4; 2]); [lia|done|].
  vm_compute. reflexivity.
Defined.
