(* ===== verification/VecStore.v ===== *)
(** * The memory of the vectors of [src/08-exceptions/myvec-demo]

    Storage is a block of cells; a cell is raw or holds a [Controllable] object. A
    [MyVector] is an object with an address of its own, so that what a method leaves
    behind when it throws can be stated. [plan] tells which of the next calls of
    [operator new] succeed. Using raw memory as an object, constructing over an
    object, releasing memory that holds objects and every access outside a block
    have no behaviour. *)

From S2P Require Import Prelude.

Abbreviation ptr := nat (only parsing).

(** [Controllable]: its [resource_], which is null once the object has been moved from. *)
Abbreviation T := (option Z) (only parsing).

Inductive cell := Raw | Obj (resource_ : option Z).

(** The members of [MyVector] (and of [MyVectorBuf]). *)
Record vec := Vec { arr_ : ptr; size_ : Z; used_ : Z }.

Record vstore := VStore {
  blocks : gmap ptr (list cell);
  objs : gmap ptr vec;
  brk : ptr;
  plan : list bool;
  control : Z }.

#[export] Instance cell_eq_dec : EqDecision cell.
Proof. solve_decision. Defined.

Definition set_blocks b s := VStore b (objs s) (brk s) (plan s) (control s).
Definition set_objs o s := VStore (blocks s) o (brk s) (plan s) (control s).

(** ** [operator new] and [operator delete] *)
Definition allocate : X vstore () := λ s,
  match plan s with
  | false :: p => Some (Throw bad_alloc, VStore (blocks s) (objs s) (brk s) p (control s))
  | true :: p => Some (Ok (), VStore (blocks s) (objs s) (brk s) p (control s))
  | [] => Some (Ok (), s)
  end.

Definition operator_new (n : Z) : X vstore ptr :=
  allocate;;
  call (λ s, Some (brk s, VStore (<[brk s := replicate (Z.to_nat n) Raw]> (blocks s)) (objs s)
                            (S (brk s)) (plan s) (control s))).

Definition block (p : ptr) : C vstore (list cell) := s ← get; of_option (blocks s !! p).

Definition operator_delete (p : ptr) : C vstore () :=
  if decide (p = 0%nat) then mret ()
  else
    cs ← block p;
    if decide (Forall (λ c, c = Raw) cs) then modify (λ s, set_blocks (delete p (blocks s)) s)
    else undefined.

Definition read_cell (p : ptr) (i : Z) : C vstore cell :=
  cs ← block p;
  if 0 <=? i then of_option (cs !! Z.to_nat i) else undefined.

Definition write_cell (p : ptr) (i : Z) (c : cell) : C vstore () :=
  cs ← block p;
  if (0 <=? i) && (i <? Z.of_nat (length cs))
  then modify (λ s, set_blocks (<[p := <[Z.to_nat i := c]> cs]> (blocks s)) s)
  else undefined.

(** The object in a cell. *)
Definition object (p : ptr) (i : Z) : C vstore T :=
  c ← read_cell p i;
  match c with Obj r => mret r | Raw => undefined end.

(** ** [Controllable] *)
Definition default_T : X vstore T := allocate;; mret (Some 42).

(** The copy constructor; the copy of the resource is released when it throws. *)
Definition copy_T (rhs : T) : X vstore T :=
  v ← call (of_option rhs);
  allocate;;
  s ← call get;
  if control s =? 0
  then
    call (put (VStore (blocks s) (objs s) (brk s) (plan s) 5));;
    throw bad_alloc
  else
    call (put (VStore (blocks s) (objs s) (brk s) (plan s) (control s - 1)));;
    mret (Some v).

(** [dest[idx] = rhs] by copy: a temporary that is swapped with the object. *)
Definition assign_T (p : ptr) (i : Z) (rhs : T) : X vstore () :=
  _ ← call (object p i);
  tmp ← copy_T rhs;
  call (write_cell p i (Obj tmp)).

(** ** Raw storage: placement construction and destruction *)
Definition place (p : ptr) (i : Z) (r : T) : C vstore () :=
  c ← read_cell p i;
  match c with Raw => write_cell p i (Obj r) | Obj _ => undefined end.

(** [construct(p + i, const T &rhs)] *)
Definition construct (p : ptr) (i : Z) (rhs : T) : X vstore () :=
  r ← copy_T rhs; call (place p i r).

(** [construct(p + i, std::move(rhs))]; the caller's object is left without resource. *)
Definition construct_move (p : ptr) (i : Z) (rhs : T) : C vstore () := place p i rhs.

(** [std::move] of the object in a cell, as the source of a move construction. *)
Definition move_from (p : ptr) (i : Z) : C vstore T :=
  r ← object p i; write_cell p i (Obj None);; mret r.

Definition destroy (p : ptr) (i : Z) : C vstore () :=
  _ ← object p i; write_cell p i Raw.

(** [destroy(p + i, p + i + n)] *)
Fixpoint destroy_range (n : nat) (p : ptr) (i : Z) : C vstore () :=
  match n with O => mret () | S n => destroy p i;; destroy_range n p (i + 1) end.

(** ** Arrays of objects: [new T[n]] and [delete[]] *)
Fixpoint default_range (n : nat) (p : ptr) (i : Z) : X vstore () :=
  match n with
  | O => mret ()
  | S n =>
    r ← on_throw default_T (destroy_range (Z.to_nat i) p 0);
    call (place p i r);;
    default_range n p (i + 1)
  end.

Definition new_array (n : Z) : X vstore ptr :=
  p ← operator_new n;
  on_throw (default_range (Z.to_nat n) p 0) (operator_delete p);;
  mret p.

Definition delete_array (p : ptr) : C vstore () :=
  if decide (p = 0%nat) then mret ()
  else
    cs ← block p;
    destroy_range (length cs) p 0;;
    operator_delete p.

(** ** Objects with an address *)
Definition load (o : ptr) : C vstore vec := s ← get; of_option (objs s !! o).
Definition store (o : ptr) (v : vec) : C vstore () :=
  modify (λ s, set_objs (<[o := v]> (objs s)) s).

(** A variable is given an address, and loses it at the end of its scope. *)
Definition declare (v : vec) : C vstore ptr := λ s,
  Some (brk s, VStore (blocks s) (<[brk s := v]> (objs s)) (S (brk s)) (plan s) (control s)).
Definition leave_scope (o : ptr) : C vstore () :=
  _ ← load o; modify (λ s, set_objs (delete o (objs s)) s).

(** [body] with the variable [o] in scope: [dtor] runs however it is left. *)
Definition scoped {A} (o : ptr) (dtor : ptr → C vstore ()) (body : X vstore A) : X vstore A :=
  a ← on_throw body (dtor o;; leave_scope o);
  call (dtor o;; leave_scope o);;
  mret a.

(** [std::swap] of two vectors. *)
Definition swap_vec (a b : ptr) : C vstore () :=
  va ← load a; vb ← load b; store a vb;; store b va.

Definition start_store (p : list bool) (c : Z) : vstore := VStore ∅ ∅ 1 p c.

(** [assert] of the source *)
Definition check_that (b : bool) : X vstore () := call (assert b).
