(* ===== verification/VecFacts.v ===== *)
(** * What the storage operations do

    Each operation either succeeds or throws [bad_alloc], whatever [plan] and
    [control] are; [becomes s s' b o] says which blocks and objects it leaves. *)

From S2P Require Import Prelude VecStore.

Record becomes (s s' : vstore) (b : gmap ptr (list cell)) (o : gmap ptr vec) : Prop := {
  bec_blocks : blocks s' = b;
  bec_objs : objs s' = o;
  bec_brk : (brk s ≤ brk s')%nat }.

(** Nothing but the supplies of failures has changed. *)
Abbreviation quiet s s' := (becomes s s' (blocks s) (objs s)).
(** Only blocks have changed. *)
Abbreviation rewrites s s' b := (becomes s s' b (objs s)).

(** Addresses handed out are below [brk]. *)
Record vwf (s : vstore) : Prop := {
  vwf_brk : (0 < brk s)%nat;
  vwf_blocks : ∀ p, is_Some (blocks s !! p) → (0 < p < brk s)%nat;
  vwf_objs : ∀ p, is_Some (objs s !! p) → (0 < p < brk s)%nat }.

Section facts.
Implicit Types (s : vstore) (p : ptr) (cs : list cell) (ds : list T).

Lemma becomes_refl s : quiet s s.
Proof. by split. Qed.

Lemma becomes_trans s s1 s2 b o b' o' :
  becomes s s1 b o → becomes s1 s2 b' o' → becomes s s2 b' o'.
Proof. intros [H1 H2 H3] [H4 H5 H6]. split; [done|done|lia]. Qed.

Lemma vwf_fresh s : vwf s → blocks s !! brk s = None ∧ objs s !! brk s = None.
Proof.
  intros [Hb H1 H2]. split; apply eq_None_not_Some; [intros ?%H1|intros ?%H2]; lia.
Qed.

(** ** Elements *)
Lemma allocate_run s :
  ∃ r s', allocate s = Some (r, s') ∧ quiet s s' ∧ (r = Ok () ∨ r = Throw bad_alloc).
Proof.
  unfold allocate. destruct (plan s) as [|[] pl]; eexists _, _; (split; [done|]); split;
    try done; auto.
Qed.

Lemma default_T_run s :
  ∃ r s', default_T s = Some (r, s') ∧ quiet s s' ∧ (r = Ok (Some 42) ∨ r = Throw bad_alloc).
Proof.
  unfold default_T. destruct (allocate_run s) as (r & s' & Hrun & Hq & [->| ->]); cstep_by Hrun.
  - eexists _, _. split; [done|]. auto.
  - eexists _, _. split; [done|]. auto.
Qed.

Lemma copy_T_run s v :
  ∃ r s', copy_T (Some v) s = Some (r, s') ∧ quiet s s' ∧ (r = Ok (Some v) ∨ r = Throw bad_alloc).
Proof.
  unfold copy_T. cstep.
  destruct (allocate_run s) as (r & s1 & Hrun & Hq & [->| ->]); cstep_by Hrun.
  2: { eexists _, _. split; [done|]. auto. }
  cstep. destruct (control s1 =? 0).
  - cstep. eexists _, _. split; [done|]. split; [|by right].
    eapply becomes_trans; [exact Hq|]. destruct Hq. by split.
  - cstep. eexists _, _. split; [done|]. split; [|by left].
    eapply becomes_trans; [exact Hq|]. destruct Hq. by split.
Qed.

(** ** Cells *)
Lemma block_run s p cs : blocks s !! p = Some cs → block p s = Some (cs, s).
Proof. intros Hp. unfold block. cunfold. by rewrite Hp. Qed.

Lemma read_cell_run s p cs i c :
  blocks s !! p = Some cs → cs !! i = Some c → read_cell p (Z.of_nat i) s = Some (c, s).
Proof.
  intros Hp Hi. unfold read_cell. cstep_by (block_run s p cs Hp).
  rewrite (proj2 (Z.leb_le _ _)) by lia. rewrite Nat2Z.id. cunfold. by rewrite Hi.
Qed.

Lemma object_run s p cs i r :
  blocks s !! p = Some cs → cs !! i = Some (Obj r) → object p (Z.of_nat i) s = Some (r, s).
Proof.
  intros Hp Hi. unfold object. by cstep_by (read_cell_run s p cs i _ Hp Hi).
Qed.

Lemma object_none s p cs i :
  blocks s !! p = Some cs → (length cs ≤ i)%nat → object p (Z.of_nat i) s = None.
Proof.
  intros Hp Hi. unfold object, read_cell. apply C_bind_None.
  cstep_by (block_run s p cs Hp). rewrite (proj2 (Z.leb_le _ _)) by lia. rewrite Nat2Z.id.
  unfold of_option. by rewrite lookup_ge_None_2.
Qed.

Lemma write_cell_run s p cs i c :
  blocks s !! p = Some cs → (i < length cs)%nat →
  ∃ s', write_cell p (Z.of_nat i) c s = Some ((), s') ∧
    rewrites s s' (<[p := <[i := c]> cs]> (blocks s)).
Proof.
  intros Hp Hi. unfold write_cell. cstep_by (block_run s p cs Hp).
  rewrite (proj2 (Z.leb_le _ _)), (proj2 (Z.ltb_lt _ _)) by lia. cbn [andb].
  rewrite Nat2Z.id. eexists. split; [done|]. by split.
Qed.

Lemma place_run s p cs i r :
  blocks s !! p = Some cs → cs !! i = Some Raw →
  ∃ s', place p (Z.of_nat i) r s = Some ((), s') ∧
    rewrites s s' (<[p := <[i := Obj r]> cs]> (blocks s)).
Proof.
  intros Hp Hi. unfold place. cstep_by (read_cell_run s p cs i _ Hp Hi).
  apply write_cell_run; [done|]. by eapply lookup_lt_Some.
Qed.

Lemma destroy_cell_run s p cs i r :
  blocks s !! p = Some cs → cs !! i = Some (Obj r) →
  ∃ s', destroy p (Z.of_nat i) s = Some ((), s') ∧
    rewrites s s' (<[p := <[i := Raw]> cs]> (blocks s)).
Proof.
  intros Hp Hi. unfold destroy. cstep_by (object_run s p cs i r Hp Hi).
  apply write_cell_run; [done|]. by eapply lookup_lt_Some.
Qed.

Lemma destroy_range_run s p pre ds post :
  blocks s !! p = Some (pre ++ (Obj <$> ds) ++ post) →
  ∃ s', destroy_range (length ds) p (Z.of_nat (length pre)) s = Some ((), s') ∧
    rewrites s s' (<[p := pre ++ replicate (length ds) Raw ++ post]> (blocks s)).
Proof.
  revert pre s. induction ds as [|r ds IH]; intros pre s Hp.
  { exists s. split; [done|]. split; [|done..]. symmetry. by apply insert_id. }
  cbn [destroy_range length]. cbn in Hp.
  destruct (destroy_cell_run s p _ (length pre) r Hp) as (s1 & Hrun & Hq).
  { by apply list_lookup_middle. }
  cstep_by Hrun. rewrite insert_app_r_alt, Nat.sub_diag in Hq by lia. cbn in Hq.
  destruct (IH (pre ++ [Raw]) s1) as (s2 & Hrun2 & Hq2).
  { rewrite (bec_blocks _ _ _ _ Hq), lookup_insert_eq. by rewrite <- app_assoc. }
  exists s2. rewrite length_app in Hrun2. cbn in Hrun2.
  replace (Z.of_nat (length pre) + 1) with (Z.of_nat (length pre + 1)) by lia.
  split; [done|]. destruct Hq as [Hb Ho Hk], Hq2 as [Hb2 Ho2 Hk2].
  split; [|congruence|lia]. rewrite Hb2, Hb, insert_insert_eq. f_equal. cbn.
  by rewrite <- app_assoc.
Qed.

(** ** Blocks *)
Lemma operator_new_run s n :
  vwf s → ∃ r s', operator_new n s = Some (r, s') ∧
    (r = Throw bad_alloc ∧ quiet s s' ∨
     r = Ok (brk s) ∧ rewrites s s' (<[brk s := replicate (Z.to_nat n) Raw]> (blocks s)) ∧
     (brk s < brk s')%nat).
Proof.
  intros Hwf. unfold operator_new.
  assert (Hb : ∀ s', allocate s = Some (Ok (), s') → brk s' = brk s ∧ quiet s s').
  { unfold allocate. intros s'. destruct (plan s) as [|[] pl]; naive_solver (by split). }
  destruct (allocate_run s) as (r & s1 & Hrun & Hq & [->| ->]).
  - destruct (Hb s1 Hrun) as [Hbrk _]. cstep_by Hrun. eexists _, _. split; [done|]. right.
    destruct Hq as [H1 H2 H3]. rewrite Hbrk. split; [done|]. split; [split; cbn|cbn; lia].
    + by rewrite H1.
    + done.
    + lia.
  - cstep_by Hrun. eexists _, _. split; [done|]. by left.
Qed.

Lemma operator_delete_run s p cs :
  blocks s !! p = Some cs → p ≠ 0%nat → Forall (λ c, c = Raw) cs →
  ∃ s', operator_delete p s = Some ((), s') ∧ rewrites s s' (delete p (blocks s)).
Proof.
  intros Hp H0 Hr. unfold operator_delete. rewrite decide_False by done.
  cstep_by (block_run s p cs Hp). rewrite decide_True by done.
  eexists. split; [done|]. by split.
Qed.

Lemma raw_all n : Forall (λ c, c = Raw) (replicate n Raw).
Proof. by apply Forall_replicate. Qed.

(** ** [new T[n]] and [delete[]] *)
Lemma default_range_run s p n k :
  blocks s !! p = Some ((Obj <$> replicate k (Some 42)) ++ replicate n Raw) →
  ∃ r s', default_range n p (Z.of_nat k) s = Some (r, s') ∧
    (r = Ok () ∧ rewrites s s' (<[p := Obj <$> replicate (k + n) (Some 42)]> (blocks s)) ∨
     r = Throw bad_alloc ∧ rewrites s s' (<[p := replicate (k + n) Raw]> (blocks s))).
Proof.
  revert k s. induction n as [|n IH]; intros k s Hp.
  { eexists _, s. split; [done|]. left. split; [done|]. split; [|done..]. symmetry.
    rewrite app_nil_r in Hp. rewrite Nat.add_0_r. by apply insert_id. }
  cbn [default_range].
  destruct (default_T_run s) as (r & s1 & Hrun & Hq & [->| ->]).
  - unfold on_throw at 1. erewrite X_bind_Ok by (by rewrite Hrun).
    destruct Hq as [Hb Ho Hk]. cbn in Hp.
    destruct (place_run s1 p ((Obj <$> replicate k (Some 42)) ++ Raw :: replicate n Raw) k (Some 42))
      as (s2 & Hrun2 & Hq2).
    { by rewrite Hb. }
    { rewrite list_lookup_middle; [done|]. by rewrite length_fmap, length_replicate. }
    erewrite X_bind_Ok by (unfold call; by rewrite Hrun2).
    replace (Z.of_nat k + 1) with (Z.of_nat (S k)) by lia.
    destruct Hq2 as [Hb2 Ho2 Hk2].
    destruct (IH (S k) s2) as (r & s3 & Hrun3 & Hcases).
    { rewrite Hb2, lookup_insert_eq. f_equal.
      rewrite insert_app_r_alt by (by rewrite length_fmap, length_replicate).
      rewrite length_fmap, length_replicate, Nat.sub_diag. cbn.
      rewrite cons_middle, app_assoc. f_equal.
      change ([Obj (Some 42)]) with (Obj <$> replicate 1 (Some 42)).
      rewrite <- fmap_app, <- replicate_add. by rewrite Nat.add_comm. }
    exists r, s3. split; [done|]. replace (k + S n)%nat with (S k + n)%nat by lia.
    destruct Hcases as [[-> [Hb3 Ho3 Hk3]]|[-> [Hb3 Ho3 Hk3]]]; [left|right]; (split; [done|]);
      (split; [|congruence|lia]); by rewrite Hb3, Hb2, Hb, insert_insert_eq.
  - destruct Hq as [Hb Ho Hk].
    destruct (destroy_range_run s1 p [] (replicate k (Some 42)) (replicate (S n) Raw))
      as (s2 & Hrun2 & [Hb2 Ho2 Hk2]); [by rewrite Hb|].
    erewrite X_bind_Throw; [|unfold on_throw; rewrite Hrun, Nat2Z.id;
      rewrite length_replicate in Hrun2; change (Z.of_nat (length [])) with 0 in Hrun2;
      by rewrite Hrun2].
    eexists _, _. split; [done|]. right. split; [done|]. split; [|congruence|lia].
    rewrite Hb2, Hb. f_equal. cbn [app]. rewrite length_replicate. by rewrite <- replicate_add.
Qed.

Lemma new_array_run s n :
  vwf s → 0 <= n → ∃ r s', new_array n s = Some (r, s') ∧
    (r = Throw bad_alloc ∧ quiet s s' ∨
     r = Ok (brk s) ∧ (brk s < brk s')%nat ∧
     rewrites s s' (<[brk s := Obj <$> replicate (Z.to_nat n) (Some 42)]> (blocks s))).
Proof.
  intros Hwf Hn. unfold new_array.
  destruct (operator_new_run s n Hwf) as (r & s1 & Hrun & [[-> Hq]|(-> & [Hb Ho Hk] & Hlt)]).
  { cstep_by Hrun. eexists _, _. split; [done|]. by left. }
  cstep_by Hrun. set (p := brk s) in *.
  destruct (default_range_run s1 p (Z.to_nat n) 0) as (r & s2 & Hrun2 & Hcases).
  { rewrite Hb, lookup_insert_eq. done. }
  change (Z.of_nat 0) with 0 in Hrun2. destruct Hcases as [[-> [Hb2 Ho2 Hk2]]|[-> [Hb2 Ho2 Hk2]]].
  - erewrite X_bind_Ok by (unfold on_throw; by rewrite Hrun2).
    eexists _, _. split; [done|]. right. split; [done|]. split; [lia|].
    split; [|congruence|lia]. by rewrite Hb2, Hb, insert_insert_eq.
  - destruct (operator_delete_run s2 p (replicate (0 + Z.to_nat n) Raw))
      as (s3 & Hrun3 & [Hb3 Ho3 Hk3]).
    { by rewrite Hb2, lookup_insert_eq. }
    { pose proof (vwf_brk s Hwf). unfold p. lia. }
    { apply raw_all. }
    erewrite X_bind_Throw by (unfold on_throw; by rewrite Hrun2, Hrun3).
    eexists _, _. split; [done|]. left. split; [done|]. split; [|congruence|lia].
    rewrite Hb3, Hb2, Hb, insert_insert_eq. apply delete_insert_id.
    by destruct (vwf_fresh s Hwf).
Qed.

Lemma delete_array_run s p ds :
  blocks s !! p = Some (Obj <$> ds) → p ≠ 0%nat →
  ∃ s', delete_array p s = Some ((), s') ∧ rewrites s s' (delete p (blocks s)).
Proof.
  intros Hp H0. unfold delete_array. rewrite decide_False by done.
  cstep_by (block_run s p _ Hp).
  destruct (destroy_range_run s p [] ds []) as (s1 & Hrun & [Hb Ho Hk]).
  { by rewrite app_nil_r. }
  change (Z.of_nat (length [])) with 0 in Hrun. rewrite length_fmap. cstep_by Hrun.
  destruct (operator_delete_run s1 p (replicate (length ds) Raw)) as (s2 & Hrun2 & [Hb2 Ho2 Hk2]).
  { rewrite Hb, lookup_insert_eq. by rewrite app_nil_r. }
  { done. }
  { apply raw_all. }
  exists s2. split; [done|]. split; [|congruence|lia]. by rewrite Hb2, Hb, delete_insert_eq.
Qed.
End facts.
