(* ===== verification/MyVec.v ===== *)
(** * [MyVector] over arrays of objects: [myvec-1.cc] and [myvec-2.cc]

    The first version loses memory and leaves dangling pointers when a copy throws;
    the second copies into a new array first. *)

From S2P Require Import Prelude VecStore VecFacts.

(** ** [src/08-exceptions/myvec-demo/myvec-1.cc] *)
Module Vec1.

Definition ctor (sz : Z) : X vstore ptr :=
  arr ← new_array sz; call (declare (Vec arr sz 0)).

Definition dtor (this : ptr) : C vstore () := v ← load this; delete_array (arr_ v).

(** [for (idx = 0; idx != n; ++idx) dest[idx] = src[idx];] *)
Fixpoint copy_elements (n : nat) (dest src : ptr) (idx : Z) : X vstore () :=
  match n with
  | O => mret ()
  | S n =>
    r ← call (object src idx);
    assign_T dest idx r;;
    copy_elements n dest src (idx + 1)
  end.

Definition copy_ctor (rhs : ptr) : X vstore ptr :=
  r ← call (load rhs);
  arr ← new_array (size_ r);
  copy_elements (Z.to_nat (size_ r)) arr (arr_ r) 0;;
  call (declare (Vec arr (size_ r) (used_ r))).

Definition move_ctor (rhs : ptr) : C vstore ptr :=
  r ← load rhs;
  store rhs (Vec 0 0 0);;
  declare r.

(** The function ends without the [return] its type asks for. *)
Definition move_assign (this rhs : ptr) : C vstore () := swap_vec this rhs;; undefined.

Definition copy_assign (this rhs : ptr) : X vstore () :=
  if decide (this = rhs) then mret ()
  else
    r ← call (load rhs);
    v ← call (load this);
    call (store this (Vec (arr_ v) (size_ r) (used_ r)));;
    call (delete_array (arr_ v));;
    arr ← new_array (size_ r);
    call (store this (Vec arr (size_ r) (used_ r)));;
    copy_elements (Z.to_nat (size_ r)) arr (arr_ r) 0.

(** The element returned is a copy. *)
Definition pop (this : ptr) : X vstore T :=
  v ← call (load this);
  if used_ v <? 1 then throw (runtime_error "Vector is empty")
  else
    let used := used_ v - 1 in
    call (store this (Vec (arr_ v) (size_ v) used));;
    r ← call (object (arr_ v) used);
    copy_T r.

Definition push (this : ptr) (t : T) : X vstore () :=
  v ← call (load this);
  check_that (used_ v <=? size_ v);;
  (if used_ v =? size_ v then
    let newsz := u64 (size_ v * 2 + 1) in
    newarr ← new_array newsz;
    copy_elements (Z.to_nat (size_ v)) newarr (arr_ v) 0;;
    call (delete_array (arr_ v));;
    call (store this (Vec newarr newsz (used_ v)));;
    check_that (used_ v <? newsz)
  else mret ());;
  v ← call (load this);
  assign_T (arr_ v) (used_ v) t;;
  call (store this (Vec (arr_ v) (size_ v) (used_ v + 1))).

Definition size (this : ptr) : C vstore Z := v ← load this; mret (used_ v).
Definition capacity (this : ptr) : C vstore Z := v ← load this; mret (size_ v).
End Vec1.

(** ** [src/08-exceptions/myvec-demo/myvec-2.cc]

    The copy assignment calls an unqualified [swap] that lookup does not find for
    these types, so that it cannot be instantiated; it has no definition here. *)
Module Vec2.

Definition safe_copy (src : ptr) (srcsize dstsize : Z) : X vstore ptr :=
  check_that (srcsize <=? dstsize);;
  dest ← new_array dstsize;
  on_throw (Vec1.copy_elements (Z.to_nat srcsize) dest src 0) (delete_array dest);;
  mret dest.

Definition ctor (sz : Z) : X vstore ptr :=
  arr ← new_array sz; call (declare (Vec arr sz 0)).

Definition dtor (this : ptr) : C vstore () := v ← load this; delete_array (arr_ v).

(** As many elements are copied, and allocated, as are used; the size is that of [rhs]. *)
Definition copy_ctor (rhs : ptr) : X vstore ptr :=
  r ← call (load rhs);
  arr ← safe_copy (arr_ r) (used_ r) (used_ r);
  call (declare (Vec arr (size_ r) (used_ r))).

Definition move_ctor (rhs : ptr) : C vstore ptr :=
  r ← load rhs;
  store rhs (Vec 0 0 0);;
  declare r.

Definition move_assign (this rhs : ptr) : C vstore () := swap_vec this rhs;; undefined.

Definition top (this : ptr) : X vstore T :=
  v ← call (load this);
  if used_ v <? 1 then throw (out_of_range "top on empty vector")
  else (r ← call (object (arr_ v) (used_ v - 1)); copy_T r).

Definition pop (this : ptr) : X vstore () :=
  v ← call (load this);
  if used_ v <? 1 then throw (underflow_error "pop on empty vector")
  else call (store this (Vec (arr_ v) (size_ v) (used_ v - 1))).

Definition push (this : ptr) (t : T) : X vstore () :=
  v ← call (load this);
  check_that (used_ v <=? size_ v);;
  (if used_ v =? size_ v then
    let newsz := u64 (size_ v * 2 + 1) in
    newarr ← safe_copy (arr_ v) (size_ v) newsz;
    call (delete_array (arr_ v));;
    call (store this (Vec newarr newsz (used_ v)));;
    check_that (used_ v <? newsz)
  else mret ());;
  v ← call (load this);
  assign_T (arr_ v) (used_ v) t;;
  call (store this (Vec (arr_ v) (size_ v) (used_ v + 1))).

Definition size (this : ptr) : C vstore Z := v ← load this; mret (used_ v).
Definition capacity (this : ptr) : C vstore Z := v ← load this; mret (size_ v).
End Vec2.

(** ** The demonstration: [test1] and the handler of [main]

    Three pushes of fresh objects and a copy, with [control] at 5; the objects
    [c1], [c2] and [c3] are outside the vectors. The result is the size printed,
    or that [bad_alloc] was caught. *)
Section test1.
Variable ctor : Z → X vstore ptr.
Variable dtor : ptr → C vstore ().
Variable copy_ctor : ptr → X vstore ptr.
Variable push : ptr → T → X vstore ().
Variable size : ptr → C vstore Z.

Definition test1 : X vstore Z :=
  c1 ← default_T; c2 ← default_T; c3 ← default_T;
  vv1 ← ctor 1;
  scoped vv1 dtor (
    push vv1 c1;; push vv1 c2;; push vv1 c3;;
    vv2 ← copy_ctor vv1;
    scoped vv2 dtor (call (size vv2))).

(** What is printed by [main], and the storage that is never released. *)
Definition demo : option (option Z * list (ptr * list cell)) :=
  match test1 (start_store [] 5) with
  | Some (Ok n, s) => Some (Some n, map_to_list (blocks s))
  | Some (Throw bad_alloc, s) => Some (None, map_to_list (blocks s))
  | _ => None
  end.
End test1.


(** The programs of [myvec-1.cc] and [myvec-2.cc]: the first never releases the array
    of the copy that is interrupted. *)
Definition demo1 := demo Vec1.ctor Vec1.dtor Vec1.copy_ctor Vec1.push Vec1.size.
Definition demo2 := demo Vec2.ctor Vec2.dtor Vec2.copy_ctor Vec2.push Vec2.size.

Example demo1_leaks :
  demo1 = Some (None, [(4%nat, [Obj (Some 42); Obj (Some 42); Obj (Some 42)])]).
Proof. vm_compute. reflexivity. Qed.

Example demo2_releases : demo2 = Some (None, []).
Proof. vm_compute. reflexivity. Qed.

(** ** Copies of arrays *)
Section facts.
Implicit Types (s : vstore) (p o src dest : ptr) (xs ys : list Z).

Lemma assign_T_run s p ds i v :
  blocks s !! p = Some (Obj <$> ds) → (i < length ds)%nat →
  ∃ r s', assign_T p (Z.of_nat i) (Some v) s = Some (r, s') ∧
    (r = Ok () ∧ rewrites s s' (<[p := Obj <$> <[i := Some v]> ds]> (blocks s)) ∨
     r = Throw bad_alloc ∧ quiet s s').
Proof.
  intros Hp Hi. destruct (lookup_lt_is_Some_2 ds i Hi) as [d Hd]. unfold assign_T.
  erewrite X_bind_Ok.
  2: { unfold call. rewrite (object_run s p _ i d Hp); [done|]. by rewrite list_lookup_fmap, Hd. }
  destruct (copy_T_run s v) as (r & s1 & Hrun & Hq & [->| ->]); cstep_by Hrun.
  2: { eexists _, _. split; [done|]. by right. }
  destruct Hq as [Hb Ho Hk].
  destruct (write_cell_run s1 p (Obj <$> ds) i (Obj (Some v))) as (s2 & Hrun2 & [Hb2 Ho2 Hk2]).
  { by rewrite Hb. }
  { by rewrite length_fmap. }
  unfold call. rewrite Hrun2. eexists _, _. split; [done|]. left. split; [done|].
  split; [|congruence|lia]. by rewrite Hb2, Hb, list_fmap_insert.
Qed.

Lemma copy_elements_run s dest src pre ds spre vs spost :
  blocks s !! src = Some (spre ++ (Obj ∘ Some <$> vs) ++ spost) →
  blocks s !! dest = Some (Obj <$> pre ++ ds) → dest ≠ src →
  length spre = length pre → (length vs ≤ length ds)%nat →
  ∃ r s', Vec1.copy_elements (length vs) dest src (Z.of_nat (length pre)) s = Some (r, s') ∧
    (r = Ok () ∧
       rewrites s s' (<[dest := Obj <$> pre ++ (Some <$> vs) ++ drop (length vs) ds]> (blocks s)) ∨
     r = Throw bad_alloc ∧ ∃ ds', rewrites s s' (<[dest := Obj <$> ds']> (blocks s))).
Proof.
  revert pre ds spre s. induction vs as [|v vs IH]; intros pre ds spre s Hsrc Hdst Hne Hlen Hle.
  { eexists _, s. split; [done|]. left. split; [done|]. split; [|done..]. symmetry.
    by apply insert_id. }
  destruct ds as [|d ds]; [cbn in Hle; lia|]. cbn [Vec1.copy_elements length].
  erewrite X_bind_Ok.
  2: { unfold call. rewrite <- Hlen. erewrite (object_run s src); [done|exact Hsrc|].
       by apply list_lookup_middle. }
  destruct (assign_T_run s dest (pre ++ d :: ds) (length pre) v Hdst) as (r & s1 & Hrun & Hcases).
  { rewrite length_app. cbn. lia. }
  destruct Hcases as [[-> [Hb Ho Hk]]|[-> [Hb Ho Hk]]]; cstep_by Hrun.
  - rewrite insert_app_r_alt, Nat.sub_diag in Hb by lia. cbn in Hb.
    destruct (IH (pre ++ [Some v]) ds (spre ++ [Obj (Some v)]) s1) as (r & s2 & Hrun2 & Hcases).
    { rewrite Hb, lookup_insert_ne by done. rewrite Hsrc. by rewrite <- app_assoc. }
    { rewrite Hb, lookup_insert_eq. by rewrite <- app_assoc. }
    { done. }
    { rewrite !length_app. cbn. lia. }
    { cbn in Hle. lia. }
    rewrite length_app in Hrun2. cbn in Hrun2.
    replace (Z.of_nat (length pre) + 1) with (Z.of_nat (length pre + 1)) by lia.
    exists r, s2. split; [done|].
    destruct Hcases as [[-> [Hb2 Ho2 Hk2]]|[-> (ds' & [Hb2 Ho2 Hk2])]]; [left|right];
      (split; [done|]).
    + split; [|congruence|lia]. rewrite Hb2, Hb, insert_insert_eq. by rewrite <- app_assoc.
    + exists ds'. split; [|congruence|lia]. by rewrite Hb2, Hb, insert_insert_eq.
  - eexists _, _. split; [done|]. right. split; [done|]. exists (pre ++ d :: ds).
    split; [|done..]. rewrite Hb. symmetry. by apply insert_id.
Qed.

Lemma safe_copy_run s src vs spost (srcsize dstsize : Z) :
  vwf s → srcsize = Z.of_nat (length vs) → srcsize <= dstsize →
  (vs ≠ [] → blocks s !! src = Some ((Obj ∘ Some <$> vs) ++ spost)) →
  ∃ r s', Vec2.safe_copy src srcsize dstsize s = Some (r, s') ∧
    (r = Throw bad_alloc ∧ quiet s s' ∨
     r = Ok (brk s) ∧ (brk s < brk s')%nat ∧ rewrites s s' (<[brk s := Obj <$>
       (Some <$> vs) ++ replicate (Z.to_nat (dstsize - srcsize)) (Some 42)]> (blocks s))).
Proof.
  intros Hwf -> Hle Hsrc. unfold Vec2.safe_copy.
  rewrite (proj2 (Z.leb_le _ _)) by done. cstep.
  destruct (new_array_run s dstsize Hwf ltac:(lia)) as (r & s1 & Hrun & [[-> Hq]|(-> & Hlt & [Hb Ho Hk])]).
  { cstep_by Hrun. eexists _, _. split; [done|]. by left. }
  cstep_by Hrun. rewrite Nat2Z.id. destruct (vwf_fresh s Hwf) as [Hfresh _].
  assert (Hcopy : ∃ r s2, Vec1.copy_elements (length vs) (brk s) src 0 s1 = Some (r, s2) ∧
    (r = Ok () ∧ rewrites s1 s2 (<[brk s := Obj <$> (Some <$> vs) ++
        drop (length vs) (replicate (Z.to_nat dstsize) (Some 42))]> (blocks s1)) ∨
     r = Throw bad_alloc ∧ ∃ ds', rewrites s1 s2 (<[brk s := Obj <$> ds']> (blocks s1)))).
  { destruct vs as [|v vs'].
    { eexists _, s1. split; [done|]. left. split; [done|]. split; [|done..].
      symmetry. apply insert_id. rewrite Hb, lookup_insert_eq. done. }
    specialize (Hsrc ltac:(done)). assert (Hne : brk s ≠ src) by congruence.
    apply (copy_elements_run s1 (brk s) src [] (replicate (Z.to_nat dstsize) (Some 42)) [] (v :: vs') spost).
    - by rewrite Hb, lookup_insert_ne.
    - by rewrite Hb, lookup_insert_eq.
    - done.
    - done.
    - rewrite length_replicate. lia. }
  destruct Hcopy as (r & s2 & Hrun2 & [[-> [Hb2 Ho2 Hk2]]|[-> (ds' & [Hb2 Ho2 Hk2])]]).
  - erewrite X_bind_Ok by (unfold on_throw; by rewrite Hrun2).
    eexists _, _. split; [done|]. right. split; [done|]. split; [lia|].
    split; [|congruence|lia]. rewrite Hb2, Hb, insert_insert_eq. do 4 f_equal.
    rewrite drop_replicate. f_equal. lia.
  - destruct (delete_array_run s2 (brk s) ds') as (s3 & Hrun3 & [Hb3 Ho3 Hk3]).
    { by rewrite Hb2, lookup_insert_eq. }
    { pose proof (vwf_brk s Hwf). lia. }
    erewrite X_bind_Throw by (unfold on_throw; by rewrite Hrun2, Hrun3).
    eexists _, _. split; [done|]. left. split; [done|]. split; [|congruence|lia].
    rewrite Hb3, Hb2, Hb, insert_insert_eq. by apply delete_insert_id.
Qed.

(** ** The second version *)

(** The vector at [o] has the members [v] and the elements [xs]: a prefix of the
    objects [ys] of its array. *)
Record holds2 s o (v : vec) xs ys : Prop := {
  h2_obj : objs s !! o = Some v;
  h2_used : used_ v = Z.of_nat (length xs);
  h2_size : size_ v = Z.of_nat (length ys);
  h2_prefix : xs `prefix_of` ys;
  h2_array : arr_ v = 0%nat ∧ ys = [] ∨
    arr_ v ≠ 0%nat ∧ blocks s !! arr_ v = Some (Obj <$> (Some <$> ys)) }.

Definition has_vector s o xs : Prop := ∃ v ys, holds2 s o v xs ys.

(** The blocks that are not the array of [o]. *)
Definition other_blocks s o : gmap ptr (list cell) :=
  match objs s !! o with Some v => delete (arr_ v) (blocks s) | None => blocks s end.

Lemma vwf_null s : vwf s → blocks s !! 0%nat = None.
Proof. intros Hwf. apply eq_None_not_Some. intros Hs%(vwf_blocks s Hwf). lia. Qed.

Lemma put_element s o v xs ys t :
  vwf s → holds2 s o v xs ys → (length xs < length ys)%nat →
  ∃ r s', (assign_T (arr_ v) (used_ v) (Some t);;
           call (store o (Vec (arr_ v) (size_ v) (used_ v + 1)))) s = Some (r, s') ∧
    other_blocks s' o = other_blocks s o ∧ (∀ q, q ≠ o → objs s' !! q = objs s !! q) ∧
    (r = Ok () ∧ has_vector s' o (xs ++ [t]) ∨ r = Throw bad_alloc ∧ has_vector s' o xs).
Proof.
  intros Hwf [Hobj Hused Hsize [zs ->] Harr] Hlt. rewrite length_app in Hlt.
  destruct zs as [|z zs]; [cbn in Hlt; lia|].
  destruct Harr as [[_ Hnil]|[H0 Harr]]; [by destruct xs|].
  destruct (assign_T_run s (arr_ v) (Some <$> xs ++ z :: zs) (length xs) t Harr)
    as (r & s1 & Hrun & [[-> [Hb Ho Hk]]|[-> [Hb Ho Hk]]]).
  { rewrite length_fmap, length_app. cbn. lia. }
  - rewrite Hused. cstep_by Hrun. eexists _, _. split; [done|].
    rewrite fmap_app in Hb. cbn in Hb.
    rewrite insert_app_r_alt in Hb by (by rewrite length_fmap).
    rewrite length_fmap, Nat.sub_diag in Hb. cbn in Hb. unfold other_blocks. cbn.
    rewrite Hobj, Hb, Ho, lookup_insert_eq. cbn.
    split; [by rewrite delete_insert_eq|]. split; [intros q Hq; by rewrite lookup_insert_ne|].
    left. split; [done|]. eexists _, (xs ++ t :: zs). split; cbn.
    + by rewrite lookup_insert_eq.
    + cbn. rewrite length_app. cbn. lia.
    + cbn. rewrite Hsize, !length_app. done.
    + exists zs. by rewrite <- app_assoc.
    + right. split; [done|]. cbn. by rewrite Hb, lookup_insert_eq, !fmap_app.
  - rewrite Hused. cstep_by Hrun. eexists _, _. split; [done|].
    unfold other_blocks. rewrite Hb, Ho. split; [done|]. split; [done|]. right.
    split; [done|]. exists v, (xs ++ z :: zs). split; try done; [by rewrite Ho|by eexists|].
    right. by rewrite Hb.
Qed.

(** Growing the array keeps the elements, or leaves everything as it was. *)
(** [delete[] arr_] after a new block [p] has been filled. *)
Lemma delete_old_run s s1 (v : vec) xs p cs :
  vwf s → arr_ v = 0%nat ∧ xs = [] ∨ arr_ v ≠ 0%nat ∧ blocks s !! arr_ v = Some (Obj <$> (Some <$> xs)) →
  becomes s s1 (<[p := cs]> (blocks s)) (objs s) → blocks s !! p = None →
  ∃ s2, delete_array (arr_ v) s1 = Some ((), s2) ∧ (brk s1 ≤ brk s2)%nat ∧
    becomes s s2 (<[p := cs]> (delete (arr_ v) (blocks s))) (objs s).
Proof.
  intros Hwf Harr [Hb Ho Hk] Hp. destruct Harr as [[H0 ->]|[H0 Harr]].
  - exists s1. unfold delete_array. rewrite decide_True by done. split; [done|]. split; [done|]. split; [|done|done].
    rewrite Hb, H0, delete_id; [done|by apply vwf_null].
  - assert (Hne : arr_ v ≠ p) by congruence.
    destruct (delete_array_run s1 (arr_ v) (Some <$> xs)) as (s2 & Hrun2 & [Hb2 Ho2 Hk2]);
      [by rewrite Hb, lookup_insert_ne|done|].
    exists s2. split; [done|]. split; [lia|].
    split; [by rewrite Hb2, Hb, delete_insert_ne|congruence|lia].
Qed.

(** A store with one block replaced by a new one and one object changed. *)
Lemma vwf_replaced s s' p q cs o v :
  vwf s → becomes s s' (<[p := cs]> (delete q (blocks s))) (<[o := v]> (objs s)) →
  (0 < p < brk s')%nat → is_Some (objs s !! o) → vwf s'.
Proof.
  intros [W1 W2 W3] [Hb Ho Hk] Hp Hs. split; [lia|rewrite Hb|rewrite Ho]; intros r Hr.
  - destruct (decide (r = p)) as [->|Hne]; [done|]. rewrite lookup_insert_ne in Hr by done.
    assert (Hr' : is_Some (blocks s !! r)) by (destruct Hr as [c [_ Hc]%lookup_delete_Some]; by exists c).
    apply W2 in Hr'. lia.
  - assert (Hr' : is_Some (objs s !! r)).
    { destruct (decide (r = o)) as [->|Hne]; [done|]. by rewrite lookup_insert_ne in Hr. }
    apply W3 in Hr'. lia.
Qed.

Lemma grow_run s o v xs :
  vwf s → holds2 s o v xs xs → u64 (size_ v * 2 + 1) = size_ v * 2 + 1 →
  ∃ r s', (newarr ← Vec2.safe_copy (arr_ v) (size_ v) (u64 (size_ v * 2 + 1));
           call (delete_array (arr_ v));;
           call (store o (Vec newarr (u64 (size_ v * 2 + 1)) (used_ v)));;
           check_that (used_ v <? u64 (size_ v * 2 + 1))) s = Some (r, s') ∧
    other_blocks s' o = other_blocks s o ∧ (∀ q, q ≠ o → objs s' !! q = objs s !! q) ∧
    (r = Ok () ∧ vwf s' ∧ (∃ v' ys, holds2 s' o v' xs ys ∧ (length xs < length ys)%nat) ∨
     r = Throw bad_alloc ∧ holds2 s' o v xs xs).
Proof.
  intros Hwf [Hobj Hused Hsize _ Harr] Hu. rewrite Hu.
  destruct (safe_copy_run s (arr_ v) xs [] (size_ v) (size_ v * 2 + 1) Hwf Hsize)
    as (r & s1 & Hrun & [[-> [Hb Ho Hk]]|(-> & Hlt & [Hb Ho Hk])]); [lia|..].
  { intros Hne. destruct Harr as [[_ ->]|[_ Harr]]; [done|].
    by rewrite Harr, app_nil_r, <- list_fmap_compose. }
  - cstep_by Hrun. eexists _, _. split; [done|]. unfold other_blocks. rewrite Hb, Ho.
    split; [done|]. split; [done|]. right. split; [done|].
    split; try done; [by rewrite Ho|]. by rewrite Hb.
  - cstep_by Hrun. set (p := brk s) in *. destruct (vwf_fresh s Hwf) as [Hfp Hfo].
    set (zs := replicate (Z.to_nat (size_ v * 2 + 1 - size_ v)) 42).
    assert (Hzs : (Some <$> xs) ++ replicate (Z.to_nat (size_ v * 2 + 1 - size_ v)) (Some 42)
      = Some <$> xs ++ zs) by (unfold zs; by rewrite fmap_app, fmap_replicate).
    rewrite Hzs in Hb.
    destruct (delete_old_run s s1 v xs p _ Hwf Harr ltac:(by split) Hfp) as (s2 & Hrun2 & Hk1 & [Hb2 Ho2 Hk2]).
    erewrite X_bind_Ok by (unfold call; by rewrite Hrun2). cstep.
    rewrite (proj2 (Z.ltb_lt _ _)) by lia. eexists _, _. split; [done|].
    assert (Hpv : p ≠ 0%nat) by (pose proof (vwf_brk s Hwf); unfold p; lia).
    unfold other_blocks. cbn. rewrite Hobj, Ho2, lookup_insert_eq, Hb2. cbn.
    split; [rewrite delete_insert_id; [done|]|].
    { rewrite lookup_delete_None. by right. }
    split; [intros q Hq; by rewrite lookup_insert_ne|]. left. split; [done|]. split.
    + eapply (vwf_replaced s _ p (arr_ v)); [done|split; cbn; [by rewrite Hb2|by rewrite ?Ho2|lia]| |by eexists].
      cbn. unfold p in *. lia.
    + eexists (Vec p (size_ v * 2 + 1) (used_ v)), (xs ++ zs). split; [split; cbn|].
      * by rewrite lookup_insert_eq.
      * done.
      * rewrite length_app. unfold zs. rewrite length_replicate. lia.
      * by eexists.
      * right. split; [done|]. by rewrite Hb2, lookup_insert_eq.
      * rewrite length_app. unfold zs. rewrite length_replicate. lia.
Qed.

Lemma push2_run s o xs t :
  vwf s → has_vector s o xs → (∀ v, objs s !! o = Some v → size_ v < 2 ^ 63 - 1) →
  ∃ r s', Vec2.push o (Some t) s = Some (r, s') ∧
    other_blocks s' o = other_blocks s o ∧ (∀ q, q ≠ o → objs s' !! q = objs s !! q) ∧
    (r = Ok () ∧ has_vector s' o (xs ++ [t]) ∨ r = Throw bad_alloc ∧ has_vector s' o xs).
Proof.
  intros Hwf (v & ys & Hv) Hsz. pose proof Hv as [Hobj Hused Hsize Hpre _].
  specialize (Hsz v Hobj). pose proof (prefix_length _ _ Hpre) as Hle.
  assert (Hu : u64 (size_ v * 2 + 1) = size_ v * 2 + 1) by (apply u64_small; unfold is_u64; lia).
  unfold Vec2.push.
  assert (Hload : ∀ s v, objs s !! o = Some v → load o s = Some (v, s)).
  { intros s' v' Hv'. unfold load. cunfold. by rewrite Hv'. }
  erewrite X_bind_Ok by (unfold call; by rewrite (Hload s v Hobj)).
  rewrite (proj2 (Z.leb_le _ _)) by lia. cstep.
  destruct (Z.eqb_spec (used_ v) (size_ v)) as [Heq|Hne].
  - assert (xs = ys) as <- by (apply prefix_length_eq; [done|lia]).
    destruct (grow_run s o v xs Hwf Hv Hu)
      as (r & s1 & Hrun & Hob & Hoo & [(-> & Hwf1 & v1 & ys1 & Hv1 & Hlt)|[-> Hv1]]);
      cstep_by Hrun.
    2: { eexists _, _. split; [done|]. split; [done|]. split; [done|]. right.
         split; [done|]. by eexists _, _. }
    erewrite X_bind_Ok by (unfold call; by rewrite (Hload s1 v1 (h2_obj _ _ _ _ _ Hv1))).
    destruct (put_element s1 o v1 xs ys1 t Hwf1 Hv1 Hlt) as (r & s2 & Hrun2 & Hob2 & Hoo2 & Hcases).
    exists r, s2. split; [done|]. split; [congruence|]. split; [|done].
    intros q Hq. by rewrite Hoo2, Hoo.
  - cstep. erewrite X_bind_Ok by (unfold call; by rewrite (Hload s v Hobj)).
    apply (put_element s o v xs ys); [done|done|lia].
Qed.

(** The copy has room for the used elements only, but the size of the original. *)
Lemma copy2_run s o v xs ys :
  vwf s → holds2 s o v xs ys →
  ∃ r s', Vec2.copy_ctor o s = Some (r, s') ∧
    (r = Throw bad_alloc ∧ quiet s s' ∨
     ∃ o' p, r = Ok o' ∧ objs s' !! o' = Some (Vec p (size_ v) (used_ v)) ∧
       blocks s' !! p = Some (Obj <$> (Some <$> xs))).
Proof.
  intros Hwf [Hobj Hused Hsize [zs ->] Harr]. unfold Vec2.copy_ctor.
  assert (Hload : load o s = Some (v, s)) by (unfold load; cunfold; by rewrite Hobj).
  erewrite X_bind_Ok by (unfold call; by rewrite Hload).
  destruct (safe_copy_run s (arr_ v) xs (Obj <$> (Some <$> zs)) (used_ v) (used_ v) Hwf Hused)
    as (r & s1 & Hrun & [[-> Hq]|(-> & Hlt & [Hb Ho Hk])]); [lia|..].
  { intros Hne. destruct Harr as [[_ Hnil]|[_ ->]]; [by destruct xs|].
    f_equal. by rewrite !fmap_app, <- list_fmap_compose. }
  - cstep_by Hrun. eexists _, _. split; [done|]. by left.
  - cstep_by Hrun. eexists _, _. split; [done|]. right. eexists _, _. split; [done|]. cbn.
    split; [by rewrite lookup_insert_eq|]. rewrite Hb, lookup_insert_eq, Z.sub_diag.
    by rewrite app_nil_r.
Qed.

Lemma push_past_end s o p n xs t :
  objs s !! o = Some (Vec p n (Z.of_nat (length xs))) → Z.of_nat (length xs) < n →
  blocks s !! p = Some (Obj <$> (Some <$> xs)) → Vec2.push o (Some t) s = None.
Proof.
  intros Hobj Hlt Hb. unfold Vec2.push.
  assert (Hload : load o s = Some (Vec p n (Z.of_nat (length xs)), s))
    by (unfold load; cunfold; by rewrite Hobj).
  erewrite X_bind_Ok by (unfold call; by rewrite Hload). cbn [size_ used_ arr_].
  rewrite (proj2 (Z.leb_le _ _)) by lia. cstep. rewrite (proj2 (Z.eqb_neq _ _)) by lia. cstep.
  erewrite X_bind_Ok by (unfold call; by rewrite Hload). cbn [size_ used_ arr_].
  apply X_bind_None. unfold assign_T. apply X_bind_None. unfold call.
  rewrite (object_none s p _ (length xs) Hb); [done|]. by rewrite !length_fmap.
Qed.

Lemma vwf_start pl c : vwf (start_store pl c).
Proof. split; cbn; [lia|intros p [? Hp]; by rewrite lookup_empty in Hp..]. Qed.
End facts.

(** ** Properties of the second version *)

(** [push] gives the strong guarantee on the elements, whichever allocation or
    copy fails: it appends the element, or throws [bad_alloc] and the vector still
    has its elements; the storage of everything else is what it was, so that nothing
    is lost and nothing is freed twice. *)
Theorem push_strong_guarantee s o xs t :
  vwf s → has_vector s o xs → (∀ v, objs s !! o = Some v → size_ v < 2 ^ 63 - 1) →
  ∃ r s', Vec2.push o (Some t) s = Some (r, s') ∧
    other_blocks s' o = other_blocks s o ∧ (∀ q, q ≠ o → objs s' !! q = objs s !! q) ∧
    (r = Ok () ∧ has_vector s' o (xs ++ [t]) ∨ r = Throw bad_alloc ∧ has_vector s' o xs).
Proof. apply push2_run. Qed.

(** A vector that [myvec-2.cc] has built: one element of three. *)
Definition sample2 : vstore :=
  VStore {[1%nat := [Obj (Some 7); Obj (Some 42); Obj (Some 42)]]} {[2%nat := Vec 1 3 1]} 3
    [false] 5.

Lemma sample2_wf : vwf sample2.
Proof.
  split; cbn; [lia|..]; intros p [x Hp]; apply lookup_singleton_Some in Hp as [<- _]; lia.
Qed.

Lemma sample2_holds : holds2 sample2 2 (Vec 1 3 1) [7] [7; 42; 42].
Proof. split; cbn; [done..| |by right]. by exists [42; 42]. Qed.

Lemma push_strong_guarantee_witness :
  has_vector sample2 2 [7] ∧
  ∃ r s', Vec2.push 2 (Some 8) sample2 = Some (r, s') ∧
    other_blocks s' 2 = other_blocks sample2 2 ∧
    (∀ q, q ≠ 2%nat → objs s' !! q = objs sample2 !! q) ∧
    (r = Ok () ∧ has_vector s' 2 [7; 8] ∨ r = Throw bad_alloc ∧ has_vector s' 2 [7]).
Proof.
  assert (Hv : has_vector sample2 2 [7]) by (eexists _, _; exact sample2_holds).
  split; [exact Hv|].
  refine (push_strong_guarantee sample2 2 [7] 8 sample2_wf Hv _).
  intros v Hobj. assert (v = Vec 1 3 1) as -> by (vm_compute in Hobj; congruence). cbn. lia.
Defined.

(** The copy constructor of [myvec-2.cc] allocates the used elements but keeps
    the size: after a copy of a vector with spare capacity, the next [push] on the
    copy writes past the end of its array. *)
Theorem copy_then_push_overflows s o v xs ys o' s' t :
  vwf s → holds2 s o v xs ys → used_ v < size_ v →
  Vec2.copy_ctor o s = Some (Ok o', s') → Vec2.push o' (Some t) s' = None.
Proof.
  intros Hwf Hv Hlt Hcopy. destruct (copy2_run s o v xs ys Hwf Hv) as (r & s1 & Hrun & Hcases).
  rewrite Hrun in Hcopy. injection Hcopy as -> ->.
  destruct Hcases as [[? _]|(o1 & p & [= <-] & Hobj & Hb)]; [done|].
  pose proof (h2_used _ _ _ _ _ Hv) as Hused. rewrite Hused in Hobj, Hlt.
  by apply (push_past_end s' o' p (size_ v) xs).
Qed.

(** The copy of the sample, with all allocations succeeding. *)
Definition sample2_ok : vstore := VStore (blocks sample2) (objs sample2) 3 [] 5.
Definition sample2_copy : vstore :=
  match Vec2.copy_ctor 2 sample2_ok with Some (_, s) => s | None => sample2 end.

Lemma copy_then_push_overflows_witness :
  Vec2.copy_ctor 2 sample2_ok = Some (Ok 4%nat, sample2_copy) ∧
  Vec2.push 4 (Some 8) sample2_copy = None.
Proof.
  assert (Hc : Vec2.copy_ctor 2 sample2_ok = Some (Ok 4%nat, sample2_copy)) by (vm_compute; reflexivity).
  split; [exact Hc|].
  assert (Hwf : vwf sample2_ok) by (destruct sample2_wf as [H1 H2 H3]; by split).
  assert (Hv : holds2 sample2_ok 2 (Vec 1 3 1) [7] [7; 42; 42])
    by (destruct sample2_holds as [H1 H2 H3 H4 H5]; by split).
  exact (copy_then_push_overflows sample2_ok 2 _ [7] _ 4 sample2_copy 8 Hwf Hv ltac:(cbn; lia) Hc).
Defined.
