(* ===== verification/MyVecBuf.v ===== *)
(** * [MyVector] over a raw buffer: [myvec-3.cc] and [myvec-4.cc]

    The base class [MyVectorBuf] owns the storage and destroys the first [used_]
    elements of it; the derived class constructs elements in place, by copies in the
    third version and by moves in the fourth. *)

From S2P Require Import Prelude VecStore VecFacts MyVec.

(** ** [MyVectorBuf], the same in both files *)
Module Buf.

Definition ctor (sz : Z) : X vstore vec :=
  arr ← (if sz =? 0 then mret 0%nat else operator_new sz);
  mret (Vec arr sz 0).

Definition dtor (this : ptr) : C vstore () :=
  v ← load this;
  destroy_range (Z.to_nat (used_ v)) (arr_ v) 0;;
  operator_delete (arr_ v).

Definition move_ctor (rhs : ptr) : C vstore ptr :=
  r ← load rhs;
  store rhs (Vec 0 0 0);;
  declare r.

Definition move_assign (this rhs : ptr) : C vstore () := swap_vec this rhs.

(** [std::swap]: a move construction and two move assignments. *)
Definition swap (a b : ptr) : C vstore () :=
  tmp ← move_ctor a;
  move_assign a b;;
  move_assign b tmp;;
  dtor tmp;;
  leave_scope tmp.

(** [while (this->used_ < rhs.used_) add(rhs.arr_, this->used_);] *)
Fixpoint fill (fuel : nat) (this rhs : ptr) (add : ptr → Z → X vstore ()) : X vstore () :=
  match fuel with
  | O => call undefined
  | S fuel =>
    v ← call (load this);
    r ← call (load rhs);
    if used_ v <? used_ r
    then (add (arr_ r) (used_ v);; fill fuel this rhs add)
    else mret ()
  end.

(** [construct(arr_ + used_, r); used_ += 1;] *)
Definition append (this : ptr) (r : T) : X vstore () :=
  v ← call (load this);
  construct (arr_ v) (used_ v) r;;
  call (store this (Vec (arr_ v) (size_ v) (used_ v + 1))).
Definition append_move (this : ptr) (r : T) : C vstore () :=
  v ← load this;
  construct_move (arr_ v) (used_ v) r;;
  store this (Vec (arr_ v) (size_ v) (used_ v + 1)).

Definition copy_ctor (rhs : ptr) : X vstore ptr :=
  r ← call (load rhs);
  v ← ctor (used_ r);
  this ← call (declare v);
  on_throw (fill (S (Z.to_nat (used_ r))) this rhs (λ p i, x ← call (object p i); append this x))
    (dtor this;; leave_scope this);;
  mret this.

Definition copy_assign (this rhs : ptr) : X vstore () :=
  tmp ← copy_ctor rhs;
  scoped tmp dtor (call (swap this tmp)).

Definition top (this : ptr) : X vstore T :=
  v ← call (load this);
  if used_ v <? 1 then throw (runtime_error "Vector is empty")
  else (r ← call (object (arr_ v) (used_ v - 1)); copy_T r).

Definition pop (this : ptr) : X vstore () :=
  v ← call (load this);
  if used_ v <? 1 then throw (runtime_error "Vector is empty")
  else
    call (store this (Vec (arr_ v) (size_ v) (used_ v - 1)));;
    call (destroy (arr_ v) (used_ v - 1)).

Definition make (sz : Z) : X vstore ptr := v ← ctor sz; call (declare v).
Definition size (this : ptr) : C vstore Z := v ← load this; mret (used_ v).
Definition capacity (this : ptr) : C vstore Z := v ← load this; mret (size_ v).
End Buf.

(** ** [push] of [myvec-3.cc]; [depth] bounds its recursion *)
Fixpoint push3 (depth : nat) (this : ptr) (t : T) : X vstore () :=
  match depth with
  | O => call undefined
  | S depth =>
    v ← call (load this);
    check_that (used_ v <=? size_ v);;
    if used_ v =? size_ v then
      tmp ← Buf.make (u64 (size_ v * 2 + 1));
      scoped tmp Buf.dtor (
        Buf.fill (S (Z.to_nat (used_ v))) tmp this
          (λ p i, x ← call (object p i); push3 depth tmp x);;
        push3 depth tmp t;;
        call (Buf.swap this tmp))
    else Buf.append this t
  end.

(** ** [push] of [myvec-4.cc] *)
Fixpoint push4_move (depth : nat) (this : ptr) (t : T) : X vstore () :=
  match depth with
  | O => call undefined
  | S depth =>
    v ← call (load this);
    check_that (used_ v <=? size_ v);;
    if used_ v =? size_ v then
      tmp ← Buf.make (u64 (size_ v * 2 + 1));
      scoped tmp Buf.dtor (
        Buf.fill (S (Z.to_nat (used_ v))) tmp this
          (λ p i, x ← call (move_from p i); push4_move depth tmp x);;
        push4_move depth tmp t;;
        call (Buf.swap this tmp))
    else call (Buf.append_move this t)
  end.

Definition push4 (depth : nat) (this : ptr) (t : T) : X vstore () :=
  t2 ← copy_T t; push4_move depth this t2.

(** The storage class and the copies of [myvec-4.cc] are those of [myvec-3.cc]. *)
Module Vec4.
Definition ctor := Buf.ctor.
Definition dtor := Buf.dtor.
Definition move_ctor := Buf.move_ctor.
Definition move_assign := Buf.move_assign.
Definition copy_ctor := Buf.copy_ctor.
Definition copy_assign := Buf.copy_assign.
Definition top := Buf.top.
Definition pop := Buf.pop.
End Vec4.

(** The programs; neither keeps any storage when the copy throws. *)
Definition demo3 := demo Buf.make Buf.dtor Buf.copy_ctor (push3 2) Buf.size.
Definition demo4 := demo Buf.make Vec4.dtor Vec4.copy_ctor (push4 2) Buf.size.

Example demo3_releases : demo3 = Some (None, []).
Proof. vm_compute. reflexivity. Qed.

Example demo4_releases : demo4 = Some (None, []).
Proof. vm_compute. reflexivity. Qed.

(** ** Ownership

    The vector at [o] has the members [v] and the elements [rs]; the rest of the
    storage is [B], the other objects are [O]. *)
Section facts.
Implicit Types (s : vstore) (p o : ptr) (rs : list T) (B : gmap ptr (list cell)) (O : gmap ptr vec).

Definition cells rs (v : vec) : list cell :=
  (Obj <$> rs) ++ replicate (Z.to_nat (size_ v - used_ v)) Raw.

Definition put_block (p : ptr) (cs : list cell) B : gmap ptr (list cell) :=
  if decide (p = 0%nat) then B else <[p := cs]> B.

Record own s o (v : vec) rs B O : Prop := {
  own_objs : objs s = <[o := v]> O;
  own_other : O !! o = None;
  own_blocks : blocks s = put_block (arr_ v) (cells rs v) B;
  own_fresh : arr_ v ≠ 0%nat → B !! arr_ v = None;
  own_null : arr_ v = 0%nat → size_ v = 0;
  own_used : used_ v = Z.of_nat (length rs);
  own_cap : used_ v <= size_ v }.

Lemma own_load s o v rs B O : own s o v rs B O → load o s = Some (v, s).
Proof. intros [Ho _ _ _ _ _ _]. unfold load. cunfold. by rewrite Ho, lookup_insert_eq. Qed.

Lemma own_quiet s s' o v rs B O : own s o v rs B O → quiet s s' → own s' o v rs B O.
Proof. intros [H1 H2 H3 H4 H5 H6 H7] [Hb Ho _]. split; rewrite ?Ho, ?Hb; done. Qed.

Lemma vwf_becomes s s' B O :
  vwf s → becomes s s' B O →
  (∀ p, is_Some (B !! p) → is_Some (blocks s !! p)) →
  (∀ p, is_Some (O !! p) → is_Some (objs s !! p)) → vwf s'.
Proof.
  intros [W1 W2 W3] [Hb Ho Hk] Hb' Ho'. split; [lia|..]; intros p Hp.
  - rewrite Hb in Hp. apply Hb', W2 in Hp. lia.
  - rewrite Ho in Hp. apply Ho', W3 in Hp. lia.
Qed.

Lemma vwf_quiet s s' : vwf s → quiet s s' → vwf s'.
Proof. intros Hwf Hq. by eapply vwf_becomes. Qed.

Lemma lookup_insert_old {A} (m : gmap ptr A) p x q :
  is_Some (m !! p) → is_Some (<[p := x]> m !! q) → is_Some (m !! q).
Proof.
  intros Hp. destruct (decide (q = p)) as [->|Hne]; [done|]. by rewrite lookup_insert_ne.
Qed.

Lemma own_array s o v rs B O :
  own s o v rs B O → used_ v < size_ v →
  arr_ v ≠ 0%nat ∧ blocks s !! arr_ v = Some (cells rs v).
Proof.
  intros [_ _ Hb _ Hnull Hused _] Hlt.
  assert (H0 : arr_ v ≠ 0%nat) by (intros H0%Hnull; lia).
  split; [done|]. rewrite Hb. unfold put_block. rewrite decide_False by done.
  by rewrite lookup_insert_eq.
Qed.

(** *** Constructing one more element in place *)
Definition grown (v : vec) : vec := Vec (arr_ v) (size_ v) (used_ v + 1).

Lemma place_back s o v rs B O r :
  vwf s → own s o v rs B O → used_ v < size_ v →
  ∃ s', place (arr_ v) (used_ v) r s = Some ((), s') ∧ vwf s' ∧
    ∃ s'', store o (grown v) s' = Some ((), s'') ∧ vwf s'' ∧ own s'' o (grown v) (rs ++ [r]) B O.
Proof.
  intros Hwf Hown Hlt. pose proof Hown as [Ho Hoo Hb Hf Hnull Hused Hcap].
  destruct (own_array s o v rs B O Hown Hlt) as [H0 Harr].
  assert (Hcell : cells rs v !! length rs = Some Raw).
  { unfold cells. rewrite lookup_app_r by (by rewrite length_fmap).
    rewrite length_fmap, Nat.sub_diag. apply lookup_replicate_2. lia. }
  destruct (place_run s (arr_ v) (cells rs v) (length rs) r Harr Hcell)
    as (s1 & Hrun & Hq). pose proof Hq as [Hb1 Ho1 Hk1].
  assert (Hwf1 : vwf s1).
  { eapply vwf_becomes; [exact Hwf|exact Hq| |done].
    intros q. apply lookup_insert_old. by rewrite Harr. }
  exists s1. rewrite Hused. split; [done|]. split; [done|]. eexists. split; [done|].
  split.
  - apply (vwf_becomes s1 _ (blocks s1) (<[o := grown v]> (objs s1))); [done|by split|done|].
    intros q. apply lookup_insert_old. by rewrite Ho1, Ho, lookup_insert_eq.
  - split; cbn; try done.
    + by rewrite Ho1, Ho, insert_insert_eq.
    + rewrite Hb1, Hb. unfold put_block. rewrite !decide_False by done.
      rewrite insert_insert_eq. f_equal. unfold cells. cbn.
      rewrite insert_app_r_alt by (by rewrite length_fmap).
      rewrite length_fmap, Nat.sub_diag, fmap_app, <- app_assoc. f_equal.
      replace (Z.to_nat (size_ v - used_ v)) with (S (Z.to_nat (size_ v - (used_ v + 1)))) by lia.
      done.
    + rewrite length_app. cbn. lia.
    + lia.
Qed.

Lemma append_run s o v rs B O x :
  vwf s → own s o v rs B O → used_ v < size_ v →
  ∃ r s', Buf.append o (Some x) s = Some (r, s') ∧ vwf s' ∧
    (r = Ok () ∧ own s' o (grown v) (rs ++ [Some x]) B O ∨
     r = Throw bad_alloc ∧ own s' o v rs B O).
Proof.
  intros Hwf Hown Hlt. unfold Buf.append.
  erewrite X_bind_Ok by (unfold call; by rewrite (own_load _ _ _ _ _ _ Hown)).
  unfold construct. rewrite X_bind_assoc.
  destruct (copy_T_run s x) as (r & s1 & Hrun & Hq & [->| ->]); cstep_by Hrun.
  2: { eexists _, _. split; [done|]. split; [by eapply vwf_quiet|]. right.
       split; [done|]. by eapply own_quiet. }
  destruct (place_back s1 o v rs B O (Some x)) as (s2 & Hrun2 & Hwf2 & s3 & Hrun3 & Hwf3 & Hown3);
    [by eapply vwf_quiet|by eapply own_quiet|done|].
  erewrite X_bind_Ok by (unfold call; by rewrite Hrun2).
  unfold call. unfold grown in Hrun3. rewrite Hrun3. eexists _, _. split; [done|].
  split; [done|]. by left.
Qed.

Lemma append_move_run s o v rs B O r :
  vwf s → own s o v rs B O → used_ v < size_ v →
  ∃ s', Buf.append_move o r s = Some ((), s') ∧ vwf s' ∧ own s' o (grown v) (rs ++ [r]) B O.
Proof.
  intros Hwf Hown Hlt. unfold Buf.append_move, construct_move.
  cstep_by (own_load _ _ _ _ _ _ Hown).
  destruct (place_back s o v rs B O r Hwf Hown Hlt) as (s1 & Hrun & Hwf1 & s2 & Hrun2 & Hwf2 & Hown2).
  cstep_by Hrun. unfold grown in Hrun2. rewrite Hrun2. by exists s2.
Qed.

(** *** A new vector *)
Lemma new_storage_run s n :
  vwf s → 0 <= n →
  ∃ r s', (p ← operator_new n; v ← mret (Vec p n 0); call (declare v)) s = Some (r, s') ∧
    (r = Throw bad_alloc ∧ quiet s s' ∨
     ∃ o v, r = Ok o ∧ vwf s' ∧ size_ v = n ∧ used_ v = 0 ∧ objs s !! o = None ∧
       own s' o v [] (blocks s) (objs s)).
Proof.
  intros Hwf Hn. destruct (vwf_fresh s Hwf) as [Hfb Hfo]. pose proof (vwf_brk s Hwf) as Hbrk.
  destruct (operator_new_run s n Hwf) as (r & s1 & Hrun & [[-> Hq]|(-> & [Hb Ho Hk] & Hlt)]); cstep_by Hrun.
  { eexists _, _. split; [done|]. by left. }
  cstep. eexists _, _. split; [done|]. right. eexists _, (Vec (brk s) n 0). split; [done|].
  assert (Hfo1 : objs s !! brk s1 = None).
  { apply eq_None_not_Some. intros Hs%(vwf_objs s Hwf). lia. }
  split; [|split; [done|split; [done|split; [done|]]]].
  - destruct Hwf as [W1 W2 W3]. split; cbn; [lia|..]; intros p Hp.
    + rewrite Hb in Hp. destruct (decide (p = brk s)) as [->|Hne']; [lia|].
      rewrite lookup_insert_ne in Hp by done. apply W2 in Hp. lia.
    + rewrite Ho in Hp. destruct (decide (p = brk s1)) as [->|Hne']; [lia|].
      rewrite lookup_insert_ne in Hp by done. apply W3 in Hp. lia.
  - split; cbn; try done; [by rewrite Ho| |lia..].
    rewrite Hb. unfold put_block, cells. cbn. rewrite decide_False by lia. by rewrite Z.sub_0_r.
Qed.

Lemma make_run s n :
  vwf s → 0 <= n →
  ∃ r s', Buf.make n s = Some (r, s') ∧
    (r = Throw bad_alloc ∧ quiet s s' ∨
     ∃ o v, r = Ok o ∧ vwf s' ∧ size_ v = n ∧ used_ v = 0 ∧ objs s !! o = None ∧
       own s' o v [] (blocks s) (objs s)).
Proof.
  intros Hwf Hn. unfold Buf.make, Buf.ctor. rewrite X_bind_assoc.
  destruct (Z.eqb_spec n 0) as [->|Hne]; [|by apply new_storage_run].
  destruct (vwf_fresh s Hwf) as [Hfb Hfo]. pose proof (vwf_brk s Hwf) as Hbrk.
  cstep. eexists _, _. split; [done|]. right. eexists _, (Vec 0 0 0). split; [done|].
  split; [|split; [done|split; [done|split; [done|split; done]]]].
  destruct Hwf as [W1 W2 W3]. split; cbn; [lia|..]; intros p Hp.
  - apply W2 in Hp. lia.
  - destruct (decide (p = brk s)) as [->|Hne]; [lia|]. rewrite lookup_insert_ne in Hp by done.
    apply W3 in Hp. lia.
Qed.

(** *** The destructor *)
Lemma dtor_run s o v rs B O :
  vwf s → own s o v rs B O →
  ∃ s', (Buf.dtor o;; leave_scope o) s = Some ((), s') ∧ vwf s' ∧ becomes s s' B O.
Proof.
  intros Hwf Hown. pose proof Hown as [Ho Hoo Hb Hf Hnull Hused Hcap]. unfold Buf.dtor.
  rewrite C_bind_assoc. cstep_by (own_load _ _ _ _ _ _ Hown).
  assert (Hend : ∀ s1, blocks s1 = B → objs s1 = objs s → (brk s ≤ brk s1)%nat →
    ∃ s', leave_scope o s1 = Some ((), s') ∧ vwf s' ∧ becomes s s' B O).
  { intros s1 Hb1 Ho1 Hk1. unfold leave_scope.
    assert (Hl : load o s1 = Some (v, s1)) by (unfold load; cunfold; by rewrite Ho1, Ho, lookup_insert_eq).
    cstep_by Hl. eexists. split; [done|].
    assert (Hbec : becomes s (set_objs (delete o (objs s1)) s1) B O).
    { split; cbn; [done| |done]. by rewrite Ho1, Ho, delete_insert_id. }
    split; [|done]. eapply vwf_becomes; [exact Hwf|exact Hbec|..]; intros q Hq.
    - rewrite Hb. unfold put_block. case_decide; [done|].
      destruct (decide (q = arr_ v)) as [->|Hne]; [by rewrite lookup_insert_eq|].
      by rewrite lookup_insert_ne.
    - rewrite Ho. destruct (decide (q = o)) as [->|Hne]; [by rewrite lookup_insert_eq|].
      by rewrite lookup_insert_ne. }
  destruct (decide (arr_ v = 0%nat)) as [H0|H0].
  - assert (rs = []) as ->. { specialize (Hnull H0). destruct rs; [done|]. cbn in *. lia. }
    rewrite Hused. cbn. rewrite H0. cstep. apply Hend; [|done|done].
    rewrite Hb. unfold put_block. by rewrite decide_True.
  - assert (Harr : blocks s !! arr_ v = Some ([] ++ (Obj <$> rs) ++ replicate (Z.to_nat (size_ v - used_ v)) Raw)).
    { rewrite Hb. unfold put_block. rewrite decide_False by done. by rewrite lookup_insert_eq. }
    destruct (destroy_range_run s (arr_ v) [] rs _ Harr) as (s1 & Hrun & [Hb1 Ho1 Hk1]).
    rewrite Hused, Nat2Z.id. change (Z.of_nat (length [])) with 0 in Hrun.
    rewrite C_bind_assoc. cstep_by Hrun.
    destruct (operator_delete_run s1 (arr_ v) (replicate (length rs) Raw ++
      replicate (Z.to_nat (size_ v - used_ v)) Raw)) as (s2 & Hrun2 & [Hb2 Ho2 Hk2]).
    { by rewrite Hb1, lookup_insert_eq. }
    { done. }
    { apply Forall_app. split; apply raw_all. }
    cstep_by Hrun2. apply Hend; [|congruence|lia].
    rewrite Hb2, Hb1, delete_insert_eq, Hb. unfold put_block. rewrite decide_False by done.
    apply delete_insert_id. auto.
Qed.

(** *** [std::swap] *)
Lemma swap_run s a b va vb :
  vwf s → objs s !! a = Some va → objs s !! b = Some vb → a ≠ b →
  ∃ s', Buf.swap a b s = Some ((), s') ∧ vwf s' ∧
    becomes s s' (blocks s) (<[a := vb]> (<[b := va]> (objs s))).
Proof.
  intros Hwf Ha Hb Hab. destruct (vwf_fresh s Hwf) as [_ Hf].
  assert (Hka : brk s ≠ a) by (intros <-; congruence).
  assert (Hkb : brk s ≠ b) by (intros <-; congruence).
  set (s' := VStore (blocks s) (<[a := vb]> (<[b := va]> (objs s))) (S (brk s)) (plan s) (control s)).
  assert (Hbec : becomes s s' (blocks s) (<[a := vb]> (<[b := va]> (objs s)))).
  { split; [done|done|unfold s'; cbn; lia]. }
  exists s'. split; [|split; [|done]].
  - unfold Buf.swap, Buf.move_ctor, Buf.move_assign, swap_vec, Buf.dtor, leave_scope, load, store, declare.
    unfold C_bind, mbind, modify, get, put, of_option. cbn. rewrite Ha. cbn.
    repeat (simplify_map_eq; cbn).
    unfold s', set_objs. cbn. do 2 f_equal. f_equal. apply map_eq. intros q.
    destruct (decide (q = brk s)) as [->|H1];
      [rewrite !lookup_insert_ne by done; by rewrite lookup_delete_eq, Hf|].
    rewrite lookup_delete_ne by done.
    destruct (decide (q = a)) as [->|H2]; [by simplify_map_eq|].
    destruct (decide (q = b)) as [->|H3]; [by simplify_map_eq|]. by simplify_map_eq.
  - eapply vwf_becomes; [done|done|done|]. intros q. rewrite !lookup_insert_is_Some.
    destruct (decide (q = a)) as [->|H2]; [done|]. destruct (decide (q = b)) as [->|H3]; [done|].
    naive_solver.
Qed.

(** *** The filling loop

    [B k] is the rest of the storage once [k] elements have been taken from [w];
    [thr] tells whether [add] may throw. *)
Lemma fill_run (thr : Prop) (add : ptr → Z → X vstore ()) o w v rs (Bk : nat → gmap ptr (list cell)) O n
    (Hadd : ∀ k x s u, rs !! k = Some x → vwf s → used_ u < size_ u →
      own s o u (take k rs) (Bk k) O →
      ∃ r s', add (arr_ v) (Z.of_nat k) s = Some (r, s') ∧ vwf s' ∧
        (r = Ok () ∧ own s' o (grown u) (take k rs ++ [x]) (Bk (S k)) O ∨
         thr ∧ r = Throw bad_alloc ∧ own s' o u (take k rs) (Bk k) O)) :
  O !! w = Some v → used_ v = Z.of_nat (length rs) → used_ v <= n →
  ∀ j k s u, (k + j = length rs)%nat → vwf s → size_ u = n → own s o u (take k rs) (Bk k) O →
  ∃ r s', Buf.fill (S j) o w add s = Some (r, s') ∧ vwf s' ∧
    (r = Ok () ∧ own s' o (Vec (arr_ u) n (used_ v)) rs (Bk (length rs)) O ∨
     thr ∧ r = Throw bad_alloc ∧ ∃ u' k', own s' o u' (take k' rs) (Bk k') O).
Proof.
  intros Hw Hv Hn. induction j as [|j IH]; intros k s u Hk Hwf Hsz Hown;
    pose proof Hown as [Ho Hoo _ _ _ Hused _];
    assert (Hlw : load w s = Some (v, s)) by
      (unfold load; cunfold; rewrite Ho, lookup_insert_ne by congruence; by rewrite Hw);
    cbn [Buf.fill];
    erewrite X_bind_Ok by (unfold call; by rewrite (own_load _ _ _ _ _ _ Hown));
    erewrite X_bind_Ok by (unfold call; by rewrite Hlw);
    rewrite length_take in Hused.
  - rewrite (proj2 (Z.ltb_ge _ _)) by lia. eexists _, _. split; [done|]. split; [done|]. left.
    split; [done|]. assert (k = length rs) as -> by lia. rewrite take_ge in Hown by done.
    replace (Vec (arr_ u) n (used_ v)) with u; [done|]. destruct u. cbn in *. f_equal; lia.
  - rewrite (proj2 (Z.ltb_lt _ _)) by lia.
    destruct (lookup_lt_is_Some_2 rs k) as [x Hx]; [lia|].
    replace (used_ u) with (Z.of_nat k) by lia.
    destruct (Hadd k x s u Hx Hwf) as (r & s1 & Hrun & Hwf1 & [[-> H1]|(Ht & -> & H1)]);
      [lia|done|..]; cstep_by Hrun.
    + rewrite <- take_S_r in H1 by done.
      destruct (IH (S k) s1 (grown u)) as (r & s2 & H2); [lia|done|done|done|].
      by exists r, s2.
    + eexists _, _. split; [done|]. split; [done|]. right. eauto.
Qed.

(** *** Replacing the vector by a temporary *)
Lemma put_block_fresh p cs B q :
  put_block p cs B !! q = None → B !! q = None ∧ (p ≠ 0%nat → q ≠ p).
Proof.
  unfold put_block. case_decide; [naive_solver|]. intros Hq.
  destruct (decide (q = p)) as [->|Hne]; [by rewrite lookup_insert_eq in Hq|].
  by rewrite lookup_insert_ne in Hq.
Qed.

Lemma put_block_ne p cs B q : q ≠ p → put_block p cs B !! q = B !! q.
Proof. intros Hne. unfold put_block. case_decide; [done|]. by rewrite lookup_insert_ne. Qed.

Lemma put_block_comm p q cs ds B :
  (p ≠ 0%nat → q ≠ 0%nat → p ≠ q) →
  put_block p cs (put_block q ds B) = put_block q ds (put_block p cs B).
Proof. intros Hne. unfold put_block. repeat case_decide; [done..|]. by apply insert_insert_ne, Hne. Qed.

(** After the swap the temporary destroys the old contents. *)
Lemma swapped_in_run s s0 s1 o tmp v vt rs0 rs B O :
  own s0 o v rs0 B O →
  own s tmp vt rs (put_block (arr_ v) (cells rs0 v) B) (<[o := v]> O) →
  vwf s1 → becomes s s1 (blocks s) (<[o := vt]> (<[tmp := v]> (objs s))) →
  ∃ s', (Buf.dtor tmp;; leave_scope tmp) s1 = Some ((), s') ∧ vwf s' ∧ own s' o vt rs B O.
Proof.
  intros [Ho Hoo Hb Hf Hnull Hused Hcap] [Ho1 Hoo1 Hb1 Hf1 Hnull1 Hused1 Hcap1] Hwf1 [Hb2 Ho2 Hk2].
  assert (Hne : o ≠ tmp) by (intros ->; by rewrite lookup_insert_eq in Hoo1).
  rewrite lookup_insert_ne in Hoo1 by done.
  assert (Harr : arr_ vt ≠ 0%nat → B !! arr_ vt = None ∧ (arr_ v ≠ 0%nat → arr_ vt ≠ arr_ v)).
  { intros H0. by apply put_block_fresh with (cs := cells rs0 v), Hf1. }
  destruct (dtor_run s1 tmp v rs0 (put_block (arr_ vt) (cells rs vt) B) (<[o := vt]> O) Hwf1)
    as (s' & Hrun' & Hwf' & [Hb3 Ho3 Hk3]).
  - split; try done.
    + rewrite Ho2, Ho1, insert_insert_eq.
      apply map_eq. intros q. destruct (decide (q = o)) as [->|?]; [by simplify_map_eq|].
      destruct (decide (q = tmp)) as [->|?]; by simplify_map_eq.
    + by rewrite lookup_insert_ne.
    + rewrite Hb2, Hb1. apply put_block_comm. naive_solver.
    + intros H0. destruct (decide (arr_ vt = 0%nat)) as [He|He].
      * unfold put_block. rewrite decide_True by done. auto.
      * rewrite put_block_ne; [auto|]. destruct (Harr He) as [_ Hd]. intros Hc. by apply (Hd H0).
  - exists s'. split; [done|]. split; [done|]. split; try done. naive_solver.
Qed.

(** The two objects are looked up where the temporary's owner sees both. *)
Lemma own_two s o tmp v vt rs B O :
  own s tmp vt rs B (<[o := v]> O) → o ≠ tmp ∧ objs s !! o = Some v ∧ objs s !! tmp = Some vt.
Proof.
  intros [Ho Hoo _ _ _ _ _].
  assert (Hne : o ≠ tmp) by (intros ->; by rewrite lookup_insert_eq in Hoo).
  rewrite Ho. split; [done|]. by rewrite lookup_insert_ne, !lookup_insert_eq.
Qed.

Lemma swap_in_run s s0 o tmp v vt rs0 rs B O :
  vwf s → own s0 o v rs0 B O →
  own s tmp vt rs (put_block (arr_ v) (cells rs0 v) B) (<[o := v]> O) →
  ∃ s1 s', Buf.swap o tmp s = Some ((), s1) ∧
    (Buf.dtor tmp;; leave_scope tmp) s1 = Some ((), s') ∧ vwf s' ∧ own s' o vt rs B O.
Proof.
  intros Hwf Hown0 Hown. destruct (own_two _ _ _ _ _ _ _ _ Hown) as (Hne & Hlo & Hlt).
  destruct (swap_run s o tmp v vt Hwf) as (s1 & Hrun & Hwf1 & Hbec); [done..|].
  destruct (swapped_in_run s s0 s1 o tmp v vt rs0 rs B O) as (s' & H'); [done..|].
  by exists s1, s'.
Qed.

(** The swap member by member. *)
Lemma swap_vec_run s a b va vb :
  vwf s → objs s !! a = Some va → objs s !! b = Some vb → a ≠ b →
  ∃ s', swap_vec a b s = Some ((), s') ∧ vwf s' ∧
    becomes s s' (blocks s) (<[a := vb]> (<[b := va]> (objs s))).
Proof.
  intros Hwf Ha Hb Hab. exists (set_objs (<[a := vb]> (<[b := va]> (objs s))) s).
  assert (Hbec : becomes s (set_objs (<[a := vb]> (<[b := va]> (objs s))) s) (blocks s)
    (<[a := vb]> (<[b := va]> (objs s)))) by done.
  split; [|split; [|done]].
  - unfold swap_vec, load, store. cunfold. rewrite Ha, Hb. unfold set_objs. cbn.
    by rewrite insert_insert_ne by done.
  - eapply vwf_becomes; [done|done|done|]. intros q. rewrite !lookup_insert_is_Some.
    destruct (decide (q = a)) as [->|H2]; [done|]. destruct (decide (q = b)) as [->|H3]; [done|].
    naive_solver.
Qed.

Lemma swap_vec_in_run s s0 o tmp v vt rs0 rs B O :
  vwf s → own s0 o v rs0 B O →
  own s tmp vt rs (put_block (arr_ v) (cells rs0 v) B) (<[o := v]> O) →
  ∃ s1 s', swap_vec o tmp s = Some ((), s1) ∧
    (Buf.dtor tmp;; leave_scope tmp) s1 = Some ((), s') ∧ vwf s' ∧ own s' o vt rs B O.
Proof.
  intros Hwf Hown0 Hown. destruct (own_two _ _ _ _ _ _ _ _ Hown) as (Hne & Hlo & Hlt).
  destruct (swap_vec_run s o tmp v vt Hwf) as (s1 & Hrun & Hwf1 & Hbec); [done..|].
  destruct (swapped_in_run s s0 s1 o tmp v vt rs0 rs B O) as (s' & H'); [done..|].
  by exists s1, s'.
Qed.

Lemma scoped_Ok {A} o dtor (body : X vstore A) a s s1 s' :
  body s = Some (Ok a, s1) → (dtor o;; leave_scope o) s1 = Some ((), s') →
  scoped o dtor body s = Some (Ok a, s').
Proof.
  intros H1 H2. unfold scoped. erewrite X_bind_Ok by (unfold on_throw; by rewrite H1).
  by erewrite X_bind_Ok by (unfold call; by rewrite H2).
Qed.

Lemma scoped_Throw {A} o dtor (body : X vstore A) e s s1 s' :
  body s = Some (Throw e, s1) → (dtor o;; leave_scope o) s1 = Some ((), s') →
  scoped o dtor body s = Some (Throw e, s').
Proof.
  intros H1 H2. unfold scoped. by erewrite X_bind_Throw by (unfold on_throw; by rewrite H1, H2).
Qed.

Lemma own_same s s' o v rs B O :
  own s o v rs B O → blocks s' = blocks s → objs s' = objs s → own s' o v rs B O.
Proof. intros [H1 H2 H3 H4 H5 H6 H7] Hb Ho. split; rewrite ?Ho, ?Hb; done. Qed.

(** *** [push] of the third version *)
Lemma push3_append_run d s o v rs B O x :
  vwf s → own s o v rs B O → used_ v < size_ v →
  ∃ r s', push3 (S d) o (Some x) s = Some (r, s') ∧ vwf s' ∧
    (r = Ok () ∧ own s' o (grown v) (rs ++ [Some x]) B O ∨
     r = Throw bad_alloc ∧ own s' o v rs B O).
Proof.
  intros Hwf Hown Hlt. cbn [push3].
  erewrite X_bind_Ok by (unfold call; by rewrite (own_load _ _ _ _ _ _ Hown)).
  rewrite (proj2 (Z.leb_le _ _)) by lia. cstep. rewrite (proj2 (Z.eqb_neq _ _)) by lia.
  by apply append_run.
Qed.

(** Reading an element of a vector among the other objects. *)
Lemma other_object_run s o u rs B O v (vs : list T) k x :
  vs !! k = Some x → B !! arr_ v = Some (cells vs v) →
  used_ u < size_ u → own s o u rs B O → object (arr_ v) (Z.of_nat k) s = Some (x, s).
Proof.
  intros Hk HB Hlt Hown. apply (object_run s _ (cells vs v)).
  - pose proof Hown as [_ _ Hb Hf _ _ _]. rewrite Hb. rewrite put_block_ne; [done|].
    intros He. destruct (decide (arr_ u = 0%nat)) as [H0|H0].
    + pose proof (own_null _ _ _ _ _ _ Hown H0). pose proof (own_used _ _ _ _ _ _ Hown). lia.
    + rewrite He in HB. by rewrite (Hf H0) in HB.
  - unfold cells. rewrite lookup_app_l by (rewrite length_fmap; by eapply lookup_lt_Some).
    by rewrite list_lookup_fmap, Hk.
Qed.

Lemma other_add_run (add : T → X vstore ()) s o u rs B O v (vs : list T) k x :
  Forall is_Some vs → vs !! k = Some x → B !! arr_ v = Some (cells vs v) →
  vwf s → used_ u < size_ u → own s o u rs B O →
  (∀ z, ∃ r s', add (Some z) s = Some (r, s') ∧ vwf s' ∧
    (r = Ok () ∧ own s' o (grown u) (rs ++ [Some z]) B O ∨
     r = Throw bad_alloc ∧ own s' o u rs B O)) →
  ∃ r s', (x ← call (object (arr_ v) (Z.of_nat k)); add x) s = Some (r, s') ∧ vwf s' ∧
    (r = Ok () ∧ own s' o (grown u) (rs ++ [x]) B O ∨
     True ∧ r = Throw bad_alloc ∧ own s' o u rs B O).
Proof.
  intros Hsome Hk HB Hwf Hlt Hown Hadd.
  destruct (Forall_lookup_1 _ _ _ _ Hsome Hk) as [z ->].
  erewrite X_bind_Ok by (unfold call; by rewrite (other_object_run s o u rs B O v vs k (Some z))).
  destruct (Hadd z) as (r & s' & Hrun & Hwf' & Hc).
  exists r, s'. split; [done|]. split; [done|]. naive_solver.
Qed.

(** What a [push] of [x] may do to the vector [v] with the elements [rs]. *)
Definition pushed (r : result ()) s' o v rs x B O : Prop :=
  r = Ok () ∧ (∃ v', own s' o v' (rs ++ [x]) B O) ∨
  r = Throw bad_alloc ∧ own s' o v rs B O.

Lemma push3_run s o v rs B O x :
  vwf s → own s o v rs B O → Forall is_Some rs → size_ v < 2 ^ 60 →
  ∃ r s', push3 2 o (Some x) s = Some (r, s') ∧ vwf s' ∧ pushed r s' o v rs (Some x) B O.
Proof.
  intros Hwf Hown Hsome Hsz. pose proof Hown as [Ho Hoo Hb Hf Hnull Hused Hcap].
  destruct (decide (used_ v = size_ v)) as [Hfull|Hfull].
  2: { destruct (push3_append_run 1 s o v rs B O x) as (r & s' & Hrun & Hwf' & Hc); [done..|lia|].
       exists r, s'. split; [done|]. split; [done|]. unfold pushed. naive_solver. }
  cbn [push3]. erewrite X_bind_Ok by (unfold call; by rewrite (own_load _ _ _ _ _ _ Hown)).
  rewrite (proj2 (Z.leb_le _ _)) by lia. cstep. rewrite (proj2 (Z.eqb_eq _ _)) by done.
  rewrite u64_small by (unfold is_u64; lia).
  destruct (make_run s (size_ v * 2 + 1)) as (r & s1 & Hrun & [[-> Hq]|(tmp & u & -> & Hwf1 & Hus & Huu & Hft & H1)]);
    [done|lia|..]; cstep_by Hrun.
  { eexists _, _. split; [done|]. split; [by eapply vwf_quiet|]. right. split; [done|].
    by eapply own_quiet. }
  assert (HB : Forall is_Some rs → ∀ k x, rs !! k = Some x → blocks s !! arr_ v = Some (cells rs v)).
  { intros _ k y Hk%lookup_lt_Some. rewrite Hb. unfold put_block.
    rewrite decide_False by (intros H0%Hnull; lia). by rewrite lookup_insert_eq. }
  assert (Hov : objs s !! o = Some v) by (by rewrite Ho, lookup_insert_eq).
  destruct (fill_run True (λ p i, x ← call (object p i); push3 1 tmp x) tmp o v rs (λ _, blocks s) (objs s)
    (size_ v * 2 + 1)) with (j := length rs) (k := 0%nat) (s := s1) (u := u)
    as (r & s2 & Hrun2 & Hwf2 & [[-> H2]|(_ & -> & u' & k' & H2)]);
    [|done|done|lia|lia|done|done|done|..].
  { intros k y s2 u2 Hk Hwf2 Hlt H2. cbn beta.
    eapply other_add_run; [done|exact Hk|by eapply HB|done..|].
    intros z. by apply push3_append_run. }
  all: rewrite Hused, Nat2Z.id.
  2: { destruct (dtor_run s2 tmp u' _ _ _ Hwf2 H2) as (s' & Hd & Hwf' & Hbec).
       erewrite scoped_Throw; [|by cstep_by Hrun2|exact Hd].
       eexists _, _. split; [done|]. split; [done|]. right. split; [done|].
       destruct Hbec; by eapply own_same. }
  destruct (push3_append_run 0 s2 tmp _ _ _ _ x Hwf2 H2) as (r & s3 & Hrun3 & Hwf3 & [[-> H3]|[-> H3]]);
    [cbn; lia|..].
  2: { destruct (dtor_run s3 tmp _ _ _ _ Hwf3 H3) as (s' & Hd & Hwf' & Hbec).
       erewrite scoped_Throw; [|cstep_by Hrun2; by cstep_by Hrun3|exact Hd].
       eexists _, _. split; [done|]. split; [done|]. right. split; [done|].
       destruct Hbec; by eapply own_same. }
  rewrite Hb, Ho in H3.
  destruct (swap_in_run s3 s o tmp v _ rs _ B O Hwf3 Hown H3) as (s4 & s' & Hsw & Hd & Hwf' & H4).
  erewrite scoped_Ok; [|cstep_by Hrun2; cstep_by Hrun3; unfold call; by rewrite Hsw|exact Hd].
  eexists _, _. split; [done|]. split; [done|]. left. split; [done|]. eauto.
Qed.

(** *** [push] of the fourth version *)
Lemma push4_move_append_run d s o v rs B O x :
  vwf s → own s o v rs B O → used_ v < size_ v →
  ∃ s', push4_move (S d) o x s = Some (Ok (), s') ∧ vwf s' ∧ own s' o (grown v) (rs ++ [x]) B O.
Proof.
  intros Hwf Hown Hlt. cbn [push4_move].
  erewrite X_bind_Ok by (unfold call; by rewrite (own_load _ _ _ _ _ _ Hown)).
  rewrite (proj2 (Z.leb_le _ _)) by lia. cstep. rewrite (proj2 (Z.eqb_neq _ _)) by lia.
  destruct (append_move_run s o v rs B O x) as (s' & Hrun & Hwf' & Ho'); [done..|].
  exists s'. unfold call. by rewrite Hrun.
Qed.

(** The elements of a vector whose first [k] have been moved away. *)
Definition moved (k : nat) rs : list T := replicate k None ++ drop k rs.

Lemma moved_lookup k rs x : rs !! k = Some x → moved k rs !! k = Some x.
Proof.
  intros Hk. unfold moved. rewrite lookup_app_r by (by rewrite length_replicate).
  by rewrite length_replicate, Nat.sub_diag, lookup_drop, Nat.add_0_r.
Qed.

Lemma moved_step k rs x : rs !! k = Some x → <[k := None]> (moved k rs) = moved (S k) rs.
Proof.
  intros Hk. unfold moved. rewrite insert_app_r_alt by (by rewrite length_replicate).
  rewrite length_replicate, Nat.sub_diag, (drop_S rs x k Hk). cbn.
  change (None :: replicate k None ++ drop (S k) rs)
    with ((None :: replicate k None) ++ drop (S k) rs).
  by rewrite cons_middle, app_assoc, replicate_cons_app.
Qed.

Lemma length_moved k rs : (k ≤ length rs)%nat → length (moved k rs) = length rs.
Proof. intros Hk. unfold moved. rewrite length_app, length_replicate, length_drop. lia. Qed.

(** Moving the next element out of the vector among the other objects. *)
Lemma take_element s o u rs B O v (vs : list T) k x :
  let Bk k := put_block (arr_ v) (cells (moved k vs) v) B in
  vs !! k = Some x → arr_ v ≠ 0%nat → vwf s → used_ u < size_ u → own s o u rs (Bk k) O →
  ∃ s', move_from (arr_ v) (Z.of_nat k) s = Some (x, s') ∧ vwf s' ∧ own s' o u rs (Bk (S k)) O.
Proof.
  intros Bk Hk H0 Hwf Hlt Hown. pose proof Hown as [Ho Hoo Hb Hf Hnull Hused Hcap].
  assert (Hk' := lookup_lt_Some _ _ _ Hk).
  assert (Hu : arr_ u ≠ 0%nat) by (intros He%Hnull; lia).
  assert (Huv : arr_ u ≠ arr_ v).
  { destruct (put_block_fresh _ _ _ _ (Hf Hu)) as [_ Hd]. auto. }
  assert (Hcell : blocks s !! arr_ v = Some (cells (moved k vs) v)).
  { rewrite Hb, put_block_ne by done. unfold Bk, put_block. rewrite decide_False by done.
    by rewrite lookup_insert_eq. }
  assert (Hcx : cells (moved k vs) v !! k = Some (Obj x)).
  { unfold cells. rewrite lookup_app_l by (rewrite length_fmap, length_moved; lia).
    by rewrite list_lookup_fmap, moved_lookup with (x := x). }
  destruct (write_cell_run s (arr_ v) _ k (Obj None) Hcell) as (s1 & Hw & [Hb1 Ho1 Hk1]).
  { by eapply lookup_lt_Some. }
  assert (Hins : <[k := Obj None]> (cells (moved k vs) v) = cells (moved (S k) vs) v).
  { unfold cells. rewrite insert_app_l by (rewrite length_fmap, length_moved; lia).
    rewrite <- (list_fmap_insert Obj), (moved_step k vs x Hk). done. }
  rewrite Hins in Hb1. exists s1. split; [|split].
  - unfold move_from. cstep_by (object_run s (arr_ v) _ k x Hcell Hcx). by cstep_by Hw.
  - eapply vwf_becomes; [exact Hwf|split; [exact Hb1|exact Ho1|done]| |done].
    intros q. apply lookup_insert_old. by rewrite Hcell.
  - split; try done.
    + by rewrite Ho1.
    + rewrite Hb1, Hb. unfold Bk, put_block. rewrite !decide_False by done.
      rewrite (insert_insert_ne _ (arr_ v)) by done. by rewrite insert_insert_eq.
    + intros _. unfold Bk. rewrite put_block_ne by done.
      by destruct (put_block_fresh _ _ _ _ (Hf Hu)).
Qed.

Lemma push4_add_run d s o u B O v (vs : list T) k x :
  let Bk k := put_block (arr_ v) (cells (moved k vs) v) B in
  vs !! k = Some x → arr_ v ≠ 0%nat →
  vwf s → used_ u < size_ u → own s o u (take k vs) (Bk k) O →
  ∃ s', (x ← call (move_from (arr_ v) (Z.of_nat k)); push4_move (S d) o x) s = Some (Ok (), s') ∧
    vwf s' ∧ own s' o (grown u) (take k vs ++ [x]) (Bk (S k)) O.
Proof.
  intros Bk Hk H0 Hwf Hlt Hown.
  destruct (take_element s o u (take k vs) B O v vs k x Hk H0 Hwf Hlt Hown) as (s1 & Hm & Hwf1 & H1).
  erewrite X_bind_Ok by (unfold call; by rewrite Hm). by apply push4_move_append_run.
Qed.

Lemma push4_run s o v rs B O x :
  vwf s → own s o v rs B O → size_ v < 2 ^ 60 →
  ∃ r s', push4 2 o (Some x) s = Some (r, s') ∧ vwf s' ∧ pushed r s' o v rs (Some x) B O.
Proof.
  intros Hwf0 Hown0 Hsz. unfold push4.
  destruct (copy_T_run s x) as (r & s0 & Hrun0 & Hq0 & [->| ->]); cstep_by Hrun0.
  2: { eexists _, _. split; [done|]. split; [by eapply vwf_quiet|]. right. split; [done|].
       by eapply own_quiet. }
  assert (Hwf : vwf s0) by (by eapply vwf_quiet).
  assert (Hown : own s0 o v rs B O) by (by eapply own_quiet). clear Hwf0 Hown0 Hrun0 Hq0 s.
  rename s0 into s. pose proof Hown as [Ho Hoo Hb Hf Hnull Hused Hcap].
  destruct (decide (used_ v = size_ v)) as [Hfull|Hfull].
  2: { destruct (push4_move_append_run 1 s o v rs B O (Some x)) as (s' & Hrun & Hwf' & Hc); [done..|lia|].
       eexists _, s'. split; [done|]. split; [done|]. left. eauto. }
  cbn [push4_move]. erewrite X_bind_Ok by (unfold call; by rewrite (own_load _ _ _ _ _ _ Hown)).
  rewrite (proj2 (Z.leb_le _ _)) by lia. cstep. rewrite (proj2 (Z.eqb_eq _ _)) by done.
  rewrite u64_small by (unfold is_u64; lia).
  destruct (make_run s (size_ v * 2 + 1)) as (r & s1 & Hrun & [[-> Hq]|(tmp & u & -> & Hwf1 & Hus & Huu & Hft & H1)]);
    [done|lia|..]; cstep_by Hrun.
  { eexists _, _. split; [done|]. split; [by eapply vwf_quiet|]. right. split; [done|].
    by eapply own_quiet. }
  rewrite Hb, Ho in H1. set (Bk := λ k, put_block (arr_ v) (cells (moved k rs) v) B).
  destruct (fill_run False (λ p i, x ← call (move_from p i); push4_move 1 tmp x) tmp o v rs Bk (<[o := v]> O)
    (size_ v * 2 + 1)) with (j := length rs) (k := 0%nat) (s := s1) (u := u)
    as (r & s2 & Hrun2 & Hwf2 & [[-> H2]|([] & _)]);
    [|by rewrite lookup_insert_eq|done|lia|lia|done|done|done|..].
  { intros k y s2 u2 Hk Hwf2 Hlt H2. cbn beta.
    destruct (push4_add_run 0 s2 tmp u2 B (<[o := v]> O) v rs k y) as (s3 & H3 & Hwf3 & H4); try done.
    - intros H0%Hnull. apply lookup_lt_Some in Hk. lia.
    - eexists _, s3. split; [done|]. split; [done|]. by left. }
  rewrite Hused, Nat2Z.id.
  destruct (push4_move_append_run 0 s2 tmp _ _ _ _ (Some x) Hwf2 H2) as (s3 & Hrun3 & Hwf3 & H3);
    [cbn; lia|].
  assert (Hmoved : own (VStore (Bk (length rs)) (<[o := v]> O) 1 [] 0) o v (moved (length rs) rs) B O).
  { split; cbn; try done. by rewrite length_moved. }
  destruct (swap_in_run s3 _ o tmp v _ _ _ B O Hwf3 Hmoved H3) as (s4 & s' & Hsw & Hd & Hwf' & H4).
  erewrite scoped_Ok; [|cstep_by Hrun2; cstep_by Hrun3; unfold call; by rewrite Hsw|exact Hd].
  eexists _, _. split; [done|]. split; [done|]. left. split; [done|]. eauto.
Qed.

(** *** Copies *)
Lemma copy_ctor_run s w v rs :
  vwf s → objs s !! w = Some v → used_ v = Z.of_nat (length rs) → Forall is_Some rs →
  (rs ≠ [] → blocks s !! arr_ v = Some (cells rs v)) →
  ∃ r s', Buf.copy_ctor w s = Some (r, s') ∧ vwf s' ∧
    (r = Throw bad_alloc ∧ blocks s' = blocks s ∧ objs s' = objs s ∨
     ∃ tmp u, r = Ok tmp ∧ own s' tmp u rs (blocks s) (objs s)).
Proof.
  intros Hwf Hw Hused Hsome HB. unfold Buf.copy_ctor.
  erewrite X_bind_Ok by (unfold call, load; cunfold; by rewrite Hw).
  destruct (make_run s (used_ v)) as (r & s1 & Hrun & Hc); [done|lia|].
  unfold Buf.make in Hrun. rewrite <- X_bind_assoc. destruct Hc as [[-> Hq]|(tmp & u & -> & Hwf1 & Hus & Huu & Hft & H1)]; cstep_by Hrun.
  { eexists _, _. split; [done|]. split; [by eapply vwf_quiet|]. left. by destruct Hq. }
  destruct (fill_run True (λ p i, x ← call (object p i); Buf.append tmp x) tmp w v rs
    (λ _, blocks s) (objs s) (used_ v)) with (j := length rs) (k := 0%nat) (s := s1) (u := u)
    as (r & s2 & Hrun2 & Hwf2 & [[-> H2]|(_ & -> & u' & k' & H2)]);
    [|done|done|lia|lia|done|done|done|..].
  { intros k y s2 u2 Hk Hwf2 Hlt H2. cbn beta.
    eapply other_add_run; [done|exact Hk| |done..|].
    - apply HB. intros ->. done.
    - intros z. by apply append_run. }
  all: rewrite Hused, Nat2Z.id.
  - erewrite X_bind_Ok by (unfold on_throw; by rewrite Hrun2).
    eexists _, _. split; [done|]. split; [done|]. right. eauto.
  - destruct (dtor_run s2 tmp u' _ _ _ Hwf2 H2) as (s' & Hd & Hwf' & Hbec).
    erewrite X_bind_Throw by (unfold on_throw; by rewrite Hrun2, Hd).
    eexists _, _. split; [done|]. split; [done|]. left. by destruct Hbec.
Qed.

Lemma copy_assign_run s o v rs B O w u (us : list T) :
  vwf s → own s o v rs B O → objs s !! w = Some u → used_ u = Z.of_nat (length us) →
  Forall is_Some us → (us ≠ [] → blocks s !! arr_ u = Some (cells us u)) →
  ∃ r s', Buf.copy_assign o w s = Some (r, s') ∧ vwf s' ∧
    (r = Ok () ∧ (∃ v', own s' o v' us B O) ∨ r = Throw bad_alloc ∧ own s' o v rs B O).
Proof.
  intros Hwf Hown Hw Hused Hsome HB. unfold Buf.copy_assign.
  destruct (copy_ctor_run s w u us) as (r & s1 & Hrun & Hwf1 & [(-> & Hb1 & Ho1)|(tmp & vt & -> & H1)]);
    [done..| |]; cstep_by Hrun.
  { eexists _, _. split; [done|]. split; [done|]. right. split; [done|]. by eapply own_same. }
  rewrite (own_blocks _ _ _ _ _ _ Hown), (own_objs _ _ _ _ _ _ Hown) in H1.
  destruct (swap_in_run s1 s o tmp v vt rs us B O Hwf1 Hown H1) as (s2 & s' & Hsw & Hd & Hwf' & H4).
  erewrite scoped_Ok; [|unfold call; by rewrite Hsw|exact Hd].
  eexists _, _. split; [done|]. split; [done|]. left. eauto.
Qed.
End facts.

(** ** Properties *)

(** [push] of the third version gives the strong guarantee: it returns with the
    element appended, or throws with the vector, its storage and its elements as they
    were; in both cases the rest of the storage and the other objects are untouched,
    so that no block is leaked. *)
Theorem push3_strong_guarantee s o v (rs : list T) B O x :
  vwf s → own s o v rs B O → Forall is_Some rs → size_ v < 2 ^ 60 →
  ∃ r s', push3 2 o (Some x) s = Some (r, s') ∧
    (r = Ok () ∧ (∃ v', own s' o v' (rs ++ [Some x]) B O) ∨
     r = Throw bad_alloc ∧ own s' o v rs B O).
Proof.
  intros Hwf Hown Hs Hsz. destruct (push3_run s o v rs B O x) as (r & s' & Hrun & _ & Hp); [done..|].
  by exists r, s'.
Qed.

(** C20: [push] of the fourth version gives the strong guarantee although it moves the
    elements of a full vector into the new storage: whatever throws, throws before the
    first of them is moved. *)
Theorem push4_strong_guarantee s o v (rs : list T) B O x :
  vwf s → own s o v rs B O → size_ v < 2 ^ 60 →
  ∃ r s', push4 2 o (Some x) s = Some (r, s') ∧
    (r = Ok () ∧ (∃ v', own s' o v' (rs ++ [Some x]) B O) ∨
     r = Throw bad_alloc ∧ own s' o v rs B O).
Proof.
  intros Hwf Hown Hsz. destruct (push4_run s o v rs B O x) as (r & s' & Hrun & _ & Hp); [done..|].
  by exists r, s'.
Qed.

(** copy assignment by copy and swap either gives the vector the elements of the
    right-hand side, whose own storage is untouched, and releases the old ones, or
    throws and leaves everything as it was; the right-hand side may be the vector itself. *)
Theorem copy_assign_strong_guarantee s o v (rs : list T) B O w u (us : list T) :
  vwf s → own s o v rs B O → objs s !! w = Some u → used_ u = Z.of_nat (length us) →
  Forall is_Some us → (us ≠ [] → blocks s !! arr_ u = Some (cells us u)) →
  ∃ r s', Buf.copy_assign o w s = Some (r, s') ∧
    (r = Ok () ∧ (∃ v', own s' o v' us B O) ∨ r = Throw bad_alloc ∧ own s' o v rs B O).
Proof.
  intros Hwf Hown Hw Hu Hs HB.
  destruct (copy_assign_run s o v rs B O w u us) as (r & s' & Hrun & _ & Hp); [done..|].
  by exists r, s'.
Qed.

(** A full vector of one element, in a store whose third allocation from now fails. *)
Definition full_store : vstore :=
  VStore {[1%nat := [Obj (Some 7)]]} {[2%nat := Vec 1 1 1]} 3 [true; true; false] 9.

Lemma full_store_vwf : vwf full_store.
Proof.
  split; [cbn; lia|..]; intros p Hp; cbn in *.
  - destruct (decide (p = 1%nat)) as [->|Hne]; [lia|].
    rewrite lookup_singleton_ne in Hp by done. by destruct Hp.
  - destruct (decide (p = 2%nat)) as [->|Hne]; [lia|].
    rewrite lookup_singleton_ne in Hp by done. by destruct Hp.
Qed.

Lemma full_store_own : own full_store 2 (Vec 1 1 1) [Some 7] ∅ ∅.
Proof. by split. Qed.

Example push3_throws :
  fst <$> push3 2 2%nat (Some 8) full_store = Some (Throw bad_alloc).
Proof. vm_compute. reflexivity. Qed.

Example push4_pushes : fst <$> push4 2 2%nat (Some 8) full_store = Some (Ok ()).
Proof. vm_compute. reflexivity. Qed.

Lemma push3_strong_guarantee_witness :
  ∃ r s', push3 2 2%nat (Some 8) full_store = Some (r, s') ∧
    (r = Ok () ∧ (∃ v', own s' 2 v' ([Some 7] ++ [Some 8]) ∅ ∅) ∨
     r = Throw bad_alloc ∧ own s' 2 (Vec 1 1 1) [Some 7] ∅ ∅).
Proof.
  apply (push3_strong_guarantee full_store 2 (Vec 1 1 1) [Some 7] ∅ ∅ 8).
  - exact full_store_vwf.
  - exact full_store_own.
  - by repeat constructor.
  - done.
Defined.

Lemma push4_strong_guarantee_witness :
  ∃ r s', push4 2 2%nat (Some 8) full_store = Some (r, s') ∧
    (r = Ok () ∧ (∃ v', own s' 2 v' ([Some 7] ++ [Some 8]) ∅ ∅) ∨
     r = Throw bad_alloc ∧ own s' 2 (Vec 1 1 1) [Some 7] ∅ ∅).
Proof.
  apply (push4_strong_guarantee full_store 2 (Vec 1 1 1) [Some 7] ∅ ∅ 8).
  - exact full_store_vwf.
  - exact full_store_own.
  - done.
Defined.

Lemma copy_assign_strong_guarantee_witness :
  ∃ r s', Buf.copy_assign 2 2 full_store = Some (r, s') ∧
    (r = Ok () ∧ (∃ v', own s' 2 v' [Some 7] ∅ ∅) ∨
     r = Throw bad_alloc ∧ own s' 2 (Vec 1 1 1) [Some 7] ∅ ∅).
Proof.
  apply (copy_assign_strong_guarantee full_store 2 (Vec 1 1 1) [Some 7] ∅ ∅ 2 (Vec 1 1 1) [Some 7]).
  - exact full_store_vwf.
  - exact full_store_own.
  - done.
  - done.
  - by repeat constructor.
  - intros _. reflexivity.
Defined.
