(* ===== verification/Llvm.v ===== *)
(** * What ParaCL uses of LLVM

    The code generator of [src/15-llvm/naive-pcl] builds one function through
    [llvm::IRBuilder]. LLVM is not part of the repository: [IRBuilder] lists the calls
    that are made, over types of values, basic blocks and functions under construction
    that are left open; [IRDocumented] states what the LLVM documentation says of them
    and of running the function they build. *)

From stdpp Require Import pretty.
From S2P Require Import Prelude.

Inductive binop := Add | Sub | Mul | SDiv | SRem | BitAnd | BitOr.
Inductive predicate := SGT | SLT | SGE | SLE | EQ | NE.

(** The calls; a function under construction [F] carries the insertion point of the builder. *)
Class IRBuilder := {
  V : Type;
  BB : Type;
  F : Type;
  Function_Create : F;
  BasicBlock_Create : F → BB * F;
  SetInsertPoint : BB → F → F;
  ConstantInt_get : Z → V;
  CreateBin : binop → V → V → F → V * F;
  CreateICmp : predicate → V → V → F → V * F;
  CreateNot : V → F → V * F;
  CreateAlloca : F → V * F;  (* by a builder at the start of the entry block *)
  CreateLoad : V → F → V * F;
  CreateStore : V → V → F → V * F;
  CreateCallPrint : V → F → V * F;
  CreateCallScan : F → V * F;
  CreateCondBr : V → BB → BB → F → F;
  CreateBr : BB → F → F;
  CreateRetVoid : F → F }.

(** ** Words

    A value of the program is a bit or a 32-bit integer. *)
Inductive word := I1 (b : bool) | I32 (z : Z).

#[export] Instance word_eq_dec : EqDecision word.
Proof. solve_decision. Defined.

Definition int_fits (z : Z) : bool := (- 2 ^ 31 <=? z) && (z <? 2 ^ 31).

(** What an integer instruction computes: the result wraps; division by zero and the
    overflowing division have no result. *)
Definition bin_result (op : binop) (x y : word) : option word :=
  match op, x, y with
  | Add, I32 x, I32 y => Some (I32 (i32 (x + y)))
  | Sub, I32 x, I32 y => Some (I32 (i32 (x - y)))
  | Mul, I32 x, I32 y => Some (I32 (i32 (x * y)))
  | SDiv, I32 x, I32 y =>
    if negb (y =? 0) && int_fits (Z.quot x y) then Some (I32 (Z.quot x y)) else None
  | SRem, I32 x, I32 y =>
    if negb (y =? 0) && int_fits (Z.quot x y) then Some (I32 (Z.rem x y)) else None
  | BitAnd, I1 x, I1 y => Some (I1 (x && y))
  | BitOr, I1 x, I1 y => Some (I1 (x || y))
  | BitAnd, I32 x, I32 y => Some (I32 (Z.land x y))
  | BitOr, I32 x, I32 y => Some (I32 (Z.lor x y))
  | _, _, _ => None
  end.

Definition icmp_result (p : predicate) (x y : word) : option word :=
  match x, y with
  | I32 x, I32 y => Some (I1 (match p with
      | SGT => y <? x | SLT => x <? y | SGE => y <=? x | SLE => x <=? y
      | EQ => x =? y | NE => negb (x =? y) end))
  | _, _ => None
  end.

Definition not_result (x : word) : word :=
  match x with I1 b => I1 (negb b) | I32 z => I32 (Z.lnot z) end.

(** ** Running a function

    The machine keeps the words of the instructions executed, the stack slots, named
    by the value of their [alloca] and without a word before the first [store], and the streams of the runtime library: [input] are
    the integers that [std::cin] will yield, [output] the lines written. *)
Record machine `{IRBuilder} := Machine {
  regs : V → option word;
  mem : V → option (option word);
  input : list Z;
  output : list string }.

Inductive terminator `{IRBuilder} := Br (b : BB) | CondBr (v : V) (b1 b2 : BB) | RetVoid.

#[global] Arguments Machine {_} _ _ _ _.
#[global] Arguments Br {_} _.
#[global] Arguments CondBr {_} _ _ _.
#[global] Arguments RetVoid {_}.

(** [pcl-lib/pcllib.cc], the runtime library that a compiled program is linked with;
    [__pcl_scan] exits, without a value, when no integer can be read. *)
Definition __pcl_print (n : Z) (cout : list string) : list string := cout ++ [pretty n].

Definition __pcl_scan (cin : list Z) : option (Z * list Z) :=
  match cin with n :: cin => Some (n, cin) | [] => None end.

(** What can be observed of a function: the instructions of a block before its
    terminator, the terminator, the insertion point; [known] are the values it has. *)
Class IRView `{IRBuilder} := {
  instr : Type;
  exec : instr → machine → option machine;
  constant : V → option word;
  code : F → BB → list instr;
  term : F → BB → option terminator;
  here : F → BB;
  entry : BB;
  has_block : F → BB → Prop;
  known : F → V → Prop;
  V_eq :: EqDecision V;
  BB_eq :: EqDecision BB }.

Section run.
Context `{IRView}.

Definition val (m : machine) (v : V) : option word :=
  match constant v with Some w => Some w | None => regs m v end.

Fixpoint execs (js : list instr) (m : machine) : option machine :=
  match js with [] => Some m | i :: js => m' ← exec i m; execs js m' end.

(** A position: the block and the instructions of it that are left. *)
Inductive step (f : F) : BB * list instr * machine → BB * list instr * machine → Prop :=
| step_exec b i js m m' : exec i m = Some m' → step f (b, i :: js, m) (b, js, m')
| step_br b b' m : term f b = Some (Br b') → step f (b, [], m) (b', code f b', m)
| step_cond b v b1 b2 m c : term f b = Some (CondBr v b1 b2) → val m v = Some (I1 c) →
    step f (b, [], m) (if c then b1 else b2, code f (if c then b1 else b2), m).

(** The function, entered with empty registers and slots, returns with the streams of [m]. *)
Definition returns (f : F) (inp : list Z) (m : machine) : Prop :=
  ∃ b, rtc (step f) (entry, code f entry, Machine (λ _, None) (λ _, None) inp []) (b, [], m) ∧
    term f b = Some RetVoid.

(** [f'] is [f] with [is] inserted at the insertion point. *)
Record emits (f f' : F) (js : list instr) : Prop := {
  emits_here : here f' = here f;
  emits_code : ∀ b, code f' b = if decide (b = here f) then code f b ++ js else code f b;
  emits_term : ∀ b, term f' b = term f b;
  emits_block : ∀ b, has_block f' b ↔ has_block f b;
  emits_known : ∀ v, known f v → known f' v }.

(** [f'] is [f] with [t] as the terminator of the current block. *)
Record ends (f f' : F) (t : terminator) : Prop := {
  ends_here : here f' = here f;
  ends_code : ∀ b, code f' b = code f b;
  ends_term : ∀ b, term f' b = if decide (b = here f) then Some t else term f b;
  ends_block : ∀ b, has_block f' b ↔ has_block f b;
  ends_known : ∀ v, known f v → known f' v }.

(** [m'] differs from [m] at most in what [f] does not have yet. *)
Record keeps (f : F) (m m' : machine) : Prop := {
  keeps_val : ∀ v, known f v → val m' v = val m v;
  keeps_mem : ∀ v, known f v → mem m' v = mem m v;
  keeps_input : input m' = input m;
  keeps_output : output m' = output m }.

(** A call whose value is [w] whenever [pre m w]; it may insert any number of
    instructions, for the builder folds constants. *)
Definition computes (f f' : F) (v : V) (pre : machine → word → Prop) : Prop :=
  known f' v ∧ ∃ js, emits f f' js ∧
    ∀ m w, pre m w → ∃ m', execs js m = Some m' ∧ keeps f m m' ∧ val m' v = Some w.

(** A call that is made for its effect [eff]. *)
Definition performs (f f' : F) (eff : machine → machine → Prop) : Prop :=
  ∃ js, emits f f' js ∧
    ∀ m m1, eff m m1 → ∃ m', execs js m = Some m' ∧ keeps f m1 m'.
End run.

(** ** The documentation of [IRBuilder], and of the runtime library for the two calls *)
Class IRDocumented `{IRView} := {
  doc_function b f : BasicBlock_Create Function_Create = (b, f) →
    b = entry ∧ code f entry = [] ∧ term f entry = None ∧ (∀ c, has_block f c ↔ c = entry);
  doc_block f b f' : BasicBlock_Create f = (b, f') →
    ¬ has_block f b ∧ here f' = here f ∧ code f' b = [] ∧ term f' b = None ∧
    (∀ c, c ≠ b → code f' c = code f c ∧ term f' c = term f c) ∧
    (∀ c, has_block f' c ↔ c = b ∨ has_block f c) ∧ (∀ v, known f v → known f' v);
  doc_insert f b : here (SetInsertPoint b f) = b ∧
    (∀ c, code (SetInsertPoint b f) c = code f c ∧ term (SetInsertPoint b f) c = term f c) ∧
    (∀ c, has_block (SetInsertPoint b f) c ↔ has_block f c) ∧
    (∀ v, known f v → known (SetInsertPoint b f) v);
  doc_const z f : constant (ConstantInt_get z) = Some (I32 (i32 z)) ∧ known f (ConstantInt_get z);
  doc_bin op a b f v f' : CreateBin op a b f = (v, f') →
    computes f f' v (λ m w, ∃ x y, val m a = Some x ∧ val m b = Some y ∧ bin_result op x y = Some w);
  doc_icmp p a b f v f' : CreateICmp p a b f = (v, f') →
    computes f f' v (λ m w, ∃ x y, val m a = Some x ∧ val m b = Some y ∧ icmp_result p x y = Some w);
  doc_not a f v f' : CreateNot a f = (v, f') →
    computes f f' v (λ m w, ∃ x, val m a = Some x ∧ w = not_result x);
  doc_load a f v f' : CreateLoad a f = (v, f') → known f' v ∧ ∃ js, emits f f' js ∧
    ∀ m o, mem m a = Some o → ∃ m', execs js m = Some m' ∧ keeps f m m' ∧ ∀ w, o = Some w → val m' v = Some w;
  doc_store x a f v f' : CreateStore x a f = (v, f') →
    performs f f' (λ m m1, ∃ w o, val m x = Some w ∧ mem m a = Some o ∧
      m1 = Machine (regs m) (λ q, if decide (q = a) then Some (Some w) else mem m q) (input m) (output m));
  doc_alloca f v f' : CreateAlloca f = (v, f') →
    ¬ known f v ∧ known f' v ∧ here f' = here f ∧
    (∀ b, term f' b = term f b ∧ (b ≠ entry → code f' b = code f b)) ∧
    (∀ b, has_block f' b ↔ has_block f b) ∧ (∀ v, known f v → known f' v) ∧
    ∃ js, code f' entry = js ++ code f entry ∧ ∀ m, ∃ m', execs js m = Some m' ∧
      mem m' v = Some None ∧ (∀ q, q ≠ v → mem m' q = mem m q) ∧
      input m' = input m ∧ output m' = output m;
  doc_print a f v f' : CreateCallPrint a f = (v, f') →
    performs f f' (λ m m1, ∃ z, val m a = Some (I32 z) ∧
      m1 = Machine (regs m) (mem m) (input m) (__pcl_print z (output m)));
  doc_scan f v f' : CreateCallScan f = (v, f') → known f' v ∧ ∃ js, emits f f' js ∧
    ∀ m z inp, __pcl_scan (input m) = Some (z, inp) → ∃ m', execs js m = Some m' ∧
      keeps f (Machine (regs m) (mem m) inp (output m)) m' ∧ val m' v = Some (I32 z);
  doc_cond v b1 b2 f : ends f (CreateCondBr v b1 b2 f) (CondBr v b1 b2);
  doc_br b f : ends f (CreateBr b f) (Br b);
  doc_ret f : ends f (CreateRetVoid f) RetVoid }.
