(* ===== verification/LlvmCfg.v ===== *)
(** * Building and running a function

    How the calls of the builder extend a function under construction, and what the
    finished function then does, from the documentation in [Llvm.IRDocumented]. *)

From S2P Require Import Prelude Llvm.

(** ** Functions under construction *)
Section cfg.
Context `{IRDocumented}.
Implicit Types (f g : F) (b : BB) (m : machine) (js : list instr).

(** What is added to [f] in [g] keeps the terminated blocks and extends the others. *)
Record le f g : Prop := {
  le_term : ∀ b t, has_block f b → term f b = Some t → term g b = Some t ∧ code g b = code f b;
  le_code : ∀ b, has_block f b → code f b `prefix_of` code g b;
  le_block : ∀ b, has_block f b → has_block g b;
  le_known : ∀ v, known f v → known g v }.

(** Only the current block of [f] and new blocks are changed. *)
Record local f f' : Prop := {
  local_same : ∀ b, has_block f b → b ≠ here f → code f' b = code f b ∧ term f' b = term f b;
  local_here : here f' = here f ∨ ¬ has_block f (here f') }.

Record is_open f : Prop := {
  open_block : has_block f (here f);
  open_term : term f (here f) = None }.

#[global] Instance le_preorder : PreOrder le.
Proof.
  split.
  - intros f. by split.
  - intros f1 f2 f3 [T1 C1 B1 K1] [T2 C2 B2 K2]. split; auto.
    + intros b t Hb Ht. destruct (T1 _ _ Hb Ht) as [Ht1 Hc1].
      destruct (T2 _ _ (B1 _ Hb) Ht1) as [Ht2 Hc2]. by rewrite Hc2.
    + intros b Hb. etrans; auto.
Qed.

Lemma local_trans f1 f2 f3 : le f1 f2 → local f1 f2 → local f2 f3 → local f1 f3.
Proof.
  intros [_ _ HB _] [S1 E1] [S2 E2]. split.
  - intros b Hb Hne. destruct (S1 b Hb Hne) as [<- <-]. apply S2; [auto|].
    intros ->. destruct E1 as [E1|E1]; [congruence|done].
  - destruct E2 as [->|E2]; [done|]. right. auto.
Qed.

Lemma emits_le f f' js : is_open f → emits f f' js → le f f' ∧ local f f' ∧ is_open f'.
Proof.
  intros [Hb Ht] [Hh Hc Htm Hbl Hk]. split; [|split].
  - split; auto.
    + intros b t _ Hbt. rewrite Htm, Hc. split; [done|]. rewrite decide_False; [done|]. congruence.
    + intros b _. rewrite Hc. case_decide; [by apply prefix_app_r|done].
    + intros b. apply Hbl.
  - split; [|by left]. intros b _ Hne. by rewrite Hc, Htm, decide_False.
  - split; rewrite Hh, ?Htm; [by apply Hbl|done].
Qed.

Lemma emits_trans f1 f2 f3 js1 js2 : emits f1 f2 js1 → emits f2 f3 js2 → emits f1 f3 (js1 ++ js2).
Proof.
  intros [E1 C1 T1 B1 K1] [E2 C2 T2 B2 K2]. split; try congruence; auto.
  - intros b. rewrite C2, E1, C1. case_decide; [by rewrite app_assoc|done].
  - intros b. by rewrite B2.
Qed.

Lemma ends_le f f' t : is_open f → ends f f' t → le f f' ∧ local f f'.
Proof.
  intros [Hb Ht] [Hh Hc Htm Hbl Hk]. split.
  - split; auto.
    + intros b t' _ Hbt. rewrite Htm, Hc. split; [|done]. rewrite decide_False; congruence.
    + intros b _. by rewrite Hc.
    + intros b. apply Hbl.
  - split; [|by left]. intros b _ Hne. by rewrite Hc, Htm, decide_False.
Qed.

Lemma block_le f b f' : BasicBlock_Create f = (b, f') → is_open f → le f f' ∧ local f f' ∧ is_open f'.
Proof.
  intros Hd [Hb Ht]. destruct (doc_block _ _ _ Hd) as (Hn & Hh & Hc & Htm & Ho & Hbl & Hk).
  assert (Hne : ∀ c, has_block f c → c ≠ b) by (by intros c Hc' ->).
  assert (Hsame : ∀ c, has_block f c → code f' c = code f c ∧ term f' c = term f c) by eauto.
  split; [|split].
  - split; auto.
    + intros c t Hc' Hct. by destruct (Hsame c Hc') as [-> ->].
    + intros c Hc'. by destruct (Hsame c Hc') as [-> _].
    + intros c Hc'. apply Hbl. by right.
  - split; [|by left]. intros c Hc' _. auto.
  - split; rewrite Hh; [apply Hbl; by right|]. by destruct (Hsame _ Hb) as [_ ->].
Qed.

Lemma insert_le f b : le f (SetInsertPoint b f).
Proof.
  destruct (doc_insert f b) as (_ & Hc & Hb & Hk). split; auto.
  - intros c t _ Ht. by destruct (Hc c) as [-> ->].
  - intros c _. by destruct (Hc c) as [-> _].
  - intros c. apply Hb.
Qed.

(** ** Running what has been added *)
Definition pos g f : BB * list instr := (here f, drop (length (code f (here f))) (code g (here f))).

Definition steps g := rtc (step g).

Lemma exec_steps g b js k m m' : execs js m = Some m' → steps g (b, js ++ k, m) (b, k, m').
Proof.
  revert m. induction js as [|i js IH]; intros m; cbn; [intros [= ->]; apply rtc_refl|].
  destruct (exec i m) as [m1|] eqn:Hi; [|done]. cbn. intros Hjs.
  eapply rtc_l; [by apply step_exec|]. by apply IH.
Qed.

Lemma emits_steps g f f' js m m' :
  is_open f → emits f f' js → le f' g → execs js m = Some m' →
  steps g (pos g f, m) (pos g f', m').
Proof.
  intros Ho He Hle Hm. destruct (emits_le _ _ _ Ho He) as (_ & _ & [Hb' _]).
  destruct (le_code _ _ Hle _ Hb') as [k Hk]. destruct He as [Hh Hc _ _ _].
  unfold pos. rewrite Hh in *. rewrite Hk. rewrite Hc, decide_True by done.
  rewrite drop_app_length, <- app_assoc, drop_app_length. by apply exec_steps.
Qed.

Lemma ends_pos g f f' t :
  is_open f → ends f f' t → le f' g → pos g f = (here f, []) ∧ term g (here f) = Some t.
Proof.
  intros [Hb _] [Hh Hc Ht Hbl _] Hle. specialize (Ht (here f)). rewrite decide_True in Ht by done.
  destruct (le_term _ _ Hle (here f) t) as [Htg Hcg]; [by apply Hbl|done|].
  split; [|done]. unfold pos. rewrite Hcg, Hc. by rewrite drop_all.
Qed.

Lemma cond_step g f v b1 b2 m c :
  is_open f → le (CreateCondBr v b1 b2 f) g → val m v = Some (I1 c) →
  steps g (pos g f, m) (if c then b1 else b2, code g (if c then b1 else b2), m).
Proof.
  intros Ho Hle Hv. destruct (ends_pos _ _ _ _ Ho (doc_cond v b1 b2 f) Hle) as [-> Ht].
  apply rtc_once. by eapply step_cond.
Qed.

Lemma br_step g f b m :
  is_open f → le (CreateBr b f) g → steps g (pos g f, m) (b, code g b, m).
Proof.
  intros Ho Hle. destruct (ends_pos _ _ _ _ Ho (doc_br b f) Hle) as [-> Ht].
  apply rtc_once. by apply step_br.
Qed.

Lemma start_pos g f : code f (here f) = [] → pos g f = (here f, code g (here f)).
Proof. intros Hc. unfold pos. by rewrite Hc. Qed.
End cfg.

(** What [StartIf] and [StartWhile] make of the function [f]: two new blocks, and a
    branch on [v] from the current block. *)
Section branch.
Context `{IRDocumented}.
Implicit Types (f g : F) (b : BB) (m : machine).

Record branched v f b1 b2 f3 : Prop := {
  brd_le : le f f3;
  brd_here : here f3 = b1;
  brd_open : is_open f3;
  brd_then : code f3 b1 = [];
  brd_new1 : ¬ has_block f b1;
  brd_new2 : ¬ has_block f b2;
  brd_ne : b2 ≠ b1;
  brd_block2 : has_block f3 b2;
  brd_merge : code f3 b2 = [] ∧ term f3 b2 = None;
  brd_same : ∀ b, has_block f b → b ≠ here f → code f3 b = code f b ∧ term f3 b = term f b;
  brd_known : ∀ x, known f x → known f3 x;
  brd_step : ∀ g m c, le f3 g → val m v = Some (I1 c) →
    steps g (pos g f, m) (if c then b1 else b2, code g (if c then b1 else b2), m) }.

Lemma start_branch v f b1 b2 f1 f2 :
  is_open f → BasicBlock_Create f = (b1, f1) → BasicBlock_Create f1 = (b2, f2) →
  branched v f b1 b2 (SetInsertPoint b1 (CreateCondBr v b1 b2 f2)).
Proof.
  intros Ho D1 D2. destruct (block_le _ _ _ D1 Ho) as (L1 & C1 & O1). destruct (block_le _ _ _ D2 O1) as (L2 & C2 & O2).
  destruct (doc_block _ _ _ D1) as (N1 & Hh1 & Hc1 & Ht1 & Hs1 & Hb1 & _).
  destruct (doc_block _ _ _ D2) as (N2 & Hh2 & Hc2 & Ht2 & Hs2 & Hb2 & _).
  assert (Hends := doc_cond v b1 b2 f2). destruct (ends_le _ _ _ O2 Hends) as (L3 & C3).
  destruct Hends as [Eh Ec Et Eb Ek].
  destruct (doc_insert (CreateCondBr v b1 b2 f2) b1) as (Ih & Is & Ib & Ik).
  assert (Hne : b2 ≠ b1) by (intros ->; apply N2, Hb1; by left).
  assert (Hh : here f2 = here f) by congruence.
  assert (Hf1 : b1 ≠ here f) by (intros ->; by apply N1, Ho).
  assert (Hf2 : b2 ≠ here f) by (intros ->; apply N2, Hb1; right; apply Ho).
  set (f3 := SetInsertPoint b1 (CreateCondBr v b1 b2 f2)) in *.
  assert (Hsame : ∀ c, c ≠ here f → code f3 c = code f2 c ∧ term f3 c = term f2 c).
  { intros c Hc. destruct (Is c) as [-> ->]. rewrite Ec, Et, Hh. by rewrite decide_False. }
  assert (Lf : le f f3) by (etrans; [exact L1|etrans; [exact L2|etrans; [exact L3|apply insert_le]]]).
  assert (H12 : code f2 b1 = [] ∧ term f2 b1 = None) by (destruct (Hs2 b1 (not_eq_sym Hne)) as [-> ->]; done).
  split; try done.
  - split; rewrite Ih.
    + apply Ib, Eb, Hb2. right. apply Hb1. by left.
    + destruct (Hsame b1 Hf1) as [_ ->]. apply H12.
  - destruct (Hsame b1 Hf1) as [-> _]. apply H12.
  - intros Hc. by apply N2, Hb1; right.
  - apply Ib, Eb, Hb2. by left.
  - by destruct (Hsame b2 Hf2) as [-> ->].
  - intros b Hb Hbh. destruct (Hsame b Hbh) as [-> ->].
    assert (b ≠ b1) by (by intros ->). assert (b ≠ b2) by (intros ->; apply N2, Hb1; by right).
    destruct (Hs2 b) as [-> ->]; [done|]. by apply Hs1.
  - apply (le_known _ _ Lf).
  - intros g m c Hg Hv.
    assert (Hpos : pos g f = pos g f2).
    { unfold pos. rewrite Hh. destruct (Hs2 (here f)) as [-> _]; [done|]. by destruct (Hs1 (here f)) as [-> _]. }
    rewrite Hpos. apply (cond_step g f2 v); [done| |done]. etrans; [apply insert_le|exact Hg].
Qed.
End branch.
