(* ===== verification/LlvmList.v ===== *)
(** * A builder that keeps its blocks as lists

    It shows that the documentation stated in [Llvm.IRDocumented] can hold, and makes the
    programs of ParaCL executable. *)

From stdpp Require Import pretty.
From S2P Require Import Prelude Llvm.

Module LB.

Inductive value := Const (w : word) | Reg (r : nat).

Inductive instruction :=
| Bin (d : nat) (op : binop) (a b : value)
| ICmp (d : nat) (p : predicate) (a b : value)
| Not (d : nat) (a : value)
| Alloca (d : nat)
| Load (d : nat) (a : value)
| Store (x a : value)
| Print (x : value)
| Scan (d : nat).

Inductive jump := JBr (b : nat) | JCond (v : value) (b1 b2 : nat) | JRet.

Record func := Func {
  bodies : gmap nat (list instruction);
  jumps : gmap nat jump;
  current : nat;
  next_block : nat;
  next_reg : nat }.

#[export] Instance value_eq_dec : EqDecision value.
Proof. solve_decision. Defined.

Definition body (f : func) (b : nat) : list instruction := default [] (bodies f !! b).

Definition insert_at (b : nat) (is' : list instruction) (f : func) : func :=
  Func (<[b := is']> (bodies f)) (jumps f) (current f) (next_block f) (next_reg f).

Definition append (i : instruction) (f : func) : func :=
  insert_at (current f) (body f (current f) ++ [i]) f.

Definition fresh_reg (f : func) : func :=
  Func (bodies f) (jumps f) (current f) (next_block f) (S (next_reg f)).

(** An instruction that defines the next register. *)
Definition define (i : nat → instruction) (f : func) : value * func :=
  (Reg (next_reg f), fresh_reg (append (i (next_reg f)) f)).

Definition finish (j : jump) (f : func) : func :=
  Func (bodies f) (<[current f := j]> (jumps f)) (current f) (next_block f) (next_reg f).
End LB.
Import LB.

#[export] Instance list_builder : IRBuilder := {
  V := value;
  BB := nat;
  F := func;
  Function_Create := Func ∅ ∅ 0 0 0;
  BasicBlock_Create f := (next_block f,
    Func (delete (next_block f) (bodies f)) (delete (next_block f) (jumps f)) (current f)
      (S (next_block f)) (next_reg f));
  SetInsertPoint b f := Func (bodies f) (jumps f) b (next_block f) (next_reg f);
  ConstantInt_get z := Const (I32 (i32 z));
  CreateBin op a b := define (λ d, Bin d op a b);
  CreateICmp p a b := define (λ d, ICmp d p a b);
  CreateNot a := define (λ d, Not d a);
  CreateAlloca f := (Reg (next_reg f), fresh_reg (insert_at 0 (Alloca (next_reg f) :: body f 0) f));
  CreateLoad a := define (λ d, Load d a);
  CreateStore x a f := (x, append (Store x a) f);
  CreateCallPrint x f := (x, append (Print x) f);
  CreateCallScan := define Scan;
  CreateCondBr v b1 b2 := finish (JCond v b1 b2);
  CreateBr b := finish (JBr b);
  CreateRetVoid := finish JRet }.

Section exec.
Abbreviation machine := (@machine list_builder) (only parsing).

Definition word_of (m : machine) (v : value) : option word :=
  match v with Const w => Some w | Reg _ => regs m v end.

Definition set_reg (d : nat) (w : word) (m : machine) : machine :=
  Machine (λ v, if decide (v = Reg d) then Some w else regs m v) (mem m) (input m) (output m).

Definition exec_instruction (i : instruction) (m : machine) : option machine :=
  match i with
  | Bin d op a b =>
    x ← word_of m a; y ← word_of m b; w ← bin_result op x y; Some (set_reg d w m)
  | ICmp d p a b =>
    x ← word_of m a; y ← word_of m b; w ← icmp_result p x y; Some (set_reg d w m)
  | Not d a => x ← word_of m a; Some (set_reg d (not_result x) m)
  | Alloca d =>
    Some (Machine (regs m) (λ q, if decide (q = Reg d) then Some None else mem m q) (input m) (output m))
  | Load d a =>
    match mem m a with
    | Some (Some w) => Some (set_reg d w m)
    | Some None => Some (Machine (λ v, if decide (v = Reg d) then None else regs m v) (mem m) (input m) (output m))
    | None => None
    end
  | Store x a =>
    w ← word_of m x; _ ← mem m a;
    Some (Machine (regs m) (λ q, if decide (q = a) then Some (Some w) else mem m q) (input m) (output m))
  | Print x =>
    match word_of m x with
    | Some (I32 z) => Some (Machine (regs m) (mem m) (input m) (__pcl_print z (output m)))
    | _ => None
    end
  | Scan d =>
    '(z, inp) ← __pcl_scan (input m);
    Some (set_reg d (I32 z) (Machine (regs m) (mem m) inp (output m)))
  end.
End exec.

#[export] Instance list_view : IRView := {
  instr := instruction;
  exec := exec_instruction;
  constant v := match v with Const w => Some w | Reg _ => None end;
  code := body;
  term f b := match jumps f !! b with
    | Some (JBr b) => Some (Br b)
    | Some (JCond v b1 b2) => Some (CondBr v b1 b2)
    | Some JRet => Some RetVoid
    | None => None end;
  here := current;
  entry := 0%nat;
  has_block f b := (b < next_block f)%nat;
  known f v := match v with Const _ => True | Reg r => (r < next_reg f)%nat end }.

Section laws.
Implicit Types (f : func) (b : nat) (v : value).

Lemma val_word_of m v : val m v = word_of m v.
Proof. by destruct v. Qed.

Lemma body_insert_at b b' js f : body (insert_at b js f) b' = if decide (b' = b) then js else body f b'.
Proof.
  unfold body. cbn. destruct (decide (b' = b)) as [->|Hne]; [by rewrite lookup_insert_eq|].
  by rewrite lookup_insert_ne.
Qed.

Lemma append_emits i f : emits f (append i f) [i].
Proof.
  split; try done. intros b. change (body (append i f) b = if decide (b = current f) then body f b ++ [i] else body f b).
  unfold append. rewrite body_insert_at. repeat case_decide; congruence.
Qed.

Lemma define_emits g f : emits f (snd (define g f)) [g (next_reg f)].
Proof.
  destruct (append_emits (g (next_reg f)) f) as [H1 H2 H3 H4 H5]. split; try done.
  intros [w|r] Hr; [done|]. cbn in *. lia.
Qed.

Lemma set_reg_keeps f w m : keeps f m (set_reg (next_reg f) w m).
Proof.
  split; try done. intros [c|r] Hr; [done|]. unfold val. cbn in *.
  rewrite decide_False; [done|]. intros [= ->]. lia.
Qed.

Lemma set_reg_val d w m : val (set_reg d w m) (Reg d) = Some w.
Proof. unfold val. cbn. by rewrite decide_True. Qed.

Lemma define_computes g f (pre : machine → word → Prop) v f' :
  define g f = (v, f') →
  (∀ m w, pre m w → exec_instruction (g (next_reg f)) m = Some (set_reg (next_reg f) w m)) →
  computes f f' v pre.
Proof.
  intros Hd Hex. pose proof (define_emits g f) as He. rewrite Hd in He.
  injection Hd as <- <-. split; [cbn; lia|]. eexists. split; [exact He|].
  intros m w Hw. cbn [execs exec list_view]. rewrite (Hex m w Hw).
  eexists. split; [done|]. split; [apply set_reg_keeps|apply set_reg_val].
Qed.

Lemma finish_ends f j t : term (finish j f) (current f) = Some t → ends f (finish j f) t.
Proof.
  intros Ht. split; try done. intros b. cbn.
  case_decide as Hb; [by subst b|]. by rewrite lookup_insert_ne.
Qed.
End laws.

#[export] Instance list_documented : IRDocumented.
Proof.
  split.
  - intros b f [= <- <-]. split; [done|]. split; [done|]. split; [done|]. cbn. lia.
  - intros b f f' [= <- <-]. cbn. unfold body. cbn. rewrite !lookup_delete_eq.
    split; [lia|]. split; [done|]. split; [done|]. split; [done|]. split; [|split; [lia|done]].
    intros c Hc. by rewrite !lookup_delete_ne.
  - done.
  - done.
  - intros op a b f v f' Hd. apply (define_computes _ _ _ _ _ Hd). intros m w (x & y & Ha & Hb & Hw).
    rewrite val_word_of in Ha, Hb. cbn. by rewrite Ha, Hb; cbn; rewrite Hw.
  - intros p a b f v f' Hd. apply (define_computes _ _ _ _ _ Hd). intros m w (x & y & Ha & Hb & Hw).
    rewrite val_word_of in Ha, Hb. cbn. by rewrite Ha, Hb; cbn; rewrite Hw.
  - intros a f v f' Hd. apply (define_computes _ _ _ _ _ Hd). intros m w (x & Ha & ->).
    rewrite val_word_of in Ha. cbn. by rewrite Ha.
  - intros a f v f' Hd. pose proof (define_emits (λ d, Load d a) f) as He. cbn in Hd. rewrite Hd in He.
    injection Hd as <- <-. split; [cbn; lia|]. eexists. split; [exact He|].
    intros m o Ha. cbn. rewrite Ha. destruct o as [w|]; (eexists; split; [done|]; split).
    + apply set_reg_keeps.
    + intros w' [= ->]. apply set_reg_val.
    + split; try done. intros [c|r] Hr; [done|]. unfold val. cbn in *.
      rewrite decide_False; [done|]. intros [= ->]. lia.
    + done.
  - intros x a f v f' [= <- <-]. eexists. split; [apply append_emits|].
    intros m m1 (w & o & Hx & Ha & ->). rewrite val_word_of in Hx. cbn. rewrite Hx. cbn. rewrite Ha. by eexists.
  - intros f v f' [= <- <-]. cbn. split; [lia|]. split; [lia|]. split; [done|].
    split; [|split; [done|split]].
    + intros b. split; [done|]. intros Hb. unfold body. cbn. by rewrite lookup_insert_ne.
    + intros [w|r]; cbn; [done|lia].
    + exists [Alloca (next_reg f)]. unfold body at 1. cbn. rewrite lookup_insert_eq. split; [done|].
      intros m. eexists. split; [done|]. cbn. split; [by rewrite decide_True|].
      split; [|done]. intros q Hq. by rewrite decide_False.
  - intros a f v f' [= <- <-]. eexists. split; [apply append_emits|].
    intros m m1 (z & Hx & ->). rewrite val_word_of in Hx. cbn. rewrite Hx. by eexists.
  - intros f v f' Hd. pose proof (define_emits Scan f) as He. cbn in Hd. rewrite Hd in He.
    injection Hd as <- <-. split; [cbn; lia|]. eexists. split; [exact He|].
    intros m z inp Hin. cbn. rewrite Hin. eexists. split; [done|].
    split; [apply (set_reg_keeps f (I32 z))|apply set_reg_val].
  - intros v b1 b2 f. apply finish_ends. cbn. by rewrite lookup_insert_eq.
  - intros b f. apply finish_ends. cbn. by rewrite lookup_insert_eq.
  - intros f. apply finish_ends. cbn. by rewrite lookup_insert_eq.
Qed.
