(* ===== verification/Pcl.v ===== *)
(** * The ParaCL compiler of [src/15-llvm/naive-pcl]

    The nodes live in a store, for they are shared (a declaration), changed while the
    program is parsed (the branches of a scope) and deleted. [calc] interprets them,
    [codegen] builds an LLVM function from them; [CODEGEN] is the macro that chooses.
    The tables that bison and flex generate are not in the repository: a program
    arrives as its derivation in the grammar, and the actions of [compiler.y] are run
    in the order of the reductions. *)

From stdpp Require Import pretty.
From S2P Require Import Prelude Llvm.

Abbreviation ptr := nat (only parsing).

(** ** Nodes *)
Inductive Operation :=
| Plus | Minus | Assign | Greater | Less | GreaterEq | LessEq | StdOut | StdIn
| Equal | NotEqual | Div | Mul | Mod | Not | And | Or.

#[export] Instance Operation_eq_dec : EqDecision Operation.
Proof. solve_decision. Defined.

(** A declaration has no value until the first assignment. Null is [0]. *)
Inductive node :=
| Value (Val_ : Z)
| Decl (Val_ : option Z) (Varname_ : string)
| Scope (Branches_ : list ptr) (PrevScope_ : ptr)
| Operand (Left_ : ptr) (Op_ : Operation) (Right_ : ptr)
| While (Op_ Scope_ : ptr)
| If (Op_ Scope_ : ptr).

(** ** [Symtab.hpp] *)
Abbreviation Symtab_local := (gmap string ptr) (only parsing).
Abbreviation Symtab := (gmap ptr (gmap string ptr)) (only parsing).

Definition local_add (Symbol : string) (Node : ptr) (Symbols_ : Symtab_local) : Symtab_local :=
  <[Symbol := Node]> Symbols_.

Definition local_find (Symbol : string) (Symbols_ : Symtab_local) : ptr :=
  match Symbols_ !! Symbol with Some n => n | None => 0%nat end.

Definition symtab_add (Scope : ptr) (Symbol : string) (N : ptr) (Tables_ : Symtab) : Symtab :=
  <[Scope := local_add Symbol N (default ∅ (Tables_ !! Scope))]> Tables_.

Definition symtab_exists (Scope : ptr) (Symbol : string) (Tables_ : Symtab) : ptr :=
  match Tables_ !! Scope with Some t => local_find Symbol t | None => 0%nat end.

(** ** The state of the program: the nodes, the global variables and the streams

    [cin] are the integers that can still be read, [cout] the lines written. *)
Section pcl.
Context `{IRBuilder}.

Record CodeGen := Gen {
  Module_ : list string;
  Function_ : option F;
  NamedValues_ : gmap string V }.

Record pstate := PState {
  nodes : gmap ptr node;
  brk : ptr;
  GlobalTable : Symtab;
  CurrentScope : ptr;
  GlobalGen : option CodeGen;
  cin : list Z;
  cout : list string }.

Definition set_nodes n s := PState n (brk s) (GlobalTable s) (CurrentScope s) (GlobalGen s) (cin s) (cout s).
Definition set_table t s := PState (nodes s) (brk s) t (CurrentScope s) (GlobalGen s) (cin s) (cout s).
Definition set_scope c s := PState (nodes s) (brk s) (GlobalTable s) c (GlobalGen s) (cin s) (cout s).
Definition set_gen g s := PState (nodes s) (brk s) (GlobalTable s) (CurrentScope s) g (cin s) (cout s).
Definition set_cin i s := PState (nodes s) (brk s) (GlobalTable s) (CurrentScope s) (GlobalGen s) i (cout s).

Definition println (l : string) : C pstate () :=
  modify (λ s, PState (nodes s) (brk s) (GlobalTable s) (CurrentScope s) (GlobalGen s) (cin s) (cout s ++ [l])).

Definition new (n : node) : C pstate ptr := λ s,
  Some (brk s, PState (<[brk s := n]> (nodes s)) (S (brk s)) (GlobalTable s) (CurrentScope s)
                 (GlobalGen s) (cin s) (cout s)).

Definition node_at (p : ptr) : C pstate node := s ← get; of_option (nodes s !! p).
Definition set_node (p : ptr) (n : node) : C pstate () :=
  _ ← node_at p; modify (λ s, set_nodes (<[p := n]> (nodes s)) s).
Definition free (p : ptr) : C pstate () :=
  _ ← node_at p; modify (λ s, set_nodes (delete p (nodes s)) s).

Fixpoint each (f : ptr → X pstate ()) (ps : list ptr) : X pstate () :=
  match ps with [] => mret () | p :: ps => f p;; each f ps end.

(** [INode.hpp]: the functions that make nodes *)
Definition makeValue (v : Z) : C pstate ptr := new (Value v).
Definition makeOperand (Lhs : ptr) (Op : Operation) (Rhs : ptr) : C pstate ptr := new (Operand Lhs Op Rhs).
Definition makeWhile (Op Scope_ : ptr) : C pstate ptr := new (While Op Scope_).
Definition makeIf (Op Scope_ : ptr) : C pstate ptr := new (If Op Scope_).
Definition createScope : C pstate ptr := new (Scope [] 0).

(** ** Scopes *)
Definition scope_at (p : ptr) : C pstate (list ptr * ptr) :=
  n ← node_at p;
  match n with Scope bs prev => mret (bs, prev) | _ => undefined end.

Definition push (this : ptr) : C pstate ptr := new (Scope [] this).
Definition resetScope (this : ptr) : C pstate ptr := '(_, prev) ← scope_at this; mret prev.
Definition addBranch (this Branch : ptr) : C pstate () :=
  '(bs, prev) ← scope_at this; set_node this (Scope (bs ++ [Branch]) prev).

(** [fuel] bounds the number of enclosing scopes. *)
Fixpoint visible (fuel : nat) (this : ptr) (VarName : string) : C pstate ptr :=
  match fuel with
  | O => undefined
  | S fuel =>
    s ← get;
    let f := symtab_exists this VarName (GlobalTable s) in
    if negb (f =? 0)%nat then mret f
    else
      '(_, prev) ← scope_at this;
      if negb (prev =? 0)%nat then visible fuel prev VarName else mret f
  end.

(** ** The code generator, [Codegen.hpp] and [Codegen.cc] *)
Definition gen : C pstate CodeGen := s ← get; of_option (GlobalGen s).

(** A call of the builder on the function under construction. *)
Definition build {A} (op : F → A * F) : C pstate A :=
  g ← gen;
  f ← of_option (Function_ g);
  let (a, f') := op f in
  modify (set_gen (Some (Gen (Module_ g) (Some f') (NamedValues_ g))));;
  mret a.

Definition build_ (op : F → F) : C pstate () := build (λ f, ((), op f)).

Definition createCodeGen : CodeGen := Gen ["__pcl_print"; "__pcl_scan"] None ∅.

Definition StartFunction : C pstate () :=
  g ← gen;
  let (b, f) := BasicBlock_Create Function_Create in
  modify (set_gen (Some (Gen (Module_ g) (Some (SetInsertPoint b f)) (NamedValues_ g)))).

Definition EndCurrentFunction : C pstate () := build_ CreateRetVoid.

Definition AddDecl (Varname : string) : C pstate () :=
  a ← build CreateAlloca;
  g ← gen;
  modify (set_gen (Some (Gen (Module_ g) (Function_ g) (<[Varname := a]> (NamedValues_ g))))).

(** [NamedValues_[Varname]] and the [assert] that it is there. *)
Definition named (Varname : string) : C pstate V := g ← gen; of_option (NamedValues_ g !! Varname).

Definition AddDeclRead (Varname : string) : C pstate V := a ← named Varname; build (CreateLoad a).
Definition AddDeclWrite (Varname : string) (Rhs : V) : C pstate V := a ← named Varname; build (CreateStore Rhs a).

Definition StartIf (CondV : V) : C pstate BB :=
  ThenBB ← build BasicBlock_Create;
  MergeBB ← build BasicBlock_Create;
  build_ (CreateCondBr CondV ThenBB MergeBB);;
  build_ (SetInsertPoint ThenBB);;
  mret MergeBB.

Definition EndIf (MergeBB : BB) : C pstate () :=
  build_ (CreateBr MergeBB);;
  build_ (SetInsertPoint MergeBB).

Definition StartWhile (CondV : V) : C pstate (BB * BB) :=
  BodyBB ← build BasicBlock_Create;
  MergeBB ← build BasicBlock_Create;
  build_ (CreateCondBr CondV BodyBB MergeBB);;
  build_ (SetInsertPoint BodyBB);;
  mret (BodyBB, MergeBB).

Definition EndWhile (CondV : V) (BBs : BB * BB) : C pstate () :=
  build_ (CreateCondBr CondV BBs.1 BBs.2);;
  build_ (SetInsertPoint BBs.2).

(** [Module_->getFunction(Name)] and the [assert] on it *)
Definition getFunction (Name : string) : C pstate () :=
  g ← gen; assert (bool_decide (Name ∈ Module_ g)).

(** Null operands are replaced where the code does, and have no behaviour elsewhere. *)
Definition AddOperation (Op : Operation) (LeftV RightV : option V) : X pstate V :=
  let unary (create : V → F → V * F) : X pstate V := call (r ← of_option RightV; build (create r)) in
  let binary (create : V → V → F → V * F) : X pstate V :=
    call (l ← of_option LeftV; r ← of_option RightV; build (create l r)) in
  match Op with
  | Plus => unary (CreateBin Add (default (ConstantInt_get 0) LeftV))
  | Minus => unary (CreateBin Sub (default (ConstantInt_get 0) LeftV))
  | Greater => binary (CreateICmp SGT)
  | Less => binary (CreateICmp SLT)
  | GreaterEq => binary (CreateICmp SGE)
  | LessEq => binary (CreateICmp SLE)
  | StdOut => call (getFunction "__pcl_print");; unary CreateCallPrint
  | StdIn => call (getFunction "__pcl_scan");; call (build CreateCallScan)
  | Equal => binary (CreateICmp EQ)
  | NotEqual => binary (CreateICmp NE)
  | Not => unary CreateNot
  | And => binary (CreateBin BitAnd)
  | Or => binary (CreateBin BitOr)
  | Div => binary (CreateBin SDiv)
  | Mul => binary (CreateBin Llvm.Mul)
  | Mod => binary (CreateBin SRem)
  | Assign => throw (runtime_error "Node::Operation not implemented")
  end.

(** *** [codegen] of the nodes; [fuel] bounds the depth of the tree *)
Definition some_value (m : X pstate (option V)) : X pstate V := v ← m; call (of_option v).
Definition no_value (m : X pstate ()) : X pstate (option V) := m;; mret None.
Definition as_value (m : X pstate V) : X pstate (option V) := v ← m; mret (Some v).

Definition Value_codegen (v : Z) : X pstate (option V) := mret (Some (ConstantInt_get v)).
Definition Decl_codegen (name : string) : X pstate (option V) := as_value (call (AddDeclRead name)).
Definition Decl_assign (name : string) (Rhs : V) : C pstate V := AddDeclWrite name Rhs.

Definition Scope_codegen (gen_code : ptr → X pstate (option V)) (Branches_ : list ptr) : X pstate (option V) :=
  no_value (each (λ b, _ ← gen_code b; mret ()) Branches_).

Definition Operand_codegen (gen_code : ptr → X pstate (option V)) (Left_ : ptr) (Op_ : Operation) (Right_ : ptr) :
    X pstate (option V) :=
  LeftV ← (if (Left_ =? 0)%nat then mret None else gen_code Left_);
  RightV ← (if (Right_ =? 0)%nat then mret None else gen_code Right_);
  if decide (Op_ = Assign) then
    d ← call (node_at Left_);
    match d with
    | Decl _ name => as_value (v ← call (of_option RightV); call (Decl_assign name v))
    | _ => call undefined
    end
  else as_value (AddOperation Op_ LeftV RightV).

Definition While_codegen (gen_code : ptr → X pstate (option V)) (Op_ Scope_ : ptr) : X pstate (option V) :=
  CondV ← some_value (gen_code Op_);
  BBs ← call (StartWhile CondV);
  gen_code Scope_;;
  CondVNew ← some_value (gen_code Op_);
  no_value (call (EndWhile CondVNew BBs)).

Definition If_codegen (gen_code : ptr → X pstate (option V)) (Op_ Scope_ : ptr) : X pstate (option V) :=
  CondV ← some_value (gen_code Op_);
  MergeBB ← call (StartIf CondV);
  gen_code Scope_;;
  no_value (call (EndIf MergeBB)).

Fixpoint codegen (fuel : nat) (this : ptr) : X pstate (option V) :=
  match fuel with
  | O => call undefined
  | S fuel =>
    n ← call (node_at this);
    match n with
    | Value v => Value_codegen v
    | Decl _ name => Decl_codegen name
    | Scope bs _ => Scope_codegen (codegen fuel) bs
    | Operand l op r => Operand_codegen (codegen fuel) l op r
    | While c b => While_codegen (codegen fuel) c b
    | If c b => If_codegen (codegen fuel) c b
    end
  end.

(** ** The interpreter

    [left_first op] is the order in which the compiler of the repository evaluates the
    operands of [op], which C++ leaves open. *)
Section calc.
Variable left_first : Operation → bool.

(** Signed overflow has no behaviour. *)
Definition int (z : Z) : X pstate Z := if int_fits z then mret z else call undefined.

(** [std::cin >> Val] on a [Val] of zero: nothing is stored once the stream has failed. *)
Definition read : X pstate Z :=
  s ← call get;
  match cin s with
  | z :: i => call (modify (set_cin i));; mret z
  | [] => mret 0
  end.

Definition SetValue (p : ptr) (v : Z) : X pstate () :=
  d ← call (node_at p);
  match d with
  | Decl _ name => call (set_node p (Decl (Some v) name))
  | _ => call undefined
  end.

Definition operands (ev : ptr → X pstate Z) (op : Operation) (l r : ptr) : X pstate (Z * Z) :=
  if left_first op then (x ← ev l; y ← ev r; mret (x, y)) else (y ← ev r; x ← ev l; mret (x, y)).

Definition calc_operand (ev : ptr → X pstate Z) (Left_ : ptr) (Op_ : Operation) (Right_ : ptr) : X pstate Z :=
  let compare (f : Z → Z → bool) : X pstate Z :=
    '(x, y) ← operands ev Op_ Left_ Right_; mret (Z.b2z (f x y)) in
  match Op_ with
  | Plus =>
    if (Left_ =? 0)%nat then ev Right_ else '(x, y) ← operands ev Op_ Left_ Right_; int (x + y)
  | Minus =>
    if (Left_ =? 0)%nat then (y ← ev Right_; int (- y))
    else '(x, y) ← operands ev Op_ Left_ Right_; int (x - y)
  | Greater => compare (λ x y, y <? x)
  | Less => compare Z.ltb
  | GreaterEq => compare (λ x y, y <=? x)
  | LessEq => compare Z.leb
  | Assign => Val ← ev Right_; SetValue Left_ Val;; mret Val
  | StdOut => Val ← ev Right_; call (println (pretty Val));; mret 0
  | StdIn => read
  | Equal => compare Z.eqb
  | NotEqual => compare (λ x y, negb (x =? y))
  | Not => y ← ev Right_; mret (Z.b2z (y =? 0))
  | And => x ← ev Left_; if x =? 0 then mret 0 else (y ← ev Right_; mret (Z.b2z (negb (y =? 0))))
  | Or => x ← ev Left_; if x =? 0 then (y ← ev Right_; mret (Z.b2z (negb (y =? 0)))) else mret 1
  | Div =>
    Val ← ev Right_;
    if Val =? 0 then throw (runtime_error "Division by zero")
    else
      '(x, y) ← operands ev Op_ Left_ Right_;
      if y =? 0 then call undefined else int (Z.quot x y)
  | Mul => '(x, y) ← operands ev Op_ Left_ Right_; int (x * y)
  | Mod =>
    '(x, y) ← operands ev Op_ Left_ Right_;
    if (y =? 0) || negb (int_fits (Z.quot x y)) then call undefined else mret (Z.rem x y)
  end.

Definition Value_calc (Val_ : Z) : X pstate Z := mret Val_.
Definition Decl_calc (Val_ : option Z) : X pstate Z := call (of_option Val_).

Definition Scope_calc (ev : ptr → X pstate Z) (Branches_ : list ptr) : X pstate Z :=
  each (λ b, _ ← ev b; mret ()) Branches_;; mret 0.

(** [again] is the next test of the loop. *)
Definition While_calc (ev : ptr → X pstate Z) (again : X pstate Z) (Op_ Scope_ : ptr) : X pstate Z :=
  x ← ev Op_;
  if x =? 0 then mret 0 else (ev Scope_;; again).

Definition If_calc (ev : ptr → X pstate Z) (Op_ Scope_ : ptr) : X pstate Z :=
  x ← ev Op_; if x =? 0 then mret 0 else (ev Scope_;; mret 0).

(** [fuel] bounds the depth of the tree and the iterations of its loops. *)
Fixpoint calc (fuel : nat) (this : ptr) : X pstate Z :=
  match fuel with
  | O => call undefined
  | S fuel =>
    n ← call (node_at this);
    match n with
    | Value v => Value_calc v
    | Decl v _ => Decl_calc v
    | Scope bs _ => Scope_calc (calc fuel) bs
    | Operand l op r => calc_operand (calc fuel) l op r
    | While c b => While_calc (calc fuel) (calc fuel this) c b
    | If c b => If_calc (calc fuel) c b
    end
  end.
End calc.

(** ** [dump]; a null right operand is dereferenced *)
Definition Operation_name (op : Operation) : string :=
  match op with
  | Plus => "Plus" | Minus => "Minus" | Greater => "Greater" | Less => "Less" | Assign => "Assign"
  | StdOut => "StdOut" | StdIn => "StdIn" | Equal => "Equal" | _ => "Unknown"
  end.

Definition Value_dump (v : Z) : X pstate () := call (println ("Node Value: " +:+ pretty v)).
Definition Decl_dump (v : option Z) : X pstate () :=
  v ← call (of_option v); call (println ("Node Decl: " +:+ pretty v)).
Definition Scope_dump (dump : ptr → X pstate ()) (Branches_ : list ptr) : X pstate () :=
  call (println "Node Scope: ");; each dump Branches_.
Definition Operand_dump (dump : ptr → X pstate ()) (Left_ : ptr) (Op_ : Operation) (Right_ : ptr) : X pstate () :=
  call (println ("Node Operand: " +:+ Operation_name Op_));;
  (if (Left_ =? 0)%nat then mret () else dump Left_);;
  dump Right_.
Definition While_dump (dump : ptr → X pstate ()) (Scope_ : ptr) : X pstate () :=
  call (println "Node While ");; dump Scope_.
Definition If_dump (dump : ptr → X pstate ()) (Scope_ : ptr) : X pstate () :=
  call (println "Node If ");; dump Scope_.

Fixpoint dump (fuel : nat) (this : ptr) : X pstate () :=
  match fuel with
  | O => call undefined
  | S fuel =>
    n ← call (node_at this);
    match n with
    | Value v => Value_dump v
    | Decl v _ => Decl_dump v
    | Scope bs _ => Scope_dump (dump fuel) bs
    | Operand l op r => Operand_dump (dump fuel) l op r
    | While _ b => While_dump (dump fuel) b
    | If _ b => If_dump (dump fuel) b
    end
  end.

(** ** Destructors *)
Definition is_decl (n : node) : bool := match n with Decl _ _ => true | _ => false end.

Fixpoint each_ (f : ptr → C pstate ()) (ps : list ptr) : C pstate () :=
  match ps with [] => mret () | p :: ps => f p;; each_ f ps end.

(** [Symtab_local::free] leaves the empty table that is returned. *)
Definition local_free (Symbols_ : Symtab_local) : C pstate Symtab_local :=
  each_ free (map_to_list Symbols_).*2;; mret ∅.

(** [Symtab::free]: the table of the scope is emptied; its entry stays. *)
Definition symtab_free (this : ptr) : C pstate () :=
  s ← get;
  match GlobalTable s !! this with
  | None => mret ()
  | Some t => t' ← local_free t; modify (λ s, set_table (<[this := t']> (GlobalTable s)) s)
  end.

(** [if (p && typeid(Decl) != typeid( *p)) delete p;] *)
Definition unless_decl (delete_node : ptr → C pstate ()) (p : ptr) : C pstate () :=
  if (p =? 0)%nat then mret ()
  else (n ← node_at p; if is_decl n then mret () else delete_node p).

Definition Scope_dtor (delete_node : ptr → C pstate ()) (this : ptr) (Branches_ : list ptr) : C pstate () :=
  each_ delete_node Branches_;; symtab_free this.

Definition Operand_dtor (delete_node : ptr → C pstate ()) (Left_ Right_ : ptr) : C pstate () :=
  unless_decl delete_node Left_;; unless_decl delete_node Right_.

Definition While_dtor (delete_node : ptr → C pstate ()) (Op_ Scope_ : ptr) : C pstate () :=
  unless_decl delete_node Op_;; delete_node Scope_.

Definition If_dtor (delete_node : ptr → C pstate ()) (Op_ Scope_ : ptr) : C pstate () :=
  unless_decl delete_node Op_;; delete_node Scope_.

(** [delete]; [fuel] bounds the depth of the tree. *)
Fixpoint delete_node (fuel : nat) (this : ptr) : C pstate () :=
  match fuel with
  | O => undefined
  | S fuel =>
    if (this =? 0)%nat then mret ()
    else
      n ← node_at this;
      match n with
      | Value _ | Decl _ _ => mret ()
      | Scope bs _ => Scope_dtor (delete_node fuel) this bs
      | Operand l _ r => Operand_dtor (delete_node fuel) l r
      | While c b => While_dtor (delete_node fuel) c b
      | If c b => If_dtor (delete_node fuel) c b
      end;;
      free this
  end.
End pcl.
