(* ===== verification/PclMain.v ===== *)
(** * The actions of [compiler.y] and the driver [driver.cc]

    A program is given as its derivation in the grammar; [yyparse] runs the actions in
    the order in which bison reduces. *)

From S2P Require Import Prelude Llvm Pcl.

(** ** The grammar *)
Inductive arith := APlus | AMinus | AMul | ADiv | AMod.
Inductive relop := REqual | RNotEqual | RLess | RGreater | RLessEq | RGreaterEq.

Definition arith_op (a : arith) : Operation :=
  match a with APlus => Plus | AMinus => Minus | AMul => Mul | ADiv => Div | AMod => Mod end.

(** The operation that the scanner attaches to a [RELOP]. *)
Definition relop_op (r : relop) : Operation :=
  match r with
  | REqual => Equal | RNotEqual => NotEqual | RLess => Less | RGreater => Greater
  | RLessEq => LessEq | RGreaterEq => GreaterEq
  end.

Inductive expr :=
| EBin (op : arith) (a b : expr)
| ENeg (a : expr)
| EName (name : string)
| EValue (value : Z)
| EInput
| EParen (a : expr).

Inductive lexpr :=
| LExpr (a : expr)
| LRel (op : relop) (a b : expr)
| LOr (a b : lexpr)
| LAnd (a b : lexpr)
| LNot (a : lexpr)
| LParen (a : lexpr).

Inductive stm :=
| SAssign (name : string) (e : expr)
| SIf (c : lexpr) (b : body)
| SWhile (c : lexpr) (b : body)
| SOutput (e : expr)
with body := BStm (s : stm) | BScope (ss : stms)
with stms := One (s : stm) | AddStm (ss : stms) (s : stm) | AddScope (ss scope : stms).

Section actions.
Context `{IRBuilder}.
Variable CODEGEN : bool.

(** ** [Scope::access] and the current scope *)
Definition access (this : ptr) (VarName : string) : C pstate ptr :=
  s ← get;
  Existing ← visible (brk s) this VarName;
  if negb (Existing =? 0)%nat then mret Existing
  else
    NewDecl ← new (Decl None VarName);
    (if CODEGEN then AddDecl VarName else mret ());;
    modify (λ s, set_table (symtab_add this VarName NewDecl (GlobalTable s)) s);;
    mret NewDecl.

Definition current : C pstate ptr := s ← get; mret (CurrentScope s).
Definition set_current (p : ptr) : C pstate () := modify (set_scope p).

Definition enter_scope : C pstate () := c ← current; p ← push c; set_current p.
Definition leave_scope : C pstate () := c ← current; p ← resetScope c; set_current p.
Definition add_branch (p : ptr) : C pstate () := c ← current; addBranch c p.

(** [open_sc stms close_sc] *)
Definition in_scope (stms : X pstate ()) : X pstate ptr :=
  call enter_scope;; stms;; cur ← call current; call leave_scope;; mret cur.

Definition PrintError {A} (Errmsg : string) : X pstate A := throw (runtime_error "parse error").

(** ** The actions *)
Fixpoint act_expr (e : expr) : X pstate ptr :=
  match e with
  | EBin op a b => l ← act_expr a; r ← act_expr b; call (makeOperand l (arith_op op) r)
  | ENeg a => r ← act_expr a; z ← call (makeValue 0); call (makeOperand z Minus r)
  | EName x =>
    c ← call current;
    s ← call get;
    p ← call (visible (brk s) c x);
    if (p =? 0)%nat then PrintError "Using undeclared variable" else mret p
  | EValue v => call (makeValue v)
  | EInput => call (makeOperand 0 StdIn 0)
  | EParen a => act_expr a
  end.

Fixpoint act_lexpr (e : lexpr) : X pstate ptr :=
  match e with
  | LExpr a => act_expr a
  | LRel op a b => l ← act_expr a; r ← act_expr b; call (makeOperand l (relop_op op) r)
  | LOr a b => l ← act_lexpr a; r ← act_lexpr b; call (makeOperand l Or r)
  | LAnd a b => l ← act_lexpr a; r ← act_lexpr b; call (makeOperand l And r)
  | LNot a => r ← act_lexpr a; call (makeOperand 0 Not r)
  | LParen a => act_lexpr a
  end.

Fixpoint act_stm (s : stm) : X pstate ptr :=
  match s with
  | SAssign x e =>
    c ← call current; l ← call (access c x);
    r ← act_expr e;
    call (makeOperand l Assign r)
  | SIf e b =>
    c ← act_lexpr e; call enter_scope;;  (* if_head *)
    p ← act_body b; call (add_branch p);;
    cur ← call current; n ← call (makeIf c cur);
    call leave_scope;;  (* oper: if *)
    mret n
  | SWhile e b =>
    c ← act_lexpr e; call enter_scope;;
    p ← act_body b; call (add_branch p);;
    cur ← call current; n ← call (makeWhile c cur);
    call leave_scope;;
    mret n
  | SOutput e => r ← act_expr e; call (makeOperand 0 StdOut r)
  end
with act_body (b : body) : X pstate ptr :=
  match b with BStm s => act_stm s | BScope ss => in_scope (act_stms ss) end
with act_stms (ss : stms) : X pstate () :=
  match ss with
  | One s => p ← act_stm s; call (add_branch p)
  | AddStm ss s => act_stms ss;; p ← act_stm s; call (add_branch p)
  | AddScope ss scope => act_stms ss;; p ← in_scope (act_stms scope); call (add_branch p)
  end.

(** ** The driver

    [fuel] bounds the run of the program, [depth] the deletion of its tree. *)
Variable left_first : Operation → bool.
Variables fuel depth : nat.

Definition wholeProgramAction : X pstate () :=
  c ← call current;
  if CODEGEN then (_ ← codegen fuel c; mret ()) else (_ ← calc left_first fuel c; mret ()).

Definition yyparse (program : stms) : X pstate () := act_stms program;; wholeProgramAction.

Definition OpenFile (file : option stms) : X pstate stms :=
  match file with Some p => mret p | None => throw (runtime_error "No input file exists") end.

(** The body of [main]; [file] is the content of the file if it exists, [ModuleName]
    the name of the file that [SaveModule] prints the function to. *)
Definition main_body (file : option stms) (ModuleName : string) : X pstate () :=
  program ← OpenFile file;
  owner ← call createScope;
  call (set_current owner);;
  on_throw (
    (if CODEGEN then
       call (modify (set_gen (Some createCodeGen)));; call StartFunction
     else mret ());;
    yyparse program;;
    (if CODEGEN then
       call EndCurrentFunction;; call (println ("Saving module to: " +:+ ModuleName))
     else mret ()))
    (delete_node depth owner);;
  call (delete_node depth owner).

Definition start_state (inp : list Z) : pstate := PState ∅ 1 ∅ 0 None inp [].

(** What is caught at the end of [main], if anything, and the state it leaves. *)
Definition main (file : option stms) (ModuleName : string) (inp : list Z) : option (result () * pstate) :=
  main_body file ModuleName (start_state inp).
End actions.
