(* ===== verification/PclTree.v ===== *)
(** * Programs of ParaCL as trees, and what they mean

    [tree] is the tree of nodes reachable from a node, with their addresses; [holds]
    says that the store contains it. [beval] is the meaning of a tree, in which every
    operand is evaluated once; [calc] computes it on the nodes of the store. *)

From stdpp Require Import pretty.
From S2P Require Import Prelude Llvm Pcl.

(** ** Trees

    A scope owns the declarations [ds] of its table. *)
Inductive tree :=
| TVal (p : ptr) (v : Z)
| TVar (d : ptr) (x : string)
| TIn (p : ptr)
| TUn (p : ptr) (op : Operation) (r : tree)
| TBin (p : ptr) (l : tree) (op : Operation) (r : tree)
| TWhile (p : ptr) (c b : tree)
| TIf (p : ptr) (c b : tree)
| TScope (p prev : ptr) (ds : list (string * ptr)) (bs : list tree).

Section tree_ind.
Variable P : tree → Prop.
Hypothesis HVal : ∀ p v, P (TVal p v).
Hypothesis HVar : ∀ d x, P (TVar d x).
Hypothesis HIn : ∀ p, P (TIn p).
Hypothesis HUn : ∀ p op r, P r → P (TUn p op r).
Hypothesis HBin : ∀ p l op r, P l → P r → P (TBin p l op r).
Hypothesis HWhile : ∀ p c b, P c → P b → P (TWhile p c b).
Hypothesis HIf : ∀ p c b, P c → P b → P (TIf p c b).
Hypothesis HScope : ∀ p prev ds bs, Forall P bs → P (TScope p prev ds bs).

Fixpoint tree_induction (t : tree) : P t :=
  match t with
  | TVal p v => HVal p v
  | TVar d x => HVar d x
  | TIn p => HIn p
  | TUn p op r => HUn p op r (tree_induction r)
  | TBin p l op r => HBin p l op r (tree_induction l) (tree_induction r)
  | TWhile p c b => HWhile p c b (tree_induction c) (tree_induction b)
  | TIf p c b => HIf p c b (tree_induction c) (tree_induction b)
  | TScope p prev ds bs => HScope p prev ds bs
      ((fix all bs : Forall P bs :=
          match bs with
          | [] => Forall_nil_2 P
          | b :: bs => Forall_cons_2 P b bs (tree_induction b) (all bs)
          end) bs)
  end.
End tree_ind.

Definition root (t : tree) : ptr :=
  match t with
  | TVal p _ | TVar p _ | TIn p | TUn p _ _ | TBin p _ _ _ | TWhile p _ _ | TIf p _ _ | TScope p _ _ _ => p
  end.

(** The nodes of a tree that are not declarations, the declarations it owns, and the
    declarations it mentions. *)
Fixpoint entries (t : tree) : list (ptr * node) :=
  match t with
  | TVal p v => [(p, Value v)]
  | TVar _ _ => []
  | TIn p => [(p, Operand 0 StdIn 0)]
  | TUn p op r => (p, Operand 0 op (root r)) :: entries r
  | TBin p l op r => (p, Operand (root l) op (root r)) :: entries l ++ entries r
  | TWhile p c b => (p, While (root c) (root b)) :: entries c ++ entries b
  | TIf p c b => (p, If (root c) (root b)) :: entries c ++ entries b
  | TScope p prev _ bs => (p, Scope (root <$> bs) prev) :: mjoin (entries <$> bs)
  end.

Fixpoint owned (t : tree) : list (string * ptr) :=
  match t with
  | TVal _ _ | TVar _ _ | TIn _ => []
  | TUn _ _ r => owned r
  | TBin _ l _ r => owned l ++ owned r
  | TWhile _ c b | TIf _ c b => owned c ++ owned b
  | TScope _ _ ds bs => ds ++ mjoin (owned <$> bs)
  end.

Fixpoint vars (t : tree) : list (string * ptr) :=
  match t with
  | TVar d x => [(x, d)]
  | TVal _ _ | TIn _ => []
  | TUn _ _ r => vars r
  | TBin _ l _ r => vars l ++ vars r
  | TWhile _ c b | TIf _ c b => vars c ++ vars b
  | TScope _ _ _ bs => mjoin (vars <$> bs)
  end.

Record holds (N : gmap ptr node) (t : tree) : Prop := {
  holds_entry : ∀ p n, (p, n) ∈ entries t → N !! p = Some n;
  holds_var : ∀ x d, (x, d) ∈ vars t → ∃ v, N !! d = Some (Decl v x);
  holds_null : N !! 0%nat = None }.

(** ** The meaning of a tree

    The state is the values of the declarations and the two streams. *)
Record est := Est { env : gmap ptr Z; ein : list Z; eout : list string }.

Definition bin_value (op : Operation) (x y : Z) : option Z :=
  let fitting z := if int_fits z then Some z else None in
  match op with
  | Plus => fitting (x + y)
  | Minus => fitting (x - y)
  | Mul => fitting (x * y)
  | Div => if y =? 0 then None else fitting (Z.quot x y)
  | Mod => if (y =? 0) || negb (int_fits (Z.quot x y)) then None else Some (Z.rem x y)
  | Greater => Some (Z.b2z (y <? x))
  | Less => Some (Z.b2z (x <? y))
  | GreaterEq => Some (Z.b2z (y <=? x))
  | LessEq => Some (Z.b2z (x <=? y))
  | Equal => Some (Z.b2z (x =? y))
  | NotEqual => Some (Z.b2z (negb (x =? y)))
  | And => Some (Z.b2z (negb (x =? 0) && negb (y =? 0)))
  | Or => Some (Z.b2z (negb (x =? 0) || negb (y =? 0)))
  | Assign | StdOut | StdIn | Not => None
  end.

Inductive beval : tree → est → Z → est → Prop :=
| BVal p v σ : beval (TVal p v) σ v σ
| BVar d x v σ : env σ !! d = Some v → beval (TVar d x) σ v σ
| BIn p z i e o : beval (TIn p) (Est e (z :: i) o) z (Est e i o)
| BNot p r v σ σ' : beval r σ v σ' → beval (TUn p Not r) σ (Z.b2z (v =? 0)) σ'
| BOut p r v σ e i o : beval r σ v (Est e i o) → beval (TUn p StdOut r) σ 0 (Est e i (o ++ [pretty v]))
| BBin p l op r x y z σ σ1 σ2 : beval l σ x σ1 → beval r σ1 y σ2 → bin_value op x y = Some z →
    beval (TBin p l op r) σ z σ2
| BAssign p d x r v σ e i o : beval r σ v (Est e i o) →
    beval (TBin p (TVar d x) Assign r) σ v (Est (<[d := v]> e) i o)
| BWhileF p c b σ σ' : beval c σ 0 σ' → beval (TWhile p c b) σ 0 σ'
| BWhileT p c b x v σ σ1 σ2 σ3 : beval c σ x σ1 → x ≠ 0 → beval b σ1 v σ2 →
    beval (TWhile p c b) σ2 0 σ3 → beval (TWhile p c b) σ 0 σ3
| BIfF p c b σ σ' : beval c σ 0 σ' → beval (TIf p c b) σ 0 σ'
| BIfT p c b x v σ σ1 σ2 : beval c σ x σ1 → x ≠ 0 → beval b σ1 v σ2 → beval (TIf p c b) σ 0 σ2
| BBlock p prev ds bs σ σ' : bevals bs σ σ' → beval (TScope p prev ds bs) σ 0 σ'
with bevals : list tree → est → est → Prop :=
| BNil σ : bevals [] σ σ
| BCons b bs v σ σ1 σ2 : beval b σ v σ1 → bevals bs σ1 σ2 → bevals (b :: bs) σ σ2.

Scheme beval_mut := Induction for beval Sort Prop
with bevals_mut := Induction for bevals Sort Prop.
Combined Scheme beval_bevals_ind from beval_mut, bevals_mut.

(** ** Expressions

    An expression reads the input at most where the order of evaluation, the second
    evaluation of a divisor and the short circuits of [calc] cannot be told. *)
Fixpoint silent (t : tree) : bool :=
  match t with
  | TVal _ _ | TVar _ _ => true
  | TUn _ Not r => silent r
  | TBin _ l op r => negb (bool_decide (op = Assign)) && silent l && silent r
  | _ => false
  end.

Fixpoint is_expr (t : tree) : bool :=
  match t with
  | TVal _ _ | TVar _ _ | TIn _ => true
  | TUn _ Not r => is_expr r
  | TBin _ l op r => negb (bool_decide (op = Assign)) && is_expr l && is_expr r
  | _ => false
  end.

Definition lazy_right (op : Operation) : bool :=
  match op with Div | And | Or => true | _ => false end.

Fixpoint orderly (t : tree) : bool :=
  match t with
  | TVal _ _ | TVar _ _ | TIn _ => true
  | TUn _ _ r => orderly r && is_expr r
  | TBin _ (TVar _ _) Assign r => orderly r && is_expr r
  | TBin _ l op r =>
    orderly l && orderly r && is_expr l && is_expr r && (silent r || silent l && negb (lazy_right op))
  | TWhile _ c b | TIf _ c b => orderly c && is_expr c && orderly b
  | TScope _ _ _ bs => forallb orderly bs
  end.

(** *** Inversion *)
Lemma beval_not_inv p r σ z σ' :
  beval (TUn p Not r) σ z σ' → ∃ v, beval r σ v σ' ∧ z = Z.b2z (v =? 0).
Proof. inversion 1; subst. eauto. Qed.

Lemma beval_bin_inv p l op r σ z σ' :
  op ≠ Assign → beval (TBin p l op r) σ z σ' →
  ∃ x y σ1, beval l σ x σ1 ∧ beval r σ1 y σ' ∧ bin_value op x y = Some z.
Proof. intros Hop. inversion 1; subst; [|done]. eauto 10. Qed.

Lemma beval_out_inv p r σ z σ' :
  beval (TUn p StdOut r) σ z σ' → ∃ v σ1, beval r σ v σ1 ∧
    σ' = Est (env σ1) (ein σ1) (eout σ1 ++ [pretty v]).
Proof. inversion 1; subst. eauto. Qed.

Lemma beval_assign_inv p d x r σ z σ' :
  beval (TBin p (TVar d x) Assign r) σ z σ' → ∃ v σ1, beval r σ v σ1 ∧
    σ' = Est (<[d := v]> (env σ1)) (ein σ1) (eout σ1).
Proof. inversion 1; subst; [done|]. eauto. Qed.

Lemma beval_if_inv p c b σ z σ' :
  beval (TIf p c b) σ z σ' → ∃ x σ1, beval c σ x σ1 ∧
    (x = 0 ∧ σ' = σ1 ∨ x ≠ 0 ∧ ∃ v, beval b σ1 v σ').
Proof. inversion 1; subst; eauto 10. Qed.

Lemma beval_while_inv p c b σ z σ' :
  beval (TWhile p c b) σ z σ' → ∃ x σ1, beval c σ x σ1 ∧
    (x = 0 ∧ σ' = σ1 ∨ x ≠ 0 ∧ ∃ v σ2, beval b σ1 v σ2 ∧ beval (TWhile p c b) σ2 0 σ').
Proof. inversion 1; subst; eauto 10. Qed.

Lemma beval_scope_inv p prev ds bs σ z σ' : beval (TScope p prev ds bs) σ z σ' → bevals bs σ σ'.
Proof. by inversion 1. Qed.

(** *** The height of a tree *)
Fixpoint height (t : tree) : nat :=
  match t with
  | TVal _ _ | TVar _ _ | TIn _ => 1
  | TUn _ _ r => S (height r)
  | TBin _ l _ r => S (height l `max` height r)
  | TWhile _ c b | TIf _ c b => S (height c `max` height b)
  | TScope _ _ _ bs => S (max_list (height <$> bs))
  end.

Lemma is_expr_bin p l op r :
  is_expr (TBin p l op r) → op ≠ Assign ∧ is_expr l ∧ is_expr r.
Proof. cbn. rewrite !andb_True. case_bool_decide; naive_solver. Qed.

Lemma orderly_bin p l op r :
  op ≠ Assign → orderly (TBin p l op r) →
  orderly l ∧ orderly r ∧ is_expr l ∧ is_expr r ∧ silent r || silent l && negb (lazy_right op).
Proof.
  intros Hop. assert (Heq : orderly (TBin p l op r) = orderly l && orderly r && is_expr l && is_expr r
    && (silent r || silent l && negb (lazy_right op))) by (destruct l, op; done).
  rewrite Heq, !andb_True. naive_solver.
Qed.
