(* ===== verification/PclCalc.v ===== *)
(** * The interpreter computes the meaning of a tree *)

From stdpp Require Import pretty.
From S2P Require Import Prelude Llvm Pcl PclTree.

(** Unfold the method of a node. *)
Ltac method := unfold While_calc, If_calc, Scope_calc, Decl_calc.

Section facts.
Implicit Types (t l r c b : tree) (σ : est) (N : gmap ptr node).

(** ** Trees in the store *)
Lemma holds_sub N t u :
  holds N t → (∀ e, e ∈ entries u → e ∈ entries t) → (∀ e, e ∈ vars u → e ∈ vars t) → holds N u.
Proof. intros [H1 H2 H3] He Hv. split; eauto. Qed.

Lemma holds_un N p op r : holds N (TUn p op r) → N !! p = Some (Operand 0 op (root r)) ∧ holds N r.
Proof.
  intros Hh. split; [apply Hh; cbn; set_solver|]. apply (holds_sub _ _ _ Hh); cbn; set_solver.
Qed.

Lemma holds_bin N p l op r :
  holds N (TBin p l op r) → N !! p = Some (Operand (root l) op (root r)) ∧ holds N l ∧ holds N r.
Proof.
  intros Hh. split; [apply Hh; cbn; set_solver|].
  split; apply (holds_sub _ _ _ Hh); cbn; set_solver.
Qed.

Lemma holds_while N p c b :
  holds N (TWhile p c b) → N !! p = Some (While (root c) (root b)) ∧ holds N c ∧ holds N b.
Proof.
  intros Hh. split; [apply Hh; cbn; set_solver|].
  split; apply (holds_sub _ _ _ Hh); cbn; set_solver.
Qed.

Lemma holds_if N p c b :
  holds N (TIf p c b) → N !! p = Some (If (root c) (root b)) ∧ holds N c ∧ holds N b.
Proof.
  intros Hh. split; [apply Hh; cbn; set_solver|].
  split; apply (holds_sub _ _ _ Hh); cbn; set_solver.
Qed.

Lemma in_mjoin_fmap {A B} (f : A → list B) (a : A) (xs : list A) e :
  a ∈ xs → e ∈ f a → e ∈ mjoin (f <$> xs).
Proof. intros Ha He. apply list_elem_of_join. exists (f a). split; [done|]. by apply list_elem_of_fmap_2. Qed.

Lemma holds_scope N p prev ds bs :
  holds N (TScope p prev ds bs) → N !! p = Some (Scope (root <$> bs) prev) ∧ Forall (holds N) bs.
Proof.
  intros Hh. split; [apply Hh; cbn; set_solver|]. apply Forall_forall. intros b Hb.
  apply (holds_sub _ _ _ Hh); cbn; intros e He; [apply elem_of_cons; right|]; by eapply in_mjoin_fmap.
Qed.

Lemma holds_root N t : holds N t → root t ≠ 0%nat.
Proof.
  intros Hh H0. assert (is_Some (N !! root t)) as [n Hn].
  { destruct t; try (eexists; apply Hh; cbn; apply elem_of_cons; by left).
    destruct (holds_var _ _ Hh x d) as [v Hv]; [cbn; set_solver|]. by eexists. }
  rewrite H0, (holds_null _ _ Hh) in Hn. done.
Qed.

(** ** Expressions have no effect but reading *)
Lemma silent_is_expr t : silent t → is_expr t.
Proof.
  induction t using tree_induction; cbn; try done.
  - destruct op; done.
  - destruct (bool_decide (op = Assign)); cbn; [done|]. rewrite !andb_True. naive_solver.
Qed.

Lemma expr_env t σ v σ' : is_expr t → beval t σ v σ' → env σ' = env σ ∧ eout σ' = eout σ.
Proof.
  intros He Hb. revert He. induction Hb using beval_ind; cbn in *; try done.
  - rewrite !andb_True. intros [[_ Hl] Hr].
    destruct (IHHb2 Hr) as [-> ->], (IHHb1 Hl) as [-> ->]. done.
Qed.

Lemma silent_beval t σ v σ' :
  silent t → beval t σ v σ' → σ' = σ ∧ ∀ σ2, env σ2 = env σ → beval t σ2 v σ2.
Proof.
  intros He Hb. revert He. induction Hb using beval_ind; cbn in *; try done.
  - intros _. split; [done|]. intros. constructor.
  - intros _. split; [done|]. intros σ2 H2. constructor. by rewrite H2.
  - intros He. destruct (IHHb He) as [-> Hs]. split; [done|]. intros. constructor. auto.
  - rewrite !andb_True. intros [[_ Hl] Hr].
    destruct (IHHb1 Hl) as [-> Hs1], (IHHb2 Hr) as [-> Hs2]. split; [done|].
    intros. econstructor; eauto.
Qed.
End facts.

(** ** The store with the declarations and streams of [σ] *)
Definition update (σ : est) (p : ptr) (n : node) : node :=
  match n with Decl _ x => Decl (env σ !! p) x | n => n end.

Section calc.
Context `{IRBuilder}.
Variable left_first : Operation → bool.
Implicit Types (s : pstate).

Definition write (σ : est) (s : pstate) : pstate :=
  PState (map_imap (λ p n, Some (update σ p n)) (nodes s)) (brk s) (GlobalTable s) (CurrentScope s)
    (GlobalGen s) (ein σ) (eout σ).

Abbreviation calc := (calc left_first).

Lemma node_at_write σ s p n :
  nodes s !! p = Some n → node_at p (write σ s) = Some (update σ p n, write σ s).
Proof. intros Hp. unfold node_at. cunfold. cbn. by rewrite map_lookup_imap, Hp. Qed.

Lemma SetValue_write e i o s d v x z :
  nodes s !! d = Some (Decl v x) →
  SetValue d z (write (Est e i o) s) = Some (Ok (), write (Est (<[d := z]> e) i o) s).
Proof.
  intros Hd. unfold SetValue.
  erewrite X_bind_Ok by (unfold call; by rewrite (node_at_write _ _ _ _ Hd)). cbn [update]. method.
  unfold call, set_node. rewrite (C_bind_Some _ _ _ _ _ (node_at_write _ _ _ _ Hd)).
  unfold modify, set_nodes, write. cbn. do 3 f_equal. apply map_eq. intros q.
  rewrite map_lookup_imap. destruct (decide (q = d)) as [->|Hne].
  - rewrite lookup_insert_eq, Hd. cbn. by rewrite lookup_insert_eq.
  - rewrite lookup_insert_ne, map_lookup_imap by done. destruct (nodes s !! q) as [[]|]; try done.
    cbn. by rewrite lookup_insert_ne.
Qed.

Lemma read_write e z i o s : read (write (Est e (z :: i) o) s) = Some (Ok z, write (Est e i o) s).
Proof. reflexivity. Qed.

(** [ev] computes [t] in the store [s], whatever the values and the input. *)
Definition evaluates (ev : ptr → X pstate Z) s t : Prop :=
  ∀ σ v σ', beval t σ v σ' → ev (root t) (write σ s) = Some (Ok v, write σ' s).

Lemma operands_run ev s op l r σ x σ1 y σ2 :
  evaluates ev s l → evaluates ev s r → is_expr l → is_expr r → silent r || silent l →
  beval l σ x σ1 → beval r σ1 y σ2 →
  operands left_first ev op (root l) (root r) (write σ s) = Some (Ok (x, y), write σ2 s).
Proof.
  intros Hl Hr El Er Hsil Bl Br. unfold operands. destruct (left_first op).
  - rewrite (X_bind_Ok _ _ _ _ _ (Hl _ _ _ Bl)). by rewrite (X_bind_Ok _ _ _ _ _ (Hr _ _ _ Br)).
  - destruct (expr_env _ _ _ _ El Bl) as [E1 O1], (expr_env _ _ _ _ Er Br) as [E2 O2].
    apply orb_True in Hsil as [Hs|Hs].
    + destruct (silent_beval _ _ _ _ Hs Br) as [-> Hr2].
      rewrite (X_bind_Ok _ _ _ _ _ (Hr _ _ _ (Hr2 σ (eq_sym E1)))).
      by rewrite (X_bind_Ok _ _ _ _ _ (Hl _ _ _ Bl)).
    + destruct (silent_beval _ _ _ _ Hs Bl) as [-> Hl2].
      rewrite (X_bind_Ok _ _ _ _ _ (Hr _ _ _ Br)).
      by rewrite (X_bind_Ok _ _ _ _ _ (Hl _ _ _ (Hl2 σ2 E2))).
Qed.

Lemma int_run z s : int_fits z = true → int z s = Some (Ok z, s).
Proof. intros Hz. unfold int. by rewrite Hz. Qed.

(** A binary operation, its operands evaluated in either order, twice or lazily. *)
Lemma calc_bin_run ev s l op r σ x y z σ1 σ2 :
  evaluates ev s l → evaluates ev s r → is_expr l → is_expr r →
  silent r || silent l && negb (lazy_right op) → root l ≠ 0%nat →
  beval l σ x σ1 → beval r σ1 y σ2 → bin_value op x y = Some z →
  calc_operand left_first ev (root l) op (root r) (write σ s) = Some (Ok z, write σ2 s).
Proof.
  intros Hl Hr El Er Hsil H0 Bl Br Hz.
  assert (Hops : operands left_first ev op (root l) (root r) (write σ s) = Some (Ok (x, y), write σ2 s)).
  { apply (operands_run ev s op l r σ x σ1 y σ2); try done. destruct (silent r); [done|]. cbn in *.
    by apply andb_True in Hsil as [? _]. }
  assert (Hlazy : lazy_right op = true → silent r).
  { intros Hop. rewrite Hop in Hsil. destruct (silent r), (silent l); done. }
  destruct (expr_env _ _ _ _ El Bl) as [E1 O1]. apply Nat.eqb_neq in H0.
  unfold calc_operand. rewrite ?H0.
  destruct op; cbn in Hz; try done;
    try (rewrite (X_bind_Ok _ _ _ _ _ Hops); injection Hz as <-; done).
  - rewrite (X_bind_Ok _ _ _ _ _ Hops). destruct (int_fits (x + y)) eqn:Hf; [|done].
    injection Hz as <-. by apply int_run.
  - rewrite (X_bind_Ok _ _ _ _ _ Hops). destruct (int_fits (x - y)) eqn:Hf; [|done].
    injection Hz as <-. by apply int_run.
  - destruct (silent_beval _ _ _ _ (Hlazy eq_refl) Br) as [-> Hr2].
    rewrite (X_bind_Ok _ _ _ _ _ (Hr _ _ _ (Hr2 σ (eq_sym E1)))).
    destruct (y =? 0) eqn:Hy; [done|]. rewrite (X_bind_Ok _ _ _ _ _ Hops). rewrite Hy.
    destruct (int_fits (Z.quot x y)) eqn:Hf; [|done]. injection Hz as <-. by apply int_run.
  - rewrite (X_bind_Ok _ _ _ _ _ Hops). destruct (int_fits (x * y)) eqn:Hf; [|done].
    injection Hz as <-. by apply int_run.
  - rewrite (X_bind_Ok _ _ _ _ _ Hops). destruct ((y =? 0) || _) eqn:Hf; [done|].
    by injection Hz as <-.
  - destruct (silent_beval _ _ _ _ (Hlazy eq_refl) Br) as [-> Hr2].
    rewrite (X_bind_Ok _ _ _ _ _ (Hl _ _ _ Bl)). injection Hz as <-.
    destruct (x =? 0); [done|]. by rewrite (X_bind_Ok _ _ _ _ _ (Hr _ _ _ Br)).
  - destruct (silent_beval _ _ _ _ (Hlazy eq_refl) Br) as [-> Hr2].
    rewrite (X_bind_Ok _ _ _ _ _ (Hl _ _ _ Bl)). injection Hz as <-.
    destruct (x =? 0); [|done]. by rewrite (X_bind_Ok _ _ _ _ _ (Hr _ _ _ Br)).
Qed.

(** ** Expressions: the height of the tree is fuel enough *)
Lemma call_node s p n σ :
  nodes s !! p = Some n → call (node_at p) (write σ s) = Some (Ok (update σ p n), write σ s).
Proof. intros Hp. unfold call. by erewrite node_at_write. Qed.

Lemma calc_expr s t m :
  is_expr t → orderly t → (height t ≤ m)%nat → holds (nodes s) t → evaluates (calc m) s t.
Proof.
  revert m. induction t using tree_induction; intros [|m] He Ho Hm Hh; cbn in Hm; try lia; try done;
    intros σ z σ' Hb.
  - inversion Hb; subst. assert (Hp : nodes s !! p = Some (Value z)) by (apply Hh; cbn; set_solver).
    cbn [Pcl.calc root]. by rewrite (X_bind_Ok _ _ _ _ _ (call_node _ _ _ _ Hp)).
  - inversion Hb; subst. destruct (holds_var _ _ Hh x d) as [v Hv]; [cbn; set_solver|].
    cbn [Pcl.calc root]. rewrite (X_bind_Ok _ _ _ _ _ (call_node _ _ _ _ Hv)).
    cbn [update While_calc If_calc Scope_calc]; unfold call, of_option. by match goal with Hv : env _ !! _ = Some _ |- _ => rewrite Hv end.
  - inversion Hb; subst. assert (Hp : nodes s !! p = Some (Operand 0 StdIn 0)) by (apply Hh; cbn; set_solver).
    cbn [Pcl.calc root]. by rewrite (X_bind_Ok _ _ _ _ _ (call_node _ _ _ _ Hp)).
  - destruct op; try done. inversion Hb; subst. apply holds_un in Hh as [Hp Hr].
    cbn [orderly is_expr] in Ho, He. apply andb_True in Ho as [Ho _].
    cbn [Pcl.calc root]. rewrite (X_bind_Ok _ _ _ _ _ (call_node _ _ _ _ Hp)).
    cbn [update calc_operand].
    assert (Hev := IHt m He Ho ltac:(lia) Hr). 
    match goal with Hr' : beval _ _ _ _ |- _ => by rewrite (X_bind_Ok _ _ _ _ _ (Hev _ _ _ Hr')) end.
  - destruct (is_expr_bin _ _ _ _ He) as (Hop & El & Er).
    destruct (orderly_bin _ _ _ _ Hop Ho) as (Ol & Or & _ & _ & Hsil).
    apply holds_bin in Hh as (Hp & Hl & Hr). inversion Hb; subst; [|done].
    cbn [Pcl.calc root]. rewrite (X_bind_Ok _ _ _ _ _ (call_node _ _ _ _ Hp)).
    cbn [update While_calc If_calc Scope_calc]; eapply calc_bin_run; eauto using holds_root.
    + apply (IHt1 m); auto. lia.
    + apply (IHt2 m); auto. lia.
Qed.

(** ** Statements *)
(** [calc] enters the node whose memory is [Hp], with the fuel [k]; and evaluates an operand. *)
Ltac enter_node k Hp m :=
  exists k; intros [|m]; intros; [lia|]; cbn [Pcl.calc root];
  rewrite (X_bind_Ok _ _ _ _ _ (call_node _ _ _ _ Hp)); cbn [update calc_operand].
Ltac run_expr m He Ho Hh Hb :=
  match type of Hh with
  | holds (nodes ?s) ?t =>
    let Hev := fresh in assert (Hev := calc_expr s t m He Ho ltac:(lia) Hh); rewrite (X_bind_Ok _ _ _ _ _ (Hev _ _ _ Hb))
  end.

Lemma calc_beval_run :
  (∀ t σ v σ', beval t σ v σ' → orderly t → ∀ s, holds (nodes s) t →
    ∃ n, ∀ m, (n ≤ m)%nat → calc m (root t) (write σ s) = Some (Ok v, write σ' s)) ∧
  (∀ bs σ σ', bevals bs σ σ' → forallb orderly bs → ∀ s, Forall (holds (nodes s)) bs →
    ∃ n, ∀ m, (n ≤ m)%nat →
      each (λ b, _ ← calc m b; mret ()) (root <$> bs) (write σ s) = Some (Ok (), write σ' s)).
Proof.
  assert (Hexpr : ∀ t σ v σ', is_expr t → beval t σ v σ' → orderly t → ∀ s, holds (nodes s) t →
    ∃ n, ∀ m, (n ≤ m)%nat → calc m (root t) (write σ s) = Some (Ok v, write σ' s)).
  { intros t σ v σ' He Hb Ho s Hh. exists (height t). intros m Hm. by apply calc_expr. }
  apply beval_bevals_ind; cbn [orderly]; rewrite ?andb_True.
  - intros. apply Hexpr; [done|apply BVal|done..].
  - intros. apply Hexpr; [done|by apply BVar|done..].
  - intros. apply Hexpr; [done|apply BIn|done..].
  - intros p r v σ σ' Hb _ Ho. apply andb_True in Ho as [Ho He].
    apply Hexpr; [done|by apply BNot|cbn; by rewrite andb_True].
  - intros p r v σ e i o Hb _ Ho s Hh. apply andb_True in Ho as [Ho He].
    apply holds_un in Hh as [Hp Hr]. enter_node (S (height r)) Hp m. by run_expr m He Ho Hr Hb.
  - intros p l op r x y z σ σ1 σ2 Bl _ Br _ Hz Ho.
    assert (Hop : op ≠ Assign) by (by intros ->). destruct (orderly_bin p l op r Hop Ho) as (_ & _ & El & Er & _).
    apply Hexpr; [|by eapply BBin|done]. cbn. rewrite bool_decide_false by done. by rewrite !andb_True.
  - intros p d x r v σ e i o Br _ Ho s Hh. apply andb_True in Ho as [Ho He].
    destruct (holds_bin _ _ _ _ _ Hh) as (Hp & _ & Hr). enter_node (S (height r)) Hp m.
    destruct (holds_var _ _ Hh x d) as [w Hw]; [cbn; set_solver|]. run_expr m He Ho Hr Br.
    by rewrite (X_bind_Ok _ _ _ _ _ (SetValue_write _ _ _ _ _ _ _ _ Hw)).
  - intros p c b σ σ' Bc _ Ho s Hh. rewrite !andb_True in Ho. destruct Ho as [[Oc Ec] _].
    apply holds_while in Hh as (Hp & Hc & Hb). enter_node (S (height c)) Hp m. method. by run_expr m Ec Oc Hc Bc.
  - intros p c b x v σ σ1 σ2 σ3 Bc _ Hx Bb IHb Bw IHw Ho s Hh. destruct (IHw Ho s Hh) as [n2 Hn2].
    rewrite !andb_True in Ho. destruct Ho as [[Oc Ec] Ob].
    apply holds_while in Hh as (Hp & Hc & Hb). destruct (IHb Ob s Hb) as [n1 Hn1].
    enter_node (S (height c + n1 + n2)) Hp m. method. run_expr m Ec Oc Hc Bc.
    rewrite (proj2 (Z.eqb_neq _ _)) by done.
    rewrite (X_bind_Ok _ _ _ _ _ (Hn1 m ltac:(lia))). apply Hn2. lia.
  - intros p c b σ σ' Bc _ Ho s Hh. rewrite !andb_True in Ho. destruct Ho as [[Oc Ec] _].
    apply holds_if in Hh as (Hp & Hc & Hb). enter_node (S (height c)) Hp m. method. by run_expr m Ec Oc Hc Bc.
  - intros p c b x v σ σ1 σ2 Bc _ Hx Bb IHb Ho s Hh. rewrite !andb_True in Ho. destruct Ho as [[Oc Ec] Ob].
    apply holds_if in Hh as (Hp & Hc & Hb). destruct (IHb Ob s Hb) as [n1 Hn1].
    enter_node (S (height c + n1)) Hp m. method. run_expr m Ec Oc Hc Bc.
    rewrite (proj2 (Z.eqb_neq _ _)) by done. by rewrite (X_bind_Ok _ _ _ _ _ (Hn1 m ltac:(lia))).
  - intros p prev ds bs σ σ' _ IHbs Ho s Hh. apply holds_scope in Hh as [Hp Hbs].
    destruct (IHbs Ho s Hbs) as [n Hn]. enter_node (S n) Hp m. method.
    by rewrite (X_bind_Ok _ _ _ _ _ (Hn m ltac:(lia))).
  - intros σ _ s _. by exists 0%nat.
  - intros b bs v σ σ1 σ2 _ IHb _ IHbs Ho s Hh. cbn in Ho. apply andb_True in Ho as [Ob Obs].
    apply Forall_cons_1 in Hh as [Hb Hbs]. destruct (IHb Ob s Hb) as [n1 Hn1], (IHbs Obs s Hbs) as [n2 Hn2].
    exists (n1 + n2)%nat. intros m Hm. rewrite fmap_cons. cbn [each]. rewrite X_bind_assoc.
    rewrite (X_bind_Ok _ _ _ _ _ (Hn1 m ltac:(lia))). rewrite (X_bind_Ok _ _ _ _ _ eq_refl). apply Hn2. lia.
Qed.
End calc.
