(* ===== verification/PclHeap.v ===== *)
(** * Deleting a tree

    A store described as the list of its nodes, and the run of [delete_node] on a tree:
    exactly the nodes of the tree and the declarations it owns disappear. *)

From S2P Require Import Prelude Llvm Pcl PclTree PclCalc.

(** ** Stores as lists of nodes *)
Record is_heap (N : gmap ptr node) (L : list (ptr * node)) : Prop := {
  heap_nodup : NoDup L.*1;
  heap_map : N = list_to_map L }.

Section heap.
Implicit Types (N : gmap ptr node) (L : list (ptr * node)) (p : ptr) (n : node).

#[global] Instance is_heap_proper N : Proper ((≡ₚ) ==> iff) (is_heap N).
Proof.
  intros L1 L2 HL. split; intros [Hnd ->].
  - split; [by rewrite <- HL|by apply list_to_map_proper].
  - split; [by rewrite HL|]. symmetry. apply list_to_map_proper; [by rewrite HL|done].
Qed.

Lemma heap_lookup N L p n : is_heap N L → (p, n) ∈ L ↔ N !! p = Some n.
Proof.
  intros [Hnd ->]. split; [by apply elem_of_list_to_map_1|apply elem_of_list_to_map_2].
Qed.

Lemma heap_insert N L p n : is_heap N L → N !! p = None → is_heap (<[p := n]> N) ((p, n) :: L).
Proof.
  intros [Hnd ->] Hp. split; [|done]. cbn. constructor; [|done].
  by apply not_elem_of_list_to_map.
Qed.

Lemma heap_update N L p n n' : is_heap N ((p, n) :: L) → is_heap (<[p := n']> N) ((p, n') :: L).
Proof.
  intros [Hnd ->]. split; [done|]. cbn. by rewrite insert_insert_eq.
Qed.

Lemma heap_delete N L p n : is_heap N ((p, n) :: L) → is_heap (delete p N) L.
Proof.
  intros [Hnd ->]. cbn in *. apply NoDup_cons in Hnd as [Hp Hnd]. split; [done|].
  rewrite delete_insert_id; [done|]. by apply not_elem_of_list_to_map_1.
Qed.

Lemma heap_fresh N L p n : is_heap N ((p, n) :: L) → ∀ q m, (q, m) ∈ L → q ≠ p.
Proof.
  intros [Hnd _] q m Hq ->. cbn in Hnd. apply NoDup_cons in Hnd as [Hp _].
  apply Hp. apply list_elem_of_fmap. by exists (p, m).
Qed.
End heap.

(** ** What a tree owns

    [V] gives the declarations their values. *)
Definition declent (V : ptr → option Z) (e : string * ptr) : ptr * node := (e.2, Decl (V e.2) e.1).

Definition tree_ents (V : ptr → option Z) (t : tree) : list (ptr * node) :=
  entries t ++ (declent V <$> owned t).

(** Every variable of the tree is declared in an enclosing scope; [A] are the
    declarations around the tree. *)
Fixpoint scoped (A : list (string * ptr)) (t : tree) : Prop :=
  match t with
  | TVal _ _ | TIn _ => True
  | TVar d x => (x, d) ∈ A
  | TUn _ _ r => scoped A r
  | TBin _ l _ r => scoped A l ∧ scoped A r
  | TWhile _ c b | TIf _ c b => scoped A c ∧ scoped A b
  | TScope _ _ ds bs => fold_right and True (scoped (ds ++ A) <$> bs)
  end.

(** The scopes of the tree have the tables that it says. *)
Fixpoint tabled (T : Symtab) (t : tree) : Prop :=
  match t with
  | TVal _ _ | TIn _ | TVar _ _ => True
  | TUn _ _ r => tabled T r
  | TBin _ l _ r => tabled T l ∧ tabled T r
  | TWhile _ c b | TIf _ c b => tabled T c ∧ tabled T b
  | TScope p _ ds bs =>
    ds = map_to_list (default ∅ (T !! p)) ∧ fold_right and True (tabled T <$> bs)
  end.

Lemma fold_and_Forall {A} (P : A → Prop) (xs : list A) : fold_right and True (P <$> xs) ↔ Forall P xs.
Proof. induction xs as [|x xs IH]; cbn; [by split|]. rewrite Forall_cons, <- IH. done. Qed.

Lemma scoped_weaken A A' t : A ⊆ A' → scoped A t → scoped A' t.
Proof.
  revert A A'. induction t using tree_induction; cbn; intros A A' HA; try naive_solver.
  rewrite !fold_and_Forall, !Forall_forall. intros Hs b Hb. rewrite Forall_forall in H.
  apply (H b Hb (ds ++ A)); [set_solver|auto].
Qed.

Lemma app_swap {A} (a b c d : list A) : a ++ b ++ c ++ d ≡ₚ (a ++ c) ++ b ++ d.
Proof.
  rewrite <- app_assoc. apply Permutation_app_head. rewrite !app_assoc.
  apply Permutation_app_tail, Permutation_app_comm.
Qed.

Section ents.
Variable V : ptr → option Z.

Lemma tree_ents_un p op r : tree_ents V (TUn p op r) = (p, Operand 0 op (root r)) :: tree_ents V r.
Proof. done. Qed.

Lemma tree_ents_two n (a b : list (ptr * node)) (c d : list (string * ptr)) :
  (n :: a ++ b) ++ (declent V <$> c ++ d) ≡ₚ n :: (a ++ (declent V <$> c)) ++ (b ++ (declent V <$> d)).
Proof.
  cbn. constructor. rewrite fmap_app, <- app_assoc. apply app_swap.
Qed.

Lemma tree_ents_bin p l op r :
  tree_ents V (TBin p l op r) ≡ₚ (p, Operand (root l) op (root r)) :: tree_ents V l ++ tree_ents V r.
Proof. apply tree_ents_two. Qed.

Lemma tree_ents_while p c b :
  tree_ents V (TWhile p c b) ≡ₚ (p, While (root c) (root b)) :: tree_ents V c ++ tree_ents V b.
Proof. apply tree_ents_two. Qed.

Lemma tree_ents_if p c b :
  tree_ents V (TIf p c b) ≡ₚ (p, If (root c) (root b)) :: tree_ents V c ++ tree_ents V b.
Proof. apply tree_ents_two. Qed.

Lemma tree_ents_list bs :
  mjoin (entries <$> bs) ++ (declent V <$> mjoin (owned <$> bs)) ≡ₚ mjoin (tree_ents V <$> bs).
Proof.
  induction bs as [|b bs IH]; [done|]. rewrite !fmap_cons. cbn. rewrite <- IH, fmap_app, <- app_assoc. apply app_swap.
Qed.

Lemma tree_ents_scope p prev ds bs :
  tree_ents V (TScope p prev ds bs) ≡ₚ
    (p, Scope (root <$> bs) prev) :: (declent V <$> ds) ++ mjoin (tree_ents V <$> bs).
Proof.
  unfold tree_ents at 1. cbn. constructor. rewrite fmap_app, <- tree_ents_list, !app_assoc.
  apply Permutation_app_tail, Permutation_app_comm.
Qed.
End ents.

Lemma tabled_ext T T' t :
  (∀ q n, (q, n) ∈ entries t → T' !! q = T !! q) → tabled T t → tabled T' t.
Proof.
  induction t using tree_induction; cbn; intros HT; try done.
  - apply IHt. set_solver.
  - intros [H1 H2]. split; [apply IHt1|apply IHt2]; set_solver.
  - intros [H1 H2]. split; [apply IHt1|apply IHt2]; set_solver.
  - intros [H1 H2]. split; [apply IHt1|apply IHt2]; set_solver.
  - rewrite !fold_and_Forall. intros [-> Hbs]. split; [by rewrite (HT p _ ltac:(left))|].
    rewrite Forall_forall in *. intros b Hb. apply H; [done| |auto].
    intros q n Hq. apply (HT q n). right. by eapply in_mjoin_fmap.
Qed.
(** ** The destructors *)
Section delete.
Context `{IRBuilder}.
Variable V : ptr → option Z.
Implicit Types (s : pstate) (L : list (ptr * node)).

Lemma call_node_heap s L p n : is_heap (nodes s) L → (p, n) ∈ L → node_at p s = Some (n, s).
Proof. intros HL Hp. unfold node_at. cunfold. by rewrite (proj1 (heap_lookup _ _ _ _ HL) Hp). Qed.

Lemma free_node_run s L p n :
  is_heap (nodes s) ((p, n) :: L) →
  free p s = Some ((), set_nodes (delete p (nodes s)) s) ∧ is_heap (delete p (nodes s)) L.
Proof.
  intros HL. split; [|by eapply heap_delete]. unfold free.
  by rewrite (C_bind_Some _ _ _ _ _ (call_node_heap _ _ _ _ HL ltac:(left))).
Qed.

(** [m] leaves the nodes [L] and the tables of the scopes in it. *)
Definition frees (m : C pstate ()) s L : Prop :=
  ∃ s', m s = Some ((), s') ∧ is_heap (nodes s') L ∧
    (∀ q n, (q, n) ∈ L → GlobalTable s' !! q = GlobalTable s !! q) ∧
    (∃ N T, s' = set_table T (set_nodes N s)) ∧ (nodes s !! 0%nat = None → nodes s' !! 0%nat = None).

Lemma frees_ret s L : is_heap (nodes s) L → frees (mret ()) s L.
Proof.
  intros HL. exists s. do 3 (split; [done|]). split; [|done].
  exists (nodes s), (GlobalTable s). by destruct s.
Qed.

Lemma frees_bind m1 m2 s L1 L2 :
  frees m1 s L1 → L2 ⊆ L1 →
  (∀ s1, is_heap (nodes s1) L1 → (∀ q n, (q, n) ∈ L1 → GlobalTable s1 !! q = GlobalTable s !! q) →
    (nodes s !! 0%nat = None → nodes s1 !! 0%nat = None) → frees m2 s1 L2) →
  frees (m1;; m2) s L2.
Proof.
  intros (s1 & H1 & HL1 & HT1 & (N1 & T1 & E1) & H01) Hsub H2.
  destruct (H2 s1 HL1 HT1 H01) as (s2 & Hr2 & HL2 & HT2 & (N2 & T2 & E2) & H02).
  exists s2. split; [by rewrite (C_bind_Some _ _ _ _ _ H1)|]. split; [done|].
  split; [|split; [exists N2, T2; by rewrite E2, E1|auto]].
  intros q n Hq. rewrite (HT2 q n Hq). apply (HT1 q n). by apply Hsub.
Qed.

Lemma frees_ext m m' s L : m s = m' s → frees m' s L → frees m s L.
Proof. unfold frees. by intros ->. Qed.

Lemma frees_free s L p n : is_heap (nodes s) ((p, n) :: L) → frees (free p) s L.
Proof.
  intros HL. destruct (free_node_run s L p n HL) as [Hrun HL']. eexists. split; [exact Hrun|].
  split; [done|]. split; [done|]. split; [by exists (delete p (nodes s)), (GlobalTable s); destruct s|].
  cbn. intros H0. destruct (decide (p = 0%nat)) as [->|Hne]; [apply lookup_delete_eq|].
  by rewrite lookup_delete_ne.
Qed.

Lemma frees_proper m s L1 L2 : L1 ≡ₚ L2 → frees m s L1 → frees m s L2.
Proof.
  intros HP (s' & Hr & HL & HT & HE). exists s'. split; [done|]. split; [by rewrite <- HP|].
  split; [|done]. intros q n. rewrite <- HP. apply HT.
Qed.

Lemma frees_decls s L ds :
  is_heap (nodes s) ((declent V <$> ds) ++ L) → frees (each_ free ds.*2) s L.
Proof.
  revert s. induction ds as [|[x d] ds IH]; intros s HL; [by apply frees_ret|].
  cbn. eapply frees_bind; [exact (frees_free _ _ d (Decl (V d) x) HL)|intros e He; apply elem_of_app; by right|].
  intros s1 HL1 _ _. by apply IH.
Qed.

Lemma frees_scope s L p m ds :
  is_heap (nodes s) ((declent V <$> ds) ++ (p, m) :: L) →
  ds = map_to_list (default ∅ (GlobalTable s !! p)) → frees (symtab_free p;; free p) s L.
Proof.
  intros HL ->. destruct (GlobalTable s !! p) as [t|] eqn:Ht; cbn in HL.
  - destruct (frees_decls _ _ _ HL) as (s1 & Hr & HL1 & HT1 & (N & T & E) & H0').
    destruct (free_node_run (set_table (<[p := ∅]> (GlobalTable s1)) s1) L p m HL1) as [Hf HL'].
    exists (set_nodes (delete p (nodes s1)) (set_table (<[p := ∅]> (GlobalTable s1)) s1)).
    split; [|split; [exact HL'|split; [|split]]].
    + assert (Hl : local_free t s = Some (∅, s1)) by (unfold local_free; by rewrite (C_bind_Some _ _ _ _ _ Hr)).
      unfold symtab_free. rewrite C_bind_assoc. cstep. rewrite Ht.
      by rewrite C_bind_assoc, (C_bind_Some _ _ _ _ _ Hl), (C_bind_Some _ _ _ _ _ eq_refl).
    + intros q n Hq. cbn. rewrite lookup_insert_ne; [by apply (HT1 q n); right|].
      intros <-. by apply (heap_fresh _ _ _ _ HL1 _ _ Hq).
    + eexists _, _. by rewrite E.
    + cbn. intros H1'. specialize (H0' H1'). destruct (decide (p = 0%nat)) as [->|Hne]; [apply lookup_delete_eq|].
      by rewrite lookup_delete_ne.
  - rewrite map_to_list_empty in HL. eapply frees_ext; [|exact (frees_free _ _ p m HL)].
    unfold symtab_free. rewrite C_bind_assoc. cstep. by rewrite Ht.
Qed.

Definition is_var (t : tree) : bool := match t with TVar _ _ => true | _ => false end.

(** The declarations around a tree are alive. *)
Definition alive (A : list (string * ptr)) L : Prop := ∀ x d, (x, d) ∈ A → (d, Decl (V d) x) ∈ L.

Definition deletes_by (del : ptr → C pstate ()) t : Prop := ∀ s L A,
  is_heap (nodes s) (tree_ents V t ++ L) → nodes s !! 0%nat = None → scoped A t → alive A L →
  tabled (GlobalTable s) t → frees (del (root t)) s L.
Abbreviation deletes n := (deletes_by (delete_node n)).

(** The well-formed statements and expressions: a variable is never a branch or a body. *)
Fixpoint shaped (t : tree) : bool :=
  match t with
  | TVal _ _ | TVar _ _ | TIn _ => true
  | TUn _ _ r => shaped r
  | TBin _ l _ r => shaped l && shaped r
  | TWhile _ c b | TIf _ c b => shaped c && shaped b && negb (is_var b)
  | TScope _ _ _ bs => forallb (λ b, shaped b && negb (is_var b)) bs
  end.

Lemma tree_ents_root t : is_var t = false → ∃ n, (root t, n) ∈ entries t ∧ is_decl n = false.
Proof. intros Hv. destruct t; try done; cbn; eexists; (split; [by left|done]). Qed.

Lemma deletes_operand n t :
  (is_var t = false → deletes n t) → deletes_by (unless_decl (delete_node n)) t.
Proof.
  intros Hd s L A HL H0' Hs Ha HT. unfold unless_decl.
  assert (Hroot : ∃ m, (root t, m) ∈ tree_ents V t ++ L ∧ is_decl m = is_var t).
  { destruct (is_var t) eqn:Hv.
    - destruct t; try done. exists (Decl (V d) x). split; [|done]. apply elem_of_app. right. by apply Ha.
    - destruct (tree_ents_root t Hv) as (m & Hm & Hdm). exists m. split; [|done].
      apply elem_of_app. left. apply elem_of_app. by left. }
  destruct Hroot as (m & Hm & Hdm).
  assert (Hne : (root t =? 0)%nat = false).
  { apply Nat.eqb_neq. intros He. rewrite (heap_lookup _ _ _ _ HL), He in Hm. congruence. }
  rewrite Hne. unfold frees. rewrite (C_bind_Some _ _ _ _ _ (call_node_heap _ _ _ _ HL Hm)).
  rewrite Hdm. destruct (is_var t) eqn:Hv; [|by eapply Hd].
  destruct t; try done. by apply frees_ret.
Qed.

Lemma alive_mono A L L' : alive A L → L ⊆ L' → alive A L'.
Proof. intros Ha HL x d Hx. by apply HL, Ha. Qed.

Lemma frees_seq del t m2 s L A :
  deletes_by del t → is_heap (nodes s) (tree_ents V t ++ L) → nodes s !! 0%nat = None →
  scoped A t → alive A L → tabled (GlobalTable s) t →
  ∀ L2, L2 ⊆ L →
  (∀ s1, is_heap (nodes s1) L → nodes s1 !! 0%nat = None →
    (∀ q n, (q, n) ∈ L → GlobalTable s1 !! q = GlobalTable s !! q) → frees m2 s1 L2) →
  frees (del (root t);; m2) s L2.
Proof.
  intros Hd HL H0' Hs Ha HT L2 Hsub Hm. eapply frees_bind; [by eapply Hd|done|]. intros s1 H1 H2 H3. auto.
Qed.

(** The three nodes with two children. *)
Lemma frees_two del1 del2 p m l r s L A :
  deletes_by del1 l → deletes_by del2 r →
  is_heap (nodes s) ((p, m) :: (tree_ents V l ++ tree_ents V r) ++ L) → nodes s !! 0%nat = None →
  scoped A l → scoped A r → alive A L → tabled (GlobalTable s) l → tabled (GlobalTable s) r →
  frees (del1 (root l);; del2 (root r);; free p) s L.
Proof.
  intros Hl Hr HL H0' Sl Sr Ha Tl Tr.
  assert (HL1 : is_heap (nodes s) (tree_ents V l ++ (p, m) :: tree_ents V r ++ L)).
  { rewrite <- Permutation_middle, app_assoc. done. }
  eapply (frees_seq del1); [exact Hl|exact HL1|done|exact Sl| |done|set_solver|].
  { eapply alive_mono; [done|]. set_solver. }
  intros s1 H1' H01 HT1.
  eapply (frees_seq del2 r _ s1 ((p, m) :: L)); [exact Hr| |done|exact Sr| | |set_solver|].
  { by rewrite <- Permutation_middle. }
  { eapply alive_mono; [done|]. set_solver. }
  { eapply tabled_ext; [|done]. intros q n Hq. apply (HT1 q n). right. apply elem_of_app. left.
    apply elem_of_app. by left. }
  intros s2 H2' _ _. by eapply frees_free.
Qed.

Lemma delete_node_step n p m s L :
  is_heap (nodes s) ((p, m) :: L) → nodes s !! 0%nat = None →
  delete_node (S n) p s = (match m with
      | Value _ | Decl _ _ => free p
      | Scope bs _ => each_ (delete_node n) bs;; symtab_free p;; free p
      | Operand l _ r => unless_decl (delete_node n) l;; unless_decl (delete_node n) r;; free p
      | While c b | If c b => unless_decl (delete_node n) c;; delete_node n b;; free p
      end) s.
Proof.
  intros HL H0'. cbn [delete_node]. assert (Hp : (p, m) ∈ (p, m) :: L) by left.
  assert (Hne : (p =? 0)%nat = false).
  { apply Nat.eqb_neq. intros ->. apply (heap_lookup _ _ _ _ HL) in Hp. congruence. }
  rewrite Hne, (C_bind_Some _ _ _ _ _ (call_node_heap _ _ _ _ HL Hp)).
  destruct m; try done; apply C_bind_assoc.
Qed.

Lemma frees_branches n bs s L A :
  Forall (deletes n) bs → is_heap (nodes s) (mjoin (tree_ents V <$> bs) ++ L) → nodes s !! 0%nat = None →
  Forall (scoped A) bs → alive A L → Forall (tabled (GlobalTable s)) bs →
  frees (each_ (delete_node n) (root <$> bs)) s L.
Proof.
  intros Hd. revert s. induction Hd as [|b bs Hb Hbs IH]; intros s HL H0' Hs Ha HT; [by apply frees_ret|].
  apply Forall_cons in Hs as [Sb Sbs]. apply Forall_cons in HT as [Tb Tbs].
  rewrite fmap_cons in *. cbn [each_]. cbn in HL. rewrite <- app_assoc in HL.
  eapply (frees_seq (delete_node n)); [exact Hb|exact HL|done|exact Sb| |done|set_solver|].
  { eapply alive_mono; [done|]. set_solver. }
  intros s1 H1' H01 HT1. apply IH; try done.
  rewrite !Forall_forall in *. intros c Hc. eapply tabled_ext; [|by apply Tbs].
  intros q k Hq. apply (HT1 q k). apply elem_of_app. left. eapply in_mjoin_fmap; [exact Hc|].
  apply elem_of_app. by left.
Qed.

Lemma delete_scope n p prev ds bs : Forall (deletes n) bs → deletes (S n) (TScope p prev ds bs).
Proof.
  intros Hbs s L A HL H0' Hs Ha HT.
  rewrite tree_ents_scope in HL. destruct HT as [Hds HT]. cbn [scoped] in Hs.
  rewrite fold_and_Forall in Hs, HT. eapply frees_ext; [by eapply delete_node_step|].
  set (sc := (p, Scope (root <$> bs) prev)) in *.
  assert (HP : sc :: ((declent V <$> ds) ++ mjoin (tree_ents V <$> bs)) ++ L ≡ₚ
    mjoin (tree_ents V <$> bs) ++ (declent V <$> ds) ++ sc :: L).
  { rewrite (Permutation_app_comm (declent V <$> ds)), <- app_assoc, !Permutation_middle. done. }
  eapply (frees_bind _ _ _ ((declent V <$> ds) ++ sc :: L)).
  - eapply frees_branches; [done| |done|exact Hs| |done].
    + by rewrite <- HP.
    + intros x d Hx. apply elem_of_app in Hx as [Hx|Hx]; apply elem_of_app.
      * left. apply list_elem_of_fmap. by exists (x, d).
      * right. right. by apply Ha.
  - set_solver.
  - intros s1 HL1 HT1 _. apply (frees_scope s1 L p (Scope (root <$> bs) prev) ds HL1).
    rewrite Hds. by rewrite (HT1 p (Scope (root <$> bs) prev)) by set_solver.
Qed.

Lemma shaped_scope p prev ds bs b :
  shaped (TScope p prev ds bs) → b ∈ bs →
  shaped b ∧ is_var b = false ∧ (height b < height (TScope p prev ds bs))%nat.
Proof.
  cbn. rewrite forallb_True, Forall_forall. intros Hsh Hb. specialize (Hsh b Hb). apply andb_True in Hsh as [Hs Hv].
  split; [done|]. split; [apply negb_True in Hv; by destruct (is_var b)|].
  assert (height b ≤ max_list (height <$> bs))%nat; [|lia].
  apply max_list_elem_of_le, list_elem_of_fmap. by exists b.
Qed.

Lemma delete_tree n t : shaped t → is_var t = false → (height t ≤ n)%nat → deletes n t.
Proof.
  revert n. induction t using tree_induction; intros [|n] Hsh Hv Hn; cbn in Hn; try lia; try done;
    intros s L A HL H0' Hs Ha HT.
  - eapply frees_ext; [by apply (delete_node_step n p (Value v) s L)|].
    exact (frees_free _ _ p (Value v) HL).
  - eapply frees_ext; [by apply (delete_node_step n p (Operand 0 StdIn 0) s L)|].
    eapply frees_bind; [by apply frees_ret|set_solver|]. intros s1 HL1 _ _.
    eapply frees_bind; [by apply frees_ret|set_solver|]. intros s2 HL2 _ _.
    exact (frees_free _ _ p (Operand 0 StdIn 0) HL2).
  - eapply frees_ext; [by apply (delete_node_step n p (Operand 0 op (root t)) s (tree_ents V t ++ L))|].
    eapply frees_bind; [by apply frees_ret|set_solver|]. intros s1 HL1 HT1 H01.
    eapply (frees_seq (unless_decl (delete_node n)) t _ s1 ((p, Operand 0 op (root t)) :: L));
      [apply deletes_operand; intros; apply IHt; [done..|lia]| |auto|exact Hs| | |set_solver|].
    { by rewrite <- Permutation_middle. }
    { eapply alive_mono; [done|]. set_solver. }
    { eapply tabled_ext; [|exact HT]. intros q m Hq. apply (HT1 q m). right.
      apply elem_of_app. left. apply elem_of_app. by left. }
    intros s2 HL2 _ _. by eapply frees_free.
  - rewrite tree_ents_bin in HL. destruct Hs as [Sl Sr], HT as [Tl Tr].
    cbn in Hsh. rewrite andb_True in Hsh. destruct Hsh as [Hl Hr].
    eapply frees_ext; [by eapply delete_node_step|].
    eapply frees_two; try done; apply deletes_operand; intros; [apply IHt1|apply IHt2]; try done; lia.
  - rewrite tree_ents_while in HL. destruct Hs as [Sl Sr], HT as [Tl Tr].
    cbn in Hsh. rewrite !andb_True in Hsh. destruct Hsh as [[Hl Hr] Hb].
    eapply frees_ext; [by eapply delete_node_step|].
    eapply frees_two; try done; [apply deletes_operand; intros; apply IHt1|apply IHt2]; try done; try lia.
    by apply negb_True in Hb; destruct (is_var t2).
  - rewrite tree_ents_if in HL. destruct Hs as [Sl Sr], HT as [Tl Tr].
    cbn in Hsh. rewrite !andb_True in Hsh. destruct Hsh as [[Hl Hr] Hb].
    eapply frees_ext; [by eapply delete_node_step|].
    eapply frees_two; try done; [apply deletes_operand; intros; apply IHt1|apply IHt2]; try done; try lia.
    by apply negb_True in Hb; destruct (is_var t2).
  - apply (delete_scope n p prev ds bs) with A; try done. apply Forall_forall. intros b Hb. rewrite Forall_forall in H0.
    destruct (shaped_scope p prev ds bs b Hsh Hb) as (Hb1 & Hb2 & Hb3). cbn [height] in Hb3. apply H0; [done..|lia].
Qed.
End delete.
