(* ===== verification/PclGen.v ===== *)
(** * The function that [codegen] builds computes the meaning of the tree *)

From stdpp Require Import pretty.
From S2P Require Import Prelude Llvm LlvmCfg Pcl PclTree PclCalc.

(** ** Types

    The value of an expression is a bit ([Some true]) or an integer; LLVM branches on
    bits only, and [And], [Or] and [Not] are the ones of [calc] on bits only. *)
Definition op_type (op : Operation) : option (bool * bool) :=
  match op with
  | Plus | Minus | Mul | Div | Mod => Some (false, false)
  | Greater | Less | GreaterEq | LessEq | Equal | NotEqual => Some (false, true)
  | And | Or => Some (true, true)
  | Assign | StdOut | StdIn | Not => None
  end.

Fixpoint ty (t : tree) : option bool :=
  match t with
  | TVal _ v => if int_fits v then Some false else None
  | TVar _ _ | TIn _ => Some false
  | TUn _ Not r => if decide (ty r = Some true) then Some true else None
  | TBin _ l op r =>
    '(a, b) ← op_type op;
    if decide (ty l = Some a ∧ ty r = Some a) then Some b else None
  | _ => None
  end.

Fixpoint typed (t : tree) : bool :=
  match t with
  | TUn _ StdOut r => bool_decide (ty r = Some false)
  | TBin _ (TVar _ _) Assign r => bool_decide (ty r = Some false)
  | TWhile _ c b | TIf _ c b => bool_decide (ty c = Some true) && typed b
  | TScope _ _ _ bs => forallb typed bs
  | _ => false
  end.

Definition word_of (τ : bool) (x : Z) : word := if τ then I1 (negb (x =? 0)) else I32 x.

Lemma i32_fits z : int_fits z = true → i32 z = z.
Proof.
  unfold int_fits, i32. rewrite andb_true_iff, Z.leb_le, Z.ltb_lt. intros Hz.
  rewrite Z.mod_small; lia.
Qed.

(** ** Code generation of a tree

    The nodes and the named slots do not change while the code of the program is
    generated; only the function does. *)
Section codegen.
Context `{IRDocumented}.
Variables (s : pstate) (M : list string) (NV : gmap string V) (D : list (string * ptr)).
Hypothesis HM : "__pcl_print" ∈ M ∧ "__pcl_scan" ∈ M.
Hypothesis Hslots : ∀ x y a, NV !! x = Some a → NV !! y = Some a → x = y.
Hypothesis Hnames : ∀ x d d', (x, d) ∈ D → (x, d') ∈ D → d = d'.
Hypothesis Hname : ∀ x y d, (x, d) ∈ D → (y, d) ∈ D → x = y.
Hypothesis Hdecls : ∀ x d, (x, d) ∈ D → is_Some (NV !! x).
Implicit Types (f g : F) (m : machine) (t l r c : tree) (σ : est).

Definition at_function (f : F) : pstate := set_gen (Some (Gen M (Some f) NV)) s.

Definition slots_known (f : F) : Prop := ∀ x a, NV !! x = Some a → known f a.

(** The slots have the values of the declarations that are set, the streams agree. *)
Record agrees σ m : Prop := {
  agrees_mem : ∀ x d, (x, d) ∈ D → ∃ a o, NV !! x = Some a ∧ mem m a = Some o ∧
    ∀ z, env σ !! d = Some z → o = Some (I32 z);
  agrees_in : input m = ein σ;
  agrees_out : output m = eout σ }.

Lemma build_run {A} (op : F → A * F) f a f' :
  op f = (a, f') → build op (at_function f) = Some (a, at_function f').
Proof. intros Hop. unfold build, gen. cunfold. cbn. by rewrite Hop. Qed.

Lemma build__run (op : F → F) f : build_ op (at_function f) = Some ((), at_function (op f)).
Proof. unfold build_. by erewrite build_run. Qed.

Lemma slots_le f g : slots_known f → le f g → slots_known g.
Proof. intros Hk Hle x a Hx. apply (le_known _ _ Hle). by eapply Hk. Qed.

Lemma agrees_keeps f σ m m' : slots_known f → agrees σ m → keeps f m m' → agrees σ m'.
Proof.
  intros Hk [E1 E2 E3] [K1 K2 K3 K4]. split; [|congruence..].
  intros x d Hx. destruct (E1 x d Hx) as (a & o & Ha & Ho & Hz).
  exists a, o. split; [done|]. split; [|done]. rewrite K2; [done|]. by eapply Hk.
Qed.

(** *** Expressions *)
Definition expr_code t τ f f' (v : V) : Prop :=
  known f' v ∧ ∃ js, emits f f' js ∧ ∀ σ x σ' m, beval t σ x σ' → agrees σ m →
    ∃ m', execs js m = Some m' ∧ agrees σ' m' ∧ (∀ w, known f w → val m' w = val m w) ∧
      val m' v = Some (word_of τ x).

Lemma b2z_eqb (c : bool) : negb (Z.b2z c =? 0) = c.
Proof. by destruct c. Qed.

(** The builder calls of the binary operations. *)
Definition op_create (op : Operation) : V → V → F → V * F :=
  match op with
  | Plus => CreateBin Add | Minus => CreateBin Sub | Mul => CreateBin Llvm.Mul
  | Div => CreateBin SDiv | Mod => CreateBin SRem
  | And => CreateBin BitAnd | Or => CreateBin BitOr
  | Greater => CreateICmp SGT | Less => CreateICmp SLT | GreaterEq => CreateICmp SGE
  | LessEq => CreateICmp SLE | Equal => CreateICmp EQ | NotEqual => CreateICmp NE
  | Assign | StdOut | StdIn | Not => λ v _ f, (v, f)
  end.

Lemma AddOperation_run op ab v1 v2 f v f' :
  op_type op = Some ab → op_create op v1 v2 f = (v, f') →
  AddOperation op (Some v1) (Some v2) (at_function f) = Some (Ok v, at_function f').
Proof.
  intros Hop Hc. destruct op; cbn in Hop; try done; unfold AddOperation, call; cbn [of_option default];
    cunfold; cbn in Hc |- *; (by erewrite build_run).
Qed.

Lemma op_create_computes op (a b : bool) v1 v2 f v f' :
  op_type op = Some (a, b) → op_create op v1 v2 f = (v, f') →
  computes f f' v (λ m w, ∃ x y z, val m v1 = Some (word_of a x) ∧ val m v2 = Some (word_of a y) ∧
    bin_value op x y = Some z ∧ w = word_of b z).
Proof.
  intros Hop Hc.
  assert (Hmono : ∀ (P Q : machine → word → Prop), (∀ m w, Q m w → P m w) → computes f f' v P → computes f f' v Q).
  { intros P Q HPQ (Hk & js & He & Hr). split; [done|]. exists js. split; [done|]. intros m w Hw. by apply Hr, HPQ. }
  destruct op; cbn in Hop; try done; injection Hop as <- <-; cbn in Hc;
    (eapply Hmono; [|first [by apply doc_bin in Hc|by apply doc_icmp in Hc]]);
    intros m w (x & y & z & Hx & Hy & Hz & ->); eexists _, _; (split; [done|]); (split; [done|]);
    cbn in Hz |- *; try (injection Hz as <-; by rewrite b2z_eqb).
  all: try (destruct (int_fits _) eqn:Hf; [|done]; injection Hz as <-; by rewrite i32_fits).
  - destruct (y =? 0); [done|]. by destruct (int_fits _); [injection Hz as <-|].
  - destruct (y =? 0); [done|]. by destruct (int_fits _); [injection Hz as <-|].
Qed.

Lemma call_node_at p n f :
  nodes s !! p = Some n → call (node_at p) (at_function f) = Some (Ok n, at_function f).
Proof. intros Hp. unfold call, node_at. cunfold. cbn. by rewrite Hp. Qed.

Lemma getFunction_run name f :
  name ∈ M → getFunction name (at_function f) = Some ((), at_function f).
Proof.
  intros Hn. unfold getFunction, gen. cunfold. cbn [set_gen at_function GlobalGen Module_].
  by rewrite bool_decide_true.
Qed.

Lemma emits_nil f : emits f f [].
Proof. split; try done. intros b. case_decide; [by rewrite app_nil_r|done]. Qed.

Lemma execs_app js1 js2 m : execs (js1 ++ js2) m = m' ← execs js1 m; execs js2 m'.
Proof.
  revert m. induction js1 as [|i js1 IH]; intros m; cbn; [done|].
  destruct (exec i m) as [m'|]; cbn; [apply IH|done].
Qed.

Lemma expr_code_val p v f : int_fits v = true → expr_code (TVal p v) false f f (ConstantInt_get v).
Proof.
  intros Hf. split; [apply (doc_const v f)|]. exists []. split; [apply emits_nil|].
  intros σ x σ' m Hb Ha. inversion Hb; subst. exists m. split; [done|]. split; [done|]. split; [done|].
  unfold val. destruct (doc_const x f) as [-> _]. by rewrite i32_fits.
Qed.

Lemma expr_code_var d x a f v f' :
  (x, d) ∈ D → NV !! x = Some a → slots_known f → CreateLoad a f = (v, f') →
  expr_code (TVar d x) false f f' v.
Proof.
  intros Hx Ha Hk Hl. destruct (doc_load _ _ _ _ Hl) as (Hkv & js & He & Hr). split; [done|].
  exists js. split; [done|]. intros σ z σ' m Hb Hm. inversion Hb; subst.
  destruct (agrees_mem _ _ Hm x d Hx) as (a' & o & Ha' & Ho & Hz). rewrite Ha in Ha'. injection Ha' as <-.
  destruct (Hr m o Ho) as (m' & Hm' & Hkeep & Hval). exists m'. split; [done|].
  split; [by eapply agrees_keeps|]. split; [apply Hkeep|]. eauto.
Qed.

Lemma expr_code_in p f v f' :
  slots_known f → CreateCallScan f = (v, f') → expr_code (TIn p) false f f' v.
Proof.
  intros Hk Hs. destruct (doc_scan _ _ _ Hs) as (Hkv & js & He & Hr). split; [done|].
  exists js. split; [done|]. intros σ z σ' m Hb Hm. inversion Hb; subst.
  destruct Hm as [E1 E2 E3]. cbn in E2, E3. destruct (Hr m z i ltac:(by rewrite E2)) as (m' & Hm' & Hkeep & Hval).
  exists m'. split; [done|]. split; [|split; [apply Hkeep|done]].
  eapply agrees_keeps; [exact Hk| |exact Hkeep]. by split.
Qed.

Lemma expr_code_not p r f f1 v1 v f' :
  slots_known f1 → expr_code r true f f1 v1 → CreateNot v1 f1 = (v, f') →
  expr_code (TUn p Not r) true f f' v.
Proof.
  intros Hk (_ & js1 & He1 & Hr1) Hn. destruct (doc_not _ _ _ _ Hn) as (Hkv & js2 & He2 & Hr2).
  split; [done|]. exists (js1 ++ js2). split; [by eapply emits_trans|].
  intros σ z σ' m Hb Hm. apply beval_not_inv in Hb as (x & Hb & ->).
  destruct (Hr1 _ _ _ _ Hb Hm) as (m1 & Hm1 & Ha1 & Hv1 & Hw1).
  destruct (Hr2 m1 (not_result (word_of true x))) as (m2 & Hm2 & Hkeep & Hw2); [by eexists|].
  exists m2. rewrite execs_app, Hm1. cbn. split; [done|]. split; [by eapply agrees_keeps|]. split.
  - intros w Hw. rewrite (keeps_val _ _ _ Hkeep) by (by apply (emits_known _ _ _ He1)). auto.
  - rewrite Hw2. cbn. by destruct (x =? 0).
Qed.

Lemma expr_code_bin p l op r (a b : bool) f f1 f2 v1 v2 v f' :
  op_type op = Some (a, b) → slots_known f2 →
  expr_code l a f f1 v1 → expr_code r a f1 f2 v2 → op_create op v1 v2 f2 = (v, f') →
  expr_code (TBin p l op r) b f f' v.
Proof.
  intros Hop Hk (Hk1 & js1 & He1 & Hr1) (_ & js2 & He2 & Hr2) Hc.
  destruct (op_create_computes _ _ _ _ _ _ _ _ Hop Hc) as (Hkv & js3 & He3 & Hr3).
  split; [done|]. exists ((js1 ++ js2) ++ js3). split; [eapply emits_trans; [by eapply emits_trans|done]|].
  intros σ z σ' m Hb Hm. apply beval_bin_inv in Hb as (x & y & σ1 & Bl & Br & Hz); [|by intros ->].
  destruct (Hr1 _ _ _ _ Bl Hm) as (m1 & Hm1 & Ha1 & Hkeep1 & Hw1).
  destruct (Hr2 _ _ _ _ Br Ha1) as (m2 & Hm2 & Ha2 & Hkeep2 & Hw2).
  destruct (Hr3 m2 (word_of b z)) as (m3 & Hm3 & Hkeep3 & Hw3).
  { exists x, y, z. rewrite Hkeep2 by done. done. }
  exists m3. rewrite !execs_app, Hm1. cbn. rewrite Hm2. cbn. split; [done|].
  split; [by eapply agrees_keeps|]. split; [|done]. intros w Hw.
  assert (Hw' : known f1 w) by (by apply (emits_known _ _ _ He1)).
  rewrite (keeps_val _ _ _ Hkeep3) by (by apply (emits_known _ _ _ He2)).
  rewrite Hkeep2 by done. auto.
Qed.

(** The code of an operand, which may be null. *)
Definition operand_code n (l : ptr) f o f' : Prop :=
  (if (l =? 0)%nat then mret None else codegen n l) (at_function f) = Some (Ok o, at_function f').

Lemma operand_null n f : operand_code n 0 f None f.
Proof. done. Qed.

Lemma operand_tree n t f v f' :
  holds (nodes s) t → codegen n (root t) (at_function f) = Some (Ok v, at_function f') →
  operand_code n (root t) f v f'.
Proof.
  intros Hh Hc. unfold operand_code. assert (Hr := holds_root _ _ Hh). apply Nat.eqb_neq in Hr. by rewrite Hr.
Qed.

Lemma codegen_operand n p (l : ptr) op (r : ptr) f f1 f2 LV RV v f' :
  nodes s !! p = Some (Operand l op r) → op ≠ Assign →
  operand_code n l f LV f1 → operand_code n r f1 RV f2 →
  AddOperation op LV RV (at_function f2) = Some (Ok v, at_function f') →
  codegen (S n) p (at_function f) = Some (Ok (Some v), at_function f').
Proof.
  intros Hp Hop Hl Hr Ha. cbn [codegen]. rewrite (X_bind_Ok _ _ _ _ _ (call_node_at _ _ _ Hp)).
  unfold Operand_codegen.
  rewrite (X_bind_Ok _ _ _ _ _ Hl), (X_bind_Ok _ _ _ _ _ Hr). rewrite decide_False by done.
  unfold as_value. by rewrite (X_bind_Ok _ _ _ _ _ Ha).
Qed.

Lemma codegen_expr t τ :
  is_expr t → ty t = Some τ → vars t ⊆ D → holds (nodes s) t →
  ∀ n f, (height t ≤ n)%nat → is_open f → slots_known f → ∃ v f',
    codegen n (root t) (at_function f) = Some (Ok (Some v), at_function f') ∧ expr_code t τ f f' v.
Proof.
  revert τ. induction t using tree_induction; intros τ He Hty Hv Hh [|n] f Hn Ho Hk; cbn in Hn; try lia; try done.
  - cbn in Hty. destruct (int_fits v) eqn:Hf; [|done]. injection Hty as <-.
    assert (Hp : nodes s !! p = Some (Value v)) by (apply Hh; cbn; set_solver).
    exists (ConstantInt_get v), f. split; [|by apply expr_code_val].
    cbn [codegen root]. by rewrite (X_bind_Ok _ _ _ _ _ (call_node_at _ _ _ Hp)).
  - injection Hty as <-. destruct (holds_var _ _ Hh x d) as [z Hd]; [cbn; set_solver|].
    assert (Hx : (x, d) ∈ D) by (apply Hv; cbn; set_solver).
    destruct (Hdecls _ _ Hx) as [a Ha]. destruct (CreateLoad a f) as [v f'] eqn:Hl.
    exists v, f'. split; [|by eapply expr_code_var].
    cbn [codegen root]. rewrite (X_bind_Ok _ _ _ _ _ (call_node_at _ _ _ Hd)).
    unfold Decl_codegen, as_value, AddDeclRead, named, gen. cunfold. cbn. rewrite Ha. by rewrite (build_run _ _ _ _ Hl).
  - injection Hty as <-. assert (Hp : nodes s !! p = Some (Operand 0 StdIn 0)) by (apply Hh; cbn; set_solver).
    destruct (CreateCallScan f) as [v f'] eqn:Hl. exists v, f'. split; [|by apply expr_code_in].
    eapply codegen_operand; [done|done|apply operand_null|apply operand_null|].
    unfold AddOperation. cunfold. rewrite getFunction_run by apply HM. by rewrite (build_run _ _ _ _ Hl).
  - destruct op; try done. cbn in Hty. case_decide as Hr; [|done]. injection Hty as <-.
    destruct (holds_un _ _ _ _ Hh) as [Hp Hhr].
    destruct (IHt _ He Hr ltac:(done) Hhr n f ltac:(lia) Ho Hk) as (v1 & f1 & Hrun & Hcode).
    destruct (CreateNot v1 f1) as [v f'] eqn:Hl. exists v, f'. split; [|eapply expr_code_not; [|done..]].
    + eapply codegen_operand; [done|done|apply operand_null|by apply operand_tree|].
      unfold AddOperation. cunfold. cbn. by rewrite (build_run _ _ _ _ Hl).
    + destruct Hcode as (_ & js & He1 & _). destruct (emits_le _ _ _ Ho He1) as (Hle & _). by eapply slots_le.
  - destruct (is_expr_bin _ _ _ _ He) as (Hop & El & Er). destruct (holds_bin _ _ _ _ _ Hh) as (Hp & Hhl & Hhr).
    cbn in Hty. destruct (op_type op) as [[a b]|] eqn:Hot; [|done]. cbn in Hty.
    case_decide as Htt; [|done]. destruct Htt as [Htl Htr]. injection Hty as <-.
    assert (Hvl : vars t1 ⊆ D ∧ vars t2 ⊆ D) by (cbn in Hv; set_solver). destruct Hvl as [Hvl Hvr].
    destruct (IHt1 _ El Htl Hvl Hhl n f ltac:(lia) Ho Hk) as (v1 & f1 & Hrun1 & Hcode1).
    assert (Hf1 : is_open f1 ∧ slots_known f1).
    { destruct Hcode1 as (_ & js & He1 & _). destruct (emits_le _ _ _ Ho He1) as (Hle & _ & Ho1).
      split; [done|]. by eapply slots_le. }
    destruct Hf1 as [Ho1 Hk1].
    destruct (IHt2 _ Er Htr Hvr Hhr n f1 ltac:(lia) Ho1 Hk1) as (v2 & f2 & Hrun2 & Hcode2).
    destruct (op_create op v1 v2 f2) as [v f'] eqn:Hc. exists v, f'. split.
    + eapply codegen_operand; [done|done|by apply operand_tree|by apply operand_tree|].
      by eapply AddOperation_run.
    + eapply expr_code_bin; [done| |done..].
      destruct Hcode2 as (_ & js & He2 & _). destruct (emits_le _ _ _ Ho1 He2) as (Hle & _). by eapply slots_le.
Qed.

(** *** Statements *)
Record stm_code t f f' : Prop := {
  stm_le : le f f';
  stm_local : local f f';
  stm_open : is_open f';
  stm_run : ∀ g, le f' g → ∀ σ x σ' m, beval t σ x σ' → agrees σ m →
    ∃ m', steps g (pos g f, m) (pos g f', m') ∧ agrees σ' m' }.

(** The code of an expression, run from where it starts to where it ends. *)
Lemma expr_code_steps t τ f f' v :
  is_open f → expr_code t τ f f' v → le f f' ∧ local f f' ∧ is_open f' ∧
  ∀ g, le f' g → ∀ σ x σ' m, beval t σ x σ' → agrees σ m →
    ∃ m', steps g (pos g f, m) (pos g f', m') ∧ agrees σ' m' ∧ val m' v = Some (word_of τ x).
Proof.
  intros Ho (_ & js & He & Hr). destruct (emits_le _ _ _ Ho He) as (Hle & Hloc & Ho').
  split; [done|]. split; [done|]. split; [done|]. intros g Hg σ x σ' m Hb Hm.
  destruct (Hr _ _ _ _ Hb Hm) as (m' & Hm' & Ha & _ & Hv). exists m'. split; [|done].
  by eapply emits_steps.
Qed.

(** A statement whose code is that of its operand and one call for its effect. *)
Lemma stm_code_effect t r f f1 v1 f' eff :
  is_open f → expr_code r false f f1 v1 → performs f1 f' eff →
  (∀ σ x σ', beval t σ x σ' → ∃ z σ1, beval r σ z σ1 ∧ ∀ m, agrees σ1 m → val m v1 = Some (I32 z) →
    ∃ m1, eff m m1 ∧ ∀ m2, keeps f1 m1 m2 → agrees σ' m2) →
  stm_code t f f'.
Proof.
  intros Ho Hcode (js & He & Hperf) Heff.
  destruct (expr_code_steps _ _ _ _ _ Ho Hcode) as (Hle1 & Hloc1 & Ho1 & Hrun1).
  destruct (emits_le _ _ _ Ho1 He) as (Hle2 & Hloc2 & Ho2). split.
  - by etrans.
  - by eapply local_trans.
  - done.
  - intros g Hg σ x σ' m Hb Hm. destruct (Heff _ _ _ Hb) as (z & σ1 & Hr & Hev).
    destruct (Hrun1 g ltac:(by etrans) _ _ _ _ Hr Hm) as (m1 & Hs1 & Ha1 & Hv1).
    destruct (Hev m1 Ha1 Hv1) as (m2 & Hm2 & Hag). destruct (Hperf _ _ Hm2) as (m3 & Hm3 & Hk3).
    exists m3. split; [|by apply Hag]. etrans; [exact Hs1|]. by eapply emits_steps.
Qed.

Lemma slots_expr t τ f f' v : is_open f → expr_code t τ f f' v → slots_known f → slots_known f'.
Proof. intros Ho Hc. destruct (expr_code_steps _ _ _ _ _ Ho Hc) as (Hle & _). intros Hk. by eapply slots_le. Qed.

Lemma codegen_out p r n f :
  is_expr r → ty r = Some false → vars r ⊆ D → holds (nodes s) (TUn p StdOut r) →
  (height r ≤ n)%nat → is_open f → slots_known f → ∃ o f',
    codegen (S n) p (at_function f) = Some (Ok o, at_function f') ∧ stm_code (TUn p StdOut r) f f'.
Proof.
  intros He Hty Hv Hh Hn Ho Hk. destruct (holds_un _ _ _ _ Hh) as [Hp Hhr].
  destruct (codegen_expr r false He Hty Hv Hhr n f Hn Ho Hk) as (v1 & f1 & Hrun & Hcode).
  assert (Hk1 := slots_expr _ _ _ _ _ Ho Hcode Hk).
  destruct (CreateCallPrint v1 f1) as [v f'] eqn:Hl. exists (Some v), f'. split.
  - eapply codegen_operand; [done|done|apply operand_null|by apply operand_tree|].
    unfold AddOperation. cunfold. rewrite getFunction_run by apply HM. by rewrite (build_run _ _ _ _ Hl).
  - eapply stm_code_effect; [done|exact Hcode|by eapply doc_print|].
    intros σ x σ' Hb. apply beval_out_inv in Hb as (z & σ1 & Hb & ->). exists z, σ1. split; [done|].
    intros m [E1 E2 E3] Hw. eexists. split; [by exists z|]. intros m2 Hkeep.
    eapply agrees_keeps; [exact Hk1| |exact Hkeep]. split; cbn; [done|done|by rewrite E3].
Qed.

(** Code without effect in front of a statement. *)
Lemma stm_code_after t f f1 f' js :
  is_open f → emits f f1 js →
  (∀ σ m, agrees σ m → ∃ m', execs js m = Some m' ∧ agrees σ m') →
  stm_code t f1 f' → stm_code t f f'.
Proof.
  intros Ho He Hex [L2 C2 O2 R2]. destruct (emits_le _ _ _ Ho He) as (L1 & C1 & O1). split.
  - by etrans.
  - by eapply local_trans.
  - done.
  - intros g Hg σ x σ' m Hb Hm. destruct (Hex _ _ Hm) as (m1 & Hm1 & Ha1).
    destruct (R2 g Hg _ _ _ _ Hb Ha1) as (m2 & Hs2 & Ha2). exists m2. split; [|done].
    etrans; [|exact Hs2]. eapply emits_steps; [done|done|by etrans|done].
Qed.

Lemma agrees_store σ m x d a z :
  (x, d) ∈ D → NV !! x = Some a → agrees σ m →
  agrees (Est (<[d := z]> (env σ)) (ein σ) (eout σ))
    (Machine (regs m) (λ q, if decide (q = a) then Some (Some (I32 z)) else mem m q) (input m) (output m)).
Proof.
  intros Hx Ha [E1 E2 E3]. split; [|done..]. intros y d' Hy. destruct (E1 y d' Hy) as (b & o & Hb & Ho & Hz).
  exists b. destruct (decide (b = a)) as [->|Hne].
  - assert (y = x) as -> by (by eapply Hslots). assert (d' = d) as -> by (by eapply Hnames).
    eexists. split; [done|]. cbn. split; [by rewrite decide_True|]. rewrite lookup_insert_eq. by intros w [= ->].
  - exists o. split; [done|]. cbn. split; [by rewrite decide_False|].
    rewrite lookup_insert_ne; [done|]. intros <-. destruct Hne.
    assert (x = y) as -> by (by eapply Hname). congruence.
Qed.

Lemma codegen_assign p d x r n f :
  is_expr r → ty r = Some false → vars (TBin p (TVar d x) Assign r) ⊆ D →
  holds (nodes s) (TBin p (TVar d x) Assign r) →
  (1 `max` height r ≤ n)%nat → is_open f → slots_known f → ∃ o f',
    codegen (S n) p (at_function f) = Some (Ok o, at_function f') ∧
    stm_code (TBin p (TVar d x) Assign r) f f'.
Proof.
  intros He Hty Hv Hh Hn Ho Hk. destruct (holds_bin _ _ _ _ _ Hh) as (Hp & Hhl & Hhr).
  assert (Hx : (x, d) ∈ D) by (apply Hv; cbn; set_solver).
  assert (Hvr : vars r ⊆ D) by (cbn in Hv; set_solver).
  destruct (Hdecls _ _ Hx) as [a Ha]. destruct (CreateLoad a f) as [v0 f0] eqn:Hl.
  destruct (doc_load _ _ _ _ Hl) as (_ & js & He0 & Hr0).
  destruct (emits_le _ _ _ Ho He0) as (Hle0 & _ & Ho0). assert (Hk0 := slots_le _ _ Hk Hle0).
  destruct (codegen_expr r false He Hty Hvr Hhr n f0 ltac:(lia) Ho0 Hk0) as (v1 & f1 & Hrun & Hcode).
  assert (Hk1 := slots_expr _ _ _ _ _ Ho0 Hcode Hk0).
  destruct (CreateStore v1 a f1) as [v f'] eqn:Hs. exists (Some v), f'. split.
  - cbn [Pcl.codegen]. rewrite (X_bind_Ok _ _ _ _ _ (call_node_at _ _ _ Hp)). cbn [root].
    destruct (holds_var _ _ Hh x d) as [w Hd]; [cbn; set_solver|].
    assert (Hload : codegen n d (at_function f) = Some (Ok (Some v0), at_function f0)).
    { destruct n as [|n]; [lia|]. cbn [Pcl.codegen]. rewrite (X_bind_Ok _ _ _ _ _ (call_node_at _ _ _ Hd)).
      unfold Decl_codegen, as_value, AddDeclRead, named, gen. cunfold. cbn. rewrite Ha. by rewrite (build_run _ _ _ _ Hl). }
    unfold Operand_codegen. rewrite (X_bind_Ok _ _ _ _ _ (operand_tree n (TVar d x) _ _ _ Hhl Hload)).
    rewrite (X_bind_Ok _ _ _ _ _ (operand_tree n r _ _ _ Hhr Hrun)).
    rewrite decide_True by done. rewrite (X_bind_Ok _ _ _ _ _ (call_node_at _ _ _ Hd)).
    unfold as_value, Decl_assign, AddDeclWrite, named, gen. cunfold. cbn. rewrite Ha. by rewrite (build_run _ _ _ _ Hs).
  - eapply stm_code_after; [done|exact He0| |].
    { intros σ m Hm. destruct (agrees_mem _ _ Hm x d Hx) as (a' & o & Ha' & Hmo & _).
      rewrite Ha in Ha'. injection Ha' as <-. destruct (Hr0 m o Hmo) as (m' & Hm' & Hkeep & _).
      exists m'. split; [done|]. by eapply agrees_keeps; [exact Hk|..]. }
    eapply stm_code_effect; [done|exact Hcode|by eapply doc_store|].
    intros σ z σ' Hb. apply beval_assign_inv in Hb as (z' & σ1 & Hb & ->). exists z', σ1. split; [done|].
    intros m Hm Hw. destruct (agrees_mem _ _ Hm x d Hx) as (a' & o & Ha' & Hmo & _).
    rewrite Ha in Ha'. injection Ha' as <-.
    eexists. split; [by exists (I32 z'), o|]. intros m2 Hkeep.
    eapply agrees_keeps; [exact Hk1| |exact Hkeep]. by eapply agrees_store.
Qed.

(** *** Branches and loops *)
Lemma StartIf_run v f b1 b2 f1 f2 :
  BasicBlock_Create f = (b1, f1) → BasicBlock_Create f1 = (b2, f2) →
  StartIf v (at_function f) = Some (b2, at_function (SetInsertPoint b1 (CreateCondBr v b1 b2 f2))).
Proof.
  intros H1' H2'. unfold StartIf. rewrite (C_bind_Some _ _ _ _ _ (build_run _ _ _ _ H1')).
  rewrite (C_bind_Some _ _ _ _ _ (build_run _ _ _ _ H2')).
  rewrite (C_bind_Some _ _ _ _ _ (build__run _ _)). by rewrite (C_bind_Some _ _ _ _ _ (build__run _ _)).
Qed.

Lemma StartWhile_run v f b1 b2 f1 f2 :
  BasicBlock_Create f = (b1, f1) → BasicBlock_Create f1 = (b2, f2) →
  StartWhile v (at_function f) =
    Some ((b1, b2), at_function (SetInsertPoint b1 (CreateCondBr v b1 b2 f2))).
Proof.
  intros H1' H2'. unfold StartWhile. rewrite (C_bind_Some _ _ _ _ _ (build_run _ _ _ _ H1')).
  rewrite (C_bind_Some _ _ _ _ _ (build_run _ _ _ _ H2')).
  rewrite (C_bind_Some _ _ _ _ _ (build__run _ _)). by rewrite (C_bind_Some _ _ _ _ _ (build__run _ _)).
Qed.

(** The code of the condition, then the branch. *)
Lemma cond_code c f f1 v b1 b2 f3 :
  is_open f → expr_code c true f f1 v → branched v f1 b1 b2 f3 →
  le f f3 ∧ ∀ g, le f3 g → ∀ σ x σ' m, beval c σ x σ' → agrees σ m →
    ∃ m', agrees σ' m' ∧ let d := if negb (x =? 0) then b1 else b2 in
      steps g (pos g f, m) (d, code g d, m').
Proof.
  intros Ho Hc Hb. destruct (expr_code_steps _ _ _ _ _ Ho Hc) as (Hle & _ & _ & Hrun).
  split; [etrans; [done|apply Hb]|]. intros g Hg σ x σ' m Hev Hm.
  assert (Hg1 : le f1 g) by (etrans; [apply Hb|done]).
  destruct (Hrun g Hg1 _ _ _ _ Hev Hm) as (m' & Hs & Ha & Hv). exists m'. split; [done|].
  etrans; [exact Hs|]. by apply (brd_step _ _ _ _ _ Hb).
Qed.

(** Closing the branch: the merge block has not been touched by what came between. *)
Lemma merge_code f1 v b1 b2 f3 f6 f7 (t : terminator) :
  branched v f1 b1 b2 f3 → le f3 f6 → local f3 f6 → is_open f6 → ends f6 f7 t →
  let f8 := SetInsertPoint b2 f7 in
  here f6 ≠ b2 ∧ le f7 f8 ∧ here f8 = b2 ∧ is_open f8 ∧ code f8 b2 = [].
Proof.
  intros Hb Hle Hloc Ho He f8. destruct (doc_insert f7 b2) as (Ih & Is & Ib & _). fold f8 in Ih, Is, Ib.
  destruct (brd_merge _ _ _ _ _ Hb) as [Mc Mt].
  assert (Hne : here f6 ≠ b2).
  { intros Heq. destruct (local_here _ _ Hloc) as [Hh|Hh].
    - rewrite Hh, (brd_here _ _ _ _ _ Hb) in Heq. by apply (brd_ne _ _ _ _ _ Hb).
    - apply Hh. rewrite Heq. apply (brd_block2 _ _ _ _ _ Hb). }
  assert (Hsame : code f6 b2 = [] ∧ term f6 b2 = None).
  { destruct (local_same _ _ Hloc b2) as [-> ->]; [apply (brd_block2 _ _ _ _ _ Hb)| |done].
    rewrite (brd_here _ _ _ _ _ Hb). apply (brd_ne _ _ _ _ _ Hb). }
  destruct He as [Eh Ec Et Eb Ek]. destruct (Is b2) as [Sc St].
  split; [done|]. split; [apply insert_le|]. split; [done|]. split.
  - split; rewrite Ih; [apply Ib, Eb, (le_block _ _ Hle), (brd_block2 _ _ _ _ _ Hb)|].
    rewrite St, Et, decide_False by congruence. apply Hsame.
  - rewrite Sc, Ec. apply Hsame.
Qed.

Lemma branch_local f f1 v b1 b2 f3 f6 f7 (t : terminator) :
  le f f1 → local f f1 → branched v f1 b1 b2 f3 → le f3 f6 → local f3 f6 → is_open f6 → ends f6 f7 t →
  local f (SetInsertPoint b2 f7).
Proof.
  intros L1 C1 Hb Hle Hloc Ho He. eapply local_trans; [exact L1|exact C1|].
  destruct (doc_insert f7 b2) as (Ih & Is & _). destruct (ends_le _ _ _ Ho He) as (_ & C7).
  split; [|right; rewrite Ih; apply (brd_new2 _ _ _ _ _ Hb)].
  intros b Hbb Hne. destruct (Is b) as [-> ->]. destruct (brd_same _ _ _ _ _ Hb b Hbb Hne) as [<- <-].
  assert (H3 : has_block f3 b) by (by apply (le_block _ _ (brd_le _ _ _ _ _ Hb))).
  assert (Hb1 : b ≠ b1) by (intros ->; by apply (brd_new1 _ _ _ _ _ Hb)).
  destruct (local_same _ _ Hloc b H3) as [<- <-]; [by rewrite (brd_here _ _ _ _ _ Hb)|].
  apply C7; [by apply (le_block _ _ Hle)|]. intros ->.
  destruct (local_here _ _ Hloc) as [Hh|Hh]; [|done]. by rewrite Hh, (brd_here _ _ _ _ _ Hb) in Hb1.
Qed.

Definition codegen_ok t : Prop := ∀ n f, (height t ≤ n)%nat → is_open f → slots_known f → ∃ o f',
  codegen n (root t) (at_function f) = Some (Ok o, at_function f') ∧ stm_code t f f'.

Lemma codegen_if p c (b : tree) :
  is_expr c → ty c = Some true → vars c ⊆ D → holds (nodes s) (TIf p c b) →
  codegen_ok b → codegen_ok (TIf p c b).
Proof.
  intros Ec Tc Vc Hh IHb [|n] f Hn Ho Hk; cbn in Hn; [lia|]. destruct (holds_if _ _ _ _ Hh) as (Hp & Hhc & Hhb).
  destruct (codegen_expr c true Ec Tc Vc Hhc n f ltac:(lia) Ho Hk) as (v & f1 & Hrun1 & Hcode).
  destruct (expr_code_steps _ _ _ _ _ Ho Hcode) as (L1 & C1 & O1 & _).
  destruct (BasicBlock_Create f1) as [b1 f1'] eqn:D1. destruct (BasicBlock_Create f1') as [b2 f2] eqn:D2.
  assert (Hb := start_branch v _ _ _ _ _ O1 D1 D2). set (f3 := SetInsertPoint b1 _) in Hb.
  assert (K3 : slots_known f3) by (eapply slots_le; [|apply Hb]; by eapply slots_le).
  destruct (IHb n f3 ltac:(lia) (brd_open _ _ _ _ _ Hb) K3) as (o & f6 & Hrun6 & [L6 C6 O6 R6]).
  assert (He := doc_br b2 f6). destruct (merge_code _ _ _ _ _ _ _ _ Hb L6 C6 O6 He) as (N6 & L8 & H8 & O8 & E8).
  destruct (ends_le _ _ _ O6 He) as (L7 & _). set (f8 := SetInsertPoint b2 (CreateBr b2 f6)) in *.
  exists None, f8. split.
  - cbn [Pcl.codegen root]. rewrite (X_bind_Ok _ _ _ _ _ (call_node_at _ _ _ Hp)).
    unfold If_codegen.
    unfold some_value. rewrite X_bind_assoc, (X_bind_Ok _ _ _ _ _ Hrun1). cstep.
    erewrite X_bind_Ok by (unfold call; by rewrite (StartIf_run v _ _ _ _ _ D1 D2)).
    rewrite (X_bind_Ok _ _ _ _ _ Hrun6). unfold no_value, EndIf, call.
    erewrite X_bind_Ok; [done|]. rewrite (C_bind_Some _ _ _ _ _ (build__run _ _)).
    by rewrite build__run.
  - assert (L68 : le f6 f8) by (etrans; [exact L7|exact L8]).
    assert (L38 : le f3 f8) by (etrans; [exact L6|exact L68]).
    destruct (cond_code c f f1 v b1 b2 f3 Ho Hcode Hb) as (L3 & R3). split; [etrans; [exact L3|exact L38]|exact (branch_local _ _ _ _ _ _ _ _ _ L1 C1 Hb L6 C6 O6 He)|done|].
    intros g Hg σ x σ' m Hev Hm. apply beval_if_inv in Hev as (y & σ1 & Hc & Hcase).
    assert (G3 : le f3 g) by (etrans; [exact L38|exact Hg]).
    assert (G6 : le f6 g) by (etrans; [exact L68|exact Hg]). destruct (R3 g G3 _ _ _ _ Hc Hm) as (m1 & A1 & S1).
    assert (P8 : pos g f8 = (b2, code g b2)) by (rewrite start_pos; by rewrite H8).
    rewrite P8. destruct Hcase as [[-> ->]|[Hy (z & Hz)]]; [by exists m1|].
    rewrite (proj2 (Z.eqb_neq _ _)) in S1 by done. cbn in S1.
    destruct (R6 g G6 _ _ _ _ Hz A1) as (m2 & S2 & A2). exists m2. split; [|done].
    etrans; [exact S1|]. assert (P3 : pos g f3 = (b1, code g b1)).
    { rewrite start_pos; rewrite (brd_here _ _ _ _ _ Hb); [done|apply Hb]. }
    rewrite <- P3. etrans; [exact S2|]. apply br_step; [done|]. etrans; [exact L8|exact Hg].
Qed.

(** One turn after another: from the end of the body to the end of the loop. *)
Lemma loop_steps p c (b : tree) g f3 f6 f7 b1 b2 v2 :
  is_open f7 → le (CreateCondBr v2 b1 b2 f7) g → here f3 = b1 → code f3 b1 = [] →
  (∀ σ x σ' m, beval c σ x σ' → agrees σ m → ∃ m', steps g (pos g f6, m) (pos g f7, m') ∧
    agrees σ' m' ∧ val m' v2 = Some (word_of true x)) →
  (∀ σ x σ' m, beval b σ x σ' → agrees σ m → ∃ m', steps g (pos g f3, m) (pos g f6, m') ∧ agrees σ' m') →
  ∀ σ σ' m, beval (TWhile p c b) σ 0 σ' → agrees σ m →
    ∃ m', steps g (pos g f6, m) (b2, code g b2, m') ∧ agrees σ' m'.
Proof.
  intros Ho Hle Hh Hc Rc Rb σ σ' m Hev. revert m. remember (TWhile p c b) as w eqn:Hw.
  induction Hev using beval_ind; try discriminate Hw; injection Hw as -> -> ->; intros m Hm.
  - destruct (Rc _ _ _ _ Hev Hm) as (m1 & S1 & A1 & V1). exists m1. split; [|done].
    etrans; [exact S1|]. by apply (cond_step g f7 v2 b1 b2 m1 false).
  - destruct (Rc _ _ _ _ Hev1 Hm) as (m1 & S1 & A1 & V1).
    destruct (Rb _ _ _ _ Hev2 A1) as (m2 & S2 & A2). destruct (IHHev3 eq_refl _ A2) as (m3 & S3 & A3).
    exists m3. split; [|done]. etrans; [exact S1|]. etrans; [|etrans; [exact S2|exact S3]].
    rewrite (start_pos g f3) by (by rewrite Hh). rewrite Hh. apply (cond_step g f7 v2 b1 b2 m1 true); [done..|].
    rewrite V1. cbn. by rewrite (proj2 (Z.eqb_neq _ _)).
Qed.

Lemma codegen_while p c (b : tree) :
  is_expr c → ty c = Some true → vars c ⊆ D → holds (nodes s) (TWhile p c b) →
  codegen_ok b → codegen_ok (TWhile p c b).
Proof.
  intros Ec Tc Vc Hh IHb [|n] f Hn Ho Hk; cbn in Hn; [lia|]. destruct (holds_while _ _ _ _ Hh) as (Hp & Hhc & Hhb).
  destruct (codegen_expr c true Ec Tc Vc Hhc n f ltac:(lia) Ho Hk) as (v & f1 & Hrun1 & Hcode).
  destruct (expr_code_steps _ _ _ _ _ Ho Hcode) as (L1 & C1 & O1 & _).
  destruct (BasicBlock_Create f1) as [b1 f1'] eqn:D1. destruct (BasicBlock_Create f1') as [b2 f2] eqn:D2.
  assert (Hb := start_branch v _ _ _ _ _ O1 D1 D2). set (f3 := SetInsertPoint b1 _) in Hb.
  assert (K3 : slots_known f3) by (eapply slots_le; [|apply Hb]; by eapply slots_le).
  destruct (IHb n f3 ltac:(lia) (brd_open _ _ _ _ _ Hb) K3) as (o & f6 & Hrun6 & [L6 C6 O6 R6]).
  assert (K6 : slots_known f6) by (by eapply slots_le).
  destruct (codegen_expr c true Ec Tc Vc Hhc n f6 ltac:(lia) O6 K6) as (v2 & f7 & Hrun7 & Hcode7).
  destruct (expr_code_steps _ _ _ _ _ O6 Hcode7) as (L7 & C7 & O7 & R7).
  assert (L37 : le f3 f7) by (etrans; [exact L6|exact L7]).
  assert (C37 : local f3 f7) by (eapply local_trans; [exact L6|exact C6|exact C7]).
  assert (He := doc_cond v2 b1 b2 f7). destruct (merge_code _ _ _ _ _ _ _ _ Hb L37 C37 O7 He) as (N8 & L8 & H8 & O8 & E8).
  destruct (ends_le _ _ _ O7 He) as (L78 & _). set (f8 := SetInsertPoint b2 (CreateCondBr v2 b1 b2 f7)) in *.
  exists None, f8. split.
  - cbn [Pcl.codegen root]. rewrite (X_bind_Ok _ _ _ _ _ (call_node_at _ _ _ Hp)).
    unfold While_codegen.
    unfold some_value. rewrite X_bind_assoc, (X_bind_Ok _ _ _ _ _ Hrun1). cstep.
    erewrite X_bind_Ok by (unfold call; by rewrite (StartWhile_run v _ _ _ _ _ D1 D2)).
    rewrite (X_bind_Ok _ _ _ _ _ Hrun6), X_bind_assoc, (X_bind_Ok _ _ _ _ _ Hrun7). cstep.
    unfold no_value, EndWhile, call.
    erewrite X_bind_Ok; [done|]. rewrite (C_bind_Some _ _ _ _ _ (build__run _ _)).
    by rewrite build__run.
  - assert (L38 : le f3 f8) by (etrans; [exact L37|etrans; [exact L78|exact L8]]).
    destruct (cond_code c f f1 v b1 b2 f3 Ho Hcode Hb) as (L3 & R3).
    split; [etrans; [exact L3|exact L38]|exact (branch_local _ _ _ _ _ _ _ _ _ L1 C1 Hb L37 C37 O7 He)|done|].
    intros g Hg σ x σ' m Hev Hm.
    assert (G3 : le f3 g) by (etrans; [exact L38|exact Hg]).
    assert (G7 : le f7 g) by (etrans; [exact L78|etrans; [exact L8|exact Hg]]).
    assert (G6 : le f6 g) by (etrans; [exact L7|exact G7]).
    assert (P8 : pos g f8 = (b2, code g b2)) by (rewrite start_pos; by rewrite H8). rewrite P8.
    assert (P3 : pos g f3 = (b1, code g b1)).
    { rewrite start_pos; rewrite (brd_here _ _ _ _ _ Hb); [done|apply (brd_then _ _ _ _ _ Hb)]. }
    apply beval_while_inv in Hev as (y & σ1 & Hc & Hcase). destruct (R3 g G3 _ _ _ _ Hc Hm) as (m1 & A1 & S1).
    destruct Hcase as [[-> ->]|[Hy (z & σ2 & Hz & Hw)]]; [by exists m1|].
    rewrite (proj2 (Z.eqb_neq _ _)) in S1 by done. cbn in S1. rewrite <- P3 in S1.
    destruct (R6 g G6 _ _ _ _ Hz A1) as (m2 & S2 & A2).
    destruct (loop_steps p c b g f3 f6 f7 b1 b2 v2 O7 ltac:(etrans; [exact L8|exact Hg])
      (brd_here _ _ _ _ _ Hb) (brd_then _ _ _ _ _ Hb) (R7 g G7) (R6 g G6) _ _ _ Hw A2) as (m3 & S3 & A3).
    exists m3. split; [|done]. etrans; [exact S1|]. etrans; [exact S2|exact S3].
Qed.

(** *** Scopes *)
Record stms_code (bs : list tree) f f' : Prop := {
  stms_le : le f f';
  stms_local : local f f';
  stms_open : is_open f';
  stms_run : ∀ g, le f' g → ∀ σ σ' m, bevals bs σ σ' → agrees σ m →
    ∃ m', steps g (pos g f, m) (pos g f', m') ∧ agrees σ' m' }.

Lemma codegen_each bs n f :
  Forall codegen_ok bs → (max_list (height <$> bs) ≤ n)%nat → is_open f → slots_known f → ∃ f',
    each (λ b, _ ← codegen n b; mret ()) (root <$> bs) (at_function f) = Some (Ok (), at_function f') ∧
    stms_code bs f f'.
Proof.
  intros Hbs. revert f. induction Hbs as [|b bs Hb Hbs IH]; intros f Hn Ho Hk.
  - exists f. split; [done|]. split; [done|split; [done|by left]|done|].
    intros g _ σ σ' m Hev Hm. inversion Hev; subst. exists m. split; [apply rtc_refl|done].
  - cbn in Hn. destruct (Hb n f ltac:(lia) Ho Hk) as (o & f1 & Hrun1 & [L1 C1 O1 R1]).
    destruct (IH f1 ltac:(lia) O1 ltac:(by eapply slots_le)) as (f2 & Hrun2 & [L2 C2 O2 R2]).
    exists f2. split; [|split].
    + rewrite fmap_cons. cbn [each]. rewrite X_bind_assoc, (X_bind_Ok _ _ _ _ _ Hrun1). by cstep.
    + etrans; [exact L1|exact L2].
    + eapply local_trans; [exact L1|exact C1|exact C2].
    + done.
    + intros g Hg σ σ' m Hev Hm. inversion Hev; subst.
      match goal with Hc : beval b _ _ _ |- _ =>
        destruct (R1 g ltac:(etrans; [exact L2|exact Hg]) _ _ _ _ Hc Hm) as (m1 & S1 & A1) end.
      match goal with Hc : bevals bs _ _ |- _ => destruct (R2 g Hg _ _ _ Hc A1) as (m2 & S2 & A2) end.
      exists m2. split; [|done]. etrans; [exact S1|exact S2].
Qed.

Lemma codegen_scope p prev ds bs :
  holds (nodes s) (TScope p prev ds bs) → Forall codegen_ok bs → codegen_ok (TScope p prev ds bs).
Proof.
  intros Hh Hbs [|n] f Hn Ho Hk; cbn in Hn; [lia|]. destruct (holds_scope _ _ _ _ _ Hh) as [Hp _].
  destruct (codegen_each bs n f Hbs ltac:(lia) Ho Hk) as (f' & Hrun & [L C O R]).
  exists None, f'. split.
  - cbn [Pcl.codegen root]. rewrite (X_bind_Ok _ _ _ _ _ (call_node_at _ _ _ Hp)).
    unfold Scope_codegen.
    unfold no_value. by rewrite (X_bind_Ok _ _ _ _ _ Hrun).
  - split; [done..|]. intros g Hg σ x σ' m Hev Hm. apply beval_scope_inv in Hev. eauto.
Qed.

Lemma codegen_tree t :
  typed t → orderly t → vars t ⊆ D → holds (nodes s) t → codegen_ok t.
Proof.
  induction t using tree_induction; intros Ht Hor Hv Hh; try done.
  - destruct op; try done. cbn [typed] in Ht. apply bool_decide_unpack in Ht.
    cbn [orderly] in Hor. apply andb_True in Hor as [_ He].
    intros [|n] f Hn Ho Hk; cbn in Hn; [lia|]. apply codegen_out; try done. lia.
  - destruct t1, op; try done. cbn [typed] in Ht. apply bool_decide_unpack in Ht.
    cbn [orderly] in Hor. apply andb_True in Hor as [_ He].
    intros [|n] f Hn Ho Hk; cbn in Hn; [lia|]. apply codegen_assign; try done. cbn in Hn. lia.
  - cbn [typed] in Ht. rewrite andb_True in Ht. destruct Ht as [Tc Tb]. apply bool_decide_unpack in Tc.
    cbn [orderly] in Hor. rewrite !andb_True in Hor. destruct Hor as [[_ Ec] Ob].
    destruct (holds_while _ _ _ _ Hh) as (_ & _ & Hhb). cbn in Hv.
    apply codegen_while; try done; [set_solver|]. apply IHt2; try done. set_solver.
  - cbn [typed] in Ht. rewrite andb_True in Ht. destruct Ht as [Tc Tb]. apply bool_decide_unpack in Tc.
    cbn [orderly] in Hor. rewrite !andb_True in Hor. destruct Hor as [[_ Ec] Ob].
    destruct (holds_if _ _ _ _ Hh) as (_ & _ & Hhb). cbn in Hv.
    apply codegen_if; try done; [set_solver|]. apply IHt2; try done. set_solver.
  - apply codegen_scope; [done|]. destruct (holds_scope _ _ _ _ _ Hh) as [_ Hhs]. clear Hh.
    cbn [typed orderly vars] in *.
    induction bs as [|b bs IHbs]; [done|]. apply Forall_cons_1 in H2 as [Hb Hbs].
    apply Forall_cons_1 in Hhs as [Hh1 Hhs]. cbn in Ht, Hor. rewrite andb_True in Ht, Hor.
    rewrite fmap_cons in Hv. cbn in Hv.
    constructor; [apply Hb; naive_solver set_solver|apply IHbs; naive_solver set_solver].
Qed.
End codegen.
