(* ===== verification/PclElab.v ===== *)
(** * What the parser promises: lexical scoping

    [elab] translates a program to the tree of its nodes, without a store: the open
    scopes are a list of tables, innermost first; a name refers to the first table
    that has it, and an assignment to a name that none has declares it in the
    innermost scope. Addresses count the nodes made. *)

From S2P Require Import Prelude Llvm Pcl PclMain PclTree PclCalc PclHeap.

Abbreviation frames := (list (ptr * gmap string ptr)) (only parsing).

Definition link (Δ : frames) : ptr := match Δ with [] => 0%nat | (p, _) :: _ => p end.

Fixpoint resolve (x : string) (Δ : frames) : option ptr :=
  match Δ with
  | [] => None
  | (_, t) :: Δ => match t !! x with Some d => Some d | None => resolve x Δ end
  end.

Definition declare (x : string) (d : ptr) (Δ : frames) : frames :=
  match Δ with [] => [] | (p, t) :: Δ => (p, <[x := d]> t) :: Δ end.

Fixpoint elab_expr (Δ : frames) (e : expr) (b : ptr) : option (tree * ptr) :=
  match e with
  | EBin op l r =>
    '(tl, b) ← elab_expr Δ l b; '(tr, b) ← elab_expr Δ r b;
    Some (TBin b tl (arith_op op) tr, S b)
  | ENeg a => '(t, b) ← elab_expr Δ a b; Some (TBin (S b) (TVal b 0) Minus t, S (S b))
  | EName x => d ← resolve x Δ; Some (TVar d x, b)
  | EValue v => Some (TVal b v, S b)
  | EInput => Some (TIn b, S b)
  | EParen a => elab_expr Δ a b
  end.

Fixpoint elab_lexpr (Δ : frames) (e : lexpr) (b : ptr) : option (tree * ptr) :=
  let both op l r :=
    '(tl, b) ← elab_lexpr Δ l b; '(tr, b) ← elab_lexpr Δ r b; Some (TBin b tl op tr, S b) in
  match e with
  | LExpr a => elab_expr Δ a b
  | LRel op l r =>
    '(tl, b) ← elab_expr Δ l b; '(tr, b) ← elab_expr Δ r b;
    Some (TBin b tl (relop_op op) tr, S b)
  | LOr l r => both Or l r
  | LAnd l r => both And l r
  | LNot a => '(t, b) ← elab_lexpr Δ a b; Some (TUn b Not t, S b)
  | LParen a => elab_lexpr Δ a b
  end.

(** Ending the innermost scope makes a tree of it. *)
Definition close (Δ : frames) (bs : list tree) : option (tree * frames) :=
  match Δ with
  | [] => None
  | (p, t) :: Δ => Some (TScope p (link Δ) (map_to_list t) bs, Δ)
  end.

Fixpoint elab_stm (s : stm) (Δ : frames) (b : ptr) : option (tree * frames * ptr) :=
  let guarded (make : ptr → tree → tree → tree) c body :=
    '(tc, b) ← elab_lexpr Δ c b;
    '(t, Δ1, b) ← elab_body body ((b, ∅) :: Δ) (S b);
    '(sc, Δ2) ← close Δ1 [t];
    Some (make b tc sc, Δ2, S b) in
  match s with
  | SAssign x e =>
    let '(d, Δ, b) :=
      match resolve x Δ with Some d => (d, Δ, b) | None => (b, declare x b Δ, S b) end in
    '(t, b) ← elab_expr Δ e b; Some (TBin b (TVar d x) Assign t, Δ, S b)
  | SIf c body => guarded TIf c body
  | SWhile c body => guarded TWhile c body
  | SOutput e => '(t, b) ← elab_expr Δ e b; Some (TUn b StdOut t, Δ, S b)
  end
with elab_body (bd : body) (Δ : frames) (b : ptr) : option (tree * frames * ptr) :=
  match bd with
  | BStm s => elab_stm s Δ b
  | BScope ss =>
    '(ts, Δ1, b) ← elab_stms ss ((b, ∅) :: Δ) (S b); '(t, Δ2) ← close Δ1 ts; Some (t, Δ2, b)
  end
with elab_stms (ss : stms) (Δ : frames) (b : ptr) : option (list tree * frames * ptr) :=
  match ss with
  | One s => '(t, Δ, b) ← elab_stm s Δ b; Some ([t], Δ, b)
  | AddStm ss s =>
    '(ts, Δ, b) ← elab_stms ss Δ b; '(t, Δ, b) ← elab_stm s Δ b; Some (ts ++ [t], Δ, b)
  | AddScope ss scope =>
    '(ts, Δ, b) ← elab_stms ss Δ b;
    '(u, Δ, b) ← ('(us, Δ1, b) ← elab_stms scope ((b, ∅) :: Δ) (S b); '(u, Δ2) ← close Δ1 us; Some (u, Δ2, b));
    Some (ts ++ [u], Δ, b)
  end.

(** The tree of a program; [None] if it uses a name that is not declared. *)
Definition elab (ss : stms) : option tree :=
  '(ts, Δ, _) ← elab_stms ss [(1%nat, ∅)] 2; fst <$> close Δ ts.

Scheme stm_mut := Induction for stm Sort Prop
with body_mut := Induction for body Sort Prop
with stms_mut := Induction for stms Sort Prop.
Combined Scheme stm_body_stms_ind from stm_mut, body_mut, stms_mut.

(** ** The declarations in sight *)
Definition avail (Δ : frames) : list (string * ptr) := mjoin ((λ f, map_to_list f.2) <$> Δ).

Definition extends (Δ Δ' : frames) : Prop :=
  match Δ, Δ' with
  | (p, t) :: Δ, (p', t') :: Δ' => p = p' ∧ t ⊆ t' ∧ Δ = Δ'
  | [], [] => True
  | _, _ => False
  end.

#[global] Instance extends_preorder : PreOrder extends.
Proof.
  split.
  - by intros [|[p t] Δ].
  - intros [|[p1 t1] Δ1] [|[p2 t2] Δ2] [|[p3 t3] Δ3]; try done.
    intros (-> & H1 & ->) (-> & H2 & ->). split; [done|]. split; [|done]. by etrans.
Qed.

Lemma resolve_avail x Δ d : resolve x Δ = Some d → (x, d) ∈ avail Δ.
Proof.
  induction Δ as [|[p t] Δ IH]; [done|]. cbn. rewrite elem_of_app, elem_of_map_to_list.
  destruct (t !! x); [intros [= ->]; by left|]. auto.
Qed.

Lemma resolve_None x Δ : resolve x Δ = None → ∀ p t, (p, t) ∈ Δ → t !! x = None.
Proof.
  induction Δ as [|[p t] Δ IH]; [set_solver|]. cbn. destruct (t !! x) eqn:Ht; [done|].
  intros Hr q u [[= -> ->]|Hin]%elem_of_cons; eauto.
Qed.

Lemma extends_avail Δ Δ' : extends Δ Δ' → avail Δ ⊆ avail Δ'.
Proof.
  destruct Δ as [|[p t] Δ], Δ' as [|[p' t'] Δ']; cbn; try done.
  intros (-> & Ht & ->) [x d]. unfold avail. cbn. rewrite !elem_of_app, !elem_of_map_to_list.
  intros [Hx|Hx]; [|by right]. left. by eapply lookup_weaken.
Qed.

Lemma declare_extends x d Δ : resolve x Δ = None → extends Δ (declare x d Δ).
Proof.
  destruct Δ as [|[p t] Δ]; [done|]. cbn. intros Hr. split; [done|]. split; [|done].
  apply insert_subseteq. by destruct (t !! x).
Qed.

Lemma declare_avail x d Δ : Δ ≠ [] → (x, d) ∈ avail (declare x d Δ).
Proof.
  destruct Δ as [|[p t] Δ]; [done|]. intros _. cbn. apply elem_of_app. left.
  apply elem_of_map_to_list, lookup_insert_eq.
Qed.

(** ** Properties of the translation *)
Ltac inv_elab := repeat match goal with
  | h : (_ ≫= _) = Some _ |- _ => apply bind_Some in h as (? & ? & ?)
  | p : (_ * _)%type |- _ => destruct p
  | h : Some _ = Some _ |- _ => simplify_eq h; clear h; intros
  end; subst.

Lemma elab_expr_spec Δ e b t b' :
  elab_expr Δ e b = Some (t, b') → is_expr t ∧ scoped (avail Δ) t ∧ (b ≤ b')%nat.
Proof.
  revert b t b'. induction e; cbn; intros b t b' He; inv_elab.
  - destruct (IHe1 _ _ _ ltac:(eassumption)) as (? & ? & ?), (IHe2 _ _ _ ltac:(eassumption)) as (? & ? & ?).
    destruct op; cbn; rewrite !andb_True; split_and!; (done || lia).
  - destruct (IHe _ _ _ ltac:(eassumption)) as (? & ? & ?). split_and!; (done || lia).
  - split_and!; try done. by apply resolve_avail.
  - split_and!; (done || lia).
  - split_and!; (done || lia).
  - by apply IHe.
Qed.

Lemma elab_lexpr_spec Δ e b t b' :
  elab_lexpr Δ e b = Some (t, b') → is_expr t ∧ scoped (avail Δ) t ∧ (b ≤ b')%nat.
Proof.
  revert b t b'. induction e; cbn; intros n t n' He; inv_elab; try (by apply elab_expr_spec in He); try by apply IHe.
  - repeat match goal with h : elab_expr _ _ _ = Some _ |- _ => apply elab_expr_spec in h as (? & ? & ?) end.
    destruct op; cbn; rewrite !andb_True; split_and!; (done || lia).
  - destruct (IHe1 _ _ _ ltac:(eassumption)) as (? & ? & ?), (IHe2 _ _ _ ltac:(eassumption)) as (? & ? & ?).
    cbn. rewrite !andb_True. split_and!; (done || lia).
  - destruct (IHe1 _ _ _ ltac:(eassumption)) as (? & ? & ?), (IHe2 _ _ _ ltac:(eassumption)) as (? & ? & ?).
    cbn. rewrite !andb_True. split_and!; (done || lia).
  - destruct (IHe _ _ _ ltac:(eassumption)) as (? & ? & ?). split_and!; (done || lia).
Qed.

Lemma is_expr_facts t : is_expr t → owned t = [] ∧ shaped t ∧ ∀ T, tabled T t.
Proof.
  induction t using tree_induction; cbn; try done.
  - destruct op; try done.
  - rewrite !andb_True. intros [[_ H1] H2]. destruct (IHt1 H1) as (-> & ? & ?), (IHt2 H2) as (-> & ? & ?).
    split_and!; auto.
Qed.

(** What the translation of a statement makes. *)
Record stm_spec (Δ Δ' : frames) (t : tree) : Prop := {
  spec_extends : extends Δ Δ';
  spec_scoped : scoped (avail Δ') t;
  spec_shaped : shaped t;
  spec_var : is_var t = false }.

Lemma spec_from Δ1 Δ2 Δ3 t : extends Δ1 Δ2 → stm_spec Δ2 Δ3 t → stm_spec Δ1 Δ3 t.
Proof. intros H1 [H2 ? ? ?]. split; [by etrans|done..]. Qed.

Lemma spec_weaken Δ1 Δ2 Δ3 t : extends Δ2 Δ3 → stm_spec Δ1 Δ2 t → stm_spec Δ1 Δ3 t.
Proof.
  intros H1 [H2 ? ? ?]. split; [by etrans| |done..]. eapply scoped_weaken; [by apply extends_avail|done].
Qed.

Lemma spec_close Δ Δ1 bs t Δ2 b :
  extends ((b, ∅) :: Δ) Δ1 → Forall (stm_spec ((b, ∅) :: Δ) Δ1) bs →
  close Δ1 bs = Some (t, Δ2) → stm_spec Δ Δ2 t ∧ Δ2 = Δ.
Proof.
  destruct Δ1 as [|[p u] Δ1]; [done|]. cbn. intros (<- & _ & <-) Hbs [= <- <-]. split; [|done].
  split; [done| | |done].
  - cbn [scoped]. apply fold_and_Forall. eapply Forall_impl; [exact Hbs|]. by intros c [_ ? _ _].
  - cbn. apply forallb_True. eapply Forall_impl; [exact Hbs|]. intros c [_ _ ? Hv]. by rewrite Hv, andb_True.
Qed.

Lemma spec_app Δ Δ1 Δ2 ts t :
  extends Δ Δ1 → Forall (stm_spec Δ Δ1) ts → stm_spec Δ1 Δ2 t →
  extends Δ Δ2 ∧ Forall (stm_spec Δ Δ2) (ts ++ [t]).
Proof.
  intros Hx Hts Ht. pose proof (spec_extends _ _ _ Ht) as Hx2. split; [by etrans|].
  apply Forall_app. split; [|constructor; [by eapply spec_from|done]].
  eapply Forall_impl; [exact Hts|]. intros u. by apply spec_weaken.
Qed.

Lemma spec_guarded (make : ptr → tree → tree → tree) Δ Δ1 Δ2 b n c t sc :
  make = TIf ∨ make = TWhile → is_expr c → scoped (avail Δ) c → stm_spec ((b, ∅) :: Δ) Δ1 t →
  close Δ1 [t] = Some (sc, Δ2) → stm_spec Δ Δ2 (make n c sc).
Proof.
  intros Hmk Hi Hs Ht Hcl. destruct (is_expr_facts _ Hi) as (_ & Hsh & _).
  destruct (spec_close Δ Δ1 [t] sc Δ2 b) as [[Hx Hsc Hshs Hv] ->]; [by eapply spec_extends|by constructor|done|].
  destruct Hmk as [-> | ->]; (split; [done|done|cbn; by rewrite Hv, !andb_True|done]).
Qed.

Lemma extends_nonempty Δ Δ' : extends Δ Δ' → Δ ≠ [] → Δ' ≠ [].
Proof. destruct Δ as [|[] ?], Δ' as [|[] ?]; done. Qed.

Lemma elab_spec :
  (∀ s Δ b t Δ' b', elab_stm s Δ b = Some (t, Δ', b') → Δ ≠ [] → stm_spec Δ Δ' t) ∧
  (∀ bd Δ b t Δ' b', elab_body bd Δ b = Some (t, Δ', b') → Δ ≠ [] → stm_spec Δ Δ' t) ∧
  (∀ ss Δ b ts Δ' b', elab_stms ss Δ b = Some (ts, Δ', b') → Δ ≠ [] →
    extends Δ Δ' ∧ Forall (stm_spec Δ Δ') ts).
Proof.
  apply stm_body_stms_ind; cbn.
  - intros x e Δ b t Δ' b' He Hnil.
    destruct (resolve x Δ) as [d|] eqn:Hr; inv_elab;
      match goal with h : elab_expr _ _ _ = _ |- _ => apply elab_expr_spec in h as (Hi & Hs & _) end;
      destruct (is_expr_facts _ Hi) as (_ & Hsh & _); (split; [|split; [|exact Hs]|done|done]).
    + done.
    + by apply resolve_avail.
    + by apply declare_extends.
    + by apply declare_avail.
  - intros c bd IH Δ b t Δ' b' He Hnil. inv_elab.
    match goal with h : elab_lexpr _ _ _ = _ |- _ => apply elab_lexpr_spec in h as (Hi & Hs & _) end.
    match goal with h : elab_body _ _ _ = _ |- _ => apply IH in h as Ht; [|done] end.
    eapply spec_guarded; eauto.
  - intros c bd IH Δ b t Δ' b' He Hnil. inv_elab.
    match goal with h : elab_lexpr _ _ _ = _ |- _ => apply elab_lexpr_spec in h as (Hi & Hs & _) end.
    match goal with h : elab_body _ _ _ = _ |- _ => apply IH in h as Ht; [|done] end.
    eapply spec_guarded; eauto.
  - intros e Δ b t Δ' b' He Hnil. inv_elab.
    match goal with h : elab_expr _ _ _ = _ |- _ => apply elab_expr_spec in h as (Hi & Hs & _) end.
    destruct (is_expr_facts _ Hi) as (_ & Hsh & _). by split.
  - eauto.
  - intros ss IH Δ b t Δ' b' He Hnil. inv_elab.
    match goal with h : elab_stms _ _ _ = _ |- _ => apply IH in h as [Hx Hts]; [|done] end. by eapply spec_close.
  - intros s IH Δ b t Δ' b' He Hnil. inv_elab.
    match goal with h : elab_stm _ _ _ = _ |- _ => apply IH in h; [|done] end.
    split; [by eapply spec_extends|by constructor].
  - intros ss IHs s IH Δ b t Δ' b' He Hnil. inv_elab.
    match goal with h : elab_stms _ _ _ = _ |- _ => apply IHs in h as [Hx Hts]; [|done] end.
    match goal with h : elab_stm _ _ _ = _ |- _ => apply IH in h as Ht; [|by eapply extends_nonempty] end.
    by eapply spec_app.
  - intros ss IHs sc IH Δ b t Δ' b' He Hnil. inv_elab.
    match goal with h : elab_stms ss _ _ = _ |- _ => apply IHs in h as [Hx Hts]; [|done] end.
    match goal with h : elab_stms sc _ _ = _ |- _ => apply IH in h as [Hx1 Hus]; [|done] end.
    eapply spec_app; [exact Hx|exact Hts|by eapply spec_close].
Qed.
