(* ===== verification/PclParse.v ===== *)
(** * The actions of the grammar build the trees of [PclElab.elab]

    While a program is parsed the store consists of the nodes of the open scopes and of
    the nodes that wait to be attached; [built] says so. *)

From S2P Require Import Prelude Llvm LlvmCfg Pcl PclMain PclTree PclCalc PclHeap PclGen PclElab.

Definition unset : ptr → option Z := λ _, None.

(** The nodes of the open scopes [Δ], whose branches are [brs]; each has the next one
    as its [PrevScope_]. *)
Fixpoint chain_ents (Δ : frames) (brs : list (list tree)) : list (ptr * node) :=
  match Δ, brs with
  | (p, t) :: Δ, bs :: brs =>
    (p, Scope (root <$> bs) (link Δ)) :: (declent unset <$> map_to_list t) ++
      mjoin (tree_ents unset <$> bs) ++ chain_ents Δ brs
  | _, _ => []
  end.

Lemma chain_node Δ1 p t Δ2 brs :
  length (Δ1 ++ (p, t) :: Δ2) = length brs →
  ∃ bs, (p, Scope (root <$> bs) (link Δ2)) ∈ chain_ents (Δ1 ++ (p, t) :: Δ2) brs.
Proof.
  revert brs. induction Δ1 as [|[q u] Δ1 IH]; intros [|bs brs] Hlen; try done; cbn in *.
  - exists bs. left.
  - destruct (IH brs ltac:(lia)) as [cs Hcs]. exists cs. rewrite elem_of_cons, !elem_of_app. auto.
Qed.

Lemma chain_decl Δ brs x d :
  length Δ = length brs → (x, d) ∈ avail Δ → (d, Decl None x) ∈ chain_ents Δ brs.
Proof.
  revert brs. induction Δ as [|[p t] Δ IH]; intros [|bs brs] Hlen; unfold avail; cbn in *; try done; [by intros ?%elem_of_nil|].
  intros [Hx|Hx]%elem_of_app; rewrite elem_of_cons, !elem_of_app; [|auto].
  right. left. apply list_elem_of_fmap. by exists (x, d).
Qed.

Lemma chain_tree Δ brs bs c e :
  length Δ = length brs → bs ∈ brs → c ∈ bs → e ∈ tree_ents unset c → e ∈ chain_ents Δ brs.
Proof.
  revert brs. induction Δ as [|[p t] Δ IH]; intros [|cs brs] Hlen Hbs Hc He; cbn in *; try done; [set_solver|].
  rewrite elem_of_cons, !elem_of_app. apply elem_of_cons in Hbs as [->|Hbs]; [|auto].
  right. right. left. by eapply in_mjoin_fmap.
Qed.

Lemma app_rotate {A} (a c r : list A) : (a ++ c) ++ r ≡ₚ c ++ a ++ r.
Proof. by rewrite (Permutation_app_comm a), app_assoc. Qed.

(** The branches are well-formed and refer to declarations in sight. *)
Record branch_ok (Δ : frames) (t : tree) : Prop := {
  branch_scoped : scoped (avail Δ) t;
  branch_shaped : shaped t;
  branch_var : is_var t = false }.

Fixpoint chain_ok (Δ : frames) (brs : list (list tree)) : Prop :=
  match Δ, brs with
  | f :: Δ, bs :: brs => Forall (branch_ok (f :: Δ)) bs ∧ chain_ok Δ brs
  | _, _ => True
  end.

Lemma spec_branch Δ Δ' t : stm_spec Δ Δ' t → branch_ok Δ' t.
Proof. by intros [? ? ? ?]. Qed.

Section parse.
Context `{IRDocumented}.
Variables (CODEGEN : bool) (inp : list Z).
Implicit Types (s : pstate) (Δ : frames) (brs : list (list tree)) (R : list (ptr * node)) (t : tree).

(** The function under construction: its entry block allocates the slots of the names. *)
Record allocated s (f : F) (NV : gmap string V) : Prop := {
  al_gen : GlobalGen s = Some (Gen (Module_ createCodeGen) (Some f) NV);
  al_here : here f = entry;
  al_open : is_open f;
  al_decl : ∀ x d v, nodes s !! d = Some (Decl v x) → is_Some (NV !! x);
  al_inj : ∀ x y a, NV !! x = Some a → NV !! y = Some a → x = y;
  al_known : ∀ x a, NV !! x = Some a → known f a;
  al_run : ∀ m, ∃ m', execs (code f entry) m = Some m' ∧ (∀ x a, NV !! x = Some a → mem m' a = Some None) ∧
    (∀ a, ¬ known f a → mem m' a = mem m a) ∧ input m' = input m ∧ output m' = output m }.

Definition gen_ok s : Prop := if CODEGEN then ∃ f NV, allocated s f NV else True.

Record built s Δ brs R : Prop := {
  bl_scope : CurrentScope s = link Δ;
  bl_heap : is_heap (nodes s) (chain_ents Δ brs ++ R);
  bl_len : length Δ = length brs;
  bl_fuel : (length Δ ≤ brk s)%nat;
  bl_brk : (0 < brk s)%nat;
  bl_node : ∀ p, is_Some (nodes s !! p) → (0 < p < brk s)%nat;
  bl_tabs : ∀ p, is_Some (GlobalTable s !! p) → (p < brk s)%nat;
  bl_frames : Forall (λ f, default ∅ (GlobalTable s !! f.1) = f.2) Δ;
  bl_ok : chain_ok Δ brs;
  bl_trees : Forall (Forall (tabled (GlobalTable s))) brs;
  bl_in : cin s = inp;
  bl_out : cout s = [];
  bl_gen : gen_ok s }.

#[global] Instance built_proper s Δ brs : Proper ((≡ₚ) ==> iff) (built s Δ brs).
Proof.
  intros R1 R2 HR. split; intros []; split; try done; [by rewrite <- HR|by rewrite HR].
Qed.

Lemma gen_ok_nodes s s' :
  GlobalGen s' = GlobalGen s →
  (∀ x d v, nodes s' !! d = Some (Decl v x) → ∃ d' v', nodes s !! d' = Some (Decl v' x)) →
  gen_ok s → gen_ok s'.
Proof.
  unfold gen_ok. destruct CODEGEN; [|done]. intros Hg Hd (f & NV & []). exists f, NV. split; try done.
  - congruence.
  - intros x d v Hx. destruct (Hd x d v Hx) as (d' & v' & Hx'). by eapply al_decl0.
Qed.

Lemma bl_fresh s Δ brs R : built s Δ brs R → nodes s !! brk s = None.
Proof.
  intros Hb. destruct (nodes s !! brk s) eqn:Hn; [|done].
  assert (Hlt := bl_node _ _ _ _ Hb (brk s) ltac:(by eexists)). lia.
Qed.

Lemma new_built s Δ brs R n :
  built s Δ brs R → is_decl n = false → ∃ s', new n s = Some (brk s, s') ∧
    built s' Δ brs ((brk s, n) :: R) ∧ brk s' = S (brk s) ∧ GlobalTable s' = GlobalTable s.
Proof.
  intros Hb Hn. eexists. split; [done|]. split; [|done]. pose proof (bl_fresh _ _ _ _ Hb) as Hf.
  destruct Hb. split; cbn; try done; try lia.
  - rewrite <- Permutation_middle. by apply heap_insert.
  - intros p. destruct (decide (p = brk s)) as [->|Hne]; [lia|]. rewrite lookup_insert_ne by done.
    intros Hp. apply bl_node0 in Hp. lia.
  - intros p Hp. apply bl_tabs0 in Hp. lia.
  - apply (gen_ok_nodes s); [done| |done]. cbn. intros x d v.
    destruct (decide (d = brk s)) as [->|Hne]; [rewrite lookup_insert_eq; intros [= ->]; done|].
    rewrite lookup_insert_ne by done. eauto.
Qed.

(** ** Scopes *)
Lemma chain_at s Δ1 p u Δ2 brs R :
  built s (Δ1 ++ (p, u) :: Δ2) brs R → ∃ bs, nodes s !! p = Some (Scope (root <$> bs) (link Δ2)).
Proof.
  intros Hb. destruct (chain_node Δ1 p u Δ2 brs (bl_len _ _ _ _ Hb)) as [bs Hin]. exists bs.
  apply (heap_lookup _ _ _ _ (bl_heap _ _ _ _ Hb)), elem_of_app. by left.
Qed.

Lemma scope_at_run s p bs prev :
  nodes s !! p = Some (Scope bs prev) → scope_at p s = Some ((bs, prev), s).
Proof. intros Hp. unfold scope_at, node_at. cunfold. by rewrite Hp. Qed.

Lemma enter_built s Δ brs R :
  built s Δ brs R → ∃ s', enter_scope s = Some ((), s') ∧
    built s' ((brk s, ∅) :: Δ) ([] :: brs) R ∧ brk s' = S (brk s).
Proof.
  intros Hb. pose proof (bl_scope _ _ _ _ Hb) as Hs.
  destruct (new_built s Δ brs R (Scope [] (link Δ)) Hb ltac:(done)) as (s1 & Hrun & Hb1 & Hbrk & HT).
  exists (set_scope (brk s) s1). split; [|split; [|done]].
  - unfold enter_scope, current. cstep. rewrite Hs. unfold push. by rewrite (C_bind_Some _ _ _ _ _ Hrun).
  - pose proof (bl_fuel _ _ _ _ Hb). destruct Hb1. split; cbn; try done; try lia.
    + rewrite map_to_list_empty. cbn. by rewrite Permutation_middle.
    + constructor; [|done]. cbn. rewrite HT. destruct (GlobalTable s !! brk s) eqn:Ht; [|done].
      assert (brk s < brk s)%nat by (apply (bl_tabs _ _ _ _ Hb); by eexists). lia.
    + by constructor.
    + apply (gen_ok_nodes s1); [done| |done]. cbn. eauto.
Qed.

Lemma leave_built s p u Δ bs brs R :
  built s ((p, u) :: Δ) (bs :: brs) R → ∃ s', leave_scope s = Some ((), s') ∧
    built s' Δ brs (tree_ents unset (TScope p (link Δ) (map_to_list u) bs) ++ R) ∧
    brk s' = brk s ∧ GlobalTable s' = GlobalTable s ∧
    tabled (GlobalTable s) (TScope p (link Δ) (map_to_list u) bs).
Proof.
  intros Hb. destruct (chain_at s [] p u Δ _ _ Hb) as [cs Hp]. exists (set_scope (link Δ) s).
  split; [|split; [|split; [done|split; [done|]]]].
  - unfold leave_scope, current. cstep. rewrite (bl_scope _ _ _ _ Hb). unfold resetScope.
    cbn [link]. by rewrite C_bind_assoc, (C_bind_Some _ _ _ _ _ (scope_at_run _ _ _ _ Hp)).
  - destruct Hb. cbn in *. split; cbn; try done; try lia.
    + change (is_heap (nodes s) (chain_ents Δ brs ++ tree_ents unset (TScope p (link Δ) (map_to_list u) bs) ++ R)).
      by rewrite tree_ents_scope, <- app_rotate, <- app_comm_cons, <- app_assoc.
    + by apply Forall_cons in bl_frames0 as [_ ?].
    + apply bl_ok0.
    + by apply Forall_cons in bl_trees0 as [_ ?].
    + apply (gen_ok_nodes s); [done| |done]. cbn. eauto.
  - cbn. destruct Hb. apply Forall_cons in bl_frames0 as [Hu _], bl_trees0 as [Hbs _]. cbn in Hu.
    rewrite Hu, fold_and_Forall. done.
Qed.

Lemma head_at s p u Δ bs brs R :
  built s ((p, u) :: Δ) (bs :: brs) R → nodes s !! p = Some (Scope (root <$> bs) (link Δ)).
Proof. intros Hb. apply (heap_lookup _ _ _ _ (bl_heap _ _ _ _ Hb)). left. Qed.

Lemma add_branch_built s p u Δ bs brs t R :
  built s ((p, u) :: Δ) (bs :: brs) (tree_ents unset t ++ R) → tabled (GlobalTable s) t → branch_ok ((p, u) :: Δ) t →
  ∃ s', add_branch (root t) s = Some ((), s') ∧ built s' ((p, u) :: Δ) ((bs ++ [t]) :: brs) R ∧
    brk s' = brk s ∧ GlobalTable s' = GlobalTable s.
Proof.
  intros Hb Ht Hok. pose proof (head_at _ _ _ _ _ _ _ Hb) as Hp.
  exists (set_nodes (<[p := Scope ((root <$> bs) ++ [root t]) (link Δ)]> (nodes s)) s).
  split; [|split; [|done]].
  - unfold add_branch, current. cstep. rewrite (bl_scope _ _ _ _ Hb). unfold addBranch. cbn [link].
    rewrite (C_bind_Some _ _ _ _ _ (scope_at_run _ _ _ _ Hp)). unfold set_node, node_at. cunfold. by rewrite Hp.
  - destruct Hb. split; cbn in *; try done.
    + apply heap_update with (n' := Scope ((root <$> bs) ++ [root t]) (link Δ)) in bl_heap0.
      rewrite !fmap_app, join_app. cbn. rewrite app_nil_r. eapply is_heap_proper; [|exact bl_heap0].
      constructor. rewrite <- !app_assoc. do 2 apply Permutation_app_head.
      rewrite !app_assoc. apply Permutation_app_tail, Permutation_app_comm.
    + intros q. destruct (decide (q = p)) as [->|Hne]; [intros _; apply bl_node0; by rewrite Hp|].
      rewrite lookup_insert_ne by done. apply bl_node0.
    + split; [apply Forall_app; split; [apply bl_ok0|by constructor]|apply bl_ok0].
    + apply Forall_cons in bl_trees0 as [Hbs Hbrs]. constructor; [|done]. apply Forall_app. split; [done|by constructor].
    + apply (gen_ok_nodes s); [done| |done]. cbn. intros x d v. destruct (decide (d = p)) as [->|Hne];
        [by rewrite lookup_insert_eq|rewrite lookup_insert_ne by done; eauto].
Qed.

(** ** Names *)
Lemma resolve_alive s Δ brs R x d : built s Δ brs R → (x, d) ∈ avail Δ → nodes s !! d = Some (Decl None x).
Proof.
  intros Hb Hx. apply (heap_lookup _ _ _ _ (bl_heap _ _ _ _ Hb)), elem_of_app. left.
  apply chain_decl; [apply (bl_len _ _ _ _ Hb)|done].
Qed.

Lemma exists_frame s Δ brs R p u x :
  built s Δ brs R → (p, u) ∈ Δ → symtab_exists p x (GlobalTable s) = default 0%nat (u !! x).
Proof.
  intros Hb Hp. assert (Hu := bl_frames _ _ _ _ Hb). rewrite Forall_forall in Hu. specialize (Hu _ Hp). cbn in Hu.
  unfold symtab_exists, local_find. destruct (GlobalTable s !! p) as [w|]; cbn in Hu; subst; [|done].
  by destruct (u !! x).
Qed.

Lemma visible_run s Δ brs R x Δ1 Δ2 fuel :
  built s Δ brs R → Δ = Δ1 ++ Δ2 → Δ2 ≠ [] → (length Δ2 ≤ fuel)%nat →
  visible fuel (link Δ2) x s = Some (default 0%nat (resolve x Δ2), s).
Proof.
  intros Hb. revert Δ1 fuel. induction Δ2 as [|[p u] Δ2 IH]; intros Δ1 [|fuel] Hch Hne Hlen; cbn in Hlen; try done; [lia|].
  cbn [visible link resolve]. cstep.
  rewrite (exists_frame s Δ brs R p u) by (subst; set_solver).
  destruct (u !! x) as [d|] eqn:Hx; cbn [from_option id].
  - assert (Hd : nodes s !! d = Some (Decl None x)).
    { eapply resolve_alive; [exact Hb|]. subst. unfold avail. rewrite fmap_app, join_app. cbn.
      apply elem_of_app. right. apply elem_of_app. left. by apply elem_of_map_to_list. }
    assert (0 < d < brk s)%nat by (apply (bl_node _ _ _ _ Hb); by eexists).
    replace (d =? 0)%nat with false by (symmetry; apply Nat.eqb_neq; lia). done.
  - change (0 =? 0)%nat with true. cbn [negb]. subst Δ. destruct (chain_at _ _ _ _ _ _ _ Hb) as [bs Hp].
    rewrite (C_bind_Some _ _ _ _ _ (scope_at_run _ _ _ _ Hp)). destruct Δ2 as [|[q w] Δ2]; [done|].
    rewrite (cons_middle (p, u)), app_assoc in Hb. destruct (chain_at _ _ _ _ _ _ _ Hb) as [cs Hq].
    assert (0 < q < brk s)%nat by (apply (bl_node _ _ _ _ Hb); by eexists). cbn [link].
    replace (q =? 0)%nat with false by (symmetry; apply Nat.eqb_neq; lia). cbn [negb].
    apply (IH (Δ1 ++ [(p, u)])); [by rewrite <- app_assoc|done|cbn in *; lia].
Qed.

Lemma AddDecl_run s1 x f NV :
  GlobalGen s1 = Some (Gen (Module_ createCodeGen) (Some f) NV) → ∃ a f', CreateAlloca f = (a, f') ∧
    AddDecl x s1 = Some ((), set_gen (Some (Gen (Module_ createCodeGen) (Some f') (<[x := a]> NV))) s1).
Proof.
  intros Hg. destruct (CreateAlloca f) as [a f'] eqn:Ha. exists a, f'. split; [done|].
  unfold AddDecl, build, gen. cunfold. rewrite Hg. cbn. by rewrite Ha.
Qed.

Lemma allocated_add s s' f NV x a f' :
  allocated s f NV → CreateAlloca f = (a, f') →
  GlobalGen s' = Some (Gen (Module_ createCodeGen) (Some f') (<[x := a]> NV)) →
  (∀ y d v, nodes s' !! d = Some (Decl v y) → y = x ∨ nodes s !! d = Some (Decl v y)) →
  allocated s' f' (<[x := a]> NV).
Proof.
  intros [Hg Hh Ho Hd Hinj Hk Hrun] Ha Hg' Hnodes.
  destruct (doc_alloca _ _ _ Ha) as (Hna & Hka & Hh' & Hterm & Hblock & Hk' & js & Hcode & Hjs).
  assert (Hslot : ∀ y b, <[x := a]> NV !! y = Some b → y = x ∧ b = a ∨ y ≠ x ∧ NV !! y = Some b).
  { intros y b. destruct (decide (y = x)) as [->|Hne]; [rewrite lookup_insert_eq; intros [= ->]; by left|].
    rewrite lookup_insert_ne by done. by right. }
  split; try done.
  - congruence.
  - destruct Ho as [Hb Ht]. split; rewrite Hh'; [by apply Hblock|]. by destruct (Hterm (here f)) as [-> _].
  - intros y d v Hy. destruct (decide (y = x)) as [->|Hne]; [rewrite lookup_insert_eq; by eexists|].
    rewrite lookup_insert_ne by done. destruct (Hnodes y d v Hy) as [->|Hy']; [done|by eapply Hd].
  - intros y z b Hy Hz. apply Hslot in Hy as [[-> ->]|[Hy Hy']], Hz as [[-> ?]|[Hz Hz']]; subst; eauto.
    + by apply Hk in Hz'.
    + by apply Hk in Hy'.
  - intros y b Hy. apply Hslot in Hy as [[-> ->]|[_ Hy]]; [done|]. eauto.
  - intros m. destruct (Hjs m) as (m1 & R1 & V1 & M1 & I1 & O1).
    destruct (Hrun m1) as (m2 & R2 & V2 & M2 & I2 & O2). exists m2. rewrite Hcode, execs_app, R1. cbn.
    split; [done|]. split; [|split; [|by rewrite I2, O2]].
    + intros y b Hy. apply Hslot in Hy as [[-> ->]|[_ Hy]]; [by rewrite M2|eauto].
    + intros b Hb. rewrite M2 by (intros ?; apply Hb; auto). apply M1. by intros ->.
Qed.

Lemma AddDecl_gen s s1 x :
  gen_ok s → GlobalGen s1 = GlobalGen s →
  (∀ y d v, nodes s1 !! d = Some (Decl v y) → y = x ∨ nodes s !! d = Some (Decl v y)) →
  ∃ g, (if CODEGEN then AddDecl x else mret ()) s1 = Some ((), set_gen g s1) ∧ gen_ok (set_gen g s1).
Proof.
  unfold gen_ok. destruct CODEGEN.
  - intros (f & NV & Hal) Hg Hn. rewrite (al_gen _ _ _ Hal) in Hg.
    destruct (AddDecl_run s1 x f NV Hg) as (a & f' & Ha & Hrun). eexists. split; [exact Hrun|].
    exists f', (<[x := a]> NV). by eapply allocated_add.
  - intros _ _ _. exists (GlobalGen s1). by destruct s1.
Qed.

Lemma declare_built s Δ brs R x :
  built s Δ brs R → Δ ≠ [] → resolve x Δ = None → ∀ s',
  nodes s' = <[brk s := Decl None x]> (nodes s) → brk s' = S (brk s) →
  GlobalTable s' = symtab_add (link Δ) x (brk s) (GlobalTable s) →
  CurrentScope s' = CurrentScope s → cin s' = cin s → cout s' = cout s → gen_ok s' →
  built s' (declare x (brk s) Δ) brs R.
Proof.
  intros Hb Hne Hr s' EN EB ET EC EI EO HG. pose proof (bl_fresh _ _ _ _ Hb) as Hf.
  destruct Δ as [|[p u] Δ]; [done|]. destruct brs as [|bs brs]; [by destruct Hb|].
  pose proof (head_at _ _ _ _ _ _ _ Hb) as Hp. destruct Hb.
  assert (Hu : u !! x = None) by (cbn in Hr; by destruct (u !! x)).
  apply Forall_cons in bl_frames0 as [Hpu Hfr]. cbn in Hpu. cbn [link] in *.
  assert (Hother : ∀ q n, (q, n) ∈ (declent unset <$> map_to_list u) ++ mjoin (tree_ents unset <$> bs) ++ chain_ents Δ brs →
    GlobalTable s' !! q = GlobalTable s !! q).
  { intros q n Hq. rewrite ET. unfold symtab_add. apply lookup_insert_ne. intros He.
    cbn [chain_ents app] in bl_heap0. apply (heap_fresh _ _ _ _ bl_heap0 q n); [|done]. apply elem_of_app. by left. }
  split; cbn [declare link]; try congruence; try lia.
  - rewrite EN. cbn [chain_ents]. rewrite map_to_list_insert by done. cbn. rewrite <- Permutation_swap.
    by apply heap_insert.
  - cbn in *. lia.
  - cbn in *. lia.
  - rewrite EN, EB. intros q. destruct (decide (q = brk s)) as [->|Hq]; [lia|]. rewrite lookup_insert_ne by done.
    intros Hq'. apply bl_node0 in Hq'. lia.
  - rewrite ET, EB. intros q. unfold symtab_add. destruct (decide (q = p)) as [->|Hq].
    + intros _. assert (0 < p < brk s)%nat by (apply bl_node0; by eexists). lia.
    + rewrite lookup_insert_ne by done. intros Hq'. apply bl_tabs0 in Hq'. lia.
  - constructor.
    + cbn. rewrite ET. unfold symtab_add. rewrite lookup_insert_eq. cbn. by rewrite Hpu.
    + rewrite Forall_forall in *. intros [q w] Hq. cbn. apply list_elem_of_split in Hq as (Δ1 & Δ2 & ->).
      destruct (chain_node Δ1 q w Δ2 brs) as [cs Hcs]; [by injection bl_len0|].
      rewrite (Hother q _ ltac:(rewrite !elem_of_app; right; right; exact Hcs)).
      apply (Hfr (q, w)). set_solver.
  - destruct bl_ok0 as [Hbs Hok]. split; [|exact Hok]. eapply Forall_impl; [exact Hbs|]. intros c [Hsc ? ?].
    split; [|done..]. eapply scoped_weaken; [|exact Hsc].
    by apply extends_avail, (declare_extends x (brk s) ((p, u) :: Δ)).
  - rewrite !Forall_forall in *. intros cs Hcs. rewrite Forall_forall. intros c Hc.
    eapply tabled_ext; [|specialize (bl_trees0 cs Hcs); rewrite Forall_forall in bl_trees0; by apply bl_trees0].
    intros q n Hq. apply (Hother q n). rewrite !elem_of_app. right.
    assert (Hin : (q, n) ∈ tree_ents unset c) by (apply elem_of_app; by left).
    apply elem_of_cons in Hcs as [->|Hcs]; [left; by eapply in_mjoin_fmap|right].
    eapply chain_tree; [by injection bl_len0|done..].
Qed.

Lemma access_built s Δ brs R x :
  built s Δ brs R → Δ ≠ [] →
  match resolve x Δ with
  | Some d => access CODEGEN (link Δ) x s = Some (d, s)
  | None => ∃ s', access CODEGEN (link Δ) x s = Some (brk s, s') ∧ built s' (declare x (brk s) Δ) brs R ∧
      brk s' = S (brk s)
  end.
Proof.
  intros Hb Hne. pose proof (visible_run s Δ brs R x [] Δ (brk s) Hb eq_refl Hne (bl_fuel _ _ _ _ Hb)) as Hv.
  unfold access. destruct (resolve x Δ) as [d|] eqn:Hr; cstep; rewrite (C_bind_Some _ _ _ _ _ Hv); cbn [from_option id].
  - assert (0 < d < brk s)%nat.
    { eapply bl_node; [exact Hb|]. eexists. by eapply resolve_alive, resolve_avail. }
    by replace (d =? 0)%nat with false by (symmetry; apply Nat.eqb_neq; lia).
  - change (0 =? 0)%nat with true. cbn [negb].
    set (s1 := PState (<[brk s := Decl None x]> (nodes s)) (S (brk s)) (GlobalTable s) (CurrentScope s) (GlobalGen s) (cin s) (cout s)).
    destruct (AddDecl_gen s s1 x) as (g & Hrun & Hok); [apply (bl_gen _ _ _ _ Hb)|done| |].
    { intros y d v. cbn. destruct (decide (d = brk s)) as [->|Hd]; [rewrite lookup_insert_eq; intros [= <- <-]; by left|].
      rewrite lookup_insert_ne by done. by right. }
    set (s2 := set_gen g s1) in *.
    exists (set_table (symtab_add (link Δ) x (brk s) (GlobalTable s)) s2). split; [|split; [|done]].
    + rewrite (C_bind_Some _ _ _ (brk s) s1) by done. by rewrite (C_bind_Some _ _ _ _ _ Hrun).
    + apply (declare_built s); try done. apply (gen_ok_nodes s2); [done| |done]. cbn. eauto.
Qed.

(** ** Running the actions

    [m] runs as the translation [o] says; if that fails, with a parse error, in a state
    whose outermost scope is [p0]. *)
Definition fails {A} (m : X pstate A) s (p0 : option ptr) : Prop := ∃ s' Δ' brs' R',
  m s = Some (Throw (runtime_error "parse error"), s') ∧ built s' Δ' brs' R' ∧ fst <$> last Δ' = p0.

Definition runs {A B} (m : X pstate A) s (p0 : option ptr) (o : option B) (Post : B → A → pstate → Prop) : Prop :=
  match o with
  | Some y => ∃ a s', m s = Some (Ok a, s') ∧ Post y a s'
  | None => fails m s p0
  end.

Lemma runs_bind {A A' B B'} (m : X pstate A) (k : A → X pstate A') s p0 (o : option B) (f : B → option B') P Q :
  runs m s p0 o P → (∀ y a s', o = Some y → P y a s' → runs (k a) s' p0 (f y) Q) → runs (m ≫= k) s p0 (o ≫= f) Q.
Proof.
  unfold runs. destruct o as [y|]; cbn.
  - intros (a & s' & Hm & HP) Hk. specialize (Hk y a s' eq_refl HP).
    destruct (f y); cbn; [|destruct Hk as (s2 & Δ' & brs' & R' & Hk & ?); exists s2, Δ', brs', R'];
      by rewrite (X_bind_Ok _ _ _ _ _ Hm).
  - intros (s' & Δ' & brs' & R' & Hm & ?) _. exists s', Δ', brs', R'. by rewrite (X_bind_Throw _ _ _ _ _ Hm).
Qed.

Lemma runs_call {A A' B} (m : C pstate A) (k : A → X pstate A') s p0 (o : option B) a s' Q :
  m s = Some (a, s') → runs (k a) s' p0 o Q → runs (call m ≫= k) s p0 o Q.
Proof.
  intros Hm. unfold runs, fails. assert (Hc : call m s = Some (Ok a, s')) by (unfold call; by rewrite Hm).
  by rewrite (X_bind_Ok _ _ _ _ _ Hc).
Qed.

Lemma runs_last {A B} (m : C pstate A) s p0 (y : B) a s' (Q : B → A → pstate → Prop) :
  m s = Some (a, s') → Q y a s' → runs (call m) s p0 (Some y) Q.
Proof. intros Hm HQ. exists a, s'. unfold call. by rewrite Hm. Qed.

Definition tree_post Δ brs R : tree * ptr → ptr → pstate → Prop := λ y a s',
  a = root y.1 ∧ built s' Δ brs (tree_ents unset y.1 ++ R) ∧ brk s' = y.2.

(** A new node above trees that wait. *)
Lemma runs_new {A} s p0 Δ brs L n (y : A) (Q : A → ptr → pstate → Prop) :
  built s Δ brs L → is_decl n = false →
  (∀ s', built s' Δ brs ((brk s, n) :: L) → brk s' = S (brk s) → GlobalTable s' = GlobalTable s → Q y (brk s) s') →
  runs (call (new n)) s p0 (Some y) Q.
Proof.
  intros Hb Hn HQ. destruct (new_built _ _ _ _ n Hb Hn) as (s' & Hrun & Hb' & Hbrk & HT).
  eapply runs_last; [exact Hrun|auto].
Qed.

Lemma runs_binary (m1 m2 : X pstate ptr) s Δ brs R o1 (o2 : ptr → option (tree * ptr)) (op : Operation) :
  let p0 := fst <$> last Δ in
  runs m1 s p0 o1 (tree_post Δ brs R) →
  (∀ s' R', built s' Δ brs R' → runs m2 s' p0 (o2 (brk s')) (tree_post Δ brs R')) →
  runs (l ← m1; r ← m2; call (makeOperand l op r)) s p0
    ('(tl, b) ← o1; '(tr, b) ← o2 b; Some (TBin b tl op tr, S b)) (tree_post Δ brs R).
Proof.
  intros p0 Hm1 Hm2. eapply runs_bind; [exact Hm1|]. intros [tl b] l s1 _ (-> & Hb1 & Hk). cbn [fst snd] in Hb1, Hk. subst b.
  eapply runs_bind; [by apply Hm2|]. intros [tr b] r s2 _ (-> & Hb2 & Hk). cbn [fst snd] in Hb2, Hk. subst b.
  eapply (runs_new _ (fst <$> last Δ)); [exact Hb2|done|]. intros s3 Hb3 Hbrk _. split; [done|]. split; [|done]. cbn [fst snd].
  change (built s3 Δ brs (tree_ents unset (TBin (brk s2) tl op tr) ++ R)).
  rewrite tree_ents_bin. cbn [app]. by rewrite (Permutation_app_comm (tree_ents unset tl)), <- app_assoc.
Qed.

Lemma runs_post {A B} (m : X pstate A) s p0 (o : option B) (P Q : B → A → pstate → Prop) :
  runs m s p0 o P → (∀ y a s', P y a s' → Q y a s') → runs m s p0 o Q.
Proof. unfold runs. destruct o; [|done]. intros (a & s' & Hm & HP) HQ. eauto. Qed.

Lemma act_expr_run e s Δ brs R :
  built s Δ brs R → Δ ≠ [] →
  runs (act_expr e) s (fst <$> last Δ) (elab_expr Δ e (brk s)) (tree_post Δ brs R).
Proof.
  intros Hb Hne. revert s R Hb. induction e; intros s R Hb; cbn [act_expr elab_expr].
  - apply (runs_binary _ _ _ _ _ _ _ (λ b, elab_expr Δ e2 b) (arith_op op)); [by apply IHe1|]. intros. by apply IHe2.
  - eapply runs_bind; [by apply IHe|]. intros [t b] r s1 _ (-> & Hb1 & Hk). cbn [fst snd] in Hb1, Hk. subst b.
    destruct (new_built _ _ _ _ (Value 0) Hb1 ltac:(done)) as (s2 & Hrun2 & Hb2 & Hbrk2 & _).
    eapply runs_call; [exact Hrun2|]. cbn. rewrite <- Hbrk2.
    eapply (runs_new _ (fst <$> last Δ)); [exact Hb2|done|]. intros s3 Hb3 Hbrk _. split; [done|]. split; [|cbn; lia]. exact Hb3.
  - eapply runs_call; [done|]. eapply runs_call; [done|]. rewrite (bl_scope _ _ _ _ Hb).
    eapply runs_call; [by apply (visible_run s Δ brs R name [] Δ (brk s) Hb eq_refl Hne (bl_fuel _ _ _ _ Hb))|].
    destruct (resolve name Δ) as [d|] eqn:Hr; cbn [from_option id].
    + assert (0 < d < brk s)%nat.
      { apply (bl_node _ _ _ _ Hb). eexists. by eapply resolve_alive, resolve_avail. }
      replace (d =? 0)%nat with false by (symmetry; apply Nat.eqb_neq; lia).
      exists d, s. done.
    + exists s, Δ, brs, R. done.
  - eapply (runs_new _ (fst <$> last Δ)); [exact Hb|done|]. done.
  - eapply (runs_new _ (fst <$> last Δ)); [exact Hb|done|]. done.
  - by apply IHe.
Qed.

Lemma act_lexpr_run e s Δ brs R :
  built s Δ brs R → Δ ≠ [] →
  runs (act_lexpr e) s (fst <$> last Δ) (elab_lexpr Δ e (brk s)) (tree_post Δ brs R).
Proof.
  intros Hb Hne. revert s R Hb. induction e; intros s R Hb; cbn [act_lexpr elab_lexpr].
  - by apply act_expr_run.
  - apply (runs_binary _ _ _ _ _ _ _ (λ n, elab_expr Δ b n)); [by apply act_expr_run|].
    intros. by apply act_expr_run.
  - apply (runs_binary _ _ _ _ _ _ _ (λ b, elab_lexpr Δ e2 b)); [by apply IHe1|]. intros. by apply IHe2.
  - apply (runs_binary _ _ _ _ _ _ _ (λ b, elab_lexpr Δ e2 b)); [by apply IHe1|]. intros. by apply IHe2.
  - eapply runs_bind; [by apply IHe|]. intros [t b] r s1 _ (-> & Hb1 & Hk). cbn [fst snd] in Hb1, Hk. subst b.
    eapply (runs_new _ (fst <$> last Δ)); [exact Hb1|done|]. done.
  - by apply IHe.
Qed.

(** ** Statements *)
Definition stm_post brs R : tree * frames * ptr → ptr → pstate → Prop := λ y a s',
  a = root y.1.1 ∧ built s' y.1.2 brs (tree_ents unset y.1.1 ++ R) ∧ brk s' = y.2 ∧
  tabled (GlobalTable s') y.1.1.

Definition stms_post bs brs R : list tree * frames * ptr → () → pstate → Prop := λ y _ s',
  built s' y.1.2 ((bs ++ y.1.1) :: brs) R ∧ brk s' = y.2.

Definition stm_runs (x : stm) : Prop := ∀ s Δ brs R, built s Δ brs R → Δ ≠ [] →
  runs (act_stm CODEGEN x) s (fst <$> last Δ) (elab_stm x Δ (brk s)) (stm_post brs R).
Definition body_runs (x : body) : Prop := ∀ s Δ brs R, built s Δ brs R → Δ ≠ [] →
  runs (act_body CODEGEN x) s (fst <$> last Δ) (elab_body x Δ (brk s)) (stm_post brs R).
Definition stms_runs (x : stms) : Prop := ∀ s Δ bs brs R, built s Δ (bs :: brs) R → Δ ≠ [] →
  runs (act_stms CODEGEN x) s (fst <$> last Δ) (elab_stms x Δ (brk s)) (stms_post bs brs R).

Lemma extends_last Δ Δ' : extends Δ Δ' → fst <$> last Δ = fst <$> last Δ'.
Proof.
  destruct Δ as [|[p u] Δ], Δ' as [|[p' u'] Δ']; try done. intros (-> & _ & ->).
  rewrite !last_cons. by destruct (last Δ').
Qed.

Lemma enter_last (f : ptr * gmap string ptr) Δ : Δ ≠ [] → fst <$> last (f :: Δ) = fst <$> last Δ.
Proof. intros Hne. rewrite last_cons. destruct (last Δ) eqn:Hl; [done|]. by apply last_None in Hl. Qed.

Lemma is_expr_tabled T t : is_expr t → tabled T t.
Proof. intros Ht. by apply is_expr_facts. Qed.

Lemma assign_run x e : stm_runs (SAssign x e).
Proof.
  intros s Δ brs R Hb Hne. cbn [act_stm elab_stm].
  eapply runs_call; [done|]. rewrite (bl_scope _ _ _ _ Hb). pose proof (access_built s Δ brs R x Hb Hne) as Ha.
  assert (Hrest : ∀ d s1 Δ1, access CODEGEN (link Δ) x s = Some (d, s1) → built s1 Δ1 brs R → extends Δ Δ1 →
    runs (l ← call (access CODEGEN (link Δ) x); r ← act_expr e; call (makeOperand l Assign r)) s (fst <$> last Δ)
      ('(t, b) ← elab_expr Δ1 e (brk s1); Some (TBin b (TVar d x) Assign t, Δ1, S b)) (stm_post brs R)).
  { intros d s1 Δ1 Hrun Hb1 Hx. eapply runs_call; [exact Hrun|]. rewrite (extends_last _ _ Hx).
    eapply runs_bind; [apply act_expr_run; [exact Hb1|by eapply extends_nonempty]|].
    intros [t b] r s2 He (-> & Hb2 & Hk). cbn [fst snd] in Hb2, Hk. subst b.
    eapply (runs_new _ (fst <$> last Δ)); [exact Hb2|done|]. intros s3 Hb3 Hbrk HT.
    split; [done|]. split; [exact Hb3|]. split; [done|]. cbn. split; [done|].
    by eapply is_expr_tabled, elab_expr_spec. }
  destruct (resolve x Δ) as [d|] eqn:Hr; [by apply Hrest|].
  destruct Ha as (s1 & Hrun & Hb1 & <-). apply (Hrest _ s1); [done..|]. by apply declare_extends.
Qed.

Lemma output_run e : stm_runs (SOutput e).
Proof.
  intros s Δ brs R Hb Hne. cbn [act_stm elab_stm]. eapply runs_bind; [by apply act_expr_run|].
  intros [t b] r s1 He (-> & Hb1 & Hk). cbn [fst snd] in Hb1, Hk. subst b.
  eapply (runs_new _ (fst <$> last Δ)); [exact Hb1|done|]. intros s3 Hb3 Hbrk HT.
  split; [done|]. split; [exact Hb3|]. split; [done|]. cbn. by eapply is_expr_tabled, elab_expr_spec.
Qed.

(** Leaving the innermost scope, which has got its branches. *)
Lemma runs_leave {A B} (a : A) s p0 Δ bs brs R (y : tree → frames → B) Q :
  built s Δ (bs :: brs) R → Δ ≠ [] →
  (∀ t Δ' s', close Δ bs = Some (t, Δ') → built s' Δ' brs (tree_ents unset t ++ R) → brk s' = brk s →
    tabled (GlobalTable s') t → root t = link Δ → Q (y t Δ') a s') →
  runs (call leave_scope;; mret a) s p0 ('(t, Δ') ← close Δ bs; Some (y t Δ')) Q.
Proof.
  destruct Δ as [|[p u] Δ]; [done|]. intros Hb _ HQ.
  destruct (leave_built _ _ _ _ _ _ _ Hb) as (s' & Hrun & Hb' & Hbrk & HT & Ht).
  eapply runs_call; [exact Hrun|]. cbn. exists a, s'. split; [done|]. apply HQ; [done..|by rewrite HT|done].
Qed.

Lemma in_scope_run ss s Δ brs R :
  stms_runs ss → built s Δ brs R → Δ ≠ [] →
  runs (in_scope (act_stms CODEGEN ss)) s (fst <$> last Δ)
    ('(ts, Δ1, b) ← elab_stms ss ((brk s, ∅) :: Δ) (S (brk s)); '(t, Δ2) ← close Δ1 ts; Some (t, Δ2, b))
    (stm_post brs R).
Proof.
  intros Hss Hb Hne. destruct (enter_built _ _ _ _ Hb) as (s1 & Hrun & Hb1 & Hbrk).
  unfold in_scope. eapply runs_call; [exact Hrun|].
  rewrite <- Hbrk, <- (enter_last (brk s, ∅) Δ Hne).
  eapply runs_bind; [by apply (Hss s1 _ [] brs R)|]. intros [[ts Δ1] b] [] s2 He [Hb2 Hk]. cbn [fst snd app] in Hb2, Hk. subst b.
  apply elab_spec in He as [Hx Hts]; [|done].
  eapply runs_call; [done|]. rewrite (bl_scope _ _ _ _ Hb2).
  eapply (runs_leave _ _ _ _ _ _ _ (λ t Δ2, (t, Δ2, brk s2))); [exact Hb2|by eapply extends_nonempty|].
  intros t Δ2 s3 Hcl Hb3 Hbrk3 Ht Hroot. done.
Qed.

Lemma branch_run s Δ bs brs R t :
  built s Δ (bs :: brs) (tree_ents unset t ++ R) → Δ ≠ [] → tabled (GlobalTable s) t → branch_ok Δ t →
  ∃ s', add_branch (root t) s = Some ((), s') ∧ built s' Δ ((bs ++ [t]) :: brs) R ∧ brk s' = brk s.
Proof.
  destruct Δ as [|[p u] Δ]; [done|]. intros Hb _ Ht Hok.
  destruct (add_branch_built _ _ _ _ _ _ _ _ Hb Ht Hok) as (s' & ? & ? & ? & ?). eauto.
Qed.

Definition guard (make : ptr → ptr → C pstate ptr) (c : lexpr) (bd : body) : X pstate ptr :=
  c ← act_lexpr c; call enter_scope;;
  p ← act_body CODEGEN bd; call (add_branch p);;
  cur ← call current; n ← call (make c cur);
  call leave_scope;;
  mret n.

Lemma guard_run (make : ptr → ptr → node) (tmake : ptr → tree → tree → tree) c bd s Δ brs R :
  (∀ c p, is_decl (make c p) = false) →
  (∀ p c b, tree_ents unset (tmake p c b) ≡ₚ (p, make (root c) (root b)) :: tree_ents unset c ++ tree_ents unset b) →
  (∀ T p c b, tabled T c → tabled T b → tabled T (tmake p c b)) → (∀ p c b, root (tmake p c b) = p) →
  body_runs bd → built s Δ brs R → Δ ≠ [] →
  runs (guard (λ c p, new (make c p)) c bd) s (fst <$> last Δ)
    ('(tc, b) ← elab_lexpr Δ c (brk s); '(t, Δ1, b) ← elab_body bd ((b, ∅) :: Δ) (S b);
     '(sc, Δ2) ← close Δ1 [t]; Some (tmake b tc sc, Δ2, S b)) (stm_post brs R).
Proof.
  intros Hdecl Hents Htab Hroot Hbd Hb Hne. unfold guard.
  eapply runs_bind; [by apply act_lexpr_run|]. intros [tc b] r s1 He (-> & Hb1 & Hk). cbn [fst snd] in Hb1, Hk. subst b.
  destruct (enter_built _ _ _ _ Hb1) as (s2 & Hrun2 & Hb2 & Hbrk2). eapply runs_call; [exact Hrun2|].
  rewrite <- Hbrk2, <- (enter_last (brk s1, ∅) Δ Hne).
  eapply runs_bind; [by apply Hbd|]. intros [[t Δ1] b] p s3 Het (-> & Hb3 & Hk & Ht). cbn [fst snd] in Hb3, Hk, Ht. subst b.
  apply elab_spec in Het as Hspec; [|done].
  assert (Hne1 : Δ1 ≠ []) by (eapply extends_nonempty; [by eapply spec_extends|done]).
  destruct (branch_run _ _ _ _ _ _ Hb3 Hne1 Ht (spec_branch _ _ _ Hspec)) as (s4 & Hrun4 & Hb4 & Hbrk4).
  eapply runs_call; [exact Hrun4|]. eapply runs_call; [done|]. rewrite (bl_scope _ _ _ _ Hb4).
  destruct (new_built _ _ _ _ (make (root tc) (link Δ1)) Hb4 ltac:(done)) as (s5 & Hrun5 & Hb5 & Hbrk5 & HT5).
  eapply runs_call; [exact Hrun5|]. rewrite <- Hbrk4.
  eapply (runs_leave _ _ _ _ _ _ _ (λ sc Δ2, (tmake (brk s4) tc sc, Δ2, S (brk s4)))); [exact Hb5|done|].
  intros sc Δ2 s6 Hcl Hb6 Hbrk6 Hsc Hrsc. split; [symmetry; apply Hroot|]. cbn [fst snd].
  split; [|split; [lia|apply Htab; [|done]; by eapply is_expr_tabled, elab_lexpr_spec]].
  rewrite Hents, Hrsc. cbn [app]. eapply built_proper; [|exact Hb6].
  rewrite <- Permutation_middle. constructor. rewrite !app_assoc.
  apply Permutation_app_tail, Permutation_app_comm.
Qed.

Lemma attach_run s p0 Δ Δ0 ts bs brs R t :
  built s Δ ((bs ++ ts) :: brs) (tree_ents unset t ++ R) → Δ ≠ [] → tabled (GlobalTable s) t → stm_spec Δ0 Δ t →
  runs (call (add_branch (root t))) s p0 (Some (ts ++ [t], Δ, brk s)) (stms_post bs brs R).
Proof.
  intros Hb Hne Ht Hs. destruct (branch_run _ _ _ _ _ _ Hb Hne Ht (spec_branch _ _ _ Hs)) as (s' & Hrun & Hb' & Hbrk).
  exists (), s'. unfold call. rewrite Hrun. split; [done|]. split; [|done].
  cbn [fst snd]. by rewrite app_assoc.
Qed.

Lemma act_run : (∀ x, stm_runs x) ∧ (∀ x, body_runs x) ∧ (∀ x, stms_runs x).
Proof.
  apply stm_body_stms_ind.
  - apply assign_run.
  - intros c bd IH s Δ brs R Hb Hne. apply (guard_run If TIf); try done. apply tree_ents_if.
  - intros c bd IH s Δ brs R Hb Hne. apply (guard_run While TWhile); try done. apply tree_ents_while.
  - apply output_run.
  - done.
  - intros ss IH s Δ brs R Hb Hne. by apply in_scope_run.
  - intros x IH s Δ bs brs R Hb Hne. cbn [act_stms elab_stms].
    eapply runs_bind; [by apply IH|]. intros [[t Δ1] b] p s1 He (-> & Hb1 & Hk & Ht).
    cbn [fst snd] in Hb1, Hk, Ht. subst b. apply elab_spec in He as Hs; [|done].
    rewrite <- (app_nil_r bs) in Hb1. apply (attach_run _ _ _ Δ [] _ _ _ _ Hb1); [|done|exact Hs].
    eapply extends_nonempty; [by eapply spec_extends|done].
  - intros ss IHs x IH s Δ bs brs R Hb Hne. cbn [act_stms elab_stms].
    eapply runs_bind; [by apply IHs|]. intros [[ts Δ1] b] [] s1 He [Hb1 Hk]. cbn [fst snd] in Hb1, Hk. subst b.
    apply elab_spec in He as [Hx Hts]; [|done]. assert (Hne1 : Δ1 ≠ []) by (by eapply extends_nonempty).
    rewrite (extends_last _ _ Hx). eapply runs_bind; [by apply IH|].
    intros [[t Δ2] b] p s2 Het (-> & Hb2 & Hk & Ht). cbn [fst snd] in Hb2, Hk, Ht. subst b.
    apply elab_spec in Het as Hs; [|done]. apply (attach_run _ _ _ Δ1 _ _ _ _ _ Hb2); [|done|exact Hs].
    eapply extends_nonempty; [by eapply spec_extends|done].
  - intros ss IHs sc IH s Δ bs brs R Hb Hne. cbn [act_stms elab_stms].
    eapply runs_bind; [by apply IHs|]. intros [[ts Δ1] b] [] s1 He [Hb1 Hk]. cbn [fst snd] in Hb1, Hk. subst b.
    apply elab_spec in He as [Hx Hts]; [|done]. assert (Hne1 : Δ1 ≠ []) by (by eapply extends_nonempty).
    rewrite (extends_last _ _ Hx).
    eapply runs_bind; [by apply in_scope_run|].
    intros [[u Δ2] b] p s2 Het (-> & Hb2 & Hk & Ht). cbn [fst snd] in Hb2, Hk, Ht. subst b.
    assert (Hs : stm_spec Δ1 Δ2 u ∧ Δ2 = Δ1).
    { inv_elab. match goal with h : elab_stms _ _ _ = _ |- _ => apply elab_spec in h as [Hx1 Hus]; [|done] end.
      by eapply spec_close. }
    destruct Hs as [Hs ->]. by apply (attach_run _ _ _ _ _ _ _ _ _ Hb2 Hne1 Ht Hs).
Qed.
End parse.
