(* ===== verification/PclProgram.v ===== *)
(** * ParaCL from the source to the output

    [main] parses the program, then interprets or compiles the tree, then deletes it.
    [elab] says which tree that is and [beval] what it means: the interpreter prints
    that, and so does the function that LLVM runs. *)

From S2P Require Import Prelude Llvm LlvmCfg LlvmList Pcl PclMain PclTree PclCalc PclHeap PclGen PclElab PclParse.

(** ** Trees in a heap *)
Section heap.
Context `{IRBuilder}.
Implicit Types (t : tree) (s : pstate) (L : list (ptr * node)) (σ : est).

Lemma scoped_vars A t : scoped A t → vars t ⊆ A ++ owned t.
Proof.
  revert A. induction t using tree_induction; cbn; intros A Hs; try set_solver.
  rewrite fold_and_Forall, Forall_forall in Hs. rewrite Forall_forall in H0.
    intros e He. apply list_elem_of_join in He as (l & He & Hl). apply list_elem_of_fmap in Hl as (b & -> & Hb).
    specialize (H0 b Hb _ (Hs b Hb) e He). rewrite !elem_of_app in H0 |- *.
    destruct H0 as [[Hd|HA]|Ho]; [auto|auto|]. right. right. by eapply in_mjoin_fmap.
Qed.

Lemma entries_not_decl t p n : (p, n) ∈ entries t → is_decl n = false.
Proof.
  induction t using tree_induction; cbn; rewrite ?elem_of_cons, ?elem_of_app, ?elem_of_nil; try naive_solver.
  intros [[= -> ->]|Hin]; [done|]. apply list_elem_of_join in Hin as (l & He & Hl).
  apply list_elem_of_fmap in Hl as (b & -> & Hb). rewrite Forall_forall in H0. by eapply H0.
Qed.

Lemma heap_holds V N t L :
  is_heap N (tree_ents V t ++ L) → N !! 0%nat = None → scoped [] t → holds N t.
Proof.
  intros HL H0' Hs. split; [| |done].
  - intros p n Hp. apply (heap_lookup _ _ _ _ HL). apply elem_of_app. left. apply elem_of_app. by left.
  - intros x d Hx. apply (scoped_vars _ _ Hs) in Hx. cbn in Hx. exists (V d).
    apply (heap_lookup _ _ _ _ HL). apply elem_of_app. left. apply elem_of_app. right.
    apply list_elem_of_fmap. by exists (x, d).
Qed.

(** Writing values changes the declarations only. *)
Lemma write_id s t :
  is_heap (nodes s) (tree_ents unset t) → write (Est ∅ (cin s) (cout s)) s = s.
Proof.
  intros HL. destruct s as [N b T c g i o]. unfold write. cbn in *. f_equal. apply map_eq. intros p.
  rewrite map_lookup_imap. destruct (N !! p) as [n|] eqn:Hp; [|done]. cbn. f_equal.
  apply (heap_lookup _ _ _ _ HL) in Hp. apply elem_of_app in Hp as [Hp|Hp].
  - apply entries_not_decl in Hp. by destruct n.
  - apply list_elem_of_fmap in Hp as ([x d] & [= -> ->] & _). done.
Qed.

Lemma write_heap σ s t :
  is_heap (nodes s) (tree_ents unset t) → is_heap (nodes (write σ s)) (tree_ents (λ p, env σ !! p) t).
Proof.
  intros [Hnd Hmap]. assert (Hfst : (tree_ents (λ p, env σ !! p) t).*1 = (tree_ents unset t).*1).
  { unfold tree_ents. rewrite !fmap_app. f_equal. rewrite <- !list_fmap_compose. done. }
  assert (Hnd' : NoDup (tree_ents (λ p, env σ !! p) t).*1) by (by rewrite Hfst).
  assert (HL : is_heap (nodes s) (tree_ents unset t)) by done.
  split; [done|]. apply map_eq. intros p. cbn. rewrite map_lookup_imap.
  destruct (nodes s !! p) as [n|] eqn:Hp; cbn; symmetry.
  - apply elem_of_list_to_map_1; [done|]. apply (heap_lookup _ _ _ _ HL) in Hp.
    apply elem_of_app in Hp as [Hp|Hp]; apply elem_of_app.
    + left. assert (Hn := entries_not_decl _ _ _ Hp). by destruct n.
    + right. apply list_elem_of_fmap in Hp as ([x d] & [= -> ->] & Hx). apply list_elem_of_fmap. by exists (x, d).
  - apply not_elem_of_list_to_map_1. rewrite Hfst. apply not_elem_of_list_to_map. by rewrite <- Hmap.
Qed.

(** Deleting the tree of the program. *)
Lemma delete_program V n t s :
  is_heap (nodes s) (tree_ents V t) → nodes s !! 0%nat = None → shaped t → is_var t = false → scoped [] t →
  tabled (GlobalTable s) t → (height t ≤ n)%nat →
  ∃ s', delete_node n (root t) s = Some ((), s') ∧ nodes s' = ∅ ∧
    cin s' = cin s ∧ cout s' = cout s ∧ GlobalGen s' = GlobalGen s.
Proof.
  intros HL H0' Hsh Hv Hs HT Hn.
  destruct (delete_tree V n t Hsh Hv Hn s [] []) as (s' & Hrun & [_ HN] & _ & (N & T & ->) & _); try done.
  - by rewrite app_nil_r.
  - by intros x d Hx%elem_of_nil.
  - eexists. split; [exact Hrun|]. cbn in *. done.
Qed.
End heap.

(** ** The driver *)
Section driver.
Context `{IRDocumented}.
Variables (CODEGEN : bool) (left_first : Operation → bool) (ModuleName : string) (inp : list Z).
Implicit Types (t : tree) (s : pstate) (L : list (ptr * node)) (Δ : frames) (p : ptr).

(** The store has a tree that can be deleted, and [L]. *)
Record stored s t L : Prop := {
  st_heap : is_heap (nodes s) (tree_ents unset t ++ L);
  st_null : nodes s !! 0%nat = None;
  st_scoped : scoped [] t;
  st_shaped : shaped t;
  st_var : is_var t = false;
  st_tabled : tabled (GlobalTable s) t }.

Lemma chain_last Δ1 p u brs :
  length (Δ1 ++ [(p, u)]) = length brs → chain_ok (Δ1 ++ [(p, u)]) brs → ∃ brs1 bs L, brs = brs1 ++ [bs] ∧
    chain_ents (Δ1 ++ [(p, u)]) brs ≡ₚ tree_ents unset (TScope p 0 (map_to_list u) bs) ++ L ∧
    (Δ1 = [] → L = []) ∧ Forall (branch_ok [(p, u)]) bs.
Proof.
  revert brs. induction Δ1 as [|[q w] Δ1 IH]; intros [|cs brs] Hlen Hok; try done.
  - destruct brs; [|done]. exists [], cs, []. split; [done|]. split; [|split; [done|apply Hok]].
    rewrite tree_ents_scope, app_nil_r. cbn. by rewrite app_nil_r.
  - destruct (IH brs) as (brs1 & bs & L & -> & HP & _ & Hbs); [cbn in *; lia|apply Hok|].
    set (H2 := (q, Scope (root <$> cs) (link (Δ1 ++ [(p, u)]))) :: (declent unset <$> map_to_list w) ++ mjoin (tree_ents unset <$> cs)).
    exists (cs :: brs1), bs, (H2 ++ L). split; [done|]. split; [|by split].
    cbn [chain_ents app]. rewrite HP. rewrite (app_assoc (declent unset <$> map_to_list w)).
    exact (Permutation_app_swap_app H2 _ L).
Qed.

Lemma outer_tree s Δ1 p u brs R :
  built CODEGEN inp s (Δ1 ++ [(p, u)]) brs R → ∃ bs brs1 L,
    stored s (TScope p 0 (map_to_list u) bs) L ∧ brs = brs1 ++ [bs] ∧ (Δ1 = [] → L = R).
Proof.
  intros []. destruct (chain_last _ _ _ _ bl_len bl_ok) as (brs1 & bs & L & -> & HP & HL & Hbs).
  exists bs, brs1, (L ++ R). split; [|split; [done|by intros ->%HL]].
  apply Forall_app in bl_frames as [_ Hu], bl_trees as [_ Ht].
  rewrite Forall_singleton in Hu. rewrite Forall_singleton in Ht. cbn in Hu. split.
  - eapply is_heap_proper; [|exact bl_heap]. rewrite app_assoc. apply Permutation_app_tail. by symmetry.
  - destruct (nodes s !! 0%nat) eqn:H0'; [|done]. assert (0 < 0)%nat by (apply bl_node; by eexists). lia.
  - cbn [scoped]. apply fold_and_Forall. eapply Forall_impl; [exact Hbs|]. by intros c [? _ _].
  - cbn. apply forallb_True. eapply Forall_impl; [exact Hbs|]. intros c [_ ? Hv]. by rewrite Hv, andb_True.
  - done.
  - cbn. rewrite Hu, fold_and_Forall. done.
Qed.

Definition boot_state : pstate := PState {[1%nat := Scope [] 0]} 2 ∅ 1 None inp [].

Lemma boot_run : ∃ s, (if CODEGEN then call (modify (set_gen (Some createCodeGen)));; call StartFunction else mret ())
    boot_state = Some (Ok (), s) ∧ brk s = 2%nat ∧ built CODEGEN inp s [(1%nat, ∅)] [[]] [].
Proof.
  assert (Hb : ∀ g, gen_ok CODEGEN (set_gen g boot_state) →
    built CODEGEN inp (set_gen g boot_state) [(1%nat, ∅)] [[]] []).
  { intros g Hg. split; cbn; try done; try lia.
    - rewrite map_to_list_empty. cbn. split; [by repeat constructor; apply not_elem_of_nil|done].
    - intros p Hp. apply lookup_singleton_is_Some in Hp. lia.
    - intros p. by rewrite lookup_empty.
    - by constructor.
    - by constructor. }
  unfold gen_ok in *. destruct CODEGEN eqn:HC.
  - destruct (BasicBlock_Create Function_Create) as [b f] eqn:Hf.
    exists (set_gen (Some (Gen (Module_ createCodeGen) (Some (SetInsertPoint b f)) ∅)) boot_state).
    split; [|split; [done|]].
    + cunfold. unfold StartFunction, gen. cunfold. cbn. by rewrite Hf.
    + apply Hb. exists (SetInsertPoint b f), ∅. destruct (doc_function _ _ Hf) as (-> & Hc & Ht & Hbl).
      destruct (doc_insert f entry) as (Hh & Hct & Hib & _). destruct (Hct entry) as [Ec Et].
      split; try done.
      * split; rewrite Hh; [by apply Hib, Hbl|congruence].
      * intros x d v. cbn. intros [_ ?]%lookup_singleton_Some. done.
      * intros m. exists m. rewrite Ec, Hc. done.
  - exists (set_gen None boot_state). split; [done|]. split; [done|by apply Hb].
Qed.

Record parsed s t : Prop := {
  prs_stored : stored s t [];
  prs_root : root t = 1%nat;
  prs_scope : CurrentScope s = 1%nat;
  prs_in : cin s = inp;
  prs_out : cout s = [];
  prs_gen : gen_ok CODEGEN s }.

Lemma parse_run ss s :
  built CODEGEN inp s [(1%nat, ∅)] [[]] [] → brk s = 2%nat →
  match elab ss with
  | Some t => ∃ s', act_stms CODEGEN ss s = Some (Ok (), s') ∧ parsed s' t
  | None => ∃ s' t L, act_stms CODEGEN ss s = Some (Throw (runtime_error "parse error"), s') ∧
      stored s' t L ∧ root t = 1%nat ∧ cin s' = inp ∧ cout s' = []
  end.
Proof.
  intros Hb Hbrk. pose proof (proj2 (proj2 (act_run CODEGEN inp)) ss s [(1%nat, ∅)] [] [] [] Hb ltac:(done)) as Hr.
  rewrite Hbrk in Hr. unfold elab. destruct (elab_stms ss [(1%nat, ∅)] 2) as [[[ts Δ] b]|] eqn:He; cbn in Hr |- *.
  - apply elab_spec in He as [Hx Hts]; [|done]. destruct Δ as [|[p u] [|f Δ]]; try done;
      [|by destruct Hx as (_ & _ & ?)]. destruct Hx as (<- & _ & _).
    destruct Hr as ([] & s' & Hrun & Hb' & _). cbn in Hb'. exists s'. split; [exact Hrun|].
    destruct (outer_tree s' [] 1 u _ _ Hb') as (bs & brs1 & L & Hst & Heq & HL). specialize (HL eq_refl) as ->.
    apply (app_inj_tail [] brs1 ts bs) in Heq as [_ ->]. destruct Hb'. by split.
  - destruct Hr as (s' & Δ & brs & R & Hrun & Hb' & Hl). destruct (last Δ) as [[p u]|] eqn:HlΔ; [|done].
    apply last_Some in HlΔ as [Δ1 ->]. cbn in Hl. injection Hl as ->.
    destruct (outer_tree s' Δ1 1 u _ _ Hb') as (bs & brs1 & L & Hst & _).
    eexists s', _, L. split; [exact Hrun|]. split; [exact Hst|]. split; [done|]. split; apply Hb'.
Qed.

Abbreviation main := (main CODEGEN left_first).

(** Everything after the root scope has been made. *)
Lemma main_unfold fuel depth ss :
  main fuel depth (Some ss) ModuleName inp =
  (on_throw (
    (if CODEGEN then call (modify (set_gen (Some createCodeGen)));; call StartFunction else mret ());;
    (act_stms CODEGEN ss;; wholeProgramAction CODEGEN left_first fuel);;
    (if CODEGEN then call EndCurrentFunction;; call (println ("Saving module to: " +:+ ModuleName)) else mret ()))
    (delete_node depth 1);; call (delete_node depth 1)) boot_state.
Proof. reflexivity. Qed.

Lemma delete_stored s t L n :
  stored s t L → (height t ≤ n)%nat → ∃ s', delete_node n (root t) s = Some ((), s') ∧ is_heap (nodes s') L ∧
    nodes s' !! root t = None ∧ cin s' = cin s ∧ cout s' = cout s.
Proof.
  intros [HL H0' Hs Hsh Hv HT] Hn. destruct (delete_tree unset n t Hsh Hv Hn s L []) as (s' & Hrun & HL' & _ & (N & T & ->) & _); try done.
  { by intros x d Hx%elem_of_nil. }
  eexists. split; [exact Hrun|]. split; [done|]. split; [|done].
  destruct (tree_ents_root t Hv) as (e & He & _). apply eq_None_not_Some. intros [e' He']. apply (heap_lookup _ _ _ _ HL') in He'.
  destruct HL as [Hnd _]. rewrite fmap_app in Hnd. apply NoDup_app in Hnd as (_ & Hnd & _).
  apply (Hnd (root t)); apply list_elem_of_fmap; [exists (root t, e)|exists (root t, e')]; split; try done.
  apply elem_of_app. by left.
Qed.

(** A program that uses a name that is not declared is rejected. *)
Lemma undeclared_run ss :
  elab ss = None → ∃ s0 s1 t L,
    (if CODEGEN then call (modify (set_gen (Some createCodeGen)));; call StartFunction else mret ()) boot_state = Some (Ok (), s0) ∧
    act_stms CODEGEN ss s0 = Some (Throw (runtime_error "parse error"), s1) ∧ stored s1 t L ∧ root t = 1%nat ∧
    ∃ n, ∀ fuel depth, (n ≤ depth)%nat → ∃ s,
      main fuel depth (Some ss) ModuleName inp = Some (Throw (runtime_error "parse error"), s) ∧
      is_heap (nodes s) L ∧ nodes s !! 1%nat = None ∧ cin s = inp ∧ cout s = [].
Proof.
  intros He. destruct boot_run as (s0 & Hrun0 & Hbrk & Hb). pose proof (parse_run ss s0 Hb Hbrk) as Hp.
  rewrite He in Hp. destruct Hp as (s1 & t & L & Hrun1 & Hst & Hroot & Hi & Ho). exists s0, s1, t, L.
  do 4 (split; [done|]). exists (height t). intros fuel depth Hn.
  destruct (delete_stored s1 t L depth Hst Hn) as (s2 & Hrun2 & HL & Hone & Hi2 & Ho2). exists s2.
  rewrite Hroot in Hone. split; [|by rewrite Hi2, Ho2]. rewrite main_unfold.
  apply X_bind_Throw. unfold on_throw. rewrite (X_bind_Ok _ _ _ _ _ Hrun0), X_bind_assoc.
  rewrite (X_bind_Throw _ _ _ _ _ Hrun1). by rewrite <- Hroot, Hrun2.
Qed.

(** The end of the run, when the action on the program has left the declarations at [V]. *)
Lemma finish_run ss t :
  elab ss = Some t → ∃ s1, parsed s1 t ∧ ∀ V fuel depth s2 s3,
  wholeProgramAction CODEGEN left_first fuel s1 = Some (Ok (), s2) →
  (if CODEGEN then call EndCurrentFunction;; call (println ("Saving module to: " +:+ ModuleName)) else mret ()) s2 =
    Some (Ok (), s3) →
  is_heap (nodes s3) (tree_ents V t) → nodes s3 !! 0%nat = None → GlobalTable s3 = GlobalTable s1 →
  (height t ≤ depth)%nat → ∃ s4, main fuel depth (Some ss) ModuleName inp = Some (Ok (), s4) ∧ nodes s4 = ∅ ∧
    cin s4 = cin s3 ∧ cout s4 = cout s3 ∧ GlobalGen s4 = GlobalGen s3.
Proof.
  intros He. destruct boot_run as (s0 & Hrun0 & Hbrk & Hb). pose proof (parse_run ss s0 Hb Hbrk) as Hp.
  rewrite He in Hp. destruct Hp as (s1 & Hrun1 & Hp). exists s1. split; [done|].
  intros V fuel depth s2 s3 Hrun2 Hrun3 HL H0' HT Hn. destruct Hp as [[] Hroot _ _ _ _].
  destruct (delete_program V depth t s3) as (s4 & Hrun4 & HN & Hi & Ho & Hg); try done; [by rewrite HT|].
  exists s4. split; [|done]. rewrite main_unfold, <- Hroot.
  erewrite X_bind_Ok; [unfold call; by rewrite Hrun4|]. unfold on_throw. rewrite (X_bind_Ok _ _ _ _ _ Hrun0), X_bind_assoc.
  by rewrite (X_bind_Ok _ _ _ _ _ Hrun1), (X_bind_Ok _ _ _ _ _ Hrun2), Hrun3.
Qed.
End driver.

Section programs.
Context `{IRDocumented}.
Implicit Types (t : tree) (s : pstate) (σ : est).

(** ** The interpreter *)
Lemma interpreter_run left_first ModuleName inp ss t v σ :
  elab ss = Some t → orderly t → beval t (Est ∅ inp []) v σ → ∃ n, ∀ fuel depth,
  (n ≤ fuel)%nat → (n ≤ depth)%nat → ∃ s,
    main false left_first fuel depth (Some ss) ModuleName inp = Some (Ok (), s) ∧
    cout s = eout σ ∧ cin s = ein σ ∧ nodes s = ∅.
Proof.
  intros He Ho Hev. destruct (finish_run false left_first ModuleName inp ss t He) as (s1 & Hp & Hfin).
  destruct Hp as [[HL H0' Hs Hsh Hv HT] Hroot Hscope Hin Hout _]. rewrite app_nil_r in HL.
  assert (Hh : holds (nodes s1) t) by (eapply (heap_holds unset _ _ []); [by rewrite app_nil_r|done..]).
  destruct (proj1 (calc_beval_run left_first) t _ _ _ Hev Ho s1 Hh) as [n Hn].
  assert (Hid : write (Est ∅ inp []) s1 = s1) by (rewrite <- Hin, <- Hout; by eapply write_id).
  rewrite Hid in Hn. exists (n + height t)%nat. intros fuel depth Hfuel Hdepth.
  destruct (Hfin (λ p, env σ !! p) fuel depth (write σ s1) (write σ s1)) as (s4 & Hrun & HN & Hi & Hou & _); try done; [| | |lia|].
  - unfold wholeProgramAction, current. cstep. rewrite Hscope, <- Hroot.
    by rewrite (X_bind_Ok _ _ _ _ _ (Hn fuel ltac:(lia))).
  - by apply write_heap.
  - cbn. by rewrite map_lookup_imap, H0'.
  - exists s4. by rewrite Hou, Hi.
Qed.

(** ** The compiler *)
Lemma NoDup_fst_inj {A B} (l : list (A * B)) x d d' : NoDup l.*1 → (x, d) ∈ l → (x, d') ∈ l → d = d'.
Proof.
  intros Hnd Hd Hd'. apply list_elem_of_lookup in Hd as [i Hi], Hd' as [j Hj].
  assert (i = j) as ->; [|by simplify_eq].
  eapply NoDup_lookup; [exact Hnd|by rewrite list_lookup_fmap, Hi|by rewrite list_lookup_fmap, Hj].
Qed.

Lemma compiler_run left_first ModuleName inp ss t fuel depth :
  elab ss = Some t → orderly t → typed t → NoDup (owned t).*1 →
  (height t ≤ fuel)%nat → (height t ≤ depth)%nat → ∃ s f NV,
    main true left_first fuel depth (Some ss) ModuleName inp = Some (Ok (), s) ∧
    GlobalGen s = Some (Gen (Module_ createCodeGen) (Some f) NV) ∧
    cout s = ["Saving module to: " +:+ ModuleName] ∧ nodes s = ∅ ∧
    ∀ inp' v σ, beval t (Est ∅ inp' []) v σ → ∃ m,
      returns f inp' m ∧ output m = eout σ ∧ input m = ein σ.
Proof.
  intros He Ho Hty Hnd Hfuel Hdepth. destruct (finish_run true left_first ModuleName inp ss t He) as (s1 & Hp & Hfin).
  destruct Hp as [[HL H0' Hs Hsh Hv HT] Hroot Hscope Hin Hout (f & NV & [Ag Ah Ao Ad Ai Ak Ar])]. rewrite app_nil_r in HL.
  assert (Hh : holds (nodes s1) t) by (eapply (heap_holds unset _ _ []); [by rewrite app_nil_r|done..]).
  set (M := Module_ createCodeGen) in *.
  assert (Hat : at_function s1 M NV f = s1) by (unfold at_function; rewrite <- Ag; by destruct s1).
  assert (Hdecl : ∀ x d, (x, d) ∈ owned t → nodes s1 !! d = Some (Decl None x)).
  { intros x d Hx. apply (heap_lookup _ _ _ _ HL), elem_of_app. right. apply list_elem_of_fmap. by exists (x, d). }
  destruct (codegen_tree s1 M NV (owned t)) with (t := t) (n := fuel) (f := f) as (o & f' & Hrun & [Hle Hloc Hop Hst]); try done.
  { split; set_solver. }
  { intros x d d'. by apply NoDup_fst_inj. }
  { intros x y d Hx Hy. apply Hdecl in Hx, Hy. congruence. }
  { intros x d Hx. by eapply Ad, Hdecl. }
  { apply (scoped_vars [] t Hs). }
  rewrite Hat in Hrun. destruct (ends_le _ _ _ Hop (doc_ret f')) as (Hler & _).
  set (g := CreateRetVoid f') in *.
  set (s3 := PState (nodes s1) (brk s1) (GlobalTable s1) (CurrentScope s1) (Some (Gen M (Some g) NV)) (cin s1)
    (cout s1 ++ ["Saving module to: " +:+ ModuleName])).
  destruct (Hfin unset fuel depth (at_function s1 M NV f') s3) as (s4 & Hmain & HN & Hi & Hou & Hg); try done.
  { unfold wholeProgramAction, current. cstep. rewrite Hscope, <- Hroot. by rewrite (X_bind_Ok _ _ _ _ _ Hrun). }
  exists s4, g, NV. split; [exact Hmain|]. split; [exact Hg|]. split; [by rewrite Hou; cbn; rewrite Hout|]. split; [done|].
  intros inp' v σ Hev. destruct (Ar (Machine (λ _, None) (λ _, None) inp' [])) as (m0 & R0 & V0 & _ & I0 & O0).
  assert (Hag : agrees NV (owned t) (Est ∅ inp' []) m0).
  { split; [|by rewrite I0|by rewrite O0]. intros x d Hx. destruct (Ad x d None) as [a Ha]; [by apply Hdecl|].
    exists a, None. split; [done|]. split; [by eapply V0|done]. }
  destruct (Hst g Hler _ _ _ _ Hev Hag) as (m & Hsteps & [_ Hmi Hmo]).
  exists m. split; [|by split]. exists (here f').
  destruct (ends_pos g f' g RetVoid Hop (doc_ret f') ltac:(done)) as [Hpos Hterm]. rewrite Hpos in Hsteps.
  split; [|exact Hterm]. etrans; [|exact Hsteps]. unfold pos. rewrite Ah.
  assert (Hfg : le f g) by (by etrans). destruct Ao as [Hbl _]. rewrite Ah in Hbl.
  destruct (le_code _ _ Hfg entry Hbl) as [k Hk]. rewrite Hk, drop_app_length. by apply exec_steps.
Qed.
End programs.
