(* ===== verification/PclProps.v ===== *)
(** * ParaCL: the properties *)

From stdpp Require Import pretty.
From S2P Require Import Prelude Llvm LlvmCfg LlvmList Pcl PclMain PclTree PclCalc PclHeap PclGen PclElab PclParse PclProgram.

(** ** Running the meaning of a tree *)
Fixpoint eval (n : nat) (t : tree) (σ : est) : option (Z * est) :=
  match n with
  | O => None
  | S n =>
    let evals := fix evals bs σ :=
      match bs with [] => Some σ | b :: bs => '(_, σ) ← eval n b σ; evals bs σ end in
    match t with
    | TVal _ v => Some (v, σ)
    | TVar d _ => v ← env σ !! d; Some (v, σ)
    | TIn _ => match ein σ with z :: i => Some (z, Est (env σ) i (eout σ)) | [] => None end
    | TUn _ Not r => '(v, σ) ← eval n r σ; Some (Z.b2z (v =? 0), σ)
    | TUn _ StdOut r => '(v, σ) ← eval n r σ; Some (0, Est (env σ) (ein σ) (eout σ ++ [pretty v]))
    | TUn _ _ _ => None
    | TBin _ (TVar d _) Assign r => '(v, σ) ← eval n r σ; Some (v, Est (<[d := v]> (env σ)) (ein σ) (eout σ))
    | TBin _ l op r => '(x, σ) ← eval n l σ; '(y, σ) ← eval n r σ; z ← bin_value op x y; Some (z, σ)
    | TWhile _ c b =>
      '(x, σ) ← eval n c σ; if x =? 0 then Some (0, σ) else '(_, σ) ← eval n b σ; eval n t σ
    | TIf _ c b => '(x, σ) ← eval n c σ; if x =? 0 then Some (0, σ) else '(_, σ) ← eval n b σ; Some (0, σ)
    | TScope _ _ _ bs => σ ← evals bs σ; Some (0, σ)
    end
  end.

Ltac inv_eval := repeat match goal with
  | h : (_ ≫= _) = Some _ |- _ => apply bind_Some in h as (? & ? & ?)
  | p : (_ * _)%type |- _ => destruct p
  | h : Some _ = Some _ |- _ => simplify_eq h; clear h; intros
  end; subst.

Lemma eval_while n p c b σ v σ' :
  (∀ t σ v σ', eval n t σ = Some (v, σ') → beval t σ v σ') →
  eval (S n) (TWhile p c b) σ = Some (v, σ') → beval (TWhile p c b) σ v σ'.
Proof.
  intros IH He. cbn [eval] in He. inv_eval. destruct (z =? 0) eqn:Hz.
  - apply Z.eqb_eq in Hz as ->. inv_eval. apply BWhileF. by apply IH.
  - apply Z.eqb_neq in Hz. inv_eval.
    match goal with h : eval n (TWhile p c b) _ = _ |- _ => apply IH in h as Hw end.
    assert (v = 0) as -> by (by inversion Hw). eapply BWhileT; eauto.
Qed.

Lemma eval_beval n t σ v σ' : eval n t σ = Some (v, σ') → beval t σ v σ'.
Proof.
  revert t σ v σ'. induction n as [|n IH]; [done|].
  assert (IHs : ∀ bs σ σ', (fix evals bs σ :=
      match bs with [] => Some σ | b :: bs => '(_, σ) ← eval n b σ; evals bs σ end) bs σ = Some σ' → bevals bs σ σ').
  { induction bs as [|b bs IHbs]; intros σ σ' He; inv_eval; [constructor|]. econstructor; eauto. }
  intros [] σ v' σ' He; try (by eapply eval_while); cbn [eval] in He.
  - inv_eval. constructor.
  - inv_eval. by constructor.
  - destruct σ as [e [|z i] o]; [done|]. cbn in He. inv_eval. constructor.
  - destruct op; try done; inv_eval; [|constructor; eauto]. destruct e. cbn. constructor. eauto.
  - assert (Hbin : op ≠ Assign → beval (TBin p l op r) σ v' σ').
    { intros Hop. assert (Heq : ('(x, σ) ← eval n l σ; '(y, σ) ← eval n r σ; z ← bin_value op x y; Some (z, σ)) = Some (v', σ')).
      { destruct l, op; done. }
      inv_eval. eapply BBin; eauto. }
    destruct (decide (op = Assign)) as [->|Hop]; [|auto].
    destruct l; try (inv_eval; done). inv_eval. destruct e. cbn. constructor. eauto.
  - inv_eval. destruct (z =? 0) eqn:Hz; inv_eval.
    + apply Z.eqb_eq in Hz as ->. apply BIfF. eauto.
    + apply Z.eqb_neq in Hz. eapply BIfT; eauto.
  - inv_eval. constructor. eauto.
Qed.

(** ** Values stay in the range of [int] *)
Definition fits (σ : est) : Prop :=
  (∀ d v, env σ !! d = Some v → int_fits v) ∧ Forall int_fits (ein σ).

Definition of_type (τ : bool) (v : Z) : Prop := if τ then v = 0 ∨ v = 1 else int_fits v.

Lemma b2z_type b : of_type true (Z.b2z b).
Proof. destruct b; cbn; auto. Qed.

Lemma rem_fits x y : int_fits x → int_fits y → y ≠ 0 → int_fits (Z.rem x y).
Proof.
  unfold int_fits. rewrite !andb_True, !Is_true_true, !Z.leb_le, !Z.ltb_lt. intros Hx Hy Hy0.
  pose proof (Z.rem_bound_abs x y Hy0). lia.
Qed.

Lemma bin_value_type op a b x y z :
  op_type op = Some (a, b) → of_type a x → of_type a y → bin_value op x y = Some z → of_type b z.
Proof.
  intros Hop Hx Hy Hz. destruct op; cbn in Hop; try done; injection Hop as <- <-; cbn in Hz.
  all: try (injection Hz as <-; apply b2z_type).
  all: try (destruct (int_fits _) eqn:Hf; [|done]; injection Hz as <-; cbn; by rewrite Hf).
  - destruct (y =? 0); [done|]. destruct (int_fits _) eqn:Hf; [|done]. injection Hz as <-. cbn. by rewrite Hf.
  - destruct (y =? 0) eqn:Hy0; [done|]. destruct (int_fits (Z.quot x y)); [|done]. injection Hz as <-.
    apply Z.eqb_neq in Hy0. exact (rem_fits _ _ Hx Hy Hy0).
Qed.

Lemma expr_fits t τ σ v σ' :
  is_expr t → ty t = Some τ → fits σ → beval t σ v σ' → fits σ' ∧ of_type τ v.
Proof.
  revert τ σ v σ'. induction t using tree_induction; intros τ σ w σ' He Hty Hσ Hb; try done.
  - cbn in Hty. destruct (int_fits v) eqn:Hv; [|done]. injection Hty as <-. inversion Hb; subst. split; [done|].
    cbn. by rewrite Hv.
  - injection Hty as <-. inversion Hb; subst. split; [done|]. cbn. eapply Hσ. eassumption.
  - injection Hty as <-. inversion Hb; subst. destruct Hσ as [H1 H2]. cbn in H2. apply Forall_cons in H2 as [Hz Hi]. done.
  - destruct op; try done. cbn in Hty. case_decide as Hr; [|done]. injection Hty as <-.
    apply beval_not_inv in Hb as (x & Hb & ->). destruct (IHt _ _ _ _ He Hr Hσ Hb). split; [done|apply b2z_type].
  - apply is_expr_bin in He as (Hop & El & Er). cbn in Hty. destruct (op_type op) as [[a b]|] eqn:Ho; [|done]. cbn in Hty.
    case_decide as Ht; [|done]. destruct Ht as [Tl Tr]. injection Hty as <-.
    apply beval_bin_inv in Hb as (x & y & σ1 & Bl & Br & Hz); [|done].
    destruct (IHt1 _ _ _ _ El Tl Hσ Bl) as [F1 X1]. destruct (IHt2 _ _ _ _ Er Tr F1 Br) as [F2 X2].
    split; [done|]. exact (bin_value_type op a b x y w Ho X1 X2 Hz).
Qed.

Lemma tree_fits :
  (∀ t σ v σ', beval t σ v σ' → typed t → orderly t → fits σ → fits σ') ∧
  (∀ bs σ σ', bevals bs σ σ' → forallb typed bs → forallb orderly bs → fits σ → fits σ').
Proof.
  apply beval_bevals_ind; cbn [typed orderly forallb]; try done.
  - intros p r v σ e i o Hb _ Hty Ho Hσ. apply bool_decide_unpack in Hty. apply andb_True in Ho as [_ He].
    by destruct (expr_fits _ _ _ _ _ He Hty Hσ Hb).
  - intros p l op r x y z σ σ1 σ2 _ _ _ _ Hz Hty. destruct l, op; done.
  - intros p d x r v σ e i o Hb _ Hty Ho Hσ. apply bool_decide_unpack in Hty. apply andb_True in Ho as [_ He].
    destruct (expr_fits _ _ _ _ _ He Hty Hσ Hb) as [[H1 H2] Hv]. split; [|done]. cbn. intros q w.
    destruct (decide (q = d)) as [->|Hq]; [rewrite lookup_insert_eq; by intros [= <-]|].
    rewrite lookup_insert_ne by done. apply H1.
  - intros p c b σ σ' Hb _ Hty Ho Hσ. rewrite andb_True in Hty. rewrite !andb_True in Ho.
    destruct Hty as [Hty _], Ho as [[_ He] _]. apply bool_decide_unpack in Hty. by destruct (expr_fits _ _ _ _ _ He Hty Hσ Hb).
  - intros p c b x v σ σ1 σ2 σ3 Hb _ _ _ IHb _ IHw Hty Ho Hσ. apply IHw; [done..|].
    rewrite andb_True in Hty. rewrite !andb_True in Ho. destruct Hty as [Hty Tb], Ho as [[_ He] Ob].
    apply bool_decide_unpack in Hty. apply IHb; [done..|]. by destruct (expr_fits _ _ _ _ _ He Hty Hσ Hb).
  - intros p c b σ σ' Hb _ Hty Ho Hσ. rewrite andb_True in Hty. rewrite !andb_True in Ho.
    destruct Hty as [Hty _], Ho as [[_ He] _]. apply bool_decide_unpack in Hty. by destruct (expr_fits _ _ _ _ _ He Hty Hσ Hb).
  - intros p c b x v σ σ1 σ2 Hb _ _ _ IHb Hty Ho Hσ.
    rewrite andb_True in Hty. rewrite !andb_True in Ho. destruct Hty as [Hty Tb], Ho as [[_ He] Ob].
    apply bool_decide_unpack in Hty. apply IHb; [done..|]. by destruct (expr_fits _ _ _ _ _ He Hty Hσ Hb).
  - intros b bs v σ σ1 σ2 _ IHb _ IHbs Hty Ho Hσ. rewrite andb_True in Hty, Ho. naive_solver.
Qed.

(** [n = ?; while (n > 0) { print n; n = n - 1; }] *)
Definition countdown : stms :=
  AddStm (One (SAssign "n" EInput))
    (SWhile (LRel RGreater (EName "n") (EValue 0))
      (BScope (AddStm (One (SOutput (EName "n"))) (SAssign "n" (EBin AMinus (EName "n") (EValue 1)))))).

Definition countdown_tree : tree :=
  match elab countdown with Some t => t | None => TVal 0 0 end.

Definition countdown_end (inp : list Z) : est :=
  match eval 100 countdown_tree (Est ∅ inp []) with Some (_, σ) => σ | None => Est ∅ [] [] end.

Lemma countdown_beval : beval countdown_tree (Est ∅ [2] []) 0 (countdown_end [2]).
Proof. apply (eval_beval 100). vm_compute. reflexivity. Qed.

(** [if (1 > 0) a = 1; print a;] *)
Definition undeclared : stms :=
  AddStm (One (SIf (LRel RGreater (EValue 1) (EValue 0)) (BStm (SAssign "a" (EValue 1))))) (SOutput (EName "a")).

Section properties.
Context `{IRDocumented}.

(** C21: the compiler and the interpreter agree. For a program that [elab] translates to
    a well-typed tree with an order-independent meaning and distinct names, and an input
    on which it has a meaning: [main] of the interpreter ends normally, [main] of the
    compiler ends normally with a function, and that function, run by LLVM on the same
    input, returns with the lines that the interpreter prints. *)
Theorem compiled_prints_interpreted left_first ModuleName inp ss t v σ :
  elab ss = Some t → orderly t → typed t → NoDup (owned t).*1 → beval t (Est ∅ inp []) v σ →
  ∃ n, ∀ fuel depth, (n ≤ fuel)%nat → (n ≤ depth)%nat → ∃ s s' f NV m,
    main false left_first fuel depth (Some ss) ModuleName inp = Some (Ok (), s) ∧
    main true left_first fuel depth (Some ss) ModuleName [] = Some (Ok (), s') ∧
    GlobalGen s' = Some (Gen (Module_ createCodeGen) (Some f) NV) ∧
    returns f inp m ∧ output m = cout s ∧ cout s = eout σ.
Proof.
  intros He Ho Hty Hnd Hev. destruct (interpreter_run left_first ModuleName inp ss t v σ He Ho Hev) as [n Hn].
  exists (n + height t)%nat. intros fuel depth Hf Hd.
  destruct (Hn fuel depth ltac:(lia) ltac:(lia)) as (s & Hrun & Hout & _).
  destruct (compiler_run left_first ModuleName [] ss t fuel depth He Ho Hty Hnd ltac:(lia) ltac:(lia))
    as (s' & f & NV & Hrun' & Hg & _ & _ & Hret).
  destruct (Hret inp v σ Hev) as (m & Hm & Hmo & _). exists s, s', f, NV, m.
  rewrite Hout. by split_and!.
Qed.

(** C23: the interpreter. For a program whose tree is [orderly] (operands assign nothing; of two
    operands at most one reads the input, and it is no divisor, which [calc] evaluates twice, and
    no right operand of && or ||) and
    means [σ] on the input, [main] with enough fuel ends normally, whatever the order of
    evaluation of operands is; it has printed the lines and read the integers that the meaning says, and has freed every
    node and declaration it made. *)
Theorem interpreter_prints_meaning left_first ModuleName inp ss t v σ :
  elab ss = Some t → orderly t → beval t (Est ∅ inp []) v σ → ∃ n, ∀ fuel depth,
  (n ≤ fuel)%nat → (n ≤ depth)%nat → ∃ s,
    main false left_first fuel depth (Some ss) ModuleName inp = Some (Ok (), s) ∧
    cout s = eout σ ∧ cin s = ein σ ∧ nodes s = ∅.
Proof. apply interpreter_run. Qed.

(** C22: the compiler. For a well-typed program whose tree is [orderly] (operands assign
    nothing; of two operands at most one reads the input, and it is no divisor and no right operand
    of && or ||) and which declares no name
    twice, not even in different scopes, [main] with fuel for the height of the
    tree ends normally with a function in the module, has freed every node, and on every
    input on which the program has a meaning, the function returns, having printed the
    lines and read the integers that the meaning says. *)
Theorem compiler_prints_meaning left_first ModuleName inp ss t fuel depth :
  elab ss = Some t → orderly t → typed t → NoDup (owned t).*1 →
  (height t ≤ fuel)%nat → (height t ≤ depth)%nat → ∃ s f NV,
    main true left_first fuel depth (Some ss) ModuleName inp = Some (Ok (), s) ∧
    GlobalGen s = Some (Gen (Module_ createCodeGen) (Some f) NV) ∧
    cout s = ["Saving module to: " +:+ ModuleName] ∧ nodes s = ∅ ∧
    ∀ inp' v σ, beval t (Est ∅ inp' []) v σ → ∃ m,
      returns f inp' m ∧ output m = eout σ ∧ input m = ein σ.
Proof. apply compiler_run. Qed.

(** C24: the actions of the grammar implement lexical scoping. They build the tree of
    [elab], in the store and the symbol tables, if every name is declared in an enclosing
    scope where it is used, and throw a parse error otherwise. *)
Theorem parser_builds_elab (CODEGEN : bool) inp ss : ∃ s0 : pstate,
  (if CODEGEN then call (modify (set_gen (Some createCodeGen)));; call StartFunction else mret () : X pstate ())
    (boot_state inp) = Some (Ok (), s0) ∧
  match elab ss with
  | Some t => ∃ s : pstate, act_stms CODEGEN ss s0 = Some (Ok (), s) ∧ parsed CODEGEN inp s t
  | None => ∃ s : pstate, act_stms CODEGEN ss s0 = Some (Throw (runtime_error "parse error"), s)
  end.
Proof.
  destruct (boot_run CODEGEN inp) as (s0 & Hrun & Hbrk & Hb). exists s0. split; [done|].
  pose proof (parse_run CODEGEN inp ss s0 Hb Hbrk) as Hp. destruct (elab ss) as [t|]; [done|].
  destruct Hp as (s & t & L & Hrun' & _). eauto.
Qed.

(** C25: a program that uses a name outside the scopes that declare it is rejected. The
    actions of the grammar throw the parse error in a store that consists of the tree [t] of
    the root scope (node 1), with what has been attached to it, and of other nodes [L]; then
    the interpreter as well as the compiler, with enough fuel for deleting the tree, ends with
    the parse error, has deleted that tree, so that exactly the nodes [L] are left, and has
    read and printed nothing. *)
Theorem undeclared_is_rejected (CODEGEN : bool) left_first ModuleName inp ss :
  elab ss = None → ∃ (s0 s1 : pstate) t L,
    (if CODEGEN then call (modify (set_gen (Some createCodeGen)));; call StartFunction else mret () : X pstate ()) (boot_state inp) = Some (Ok (), s0) ∧
    act_stms CODEGEN ss s0 = Some (Throw (runtime_error "parse error"), s1) ∧ stored s1 t L ∧ root t = 1%nat ∧
    ∃ n, ∀ fuel depth, (n ≤ depth)%nat → ∃ s,
      main CODEGEN left_first fuel depth (Some ss) ModuleName inp = Some (Throw (runtime_error "parse error"), s) ∧
      is_heap (nodes s) L ∧ nodes s !! 1%nat = None ∧ cin s = inp ∧ cout s = [].
Proof. apply undeclared_run. Qed.

(** C26: type safety of [calc]. From declarations and inputs in the range of [int], the
    interpretation of a tree in the store that is well-typed, [orderly] (operands assign nothing; of
    two operands at most one reads the input, and it is no divisor, which [calc] evaluates twice,
    and no right operand of && or ||) and
    has a meaning computes it, with enough fuel and whatever the order of evaluation is, without signed
    overflow, and leaves every declaration in the range of [int]. *)
Theorem calc_keeps_int left_first (s : pstate) t σ v σ' :
  typed t → orderly t → holds (nodes s) t → fits σ → beval t σ v σ' →
  ∃ n, ∀ m, (n ≤ m)%nat → ∃ s' : pstate, calc left_first m (root t) (write σ s) = Some (Ok v, s') ∧
    ∀ d x w, nodes s' !! d = Some (Decl (Some w) x) → int_fits w.
Proof.
  intros Hty Ho Hh Hf Hev. destruct (proj1 (calc_beval_run left_first) t σ v σ' Hev Ho s Hh) as [n Hn].
  exists n. intros m Hm. exists (write σ' s). split; [by apply Hn|]. intros d x w. cbn. rewrite map_lookup_imap.
  destruct (nodes s !! d) as [[]|]; cbn; try done. intros [= Hw _].
  by apply (proj1 tree_fits t σ v σ' Hev Hty Ho Hf) in Hw.
Qed.

(** C27: deletion is exact. [delete] on the root of a tree in the store frees the nodes
    of the tree and the declarations of its scopes, and no others: no node is freed
    twice, none is used after it was freed, and none of the tree is left. *)
Theorem delete_frees_the_tree V n t (s : pstate) L A :
  shaped t → is_var t = false → (height t ≤ n)%nat →
  is_heap (nodes s) (tree_ents V t ++ L) → nodes s !! 0%nat = None →
  scoped A t → alive V A L → tabled (GlobalTable s) t →
  ∃ s' : pstate, delete_node n (root t) s = Some ((), s') ∧ is_heap (nodes s') L ∧
    cin s' = cin s ∧ cout s' = cout s.
Proof.
  intros Hsh Hv Hn HL H0' Hs Ha HT.
  destruct (delete_tree V n t Hsh Hv Hn s L A HL H0' Hs Ha HT) as (s' & Hrun & HL' & _ & (N & T & ->) & _). eauto.
Qed.
End properties.

(** ** The properties on a program *)
Lemma compiled_prints_interpreted_witness : ∃ n, ∀ fuel depth, (n ≤ fuel)%nat → (n ≤ depth)%nat → ∃ s s' f NV m,
  main false (λ _, true) fuel depth (Some countdown) "a.ll" [2] = Some (Ok (), s) ∧
  main true (λ _, true) fuel depth (Some countdown) "a.ll" [] = Some (Ok (), s') ∧
  GlobalGen s' = Some (Gen (Module_ createCodeGen) (Some f) NV) ∧
  returns f [2] m ∧ output m = cout s ∧ cout s = ["2"; "1"].
Proof.
  apply (compiled_prints_interpreted (λ _, true) "a.ll" [2] countdown countdown_tree 0 (countdown_end [2]));
    [reflexivity|reflexivity|reflexivity| |apply countdown_beval].
  apply (bool_decide_unpack _). vm_compute. exact I.
Defined.

Lemma interpreter_prints_meaning_witness : ∃ n, ∀ fuel depth, (n ≤ fuel)%nat → (n ≤ depth)%nat → ∃ s,
  main false (λ _, false) fuel depth (Some countdown) "a.ll" [2] = Some (Ok (), s) ∧
  cout s = ["2"; "1"] ∧ cin s = [] ∧ nodes s = ∅.
Proof.
  apply (interpreter_prints_meaning (λ _, false) "a.ll" [2] countdown countdown_tree 0 (countdown_end [2]));
    [reflexivity|reflexivity|apply countdown_beval].
Defined.

Lemma compiler_prints_meaning_witness : ∃ s f NV,
  main true (λ _, true) 10 10 (Some countdown) "a.ll" [] = Some (Ok (), s) ∧
  GlobalGen s = Some (Gen (Module_ createCodeGen) (Some f) NV) ∧
  cout s = ["Saving module to: a.ll"] ∧ nodes s = ∅ ∧
  ∀ inp' v σ, beval countdown_tree (Est ∅ inp' []) v σ → ∃ m,
    returns f inp' m ∧ output m = eout σ ∧ input m = ein σ.
Proof.
  apply (compiler_prints_meaning (λ _, true) "a.ll" [] countdown countdown_tree 10 10);
    [reflexivity|reflexivity|reflexivity| |vm_compute; lia|vm_compute; lia].
  apply (bool_decide_unpack _). vm_compute. exact I.
Defined.

Lemma parser_builds_elab_witness : ∃ s0,
  (call (modify (set_gen (Some createCodeGen)));; call StartFunction) (boot_state [2]) = Some (Ok (), s0) ∧
  ∃ s, act_stms true countdown s0 = Some (Ok (), s) ∧ parsed true [2] s countdown_tree.
Proof. apply (parser_builds_elab true [2] countdown). Defined.

Lemma undeclared_is_rejected_witness : ∃ s0 s1 t L,
  (call (modify (set_gen (Some createCodeGen)));; call StartFunction) (boot_state []) = Some (Ok (), s0) ∧
  act_stms true undeclared s0 = Some (Throw (runtime_error "parse error"), s1) ∧ stored s1 t L ∧ root t = 1%nat ∧
  ∃ n, ∀ fuel depth, (n ≤ depth)%nat → ∃ s,
    main true (λ _, true) fuel depth (Some undeclared) "a.ll" [] = Some (Throw (runtime_error "parse error"), s) ∧
    is_heap (nodes s) L ∧ nodes s !! 1%nat = None ∧ cin s = [] ∧ cout s = [].
Proof. apply (undeclared_is_rejected true (λ _, true) "a.ll" [] undeclared). reflexivity. Defined.

Definition countdown_state : pstate :=
  PState (list_to_map (tree_ents unset countdown_tree)) 99 {[1%nat := {["n" := 2%nat]}]} 1 None [] [].

Lemma countdown_heap : is_heap (nodes countdown_state) (tree_ents unset countdown_tree ++ []).
Proof.
  split; [|by rewrite app_nil_r]. apply (bool_decide_unpack _). vm_compute. exact I.
Qed.

Lemma countdown_scoped : scoped [] countdown_tree.
Proof. vm_compute. set_solver. Qed.

Lemma calc_keeps_int_witness : ∃ n, ∀ m, (n ≤ m)%nat → ∃ s' : pstate,
  calc (λ _, true) m (root countdown_tree) (write (Est ∅ [2] []) countdown_state) = Some (Ok 0, s') ∧
  ∀ d x w, nodes s' !! d = Some (Decl (Some w) x) → int_fits w.
Proof.
  apply (calc_keeps_int (λ _, true) countdown_state countdown_tree (Est ∅ [2] []) 0 (countdown_end [2]));
    [reflexivity|reflexivity| | |apply countdown_beval].
  - apply (heap_holds unset _ _ [] countdown_heap); [reflexivity|apply countdown_scoped].
  - split; [intros d v; cbn; by rewrite lookup_empty|by repeat constructor].
Defined.

Lemma delete_frees_the_tree_witness : ∃ s' : pstate,
  delete_node 9 (root countdown_tree) countdown_state = Some ((), s') ∧ is_heap (nodes s') [] ∧
  cin s' = [] ∧ cout s' = [].
Proof.
  apply (delete_frees_the_tree unset 9 countdown_tree countdown_state [] []);
    [reflexivity|reflexivity|vm_compute; lia|apply countdown_heap|reflexivity|apply countdown_scoped| |].
  - by intros x d Hx%elem_of_nil.
  - vm_compute. repeat split.
Defined.
