(* ===== verification/PclNaive.v ===== *)
(** * The first ParaCL, [src/archive/13-llvm/01-naive]

    The nodes of [Pcl] before the code generator was a class of its own: [While] and [If]
    have no code, [Symtab] makes the tables that it looks into, a division by zero ends
    the program. The interpreter computes what that of [Pcl] does. *)

From stdpp Require Import pretty.
From S2P Require Import Prelude Llvm LlvmList Pcl PclMain PclTree PclCalc PclProps.

Module Naive.

(** ** [Symtab.hpp] *)
Definition local_add (symbol : string) (n : ptr) (symbols_ : Symtab_local) : Symtab_local := <[symbol := n]> symbols_.

Definition local_find (symbol : string) (symbols_ : Symtab_local) : ptr := default 0%nat (symbols_ !! symbol).

(** [tables[s]] *)
Definition table (s : ptr) (tables : Symtab) : Symtab_local * Symtab :=
  match tables !! s with Some t => (t, tables) | None => (∅, <[s := ∅]> tables) end.

Definition symtab_add (s : ptr) (symbol : string) (n : ptr) (tables : Symtab) : Symtab :=
  let (tab, tables) := table s tables in <[s := local_add symbol n tab]> tables.

Definition symtab_exists (s : ptr) (symbol : string) (tables : Symtab) : ptr * Symtab :=
  let (tab, tables) := table s tables in (local_find symbol tab, tables).

Section naive.
Context `{IRBuilder}.
Variable CODEGEN : bool.

Definition local_free (symbols_ : Symtab_local) : C pstate Symtab_local :=
  each_ free (map_to_list symbols_).*2;; mret ∅.

Definition symtab_free (s : ptr) : C pstate () :=
  st ← get;
  let (tab, tables) := table s (GlobalTable st) in
  tab' ← local_free tab;
  modify (set_table (<[s := tab']> tables)).

Definition make_value (v : Z) : C pstate ptr := new (Value v).
Definition make_op (l : ptr) (o : Operation) (r : ptr) : C pstate ptr := new (Operand l o r).
Definition make_while (o s : ptr) : C pstate ptr := new (While o s).
Definition make_if (o s : ptr) : C pstate ptr := new (If o s).
Definition create_scope : C pstate ptr := new (Scope [] 0).

(** ** Scopes *)
Definition push (this : ptr) : C pstate ptr := new (Scope [] this).
Definition resetScope (this : ptr) : C pstate ptr := '(_, prev_scope) ← scope_at this; mret prev_scope.
Definition addBranch (this branch : ptr) : C pstate () :=
  '(branches, prev_scope) ← scope_at this; set_node this (Scope (branches ++ [branch]) prev_scope).

Fixpoint visible (fuel : nat) (this : ptr) (var_name : string) : C pstate ptr :=
  match fuel with
  | O => undefined
  | S fuel =>
    s ← get;
    let (f, tables) := symtab_exists this var_name (GlobalTable s) in
    modify (set_table tables);;
    if negb (f =? 0)%nat then mret f
    else
      '(_, prev_scope) ← scope_at this;
      if negb (prev_scope =? 0)%nat then visible fuel prev_scope var_name else mret f
  end.

Definition CreateEntryBlockAlloca : C pstate V := build CreateAlloca.

(** [NamedValues[varname] = V] *)
Definition set_named (varname : string) (V : V) : C pstate () :=
  g ← gen; modify (set_gen (Some (Gen (Module_ g) (Function_ g) (<[varname := V]> (NamedValues_ g))))).

Definition access (this : ptr) (var_name : string) : C pstate ptr :=
  s ← get;
  t ← visible (brk s) this var_name;
  if negb (t =? 0)%nat then mret t
  else
    d ← new (Decl None var_name);
    (if CODEGEN then (Alloca ← CreateEntryBlockAlloca; set_named var_name Alloca) else mret ());;
    modify (λ s, set_table (symtab_add this var_name d (GlobalTable s)) s);;
    mret d.

(** ** [calc] *)
Section calc.
Variable left_first : Operation → bool.

Definition Value_calc (val : Z) : X pstate Z := mret val.
Definition Decl_calc (val : option Z) : X pstate Z := call (of_option val).

Definition SetValue (p : ptr) (Val : Z) : X pstate () :=
  d ← call (node_at p);
  match d with
  | Decl _ varname => call (set_node p (Decl (Some Val) varname))
  | _ => call undefined
  end.

Definition Scope_calc (ev : ptr → X pstate Z) (branches : list ptr) : X pstate Z :=
  each (λ x, _ ← ev x; mret ()) branches;; mret 0.

Definition Op_calc (ev : ptr → X pstate Z) (left : ptr) (op : Operation) (right : ptr) : X pstate Z :=
  let both (f : Z → Z → X pstate Z) : X pstate Z := '(x, y) ← operands left_first ev op left right; f x y in
  let compare (f : Z → Z → bool) : X pstate Z := both (λ x y, mret (Z.b2z (f x y))) in
  match op with
  | Plus => if (left =? 0)%nat then (y ← ev right; int (0 + y)) else both (λ x y, int (x + y))
  | Minus => if (left =? 0)%nat then (y ← ev right; int (0 - y)) else both (λ x y, int (x - y))
  | Greater => compare (λ x y, y <? x)
  | Less => compare Z.ltb
  | GreaterEq => compare (λ x y, y <=? x)
  | LessEq => compare Z.leb
  | Assign => val ← ev right; SetValue left val;; mret val
  | StdOut => val ← ev right; call (println (pretty val));; mret 998
  | StdIn => read
  | Equal => compare Z.eqb
  | NotEqual => compare (λ x y, negb (x =? y))
  | Not => y ← ev right; mret (Z.b2z (y =? 0))
  | And => x ← ev left; if x =? 0 then mret 0 else (y ← ev right; mret (Z.b2z (negb (y =? 0))))
  | Or => x ← ev left; if x =? 0 then (y ← ev right; mret (Z.b2z (negb (y =? 0)))) else mret 1
  | Div =>
    val ← ev right;
    if val =? 0 then call (println "Division by zero!");; throw (exited 1)
    else both (λ x y, if y =? 0 then call undefined else int (Z.quot x y))
  | Mul => both (λ x y, int (x * y))
  | Mod => both (λ x y, if (y =? 0) || negb (int_fits (Z.quot x y)) then call undefined else mret (Z.rem x y))
  end.

Definition While_calc (ev : ptr → X pstate Z) (again : X pstate Z) (op scope : ptr) : X pstate Z :=
  x ← ev op; if x =? 0 then mret 0 else (ev scope;; again).

Definition If_calc (ev : ptr → X pstate Z) (op scope : ptr) : X pstate Z :=
  x ← ev op; if x =? 0 then mret 0 else (ev scope;; mret 0).

Fixpoint calc (fuel : nat) (this : ptr) : X pstate Z :=
  match fuel with
  | O => call undefined
  | S fuel =>
    n ← call (node_at this);
    match n with
    | Value v => Value_calc v
    | Decl v _ => Decl_calc v
    | Scope bs _ => Scope_calc (calc fuel) bs
    | Operand l op r => Op_calc (calc fuel) l op r
    | While o s => While_calc (calc fuel) (calc fuel this) o s
    | If o s => If_calc (calc fuel) o s
    end
  end.
End calc.

(** ** [codegen] *)
Definition Value_codegen (val : Z) : X pstate (option V) := mret (Some (ConstantInt_get val)).
Definition Decl_codegen (varname : string) : X pstate (option V) :=
  as_value (call (v ← named varname; build (CreateLoad v))).
Definition Decl_assign (varname : string) (RHS : V) : C pstate V := v ← named varname; build (CreateStore RHS v).

Definition Scope_codegen (gen_code : ptr → X pstate (option V)) (branches : list ptr) : X pstate (option V) :=
  no_value (each (λ x, _ ← gen_code x; mret ()) branches).

Definition Op_codegen (gen_code : ptr → X pstate (option V)) (left : ptr) (op : Operation) (right : ptr) :
    X pstate (option V) :=
  LeftV ← (if (left =? 0)%nat then mret None else gen_code left);
  RightV ← (if (right =? 0)%nat then mret None else gen_code right);
  let unary (create : V → F → V * F) := as_value (call (r ← of_option RightV; build (create r))) in
  let binary (create : V → V → F → V * F) :=
    as_value (call (l ← of_option LeftV; r ← of_option RightV; build (create l r))) in
  match op with
  | Plus => unary (CreateBin Add (default (ConstantInt_get 0) LeftV))
  | Minus => unary (CreateBin Sub (default (ConstantInt_get 0) LeftV))
  | Greater => binary (CreateICmp SGT)
  | Less => binary (CreateICmp SLT)
  | GreaterEq => binary (CreateICmp SGE)
  | LessEq => binary (CreateICmp SLE)
  | Assign =>
    d ← call (node_at left);
    match d with
    | Decl _ varname => as_value (v ← call (of_option RightV); call (Decl_assign varname v))
    | _ => call undefined
    end
  | StdOut => call (getFunction "__pcl_print");; unary CreateCallPrint
  | StdIn => call (getFunction "__pcl_scan");; as_value (call (build CreateCallScan))
  | Equal => binary (CreateICmp EQ)
  | NotEqual => binary (CreateICmp NE)
  | Not => unary CreateNot
  | And => binary (CreateBin BitAnd)
  | Or => binary (CreateBin BitOr)
  | Div => binary (CreateBin SDiv)
  | Mul => binary (CreateBin Llvm.Mul)
  | Mod => binary (CreateBin SRem)
  end.

(** to implement *)
Definition While_codegen : X pstate (option V) := mret None.
Definition If_codegen : X pstate (option V) := mret None.

Fixpoint codegen (fuel : nat) (this : ptr) : X pstate (option V) :=
  match fuel with
  | O => call undefined
  | S fuel =>
    n ← call (node_at this);
    match n with
    | Value v => Value_codegen v
    | Decl _ varname => Decl_codegen varname
    | Scope bs _ => Scope_codegen (codegen fuel) bs
    | Operand l op r => Op_codegen (codegen fuel) l op r
    | While _ _ => While_codegen
    | If _ _ => If_codegen
    end
  end.

(** ** [dump] *)
Definition Ops_name (op : Operation) : string :=
  match op with
  | Plus => "Plus" | Minus => "Minus" | Greater => "Greater" | Less => "Less" | Assign => "Assign"
  | StdOut => "StdOut" | StdIn => "StdIn" | Equal => "Equal" | _ => "Unknown"
  end.

Definition Value_dump (val : Z) : X pstate () := call (println ("Node Value: " +:+ pretty val)).
Definition Decl_dump (val : option Z) : X pstate () :=
  val ← call (of_option val); call (println ("Node Decl: " +:+ pretty val)).
Definition Scope_dump (dump : ptr → X pstate ()) (branches : list ptr) : X pstate () :=
  call (println "Node Scope: ");; each dump branches.
Definition Op_dump (dump : ptr → X pstate ()) (left : ptr) (op : Operation) (right : ptr) : X pstate () :=
  call (println ("Node Op: " +:+ Ops_name op));;
  (if (left =? 0)%nat then mret () else dump left);;
  dump right.
Definition While_dump (dump : ptr → X pstate ()) (scope : ptr) : X pstate () :=
  call (println "Node While ");; dump scope.
Definition If_dump (dump : ptr → X pstate ()) (scope : ptr) : X pstate () :=
  call (println "Node If ");; dump scope.

Fixpoint dump (fuel : nat) (this : ptr) : X pstate () :=
  match fuel with
  | O => call undefined
  | S fuel =>
    n ← call (node_at this);
    match n with
    | Value v => Value_dump v
    | Decl v _ => Decl_dump v
    | Scope bs _ => Scope_dump (dump fuel) bs
    | Operand l op r => Op_dump (dump fuel) l op r
    | While _ s => While_dump (dump fuel) s
    | If _ s => If_dump (dump fuel) s
    end
  end.

(** ** Destructors *)
Definition Scope_dtor (delete_node : ptr → C pstate ()) (this : ptr) (branches : list ptr) : C pstate () :=
  each_ delete_node branches;; symtab_free this.
Definition Op_dtor (delete_node : ptr → C pstate ()) (left right : ptr) : C pstate () :=
  unless_decl delete_node left;; unless_decl delete_node right.
Definition While_dtor (delete_node : ptr → C pstate ()) (op scope : ptr) : C pstate () :=
  unless_decl delete_node op;; delete_node scope.
Definition If_dtor (delete_node : ptr → C pstate ()) (op scope : ptr) : C pstate () :=
  unless_decl delete_node op;; delete_node scope.

Fixpoint delete_node (fuel : nat) (this : ptr) : C pstate () :=
  match fuel with
  | O => undefined
  | S fuel =>
    if (this =? 0)%nat then mret ()
    else
      n ← node_at this;
      match n with
      | Value _ | Decl _ _ => mret ()
      | Scope bs _ => Scope_dtor (delete_node fuel) this bs
      | Operand l _ r => Op_dtor (delete_node fuel) l r
      | While o s => While_dtor (delete_node fuel) o s
      | If o s => If_dtor (delete_node fuel) o s
      end;;
      free this
  end.
End naive.
End Naive.

(** ** The two interpreters *)
Definition erase (n : node) : node := match n with Decl _ x => Decl None x | n => n end.

Definition not_out (N : gmap ptr node) (p : ptr) : bool :=
  match N !! p with Some (Operand _ StdOut _) => false | _ => true end.

(** The parser makes such nodes: no value of an output is used, and no sum lacks its
    left operand. *)
Definition tidy_node (N : gmap ptr node) (n : node) : bool :=
  match n with
  | Operand l op r => not_out N l && not_out N r && negb ((l =? 0)%nat && bool_decide (op = Plus))
  | While c _ | If c _ => not_out N c
  | _ => true
  end.

Definition tidy (N : gmap ptr node) : Prop := map_Forall (λ _ n, tidy_node N n) N.

Section agree.
Context `{IRBuilder}.
Variables (left_first : Operation → bool) (N : gmap ptr node).
Hypothesis HN : tidy N.
Implicit Types (s : pstate).

Definition shape s : Prop := erase <$> nodes s = N.

(** What the first interpreter does where the second returns or throws. *)
Definition first_result {A B} (f : A → B) (r : option (result A * pstate)) : option (result B * pstate) :=
  match r with
  | Some (Ok a, s) => Some (Ok (f a), s)
  | Some (Throw _, s) =>
    Some (Throw (exited 1), PState (nodes s) (brk s) (GlobalTable s) (CurrentScope s) (GlobalGen s) (cin s)
      (cout s ++ ["Division by zero!"]))
  | None => None
  end.

Definition agree {A B} (f : A → B) (m : X pstate A) (m' : X pstate B) : Prop := ∀ s, shape s →
  m' s = first_result f (m s) ∧ ∀ a s', m s = Some (Ok a, s') → shape s'.

Lemma agree_bind {A B D E} (g : A → D) (f : B → E) (m : X pstate A) m' (k : A → X pstate B) (k' : D → X pstate E) :
  agree g m m' → (∀ a, agree f (k a) (k' (g a))) → agree f (m ≫= k) (m' ≫= k').
Proof.
  intros Hm Hk s Hs. destruct (Hm s Hs) as [Hm1 Hm2]. unfold mbind, X_bind in *. rewrite Hm1.
  destruct (m s) as [[[a|e] s1]|]; cbn; [|done..]. apply Hk. by eapply Hm2.
Qed.

Lemma agree_ret {A B} (f : A → B) a : agree f (mret a) (mret (f a)).
Proof. intros s Hs. split; [done|]. by intros b s' [= -> ->]. Qed.

Lemma agree_call {A} (m : C pstate A) : (∀ s a s', m s = Some (a, s') → shape s → shape s') → agree id (call m) (call m).
Proof.
  intros Hm s Hs. unfold call. destruct (m s) as [[a s']|] eqn:Hr; cbn; [|done]. split; [done|].
  intros b s2 [= <- <-]. by eapply Hm.
Qed.

Lemma agree_undefined {A B} (f : A → B) : agree f (call undefined) (call undefined).
Proof. by intros s Hs. Qed.

Lemma agree_node p : agree id (call (node_at p)) (call (node_at p)).
Proof.
  apply agree_call. intros s n s'. unfold node_at. cunfold. destruct (nodes s !! p); [|done]. by intros [= -> ->].
Qed.

Lemma agree_println l : agree id (call (println l)) (call (println l)).
Proof. apply agree_call. intros s a s'. by intros [= <- <-]. Qed.

Lemma agree_int z : agree id (int z) (int z).
Proof. unfold int. destruct (int_fits z); [apply agree_ret|apply agree_undefined]. Qed.

Lemma agree_read : agree id read read.
Proof.
  intros s Hs. unfold read, call. cunfold. destruct (cin s); cbn; (split; [done|]); by intros a s' [= <- <-].
Qed.

Lemma SetValue_agree p v : agree id (SetValue p v) (Naive.SetValue p v).
Proof.
  intros s Hs. unfold SetValue, Naive.SetValue, set_node, node_at, call. cunfold. unfold set_nodes.
  destruct (nodes s !! p) as [n|] eqn:Hp; [|done]. destruct n; try done. cbn. rewrite Hp. cbn. split; [done|].
  intros [] s' [= <-]. unfold shape in *. cbn. rewrite fmap_insert, <- Hs. cbn. apply insert_id.
  by rewrite lookup_fmap, Hp.
Qed.

Section operand.
Variables ev ev' : ptr → X pstate Z.
Hypothesis Hev : ∀ p, not_out N p → agree id (ev p) (ev' p).

Lemma agree_operands op l r :
  not_out N l → not_out N r → agree id (operands left_first ev op l r) (operands left_first ev' op l r).
Proof.
  intros Hl Hr. unfold operands. destruct (left_first op);
    (eapply agree_bind; [by apply Hev|]; intros x; eapply agree_bind; [by apply Hev|]; intros y; apply (agree_ret id)).
Qed.

Definition out_value (op : Operation) (v : Z) : Z := if decide (op = StdOut) then 998 else v.

Lemma agree_both op l r (f f' : Z → Z → X pstate Z) :
  not_out N l → not_out N r → (∀ x y, agree id (f x y) (f' x y)) →
  agree id ('(x, y) ← operands left_first ev op l r; f x y) ('(x, y) ← operands left_first ev' op l r; f' x y).
Proof. intros Hl Hr Hf. eapply agree_bind; [by apply agree_operands|]. intros [x y]. apply Hf. Qed.

Lemma agree_throw e : agree id (throw e) (call (println "Division by zero!");; throw (exited 1) : X pstate Z).
Proof. intros s Hs. split; [done|]. by intros a s'. Qed.

Lemma agree_operand l op r :
  tidy_node N (Operand l op r) → agree (out_value op) (calc_operand left_first ev l op r) (Naive.Op_calc left_first ev' l op r).
Proof.
  cbn. rewrite !andb_True. intros [[Hl Hr] Hp].
  assert (Hret : ∀ z, agree id (mret z : X pstate Z) (mret z)) by (intros; apply (agree_ret id)).
  assert (Hboth := λ f f', agree_both op l r f f' Hl Hr).
  destruct op; unfold calc_operand, Naive.Op_calc; try (apply Hboth; intros; first [apply agree_int|apply Hret]).
  - destruct (l =? 0)%nat; [done|]. apply Hboth. intros. apply agree_int.
  - destruct (l =? 0)%nat; [|apply Hboth; intros; apply agree_int].
    eapply agree_bind; [by apply Hev|]. intros y. apply agree_int.
  - eapply agree_bind; [by apply Hev|]. intros y. eapply agree_bind; [apply SetValue_agree|]. intros []. apply Hret.
  - eapply agree_bind; [by apply Hev|]. intros y. eapply agree_bind; [apply agree_println|].
    intros []. apply (agree_ret (out_value StdOut)).
  - apply agree_read.
  - eapply agree_bind; [by apply Hev|]. intros y. unfold id. destruct (y =? 0); [apply agree_throw|].
    apply Hboth. intros x z. destruct (z =? 0); [apply agree_undefined|apply agree_int].
  - apply Hboth. intros x z. destruct (_ || _); [apply agree_undefined|apply Hret].
  - eapply agree_bind; [by apply Hev|]. intros y. apply Hret.
  - eapply agree_bind; [by apply Hev|]. intros y. unfold id. destruct (y =? 0); [apply Hret|].
    eapply agree_bind; [by apply Hev|]. intros z. apply Hret.
  - eapply agree_bind; [by apply Hev|]. intros y. unfold id. destruct (y =? 0); [|apply Hret].
    eapply agree_bind; [by apply Hev|]. intros z. apply Hret.
Qed.
End operand.

Lemma agree_each {A B} (f : A → B) (ev : ptr → X pstate A) (ev' : ptr → X pstate B) ps :
  (∀ p, ∃ g : A → B, agree g (ev p) (ev' p)) →
  agree id (each (λ p, _ ← ev p; mret ()) ps) (each (λ p, _ ← ev' p; mret ()) ps).
Proof.
  intros Hev. induction ps as [|p ps IH]; [apply (agree_ret id)|]. cbn. destruct (Hev p) as [g Hg].
  eapply agree_bind; [eapply agree_bind; [exact Hg|]; intros a; apply (agree_ret id)|]. by intros [].
Qed.

Definition calc_value (p : ptr) (v : Z) : Z := if not_out N p then v else 998.

Lemma calc_agree fuel p : agree (calc_value p) (calc left_first fuel p) (Naive.calc left_first fuel p).
Proof.
  revert p. induction fuel as [|fuel IH]; intros p; [apply agree_undefined|].
  assert (Hev : ∀ q, not_out N q → agree id (calc left_first fuel q) (Naive.calc left_first fuel q)).
  { intros q Hq s Hs. destruct (IH q s Hs) as [Hr Hsh]. split; [|done]. rewrite Hr. unfold first_result, calc_value.
    by rewrite (Is_true_true_1 _ Hq). }
  intros s Hs. assert (Hp := f_equal (lookup p) Hs). rewrite lookup_fmap in Hp. cbn [calc Naive.calc].
  destruct (nodes s !! p) as [n|] eqn:Hn; [|unfold call, node_at; cunfold; by rewrite Hn].
  assert (Hrun : call (node_at p) s = Some (Ok n, s)) by (unfold call, node_at; cunfold; by rewrite Hn).
  rewrite !(X_bind_Ok _ _ _ _ _ Hrun). cbn in Hp. assert (Ht := HN p (erase n) (eq_sym Hp)). cbn in Ht.
  assert (Hout : not_out N p = match n with Operand _ StdOut _ => false | _ => true end).
  { unfold not_out. rewrite <- Hp. by destruct n. }
  unfold calc_value. destruct n; rewrite ?Hout.
  - by apply (agree_ret (λ v, v)).
  - by apply (agree_call (of_option Val_) (λ s a s', ltac:(destruct Val_; [by intros [= -> ->]|done]))).
  - eapply agree_bind; [apply (agree_each id); intros q; eexists; apply IH| |exact Hs].
    intros []. apply (agree_ret (λ v, v)).
  - assert (Ho := agree_operand _ _ Hev _ _ _ Ht s Hs). unfold out_value in Ho.
    by destruct Op_.
  - eapply (agree_bind id (λ v, v)); [by apply Hev| |exact Hs]. intros x. unfold id.
    destruct (x =? 0); [apply (agree_ret (λ v, v))|]. eapply agree_bind; [apply IH|]. intros y.
    intros s1 Hs1. specialize (IH p s1 Hs1). unfold calc_value in IH. by rewrite Hout in IH.
  - eapply (agree_bind id (λ v, v)); [by apply Hev| |exact Hs]. intros x. unfold id.
    destruct (x =? 0); [apply (agree_ret (λ v, v))|]. eapply agree_bind; [apply IH|]. intros y.
    apply (agree_ret (λ v, v)).
Qed.
End agree.

(** The interpreter of the archive is that of [src/15-llvm]. On a store whose nodes
    the parser could have made, for every node, fuel and order of evaluation, it leaves
    the same declarations, tables and streams and computes the same value, 998 for an
    output statement; it has no behaviour where the other has none; and where the other
    throws, it prints the message and exits with status 1. *)
Theorem first_calc_agrees `{IRBuilder} left_first fuel p (s : pstate) :
  tidy (erase <$> nodes s) →
  Naive.calc left_first fuel p s =
    first_result (calc_value (erase <$> nodes s) p) (calc left_first fuel p s).
Proof. intros Ht. by apply (calc_agree left_first _ Ht). Qed.

Lemma first_calc_agrees_witness :
  Naive.calc (λ _, true) 20 1 (write (Est ∅ [1] []) countdown_state) =
    first_result id (calc (λ _, true) 20 1 (write (Est ∅ [1] []) countdown_state)).
Proof.
  apply (first_calc_agrees (λ _, true) 20 1 (write (Est ∅ [1] []) countdown_state)).
  apply (bool_decide_unpack _). vm_compute. exact I.
Defined.

(** [while (1 > 0) print 1;]: the generator of the archive builds no code for it. *)
Example first_codegen_drops_loops `{IRBuilder} n c b s p :
  nodes s !! p = Some (While c b) → Naive.codegen (S n) p s = Some (Ok None, s).
Proof. intros Hp. cbn. unfold call, node_at. cunfold. by rewrite Hp. Qed.
