(* ===== verification/WVec.v ===== *)
(** * [src/14-iterators/wrongit.cc]: [containers::Vector]

    One more vector over raw storage, on the memory of [VecStore]: the members
    [data_], [allocated_] and [size_] are [arr_], [size_] and [used_] there. [nothrow] is
    [is_nothrow_move_constructible<T>], which chooses how [realloc] transfers elements. *)

From S2P Require Import Prelude VecStore VecFacts MyVec MyVecBuf.

Module W.

(** ** [VectorStorage] *)
Definition storage (allocSize : Z) : X vstore vec := p ← operator_new allocSize; mret (Vec p allocSize 0).

Definition move_assign (this toMove : ptr) : C vstore () := swap_vec this toMove.

Definition move_ctor (toMove : ptr) : C vstore ptr :=
  this ← declare (Vec 0 0 0);
  move_assign this toMove;;
  mret this.

Definition dtor (this : ptr) : C vstore () :=
  v ← load this;
  destroy_range (Z.to_nat (used_ v)) (arr_ v) 0;;
  operator_delete (arr_ v).

(** ** Constructors *)

(** [for (; size_ < n; ++size_) new (data_ + size_) T(make(size_));] *)
Fixpoint construct_upto (fuel : nat) (this : ptr) (n : Z) (make : Z → X vstore T) : X vstore () :=
  match fuel with
  | O => call undefined
  | S fuel =>
    v ← call (load this);
    if used_ v <? n then
      r ← make (used_ v);
      call (place (arr_ v) (used_ v) r);;
      call (store this (Vec (arr_ v) (size_ v) (used_ v + 1)));;
      construct_upto fuel this n make
    else mret ()
  end.

(** The base is constructed when the body of the constructor runs: it is destroyed if
    the body throws. *)
Definition constructor (allocSize : Z) (make : Z → X vstore T) : X vstore ptr :=
  v ← storage allocSize;
  this ← call (declare v);
  on_throw (construct_upto (S (Z.to_nat allocSize)) this allocSize make) (dtor this;; leave_scope this);;
  mret this.

Definition default_ctor : C vstore ptr := declare (Vec 0 0 0).

Definition copy_ctor (sd : ptr) : X vstore ptr :=
  d ← call (load sd);
  constructor (used_ d) (λ i, e ← call (object (arr_ d) i); copy_T e).

Definition list_ctor (l : list T) : X vstore ptr :=
  constructor (Z.of_nat (length l)) (λ i, e ← call (of_option (l !! Z.to_nat i)); copy_T e).

Definition fill_ctor (size : Z) (toCopy : T) : X vstore ptr := constructor size (λ _, copy_T toCopy).
Definition size_ctor (size : Z) : X vstore ptr := constructor size (λ _, default_T).

Definition copy_assign (this sd : ptr) : X vstore () :=
  copy ← copy_ctor sd;
  scoped copy dtor (call (move_assign this copy)).

Definition swap (ft sd : ptr) : C vstore () := swap_vec ft sd.

(** ** [realloc] and the modifiers *)
Section vector.
Variable nothrow : bool.

Definition moveOrCopyT (p : ptr) (i : Z) : X vstore T :=
  if nothrow then call (move_from p i) else (src ← call (object p i); copy_T src).

Definition realloc (this : ptr) (newAllocated : Z) : X vstore () :=
  v ← call (load this);
  let newSize := Z.min newAllocated (used_ v) in
  nv ← storage newAllocated;
  newVector ← call (declare nv);
  scoped newVector dtor (
    construct_upto (S (Z.to_nat newSize)) newVector newSize
      (λ i, d ← call (load this); moveOrCopyT (arr_ d) i);;
    call (move_assign this newVector)).

(** [value] is what [T{std::forward<Arg>(value)}] does: the argument is a reference. *)
Definition push (this : ptr) (value : X vstore T) : X vstore () :=
  v ← call (load this);
  (if used_ v =? size_ v then realloc this (u64 (2 * size_ v + 1)) else mret ());;
  r ← value;
  v ← call (load this);
  call (place (arr_ v) (used_ v) r);;
  call (store this (Vec (arr_ v) (size_ v) (used_ v + 1))).

Definition push_copy (this : ptr) (ref : C vstore T) : X vstore () := push this (x ← call ref; copy_T x).
Definition push_move (this : ptr) (p : ptr) (i : Z) : X vstore () := push this (call (move_from p i)).
End vector.

Definition pop (this : ptr) : X vstore () :=
  v ← call (load this);
  if used_ v =? 0 then throw (invalid_argument "trying pop from empty vector")
  else
    call (destroy (arr_ v) (used_ v - 1));;
    call (store this (Vec (arr_ v) (size_ v) (used_ v - 1))).

(** ** References and iterators: places in a block *)
Definition place_of : Type := ptr * Z.

Definition back (this : ptr) : C vstore place_of := v ← load this; mret (arr_ v, u64 (used_ v - 1)).
Definition front (this : ptr) : C vstore place_of := v ← load this; mret (arr_ v, 0).
Definition at_ (this : ptr) (id : Z) : C vstore place_of := v ← load this; mret (arr_ v, id).
Definition allocated (this : ptr) : C vstore Z := v ← load this; mret (size_ v).
Definition size (this : ptr) : C vstore Z := v ← load this; mret (used_ v).

Definition deref (it : place_of) : C vstore T := object it.1 it.2.
Definition pre_inc (it : place_of) : place_of * place_of := let it := (it.1, it.2 + 1) in (it, it).
Definition post_inc (it : place_of) : place_of * place_of := let copy := it in (copy, (it.1, it.2 + 1)).
Definition pre_dec (it : place_of) : place_of * place_of := let it := (it.1, it.2 - 1) in (it, it).
Definition post_dec (it : place_of) : place_of * place_of := let copy := it in (copy, (it.1, it.2 - 1)).
Definition const_pre_inc (it_ : place_of) : place_of * place_of := let it_ := (pre_inc it_).2 in (it_, it_).
Definition const_post_inc (it_ : place_of) : place_of * place_of := post_inc it_.
Definition const_pre_dec (it_ : place_of) : place_of * place_of := let it_ := (pre_dec it_).2 in (it_, it_).
Definition const_post_dec (it_ : place_of) : place_of * place_of := post_dec it_.
Definition begin (this : ptr) : C vstore place_of := v ← load this; mret (arr_ v, 0).
Definition end_ (this : ptr) : C vstore place_of := v ← load this; mret (arr_ v, used_ v).

(** [for (auto elt : v) ...]: the elements that the body is given, in this order. *)
Fixpoint range_for (fuel : nat) (it last : place_of) : C vstore (list T) :=
  match fuel with
  | O => undefined
  | S fuel =>
    if decide (it = last) then mret []
    else (elt ← deref it; rest ← range_for fuel (pre_inc it).2 last; mret (elt :: rest))
  end.

(** What the program prints. *)
Definition main_ : X vstore (list T) :=
  v ← list_ctor [Some 1; Some 2; Some 3];
  scoped v dtor (
    b ← call (begin v);
    e ← call (end_ v);
    call (range_for 4 b e)).
End W.

(** ** What the loops do *)
Section facts.
Implicit Types (s : vstore) (p o : ptr) (rs : list T) (B : gmap ptr (list cell)) (O : gmap ptr vec).

(** [Bk k] is the rest of the storage once [k] elements have been made. *)
Lemma construct_upto_run (thr : Prop) (make : Z → X vstore T) o rs (Bk : nat → gmap ptr (list cell)) O n
    (Hmake : ∀ k x s u, rs !! k = Some x → vwf s → used_ u < size_ u → own s o u (take k rs) (Bk k) O →
      ∃ r s', make (Z.of_nat k) s = Some (r, s') ∧ vwf s' ∧
        (r = Ok x ∧ own s' o u (take k rs) (Bk (S k)) O ∨
         thr ∧ r = Throw bad_alloc ∧ own s' o u (take k rs) (Bk k) O)) :
  Z.of_nat (length rs) <= n → ∀ j k s u, (k + j = length rs)%nat → vwf s → size_ u = n →
  own s o u (take k rs) (Bk k) O →
  ∃ r s', W.construct_upto (S j) o (Z.of_nat (length rs)) make s = Some (r, s') ∧ vwf s' ∧
    (r = Ok () ∧ own s' o (Vec (arr_ u) n (Z.of_nat (length rs))) rs (Bk (length rs)) O ∨
     thr ∧ r = Throw bad_alloc ∧ ∃ u' k', own s' o u' (take k' rs) (Bk k') O).
Proof.
  intros Hn. induction j as [|j IH]; intros k s u Hk Hwf Hsz Hown; cbn [W.construct_upto];
    erewrite X_bind_Ok by (unfold call; by rewrite (own_load _ _ _ _ _ _ Hown));
    pose proof (own_used _ _ _ _ _ _ Hown) as Hused; rewrite length_take in Hused.
  - rewrite (proj2 (Z.ltb_ge _ _)) by lia. eexists _, _. split; [done|]. split; [done|]. left.
    split; [done|]. assert (k = length rs) as -> by lia. rewrite take_ge in Hown by done.
    replace (Vec (arr_ u) n (Z.of_nat (length rs))) with u; [done|]. destruct u. cbn in *. f_equal; lia.
  - rewrite (proj2 (Z.ltb_lt _ _)) by lia.
    destruct (lookup_lt_is_Some_2 rs k) as [x Hx]; [lia|].
    replace (used_ u) with (Z.of_nat k) by lia.
    destruct (Hmake k x s u Hx Hwf ltac:(lia) Hown) as (r & s1 & Hrun & Hwf1 & [[-> H1]|(Ht & -> & H1)]); cstep_by Hrun.
    + destruct (place_back s1 o u _ _ O x Hwf1 H1 ltac:(lia)) as (s2 & Hp & Hwf2 & s3 & Hst & Hwf3 & H3).
      replace (used_ u) with (Z.of_nat k) in Hp by lia.
      erewrite X_bind_Ok by (unfold call; by rewrite Hp).
      unfold grown in Hst, H3. replace (used_ u) with (Z.of_nat k) in Hst, H3 by lia.
      erewrite X_bind_Ok by (unfold call; by rewrite Hst).
      rewrite <- take_S_r in H3 by done.
      by destruct (IH (S k) s3 (Vec (arr_ u) (size_ u) (Z.of_nat k + 1))) as (r & s4 & H4);
        [lia|done|done|exact H3|exists r, s4].
    + eexists _, _. split; [done|]. split; [done|]. right. eauto.
Qed.

(** *** [realloc] *)
Lemma copy_element s o u rs B O v (vs : list T) k x :
  Forall is_Some vs → vs !! k = Some x → B !! arr_ v = Some (cells vs v) →
  vwf s → used_ u < size_ u → own s o u rs B O →
  ∃ r s', (src ← call (object (arr_ v) (Z.of_nat k)); copy_T src) s = Some (r, s') ∧ vwf s' ∧
    (r = Ok x ∨ r = Throw bad_alloc) ∧ own s' o u rs B O.
Proof.
  intros Hsome Hk HB Hwf Hlt Hown. destruct (Forall_lookup_1 _ _ _ _ Hsome Hk) as [z ->].
  erewrite X_bind_Ok by (unfold call; by rewrite (other_object_run s o u rs B O v vs k (Some z))).
  destruct (copy_T_run s z) as (r & s1 & Hrun & Hq & Hr). exists r, s1. split; [done|].
  split; [by eapply vwf_quiet|]. split; [done|]. by eapply own_quiet.
Qed.

Lemma storage_run s n :
  vwf s → 0 <= n →
  ∃ r s', (v ← W.storage n; call (declare v)) s = Some (r, s') ∧
    (r = Throw bad_alloc ∧ quiet s s' ∨
     ∃ o v, r = Ok o ∧ vwf s' ∧ size_ v = n ∧ used_ v = 0 ∧ objs s !! o = None ∧
       own s' o v [] (blocks s) (objs s)).
Proof. unfold W.storage. rewrite X_bind_assoc. apply new_storage_run. Qed.

(** The transfer of the elements of [v] into the new vector [tmp]. *)
Lemma transfer_run (nothrow : bool) s tmp u o v rs B O :
  let old k := if nothrow then put_block (arr_ v) (cells (moved k rs) v) B
    else put_block (arr_ v) (cells rs v) B in
  (nothrow = false → Forall is_Some rs) → (arr_ v = 0%nat → rs = []) →
  vwf s → Z.of_nat (length rs) <= size_ u → own s tmp u [] (old 0%nat) (<[o := v]> O) →
  ∃ r s', W.construct_upto (S (length rs)) tmp (Z.of_nat (length rs))
      (λ i, d ← call (load o); W.moveOrCopyT nothrow (arr_ d) i) s = Some (r, s') ∧ vwf s' ∧
    (r = Ok () ∧ own s' tmp (Vec (arr_ u) (size_ u) (Z.of_nat (length rs))) rs (old (length rs)) (<[o := v]> O) ∨
     nothrow = false ∧ r = Throw bad_alloc ∧ ∃ u' k', own s' tmp u' (take k' rs) (old 0%nat) (<[o := v]> O)).
Proof.
  intros old Hsome Hnull Hwf Hn Hown.
  destruct (construct_upto_run (nothrow = false) (λ i, d ← call (load o); W.moveOrCopyT nothrow (arr_ d) i)
    tmp rs old (<[o := v]> O) (size_ u)) with (j := length rs) (k := 0%nat) (s := s) (u := u)
    as (r & s' & Hrun & Hwf' & Hc); [|done|done|done|done|done|].
  2: { exists r, s'. split; [done|]. split; [done|].
       destruct Hc as [Hc|(-> & -> & u' & k' & Hc)]; [by left|]. right. eauto. }
  clear s Hwf Hown. intros k x s w Hk Hwf Hlt Hown.
  assert (H0 : arr_ v ≠ 0%nat) by (intros ->%Hnull; by rewrite lookup_nil in Hk).
  erewrite X_bind_Ok.
  2: { unfold call, load. cunfold. pose proof (own_objs _ _ _ _ _ _ Hown) as ->.
       rewrite lookup_insert_ne; [by rewrite lookup_insert_eq|].
       intros ->. pose proof (own_other _ _ _ _ _ _ Hown) as He. by rewrite lookup_insert_eq in He. }
  unfold W.moveOrCopyT, old in *. destruct nothrow.
  - destruct (take_element s tmp w (take k rs) B (<[o := v]> O) v rs k x) as (s' & Hm & Hwf' & H'); try done.
    exists (Ok x), s'. unfold call. rewrite Hm. split; [done|]. split; [done|]. by left.
  - destruct (copy_element s tmp w (take k rs) (put_block (arr_ v) (cells rs v) B) (<[o := v]> O) v rs k x)
      as (r & s' & Hrun & Hwf' & Hr & H'); try done; [by apply Hsome| |].
    { unfold put_block. rewrite decide_False by done. by rewrite lookup_insert_eq. }
    exists r, s'. split; [done|]. split; [done|]. naive_solver.
Qed.

Lemma realloc_run (nothrow : bool) s o v rs B O n :
  vwf s → own s o v rs B O → (nothrow = false → Forall is_Some rs) → used_ v <= n →
  ∃ r s', W.realloc nothrow o n s = Some (r, s') ∧ vwf s' ∧
    (r = Ok () ∧ (∃ p, (arr_ v ≠ 0%nat → p ≠ arr_ v) ∧ own s' o (Vec p n (used_ v)) rs B O) ∨ r = Throw bad_alloc ∧ own s' o v rs B O).
Proof.
  intros Hwf Hown Hsome Hn. pose proof Hown as [Ho Hoo Hb Hf Hnull Hused Hcap]. unfold W.realloc.
  erewrite X_bind_Ok by (unfold call; by rewrite (own_load _ _ _ _ _ _ Hown)).
  rewrite Z.min_r, Hused, Nat2Z.id by lia. rewrite <- X_bind_assoc.
  destruct (storage_run s n) as (r & s1 & Hrun & [[-> Hq]|(tmp & u & -> & Hwf1 & Hus & Huu & Hft & H1)]);
    [done|lia|..]; cstep_by Hrun.
  { eexists _, _. split; [done|]. split; [by eapply vwf_quiet|]. right. split; [done|]. by eapply own_quiet. }
  rewrite Hb, Ho in H1.
  assert (Hold0 : own s1 tmp u [] (if nothrow then put_block (arr_ v) (cells (moved 0 rs) v) B
    else put_block (arr_ v) (cells rs v) B) (<[o := v]> O)) by (destruct nothrow; exact H1).
  destruct (transfer_run nothrow s1 tmp u o v rs B O) as (r & s2 & Hrun2 & Hwf2 & [[-> H2]|(-> & -> & u' & k' & H2)]);
    [done| |done|lia|exact Hold0|..].
  { intros H0%Hnull. destruct rs; [done|]. cbn in *. lia. }
  - assert (Hs0 : ∃ s0 rs0, own s0 o v rs0 B O ∧
      own s2 tmp (Vec (arr_ u) (size_ u) (Z.of_nat (length rs))) rs (put_block (arr_ v) (cells rs0 v) B) (<[o := v]> O)).
    { destruct nothrow; [|by exists s, rs].
      exists (VStore (put_block (arr_ v) (cells (moved (length rs) rs) v) B) (<[o := v]> O) 1 [] 0), (moved (length rs) rs).
      split; [|done]. split; cbn; try done. by rewrite length_moved. }
    destruct Hs0 as (s0 & rs0 & Hown0 & H3).
    destruct (swap_vec_in_run s2 s0 o tmp v _ _ _ B O Hwf2 Hown0 H3) as (s4 & s' & Hsw & Hd & Hwf' & H4).
    erewrite scoped_Ok; [|cstep_by Hrun2; unfold call, W.move_assign; by rewrite Hsw|exact Hd].
    eexists _, _. split; [done|]. split; [done|]. left. split; [done|].
    rewrite Hus in H4. exists (arr_ u). split; [|exact H4]. intros H0 He.
    assert (Hu0 : arr_ u ≠ 0%nat) by congruence.
    destruct (put_block_fresh _ _ _ _ (own_fresh _ _ _ _ _ _ H3 Hu0)) as [_ Hd0]. by apply (Hd0 H0).
  - destruct (dtor_run s2 tmp u' _ _ _ Hwf2 H2) as (s' & Hd & Hwf' & Hbec).
    erewrite scoped_Throw; [|by cstep_by Hrun2|exact Hd].
    eexists _, _. split; [done|]. split; [done|]. right. split; [done|].
    destruct Hbec as [Hb' Ho' _]. eapply own_same; [exact Hown|congruence|congruence].
Qed.

(** *** [push] *)
Lemma push_tail s o v rs B O (value : X vstore T) :
  vwf s → own s o v rs B O → used_ v < size_ v →
  (∃ r s', value s = Some (r, s') ∧ quiet s s' ∧ ((∃ x, r = Ok x) ∨ r = Throw bad_alloc)) →
  ∃ r s' x s'', value s = Some (x, s'') ∧
    (r ← value; v ← call (load o); call (place (arr_ v) (used_ v) r);;
     call (store o (Vec (arr_ v) (size_ v) (used_ v + 1)))) s = Some (r, s') ∧ vwf s' ∧
    ((∃ y, x = Ok y ∧ r = Ok () ∧ own s' o (grown v) (rs ++ [y]) B O) ∨
     r = Throw bad_alloc ∧ own s' o v rs B O).
Proof.
  intros Hwf Hown Hlt (r & s1 & Hrun & Hq & [[x ->]| ->]); rewrite Hrun.
  - cstep_by Hrun. assert (Hown1 : own s1 o v rs B O) by (by eapply own_quiet).
    erewrite X_bind_Ok by (unfold call; by rewrite (own_load _ _ _ _ _ _ Hown1)).
    destruct (place_back s1 o v rs B O x) as (s2 & Hp & Hwf2 & s3 & Hst & Hwf3 & H3);
      [by eapply vwf_quiet|done|done|].
    erewrite X_bind_Ok by (unfold call; by rewrite Hp). unfold call. unfold grown in Hst. rewrite Hst.
    eexists _, _, _, _. split; [done|]. split; [done|]. split; [done|]. left. eauto.
  - cstep_by Hrun. eexists _, _, _, _. split; [done|]. split; [done|]. split; [by eapply vwf_quiet|].
    right. split; [done|]. by eapply own_quiet.
Qed.

Lemma push_copy_run (nothrow : bool) s o v rs B O x :
  vwf s → own s o v rs B O → (nothrow = false → Forall is_Some rs) → size_ v < 2 ^ 60 →
  ∃ r s', W.push_copy nothrow o (mret (Some x)) s = Some (r, s') ∧ vwf s' ∧
    (r = Ok () ∧ (∃ v', own s' o v' (rs ++ [Some x]) B O) ∨
     r = Throw bad_alloc ∧ ∃ v', own s' o v' rs B O).
Proof.
  intros Hwf Hown Hsome Hsz. pose proof Hown as [_ _ _ _ _ Hused Hcap].
  assert (Hval : ∀ s, ∃ r s', (y ← call (mret (Some x)); copy_T y) s = Some (r, s') ∧ quiet s s' ∧
    (r = Ok (Some x) ∨ r = Throw bad_alloc)).
  { intros s1. cstep. apply copy_T_run. }
  assert (Htail : ∀ s1 v1, vwf s1 → own s1 o v1 rs B O → used_ v1 < size_ v1 →
    ∃ r s', (r ← (y ← call (mret (Some x)); copy_T y); v ← call (load o); call (place (arr_ v) (used_ v) r);;
     call (store o (Vec (arr_ v) (size_ v) (used_ v + 1)))) s1 = Some (r, s') ∧ vwf s' ∧
    (r = Ok () ∧ (∃ v', own s' o v' (rs ++ [Some x]) B O) ∨
     r = Throw bad_alloc ∧ ∃ v', own s' o v' rs B O)).
  { intros s1 v1 Hwf1 Hown1 Hlt1. destruct (Hval s1) as (r & s2 & Hv & Hq & Hr).
    destruct (push_tail s1 o v1 rs B O (y ← call (mret (Some x)); copy_T y)) as (r' & s3 & y & s4 & Hv' & Hrun & Hwf3 & Hc);
      [done..|exists r, s2; naive_solver|].
    exists r', s3. split; [exact Hrun|]. split; [done|]. rewrite Hv in Hv'. naive_solver. }
  unfold W.push_copy, W.push.
  erewrite X_bind_Ok by (unfold call; by rewrite (own_load _ _ _ _ _ _ Hown)).
  destruct (Z.eqb_spec (used_ v) (size_ v)) as [Hfull|Hfull].
  - rewrite u64_small by (unfold is_u64; lia).
    destruct (realloc_run nothrow s o v rs B O (2 * size_ v + 1)) as (r & s1 & Hrun & Hwf1 & [(-> & p & _ & H1)|[-> H1]]);
      [done..|lia| |]; cstep_by Hrun.
    + apply (Htail s1 _ Hwf1 H1). cbn. lia.
    + eexists _, _. split; [done|]. split; [done|]. right. eauto.
  - cstep. apply (Htail s v Hwf Hown). lia.
Qed.

Lemma push_own_dangles (nothrow : bool) s o v rs B O i s1 :
  vwf s → own s o v rs B O → (nothrow = false → Forall is_Some rs) → size_ v < 2 ^ 60 →
  used_ v = size_ v → (i < length rs)%nat →
  W.push_copy nothrow o (object (arr_ v) (Z.of_nat i)) s ≠ Some (Ok (), s1).
Proof.
  intros Hwf Hown Hsome Hsz Hfull Hi. pose proof Hown as [_ _ _ Hf Hnull Hused Hcap].
  assert (H0 : arr_ v ≠ 0%nat) by (intros He%Hnull; lia).
  unfold W.push_copy, W.push.
  erewrite X_bind_Ok by (unfold call; by rewrite (own_load _ _ _ _ _ _ Hown)).
  rewrite (proj2 (Z.eqb_eq _ _)) by done. rewrite u64_small by (unfold is_u64; lia).
  destruct (realloc_run nothrow s o v rs B O (2 * size_ v + 1)) as (r & s2 & Hrun & Hwf2 & [(-> & p & Hp & H2)|[-> H2]]);
    [done..|lia| |]; cstep_by Hrun; [|done].
  rewrite X_bind_None; [done|]. apply X_bind_None. unfold call, object, read_cell. rewrite C_bind_None; [done|].
  apply C_bind_None. unfold block. cunfold. rewrite (own_blocks _ _ _ _ _ _ H2). cbn [arr_].
  rewrite put_block_ne by (intros He; by apply (Hp H0)). by rewrite (Hf H0).
Qed.
End facts.

(** ** Iteration *)

(** The range from [begin] to [end_] is the elements, in order. *)
Lemma range_for_run s o v (rs : list T) B O :
  own s o v rs B O →
  (b ← W.begin o; e ← W.end_ o; W.range_for (S (length rs)) b e) s = Some (rs, s).
Proof.
  intros Hown. unfold W.begin, W.end_. rewrite !C_bind_assoc.
  cstep_by (own_load _ _ _ _ _ _ Hown). cstep. rewrite !C_bind_assoc. cstep_by (own_load _ _ _ _ _ _ Hown). cstep.
  pose proof Hown as [_ _ Hb _ Hnull Hused Hcap]. rewrite Hused. clear Hused.
  assert (Hgo : ∀ k, (k ≤ length rs)%nat →
    W.range_for (S (length rs - k)) (arr_ v, Z.of_nat k) (arr_ v, Z.of_nat (length rs)) s = Some (drop k rs, s)).
  { intros k Hk. remember (length rs - k)%nat as j eqn:Hj. revert k Hk Hj.
    induction j as [|j IH]; intros k Hk Hj; cbn [W.range_for].
    - rewrite decide_True by (do 2 f_equal; lia). rewrite drop_ge by lia. done.
    - rewrite decide_False by (intros [=]; lia).
      destruct (lookup_lt_is_Some_2 rs k) as [x Hx]; [lia|].
      assert (Hobj : object (arr_ v) (Z.of_nat k) s = Some (x, s)).
      { apply (object_run s _ (cells rs v)).
        - rewrite Hb. unfold put_block. rewrite decide_False; [by rewrite lookup_insert_eq|].
          intros H0%Hnull. pose proof (own_used _ _ _ _ _ _ Hown). lia.
        - unfold cells. rewrite lookup_app_l by (rewrite length_fmap; lia).
          by rewrite list_lookup_fmap, Hx. }
      unfold W.deref. cbn [fst snd]. cstep_by Hobj. unfold W.pre_inc. cbn [fst snd].
      replace (Z.of_nat k + 1) with (Z.of_nat (S k)) by lia.
      rewrite (C_bind_Some _ _ _ _ _ (IH (S k) ltac:(lia) ltac:(lia))). cbn.
      by rewrite (drop_S rs x k Hx). }
  specialize (Hgo 0%nat ltac:(lia)). rewrite Nat.sub_0_r in Hgo. exact Hgo.
Qed.

(** ** Properties *)

(** [push] on this vector gives the strong guarantee for its elements, whether
    [realloc] moves or copies them: it returns with the element appended, or throws
    [bad_alloc] and the elements are the same, possibly in new storage; nothing of the
    rest of the storage changes and no block is lost. *)
Theorem reallocating_push_keeps_elements (nothrow : bool) (s : vstore) (o : ptr) v (rs : list T) B O x :
  vwf s → own s o v rs B O → (nothrow = false → Forall is_Some rs) → size_ v < 2 ^ 60 →
  ∃ r s', W.push_copy nothrow o (mret (Some x)) s = Some (r, s') ∧
    (r = Ok () ∧ (∃ v', own s' o v' (rs ++ [Some x]) B O) ∨
     r = Throw bad_alloc ∧ ∃ v', own s' o v' rs B O).
Proof.
  intros Hwf Hown Hs Hsz. destruct (push_copy_run nothrow s o v rs B O x) as (r & s' & Hrun & _ & Hc); [done..|].
  by exists r, s'.
Qed.

(** [push] reads its argument after [realloc] has destroyed the old storage: pushing
    one of the vector's own elements never succeeds when the vector is full. *)
Theorem push_of_own_element_dangles (nothrow : bool) (s s1 : vstore) (o : ptr) v (rs : list T) B O (i : nat) :
  vwf s → own s o v rs B O → (nothrow = false → Forall is_Some rs) → size_ v < 2 ^ 60 →
  used_ v = size_ v → (i < length rs)%nat →
  W.push_copy nothrow o (object (arr_ v) (Z.of_nat i)) s ≠ Some (Ok (), s1).
Proof. apply push_own_dangles. Qed.

Lemma reallocating_push_keeps_elements_witness :
  ∃ r s', W.push_copy false 2 (mret (Some 8)) full_store = Some (r, s') ∧
    (r = Ok () ∧ (∃ v', own s' 2 v' ([Some 7] ++ [Some 8]) ∅ ∅) ∨
     r = Throw bad_alloc ∧ ∃ v', own s' 2 v' [Some 7] ∅ ∅).
Proof.
  apply (reallocating_push_keeps_elements false full_store 2 (Vec 1 1 1) [Some 7] ∅ ∅ 8).
  - exact full_store_vwf.
  - exact full_store_own.
  - intros _. by repeat constructor.
  - done.
Defined.

Lemma push_of_own_element_dangles_witness :
  W.push_copy true 2 (object 1 0) full_store ≠ Some (Ok (), start_store [] 0).
Proof.
  apply (push_of_own_element_dangles true full_store (start_store [] 0) 2 (Vec 1 1 1) [Some 7] ∅ ∅ 0).
  - exact full_store_vwf.
  - exact full_store_own.
  - done.
  - done.
  - done.
  - cbn. lia.
Defined.

Example push_own_element_is_undefined : W.push_copy true 2 (object 1 0) full_store = None.
Proof. vm_compute. reflexivity. Qed.

Example main_prints :
  (λ '(r, s), (r, map_to_list (blocks s), map_to_list (objs s))) <$> W.main_ (start_store [] 9) =
  Some (Ok [Some 1; Some 2; Some 3], [], []).
Proof. vm_compute. reflexivity. Qed.
