(* ===== verification/Lingeo.v ===== *)
(** * [src/02-lrefs/triangles]: intersection of triangles

    [float] and [double] are the IEEE 754 formats of [SpecFloat], rounding to nearest
    even, each operation in the type that C++ gives it ([FLT_EVAL_METHOD] 0, no
    contraction); a comparison with a [double] constant promotes. [std::atan] and
    [std::sin] are not specified to the last bit: they are parameters, and nothing is
    assumed of them. A const method is a function to [option], [None] when an [assert]
    fails or the behaviour is undefined. *)

From Stdlib Require Import SpecFloat.
From stdpp Require Import pretty.
From S2P Require Import Prelude.

Abbreviation float := spec_float (only parsing).
Abbreviation double := spec_float (only parsing).

(** ** Arithmetic *)
Module FP.
Definition fadd := SFadd 24 128.
Definition fsub := SFsub 24 128.
Definition fmul := SFmul 24 128.
Definition fdiv := SFdiv 24 128.
Definition dadd := SFadd 53 1024.
Definition dsub := SFsub 53 1024.
Definition dmul := SFmul 53 1024.
Definition ddiv := SFdiv 53 1024.
Definition dsqrt := SFsqrt 53 1024.

Definition convert (prec emax : Z) (x : float) : float :=
  match x with
  | S754_finite s m e => binary_normalize prec emax (cond_Zopp s (Zpos m)) e s
  | x => x
  end.
Definition to_double := convert 53 1024.
Definition to_float := convert 24 128.

Definition of_Z (z : Z) : double := binary_normalize 53 1024 z 0 false.
Definition zero : double := S754_zero false.
Definition one : double := of_Z 1.

(** [x > y] and [x >= y] with the float [x] promoted; [x != x]. *)
Definition gt (x : float) (y : double) : bool := SFltb y (to_double x).
Definition ge (x : float) (y : double) : bool := SFleb y (to_double x).
Definition lt (x : float) (y : double) : bool := SFltb (to_double x) y.
Definition is_nan (x : float) : bool := negb (SFeqb x x).
End FP.

(** ** [std::ostream << float], six significant digits *)
Module Show.

(** [num / den] rounded to the nearest integer, ties to even. *)
Definition round_div (num den : Z) : Z :=
  let q := num / den in let r := num `mod` den in
  match 2 * r ?= den with Lt => q | Gt => q + 1 | Eq => if Z.even q then q else q + 1 end.

(** [num / den * 10 ^ k] *)
Definition scaled (num den k : Z) : Z :=
  if 0 <=? k then round_div (num * 10 ^ k) den else round_div num (den * 10 ^ (- k)).

(** The decimal exponent of [num / den] is at most [k] and at least [k - fuel]. *)
Fixpoint exponent (fuel : nat) (num den k : Z) : Z :=
  match fuel with
  | O => k
  | S fuel =>
    if (if 0 <=? k then den * 10 ^ k <=? num else den <=? num * 10 ^ (- k)) then k
    else exponent fuel num den (k - 1)
  end.

Fixpoint digits (n : nat) (z : Z) : list Z :=
  match n with O => [] | S n => digits n (z / 10) ++ [z `mod` 10] end.

Fixpoint strip_zeros (l : list Z) : list Z :=
  match l with
  | [] => []
  | d :: l => match strip_zeros l with [] => if d =? 0 then [] else [d] | l => d :: l end
  end.

Definition text (l : list Z) : string := foldr (λ d s, (pretty d) +:+ s) "" l.
Definition with_point (whole frac : list Z) : string :=
  match strip_zeros frac with [] => text whole | frac => text whole +:+ "." +:+ text frac end.

Definition fixed (x : Z) (ds : list Z) : string :=
  if 0 <=? x then with_point (take (Z.to_nat x + 1) ds) (drop (Z.to_nat x + 1) ds)
  else with_point [0] (replicate (Z.to_nat (- x - 1)) 0 ++ ds).
Definition scientific (x : Z) (ds : list Z) : string :=
  with_point (take 1 ds) (drop 1 ds) +:+ "e" +:+ (if 0 <=? x then "+" else "-") +:+
  text (digits 2 (Z.abs x)).

Definition magnitude (m : positive) (e : Z) : string :=
  let num := if 0 <=? e then Zpos m * 2 ^ e else Zpos m in
  let den := if 0 <=? e then 1 else 2 ^ (- e) in
  let x := exponent 100 num den 40 in
  let z := scaled num den (5 - x) in
  let '(x, z) := if z =? 10 ^ 6 then (x + 1, 10 ^ 5) else (x, z) in
  let ds := digits 6 z in
  if (-4 <=? x) && (x <? 6) then fixed x ds else scientific x ds.

(** How a NaN is printed depends on its sign, which [spec_float] does not have. *)
Definition show_float (nan_text : string) (x : float) : string :=
  match x with
  | S754_zero s => if s then "-0" else "0"
  | S754_infinity s => if s then "-inf" else "inf"
  | S754_nan => nan_text
  | S754_finite s m e => (if s then "-" else "") +:+ magnitude m e
  end.
End Show.

(** ** [lingeo.hpp] *)
Inductive area_t := LEFT_SIDE | INTER_SIDE | RIGHT_SIDE.

#[export] Instance area_eq_dec : EqDecision area_t.
Proof. solve_decision. Defined.

Definition flt_tolerance : double := FP.ddiv FP.one (FP.of_Z 100000).
Definition inter_area_width : double := FP.of_Z 100.

Record point_t := Point { x : float; y : float }.
Record line_t := Line { a : float; b : float; c : float }.
Abbreviation polygon_t := (list point_t) (only parsing).

(** [point_t{}] *)
Definition no_point : point_t := Point S754_nan S754_nan.

Definition point_valid (p : point_t) : bool := negb (FP.is_nan (x p) || FP.is_nan (y p)).

Definition near (p q : point_t) : bool :=
  FP.lt (SFabs (FP.fsub (x p) (x q))) flt_tolerance && FP.lt (SFabs (FP.fsub (y p) (y q))) flt_tolerance.

Definition equal (p rhs : point_t) : option bool :=
  if point_valid p && point_valid rhs then Some (near p rhs) else None.

Definition get_side_area (l : line_t) (point : point_t) : area_t :=
  let side_offset := FP.fadd (FP.fadd (FP.fmul (a l) (x point)) (FP.fmul (b l) (y point))) (c l) in
  if FP.gt side_offset (FP.dadd FP.zero (FP.dmul flt_tolerance inter_area_width)) then LEFT_SIDE
  else if FP.gt side_offset (FP.dsub FP.zero (FP.dmul flt_tolerance inter_area_width)) then INTER_SIDE
  else RIGHT_SIDE.

Definition separates (l : line_t) (pnt1 pnt2 : point_t) : bool :=
  let side1 := get_side_area l pnt1 in
  let side2 := get_side_area l pnt2 in
  if decide (side1 = INTER_SIDE ∨ side2 = INTER_SIDE) then false else negb (bool_decide (side1 = side2)).

Definition line_valid (l : line_t) : bool := negb (FP.is_nan (a l) || FP.is_nan (b l) || FP.is_nan (c l)).

Definition line_intersect (l another : line_t) : bool :=
  FP.ge (SFabs (FP.fsub (FP.fmul (a l) (b another)) (FP.fmul (a another) (b l)))) flt_tolerance.

Definition point_of_intersect (l another : line_t) : point_t :=
  if negb (line_intersect l another) then no_point
  else
    let det := FP.fsub (FP.fmul (a l) (b another)) (FP.fmul (a another) (b l)) in
    let det1 := FP.fsub (FP.fmul (SFopp (c l)) (b another)) (FP.fmul (SFopp (c another)) (b l)) in
    let det2 := FP.fsub (FP.fmul (a l) (SFopp (c another))) (FP.fmul (a another) (SFopp (c l))) in
    Point (FP.fdiv det1 det) (FP.fdiv det2 det).

Section print.
Variable nan_text : string.

Definition point_print (p : point_t) : string :=
  "(" +:+ Show.show_float nan_text (x p) +:+ " ; " +:+ Show.show_float nan_text (y p) +:+ ")".

Definition line_print (l : line_t) : string :=
  let signb := if FP.gt (b l) FP.zero then "+" else "" in
  let signc := if FP.gt (c l) FP.zero then "+" else "" in
  Show.show_float nan_text (a l) +:+ "x " +:+ signb +:+ Show.show_float nan_text (b l) +:+ "y " +:+
  signc +:+ Show.show_float nan_text (c l) +:+ " = 0".

Definition polygon_print (vertices : polygon_t) : string :=
  "Polygon has " +:+ pretty (length vertices) +:+ " vertices: " +:+
  foldr (λ '(i, v) s, (if decide (i ≠ 0%nat) then ", " else "") +:+ point_print v +:+ s) ""
    (imap pair vertices) +:+ String (Ascii.ascii_of_nat 10) "".
End print.

(** [vertices[i % vertices.size()]] of a [size_t] [i] *)
Definition cyclic (vertices : polygon_t) (i : Z) : option point_t :=
  if decide (vertices = []) then None else vertices !! Z.to_nat (i `mod` Z.of_nat (length vertices)).

Fixpoint square_sums (n i : nat) (vertices : polygon_t) (sum1 sum2 : float) : option (float * float) :=
  match n with
  | O => Some (sum1, sum2)
  | S n =>
    v ← vertices !! i;
    w ← cyclic vertices (Z.of_nat i + 1);
    square_sums n (S i) vertices (FP.fadd sum1 (FP.fmul (x v) (y w))) (FP.fsub sum2 (FP.fmul (x w) (y v)))
  end.

Definition square (vertices : polygon_t) : option float :=
  if (length vertices <? 3)%nat then Some (S754_zero false)
  else
    '(sum1, sum2) ← square_sums (length vertices) 0 vertices (S754_zero false) (S754_zero false);
    let result := FP.to_float (FP.ddiv (FP.to_double (FP.fadd sum1 sum2)) (FP.of_Z 2)) in
    Some (if FP.lt result FP.zero then SFopp result else result).

Definition polygon_valid (vertices : polygon_t) : bool :=
  if decide (vertices = []) then false else forallb point_valid vertices.

Fixpoint holding (vertices : polygon_t) (vert : point_t) : option bool :=
  match vertices with
  | [] => Some false
  | v :: vertices => e ← equal vert v; if (e : bool) then Some true else holding vertices vert
  end.

Definition add (vertices : polygon_t) (vert : point_t) : option polygon_t :=
  h ← holding vertices vert; Some (if (h : bool) then vertices else vertices ++ [vert]).

(** [if (index < 0) index += (1 + (index / vsz)) * vsz;] with the [int] converted to [size_t] *)
Definition fix_index (index : Z) (vsz : Z) : Z :=
  if index <? 0 then i32 (u64 (u64 index + u64 (u64 (1 + u64 index / vsz) * vsz))) else index.

(** [index] and [(index + 1)], an [int] addition, as subscripts *)
Definition side_ends (vertices : polygon_t) (index : Z) : option (point_t * point_t) :=
  if decide (vertices = []) then None
  else
    let index := fix_index index (Z.of_nat (length vertices)) in
    if index =? 2 ^ 31 - 1 then None
    else
      p ← cyclic vertices (u64 index);
      q ← cyclic vertices (u64 (index + 1));
      Some (p, q).

Section geometry.
Variables atan sin : float → float.

Definition line_ctor (p1 p2 : point_t) : line_t :=
  let angle := atan (FP.fdiv (FP.fsub (y p2) (y p1)) (FP.fsub (x p2) (x p1))) in
  let sin_angle := sin angle in
  let cos_angle := FP.to_float (FP.dsqrt (FP.dsub FP.one (FP.to_double (FP.fmul sin_angle sin_angle)))) in
  let normal_vect := Point (SFopp sin_angle) cos_angle in
  Line (x normal_vect) (y normal_vect)
    (SFopp (FP.fadd (FP.fmul (x p1) (x normal_vect)) (FP.fmul (y p1) (y normal_vect)))).

Definition get_side (vertices : polygon_t) (index : Z) : option line_t :=
  '(p, q) ← side_ends vertices index; Some (line_ctor p q).

(** The loop over [j]: no vertex of [another] is in [half_space]. *)
Definition none_in (l : line_t) (half_space : area_t) (another : polygon_t) : bool :=
  forallb (λ vertex, negb (bool_decide (half_space = get_side_area l vertex))) another.

Fixpoint separable_at (n i : nat) (vertices another : polygon_t) : option bool :=
  match n with
  | O => Some false
  | S n =>
    div_line ← get_side vertices (i32 (Z.of_nat i));
    v ← cyclic vertices (Z.of_nat i + 2);
    let half_space := get_side_area div_line v in
    if decide (half_space = INTER_SIDE) then separable_at n (S i) vertices another
    else if none_in div_line half_space another then Some true
    else separable_at n (S i) vertices another
  end.

Definition separable_from (vertices another : polygon_t) : option bool :=
  separable_at (length vertices) 0 vertices another.

Definition side_line_intersect (vertices : polygon_t) (index : Z) (line : line_t) : option point_t :=
  '(p, q) ← side_ends vertices index;
  if negb (separates line p q) then Some no_point
  else
    poly_side ← get_side vertices (fix_index index (Z.of_nat (length vertices)));
    Some (point_of_intersect line poly_side).

Fixpoint cut_at (n i : nat) (vertices : polygon_t) (line : line_t) (side : area_t) (ret : polygon_t) :
    option polygon_t :=
  match n with
  | O => Some ret
  | S n =>
    v ← vertices !! i;
    let vert_side := get_side_area line v in
    ret ← (if decide (side = vert_side ∨ vert_side = INTER_SIDE)
      then (h ← holding ret v; if (h : bool) then Some ret else add ret v) else Some ret);
    pintersect ← side_line_intersect vertices (i32 (Z.of_nat i)) line;
    ret ← (if point_valid pintersect then add ret pintersect else Some ret);
    cut_at n (S i) vertices line side ret
  end.

Definition cut_poly_by_line (vertices : polygon_t) (line : line_t) (half_space_pt : point_t) : option polygon_t :=
  let side := get_side_area line half_space_pt in
  if decide (side = INTER_SIDE) then None else cut_at (length vertices) 0 vertices line side [].

Definition intersect (vertices another : polygon_t) : option bool :=
  s ← separable_from vertices another;
  if (s : bool) then Some false else (s ← separable_from another vertices; Some (negb s)).

Fixpoint cut_by_sides (n i : nat) (vertices another : polygon_t) : option polygon_t :=
  match n with
  | O => Some another
  | S n =>
    side ← get_side vertices (i32 (Z.of_nat i));
    v ← cyclic vertices (Z.of_nat i + 2);
    another ← cut_poly_by_line another side v;
    cut_by_sides n (S i) vertices another
  end.

Definition get_poly_intersection (vertices rhs : polygon_t) : option polygon_t :=
  b ← intersect vertices rhs;
  if negb b then Some [] else cut_by_sides (length vertices) 0 vertices rhs.

(** ** [square.cpp]

    What [std::cin >> temp.x] may meet: a number, after which the stream may be at its
    end, or no number. *)
Inductive extraction := Number (value : float) (at_eof : bool) | NoNumber.

Fixpoint input_vertices (n : nat) (cin : list extraction) : option (polygon_t * list extraction) :=
  match n with
  | O => Some ([], cin)
  | S n =>
    match cin with
    | Number fx false :: Number fy false :: cin =>
      '(verts, cin) ← input_vertices n cin; Some (Point fx fy :: verts, cin)
    | _ => None  (* the stream is not good *)
    end
  end.

Definition input_triangle (cin : list extraction) : option (polygon_t * list extraction) := input_vertices 3 cin.

Definition main (nan_text : string) (cin : list extraction) : option string :=
  '(triangle1, cin) ← input_triangle cin;
  '(triangle2, _) ← input_triangle cin;
  inter ← get_poly_intersection triangle1 triangle2;
  s ← square inter;
  Some (Show.show_float nan_text s +:+ String (Ascii.ascii_of_nat 10) "").
End geometry.

(** ** What the operations compute *)
Lemma i32_small z : - 2 ^ 31 <= z < 2 ^ 31 → i32 z = z.
Proof. unfold i32. intros. rewrite Z.mod_small; lia. Qed.

Section facts.
Implicit Types (p q v w : point_t) (vs vertices another rhs ps : list point_t) (line : line_t).

(** The vertices that [add] leaves out are those near an earlier one. *)
Definition insert_apart vs p : list point_t := if existsb (near p) vs then vs else vs ++ [p].
Definition distinct_points vs : list point_t := foldl insert_apart [] vs.

(** No vertex is near an earlier one. *)
Definition spread vs : Prop :=
  ∀ i j p q, (i < j)%nat → vs !! i = Some p → vs !! j = Some q → near q p = false.

Lemma spread_insert vs p : spread vs → spread (insert_apart vs p).
Proof.
  intros Hs. unfold insert_apart. destruct (existsb (near p) vs) eqn:He; [done|].
  intros i j q r Hij Hi Hj. apply lookup_app_Some in Hj as [Hj|[Hle Hj]].
  - apply (Hs i j q r Hij); [|done]. rewrite lookup_app_l in Hi; [done|]. apply lookup_lt_Some in Hj. lia.
  - apply list_lookup_singleton_Some in Hj as [Hj <-].
    rewrite lookup_app_l in Hi by lia. apply list_elem_of_lookup_2 in Hi.
    destruct (near p q) eqn:Hn; [|done]. rewrite <- He. symmetry. apply existsb_exists.
    exists q. split; [by apply list_elem_of_In|done].
Qed.

Lemma insert_apart_in vs p q : q ∈ insert_apart vs p → q ∈ vs ∨ q = p.
Proof. unfold insert_apart. destruct (existsb _ _); set_solver. Qed.

Lemma insert_apart_keeps vs p q : q ∈ vs → q ∈ insert_apart vs p.
Proof. unfold insert_apart. destruct (existsb _ _); set_solver. Qed.

(** [p] is a vertex or is near one. *)
Definition covered vs p : Prop := p ∈ vs ∨ ∃ q, q ∈ vs ∧ near p q = true.

Lemma insert_apart_covered vs p : covered (insert_apart vs p) p.
Proof.
  unfold insert_apart, covered. destruct (existsb _ _) eqn:He; [right|left; set_solver].
  apply existsb_exists in He as (q & Hq & Hn). exists q. split; [by apply list_elem_of_In|done].
Qed.

Lemma distinct_from vs ps :
  spread ps → let r := foldl insert_apart ps vs in
  spread r ∧ (∀ q, q ∈ r → q ∈ ps ∨ q ∈ vs) ∧ (∀ q, q ∈ ps → q ∈ r) ∧ (∀ q, q ∈ vs → covered r q).
Proof.
  revert ps. induction vs as [|v vs IH]; intros ps Hps; cbn.
  { split_and!; [done|auto|done|]. by intros q Hq%elem_of_nil. }
  destruct (IH (insert_apart ps v) (spread_insert _ _ Hps)) as (H1 & H2 & H3 & H4).
  split_and!; [done|..].
  - intros q [[Hq| ->]%insert_apart_in|Hq]%H2; set_solver.
  - intros q Hq. by apply H3, insert_apart_keeps.
  - intros q [->|Hq]%elem_of_cons; [|by apply H4].
    destruct (insert_apart_covered ps v) as [Hv|(q & Hq & Hn)]; [left; auto|right; eauto].
Qed.

Lemma holding_run vs p :
  point_valid p → Forall point_valid vs → holding vs p = Some (existsb (near p) vs).
Proof.
  intros Hp. induction 1 as [|v vs Hv _ IH]; cbn; [done|].
  unfold equal. rewrite (Is_true_true_1 _ Hp), (Is_true_true_1 _ Hv). cbn.
  by destruct (near p v).
Qed.

Lemma add_run vs p :
  point_valid p → Forall point_valid vs →
  add vs p = Some (insert_apart vs p) ∧ Forall point_valid (insert_apart vs p).
Proof.
  intros Hp Hvs. unfold add, insert_apart. rewrite holding_run by done. cbn.
  split; [done|]. destruct (existsb _ _); [done|]. by apply Forall_app_2; [|constructor].
Qed.

(** ** Sides *)
Lemma cyclic_lookup vs (i : Z) :
  vs ≠ [] → ∃ p, cyclic vs i = Some p ∧ vs !! Z.to_nat (i `mod` Z.of_nat (length vs)) = Some p.
Proof.
  intros Hne. unfold cyclic. rewrite decide_False by done.
  destruct (lookup_lt_is_Some_2 vs (Z.to_nat (i `mod` Z.of_nat (length vs)))) as [p Hp]; [|eauto].
  destruct vs; [done|]. cbn [length] in *.
  pose proof (Z.mod_pos_bound i (Z.of_nat (S (length vs))) ltac:(lia)). lia.
Qed.

Lemma cyclic_small vs (i : nat) : (i < length vs)%nat → cyclic vs (Z.of_nat i) = vs !! i.
Proof.
  intros Hi. unfold cyclic. rewrite decide_False by (intros ->; cbn in *; lia).
  by rewrite Z.mod_small, Nat2Z.id by lia.
Qed.

(** The ends of side [i], for a subscript that is an [int]. *)
Lemma side_ends_run vs (i : nat) p :
  vs !! i = Some p → Z.of_nat (length vs) < 2 ^ 31 →
  ∃ q, side_ends vs (i32 (Z.of_nat i)) = Some (p, q) ∧ cyclic vs (Z.of_nat i + 1) = Some q ∧
    fix_index (i32 (Z.of_nat i)) (Z.of_nat (length vs)) = i32 (Z.of_nat i).
Proof.
  intros Hi Hlen. assert (Hlt := lookup_lt_Some _ _ _ Hi).
  rewrite (i32_small (Z.of_nat i)) by lia. unfold side_ends.
  assert (Hne : vs ≠ []) by (intros ->; by rewrite lookup_nil in Hi).
  rewrite decide_False by done. unfold fix_index. rewrite (proj2 (Z.ltb_ge _ _)) by lia.
  rewrite (proj2 (Z.eqb_neq _ _)) by lia. rewrite !u64_small by (unfold is_u64; lia).
  rewrite cyclic_small, Hi by done. destruct (cyclic_lookup vs (Z.of_nat i + 1) Hne) as (q & Hq & _).
  exists q. cbn. by rewrite Hq.
Qed.

Section geometry.
Variables atan sin : float → float.

Lemma side_line_intersect_run vs (i : nat) p line :
  vs !! i = Some p → Z.of_nat (length vs) < 2 ^ 31 →
  ∃ q, cyclic vs (Z.of_nat i + 1) = Some q ∧ get_side atan sin vs (i32 (Z.of_nat i)) = Some (line_ctor atan sin p q) ∧
    side_line_intersect atan sin vs (i32 (Z.of_nat i)) line =
      Some (if separates line p q then point_of_intersect line (line_ctor atan sin p q) else no_point).
Proof.
  intros Hi Hlen. destruct (side_ends_run vs i p Hi Hlen) as (q & He & Hq & Hf).
  exists q. split; [done|]. unfold side_line_intersect, get_side. rewrite Hf, He. cbn.
  split; [done|]. by destruct (separates line p q).
Qed.

(** *** Clipping

    What a cut keeps, side by side: a vertex on the kept side or near the line, then
    the point where the line crosses the side. *)
Definition crossing line p q : list point_t :=
  let r := point_of_intersect line (line_ctor atan sin p q) in
  if separates line p q && point_valid r then [r] else [].

Definition kept line (side : area_t) p : list point_t :=
  if decide (get_side_area line p = side ∨ get_side_area line p = INTER_SIDE) then [p] else [].

Definition sides vs : list (point_t * point_t) := zip vs (drop 1 vs ++ take 1 vs).

Definition clipping line side vs : list point_t :=
  flat_map (λ '(p, q), kept line side p ++ crossing line p q) (sides vs).

Lemma sides_lookup vs (i : nat) p q :
  vs !! i = Some p → cyclic vs (Z.of_nat i + 1) = Some q → sides vs !! i = Some (p, q).
Proof.
  intros Hi Hq. assert (Hlt := lookup_lt_Some _ _ _ Hi). unfold sides.
  rewrite lookup_zip_with, Hi. cbn. unfold cyclic in Hq.
  rewrite decide_False in Hq by (intros ->; by rewrite lookup_nil in Hi).
  destruct (decide (S i = length vs)) as [He|He].
  - replace (Z.of_nat i + 1) with (Z.of_nat (length vs)) in Hq by lia. rewrite Z_mod_same in Hq by lia.
    rewrite lookup_app_r by (rewrite length_drop; lia). rewrite length_drop.
    replace (i - (length vs - 1))%nat with 0%nat by lia. rewrite lookup_take_lt by lia.
    change (Z.to_nat 0) with 0%nat in Hq. by rewrite Hq.
  - rewrite Z.mod_small in Hq by lia. rewrite lookup_app_l by (rewrite length_drop; lia).
    rewrite lookup_drop. replace (1 + i)%nat with (Z.to_nat (Z.of_nat i + 1)) by lia. by rewrite Hq.
Qed.

Lemma cut_at_run vs line side (n i : nat) ret :
  (i + n = length vs)%nat → Z.of_nat (length vs) < 2 ^ 31 → Forall point_valid vs → Forall point_valid ret →
  let r := foldl insert_apart ret (flat_map (λ '(p, q), kept line side p ++ crossing line p q) (drop i (sides vs))) in
  cut_at atan sin n i vs line side ret = Some r ∧ Forall point_valid r.
Proof.
  revert i ret. induction n as [|n IH]; intros i ret Hn Hlen Hvs Hret; cbn [cut_at].
  { rewrite drop_ge; [done|]. unfold sides. rewrite length_zip_with. lia. }
  destruct (lookup_lt_is_Some_2 vs i) as [p Hp]; [lia|].
  destruct (side_line_intersect_run vs i p line Hp Hlen) as (q & Hq & _ & Hx).
  pose proof (Forall_lookup_1 _ _ _ _ Hvs Hp) as Hpv.
  rewrite Hp. cbn [mbind option_bind].
  rewrite (drop_S (sides vs) (p, q) i) by (by apply sides_lookup). cbn [flat_map].
  rewrite foldl_app. rewrite foldl_app.
  assert (Hk : Forall point_valid (foldl insert_apart ret (kept line side p)) ∧
    (if decide (side = get_side_area line p ∨ get_side_area line p = INTER_SIDE)
      then (h ← holding ret p; if (h : bool) then Some ret else add ret p) else Some ret) =
    Some (foldl insert_apart ret (kept line side p))).
  { unfold kept. generalize (get_side_area line p) as A. intros A.
    destruct (decide (A = side ∨ A = INTER_SIDE)) as [Hd|Hd].
    - rewrite decide_True by (destruct Hd; auto). cbn. destruct (add_run ret p Hpv Hret) as [Ha Hb].
      split; [done|]. rewrite holding_run by done. cbn. rewrite <- Ha. unfold add.
      rewrite holding_run by done. cbn. by destruct (existsb _ _).
    - rewrite decide_False by (intros [?|?]; apply Hd; auto). done. }
  destruct Hk as [Hret1 ->]. cbn [mbind option_bind]. rewrite Hx. cbn [mbind option_bind].
  set (ret1 := foldl insert_apart ret (kept line side p)) in *.
  assert (Hc : Forall point_valid (foldl insert_apart ret1 (crossing line p q)) ∧
    (let pintersect := if separates line p q then point_of_intersect line (line_ctor atan sin p q) else no_point in
     if point_valid pintersect then add ret1 pintersect else Some ret1) =
    Some (foldl insert_apart ret1 (crossing line p q))).
  { unfold crossing. destruct (separates line p q); cbn [andb]; [|done].
    destruct (point_valid _) eqn:Hv; [|done]. cbn.
    destruct (add_run ret1 _ (Is_true_true_2 _ Hv) Hret1) as [Ha Hb]. split; [exact Hb|exact Ha]. }
  destruct Hc as [Hret2 Hc]. cbv zeta in Hc. rewrite Hc. cbn [mbind option_bind].
  apply IH; [lia|done..].
Qed.

Lemma cut_run vs line h :
  Z.of_nat (length vs) < 2 ^ 31 → Forall point_valid vs → get_side_area line h ≠ INTER_SIDE →
  let r := distinct_points (clipping line (get_side_area line h) vs) in
  cut_poly_by_line atan sin vs line h = Some r ∧ Forall point_valid r.
Proof.
  intros Hlen Hvs Hside. unfold cut_poly_by_line. rewrite decide_False by done.
  by apply (cut_at_run vs line (get_side_area line h) (length vs) 0 []).
Qed.

(** *** Separation and intersection *)

(** Side [i] has the next vertex but one strictly on one side, and no vertex of
    [another] there. *)
Definition side_separates vs another (i : nat) : Prop :=
  ∃ p q v, vs !! i = Some p ∧ cyclic vs (Z.of_nat i + 1) = Some q ∧ cyclic vs (Z.of_nat i + 2) = Some v ∧
    let l := line_ctor atan sin p q in
    get_side_area l v ≠ INTER_SIDE ∧ ∀ w, w ∈ another → get_side_area l w ≠ get_side_area l v.

Lemma none_in_spec l side vs :
  none_in l side vs = true ↔ ∀ w, w ∈ vs → get_side_area l w ≠ side.
Proof.
  unfold none_in. rewrite forallb_forall. split; intros H w Hw.
  - specialize (H w (proj1 (list_elem_of_In _ _) Hw)). apply negb_true_iff, bool_decide_eq_false in H. congruence.
  - apply negb_true_iff, bool_decide_eq_false. apply list_elem_of_In in Hw. apply H in Hw. congruence.
Qed.

Lemma separable_at_run vs another (n i : nat) :
  (i + n = length vs)%nat → Z.of_nat (length vs) < 2 ^ 31 →
  ∃ b, separable_at atan sin n i vs another = Some b ∧
    (b = true ↔ ∃ j, (i ≤ j)%nat ∧ side_separates vs another j).
Proof.
  revert i. induction n as [|n IH]; intros i Hn Hlen; cbn [separable_at].
  { exists false. split; [done|]. split; [done|]. intros (j & Hj & p & q & v & Hp & _).
    apply lookup_lt_Some in Hp. lia. }
  destruct (lookup_lt_is_Some_2 vs i) as [p Hp]; [lia|].
  destruct (side_line_intersect_run vs i p (line_ctor atan sin p p) Hp Hlen) as (q & Hq & -> & _). cbn [mbind option_bind].
  destruct (cyclic_lookup vs (Z.of_nat i + 2)) as (v & Hv & _); [by intros ->|]. rewrite Hv. cbn [mbind option_bind].
  destruct (IH (S i)) as (b & Hb & Hiff); [lia|done|].
  assert (Hskip : ¬ side_separates vs another i → (∃ j, (i ≤ j)%nat ∧ side_separates vs another j) ↔
    ∃ j, (S i ≤ j)%nat ∧ side_separates vs another j).
  { intros Hno. split; intros (j & Hj & Hs); exists j; (split; [|done]); [|lia].
    destruct (decide (i = j)) as [->|?]; [done|lia]. }
  assert (Hsep : side_separates vs another i ↔ get_side_area (line_ctor atan sin p q) v ≠ INTER_SIDE ∧
    none_in (line_ctor atan sin p q) (get_side_area (line_ctor atan sin p q) v) another = true).
  { rewrite none_in_spec. split.
    - intros (p' & q' & v' & Hp' & Hq' & Hv' & H). simplify_eq. done.
    - intros H. by exists p, q, v. }
  destruct (decide (_ = INTER_SIDE)) as [He|He].
  - exists b. split; [done|]. rewrite Hiff, Hskip; [done|]. rewrite Hsep. intros [Hni _]. exact (Hni He).
  - destruct (none_in _ _ another) eqn:Hni.
    + exists true. split; [done|]. split; [|done]. intros _. exists i. split; [lia|]. by apply Hsep.
    + exists b. split; [done|]. rewrite Hiff, Hskip; [done|]. rewrite Hsep. intros [_ Hni2]. discriminate Hni2.
Qed.

Lemma separable_run vs another :
  Z.of_nat (length vs) < 2 ^ 31 →
  ∃ b, separable_from atan sin vs another = Some b ∧ (b = true ↔ ∃ j, side_separates vs another j).
Proof.
  intros Hlen. destruct (separable_at_run vs another (length vs) 0) as (b & Hb & Hiff); [done|done|].
  exists b. split; [done|]. rewrite Hiff. split; intros (j & Hj); [naive_solver|]. exists j. split; [lia|done].
Qed.

(** No side of [vs] passes through the next vertex but one. *)
Definition strict vs : Prop := ∀ (i : nat) p q v,
  vs !! i = Some p → cyclic vs (Z.of_nat i + 1) = Some q → cyclic vs (Z.of_nat i + 2) = Some v →
  get_side_area (line_ctor atan sin p q) v ≠ INTER_SIDE.

Lemma length_insert_apart vs ps : (length (foldl insert_apart ps vs) ≤ length ps + length vs)%nat.
Proof.
  revert ps. induction vs as [|v vs IH]; intros ps; cbn [foldl length]; [lia|].
  specialize (IH (insert_apart ps v)).
  assert (length (insert_apart ps v) ≤ S (length ps))%nat; [|lia].
  unfold insert_apart. destruct (existsb _ _); [lia|]. rewrite length_app. cbn. lia.
Qed.

Lemma length_clipping line side vs : (length (clipping line side vs) ≤ 2 * length vs)%nat.
Proof.
  unfold clipping. assert (Hs : length (sides vs) = length vs).
  { unfold sides. rewrite length_zip_with, length_app, length_drop, length_take.
    destruct vs; cbn [length]; lia. }
  rewrite <- Hs. clear Hs. induction (sides vs) as [|[p q] l IH]; cbn [flat_map length]; [lia|].
  rewrite !length_app.
  assert (length (kept line side p) ≤ 1)%nat by (unfold kept; destruct (decide _); cbn; lia).
  assert (length (crossing line p q) ≤ 1)%nat by (unfold crossing; destruct (_ && _); cbn; lia).
  lia.
Qed.

Lemma cut_by_sides_run vs another (n i : nat) :
  (i + n = length vs)%nat → Z.of_nat (length vs) < 2 ^ 31 → strict vs →
  Z.of_nat (length another) * 2 ^ Z.of_nat n < 2 ^ 31 → Forall point_valid another →
  ∃ r, cut_by_sides atan sin n i vs another = Some r ∧ Forall point_valid r ∧ (n = 0%nat ∨ spread r).
Proof.
  revert i another. induction n as [|n IH]; intros i another Hn Hlen Hstrict Hsmall Hval; cbn [cut_by_sides].
  { exists another. auto. }
  destruct (lookup_lt_is_Some_2 vs i) as [p Hp]; [lia|].
  destruct (side_line_intersect_run vs i p (line_ctor atan sin p p) Hp Hlen) as (q & Hq & -> & _). cbn [mbind option_bind].
  destruct (cyclic_lookup vs (Z.of_nat i + 2)) as (v & Hv & _); [by intros ->|]. rewrite Hv. cbn [mbind option_bind].
  rewrite Nat2Z.inj_succ, Z.pow_succ_r in Hsmall by lia.
  assert (Hpow : 1 <= 2 ^ Z.of_nat n) by (change 1 with (2 ^ 0); apply Z.pow_le_mono_r; lia).
  destruct (cut_run another (line_ctor atan sin p q) v) as [-> Hv1]; [nia|done|by eapply Hstrict|]. cbn [mbind option_bind].
  set (next := distinct_points _) in *.
  destruct (IH (S i) next) as (r & Hr & Hrv & Hor); [lia|done|done| |done|].
  { pose proof (length_insert_apart (clipping (line_ctor atan sin p q) (get_side_area (line_ctor atan sin p q) v) another) []) as H1.
    pose proof (length_clipping (line_ctor atan sin p q) (get_side_area (line_ctor atan sin p q) v) another) as H2.
    fold (distinct_points (clipping (line_ctor atan sin p q) (get_side_area (line_ctor atan sin p q) v) another)) in H1.
    fold next in H1. cbn [length] in H1. nia. }
  exists r. split; [done|]. split; [done|]. right. destruct Hor as [->|]; [|done].
  cbn [cut_by_sides] in Hr. injection Hr as <-. by apply (distinct_from _ []).
Qed.

Lemma intersection_run vs rhs :
  vs ≠ [] → Z.of_nat (length vs) < 2 ^ 31 → Z.of_nat (length rhs) * 2 ^ Z.of_nat (length vs) < 2 ^ 31 →
  strict vs → Forall point_valid rhs →
  ∃ r, get_poly_intersection atan sin vs rhs = Some r ∧ Forall point_valid r ∧ spread r ∧
    ((∃ j, side_separates vs rhs j) ∨ (∃ j, side_separates rhs vs j) → r = []).
Proof.
  intros Hne Hlen Hsmall Hstrict Hval. unfold get_poly_intersection, intersect.
  assert (Hrhs : Z.of_nat (length rhs) < 2 ^ 31).
  { assert (1 <= 2 ^ Z.of_nat (length vs)) by (change 1 with (2 ^ 0); apply Z.pow_le_mono_r; lia). nia. }
  assert (Hempty : spread []) by (intros i j p q _ Hi; by rewrite lookup_nil in Hi).
  destruct (separable_run vs rhs Hlen) as (b1 & -> & H1). cbn [mbind option_bind].
  destruct b1; cbn [negb].
  { exists []. cbn. auto. }
  destruct (separable_run rhs vs Hrhs) as (b2 & -> & H2). cbn [mbind option_bind].
  destruct b2; cbn [negb mbind option_bind].
  { exists []. auto. }
  destruct (cut_by_sides_run vs rhs (length vs) 0) as (r & Hr & Hrv & Hor); [done..|].
  exists r. split; [done|]. split; [done|]. split.
  - destruct Hor as [H0|]; [|done]. destruct vs; [done|]. cbn in H0. lia.
  - intros [Hj|Hj]; [apply H1 in Hj|apply H2 in Hj]; done.
Qed.
End geometry.

(** *** Area *)
Lemma square_sums_run (n i : nat) vs s1 s2 :
  (i + n = length vs)%nat → is_Some (square_sums n i vs s1 s2).
Proof.
  revert i s1 s2. induction n as [|n IH]; intros i s1 s2 Hn; cbn [square_sums]; [done|].
  destruct (lookup_lt_is_Some_2 vs i) as [p Hp]; [lia|]. rewrite Hp. cbn [mbind option_bind].
  destruct (cyclic_lookup vs (Z.of_nat i + 1)) as (q & Hq & _); [by intros ->|]. rewrite Hq. cbn [mbind option_bind].
  apply IH. lia.
Qed.

Lemma binary_round_nonneg prec emax m e : SFltb (binary_round prec emax false m e) FP.zero = false.
Proof.
  unfold binary_round. destruct (shl_align _ _ _) as [mz ez]. unfold binary_round_aux.
  destruct (shr_fexp _ _ _ _ _) as [mrs' e']. destruct (shr_fexp _ _ _ _ _) as [mrs'' e''].
  destruct (shr_m mrs''); [done| |done]. by destruct (Z.leb _ _).
Qed.

Lemma to_double_opp_nonneg r : FP.lt r FP.zero = true → FP.lt (SFopp r) FP.zero = false.
Proof.
  unfold FP.lt, FP.to_double, FP.convert. destruct r as [s|s| |s m e]; [by destruct s|by destruct s|done|].
  destruct s; cbn [SFopp negb cond_Zopp Z.opp binary_normalize].
  - intros _. apply binary_round_nonneg.
  - by rewrite binary_round_nonneg.
Qed.

(** The area is a number that is not negative, or not a number. *)
Lemma square_nonneg vs : ∃ r, square vs = Some r ∧ FP.lt r FP.zero = false.
Proof.
  unfold square. destruct (length vs <? 3)%nat; [by eexists|].
  destruct (square_sums_run (length vs) 0 vs (S754_zero false) (S754_zero false)) as [[s1 s2] ->]; [done|].
  cbn [mbind option_bind]. eexists. split; [done|].
  generalize (FP.to_float (FP.ddiv (FP.to_double (FP.fadd s1 s2)) (FP.of_Z 2))) as r. intros r.
  destruct (FP.lt r FP.zero) eqn:Hlt; [by apply to_double_opp_nonneg|done].
Qed.
End facts.

(** ** Properties *)

(** Cutting a polygon by a line: going round the sides, the vertices on the side of the given
    point or near the line and what [point_of_intersect] gives for the sides whose ends the
    line separates, less those near an earlier one. No vertex is near an earlier one and no
    vertex is a NaN; no assertion fails. Where a computed point of intersection lies is not
    stated: [point_example] evaluates one. *)
Lemma cut_is_clipping (atan sin : float → float) (vs : list point_t) (line : line_t) (h : point_t) :
  Z.of_nat (length vs) < 2 ^ 31 → Forall point_valid vs → get_side_area line h ≠ INTER_SIDE →
  ∃ r, cut_poly_by_line atan sin vs line h = Some r ∧
    r = distinct_points (clipping atan sin line (get_side_area line h) vs) ∧
    Forall point_valid r ∧ spread r ∧
    (∀ q, q ∈ r → q ∈ clipping atan sin line (get_side_area line h) vs) ∧
    (∀ q, q ∈ clipping atan sin line (get_side_area line h) vs → covered r q).
Proof.
  intros Hlen Hvs Hh. destruct (cut_run atan sin vs line h Hlen Hvs Hh) as [Hr Hv].
  eexists. split; [exact Hr|]. split; [done|]. split; [done|].
  destruct (distinct_from (clipping atan sin line (get_side_area line h) vs) []) as (H1 & H2 & _ & H4).
  { intros i j p q _ Hi. by rewrite lookup_nil in Hi. }
  split; [done|]. split; [|done]. intros q Hq. destruct (H2 q Hq) as [Hn|Hc]; [destruct (not_elem_of_nil q Hn)|exact Hc].
Qed.

(** C28: the intersection of a polygon with another is always computed when no side of
    the first is degenerate: no assertion fails, the result has no NaN and no two near
    vertices, and it is empty when a side of one of them separates the two. *)
Theorem intersection_is_defined (atan sin : float → float) (vs rhs : list point_t) :
  vs ≠ [] → Z.of_nat (length vs) < 2 ^ 31 → Z.of_nat (length rhs) * 2 ^ Z.of_nat (length vs) < 2 ^ 31 →
  strict atan sin vs → Forall point_valid rhs →
  ∃ r, get_poly_intersection atan sin vs rhs = Some r ∧ Forall point_valid r ∧ spread r ∧
    ((∃ j, side_separates atan sin vs rhs j) ∨ (∃ j, side_separates atan sin rhs vs j) → r = []).
Proof. apply intersection_run. Qed.

(** A negative side number is reduced with unsigned arithmetic: side -1 of a
    triangle is the side after the first one, not the last one. *)
Theorem side_minus_one_of_triangle (atan sin : float → float) (p q r : point_t) :
  get_side atan sin [p; q; r] (-1) = Some (line_ctor atan sin q r) ∧
  get_side atan sin [p; q; r] 2 = Some (line_ctor atan sin r p).
Proof. done. Qed.

(** ** The test of the repository

    Its triangles have sides in the eight main directions: of the arc tangent and the
    sine only a few values matter. *)
Definition of_Z32 (z : Z) : float := binary_normalize 24 128 z 0 false.
Definition quarter_pi : float := S754_finite false 13176795 (-24).
Definition half_pi : float := S754_finite false 13176795 (-23).
Definition half_sqrt2 : float := S754_finite false 11863283 (-24).

Definition with_sign (s : bool) (x : float) : float := if s then SFopp x else x.
Definition main_atan (x : float) : float :=
  match x with
  | S754_infinity s => with_sign s half_pi
  | S754_finite s _ _ => with_sign s quarter_pi
  | x => x
  end.
Definition main_sin (x : float) : float :=
  if SFeqb x half_pi then of_Z32 1 else if SFeqb x (SFopp half_pi) then of_Z32 (-1)
  else if SFeqb x quarter_pi then half_sqrt2 else if SFeqb x (SFopp quarter_pi) then SFopp half_sqrt2 else x.

Definition number (z : Z) : extraction := Number (of_Z32 z) false.

(** [001.dat] *)
Definition test_001 : list extraction :=
  number <$> [0; 0; 0; 1; 1; 0; 0; 0; 1; 1; 1; 0].

(** [x - 2 = 0] and [x + y - 8 = 0] *)
Example point_example :
  point_of_intersect (Line (of_Z32 1) (of_Z32 0) (of_Z32 (-2))) (Line (of_Z32 1) (of_Z32 1) (of_Z32 (-8))) = Point (of_Z32 2) (of_Z32 6).
Proof. vm_compute. reflexivity. Qed.

Definition newline : string := String (Ascii.ascii_of_nat 10) "".

Example triangles_001 : main main_atan main_sin "nan" test_001 = Some ("0.25" +:+ newline).
Proof. vm_compute. reflexivity. Qed.

(** Without a line end after the last number the stream is at its end, not good. *)
Example triangles_001_no_newline :
  main main_atan main_sin "nan" (take 11 test_001 ++ [Number (of_Z32 0) true]) = None.
Proof. vm_compute. reflexivity. Qed.

Definition triangle1 : list point_t :=
  [Point (of_Z32 0) (of_Z32 0); Point (of_Z32 0) (of_Z32 1); Point (of_Z32 1) (of_Z32 0)].
Definition triangle2 : list point_t :=
  [Point (of_Z32 0) (of_Z32 0); Point (of_Z32 1) (of_Z32 1); Point (of_Z32 1) (of_Z32 0)].

Lemma triangle1_strict : strict main_atan main_sin triangle1.
Proof.
  intros i p q v Hp Hq Hv. destruct i as [|[|[|i]]]; [..|done]; vm_compute in Hp, Hq, Hv; simplify_eq;
    vm_compute; discriminate.
Qed.

Lemma intersection_is_defined_witness :
  ∃ r, get_poly_intersection main_atan main_sin triangle1 triangle2 = Some r ∧ Forall point_valid r ∧ spread r ∧
    ((∃ j, side_separates main_atan main_sin triangle1 triangle2 j) ∨
     (∃ j, side_separates main_atan main_sin triangle2 triangle1 j) → r = []).
Proof.
  apply (intersection_is_defined main_atan main_sin triangle1 triangle2).
  - done.
  - done.
  - done.
  - exact triangle1_strict.
  - by repeat constructor.
Defined.
