(* ===== verification/Matrix.v ===== *)
(** * Multiplying matrices: [src/14-iterators/matrix_repro.cc] and [src/archive/interesting/matrix_repro.cc]

    Three multiplications through a transposed copy, on row-major arrays of [int]. Signed
    overflow and a subscript out of a vector are undefined. *)

From S2P Require Import Prelude CInt.

(** [std::vector<int>]: subscripts and sizes are [int]s converted to [size_t]. *)
Definition elem (m : list Z) (i : Z) : E Z := if 0 <=? i then checked (m !! Z.to_nat i) else None.
Definition set_elem (m : list Z) (i v : Z) : E (list Z) :=
  _ ← elem m i; mret (<[Z.to_nat i := v]> m).
Definition resize (m : list Z) (n : Z) : E (list Z) :=
  if n <? 0 then raise length_error
  else mret (take (Z.to_nat n) m ++ replicate (Z.to_nat n - length m) 0).

(** ** [Matrix<int>] *)
Record Matrix := mkMatrix { lines_ : Z; columns_ : Z; matrix_ : list Z }.

Definition Matrix_ctor (lines columns : Z) : E Matrix :=
  n ← int (lines * columns); m ← resize [] n; mret (mkMatrix lines columns m).

(** [x * columns_ + y] *)
Definition index (x columns y : Z) : E Z := p ← int (x * columns); int (p + y).
Definition at_ (m : Matrix) (x y : Z) : E Z := i ← index x (columns_ m) y; elem (matrix_ m) i.
Definition set_at (m : Matrix) (x y v : Z) : E Matrix :=
  i ← index x (columns_ m) y; d ← set_elem (matrix_ m) i v; mret (mkMatrix (lines_ m) (columns_ m) d).

Definition resizeto (m : Matrix) (lines columns : Z) : E Matrix :=
  n ← int (lines * columns); d ← resize (matrix_ m) n; mret (mkMatrix lines columns d).

(** [std::cin >> x] with the exceptions of [failbit] on: the numbers still to be read. *)
Definition read_int (cin : list Z) : E (Z * list Z) :=
  match cin with
  | v :: cin => if (- 2 ^ 31 <=? v) && (v <? 2 ^ 31) then mret (v, cin) else raise (runtime_error "basic_ios::clear")
  | [] => raise (runtime_error "basic_ios::clear")
  end.

Definition readMatrix (m : Matrix) (cin : list Z) : E (Matrix * list Z) :=
  '(lines, cin) ← read_int cin;
  '(columns, cin) ← read_int cin;
  m ← resizeto m lines columns;
  for_ (Z.to_nat lines) 0 (λ i '(m, cin), for_ (Z.to_nat columns) 0 (λ j '(m, cin),
    '(v, cin) ← read_int cin; m ← set_at m i j v; mret (m, cin)) (m, cin)) (m, cin).

(** ** The loops of a multiplication

    The three functions differ in how they reach the elements: [a i k], [b i j] and the
    subscripts of [C] are the expressions of each. *)
Section mult.
Variables AX AY BY : Z.
Variables a b ci : Z → Z → E Z.

Definition transpose : E (list Z) :=
  n ← int (BY * AY);
  tmp ← resize [] n;
  for_ (Z.to_nat AY) 0 (λ i tmp, for_ (Z.to_nat BY) 0 (λ j tmp,
    v ← b i j; t ← index j AY i; set_elem tmp t v) tmp) tmp.

(** [C[i, j] += a(i, k) * tmp[j * AY + k]] *)
Definition accumulate (tmp : list Z) (i j k : Z) (C : list Z) : E (list Z) :=
  c ← ci i j;
  x ← a i k; t ← index j AY k; y ← elem tmp t; p ← int (x * y);
  s ← elem C c; s ← int (s + p); set_elem C c s.

Definition mult (C : list Z) : E (list Z) :=
  tmp ← transpose;
  for_ (Z.to_nat AX) 0 (λ i C, for_ (Z.to_nat BY) 0 (λ j C,
    c ← ci i j; C ← set_elem C c 0;
    for_ (Z.to_nat AY) 0 (λ k C, accumulate tmp i j k C) C) C) C.
End mult.

(** ** The version of [14-iterators] *)
Module Repro.
Definition cpp_transpose_mult (a b c : Matrix) : E Matrix :=
  let AX := lines_ a in let AY := columns_ a in let BY := columns_ b in
  require (AX =? lines_ b);;
  d ← mult AX AY BY (at_ a) (at_ b) (λ i j, index i (columns_ c) j) (matrix_ c);
  mret (mkMatrix (lines_ c) (columns_ c) d).

Definition iter_transpose_mult (A B C : list Z) (AX AY BY : Z) : E (list Z) :=
  require ((0 <? AX) && (0 <? AY) && (0 <? BY));;
  mult AX AY BY (λ i k, t ← index i AY k; elem A t) (λ i j, t ← index i BY j; elem B t) (λ i j, index i BY j) C.

(** The program: the results of the two multiplications (the times are not modelled) and
    the places where they differ. *)
Definition divergences (x y : Z) (C D : Matrix) : E (list (Z * Z)) :=
  for_ (Z.to_nat x) 0 (λ i out, for_ (Z.to_nat y) 0 (λ j out,
    c ← at_ C i j; d ← at_ D i j; mret (if c =? d then out else out ++ [(i, j)])) out) [].

Definition main (cin : list Z) : E (list (Z * Z)) :=
  A ← Matrix_ctor 0 0; B ← Matrix_ctor 0 0; C ← Matrix_ctor 0 0; D ← Matrix_ctor 0 0;
  '(A, cin) ← readMatrix A cin;
  '(B, cin) ← readMatrix B cin;
  C ← resizeto C (lines_ A) (columns_ A);
  D ← resizeto D (lines_ A) (columns_ A);
  C ← cpp_transpose_mult A B C;
  d ← iter_transpose_mult (matrix_ A) (matrix_ B) (matrix_ D) (lines_ A) (columns_ A) (columns_ B);
  divergences (lines_ A) (columns_ A) C (mkMatrix (lines_ D) (columns_ D) d).
End Repro.

(** ** The version of the archive *)
Module Archive.
Definition c_transpose_mult (A B C : list Z) (AX AY BY : Z) : E (list Z) :=
  require ((0 <? AX) && (0 <? AY) && (0 <? BY));;
  mult AX AY BY (λ i k, t ← index i AY k; elem A t) (λ i j, t ← index i BY j; elem B t) (λ i j, index i BY j) C.

(** [tmp] is a matrix of [BY] lines and [AY] columns here, whose elements [at_] finds at
    the same subscripts. *)
Definition cpp_transpose_mult (a b c : Matrix) : E Matrix :=
  let AX := lines_ a in let AY := columns_ a in let BY := columns_ b in
  require (AX =? lines_ b);;
  d ← mult AX AY BY (at_ a) (at_ b) (λ i j, index i (columns_ c) j) (matrix_ c);
  mret (mkMatrix (lines_ c) (columns_ c) d).

Definition main (cin : list Z) : E (list (Z * Z)) :=
  A ← Matrix_ctor 0 0; B ← Matrix_ctor 0 0; C ← Matrix_ctor 0 0; D ← Matrix_ctor 0 0;
  '(A, cin) ← readMatrix A cin;
  '(B, cin) ← readMatrix B cin;
  C ← resizeto C (lines_ A) (columns_ A);
  D ← resizeto D (lines_ A) (columns_ A);
  d ← c_transpose_mult (matrix_ A) (matrix_ B) (matrix_ C) (lines_ A) (columns_ A) (columns_ B);
  D ← cpp_transpose_mult A B D;
  Repro.divergences (lines_ A) (columns_ A) (mkMatrix (lines_ C) (columns_ C) d) D.
End Archive.

Example main_2 : Repro.main [2; 2; 1; 2; 3; 4; 2; 2; 5; 6; 7; 8] = Some (Ok []).
Proof. vm_compute. reflexivity. Qed.

(** Two lines of three times three of two: the assertion of the inner dimension is wrong. *)
Example main_assert : Repro.main [2; 3; 1; 2; 3; 4; 5; 6; 3; 2; 1; 2; 3; 4; 5; 6] = None.
Proof. vm_compute. reflexivity. Qed.

(** A square matrix times a wider one: the results have no room. *)
Example main_overflow : Repro.main [2; 2; 1; 2; 3; 4; 2; 3; 1; 2; 3; 4; 5; 6] = None.
Proof. vm_compute. reflexivity. Qed.

(** ** The product *)
(** [m] has [h] lines of [w] elements, and is [f] on the positions [D]. *)
Definition grid (m : list Z) (h w : Z) (f : Z → Z → Z) (D : Z → Z → Prop) : Prop :=
  length m = Z.to_nat (h * w) ∧
  ∀ x y, 0 <= x < h → 0 <= y < w → D x y → m !! Z.to_nat (x * w + y) = Some (f x y).

Lemma cell_lt h w x y : 0 <= x < h → 0 <= y < w → 0 <= x * w /\ 0 <= x * w + y < h * w.
Proof. nia. Qed.

Lemma cell_inj w x y x' y' : 0 <= y < w → 0 <= y' < w → x * w + y = x' * w + y' → x = x' ∧ y = y'.
Proof. intros. assert (x = x') by nia. subst. lia. Qed.

Lemma index_run h w x y : 0 <= x < h → 0 <= y < w → h * w < 2 ^ 31 → index x w y = Some (Ok (x * w + y)).
Proof.
  intros Hx Hy Hs. pose proof (cell_lt h w x y Hx Hy). unfold index, is_int in *.
  rewrite (E_bind_Ok _ _ _ (int_ok (x * w) ltac:(unfold is_int; lia))).
  apply int_ok. unfold is_int. lia.
Qed.

Lemma elem_run m i v : 0 <= i → m !! Z.to_nat i = Some v → elem m i = Some (Ok v).
Proof. unfold elem. intros Hi Hv. rewrite (proj2 (Z.leb_le _ _) Hi), Hv. done. Qed.

Lemma grid_set m h w f D x y v :
  grid m h w f D → 0 <= x < h → 0 <= y < w → (∀ x' y', D x' y' → x' ≠ x ∨ y' ≠ y) →
  ∃ m', set_elem m (x * w + y) v = Some (Ok m') ∧ m' !! Z.to_nat (x * w + y) = Some v ∧ grid m' h w f D.
Proof.
  intros [Hlen Hf] Hx Hy HD. pose proof (cell_lt h w x y Hx Hy) as Hlt.
  assert (Hin : (Z.to_nat (x * w + y) < length m)%nat) by lia.
  destruct (lookup_lt_is_Some_2 _ _ Hin) as [u Hu].
  exists (<[Z.to_nat (x * w + y) := v]> m). split; [|split; [|split]].
  - unfold set_elem. by rewrite (E_bind_Ok _ _ _ (elem_run m (x * w + y) u ltac:(lia) Hu)).
  - by apply list_lookup_insert_eq.
  - by rewrite length_insert.
  - intros x' y' Hx' Hy' H'. rewrite list_lookup_insert_ne; [by apply Hf|].
    intros Heq. pose proof (cell_lt h w x' y' Hx' Hy').
    destruct (cell_inj w x y x' y' Hy Hy' ltac:(lia)). destruct (HD x' y' H'); congruence.
Qed.

Lemma grid_more m h w f (D D' : Z → Z → Prop) :
  grid m h w f D →
  (∀ x y, 0 <= x < h → 0 <= y < w → D' x y → D x y ∨ m !! Z.to_nat (x * w + y) = Some (f x y)) →
  grid m h w f D'.
Proof. intros [Hlen Hf] HD. split; [done|]. intros x y Hx Hy H'. destruct (HD x y Hx Hy H'); auto. Qed.

(** Line by line, the positions before [(i, j)]; column by column, those of the transpose. *)
Definition before (i j x y : Z) : Prop := x < i ∨ x = i ∧ y < j.

Section product.
Variables AX AY BY : Z.
Variables a b ci : Z → Z → E Z.
Variables fa fb : Z → Z → Z.
Hypothesis sizes : 0 <= AX ∧ 0 <= AY ∧ 0 <= BY ∧ AX * AY < 2 ^ 31 ∧ AY * BY < 2 ^ 31 ∧ AX * BY < 2 ^ 31.
Hypothesis a_is : ∀ i k, 0 <= i < AX → 0 <= k < AY → a i k = Some (Ok (fa i k)).
Hypothesis b_is : ∀ k j, 0 <= k < AY → 0 <= j < BY → b k j = Some (Ok (fb k j)).
Hypothesis c_is : ∀ i j, 0 <= i < AX → 0 <= j < BY → ci i j = Some (Ok (i * BY + j)).

(** The sum of the first [n] products of line [i] and column [j]. *)
Fixpoint dot (n : nat) (i j : Z) : Z :=
  match n with O => 0 | S n => dot n i j + fa i (Z.of_nat n) * fb (Z.of_nat n) j end.

Hypothesis fits : ∀ i j k, 0 <= i < AX → 0 <= j < BY → 0 <= k < AY →
  is_int (fa i k * fb k j) ∧ is_int (dot (S (Z.to_nat k)) i j).

Definition transposed (x y : Z) : Z := fb y x.

Lemma transpose_run : ∃ tmp, transpose AY BY b = Some (Ok tmp) ∧ grid tmp BY AY transposed (λ _ _, True).
Proof.
  unfold transpose.
  rewrite (E_bind_Ok _ _ _ (int_ok (BY * AY) ltac:(unfold is_int; nia))).
  assert (Hr : resize [] (BY * AY) = Some (Ok (replicate (Z.to_nat (BY * AY)) 0))).
  { unfold resize. rewrite (proj2 (Z.ltb_ge _ _)) by nia. by rewrite Nat.sub_0_r, take_nil. }
  rewrite (E_bind_Ok _ _ _ Hr).
  destruct (for_run (λ i tmp, grid tmp BY AY transposed (λ x y, y < i))
    (λ i tmp, for_ (Z.to_nat BY) 0 (λ j tmp, v ← b i j; t ← index j AY i; set_elem tmp t v) tmp)
    (Z.to_nat AY) 0 (replicate (Z.to_nat (BY * AY)) 0)) as (tmp & Hrun & Hg).
  - split; [by rewrite length_replicate|]. lia.
  - intros i tmp Hi Hg.
    destruct (for_run (λ j tmp, grid tmp BY AY transposed (λ x y, before i j y x))
      (λ j tmp, v ← b i j; t ← index j AY i; set_elem tmp t v) (Z.to_nat BY) 0 tmp) as (tmp' & Hrun & Hg').
    + eapply grid_more; [exact Hg|]. unfold before. intros. left. lia.
    + intros j t1 Hj Hg1.
      destruct (grid_set t1 BY AY transposed _ j i (fb i j) Hg1 ltac:(lia) ltac:(lia)) as (t2 & Hset & Hat & Hg2).
      { unfold before. intros. lia. }
      exists t2. split.
      * rewrite (E_bind_Ok _ _ _ (b_is i j ltac:(lia) ltac:(lia))).
        by rewrite (E_bind_Ok _ _ _ (index_run BY AY j i ltac:(lia) ltac:(lia) ltac:(nia))).
      * eapply grid_more; [exact Hg2|]. unfold before. intros x y _ _ Hxy.
        destruct (decide (x = j ∧ y = i)) as [[-> ->]|]; [by right|left; lia].
    + exists tmp'. split; [exact Hrun|]. eapply grid_more; [exact Hg'|].
      unfold before. intros. left. lia.
  - exists tmp. split; [exact Hrun|]. eapply grid_more; [exact Hg|]. intros. left. lia.
Qed.

Lemma accumulate_run (tmp m : list Z) (i j k : Z) (D : Z → Z → Prop) f :
  grid tmp BY AY transposed (λ _ _, True) → grid m AX BY f D → (∀ x y, D x y → x ≠ i ∨ y ≠ j) →
  0 <= i < AX → 0 <= j < BY → 0 <= k < AY →
  m !! Z.to_nat (i * BY + j) = Some (dot (Z.to_nat k) i j) →
  ∃ m', accumulate AY a ci tmp i j k m = Some (Ok m') ∧ grid m' AX BY f D ∧
    m' !! Z.to_nat (i * BY + j) = Some (dot (Z.to_nat (k + 1)) i j).
Proof.
  intros [_ Ht] Hg HD Hi Hj Hk Hm. destruct (fits i j k Hi Hj Hk) as [Hp Hs].
  pose proof (cell_lt AX BY i j Hi Hj). pose proof (cell_lt BY AY j k Hj Hk).
  destruct (grid_set m AX BY f D i j (dot (S (Z.to_nat k)) i j) Hg Hi Hj HD) as (m' & Hset & Hat & Hg').
  exists m'. unfold accumulate.
  rewrite (E_bind_Ok _ _ _ (c_is i j Hi Hj)), (E_bind_Ok _ _ _ (a_is i k Hi Hk)).
  rewrite (E_bind_Ok _ _ _ (index_run BY AY j k Hj Hk ltac:(nia))).
  rewrite (E_bind_Ok _ _ _ (elem_run tmp (j * AY + k) _ ltac:(lia) (Ht j k Hj Hk I))). unfold transposed.
  rewrite (E_bind_Ok _ _ _ (int_ok _ Hp)), (E_bind_Ok _ _ _ (elem_run m (i * BY + j) _ ltac:(lia) Hm)).
  simpl in Hs, Hset, Hat. rewrite Z2Nat.id in Hs, Hset, Hat by lia.
  rewrite (E_bind_Ok _ _ _ (int_ok _ Hs)).
  split; [exact Hset|]. split; [exact Hg'|]. rewrite Hat.
  replace (Z.to_nat (k + 1)) with (S (Z.to_nat k)) by lia. simpl. by rewrite Z2Nat.id by lia.
Qed.

(** One element of the product. *)
Lemma element_run (tmp m : list Z) (i j : Z) :
  grid tmp BY AY transposed (λ _ _, True) → 0 <= i < AX → 0 <= j < BY →
  grid m AX BY (dot (Z.to_nat AY)) (before i j) →
  ∃ m', (c ← ci i j; m ← set_elem m c 0; for_ (Z.to_nat AY) 0 (λ k m, accumulate AY a ci tmp i j k m) m)
      = Some (Ok m') ∧ grid m' AX BY (dot (Z.to_nat AY)) (before i (j + 1)).
Proof.
  intros Ht Hi Hj Hg.
  assert (HD : ∀ x y, before i j x y → x ≠ i ∨ y ≠ j) by (unfold before; intros; lia).
  destruct (grid_set m AX BY _ _ i j 0 Hg Hi Hj HD) as (m1 & Hset & Hat & Hg1).
  destruct (for_run (λ k m, grid m AX BY (dot (Z.to_nat AY)) (before i j) ∧
      m !! Z.to_nat (i * BY + j) = Some (dot (Z.to_nat k) i j))
    (λ k m, accumulate AY a ci tmp i j k m) (Z.to_nat AY) 0 m1) as (m' & Hrun & Hg' & Hat').
  - done.
  - intros k s Hk [Hgs Hs]. by apply (accumulate_run tmp s i j k (before i j)); [..|lia|].
  - exists m'. split.
    + rewrite (E_bind_Ok _ _ _ (c_is i j Hi Hj)). rewrite (E_bind_Ok _ _ _ Hset). exact Hrun.
    + eapply grid_more; [exact Hg'|]. unfold before. intros x y _ _ Hxy.
      destruct (decide (x = i ∧ y = j)) as [[-> ->]|]; [right|left; lia].
      rewrite Hat'. f_equal. f_equal. lia.
Qed.

Lemma mult_run (m : list Z) :
  length m = Z.to_nat (AX * BY) →
  ∃ m', mult AX AY BY a b ci m = Some (Ok m') ∧ grid m' AX BY (dot (Z.to_nat AY)) (λ _ _, True).
Proof.
  intros Hlen. destruct transpose_run as (tmp & Hrun & Ht).
  unfold mult. rewrite (E_bind_Ok _ _ _ Hrun).
  destruct (for_run (λ i m, grid m AX BY (dot (Z.to_nat AY)) (before i 0))
    (λ i m, for_ (Z.to_nat BY) 0 (λ j m, c ← ci i j; m ← set_elem m c 0;
       for_ (Z.to_nat AY) 0 (λ k m, accumulate AY a ci tmp i j k m) m) m)
    (Z.to_nat AX) 0 m) as (m' & Hrun' & Hg).
  - split; [done|]. unfold before. lia.
  - intros i s Hi Hg.
    destruct (for_run (λ j m, grid m AX BY (dot (Z.to_nat AY)) (before i j))
      (λ j m, c ← ci i j; m ← set_elem m c 0;
         for_ (Z.to_nat AY) 0 (λ k m, accumulate AY a ci tmp i j k m) m) (Z.to_nat BY) 0 s)
      as (s' & Hrun' & Hg').
    + exact Hg.
    + intros j t Hj. apply element_run; [done|lia..].
    + exists s'. split; [exact Hrun'|]. eapply grid_more; [exact Hg'|]. unfold before. intros. left. lia.
  - exists m'. split; [exact Hrun'|]. eapply grid_more; [exact Hg|]. unfold before. intros. left. lia.
Qed.
End product.

Lemma grid_unique m m' h w f : 0 <= h → 0 <= w →
  grid m h w f (λ _ _, True) → grid m' h w f (λ _ _, True) → m = m'.
Proof.
  intros Hh Hw [Hl Hf] [Hl' Hf']. apply list_eq_same_length with (length m); [congruence..|].
  intros n x y Hn Hx Hy. rewrite Hl in Hn.
  assert (Hpos : 0 < w) by nia.
  pose proof (Z.mod_pos_bound (Z.of_nat n) w Hpos).
  pose proof (Z.div_mod (Z.of_nat n) w ltac:(lia)).
  assert (0 <= Z.of_nat n / w < h) by (split; [apply Z.div_pos; lia|apply Z.div_lt_upper_bound; lia]).
  assert (Hn' : n = Z.to_nat (Z.of_nat n / w * w + Z.of_nat n `mod` w)) by lia.
  rewrite Hn' in Hx, Hy. rewrite Hf in Hx by done. rewrite Hf' in Hy by done. congruence.
Qed.

Definition entry (m : list Z) (w i j : Z) : Z := default 0 (m !! Z.to_nat (i * w + j)).

Lemma entry_is (m : list Z) h w i j : length m = Z.to_nat (h * w) → 0 <= i < h → 0 <= j < w →
  m !! Z.to_nat (i * w + j) = Some (entry m w i j).
Proof.
  intros Hl Hi Hj. pose proof (cell_lt h w i j Hi Hj). unfold entry.
  destruct (lookup_lt_is_Some_2 m (Z.to_nat (i * w + j)) ltac:(lia)) as [v ->]. done.
Qed.

(** A matrix of [h] lines and [w] columns whose size is an [int]. *)
Definition sized (m : Matrix) (h w : Z) : Prop :=
  lines_ m = h ∧ columns_ m = w ∧ 0 < h ∧ 0 < w ∧ h * w < 2 ^ 31 ∧ length (matrix_ m) = Z.to_nat (h * w).

Definition product_entry (a b : Matrix) (n : nat) (i j : Z) : Z :=
  dot (entry (matrix_ a) (columns_ a)) (entry (matrix_ b) (columns_ b)) n i j.

(** No product of two elements and no partial sum overflows. *)
Definition no_overflow (a b : Matrix) : Prop := ∀ i j k,
  0 <= i < lines_ a → 0 <= j < columns_ b → 0 <= k < columns_ a →
  is_int (entry (matrix_ a) (columns_ a) i k * entry (matrix_ b) (columns_ b) k j) ∧
  is_int (product_entry a b (S (Z.to_nat k)) i j).

Definition is_product (a b : Matrix) (d : list Z) : Prop :=
  grid d (lines_ a) (columns_ b) (product_entry a b (Z.to_nat (columns_ a))) (λ _ _, True).

Section two_matrices.
Variables (a b : Matrix) (AX AY BY : Z).
Hypothesis size_a : sized a AX AY.
Hypothesis size_b : sized b AY BY.
Hypothesis size_ab : AX * BY < 2 ^ 31.
Hypothesis fits_ab : no_overflow a b.

Lemma product_run a' b' c' m :
  (∀ i k, 0 <= i < AX → 0 <= k < AY → a' i k = Some (Ok (entry (matrix_ a) AY i k))) →
  (∀ k j, 0 <= k < AY → 0 <= j < BY → b' k j = Some (Ok (entry (matrix_ b) BY k j))) →
  (∀ i j, 0 <= i < AX → 0 <= j < BY → c' i j = Some (Ok (i * BY + j))) →
  length m = Z.to_nat (AX * BY) →
  ∃ d, mult AX AY BY a' b' c' m = Some (Ok d) ∧ is_product a b d.
Proof.
  intros Ha Hb Hc Hm. destruct size_a as (Hal & Hac & Hs), size_b as (Hbl & Hbc & Hs').
  unfold is_product. unfold no_overflow, product_entry in *. rewrite ?Hal, ?Hac, ?Hbc in *.
  apply mult_run; try done. lia.
Qed.

Lemma at_run m h w : sized m h w → ∀ i j, 0 <= i < h → 0 <= j < w →
  at_ m i j = Some (Ok (entry (matrix_ m) w i j)).
Proof.
  intros (Hl & Hc & _ & _ & Hs & Hlen) i j Hi Hj. unfold at_. rewrite Hc.
  rewrite (E_bind_Ok _ _ _ (index_run h w i j Hi Hj Hs)).
  pose proof (cell_lt h w i j Hi Hj). apply elem_run; [lia|]. by apply entry_is with h.
Qed.

Lemma index_elem_run m h w : sized m h w → ∀ i j, 0 <= i < h → 0 <= j < w →
  (t ← index i w j; elem (matrix_ m) t) = Some (Ok (entry (matrix_ m) w i j)).
Proof.
  intros Hm i j Hi Hj. pose proof (at_run m h w Hm i j Hi Hj) as Hat.
  unfold at_ in Hat. destruct Hm as (_ & Hw & _). by rewrite Hw in Hat.
Qed.

Lemma cpp_run c : sized c AX BY →
  ∃ d, is_product a b d ∧ Repro.cpp_transpose_mult a b c
    = (if AX =? AY then Some (Ok (mkMatrix AX BY d)) else None).
Proof.
  intros Hc. destruct (product_run (at_ a) (at_ b) (λ i j, index i BY j) (matrix_ c)) as (d & Hrun & Hd).
  - by apply at_run.
  - by apply at_run.
  - intros. by apply index_run with AX.
  - apply Hc.
  - exists d. split; [done|]. unfold Repro.cpp_transpose_mult.
    destruct size_a as (-> & -> & _), size_b as (-> & -> & _), Hc as (-> & -> & _).
    destruct (AX =? AY); [|done]. by rewrite (E_bind_require true _ eq_refl), (E_bind_Ok _ _ _ Hrun).
Qed.

Lemma iter_run D : length D = Z.to_nat (AX * BY) →
  ∃ d, is_product a b d ∧ Repro.iter_transpose_mult (matrix_ a) (matrix_ b) D AX AY BY = Some (Ok d).
Proof.
  intros HD. destruct (product_run (λ i k, t ← index i AY k; elem (matrix_ a) t)
    (λ i j, t ← index i BY j; elem (matrix_ b) t) (λ i j, index i BY j) D) as (d & Hrun & Hd).
  - by apply index_elem_run.
  - by apply index_elem_run.
  - intros. by apply index_run with AX.
  - done.
  - exists d. split; [done|]. unfold Repro.iter_transpose_mult.
    destruct size_a as (_ & _ & ? & ? & _), size_b as (_ & _ & _ & ? & _).
    rewrite !(proj2 (Z.ltb_lt _ _)) by done. exact Hrun.
Qed.
End two_matrices.

(** C31: the multiplications of [matrix_repro.cc] (both versions of the program) through a
    transposed copy of the second matrix all compute the product of the matrices, whatever
    the destination held, when it has room and no sum overflows; but the assertion of
    [cpp_transpose_mult] stops it unless the first matrix is square, since it compares the
    wrong sizes. *)
Theorem mults_compute_the_product (a b c : Matrix) (D : list Z) (AX AY BY : Z) :
  sized a AX AY → sized b AY BY → sized c AX BY → length D = Z.to_nat (AX * BY) → no_overflow a b →
  ∃ d, is_product a b d ∧
    Repro.iter_transpose_mult (matrix_ a) (matrix_ b) D AX AY BY = Some (Ok d) ∧
    Archive.c_transpose_mult (matrix_ a) (matrix_ b) D AX AY BY = Some (Ok d) ∧
    Repro.cpp_transpose_mult a b c = (if AX =? AY then Some (Ok (mkMatrix AX BY d)) else None) ∧
    Archive.cpp_transpose_mult a b c = (if AX =? AY then Some (Ok (mkMatrix AX BY d)) else None).
Proof.
  intros Ha Hb Hc HD Hfit. pose proof Hc as (_ & _ & H1 & H2 & Hs & _).
  destruct (iter_run a b AX AY BY Ha Hb Hs Hfit D HD) as (d & Hd & Hiter).
  destruct (cpp_run a b AX AY BY Ha Hb Hs Hfit c Hc) as (d' & Hd' & Hcpp).
  assert (d' = d) as ->; [|by exists d].
  unfold is_product in *. destruct Ha as (Hal & _), Hb as (_ & Hbc & _). rewrite Hal, Hbc in *.
  eapply grid_unique; [| |exact Hd'|exact Hd]; lia.
Qed.

Definition A22 : Matrix := mkMatrix 2 2 [1; 2; 3; -4].
Definition B23 : Matrix := mkMatrix 2 3 [5; 6; 7; 8; 9; 10].

Lemma mults_compute_the_product_witness :
  ∃ d, is_product A22 B23 d ∧
    Repro.iter_transpose_mult (matrix_ A22) (matrix_ B23) (replicate 6 77) 2 2 3 = Some (Ok d) ∧
    Archive.c_transpose_mult (matrix_ A22) (matrix_ B23) (replicate 6 77) 2 2 3 = Some (Ok d) ∧
    Repro.cpp_transpose_mult A22 B23 (mkMatrix 2 3 (replicate 6 0)) = Some (Ok (mkMatrix 2 3 d)) ∧
    Archive.cpp_transpose_mult A22 B23 (mkMatrix 2 3 (replicate 6 0)) = Some (Ok (mkMatrix 2 3 d)).
Proof.
  apply (mults_compute_the_product A22 B23 (mkMatrix 2 3 (replicate 6 0)) (replicate 6 77) 2 2 3);
    [vm_compute; repeat split; discriminate || reflexivity .. | reflexivity | ].
  intros i j k Hi Hj Hk. simpl in Hi, Hj, Hk. unfold is_int.
  assert (i = 0 ∨ i = 1) as [-> | ->] by lia; assert (k = 0 ∨ k = 1) as [-> | ->] by lia;
  assert (j = 0 ∨ j = 1 ∨ j = 2) as [-> | [-> | ->]] by lia; vm_compute; repeat split; discriminate || reflexivity.
Defined.
