(* ===== verification/Prim.v ===== *)
(** * A spanning tree: [src/16-containers/prim.cc]

    Vertices and weights are [int]s; a subscript out of a vector is undefined. *)

From S2P Require Import Prelude.

Module Prim.
Definition VertexTy : Type := Z.
Definition WeightTy : Type := Z.
Definition PairTy : Type := VertexTy * WeightTy.
Definition INT_MIN : Z := - 2 ^ 31.

Record Edge := mkEdge { edge_u : VertexTy; edge_v : VertexTy; edge_w : WeightTy }.
Record Graph := mkGraph { V_ : Z; Adj_ : list (list PairTy) }.

(** [std::vector]: the subscripts are [int]s. *)
Definition at_ {A} (l : list A) (i : Z) : E A := if 0 <=? i then checked (l !! Z.to_nat i) else None.
Definition set_at {A} (l : list A) (i : Z) (x : A) : E (list A) := _ ← at_ l i; mret (<[Z.to_nat i := x]> l).
Definition vector {A} (n : Z) (x : A) : E (list A) :=
  if n <? 0 then raise length_error else mret (replicate (Z.to_nat n) x).

Definition Graph_ctor (V : Z) : E Graph := adj ← vector V []; mret (mkGraph V adj).

Definition addEdge (G : Graph) (e : Edge) : E Graph :=
  l ← at_ (Adj_ G) (edge_u e);
  adj ← set_at (Adj_ G) (edge_u e) (l ++ [(edge_v e, edge_w e)]);
  l ← at_ adj (edge_v e);
  adj ← set_at adj (edge_v e) (l ++ [(edge_u e, edge_w e)]);
  mret (mkGraph (V_ G) adj).

Definition first (G : Graph) : E VertexTy :=
  if V_ G =? 0 then raise (runtime_error "Graph empty") else mret 0.
Definition weight (p : PairTy) : WeightTy := p.2.
Definition tip (p : PairTy) : VertexTy := p.1.
Definition adjacent (G : Graph) (v : VertexTy) : E (list PairTy) := at_ (Adj_ G) v.

(** [std::priority_queue<PairTy>]: [top] is the largest pair, the vertex first. *)
Definition pair_lt (p q : PairTy) : bool := (p.1 <? q.1) || (p.1 =? q.1) && (p.2 <? q.2).
Fixpoint pop_max (pq : list PairTy) : option (PairTy * list PairTy) :=
  match pq with
  | [] => None
  | p :: pq => match pop_max pq with
    | None => Some (p, [])
    | Some (q, r) => if pair_lt p q then Some (q, p :: r) else Some (p, q :: r)
    end
  end.

Inductive line := Elem (v : VertexTy) | Adj (v : VertexTy).
Record state := mkState
  { pq : list PairTy; mst : list bool; key : list WeightTy; parent : list VertexTy; cout : list line }.

(** [for (auto e : adjacent(G, elt))] *)
Definition relax (elt : VertexTy) (e : PairTy) (s : state) : E state :=
  let w := weight e in let v := tip e in
  let out := cout s ++ [Adj v] in
  m ← at_ (mst s) v;
  if m : bool then mret (mkState (pq s) (mst s) (key s) (parent s) out)
  else
    k ← at_ (key s) v;
    if k <? w then
      key ← set_at (key s) v w;
      parent ← set_at (parent s) v elt;
      mret (mkState ((v, w) :: pq s) (mst s) key parent out)
    else mret (mkState (pq s) (mst s) (key s) (parent s) out).

Fixpoint relax_all (elt : VertexTy) (es : list PairTy) (s : state) : E state :=
  match es with [] => mret s | e :: es => s ← relax elt e s; relax_all elt es s end.

Fixpoint loop (fuel : nat) (G : Graph) (s : state) : E state :=
  match fuel with
  | O => None
  | S fuel =>
    match pop_max (pq s) with
    | None => mret s
    | Some ((elt, _), rest) =>
      m ← at_ (mst s) elt;
      if m : bool then loop fuel G (mkState rest (mst s) (key s) (parent s) (cout s))
      else
        mst ← set_at (mst s) elt true;
        es ← adjacent G elt;
        s ← relax_all elt es (mkState rest mst (key s) (parent s) (cout s ++ [Elem elt]));
        loop fuel G s
    end
  end.

Definition degrees (ls : list (list PairTy)) : nat := sum_list (length <$> ls).

Definition prim (G : Graph) : E (list VertexTy * list line) :=
  start ← first G;
  mst ← vector (V_ G) false;
  key ← vector (V_ G) INT_MIN;
  parent ← vector (V_ G) (-1);
  s ← loop (S (S (degrees (Adj_ G)))) G (mkState [(start, 0)] mst key parent []);
  mret (Prim.parent s, cout s).

Fixpoint addEdges (G : Graph) (es : list Edge) : E Graph :=
  match es with [] => mret G | e :: es => G ← addEdge G e; addEdges G es end.

Definition Elist : list Edge :=
  [mkEdge 0 1 4; mkEdge 0 7 8; mkEdge 1 2 8; mkEdge 1 7 11; mkEdge 2 3 7; mkEdge 2 8 2; mkEdge 2 5 4; mkEdge 3 4 9;
   mkEdge 3 5 14; mkEdge 4 5 10; mkEdge 5 6 2; mkEdge 6 7 1; mkEdge 6 8 6; mkEdge 7 8 7].

(** The lines of the answer: [spanning[i] -- i]. *)
Definition answer (spanning : list VertexTy) : list (VertexTy * Z) :=
  filter (λ p, p.1 ≠ -1) (zip spanning (seqZ 0 9)).

Definition main : E (list line * list (VertexTy * Z)) :=
  g ← Graph_ctor 9;
  g ← addEdges g Elist;
  '(spanning, out) ← prim g;
  require (Nat.eqb (length spanning) 9);;
  mret (out, answer spanning).
End Prim.


Import Prim.

Example main_answer :
  snd <$> (match main with Some (Ok r) => Some r | _ => None end)
  = Some [(7, 1); (3, 2); (5, 3); (5, 4); (6, 5); (8, 6); (0, 7); (7, 8)].
Proof. vm_compute. reflexivity. Qed.

(** *** Vectors *)
Definition has {A} (l : list A) (i : Z) (x : A) : Prop := 0 <= i ∧ l !! Z.to_nat i = Some x.

Lemma has_at {A} (l : list A) i x : has l i x → at_ l i = Some (Ok x).
Proof. intros [Hi Hx]. unfold at_. by rewrite (proj2 (Z.leb_le _ _) Hi), Hx. Qed.

Lemma set_at_run {A} (l : list A) i y (x : A) : has l i y → set_at l i x = Some (Ok (<[Z.to_nat i := x]> l)).
Proof. intros Hy. unfold set_at. by rewrite (E_bind_Ok _ _ _ (has_at l i y Hy)). Qed.

Lemma has_fun {A} (l : list A) i x y : has l i x → has l i y → x = y.
Proof. intros [_ Hx] [_ Hy]. congruence. Qed.

Lemma has_bound {A} (l : list A) i x : has l i x → 0 <= i < Z.of_nat (length l).
Proof. intros [Hi Hx]. apply lookup_lt_Some in Hx. lia. Qed.

Lemma has_some {A} (l : list A) i n : Z.of_nat (length l) = n → 0 <= i < n → ∃ x, has l i x.
Proof. intros Hl Hi. destruct (lookup_lt_is_Some_2 l (Z.to_nat i) ltac:(lia)) as [x Hx]. exists x. split; [lia|done]. Qed.

Lemma has_set {A} (l : list A) i x y j z : has l i y →
  has (<[Z.to_nat i := x]> l) j z ↔ j = i ∧ z = x ∨ j ≠ i ∧ has l j z.
Proof.
  intros Hy. pose proof (has_bound _ _ _ Hy) as Hb. destruct Hy as [Hi _]. unfold has.
  destruct (decide (j = i)) as [->|Hne].
  - rewrite list_lookup_insert_eq by lia. split; [intros [_ [= ->]]; auto|]. intros [[_ ->]|[]]; done.
  - split.
    + intros [Hj Hz]. right. rewrite list_lookup_insert_ne in Hz by lia. done.
    + intros [[? _]|(_ & Hj & Hz)]; [done|]. rewrite list_lookup_insert_ne by lia. done.
Qed.

Lemma has_replicate {A} n (x : A) i : 0 <= i < n → has (replicate (Z.to_nat n) x) i x.
Proof. intros Hi. split; [lia|]. apply lookup_replicate_2. lia. Qed.

Lemma has_replicate_inv {A} n (x : A) i y : has (replicate (Z.to_nat n) x) i y → y = x.
Proof. intros [_ Hy]. apply lookup_replicate in Hy. tauto. Qed.

Lemma vector_run {A} n (x : A) : 0 <= n → vector n x = Some (Ok (replicate (Z.to_nat n) x)).
Proof. intros Hn. unfold vector. by rewrite (proj2 (Z.ltb_ge _ _) Hn). Qed.

Lemma pop_max_none l : pop_max l = None → l = [].
Proof. destruct l as [|p l]; [done|]. simpl. repeat case_match; done. Qed.

Lemma pop_max_perm l p r : pop_max l = Some (p, r) → l ≡ₚ p :: r.
Proof.
  revert p r. induction l as [|q l IH]; intros p r; simpl; [done|].
  destruct (pop_max l) as [[q' r']|] eqn:Hq.
  - pose proof (IH _ _ eq_refl) as Hl. destruct (pair_lt q q'); intros [= <- <-]; rewrite Hl; [constructor|done].
  - intros [= <- <-]. by rewrite (pop_max_none l Hq).
Qed.

(** The edges of the vertices that are not in the tree. *)
Fixpoint pending (mst : list bool) (adj : list (list PairTy)) : nat :=
  match mst, adj with
  | m :: mst, l :: adj => ((if m : bool then 0 else length l) + pending mst adj)%nat
  | _, _ => 0%nat
  end.

Lemma pending_set mst adj v es : has mst v false → has adj v es →
  pending mst adj = (length es + pending (<[Z.to_nat v := true]> mst) adj)%nat.
Proof.
  intros [_ Hm] [_ Ha]. revert adj Ha Hm. generalize (Z.to_nat v) as n.
  induction mst as [|m mst IH]; intros n [|l adj] Ha Hm; try done.
  destruct n as [|n]; simpl in *; [by injection Hm as ->; injection Ha as ->|]. rewrite (IH n adj Ha Hm). lia.
Qed.

Lemma pending_none n adj : length adj = n → pending (replicate n false) adj = degrees adj.
Proof.
  revert adj. induction n as [|n IH]; intros [|l adj] Hl; try done. simpl in *.
  unfold degrees in *. simpl. rewrite IH; [done|lia].
Qed.

(** *** The tree *)
Section tree.
Variable G : Graph.

Definition arc (u v : Z) : Prop := ∃ es w, has (Adj_ G) u es ∧ (v, w) ∈ es.
Definition well_formed : Prop :=
  0 < V_ G ∧ Z.of_nat (length (Adj_ G)) = V_ G ∧
  ∀ u es v w, has (Adj_ G) u es → (v, w) ∈ es → 0 <= v < V_ G ∧ INT_MIN < w.

Definition reached (s : state) (v : Z) : Prop := has (mst s) v true ∨ ∃ k, has (key s) v k ∧ INT_MIN < k.
Definition up (s : state) (v u : Z) : Prop := has (mst s) v true ∧ has (parent s) v u ∧ arc u v.

(** The state when the edges [es] of [elt] remain to be relaxed. *)
Record inv (s : state) (elt : Z) (es : list PairTy) : Prop := {
  inv_mst : Z.of_nat (length (mst s)) = V_ G;
  inv_key : Z.of_nat (length (key s)) = V_ G;
  inv_parent : Z.of_nat (length (parent s)) = V_ G;
  inv_root : has (mst s) 0 true ∧ has (parent s) 0 (-1);
  inv_unseen : ∀ v, has (key s) v INT_MIN → has (parent s) v (-1);
  inv_seen : ∀ v k, has (key s) v k → INT_MIN < k → ∃ u, has (parent s) v u ∧ has (mst s) u true ∧ arc u v;
  inv_low : ∀ v k, has (key s) v k → INT_MIN <= k;
  inv_queued : ∀ v, reached s v → has (mst s) v true ∨ v ∈ (pq s).*1;
  inv_queue : ∀ v, v ∈ (pq s).*1 → ∃ k, has (key s) v k ∧ INT_MIN < k;
  inv_closed : ∀ u v, has (mst s) u true → arc u v → reached s v ∨ u = elt ∧ v ∈ es.*1;
  inv_up : ∀ v, has (mst s) v true → rtc (up s) v 0 }.

Hypothesis wf : well_formed.

Lemma relax_skip s elt e es out : inv s elt (e :: es) → reached s (tip e) →
  inv (mkState (pq s) (mst s) (key s) (parent s) out) elt es.
Proof.
  intros Hi Hr. destruct Hi. split; try done.
  intros u v Hu Ha. destruct (inv_closed0 u v Hu Ha) as [|[-> Hv]]; [by left|].
  rewrite fmap_cons in Hv. apply elem_of_cons in Hv as [->|Hv]; [left; exact Hr|by right].
Qed.

Lemma relax_push s elt v w es k out : inv s elt ((v, w) :: es) →
  has (mst s) elt true → arc elt v → has (mst s) v false → has (key s) v k → INT_MIN < w →
  inv (mkState ((v, w) :: pq s) (mst s) (<[Z.to_nat v := w]> (key s)) (<[Z.to_nat v := elt]> (parent s)) out) elt es.
Proof.
  intros Hi Helt Ha Hm Hk Hw.
  destruct (has_some (parent s) v (V_ G) (inv_parent _ _ _ Hi)) as [p Hp].
  { rewrite <-(inv_key _ _ _ Hi). by apply (has_bound _ _ k). }
  assert (Hnv : ∀ u, has (mst s) u true → u ≠ v) by (intros u Hu ->; by pose proof (has_fun _ _ _ _ Hu Hm)).
  assert (Hreach : ∀ x, reached s x → reached (mkState ((v, w) :: pq s) (mst s) (<[Z.to_nat v := w]> (key s)) (<[Z.to_nat v := elt]> (parent s)) out) x).
  { intros x [Hx|(k' & Hk' & Hlt)]; [by left|]. right. unfold Prim.key.
    destruct (decide (x = v)) as [->|Hne]; [exists w|exists k']; rewrite (has_set _ _ _ _ _ _ Hk); auto. }
  destruct Hi. split; simpl; try (by rewrite length_insert); try done.
  - split; [by destruct inv_root0|]. rewrite (has_set _ _ _ _ _ _ Hp). right.
    split; [apply Hnv|]; by destruct inv_root0.
  - intros x. rewrite (has_set _ _ _ _ _ _ Hk), (has_set _ _ _ _ _ _ Hp). intros [[_ Hx]|[Hne Hx]]; [lia|].
    right. auto.
  - intros x k'. rewrite (has_set _ _ _ _ _ _ Hk). intros [[-> ->]|[Hne Hx]] Hlt.
    + exists elt. rewrite (has_set _ _ _ _ _ _ Hp). auto.
    + destruct (inv_seen0 x k' Hx Hlt) as (u & Hu & Hrest). exists u.
      rewrite (has_set _ _ _ _ _ _ Hp). auto.
  - intros x k'. rewrite (has_set _ _ _ _ _ _ Hk). intros [[-> ->]|[Hne Hx]]; [lia|eauto].
  - intros x Hx. rewrite elem_of_cons. destruct (decide (x = v)) as [->|Hne]; [auto|].
    destruct (inv_queued0 x) as [|]; [|auto..].
    destruct Hx as [Hx|(k' & Hk' & Hlt)]; [by left|]. right. exists k'. split; [|done].
    simpl in Hk'. rewrite (has_set _ _ _ _ _ _ Hk) in Hk'. naive_solver.
  - intros x. rewrite elem_of_cons. destruct (decide (x = v)) as [->|Hne].
    + intros _. exists w. rewrite (has_set _ _ _ _ _ _ Hk). auto.
    + intros [?|Hx]; [done|]. destruct (inv_queue0 x Hx) as (k' & Hk' & Hlt). exists k'.
      rewrite (has_set _ _ _ _ _ _ Hk). auto.
  - intros u x Hu Hux. destruct (inv_closed0 u x Hu Hux) as [Hr|[-> Hx]]; [left; by apply Hreach|].
    rewrite fmap_cons in Hx. apply elem_of_cons in Hx as [->|Hx]; [|by right].
    left. right. exists w. simpl. rewrite (has_set _ _ _ _ _ _ Hk). auto.
  - intros x Hx. specialize (inv_up0 x Hx). eapply rtc_subrel; [|exact inv_up0].
    intros y z (Hy & Hz & Hyz). split; [done|]. split; [|done]. simpl.
    rewrite (has_set _ _ _ _ _ _ Hp). right. auto.
Qed.

Lemma relax_run s elt e es : inv s elt (e :: es) → has (mst s) elt true → arc elt (tip e) →
  0 <= tip e < V_ G → INT_MIN < weight e →
  ∃ s', relax elt e s = Some (Ok s') ∧ inv s' elt es ∧ mst s' = mst s ∧ (length (pq s') <= S (length (pq s)))%nat.
Proof.
  intros Hi Helt Ha Hv Hw. unfold relax.
  destruct (has_some _ (tip e) _ (inv_mst _ _ _ Hi) Hv) as [m Hm]. rewrite (E_bind_Ok _ _ _ (has_at _ _ _ Hm)).
  destruct m.
  { eexists. split; [done|]. split; [apply (relax_skip s elt e es); [done|by left]|]. simpl. auto. }
  destruct (has_some _ (tip e) _ (inv_key _ _ _ Hi) Hv) as [k Hk]. rewrite (E_bind_Ok _ _ _ (has_at _ _ _ Hk)).
  destruct (has_some _ (tip e) _ (inv_parent _ _ _ Hi) Hv) as [p Hp].
  destruct (Z.ltb_spec k (weight e)) as [Hlt|Hge].
  - rewrite (E_bind_Ok _ _ _ (set_at_run _ _ _ _ Hk)), (E_bind_Ok _ _ _ (set_at_run _ _ _ _ Hp)).
    eexists. split; [done|]. split; [|simpl; auto].
    destruct e as [v w]. simpl in *. by apply (relax_push s elt v w es k).
  - eexists. split; [done|]. split; [apply (relax_skip s elt e es); [done|]|simpl; auto].
    right. exists k. split; [done|]. lia.
Qed.

Lemma relax_all_run elt all es s : has (Adj_ G) elt all → es ⊆ all → inv s elt es → has (mst s) elt true →
  ∃ s', relax_all elt es s = Some (Ok s') ∧ inv s' elt [] ∧ mst s' = mst s ∧
    (length (pq s') <= length es + length (pq s))%nat.
Proof.
  intros Hall. revert s. induction es as [|[v w] es IH]; intros s Hsub Hi Helt; simpl.
  { exists s. auto. }
  assert (Hin : (v, w) ∈ all) by (apply Hsub; constructor).
  destruct wf as (_ & _ & Hwf). destruct (Hwf elt all v w Hall Hin) as [Hv Hw].
  destruct (relax_run s elt (v, w) es Hi Helt) as (s1 & Hrun & Hi1 & Hm1 & Hl1); [by exists all, w|done..|].
  destruct (IH s1) as (s2 & Hrun2 & Hi2 & Hm2 & Hl2); [set_solver|done|by rewrite Hm1|].
  exists s2. rewrite (E_bind_Ok _ _ _ Hrun). rewrite Hm2. split; [done|]. split; [done|]. split; [done|lia].
Qed.

(** A vertex taken out of the queue joins the tree. *)
Lemma enter_inv s elt p rest : inv s elt [] → pq s ≡ₚ (elt, p) :: rest → has (mst s) elt false →
  ∃ es, has (Adj_ G) elt es ∧
    inv (mkState rest (<[Z.to_nat elt := true]> (mst s)) (key s) (parent s) (cout s ++ [Elem elt])) elt es.
Proof.
  intros Hi Hperm Hm. destruct wf as (Hpos & Hlen & Hwf).
  destruct (has_some (Adj_ G) elt _ Hlen) as [es Hes].
  { rewrite <-(inv_mst _ _ _ Hi). by apply (has_bound _ _ false). }
  exists es. split; [done|].
  assert (Hkeep : ∀ x, has (mst s) x true → has (<[Z.to_nat elt := true]> (mst s)) x true).
  { intros x Hx. rewrite (has_set _ _ _ _ _ _ Hm). destruct (decide (x = elt)); auto. }
  assert (Hreach : ∀ x, reached s x →
    reached (mkState rest (<[Z.to_nat elt := true]> (mst s)) (key s) (parent s) (cout s ++ [Elem elt])) x).
  { intros x [Hx|Hx]; [left; by apply Hkeep|by right]. }
  assert (Hq : ∀ x, x ∈ (pq s).*1 ↔ x = elt ∨ x ∈ rest.*1) by (intros x; rewrite Hperm; apply elem_of_cons).
  destruct (inv_queue _ _ _ Hi elt) as (k & Hk & Hlt); [by apply Hq; left|].
  destruct (inv_seen _ _ _ Hi elt k Hk Hlt) as (u & Hu & Hmu & Ha).
  destruct Hi. split; simpl; try (by rewrite ?length_insert); try done.
  - split; [apply Hkeep|]; apply inv_root0.
  - intros x k' Hx Hlt'. destruct (inv_seen0 x k' Hx Hlt') as (u' & ? & ? & ?). exists u'. auto.
  - intros x Hx. destruct (decide (x = elt)) as [->|Hne].
    { left. rewrite (has_set _ _ _ _ _ _ Hm). auto. }
    destruct (inv_queued0 x) as [Hx'|Hx'].
    + destruct Hx as [Hx|Hx]; [left|by right]. simpl in Hx. rewrite (has_set _ _ _ _ _ _ Hm) in Hx. naive_solver.
    + left. by apply Hkeep.
    + right. apply Hq in Hx' as [|]; done.
  - intros x Hx. apply inv_queue0, Hq. auto.
  - intros x y Hx Hxy. rewrite (has_set _ _ _ _ _ _ Hm) in Hx. destruct Hx as [[-> _]|[Hne Hx]].
    + right. split; [done|]. destruct Hxy as (es' & w & Hes' & Hin).
      rewrite (has_fun _ _ _ _ Hes' Hes) in Hin. apply list_elem_of_fmap. by exists (y, w).
    + destruct (inv_closed0 x y Hx Hxy) as [|[_ Hn]]; [left; by apply Hreach|]. by apply elem_of_nil in Hn.
  - assert (Hup : ∀ x, has (mst s) x true →
      rtc (up (mkState rest (<[Z.to_nat elt := true]> (mst s)) (key s) (parent s) (cout s ++ [Elem elt]))) x 0).
    { intros x Hx. eapply rtc_subrel; [|exact (inv_up0 x Hx)]. intros y z (Hy & Hyz). split; [by apply Hkeep|done]. }
    intros x Hx. rewrite (has_set _ _ _ _ _ _ Hm) in Hx. destruct Hx as [[-> _]|[Hne Hx]]; [|by apply Hup].
    apply rtc_l with u; [|by apply Hup]. split; [|done]. simpl. rewrite (has_set _ _ _ _ _ _ Hm). auto.
Qed.

Lemma drop_inv s elt elt' p rest : inv s elt [] → pq s ≡ₚ (elt', p) :: rest → has (mst s) elt' true →
  inv (mkState rest (mst s) (key s) (parent s) (cout s)) elt' [].
Proof.
  intros Hi Hperm Hm. destruct Hi.
  assert (Hq : ∀ x, x ∈ (pq s).*1 ↔ x = elt' ∨ x ∈ rest.*1) by (intros x; rewrite Hperm; apply elem_of_cons).
  split; try done; simpl.
  - intros x Hx. destruct (inv_queued0 x Hx) as [|Hx']; [by left|]. apply Hq in Hx' as [->|]; auto.
  - intros x Hx. apply inv_queue0, Hq. auto.
  - intros u v Hu Huv. destruct (inv_closed0 u v Hu Huv) as [|[_ Hn]]; [by left|]. by apply elem_of_nil in Hn.
Qed.

Lemma inv_elt s elt elt' : inv s elt [] → inv s elt' [].
Proof.
  intros Hi. destruct Hi. split; try done.
  intros u v Hu Huv. destruct (inv_closed0 u v Hu Huv) as [|[_ Hn]]; [by left|]. by apply elem_of_nil in Hn.
Qed.

Lemma expand_run s elt es : has (Adj_ G) elt es → inv s elt es → has (mst s) elt true →
  ∃ s', relax_all elt es s = Some (Ok s') ∧ inv s' elt [] ∧ mst s' = mst s ∧
    (length (pq s') <= length es + length (pq s))%nat.
Proof. intros. by apply relax_all_run with es. Qed.

Lemma loop_run fuel : ∀ s elt, inv s elt [] → (length (pq s) + pending (mst s) (Adj_ G) < fuel)%nat →
  ∃ s', loop fuel G s = Some (Ok s') ∧ inv s' elt [] ∧ pq s' = [].
Proof.
  induction fuel as [|fuel IH]; intros s elt Hi Hfuel; [lia|]. simpl.
  destruct (pop_max (pq s)) as [[[v w] rest]|] eqn:Hpop.
  2: { exists s. split; [done|]. split; [done|]. by apply pop_max_none. }
  apply pop_max_perm in Hpop as Hperm. apply Permutation_length in Hperm as Hlen. simpl in Hlen.
  destruct (inv_queue _ _ _ Hi v) as (k & Hk & _); [rewrite Hperm; constructor|].
  destruct (has_some (mst s) v _ (inv_mst _ _ _ Hi)) as [m Hm].
  { rewrite <-(inv_key _ _ _ Hi). by apply (has_bound _ _ k). }
  rewrite (E_bind_Ok _ _ _ (has_at _ _ _ Hm)). destruct m.
  - destruct (IH (mkState rest (mst s) (key s) (parent s) (cout s)) v) as (s' & Hrun & Hi' & Hpq).
    + by apply (drop_inv s elt v w rest).
    + simpl. lia.
    + exists s'. split; [done|]. split; [by apply inv_elt with v|done].
  - rewrite (E_bind_Ok _ _ _ (set_at_run _ _ _ _ Hm)).
    destruct (enter_inv s v w rest) as (es & Hes & Hi1); [by apply inv_elt with elt|done..|].
    unfold adjacent. rewrite (E_bind_Ok _ _ _ (has_at _ _ _ Hes)).
    destruct (expand_run _ v es Hes Hi1) as (s2 & Hrun & Hi2 & Hm2 & Hl2).
    { simpl. rewrite (has_set _ _ _ _ _ _ Hm). auto. }
    rewrite (E_bind_Ok _ _ _ Hrun).
    destruct (IH s2 v Hi2) as (s' & Hrun' & Hi' & Hpq).
    { rewrite Hm2. simpl in *. pose proof (pending_set _ _ _ _ Hm Hes). lia. }
    exists s'. split; [done|]. split; [by apply inv_elt with v|done].
Qed.

(** The root joins the tree first. *)
Lemma root_inv es : has (Adj_ G) 0 es →
  inv (mkState [] (<[Z.to_nat 0 := true]> (replicate (Z.to_nat (V_ G)) false)) (replicate (Z.to_nat (V_ G)) INT_MIN)
    (replicate (Z.to_nat (V_ G)) (-1)) [Elem 0]) 0 es.
Proof.
  intros Hes. destruct wf as (Hpos & Hlen & Hwf).
  assert (Hm : has (replicate (Z.to_nat (V_ G)) false) 0 false) by (apply has_replicate; lia).
  assert (Hk : ∀ v k, has (replicate (Z.to_nat (V_ G)) INT_MIN) v k → k = INT_MIN)
    by (intros v k; apply has_replicate_inv).
  assert (Honly : ∀ v, has (<[Z.to_nat 0 := true]> (replicate (Z.to_nat (V_ G)) false)) v true → v = 0).
  { intros v. rewrite (has_set _ _ _ _ _ _ Hm). intros [[? _]|[_ Hv]]; [done|].
    by apply has_replicate_inv in Hv. }
  split; simpl; try (rewrite ?length_insert, length_replicate; lia).
  - rewrite (has_set _ _ _ _ _ _ Hm). split; [auto|]. apply has_replicate. lia.
  - intros v Hv. apply has_bound in Hv. rewrite length_replicate in Hv. apply has_replicate. lia.
  - intros v k Hv. apply Hk in Hv. lia.
  - intros v k Hv. apply Hk in Hv. lia.
  - intros v [Hv|(k & Hv & Hlt)]; [by left|]. apply Hk in Hv. lia.
  - intros v Hv. by apply elem_of_nil in Hv.
  - intros u v Hu (es' & w & Hes' & Hin). apply Honly in Hu as ->. right. split; [done|].
    rewrite (has_fun _ _ _ _ Hes' Hes) in Hin. apply list_elem_of_fmap. by exists (v, w).
  - intros v Hv. by apply Honly in Hv as ->.
Qed.

Lemma root_step fuel es : has (Adj_ G) 0 es →
  loop (S fuel) G (mkState [(0, 0)] (replicate (Z.to_nat (V_ G)) false) (replicate (Z.to_nat (V_ G)) INT_MIN)
    (replicate (Z.to_nat (V_ G)) (-1)) [])
  = (s ← relax_all 0 es (mkState [] (<[Z.to_nat 0 := true]> (replicate (Z.to_nat (V_ G)) false))
      (replicate (Z.to_nat (V_ G)) INT_MIN) (replicate (Z.to_nat (V_ G)) (-1)) [Elem 0]); loop fuel G s).
Proof.
  intros Hes. assert (Hm : has (replicate (Z.to_nat (V_ G)) false) 0 false) by (apply has_replicate; destruct wf; lia).
  cbn [loop pop_max pq]. cbn [mst key parent cout app]. rewrite (E_bind_Ok _ _ _ (has_at _ _ _ Hm)).
  rewrite (E_bind_Ok _ _ _ (set_at_run _ _ _ _ Hm)). unfold adjacent. by rewrite (E_bind_Ok _ _ _ (has_at _ _ _ Hes)).
Qed.

(** The parents lead from every vertex that the edges join to the root up to the root, and
    no other vertex has a parent. *)
Definition spanning_tree (p : list VertexTy) : Prop :=
  Z.of_nat (length p) = V_ G ∧ has p 0 (-1) ∧
  ∀ v, 0 <= v < V_ G →
    (rtc arc 0 v → rtc (λ v u, has p v u ∧ arc u v) v 0) ∧
    (¬ rtc arc 0 v → has p v (-1)).

Lemma inv_spanning s elt : inv s elt [] → pq s = [] → spanning_tree (parent s).
Proof.
  intros Hi Hpq. destruct Hi. split; [done|]. split; [by apply inv_root0|].
  assert (Hin : ∀ v, reached s v → has (mst s) v true).
  { intros v Hv. destruct (inv_queued0 v Hv) as [|Hq]; [done|]. rewrite Hpq in Hq. by apply elem_of_nil in Hq. }
  assert (Hall : ∀ u v, rtc arc u v → has (mst s) u true → has (mst s) v true).
  { intros u v. induction 1 as [|x y z Hxy _ IH]; [done|]. intros Hx. apply IH, Hin.
    destruct (inv_closed0 x y Hx Hxy) as [|[_ Hn]]; [done|]. by apply elem_of_nil in Hn. }
  assert (Hback : ∀ v w, rtc (up s) v w → rtc arc w v).
  { intros v w. induction 1 as [|x y z (_ & _ & Hxy) _ IH]; [done|]. by apply rtc_r with y. }
  intros v Hv. split; intros Hr.
  - eapply rtc_subrel; [|apply inv_up0, (Hall 0 v Hr), inv_root0]. by intros x y (_ & Hxy).
  - destruct (has_some (key s) v _ inv_key0 Hv) as [k Hk]. pose proof (inv_low0 v k Hk).
    destruct (decide (k = INT_MIN)) as [->|Hne]; [by apply inv_unseen0|].
    destruct Hr. apply Hback, inv_up0, Hin. right. exists k. split; [done|lia].
Qed.

Lemma prim_run : ∃ p out, prim G = Some (Ok (p, out)) ∧ spanning_tree p.
Proof.
  destruct wf as (Hpos & Hlen & Hwf). unfold prim, first. rewrite (proj2 (Z.eqb_neq _ _)) by lia.
  rewrite (E_bind_Ok (mret 0) _ 0 eq_refl). rewrite !vector_run by lia.
  rewrite !(E_bind_Ok (Some (Ok _)) _ _ eq_refl).
  destruct (has_some (Adj_ G) 0 (V_ G) Hlen ltac:(lia)) as [es Hes].
  rewrite (root_step _ es Hes).
  destruct (expand_run _ 0 es Hes (root_inv es Hes)) as (s1 & Hrun & Hi & Hm & Hl).
  { simpl. rewrite (has_set _ _ _ _ _ _ (has_replicate (V_ G) false 0 ltac:(lia))). auto. }
  rewrite (E_bind_Ok _ _ _ Hrun).
  destruct (loop_run (S (degrees (Adj_ G))) s1 0 Hi) as (s' & Hrun' & Hi' & Hpq).
  { rewrite Hm. simpl in *.
    pose proof (pending_set _ _ _ _ (has_replicate (V_ G) false 0 ltac:(lia)) Hes) as Hp.
    rewrite pending_none in Hp by lia. change (Z.to_nat 0) with 0%nat in *. lia. }
  rewrite (E_bind_Ok _ _ _ Hrun'). exists (parent s'), (cout s'). split; [done|]. by apply inv_spanning with 0.
Qed.
End tree.

(** *** Graphs given by their edges *)
Definition joins (es : list Edge) (u v w : Z) : Prop := mkEdge u v w ∈ es ∨ mkEdge v u w ∈ es.
Definition joined (es : list Edge) (u v : Z) : Prop := ∃ w, joins es u v w.
Definition valid_edge (V : Z) (e : Edge) : Prop := 0 <= edge_u e < V ∧ 0 <= edge_v e < V ∧ INT_MIN < edge_w e.

Definition built (V : Z) (G : Graph) (es : list Edge) : Prop :=
  V_ G = V ∧ Z.of_nat (length (Adj_ G)) = V ∧
  ∀ u l v w, has (Adj_ G) u l → (v, w) ∈ l ↔ joins es u v w.

Lemma push_edge (adj : list (list PairTy)) u l p : has adj u l →
  ∀ x l', has (<[Z.to_nat u := l ++ [p]]> adj) x l' →
    ∃ l0, has adj x l0 ∧ ∀ q, q ∈ l' ↔ q ∈ l0 ∨ x = u ∧ q = p.
Proof.
  intros Hu x l'. rewrite (has_set _ _ _ _ _ _ Hu). intros [[-> ->]|[Hne Hx]].
  - exists l. split; [done|]. intros q. rewrite elem_of_app, list_elem_of_singleton. naive_solver.
  - exists l'. split; [done|]. naive_solver.
Qed.

Lemma addEdge_run V G es e : built V G es → valid_edge V e →
  ∃ G', addEdge G e = Some (Ok G') ∧ built V G' (es ++ [e]).
Proof.
  intros (HV & Hlen & Hb) (Hu & Hv & Hw). unfold addEdge. destruct e as [u v w]; simpl in *.
  destruct (has_some _ u _ Hlen Hu) as [lu Hlu]. rewrite (E_bind_Ok _ _ _ (has_at _ _ _ Hlu)).
  rewrite (E_bind_Ok _ _ _ (set_at_run _ _ _ _ Hlu)).
  destruct (has_some (<[Z.to_nat u := lu ++ [(v, w)]]> (Adj_ G)) v V) as [lv Hlv]; [by rewrite length_insert|done|].
  rewrite (E_bind_Ok _ _ _ (has_at _ _ _ Hlv)), (E_bind_Ok _ _ _ (set_at_run _ _ _ _ Hlv)).
  eexists. split; [done|]. split; [done|]. simpl. split; [by rewrite !length_insert|].
  intros x l y z Hx.
  destruct (push_edge _ _ _ _ Hlv x l Hx) as (l1 & Hl1 & Hin1).
  destruct (push_edge _ _ _ _ Hlu x l1 Hl1) as (l0 & Hl0 & Hin0).
  rewrite Hin1, Hin0, (Hb x l0 y z Hl0). unfold joins. rewrite !elem_of_app, !list_elem_of_singleton.
  split; [intros [[[|]|[-> [= -> ->]]]|[-> [= -> ->]]]; auto|].
  intros [[|[= -> -> ->]]|[|[= -> -> ->]]]; auto.
Qed.

Lemma addEdges_run V es : ∀ G es0, built V G es0 → Forall (valid_edge V) es →
  ∃ G', addEdges G es = Some (Ok G') ∧ built V G' (es0 ++ es).
Proof.
  induction es as [|e es IH]; intros G es0 Hb Hes; simpl.
  { exists G. by rewrite app_nil_r. }
  apply Forall_cons in Hes as [He Hes]. destruct (addEdge_run V G es0 e Hb He) as (G1 & Hrun & Hb1).
  destruct (IH G1 (es0 ++ [e]) Hb1 Hes) as (G2 & Hrun2 & Hb2).
  exists G2. rewrite (E_bind_Ok _ _ _ Hrun). split; [done|]. by rewrite <-app_assoc in Hb2.
Qed.

Lemma graph_run V es : 0 <= V → Forall (valid_edge V) es →
  ∃ G, (g ← Graph_ctor V; addEdges g es) = Some (Ok G) ∧ built V G es.
Proof.
  intros HV Hes. unfold Graph_ctor. rewrite vector_run by lia.
  rewrite (E_bind_Ok (Some (Ok (replicate (Z.to_nat V) [])) ≫= _) _ (mkGraph V (replicate (Z.to_nat V) [])) eq_refl).
  apply (addEdges_run V es (mkGraph V (replicate (Z.to_nat V) [])) []); [|done].
  split; [done|]. split; [simpl; rewrite length_replicate; lia|].
  intros u l v w Hl. apply has_replicate_inv in Hl as ->. unfold joins. rewrite !elem_of_nil. tauto.
Qed.

Lemma built_arc V G es : built V G es → ∀ u v, arc G u v ↔ joined es u v ∧ 0 <= u < V.
Proof.
  intros (HV & Hlen & Hb) u v. split.
  - intros (l & w & Hl & Hin). split; [|rewrite <-Hlen; by apply (has_bound _ _ l)]. exists w. by apply (Hb u l).
  - intros [[w Hj] Hu]. destruct (has_some _ u _ Hlen Hu) as [l Hl]. exists l, w. split; [done|]. by apply (Hb u l).
Qed.

Lemma built_well_formed V G es : 0 < V → Forall (valid_edge V) es → built V G es → well_formed G.
Proof.
  intros HV Hes (HVG & Hlen & Hb). split; [lia|]. rewrite HVG. split; [done|].
  intros u l v w Hl Hin. apply (Hb u l v w Hl) in Hin. rewrite Forall_forall in Hes.
  destruct Hin as [Hin|Hin]; destruct (Hes _ Hin) as (? & ? & ?); done.
Qed.

Lemma joined_bound V es u v : Forall (valid_edge V) es → joined es u v → 0 <= u < V.
Proof.
  intros Hes (w & [Hin|Hin]); rewrite Forall_forall in Hes; destruct (Hes _ Hin) as (? & ? & ?); done.
Qed.

(** C32: on a graph built by [addEdge] from any edges between its vertices (weights above
    [INT_MIN], with which [key] starts), [prim] ends without an access out of a vector, and
    its result is a spanning tree of what is joined to vertex 0: the parents lead from each
    of these vertices along edges of the graph to the root 0, which has none, and no other
    vertex has a parent. *)
Theorem prim_spans (V : Z) (es : list Edge) : 0 < V → Forall (valid_edge V) es →
  ∃ G p out, (g ← Graph_ctor V; addEdges g es) = Some (Ok G) ∧ prim G = Some (Ok (p, out)) ∧
    Z.of_nat (length p) = V ∧ has p 0 (-1) ∧
    ∀ v, 0 <= v < V →
      (rtc (joined es) 0 v → rtc (λ x y, has p x y ∧ joined es y x) v 0) ∧
      (¬ rtc (joined es) 0 v → has p v (-1)).
Proof.
  intros HV Hes. destruct (graph_run V es ltac:(lia) Hes) as (G & Hrun & Hb).
  destruct (prim_run G (built_well_formed V G es HV Hes Hb)) as (p & out & Hprim & Hlen & Hroot & Htree).
  exists G, p, out. split; [done|]. split; [done|].
  assert (HVG : V_ G = V) by apply Hb. rewrite HVG in *. split; [done|]. split; [done|].
  assert (Harc : ∀ u v, arc G u v ↔ joined es u v).
  { intros u v. rewrite (built_arc V G es Hb). split; [tauto|]. intros Hj. split; [done|]. by apply (joined_bound V es u v). }
  assert (Hr : ∀ v, rtc (arc G) 0 v ↔ rtc (joined es) 0 v).
  { intros v. split; apply rtc_subrel; intros x y; apply Harc. }
  intros v Hv. destruct (Htree v Hv) as [H1 H2]. rewrite Hr in H1, H2. split; [|done].
  intros Hc. eapply rtc_subrel; [|exact (H1 Hc)]. intros x y [Hx Hxy]. split; [done|]. by apply Harc.
Qed.

Lemma prim_spans_witness :
  ∃ G p out, (g ← Graph_ctor 9; addEdges g Elist) = Some (Ok G) ∧ prim G = Some (Ok (p, out)) ∧
    Z.of_nat (length p) = 9 ∧ has p 0 (-1) ∧
    ∀ v, 0 <= v < 9 →
      (rtc (joined Elist) 0 v → rtc (λ x y, has p x y ∧ joined Elist y x) v 0) ∧
      (¬ rtc (joined Elist) 0 v → has p v (-1)).
Proof.
  apply (prim_spans 9 Elist); [lia|].
  repeat constructor; simpl; unfold INT_MIN; lia.
Defined.

(** The queue yields the vertex of the largest number, not the one of the heaviest edge: on
    the edges of the program, a tree of weight 71 spans them and the answer weighs 65. *)
Definition edge_weight (es : list Edge) (p : VertexTy * Z) : Z :=
  Z.of_nat (sum_list_with (λ e, if bool_decide (edge_u e = p.1 ∧ edge_v e = p.2 ∨ edge_u e = p.2 ∧ edge_v e = p.1)
                      then Z.to_nat (edge_w e) else 0%nat) es).

Example answer_is_not_heaviest :
  foldr (λ p s, edge_weight Elist p + s) 0 [(7, 1); (3, 2); (5, 3); (5, 4); (6, 5); (8, 6); (0, 7); (7, 8)] = 65 ∧
  foldr (λ p s, edge_weight Elist p + s) 0 [(7, 1); (1, 2); (2, 3); (5, 4); (3, 5); (8, 6); (0, 7); (7, 8)] = 71.
Proof. vm_compute. done. Qed.
