(* ===== verification/MyVecOld.v ===== *)
(** * The first vectors: [src/archive/09-exceptions/myvec-1.cc] to [myvec-3.cc]

    The ancestors of the vectors of [MyVec] and [MyVecBuf], over the same store; the methods
    that have not changed since are those of the later files. The first two have no
    destructor. *)

From S2P Require Import Prelude VecStore VecFacts MyVec MyVecBuf.

(** ** [myvec-1.cc] *)
Module Old1.
Definition ctor : Z → X vstore ptr := Vec1.ctor.
Definition copy_ctor : ptr → X vstore ptr := Vec1.copy_ctor.
Definition move_ctor : ptr → C vstore ptr := Vec1.move_ctor.
Definition move_assign : ptr → ptr → C vstore () := Vec1.move_assign.
Definition copy_assign : ptr → ptr → X vstore () := Vec1.copy_assign.
Definition pop : ptr → X vstore T := Vec1.pop.
Definition push : ptr → T → X vstore () := Vec1.push.
Definition size : ptr → C vstore Z := Vec1.size.
Definition capacity : ptr → C vstore Z := Vec1.capacity.
End Old1.

(** ** [myvec-2.cc] *)
Module Old2.
Definition safe_copy : ptr → Z → Z → X vstore ptr := Vec2.safe_copy.
Definition ctor : Z → X vstore ptr := Vec2.ctor.

(** The whole array is copied, unlike in the later version. *)
Definition copy_ctor (rhs : ptr) : X vstore ptr :=
  r ← call (load rhs);
  arr ← safe_copy (arr_ r) (size_ r) (size_ r);
  call (declare (Vec arr (size_ r) (used_ r))).

Definition move_ctor : ptr → C vstore ptr := Vec2.move_ctor.
Definition move_assign : ptr → ptr → C vstore () := Vec2.move_assign.

(** [std::swap]: a move construction and two move assignments. *)
Definition swap (a b : ptr) : C vstore () :=
  tmp ← move_ctor a; move_assign a b;; move_assign b tmp;; leave_scope tmp.

Definition copy_assign (this rhs : ptr) : X vstore () :=
  tmp ← copy_ctor rhs; call (swap this tmp);; call (leave_scope tmp).

Definition top (this : ptr) : X vstore T :=
  v ← call (load this);
  if used_ v <? 1 then throw (runtime_error "Vector is empty")
  else (r ← call (object (arr_ v) (used_ v - 1)); copy_T r).

Definition pop (this : ptr) : X vstore () :=
  v ← call (load this);
  if used_ v <? 1 then throw (runtime_error "Vector is empty")
  else call (store this (Vec (arr_ v) (size_ v) (used_ v - 1))).

(** The assertions are commented out. *)
Definition push (this : ptr) (t : T) : X vstore () :=
  v ← call (load this);
  (if used_ v =? size_ v then
    let newsz := u64 (size_ v * 2 + 1) in
    newarr ← safe_copy (arr_ v) (size_ v) newsz;
    call (delete_array (arr_ v));;
    call (store this (Vec newarr newsz (used_ v)))
  else mret ());;
  v ← call (load this);
  assign_T (arr_ v) (used_ v) t;;
  call (store this (Vec (arr_ v) (size_ v) (used_ v + 1))).

Definition size : ptr → C vstore Z := Vec2.size.
Definition capacity : ptr → C vstore Z := Vec2.capacity.
End Old2.

(** ** [myvec-3.cc] *)
Module Old3.

(** [while (first++ != last) destroy(&*first);] on the elements [first .. last] of a block *)
Fixpoint destroy_range (fuel : nat) (p : ptr) (first last : Z) : C vstore () :=
  match fuel with
  | O => undefined
  | S fuel =>
    let old := first in
    let first := first + 1 in
    if old =? last then mret () else (destroy p first;; destroy_range fuel p first last)
  end.

Definition buf_ctor : Z → X vstore vec := Buf.ctor.

Definition buf_dtor (this : ptr) : C vstore () :=
  v ← load this;
  destroy_range (S (Z.to_nat (used_ v))) (arr_ v) 0 (used_ v);;
  operator_delete (arr_ v).

(** The members are exchanged. *)
Definition swap (this rhs : ptr) : C vstore () := swap_vec this rhs.

Definition ctor (sz : Z) : X vstore ptr := v ← buf_ctor sz; call (declare v).

Definition copy_ctor (rhs : ptr) : X vstore ptr :=
  r ← call (load rhs);
  v ← buf_ctor (used_ r);
  this ← call (declare v);
  on_throw (Buf.fill (S (Z.to_nat (used_ r))) this rhs (λ p i, x ← call (object p i); Buf.append this x))
    (buf_dtor this;; leave_scope this);;
  mret this.

Definition copy_assign (this rhs : ptr) : X vstore () :=
  tmp ← copy_ctor rhs; scoped tmp buf_dtor (call (swap this tmp)).

Definition top : ptr → X vstore T := Buf.top.
Definition pop : ptr → X vstore () := Buf.pop.

(** [depth] bounds the recursion. *)
Fixpoint push (depth : nat) (this : ptr) (t : T) : X vstore () :=
  match depth with
  | O => call undefined
  | S depth =>
    v ← call (load this);
    check_that (used_ v <=? size_ v);;
    if used_ v =? size_ v then
      tmp ← ctor (u64 (size_ v * 2 + 1));
      scoped tmp buf_dtor (
        Buf.fill (S (Z.to_nat (used_ v))) tmp this (λ p i, x ← call (object p i); push depth tmp x);;
        push depth tmp t;;
        call (swap this tmp))
    else Buf.append this t
  end.

Definition size : ptr → C vstore Z := Buf.size.
Definition capacity : ptr → C vstore Z := Buf.capacity.
End Old3.

(** ** What has been corrected since *)
Section facts.
Implicit Types (s : vstore) (p o : ptr).

Definition no_object (cs : list cell) (i : nat) : Prop := ∀ r, cs !! i ≠ Some (Obj r).

Lemma destroy_no_object s p cs i : blocks s !! p = Some cs → no_object cs i → destroy p (Z.of_nat i) s = None.
Proof.
  intros Hp Hi. unfold destroy. apply C_bind_None.
  destruct (cs !! i) as [[|r]|] eqn:Hc.
  - unfold object. by cstep_by (read_cell_run s p cs i _ Hp Hc).
  - by destruct (Hi r).
  - apply object_none with cs; [done|]. by apply lookup_ge_None.
Qed.

Lemma destroy_cases s p cs i : blocks s !! p = Some cs →
  destroy p (Z.of_nat i) s = None ∨
  ∃ s', destroy p (Z.of_nat i) s = Some ((), s') ∧ blocks s' !! p = Some (<[i := Raw]> cs).
Proof.
  intros Hp. destruct (cs !! i) as [[|r]|] eqn:Hc; [left|right|left].
  - apply destroy_no_object with cs; [done|]. intros r. by rewrite Hc.
  - destruct (destroy_cell_run s p cs i r Hp Hc) as (s' & Hrun & [Hb _ _]).
    exists s'. split; [done|]. by rewrite Hb, lookup_insert_eq.
  - apply destroy_no_object with cs; [done|]. intros r. by rewrite Hc.
Qed.

(** The destruction starts at the second element and ends one past the last. *)
Lemma old_destroy_undefined n : ∀ fuel s p cs (i : nat),
  blocks s !! p = Some cs → no_object cs (S i + n) →
  Old3.destroy_range fuel p (Z.of_nat i) (Z.of_nat (S i + n)) s = None.
Proof.
  induction n as [|n IH]; intros [|fuel] s p cs i Hp Hend; try done; cbn [Old3.destroy_range];
    rewrite (proj2 (Z.eqb_neq _ _)) by lia; replace (Z.of_nat i + 1) with (Z.of_nat (S i)) by lia.
  - apply C_bind_None. rewrite Nat.add_0_r in Hend. by apply destroy_no_object with cs.
  - destruct (destroy_cases s p cs (S i) Hp) as [Hd|(s' & Hd & Hb)]; [by apply C_bind_None|].
    cstep_by Hd. replace (S i + S n)%nat with (S (S i) + n)%nat in * by lia.
    apply IH with (<[S i := Raw]> cs); [done|]. intros r. rewrite list_lookup_insert_ne by lia. apply Hend.
Qed.

Lemma old_dtor_empty s o v B O : own s o v [] B O → Old3.buf_dtor o s = Buf.dtor o s.
Proof.
  intros Hown. unfold Old3.buf_dtor, Buf.dtor. do 2 cstep_by (own_load s o v [] B O Hown).
  rewrite (own_used _ _ _ _ _ _ Hown). done.
Qed.

Lemma old_dtor_undefined s o v rs B O : own s o v rs B O → rs ≠ [] → Old3.buf_dtor o s = None.
Proof.
  intros Hown Hne. unfold Old3.buf_dtor. cstep_by (own_load s o v rs B O Hown).
  apply C_bind_None. destruct rs as [|r rs]; [done|].
  pose proof (own_used _ _ _ _ _ _ Hown) as Hused. pose proof (own_cap _ _ _ _ _ _ Hown) as Hcap.
  assert (Hp : arr_ v ≠ 0%nat).
  { intros H0%(own_null _ _ _ _ _ _ Hown). cbn in Hused. lia. }
  pose proof (own_blocks _ _ _ _ _ _ Hown) as Hb. unfold put_block in Hb. rewrite decide_False in Hb by done.
  rewrite Hused. apply (old_destroy_undefined (length rs) _ s (arr_ v) (cells (r :: rs) v) 0).
  - by rewrite Hb, lookup_insert_eq.
  - intros x. unfold cells. rewrite lookup_app_r by (rewrite length_fmap; cbn; lia).
    intros Hx. by apply lookup_replicate in Hx as [].
Qed.

Lemma old_swap_undefined a b s : Old2.swap a b s = None.
Proof.
  unfold Old2.swap. destruct (Old2.move_ctor a s) as [[tmp s1]|] eqn:H1; [|by apply C_bind_None].
  cstep_by H1. apply C_bind_None. unfold Old2.move_assign, Vec2.move_assign.
  destruct (swap_vec a b s1) as [[[] s2]|] eqn:H2; [|by apply C_bind_None]. by cstep_by H2.
Qed.

(** The move assignment that [std::swap] calls does not return a value. *)
Lemma old_copy_assign_never_returns this rhs s s' : Old2.copy_assign this rhs s ≠ Some (Ok (), s').
Proof.
  unfold Old2.copy_assign. destruct (Old2.copy_ctor rhs s) as [[[tmp|e] s1]|] eqn:H1.
  - cstep_by H1. by rewrite X_bind_None by (unfold call; by rewrite old_swap_undefined).
  - by cstep_by H1.
  - by rewrite X_bind_None.
Qed.

(** Without its assertions [push] does what the later version does on a vector. *)
Lemma old_push_agrees s o v t :
  objs s !! o = Some v → used_ v <= size_ v → 0 <= size_ v < 2 ^ 63 - 1 → Old2.push o t s = Vec2.push o t s.
Proof.
  intros Ho Hle Hsz. assert (Hu : u64 (size_ v * 2 + 1) = size_ v * 2 + 1) by (apply u64_small; unfold is_u64; lia).
  assert (Hload : load o s = Some (v, s)) by (unfold load; cunfold; by rewrite Ho).
  unfold Old2.push, Vec2.push. erewrite X_bind_Ok by (unfold call; by rewrite Hload).
  symmetry. erewrite X_bind_Ok by (unfold call; by rewrite Hload).
  rewrite (proj2 (Z.leb_le _ _)) by done. cstep.
  destruct (used_ v =? size_ v) eqn:Heq; [|done]. apply Z.eqb_eq in Heq. rewrite Hu.
  rewrite (proj2 (Z.ltb_lt (used_ v) _)) by lia. rewrite !X_bind_assoc. unfold Old2.safe_copy.
  destruct (Vec2.safe_copy (arr_ v) (size_ v) (size_ v * 2 + 1) s) as [[[p|e] s1]|] eqn:H1.
  - cstep_by H1. symmetry. cstep_by H1. rewrite !X_bind_assoc.
    destruct (delete_array (arr_ v) s1) as [[[] s2]|] eqn:H2.
    + erewrite X_bind_Ok by (unfold call; by rewrite H2). symmetry.
      erewrite X_bind_Ok by (unfold call; by rewrite H2). by rewrite !X_bind_assoc.
    + rewrite X_bind_None by (unfold call; by rewrite H2). by rewrite X_bind_None by (unfold call; by rewrite H2).
  - cstep_by H1. symmetry. by cstep_by H1.
  - rewrite X_bind_None by done. by rewrite X_bind_None.
Qed.

(** The strong guarantee, as for the later version. *)
Lemma old_push_run s o xs t :
  vwf s → has_vector s o xs → (∀ v, objs s !! o = Some v → size_ v < 2 ^ 63 - 1) →
  ∃ r s', Old2.push o (Some t) s = Some (r, s') ∧
    other_blocks s' o = other_blocks s o ∧ (∀ q, q ≠ o → objs s' !! q = objs s !! q) ∧
    (r = Ok () ∧ has_vector s' o (xs ++ [t]) ∨ r = Throw bad_alloc ∧ has_vector s' o xs).
Proof.
  intros Hwf Hv Hsz. pose proof Hv as (v & ys & [Ho Hused Hsize Hpre _]).
  apply prefix_length in Hpre. specialize (Hsz v Ho) as Hlt.
  rewrite (old_push_agrees s o v) by (done || lia). by apply push2_run.
Qed.
End facts.

(** The programs with [Controllable] objects: the first two release nothing, the third has
    no behaviour once a vector that is not empty is destroyed. *)
Definition no_dtor (_ : ptr) : C vstore () := mret ().
Definition old_demo1 := demo Old1.ctor no_dtor Old1.copy_ctor Old1.push Old1.size.
Definition old_demo2 := demo Old2.ctor no_dtor Old2.copy_ctor Old2.push Old2.size.
Definition old_demo3 := demo Old3.ctor Old3.buf_dtor Old3.copy_ctor (Old3.push 2) Old3.size.

Example old_demo1_leaks : length <$> (snd <$> old_demo1) = Some 2%nat.
Proof. vm_compute. reflexivity. Qed.

Example old_demo2_leaks : length <$> (snd <$> old_demo2) = Some 1%nat.
Proof. vm_compute. reflexivity. Qed.

Example old_demo3_undefined : old_demo3 = None.
Proof. vm_compute. reflexivity. Qed.
