(* ===== verification/Sbt.v ===== *)
(** * The Stern-Brocot tree: [src/archive/older/09-containers/sbt.cc], [sbt.h] and
    [adapters-queue.cc] *)

From Stdlib Require Import SpecFloat.
From S2P Require Import Prelude CInt.

Module SBT.
Definition rational_t : Type := Z * Z.
Definition contfrac_t : Type := list Z.
Definition top : rational_t := (1, 1).

Fixpoint gcd_loop (fuel : nat) (a b : Z) : E Z :=
  match fuel with
  | O => None
  | S fuel => if b =? 0 then mret a else (t ← irem a b; gcd_loop fuel b t)
  end.
Definition gcd (a b : Z) : E Z :=
  let '(a, b) := if a <? b then (b, a) else (a, b) in gcd_loop (S (Z.abs_nat b)) a b.

Fixpoint to_contfrac_loop (fuel : nat) (x y : Z) (res : contfrac_t) : E contfrac_t :=
  match fuel with
  | O => None
  | S fuel =>
    i ← idiv x y;
    let res := res ++ [i] in
    f ← irem x y;
    if f =? 0 then mret res
    else
      let x := y in let y := f in
      cdiv ← gcd x y;
      x ← idiv x cdiv;
      y ← idiv y cdiv;
      to_contfrac_loop fuel x y res
  end.
Definition to_contfrac (x y : Z) : E contfrac_t :=
  require (negb (y =? 0));; to_contfrac_loop (S (Z.abs_nat y)) x y [].

(** One step: [tie(x, y) = make_pair(cur * x + y, x)] and the reduction. *)
Definition from_contfrac_step (cur : Z) (r : rational_t) : E rational_t :=
  let '(x, y) := r in
  p ← int (cur * x); s ← int (p + y);
  let '(x, y) := (s, x) in
  cdiv ← gcd x y;
  x ← idiv x cdiv;
  y ← idiv y cdiv;
  mret (x, y).
Fixpoint from_contfrac_loop (rest : list Z) (r : rational_t) : E rational_t :=
  match rest with [] => mret r | cur :: rest => r ← from_contfrac_step cur r; from_contfrac_loop rest r end.
Definition from_contfrac (cf : contfrac_t) : E rational_t :=
  match reverse cf with
  | [] => None
  | x :: rest => from_contfrac_loop rest (x, 1)
  end.

(** [static_cast<double>] *)
Definition to_double (z : Z) : spec_float := binary_normalize 53 1024 z 0 false.
Definition quotient (r : rational_t) : spec_float := SFdiv 53 1024 (to_double r.1) (to_double r.2).
Definition rational_min (x1 x2 : rational_t) : rational_t := if SFltb (quotient x2) (quotient x1) then x2 else x1.
Definition rational_max (x1 x2 : rational_t) : rational_t := if SFleb (quotient x1) (quotient x2) then x2 else x1.

(** [cf.back() += d] *)
Definition add_back (cf : contfrac_t) (d : Z) : E contfrac_t :=
  b ← checked (last cf); b ← int (b + d); mret (removelast cf ++ [b]).

Definition childs (cur : rational_t) : E (rational_t * rational_t) :=
  cf ← to_contfrac cur.1 cur.2;
  let cf2 := cf in
  cf ← add_back cf 1;
  cf2 ← add_back cf2 (-1);
  let cf2 := cf2 ++ [2] in
  elt1 ← from_contfrac cf;
  elt2 ← from_contfrac cf2;
  mret (rational_min elt1 elt2, rational_max elt1 elt2).

(** [Rational_Greater] as the order of the queue: [x1] is below [x2]. *)
Definition Rational_Greater (x1 x2 : rational_t) : bool := SFltb (quotient x2) (quotient x1).
End SBT.

(** ** [adapters-queue.cc]: the traversals, with what is printed *)
Module Queues.
Import SBT.

Definition inner (cur : rational_t) : bool := (cur.1 <? 4) && (cur.2 <? 4).

Fixpoint test_stack_loop (fuel : nat) (s : list rational_t) (out : list rational_t) : E (list rational_t) :=
  match fuel, s with
  | O, _ => None
  | _, [] => mret out
  | S fuel, cur :: s =>
    s ← (if inner cur then c ← childs cur; mret (c.1 :: c.2 :: s) else mret s);
    test_stack_loop fuel s (out ++ [cur])
  end.
Definition test_stack : E (list rational_t) := test_stack_loop 100 [top] [].

Fixpoint test_queue_loop (fuel : nat) (q : list rational_t) (out : list rational_t) : E (list rational_t) :=
  match fuel, q with
  | O, _ => None
  | _, [] => mret out
  | S fuel, cur :: q =>
    q ← (if inner cur then c ← childs cur; mret (q ++ [c.1; c.2]) else mret q);
    test_queue_loop fuel q (out ++ [cur])
  end.
Definition test_queue : E (list rational_t) := test_queue_loop 100 [top] [].

(** [priority_queue]: a top is an element that is below no other. *)
Fixpoint pop_top (pq : list rational_t) : option (rational_t * list rational_t) :=
  match pq with
  | [] => None
  | p :: pq => match pop_top pq with
    | None => Some (p, [])
    | Some (q, r) => if Rational_Greater p q then Some (q, p :: r) else Some (p, q :: r)
    end
  end.
Fixpoint drain (fuel : nat) (pq : list rational_t) : E (list rational_t) :=
  match fuel with
  | O => None
  | S fuel => match pop_top pq with
    | None => mret []
    | Some (cur, pq) => out ← drain fuel pq; mret (cur :: out)
    end
  end.
Definition test_priqueue : E (list rational_t) :=
  pq ← test_queue; drain (S (length pq)) pq.

Definition main : E (list rational_t * list rational_t * list rational_t) :=
  a ← test_stack; b ← test_queue; c ← test_priqueue; mret (a, b, c).
End Queues.

Import SBT.

Example main_trees :
  Queues.main = Some (Ok (
    [(1, 1); (1, 2); (1, 3); (1, 4); (2, 5); (2, 3); (3, 5); (3, 4); (2, 1); (3, 2); (4, 3); (5, 3); (3, 1); (5, 2); (4, 1)],
    [(1, 1); (1, 2); (2, 1); (1, 3); (2, 3); (3, 2); (3, 1); (1, 4); (2, 5); (3, 5); (3, 4); (4, 3); (5, 3); (5, 2); (4, 1)],
    [(1, 4); (1, 3); (2, 5); (1, 2); (3, 5); (2, 3); (3, 4); (1, 1); (4, 3); (3, 2); (5, 3); (2, 1); (5, 2); (3, 1); (4, 1)])).
Proof. vm_compute. reflexivity. Qed.

(** ** Greatest common divisors *)
Lemma gcd_loop_run fuel : ∀ a b, 0 <= a → 0 <= b → is_int a → is_int b → (Z.abs_nat b < fuel)%nat →
  gcd_loop fuel a b = Some (Ok (Z.gcd a b)).
Proof.
  induction fuel as [|fuel IH]; intros a b Ha Hb Hia Hib Hf; [lia|]. simpl.
  destruct (Z.eqb_spec b 0) as [->|Hne].
  { by rewrite Z.gcd_0_r, Z.abs_eq. }
  rewrite (E_bind_Ok _ _ _ (irem_ok a b Ha ltac:(lia) Hia)).
  pose proof (Z.mod_pos_bound a b ltac:(lia)) as Hm. unfold is_int in *.
  rewrite IH by lia. f_equal. f_equal. rewrite Z.gcd_comm, Z.gcd_mod by lia. apply Z.gcd_comm.
Qed.

Lemma gcd_run a b : 0 <= a → 0 <= b → is_int a → is_int b → gcd a b = Some (Ok (Z.gcd a b)).
Proof.
  intros Ha Hb Hia Hib. unfold gcd. destruct (a <? b).
  - rewrite gcd_loop_run by (done || lia). by rewrite Z.gcd_comm.
  - by apply gcd_loop_run; (done || lia).
Qed.

(** ** The value of a continued fraction *)
Definition cf_step (a : Z) (r : rational_t) : rational_t := (a * r.1 + r.2, r.1).
Definition app_cf (cf : contfrac_t) (r : rational_t) : rational_t := foldr cf_step r cf.
(** Numerators and denominators of lowest terms. *)
Definition lowest (r : rational_t) : Prop := 0 < r.1 ∧ 0 < r.2 ∧ Z.gcd r.1 r.2 = 1.

Lemma gcd_step a x y : Z.gcd (a * x + y) x = Z.gcd x y.
Proof. rewrite Z.add_comm, Z.gcd_comm. apply Z.gcd_add_mult_diag_r. Qed.

Lemma cf_step_lowest a r : 0 <= a → lowest r → lowest (cf_step a r).
Proof. unfold lowest. destruct r as [x y]. simpl. intros Ha (Hx & Hy & Hg). rewrite gcd_step. nia. Qed.

Lemma step_run a x y : 0 <= a → lowest (x, y) → a * x + y < 2 ^ 31 → x < 2 ^ 31 →
  from_contfrac_step a (x, y) = Some (Ok (a * x + y, x)).
Proof.
  unfold lowest. simpl. intros Ha (Hx & Hy & Hg) H1 H2.
  assert (0 <= a * x) by nia. unfold from_contfrac_step.
  rewrite (E_bind_Ok _ _ _ (int_ok (a * x) ltac:(unfold is_int; lia))).
  rewrite (E_bind_Ok _ _ _ (int_ok (a * x + y) ltac:(unfold is_int; lia))).
  rewrite (E_bind_Ok _ _ _ (gcd_run (a * x + y) x ltac:(lia) ltac:(lia) ltac:(unfold is_int; lia) ltac:(unfold is_int; lia))).
  rewrite gcd_step, Hg.
  rewrite (E_bind_Ok _ _ _ (idiv_ok (a * x + y) 1 ltac:(lia) ltac:(lia) ltac:(unfold is_int; lia))).
  rewrite (E_bind_Ok _ _ _ (idiv_ok x 1 ltac:(lia) ltac:(lia) ltac:(unfold is_int; lia))).
  by rewrite !Z.div_1_r.
Qed.

Lemma from_loop_app l1 l2 r : from_contfrac_loop (l1 ++ l2) r = (r ← from_contfrac_loop l1 r; from_contfrac_loop l2 r).
Proof.
  revert r. induction l1 as [|a l1 IH]; intros r; [done|]. cbn [app from_contfrac_loop].
  destruct (from_contfrac_step a r) as [[r'|e]|]; [|done..]. rewrite !(E_bind_Ok (Some (Ok r')) _ r' eq_refl). apply IH.
Qed.

Definition all_positive (cf : contfrac_t) : Prop := Forall (λ a, 1 <= a) cf.

(** Numerators grow towards the front. *)
Lemma app_cf_run cf r : all_positive cf → lowest r → (app_cf cf r).1 < 2 ^ 31 → r.1 < 2 ^ 31 →
  from_contfrac_loop (reverse cf) r = Some (Ok (app_cf cf r)) ∧ lowest (app_cf cf r) ∧ r.1 <= (app_cf cf r).1.
Proof.
  intros Hcf Hr. induction cf as [|a cf IH]; [intros _ _; done|].
  apply Forall_cons in Hcf as [Ha Hcf]. specialize (IH Hcf). intros Hlt Hr1.
  assert (Hlow : lowest (app_cf cf r)).
  { clear -Hcf Hr. induction cf as [|b cf IH]; [done|]. apply Forall_cons in Hcf as [Hb Hcf].
    apply cf_step_lowest; [lia|by apply IH]. }
  cbn [app_cf foldr] in *. fold (app_cf cf r) in *.
  destruct (app_cf cf r) as [x y] eqn:Heq. unfold lowest in Hlow. simpl in *.
  assert (x <= a * x + y) by nia.
  destruct (IH ltac:(lia) Hr1) as (Hrun & _ & Hle).
  rewrite reverse_cons, from_loop_app, (E_bind_Ok _ _ _ Hrun). cbn [from_contfrac_loop].
  rewrite (E_bind_Ok _ _ _ (step_run a x y ltac:(lia) Hlow Hlt ltac:(lia))).
  split; [done|]. split; [apply (cf_step_lowest a (x, y)); [lia|done]|lia].
Qed.

(** A whole fraction: the first coefficient may be 0, the last one starts. *)
Definition cf_value (cf : contfrac_t) (b : Z) : rational_t := app_cf cf (b, 1).

Lemma from_run cf b :
  1 <= b → Forall (λ a, 0 <= a) cf → all_positive (tail cf) →
  (cf_value cf b).1 < 2 ^ 31 → (cf_value cf b).2 < 2 ^ 31 → b < 2 ^ 31 →
  from_contfrac (cf ++ [b]) = Some (Ok (cf_value cf b)) ∧ lowest (cf_value cf b).
Proof.
  intros Hb H0 Hpos H1 H2 Hbs. unfold from_contfrac. rewrite reverse_app. cbn.
  assert (Hlow : lowest (b, 1)) by (split; [simpl; lia|split; [done|apply Z.gcd_1_r]]).
  destruct cf as [|a cf]; [done|]. unfold cf_value in *. cbn [app_cf foldr tail] in *. fold (app_cf cf (b, 1)) in *.
  apply Forall_cons in H0 as [Ha _].
  destruct (app_cf_run cf (b, 1) Hpos Hlow) as (Hrun & Hl & Hle); [exact H2|done|].
  rewrite reverse_cons, from_loop_app, (E_bind_Ok _ _ _ Hrun). cbn [from_contfrac_loop].
  destruct (app_cf cf (b, 1)) as [x y]. simpl in *.
  rewrite (E_bind_Ok _ _ _ (step_run a x y Ha Hl H1 H2)). split; [done|]. by apply (cf_step_lowest a (x, y)).
Qed.

(** The continued fraction of lowest terms. *)
Record expansion (x y : Z) (cf : contfrac_t) (b : Z) : Prop := {
  exp_value : cf_value cf b = (x, y);
  exp_nonneg : Forall (λ a, 0 <= a) cf;
  exp_tail : all_positive (tail cf);
  exp_last : 1 <= b ∧ (cf ≠ [] → 2 <= b);
  exp_head : y <= x → all_positive cf }.

Lemma all_positive_nonneg cf : all_positive cf → Forall (λ a, 0 <= a) cf.
Proof. intros Hcf. eapply Forall_impl; [exact Hcf|]. simpl. lia. Qed.

Lemma expansion_cons x y f cf b : 0 <= x → 0 < f < y → f = x `mod` y → expansion y f cf b →
  expansion x y (x / y :: cf) b.
Proof.
  intros Hx Hf Hm [Hv H0 Ht [Hb Hb2] Hh]. specialize (Hh ltac:(lia)).
  pose proof (Z.div_mod x y ltac:(lia)) as Hd. pose proof (Z.div_pos x y Hx ltac:(lia)). split.
  - unfold cf_value in *. cbn [app_cf foldr]. fold (app_cf cf (b, 1)). rewrite Hv. unfold cf_step. simpl. f_equal. lia.
  - constructor; [done|by apply all_positive_nonneg].
  - exact Hh.
  - split; [done|]. intros _. destruct cf as [|a cf]; [|by apply Hb2]. unfold cf_value in Hv. simpl in Hv.
    injection Hv as Hb1 Hf1. lia.
  - intros Hle. constructor; [|exact Hh]. apply Z.div_le_lower_bound; lia.
Qed.

Lemma to_loop_run fuel : ∀ x y res, lowest (x, y) → is_int x → is_int y → (Z.abs_nat y < fuel)%nat →
  ∃ cf b, to_contfrac_loop fuel x y res = Some (Ok (res ++ cf ++ [b])) ∧ expansion x y cf b.
Proof.
  induction fuel as [|fuel IH]; intros x y res (Hx & Hy & Hg) Hix Hiy Hf; [lia|]. simpl in *.
  rewrite (E_bind_Ok _ _ _ (idiv_ok x y ltac:(lia) Hy Hix)), (E_bind_Ok _ _ _ (irem_ok x y ltac:(lia) Hy Hix)).
  pose proof (Z.mod_pos_bound x y Hy) as Hm.
  assert (Hgm : Z.gcd y (x `mod` y) = 1) by (rewrite Z.gcd_comm, Z.gcd_mod, Z.gcd_comm by lia; done).
  destruct (Z.eqb_spec (x `mod` y) 0) as [H0|H0].
  - rewrite H0, Z.gcd_0_r, Z.abs_eq in Hgm by lia. subst y. exists [], x. rewrite Z.div_1_r.
    split; [done|]. split; [done|constructor|constructor|split; [lia|done]|constructor].
  - assert (Hif : is_int (x `mod` y)) by (unfold is_int in *; lia).
    rewrite (E_bind_Ok _ _ _ (gcd_run y (x `mod` y) ltac:(lia) ltac:(lia) Hiy Hif)), Hgm.
    rewrite (E_bind_Ok _ _ _ (idiv_ok y 1 ltac:(lia) ltac:(lia) Hiy)).
    rewrite (E_bind_Ok _ _ _ (idiv_ok (x `mod` y) 1 ltac:(lia) ltac:(lia) Hif)), !Z.div_1_r.
    destruct (IH y (x `mod` y) (res ++ [x / y])) as (cf & b & Hrun & Hexp); [|done|done|lia|].
    { unfold lowest. simpl. split; [lia|]. split; [lia|done]. }
    exists (x / y :: cf), b. rewrite Hrun, <-app_assoc. split; [done|]. by apply (expansion_cons x y (x `mod` y)); [lia..|].
Qed.

(** Dividing both by their divisor first makes no difference. *)
Lemma to_loop_scale fuel g x y res : 1 <= g → lowest (x, y) → is_int (g * x) → is_int (g * y) →
  to_contfrac_loop (S fuel) (g * x) (g * y) res = to_contfrac_loop (S fuel) x y res.
Proof.
  intros Hgg (Hx & Hy & Hg) Hix Hiy. simpl in *.
  assert (Hix' : is_int x) by (unfold is_int in *; nia). assert (Hiy' : is_int y) by (unfold is_int in *; nia).
  pose proof (Z.mod_pos_bound x y Hy) as Hm.
  assert (Hif : is_int (x `mod` y)) by (unfold is_int in *; lia).
  assert (Hif' : is_int (g * (x `mod` y))) by (unfold is_int in *; nia).
  rewrite (E_bind_Ok _ _ _ (idiv_ok (g * x) (g * y) ltac:(lia) ltac:(lia) Hix)).
  rewrite (E_bind_Ok _ _ _ (irem_ok (g * x) (g * y) ltac:(lia) ltac:(lia) Hix)).
  rewrite (E_bind_Ok _ _ _ (idiv_ok x y ltac:(lia) Hy Hix')), (E_bind_Ok _ _ _ (irem_ok x y ltac:(lia) Hy Hix')).
  rewrite Z.div_mul_cancel_l, Zmult_mod_distr_l by lia.
  destruct (Z.eqb_spec (x `mod` y) 0) as [->|H0]; [by rewrite Z.mul_0_r|].
  rewrite (proj2 (Z.eqb_neq _ _)) by nia.
  assert (Hgm : Z.gcd y (x `mod` y) = 1) by (rewrite Z.gcd_comm, Z.gcd_mod, Z.gcd_comm by lia; done).
  rewrite (E_bind_Ok _ _ _ (gcd_run (g * y) (g * (x `mod` y)) ltac:(lia) ltac:(nia) Hiy Hif')).
  rewrite (E_bind_Ok _ _ _ (gcd_run y (x `mod` y) ltac:(lia) ltac:(lia) Hiy' Hif)).
  rewrite Z.gcd_mul_mono_l_nonneg, Hgm, Z.mul_1_r by lia.
  rewrite (E_bind_Ok _ _ _ (idiv_ok (g * y) g ltac:(lia) ltac:(lia) Hiy)).
  rewrite (E_bind_Ok _ _ _ (idiv_ok (g * (x `mod` y)) g ltac:(nia) ltac:(lia) Hif')).
  rewrite (E_bind_Ok _ _ _ (idiv_ok y 1 ltac:(lia) ltac:(lia) Hiy')).
  rewrite (E_bind_Ok _ _ _ (idiv_ok (x `mod` y) 1 ltac:(lia) ltac:(lia) Hif)), !Z.div_1_r.
  by rewrite !(Z.mul_comm g), !Z.div_mul by lia.
Qed.

(** A fraction of positive [int]s is [g] times one in lowest terms. *)
Lemma reduced x y : 0 < x → 0 < y → ∃ x' y', lowest (x', y') ∧ x = Z.gcd x y * x' ∧ y = Z.gcd x y * y'.
Proof.
  intros Hx Hy. assert (Hg : 0 < Z.gcd x y).
  { pose proof (Z.gcd_nonneg x y). destruct (Z.eq_dec (Z.gcd x y) 0) as [H0|]; [|lia]. apply Z.gcd_eq_0_l in H0. lia. }
  pose proof (Z.gcd_divide_l x y) as [a Ha]. pose proof (Z.gcd_divide_r x y) as [b Hb].
  exists a, b. split; [|lia]. unfold lowest. simpl. split; [nia|]. split; [nia|].
  assert (Hm : Z.gcd (Z.gcd x y * a) (Z.gcd x y * b) = Z.gcd x y).
  { rewrite !(Z.mul_comm (Z.gcd x y)), <-Ha, <-Hb. done. }
  rewrite Z.gcd_mul_mono_l_nonneg in Hm by lia. nia.
Qed.

Lemma to_contfrac_run g x y : 1 <= g → lowest (x, y) → is_int (g * x) → is_int (g * y) →
  ∃ cf b, to_contfrac (g * x) (g * y) = Some (Ok (cf ++ [b])) ∧ expansion x y cf b.
Proof.
  intros Hg Hl Hix Hiy. pose proof Hl as (Hx & Hy & _). simpl in *. unfold to_contfrac.
  rewrite (proj2 (Z.eqb_neq _ _)) by nia. rewrite (E_bind_require _ _ eq_refl).
  rewrite to_loop_scale by done.
  apply (to_loop_run _ x y []); [done|unfold is_int in *; nia..|nia].
Qed.

(** ** Children *)

(** The coefficients before the last act linearly, with determinant 1 or -1. *)
Lemma app_cf_linear cf : Forall (λ a, 0 <= a) cf →
  ∃ h h' g g', 0 <= h ∧ 0 <= h' ∧ 0 <= g ∧ 0 <= g' ∧ (h * g' - h' * g = 1 ∨ h * g' - h' * g = -1) ∧
    ∀ x y, app_cf cf (x, y) = (h * x + h' * y, g * x + g' * y).
Proof.
  induction cf as [|a cf IH]; intros Hcf.
  - exists 1, 0, 0, 1. split_and!; try lia. intros x y. cbn. f_equal; lia.
  - apply Forall_cons in Hcf as [Ha Hcf]. destruct (IH Hcf) as (h & h' & g & g' & H1 & H2 & H3 & H4 & Hdet & Hlin).
    exists (a * h + g), (a * h' + g'), h, h'. split_and!; try nia.
    intros x y. cbn [app_cf foldr]. fold (app_cf cf (x, y)). rewrite Hlin. unfold cf_step. simpl. f_equal; lia.
Qed.

Lemma add_back_run cf b d : is_int (b + d) → add_back (cf ++ [b]) d = Some (Ok (cf ++ [b + d])).
Proof.
  intros Hi. unfold add_back. rewrite last_snoc. rewrite (E_bind_checked _ _ _ eq_refl), (E_bind_Ok _ _ _ (int_ok _ Hi)).
  by rewrite removelast_last.
Qed.

(** The two ancestors [a/b] and [c/d] of [p/q] in the tree, and its two children. *)
Definition between (p q a b c d : Z) : Prop :=
  0 <= a ∧ 0 <= b ∧ 0 <= c ∧ 0 <= d ∧ p = a + c ∧ q = b + d ∧ b * c - a * d = 1.

Lemma childs_of_expansion p q cf e :
  expansion p q cf e → p < 2 ^ 30 → q < 2 ^ 30 →
  ∃ h g, (between p q h g (p - h) (q - g) ∨ between p q (p - h) (q - g) h g) ∧
    from_contfrac (cf ++ [e + 1]) = Some (Ok (p + h, q + g)) ∧
    from_contfrac ((cf ++ [e + -1]) ++ [2]) = Some (Ok (p + (p - h), q + (q - g))) ∧ e <= Z.max p q.
Proof.
  intros [Hv H0 Ht [He He2] _] Hp Hq. unfold cf_value in *.
  destruct (app_cf_linear cf H0) as (h & h' & g & g' & Hh & Hh' & Hg & Hg' & Hdet & Hlin).
  rewrite Hlin in Hv. injection Hv as Hvp Hvq.
  assert (Hhg : 1 <= h ∨ 1 <= g) by nia.
  assert (Hle : e <= Z.max p q) by (destruct Hhg; nia).
  assert (Hhp : h <= p) by nia. assert (Hgq : g <= q) by nia.
  exists h, g. split_and!; [| | |done].
  - unfold between. destruct Hdet; [right|left]; split_and!; try lia; nia.
  - assert (Hval : cf_value cf (e + 1) = (p + h, q + g)) by (unfold cf_value; rewrite Hlin; f_equal; lia).
    rewrite <-Hval. apply from_run; try done; rewrite ?Hval; simpl; lia.
  - assert (Hval : cf_value (cf ++ [e + -1]) 2 = (p + (p - h), q + (q - g))).
    { unfold cf_value, app_cf. rewrite foldr_app. cbn [foldr]. fold (app_cf cf (cf_step (e + -1) (2, 1))).
      unfold cf_step. simpl. rewrite Hlin. f_equal; lia. }
    rewrite <-Hval. apply from_run; rewrite ?Hval; simpl; try lia.
    + apply Forall_app. split; [done|]. constructor; [lia|constructor].
    + destruct cf as [|a cf]; [constructor|]. simpl. apply Forall_app. split; [exact Ht|].
      constructor; [|constructor]. specialize (He2 ltac:(done)). lia.
Qed.

(** ** Comparing quotients *)
Lemma digits_bound p : ∀ n : nat, Z.pos p < 2 ^ Z.of_nat n → Z.pos (digits2_pos p) <= Z.of_nat n.
Proof.
  assert (Hpow : ∀ n : nat, 2 ^ Z.of_nat (S n) = 2 * 2 ^ Z.of_nat n).
  { intros n. rewrite Nat2Z.inj_succ, Z.pow_succ_r by lia. done. }
  induction p as [p IH|p IH|]; intros [|n]; simpl digits2_pos; try (simpl; lia); rewrite Hpow; intros Hp;
    rewrite Pos2Z.inj_succ; specialize (IH n ltac:(lia)); lia.
Qed.

Lemma digits_shift p n : digits2_pos (Pos.iter xO p n) = (digits2_pos p + n)%positive.
Proof.
  induction n as [|n IH] using Pos.peano_ind; [simpl; lia|].
  rewrite Pos.iter_succ. simpl. rewrite IH. lia.
Qed.

(** The integers in question are exact. *)
Lemma to_double_finite z : 0 < z < 2 ^ 31 → ∃ m e, to_double z = S754_finite false m e.
Proof.
  intros Hz. destruct z as [|p|p]; try lia. pose proof (digits_bound p 31 ltac:(lia)) as Hd.
  unfold to_double, binary_normalize, binary_round, shl_align, fexp, emin.
  set (d := digits2_pos p) in *.
  assert (Hsub : Z.max (Z.pos d + 0 - 53) (3 - 1024 - 53) - 0 = Z.neg (53 - d)) by lia. rewrite Hsub.
  assert (He : Z.max (Z.pos d + 0 - 53) (3 - 1024 - 53) = Z.pos d - 53) by lia. rewrite He.
  unfold binary_round_aux, shr_fexp, fexp, emin. cbn [Zdigits2]. rewrite digits_shift. fold d.
  assert (H0 : Z.max (Z.pos (d + (53 - d)) + (Z.pos d - 53) - 53) (3 - 1024 - 53) - (Z.pos d - 53) = 0) by lia.
  rewrite H0. cbn [shr shr_record_of_loc shr_m loc_of_shr_record round_nearest_even Zdigits2].
  rewrite digits_shift. fold d. rewrite H0. cbn [shr shr_m].
  rewrite (proj2 (Z.leb_le _ _)) by lia. by eexists _, _.
Qed.

Lemma shr_nonneg mrs e n : 0 <= shr_m mrs → 0 <= shr_m (shr mrs e n).1.
Proof.
  intros H. destruct n as [|p|p]; [done| |done]. simpl.
  assert (H1 : ∀ r, 0 <= shr_m r → 0 <= shr_m (shr_1 r)) by (intros [[|[]|] ? ?]; simpl; lia).
  revert mrs H. induction p as [p IH|p IH|]; intros mrs H; simpl; auto.
Qed.

Lemma round_not_nan s m e l : 0 <= m → binary_round_aux 53 1024 s m e l ≠ S754_nan.
Proof.
  intros Hm. unfold binary_round_aux, shr_fexp.
  assert (H0 : ∀ m l, 0 <= m → 0 <= shr_m (shr_record_of_loc m l)) by (intros ? [|[]]; done).
  pose proof (shr_nonneg _ e (fexp 53 1024 (Zdigits2 m + e) - e) (H0 m l Hm)) as H1.
  destruct (shr (shr_record_of_loc m l) e _) as [mrs e']. simpl in H1.
  assert (H2 : 0 <= round_nearest_even (shr_m mrs) (loc_of_shr_record mrs)).
  { unfold round_nearest_even. repeat case_match; lia. }
  set (m2 := round_nearest_even _ _) in *.
  pose proof (shr_nonneg _ e' (fexp 53 1024 (Zdigits2 m2 + e') - e') (H0 m2 loc_Exact H2)) as H3.
  destruct (shr (shr_record_of_loc m2 loc_Exact) e' _) as [mrs' e'']. simpl in H3.
  destruct (shr_m mrs'); [done|by destruct (_ <=? _)|lia].
Qed.

Lemma quotient_not_nan x y : 0 < x < 2 ^ 31 → 0 < y < 2 ^ 31 → quotient (x, y) ≠ S754_nan.
Proof.
  intros Hx Hy. unfold quotient. cbn [fst snd].
  destruct (to_double_finite x Hx) as (m1 & e1 & ->), (to_double_finite y Hy) as (m2 & e2 & ->).
  cbn [SFdiv]. unfold SFdiv_core_binary.
  set (s := (e1 - e2) - _). set (m' := match s with Z0 => _ | _ => _ end).
  assert (Hm' : 0 <= m') by (unfold m'; destruct s; [lia|apply Z.shiftl_nonneg; lia|lia]).
  pose proof (Z.div_pos m' (Z.pos m2) Hm' ltac:(lia)) as Hq. unfold Z.div in Hq.
  destruct (Z.div_eucl m' (Z.pos m2)) as [q r]. by apply round_not_nan.
Qed.

Lemma SFcompare_swap x y : SFcompare y x = CompOpp <$> SFcompare x y.
Proof.
  destruct x as [| | |[] m1 e1], y as [| | |[] m2 e2]; try done; try (by destruct s); try (by destruct s, s0);
    simpl; rewrite (Z.compare_antisym e1 e2); destruct (e1 ?= e2); try done; simpl;
    fold (Pos.compare m1 m2) (Pos.compare m2 m1); by rewrite (Pos.compare_antisym m1 m2), ?CompOpp_involutive.
Qed.

Lemma SFcompare_some x y : x ≠ S754_nan → y ≠ S754_nan → is_Some (SFcompare x y).
Proof. destruct x, y; try done; intros; by eexists. Qed.

Lemma min_max_pair x1 x2 : quotient x1 ≠ S754_nan → quotient x2 ≠ S754_nan →
  (rational_min x1 x2, rational_max x1 x2) = (x1, x2) ∨ (rational_min x1 x2, rational_max x1 x2) = (x2, x1).
Proof.
  intros H1 H2. destruct (SFcompare_some _ _ H1 H2) as [c Hc].
  unfold rational_min, rational_max, SFltb, SFleb. rewrite SFcompare_swap, Hc. destruct c; simpl; auto.
Qed.

(** C33: the continued fractions of [sbt.cc]: for positive [x] and [y], [to_contfrac] ends, and
    [from_contfrac] gives back the fraction in lowest terms. *)
Theorem contfrac_roundtrip (x y : Z) : 0 < x < 2 ^ 31 → 0 < y < 2 ^ 31 →
  ∃ cf, to_contfrac x y = Some (Ok cf) ∧ from_contfrac cf = Some (Ok (x / Z.gcd x y, y / Z.gcd x y)).
Proof.
  intros Hx Hy. destruct (reduced x y) as (x' & y' & Hl & Hx' & Hy'); [lia..|].
  pose proof Hl as (Hx0 & Hy0 & Hg). simpl in *. set (g := Z.gcd x y) in *.
  assert (Hg1 : 1 <= g) by nia.
  destruct (to_contfrac_run g x' y' Hg1 Hl) as (cf & b & Hrun & Hexp); [unfold is_int; lia..|].
  rewrite <-Hx', <-Hy' in Hrun. exists (cf ++ [b]). split; [done|].
  assert (Hd : (x / g, y / g) = (x', y')).
  { f_equal; [rewrite Hx'|rewrite Hy']; rewrite Z.mul_comm; apply Z.div_mul; lia. }
  rewrite Hd, <-(exp_value _ _ _ _ Hexp). destruct Hexp as [Hv H0 Ht [Hb Hb2] _].
  assert (Hbx : b <= Z.max x' y').
  { unfold cf_value in Hv. destruct (app_cf_linear cf H0) as (h & h' & k & k' & ? & ? & ? & ? & ? & Hlin).
    rewrite Hlin in Hv. injection Hv as Hvx Hvy. assert (1 <= h ∨ 1 <= k) as [|] by nia; nia. }
  apply from_run; try done; rewrite ?Hv; simpl; nia.
Qed.

Lemma contfrac_roundtrip_witness :
  ∃ cf, to_contfrac 84 36 = Some (Ok cf) ∧ from_contfrac cf = Some (Ok (84 / Z.gcd 84 36, 36 / Z.gcd 84 36)).
Proof. apply (contfrac_roundtrip 84 36); lia. Defined.

(** [childs] gives the children in the Stern-Brocot tree of a positive fraction in lowest
    terms (below 2^30, where no sum overflows): with [a/b] and [c/d] the neighbours of which
    it is the mediant, [(a + p)/(b + q)] and [(p + c)/(q + d)]. Their order is that of the
    [double] quotients. *)
Theorem childs_are_mediants (p q : Z) : 0 < p < 2 ^ 30 → 0 < q < 2 ^ 30 → Z.gcd p q = 1 →
  ∃ a b c d, between p q a b c d ∧
    (childs (p, q) = Some (Ok ((a + p, b + q), (p + c, q + d))) ∨
     childs (p, q) = Some (Ok ((p + c, q + d), (a + p, b + q)))).
Proof.
  intros Hp Hq Hg.
  destruct (to_contfrac_run 1 p q ltac:(lia)) as (cf & e & Hrun & Hexp); [split; simpl; auto with lia|unfold is_int; lia..|].
  rewrite !Z.mul_1_l in Hrun.
  destruct (childs_of_expansion p q cf e Hexp) as (h & g & Hb & H1 & H2 & He); [lia..|].
  pose proof (proj1 (exp_last _ _ _ _ Hexp)) as He1.
  assert (Hr : childs (p, q) = Some (Ok (rational_min (p + h, q + g) (p + (p - h), q + (q - g)),
                                         rational_max (p + h, q + g) (p + (p - h), q + (q - g))))).
  { unfold childs. cbn [fst snd]. rewrite (E_bind_Ok _ _ _ Hrun).
    rewrite (E_bind_Ok _ _ _ (add_back_run cf e 1 ltac:(unfold is_int; lia))).
    rewrite (E_bind_Ok _ _ _ (add_back_run cf e (-1) ltac:(unfold is_int; lia))).
    by rewrite (E_bind_Ok _ _ _ H1), (E_bind_Ok _ _ _ H2). }
  assert (Hn : quotient (p + h, q + g) ≠ S754_nan ∧ quotient (p + (p - h), q + (q - g)) ≠ S754_nan).
  { unfold between in Hb. split; apply quotient_not_nan; lia. }
  rewrite Hr. replace (p + (p - h)) with ((p - h) + p) in * by lia. replace (q + (q - g)) with ((q - g) + q) in * by lia.
  destruct (min_max_pair _ _ (proj1 Hn) (proj2 Hn)) as [-> | ->]; destruct Hb as [Hb|Hb].
  - exists h, g, (p - h), (q - g). split; [done|]. left. do 4 f_equal; lia.
  - exists (p - h), (q - g), h, g. split; [done|]. right. done.
  - exists h, g, (p - h), (q - g). split; [done|]. right. do 4 f_equal; lia.
  - exists (p - h), (q - g), h, g. split; [done|]. left. done.
Qed.

Lemma childs_are_mediants_witness :
  ∃ a b c d, between 3 2 a b c d ∧
    (childs (3, 2) = Some (Ok ((a + 3, b + 2), (3 + c, 2 + d))) ∨
     childs (3, 2) = Some (Ok ((3 + c, 2 + d), (a + 3, b + 2)))).
Proof. apply (childs_are_mediants 3 2); [lia|lia|reflexivity]. Defined.
