(* ===== verification/Ocl.v ===== *)
(** * Work-groups: how the kernels of [src/11-compute] are executed

    A kernel is given by the step of one work-item from a control point, on the global
    memory and the local memory of its group. The items of all groups interleave; a barrier
    is passed by all items of a group together. A step is at most one access to a memory
    that other items may write. *)

From S2P Require Import Prelude.

(** ** Sums *)
Definition zsum (l : list Z) : Z := foldr Z.add 0 l.

Lemma zsum_app l1 l2 : zsum (l1 ++ l2) = zsum l1 + zsum l2.
Proof. induction l1 as [|x l1 IH]; simpl; lia. Qed.

Lemma zsum_imap_ext {A} (f f' : nat → A → Z) l :
  (∀ i x, l !! i = Some x → f i x = f' i x) → zsum (imap f l) = zsum (imap f' l).
Proof.
  revert f f'. induction l as [|x l IH]; intros f f' H; [done|]. rewrite !imap_cons. simpl.
  rewrite (H 0%nat x eq_refl). f_equal. apply IH. intros i y Hy. by apply H.
Qed.

(** Only one term differs. *)
Lemma zsum_imap_one {A} (f f' : nat → A → Z) l i x :
  l !! i = Some x → (∀ j y, l !! j = Some y → j ≠ i → f' j y = f j y) →
  zsum (imap f' l) = zsum (imap f l) + (f' i x - f i x).
Proof.
  revert f f' i. induction l as [|y l IH]; intros f f' i Hi H; [done|]. rewrite !imap_cons. simpl.
  destruct i as [|i].
  - injection Hi as ->. rewrite (zsum_imap_ext (f' ∘ S) (f ∘ S)); [lia|].
    intros j z Hz. by apply H.
  - rewrite (H 0%nat y eq_refl) by done. rewrite (IH (f ∘ S) (f' ∘ S) i Hi); [unfold compose; lia|].
    intros j z Hz Hj. apply H; [done|lia].
Qed.

Lemma zsum_imap_insert {A} (f : nat → A → Z) l i x x' :
  l !! i = Some x → zsum (imap f (<[i := x']> l)) = zsum (imap f l) + (f i x' - f i x).
Proof.
  intros Hi. assert (Heq : imap f (<[i := x']> l) = imap (λ j y, if decide (j = i) then f i x' else f j y) l).
  { apply list_eq. intros j. rewrite !list_lookup_imap. destruct (decide (j = i)) as [->|Hne].
    - rewrite list_lookup_insert_eq by (by eapply lookup_lt_Some). by rewrite Hi.
    - by rewrite list_lookup_insert_ne. }
  rewrite Heq, (zsum_imap_one f _ l i x Hi).
  - by rewrite decide_True.
  - intros j y _ Hj. by rewrite decide_False.
Qed.

Lemma zsum_imap_plus {A} (f f' : nat → A → Z) l :
  zsum (imap (λ i x, f i x + f' i x) l) = zsum (imap f l) + zsum (imap f' l).
Proof.
  revert f f'. induction l as [|x l IH]; intros f f'; [done|]. rewrite !imap_cons. simpl. unfold compose.
  rewrite (IH (λ i, f (S i)) (λ i, f' (S i))). unfold compose. lia.
Qed.

Lemma zsum_imap_0 {A} (l : list A) : zsum (imap (λ _ _, 0) l) = 0.
Proof. induction l as [|x l IH]; [done|]. rewrite imap_cons. simpl. exact IH. Qed.

Lemma zsum_nonneg l : Forall (λ x, 0 <= x) l → 0 <= zsum l.
Proof. induction 1; simpl; lia. Qed.

(** ** The machine *)
Section machine.
Context {PC G L : Type}.

(** [item_step g l pc] is the step of the item of local id [l] in the group [g]; it has none
    at a barrier, at the end, and where the code has no defined behaviour. [barrier] tells
    which barrier a control point is at, in which iteration: a barrier is passed when all
    items of the group are at the same one. *)
Record kernel := Kernel {
  item_step : nat → nat → PC → G → L → option (PC * G * L);
  barrier : PC → option Z;
  after_barrier : nat → nat → PC → option PC;
  finished : PC → bool }.

Record sys := Sys { global : G; groups : list (L * list PC) }.

Context (K : kernel).

Inductive step (s : sys) : sys → Prop :=
  | step_item g l lm pcs pc pc' G' lm' :
      groups s !! g = Some (lm, pcs) → pcs !! l = Some pc →
      item_step K g l pc (global s) lm = Some (pc', G', lm') →
      step s (Sys G' (<[g := (lm', <[l := pc']> pcs)]> (groups s)))
  | step_barrier g lm pcs pcs' b :
      groups s !! g = Some (lm, pcs) → pcs ≠ [] → Forall (λ p, barrier K p = Some b) pcs →
      imap (after_barrier K g) pcs = Some <$> pcs' →
      step s (Sys (global s) (<[g := (lm, pcs')]> (groups s))).

Definition final (s : sys) : Prop :=
  ∀ g lm pcs, groups s !! g = Some (lm, pcs) → Forall (λ p, finished K p = true) pcs.

(** The system started with the local memories [ls] and [n] items in each group. *)
Definition start (m : G) (ls : list L) (n : nat) (pc : nat → nat → PC) : sys :=
  Sys m (imap (λ g lm, (lm, pc g <$> seq 0 n)) ls).

(** Every execution from [s] ends, and in a final state that [Q] holds of: it is never
    stuck in undefined behaviour or at a barrier. *)
Inductive always_ends (Q : sys → Prop) (s : sys) : Prop :=
  | ends_final : final s → Q s → always_ends Q s
  | ends_step : (∃ s', step s s') → (∀ s', step s s' → always_ends Q s') → always_ends Q s.

(** An invariant under which a state that is not final has a step, and a measure. *)
Lemma always_ends_by (I Q : sys → Prop) (measure : sys → Z) :
  (∀ s, I s → 0 <= measure s) →
  (∀ s, I s → final s ∨ ∃ s', step s s') →
  (∀ s s', I s → step s s' → I s' ∧ measure s' < measure s) →
  (∀ s, I s → final s → Q s) →
  ∀ s, I s → always_ends Q s.
Proof.
  intros Hpos Hprog Hpres Hfin s. induction s as [s IH] using (induction_ltof1 _ (λ s, Z.to_nat (measure s))).
  intros HI. destruct (Hprog s HI) as [Hf|Hs]; [by apply ends_final; [|apply Hfin]|].
  apply ends_step; [done|]. intros s' Hs'. destruct (Hpres s s' HI Hs') as [HI' Hm]. apply IH; [|done].
  unfold ltof. pose proof (Hpos s' HI'). lia.
Qed.

(** Some execution ends. *)
Lemma always_ends_reaches Q s : always_ends Q s → ∃ s', rtc step s s' ∧ final s' ∧ Q s'.
Proof.
  induction 1 as [s Hf HQ|s [s' Hs'] Hall IH]; [by exists s|].
  destruct (IH s' Hs') as (t & Hr & Ht). exists t. split; [by apply rtc_l with s'|done].
Qed.

(** When finished items have no step, a final state that is reached is one of those. *)
Lemma always_ends_result Q s s' :
  (∀ g l p m lm, finished K p = true → item_step K g l p m lm = None) →
  (∀ p, finished K p = true → barrier K p = None) →
  always_ends Q s → rtc step s s' → final s' → Q s'.
Proof.
  intros Hitem Hbar. assert (Hstuck : ∀ s s', final s → ¬ step s s').
  { intros s1 s2 Hf Hs. destruct Hs as [g l lm pcs p p' m' lm' Hg Hl Hs|g lm pcs pcs' b Hg Hne Hb _];
      specialize (Hf g lm pcs Hg).
    - rewrite Hitem in Hs; [done|]. exact (Forall_lookup_1 _ _ _ _ Hf Hl).
    - destruct pcs as [|p pcs]; [done|]. apply Forall_cons in Hf as [Hf _], Hb as [Hb _]. by rewrite Hbar in Hb. }
  intros Hends. revert s'. induction Hends as [s Hf HQ|s [s1 Hs1] _ IH]; intros s' Hr Hf'.
  - destruct Hr as [|s s1 s' Hs _]; [done|]. by destruct (Hstuck s s1).
  - destruct Hr as [s|s s2 s' Hs Hr]; [by destruct (Hstuck s s1)|]. by apply (IH s2).
Qed.

(** *** One schedule: the first item that has a step goes on *)
Fixpoint first_some {A B} (f : nat → A → option B) (i : nat) (l : list A) : option B :=
  match l with [] => None | x :: l => match f i x with Some y => Some y | None => first_some f (S i) l end end.

Lemma first_some_Some {A B} (f : nat → A → option B) l y : ∀ i, first_some f i l = Some y →
  ∃ j x, l !! j = Some x ∧ f (i + j)%nat x = Some y.
Proof.
  induction l as [|x l IH]; intros i Hy; [done|]. simpl in Hy. destruct (f i x) as [z|] eqn:Hz.
  - exists 0%nat, x. rewrite Nat.add_0_r. split; [done|congruence].
  - destruct (IH (S i) Hy) as (j & x' & Hj & Hf). exists (S j), x'. split; [done|]. by rewrite Nat.add_succ_r.
Qed.

Definition next_in (s : sys) (g : nat) (gr : L * list PC) : option sys :=
  match first_some (λ l p, '(p', m', lm') ← item_step K g l p (global s) gr.1;
                           Some (Sys m' (<[g := (lm', <[l := p']> gr.2)]> (groups s)))) 0 gr.2 with
  | Some s' => Some s'
  | None =>
    p ← head gr.2; b ← barrier K p;
    if decide (Forall (λ p, barrier K p = Some b) gr.2) then
      pcs' ← mapM id (imap (after_barrier K g) gr.2); Some (Sys (global s) (<[g := (gr.1, pcs')]> (groups s)))
    else None
  end.
Definition next (s : sys) : option sys := first_some (next_in s) 0 (groups s).
Fixpoint exec (fuel : nat) (s : sys) : sys :=
  match fuel with O => s | S fuel => match next s with Some s' => exec fuel s' | None => s end end.

Lemma next_step s s' : next s = Some s' → step s s'.
Proof.
  intros Hn. apply first_some_Some in Hn as (g & [lm pcs] & Hg & Hn). unfold next_in in Hn. simpl in Hn.
  destruct (first_some _ 0 pcs) as [s1|] eqn:Hf.
  - injection Hn as <-. apply first_some_Some in Hf as (l & p & Hl & Hs). simpl in Hs.
    apply bind_Some in Hs as ([[p' m'] lm'] & Hs & [= <-]). by apply (step_item s g l lm pcs p p' m' lm').
  - apply bind_Some in Hn as (p0 & Hp0 & Hn). apply bind_Some in Hn as (b & _ & Hn).
    destruct (decide _) as [Hall|]; [|done]. apply bind_Some in Hn as (pcs' & Hb & [= <-]).
    apply mapM_Some in Hb. apply (step_barrier s g lm pcs pcs' b); [done|by intros ->|done|].
    apply list_eq. intros l. rewrite list_lookup_fmap. rewrite Forall2_lookup in Hb. specialize (Hb l).
    destruct Hb as [o p Ho|]; [|done]. simpl. by rewrite <-Ho.
Qed.

Lemma schedule_steps fuel s : rtc step s (exec fuel s).
Proof.
  revert s. induction fuel as [|fuel IH]; intros s; [done|]. simpl. destruct (next s) as [s'|] eqn:Hn; [|done].
  apply rtc_l with s'; [by apply next_step|apply IH].
Qed.

Definition is_final (s : sys) : bool := forallb (λ gr, forallb (finished K) gr.2) (groups s).

Lemma is_final_true s : is_final s = true → final s.
Proof.
  unfold is_final. rewrite forallb_forall. intros Hf g lm pcs Hg.
  apply list_elem_of_lookup_2, list_elem_of_In in Hg. specialize (Hf _ Hg). simpl in Hf.
  rewrite forallb_forall in Hf. apply Forall_forall. intros p Hp. apply Hf. by apply list_elem_of_In.
Qed.

(** *** The weight of a state: what its items still have to do *)
Variable w : nat → nat → PC → Z.

Definition group_weight (g : nat) (pcs : list PC) : Z := zsum (imap (w g) pcs).
Definition weight (s : sys) : Z := zsum (imap (λ g p, group_weight g p.2) (groups s)).

Hypothesis w_nonneg : ∀ g l p, 0 <= w g l p.
Hypothesis w_step : ∀ g l p m lm p' m' lm', item_step K g l p m lm = Some (p', m', lm') → w g l p' < w g l p.
Hypothesis w_barrier : ∀ g l p p', after_barrier K g l p = Some p' → w g l p' < w g l p.

Lemma weight_nonneg s : 0 <= weight s.
Proof.
  assert (Hn : ∀ {A} (f : nat → A → Z) l, (∀ i x, 0 <= f i x) → 0 <= zsum (imap f l)).
  { intros A f l. revert f. induction l as [|x l IH]; intros f Hf; [done|]. rewrite imap_cons. simpl.
    specialize (IH (f ∘ S) (λ i, Hf (S i))). specialize (Hf 0%nat x). lia. }
  apply Hn. intros g p. apply Hn, w_nonneg.
Qed.

Lemma barrier_weight (f : nat → PC → option PC) (v : nat → PC → Z) pcs pcs' :
  (∀ l p p', f l p = Some p' → v l p' < v l p) → pcs ≠ [] → imap f pcs = Some <$> pcs' →
  zsum (imap v pcs') < zsum (imap v pcs).
Proof.
  intros Hf Hne Hb. assert (Hle : ∀ (f : nat → PC → option PC) (v : nat → PC → Z) (pcs pcs' : list PC), (∀ l p p', f l p = Some p' → v l p' < v l p) →
    imap f pcs = Some <$> pcs' → zsum (imap v pcs') + (if pcs is [] then 0 else 1) <= zsum (imap v pcs)).
  { clear. intros f v pcs. revert f v. induction pcs as [|p pcs IH]; intros f v [|p' pcs'] Hf Hb; try done.
    rewrite imap_cons in Hb. injection Hb as Hp Hb. rewrite !imap_cons. simpl.
    pose proof (Hf 0%nat p p' Hp). specialize (IH (f ∘ S) (v ∘ S) pcs' (λ l, Hf (S l)) Hb). destruct pcs; lia. }
  specialize (Hle f v pcs pcs' Hf Hb). destruct pcs; [done|lia].
Qed.

Lemma weight_step s s' : step s s' → weight s' < weight s.
Proof.
  unfold weight. destruct 1 as [g l lm pcs pc pc' G' lm' Hg Hl Hs|g lm pcs pcs' b Hg Hne _ Hb]; simpl;
    rewrite (zsum_imap_insert _ _ _ _ _ Hg); unfold group_weight; simpl.
  - rewrite (zsum_imap_insert _ _ _ _ _ Hl). pose proof (w_step _ _ _ _ _ _ _ _ Hs). lia.
  - pose proof (barrier_weight _ (w g) _ _ (w_barrier g) Hne Hb). lia.
Qed.
End machine.
Arguments kernel : clear implicits.
Arguments sys : clear implicits.

(** How a kernel may use a buffer, and a kernel with a buffer as its global memory that it
    may not read: reading it has no defined behaviour. [reads] are the control points from
    which an item reads the global memory. *)
Inductive access := CL_MEM_READ_WRITE | CL_MEM_WRITE_ONLY.

Definition readable (a : access) : bool := match a with CL_MEM_READ_WRITE => true | CL_MEM_WRITE_ONLY => false end.

Definition with_access {PC G L} (a : access) (reads : PC → bool) (K : kernel PC G L) : kernel PC G L :=
  Kernel (λ g l p m lm, if readable a || negb (reads p) then item_step K g l p m lm else None)
    (barrier K) (after_barrier K) (finished K).
