(* ===== verification/OclHist.v ===== *)
(** * Histograms: [src/11-compute/cl_hist.cc] and its kernels

    [hist.cl] counts in local memory between two barriers, [hist-onlyg-corr.cl] with atomic
    additions to the global histogram, and [hist-onlyg.cl] with a read and a write that
    other items can separate. *)

From S2P Require Import Prelude Ocl.

(** A subscript; out of the memory there is no behaviour. *)
Definition elem (m : list Z) (i : Z) : option Z := if 0 <=? i then m !! Z.to_nat i else None.
Definition set_elem (m : list Z) (i v : Z) : option (list Z) := _ ← elem m i; Some (<[Z.to_nat i := v]> m).
(** [atomic_add(&m[i], v)] *)
Definition atomic_add (m : list Z) (i v : Z) : option (list Z) := x ← elem m i; set_elem m i (i32 (x + v)).
(** [i += stride] *)
Definition advance (i stride : Z) : option Z := if i + stride <? 2 ^ 31 then Some (i + stride) else None.

Section kernels.
Variables (data : list Z) (num_bins : Z) (num_groups local_size : nat).

Definition num_data : Z := Z.of_nat (length data).
Definition get_local_size : Z := Z.of_nat local_size.
Definition get_global_size : Z := Z.of_nat num_groups * get_local_size.
Definition get_global_id (g l : nat) : Z := Z.of_nat g * get_local_size + Z.of_nat l.

(** ** [hist.cl] *)
Inductive pc := Clear (i : Z) | Barrier1 | Count (i : Z) | Barrier2 | Flush (i : Z) | Flushing (i v : Z) | End_.

Definition hist_step (g l : nat) (p : pc) (histogram local_hist : list Z) : option (pc * list Z * list Z) :=
  match p with
  | Clear i =>
    if i <? num_bins then
      local_hist ← set_elem local_hist i 0;
      i ← advance i get_local_size;
      Some (Clear i, histogram, local_hist)
    else Some (Barrier1, histogram, local_hist)
  | Count i =>
    if i <? num_data then
      d ← elem data i;
      local_hist ← atomic_add local_hist d 1;
      i ← advance i get_global_size;
      Some (Count i, histogram, local_hist)
    else Some (Barrier2, histogram, local_hist)
  | Flush i =>
    if i <? num_bins then (v ← elem local_hist i; Some (Flushing i v, histogram, local_hist))
    else Some (End_, histogram, local_hist)
  | Flushing i v =>
    histogram ← atomic_add histogram i v;
    i ← advance i get_local_size;
    Some (Flush i, histogram, local_hist)
  | Barrier1 | Barrier2 | End_ => None
  end.

Definition hist_barrier (g l : nat) (p : pc) : option pc :=
  match p with
  | Barrier1 => Some (Count (get_global_id g l))
  | Barrier2 => Some (Flush (Z.of_nat l))
  | _ => None
  end.

Definition hist_end (p : pc) : bool := match p with End_ => true | _ => false end.

Definition hist_waits (p : pc) : option Z := match p with Barrier1 => Some 1 | Barrier2 => Some 2 | _ => None end.

Definition hist_cl : kernel pc (list Z) (list Z) := Kernel hist_step hist_waits hist_barrier hist_end.

(** The atomic addition to the histogram reads it. *)
Definition hist_reads (p : pc) : bool := match p with Flushing _ _ => true | _ => false end.

(** ** [hist-onlyg-corr.cl] and [hist-onlyg.cl] *)
Inductive gpc := Loop (i : Z) | Store (i d v : Z) | Done.

Definition gend (p : gpc) : bool := match p with Done => true | _ => false end.
Definition no_barrier (g l : nat) (p : gpc) : option gpc := None.

Definition onlyg_corr_step (g l : nat) (p : gpc) (histogram : list Z) (u : ()) : option (gpc * list Z * ()) :=
  match p with
  | Loop i =>
    if i <? num_data then
      d ← elem data i;
      histogram ← atomic_add histogram d 1;
      i ← advance i get_global_size;
      Some (Loop i, histogram, u)
    else Some (Done, histogram, u)
  | _ => None
  end.

Definition onlyg_step (g l : nat) (p : gpc) (histogram : list Z) (u : ()) : option (gpc * list Z * ()) :=
  match p with
  | Loop i =>
    if i <? num_data then (d ← elem data i; v ← elem histogram d; Some (Store i d v, histogram, u))
    else Some (Done, histogram, u)
  | Store i d v =>
    histogram ← set_elem histogram d (i32 (v + 1));
    i ← advance i get_global_size;
    Some (Loop i, histogram, u)
  | Done => None
  end.

Definition onlyg_corr_cl : kernel gpc (list Z) () := Kernel onlyg_corr_step (λ _, None) no_barrier gend.
Definition onlyg_cl : kernel gpc (list Z) () := Kernel onlyg_step (λ _, None) no_barrier gend.

(** The state in which a kernel is started: the items are at the start of their loop. *)
Definition hist_start (histogram : list Z) (locals : list (list Z)) : sys pc (list Z) (list Z) :=
  start histogram locals local_size (λ _ l, Clear (Z.of_nat l)).
Definition onlyg_start (histogram : list Z) : sys gpc (list Z) () :=
  start histogram (replicate num_groups ()) local_size (λ g l, Loop (get_global_id g l)).
End kernels.

(** ** The reference on the host *)
Definition hist_ref_step (HistSize : Z) (Hist : list Z) (d : Z) : option (list Z) :=
  if (d <? HistSize) && (0 <=? d) then
    x ← elem Hist d;
    if x + 1 <? 2 ^ 31 then set_elem Hist d (x + 1) else None
  else None.
Fixpoint hist_ref (Data : list Z) (HistSize : Z) (Hist : list Z) : option (list Z) :=
  match Data with
  | [] => Some Hist
  | d :: Data => Hist ← hist_ref_step HistSize Hist d; hist_ref Data HistSize Hist
  end.

(** ** Facts *)
Definition occurrences (b : Z) (data : list Z) : Z := zsum ((λ d, if decide (d = b) then 1 else 0) <$> data).

Lemma elem_Some m i v : elem m i = Some v → 0 <= i ∧ m !! Z.to_nat i = Some v.
Proof. unfold elem. destruct (Z.leb_spec 0 i); [done|discriminate]. Qed.

Lemma elem_in m i : 0 <= i < Z.of_nat (length m) → ∃ v, elem m i = Some v.
Proof.
  intros Hi. unfold elem. rewrite (proj2 (Z.leb_le _ _)) by lia.
  apply lookup_lt_is_Some_2. lia.
Qed.

Lemma set_elem_run m i v : 0 <= i < Z.of_nat (length m) → set_elem m i v = Some (<[Z.to_nat i := v]> m).
Proof. intros Hi. unfold set_elem. by destruct (elem_in m i Hi) as [u ->]. Qed.

Lemma elem_set m i j v : 0 <= i < Z.of_nat (length m) →
  elem (<[Z.to_nat i := v]> m) j = if decide (j = i) then Some v else elem m j.
Proof.
  intros Hi. unfold elem. destruct (decide (j = i)) as [->|Hne].
  - rewrite (proj2 (Z.leb_le _ _)) by lia. apply list_lookup_insert_eq. lia.
  - destruct (Z.leb_spec 0 j); [|done]. apply list_lookup_insert_ne. lia.
Qed.

Lemma atomic_add_run m i v : 0 <= i < Z.of_nat (length m) →
  ∃ m', atomic_add m i v = Some m' ∧ length m' = length m ∧
    ∀ j, elem m' j = if decide (j = i) then (λ x, i32 (x + v)) <$> elem m j else elem m j.
Proof.
  intros Hi. unfold atomic_add. destruct (elem_in m i Hi) as [x Hx]. rewrite Hx. simpl. rewrite set_elem_run by done.
  eexists. split; [done|]. split; [by rewrite length_insert|]. intros j. rewrite elem_set by done.
  destruct (decide (j = i)) as [->|]; [by rewrite Hx|done].
Qed.

Lemma i32_plus a b : i32 (i32 a + b) = i32 (a + b).
Proof.
  unfold i32. replace ((a + 2 ^ 31) `mod` 2 ^ 32 - 2 ^ 31 + b + 2 ^ 31) with ((a + 2 ^ 31) `mod` 2 ^ 32 + b) by lia.
  rewrite Z.add_mod_idemp_l by lia. f_equal. f_equal. lia.
Qed.

Lemma advance_Some i k i' : advance i k = Some i' → i' = i + k.
Proof. unfold advance. destruct (_ <? _); congruence. Qed.

Lemma advance_run i k : i + k < 2 ^ 31 → advance i k = Some (i + k).
Proof. intros H. unfold advance. by rewrite (proj2 (Z.ltb_lt _ _)). Qed.

(** In the residue class of [i], what is below [i + k] is [i] and what is below [i]. *)
Lemma below_next b i k : 0 < k → b `mod` k = i `mod` k → b < i + k → b = i ∨ b < i.
Proof.
  intros Hk Hm Hlt. destruct (Z.lt_trichotomy b i) as [|[|Hgt]]; [auto..|].
  exfalso. assert (Hd : (b - i) `mod` k = 0) by (rewrite Zminus_mod, Hm, Z.sub_diag; apply Z.mod_0_l; lia).
  rewrite Z.mod_small in Hd by lia. lia.
Qed.

(** ** [hist.cl] counts *)
Section hist_cl.
Variables (data : list Z) (num_bins : Z) (num_groups local_size : nat) (h0 : list Z).
Hypothesis some_items : (0 < local_size)%nat.
Hypothesis bins_fit : 0 <= num_bins ∧ num_bins + get_local_size local_size <= 2 ^ 31.
Hypothesis data_fit : num_data data + get_global_size num_groups local_size <= 2 ^ 31.
Hypothesis in_bins : Forall (λ d, 0 <= d < num_bins) data.
Hypothesis h0_bins : Z.of_nat (length h0) = num_bins.
Hypothesis h0_ints : Forall (λ x, i32 x = x) h0.

Abbreviation lsz := (get_local_size local_size).
Abbreviation gsz := (get_global_size num_groups local_size).
Abbreviation gid := (get_global_id local_size).
Abbreviation K := (hist_cl data num_bins num_groups local_size).

(** The elements equal to [b] among those below [u] that are of the item [id]. *)
Definition mark (id u b : Z) (j : nat) (d : Z) : Z :=
  if decide (Z.of_nat j < u ∧ Z.of_nat j `mod` gsz = id ∧ d = b) then 1 else 0.
Definition cnt (id u b : Z) : Z := zsum (imap (mark id u b) data).

Definition upto (p : pc) : Z := match p with Clear _ | Barrier1 => 0 | Count i => i | _ => num_data data end.
Definition counted (g : nat) (pcs : list pc) (b : Z) : Z := zsum (imap (λ l p, cnt (gid g l) (upto p) b) pcs).
(** What the group adds to the bin [b] in the end. *)
Definition share (g : nat) (b : Z) : Z := counted g (replicate local_size End_) b.

Inductive phase := Clearing | Counting | Flushes.
Definition phase_of (p : pc) : phase :=
  match p with Clear _ | Barrier1 => Clearing | Count _ | Barrier2 => Counting | _ => Flushes end.

Definition item_ok (g l : nat) (p : pc) : Prop :=
  match p with
  | Clear i | Flush i => 0 <= i ∧ i `mod` lsz = Z.of_nat l
  | Flushing i v => (0 <= i < num_bins ∧ i `mod` lsz = Z.of_nat l) ∧ v = i32 (share g i)
  | Count i => 0 <= i ∧ i `mod` gsz = gid g l
  | _ => True
  end.

Definition cleared (p : pc) (b : Z) : Prop := match p with Clear i => b < i | _ => True end.
Definition passed (p : pc) (b : Z) : bool :=
  match p with Flush i | Flushing i _ => b <? i | End_ => true | _ => false end.

Definition local_ok (ph : phase) (g : nat) (lm : list Z) (pcs : list pc) : Prop :=
  ∀ b, 0 <= b < num_bins →
  match ph with
  | Clearing => ∀ p, pcs !! Z.to_nat (b `mod` lsz) = Some p → cleared p b → elem lm b = Some 0
  | Counting => elem lm b = Some (i32 (counted g pcs b))
  | Flushes => elem lm b = Some (i32 (share g b))
  end.

Record group_ok (g : nat) (lm : list Z) (pcs : list pc) (ph : phase) : Prop := {
  gr_items : length pcs = local_size;
  gr_local : Z.of_nat (length lm) = num_bins;
  gr_item : ∀ l p, pcs !! l = Some p → phase_of p = ph ∧ item_ok g l p;
  gr_cells : local_ok ph g lm pcs }.

Definition flushed (g : nat) (pcs : list pc) (b : Z) : Z :=
  match pcs !! Z.to_nat (b `mod` lsz) with Some p => if passed p b then share g b else 0 | None => 0 end.

Record inv (s : sys pc (list Z) (list Z)) : Prop := {
  inv_groups : length (groups s) = num_groups;
  inv_group : ∀ g lm pcs, groups s !! g = Some (lm, pcs) → ∃ ph, group_ok g lm pcs ph;
  inv_bins : Z.of_nat (length (global s)) = num_bins;
  inv_sum : ∀ b, 0 <= b < num_bins → elem (global s) b =
    Some (i32 (default 0 (elem h0 b) + zsum (imap (λ g p, flushed g p.2 b) (groups s)))) }.

Lemma lsz_pos : 0 < lsz.
Proof. unfold get_local_size. lia. Qed.

Lemma local_id_bound b : 0 <= b → (Z.to_nat (b `mod` lsz) < local_size)%nat.
Proof. intros Hb. pose proof (Z.mod_pos_bound b lsz lsz_pos). unfold get_local_size in *. lia. Qed.

Lemma gid_bound g l : (g < num_groups)%nat → (l < local_size)%nat → 0 <= gid g l < gsz.
Proof. unfold get_global_id, get_global_size, get_local_size. nia. Qed.

Lemma data_at i : 0 <= i < num_data data → ∃ d, elem data i = Some d ∧ data !! Z.to_nat i = Some d ∧ 0 <= d < num_bins.
Proof.
  intros Hi. destruct (elem_in data i Hi) as [d Hd]. exists d. split; [done|].
  apply elem_Some in Hd as [_ Hd]. split; [done|]. by apply (Forall_lookup_1 _ _ _ _ in_bins Hd).
Qed.

(** *** Counting *)
Lemma cnt_next id i d b : 0 < gsz → 0 <= i → data !! Z.to_nat i = Some d → i `mod` gsz = id →
  cnt id (i + gsz) b = cnt id i b + (if decide (d = b) then 1 else 0).
Proof.
  intros Hg Hi Hd Hm. unfold cnt. rewrite (zsum_imap_one (mark id i b) (mark id (i + gsz) b) data (Z.to_nat i) d Hd).
  2: { intros j y Hy Hne. unfold mark. apply decide_ext. split; intros (Hlt & Hj & Hb); (split; [|done]); [|lia].
       destruct (below_next (Z.of_nat j) i gsz Hg) as [Heq|]; [lia|done| |done]. lia. }
  f_equal. unfold mark. rewrite Z2Nat.id by lia. rewrite (decide_False (P := i < i ∧ _)) by lia.
  destruct (decide (d = b)) as [->|]; [rewrite decide_True by (split; [lia|done])|rewrite decide_False by tauto]; lia.
Qed.

Lemma cnt_end id i b : num_data data <= i → cnt id i b = cnt id (num_data data) b.
Proof.
  intros Hi. apply zsum_imap_ext. intros j d Hj. apply lookup_lt_Some in Hj. unfold num_data, mark in *.
  apply decide_ext. split; intros (_ & H); (split; [lia|done]).
Qed.

Lemma cnt_start g l b : (g < num_groups)%nat → (l < local_size)%nat → cnt (gid g l) (gid g l) b = 0.
Proof.
  intros Hg Hl. pose proof (gid_bound g l Hg Hl) as Hid. unfold cnt.
  rewrite (zsum_imap_ext (mark _ _ b) (λ _ _, 0)); [apply zsum_imap_0|]. intros j d _. unfold mark. apply decide_False.
  intros (Hlt & Hm & _). rewrite Z.mod_small in Hm by lia. lia.
Qed.

Lemma zsum_imap_ext2 {A B} (f : nat → A → Z) (f' : nat → B → Z) l l' : length l = length l' →
  (∀ i x y, l !! i = Some x → l' !! i = Some y → f i x = f' i y) → zsum (imap f l) = zsum (imap f' l').
Proof.
  revert f f' l'. induction l as [|x l IH]; intros f f' [|y l'] Hlen H; try done. rewrite !imap_cons. simpl.
  rewrite (H 0%nat x y eq_refl eq_refl). f_equal. apply IH; [by injection Hlen|]. intros i. apply (H (S i)).
Qed.

Lemma counted_share g pcs b : length pcs = local_size → (∀ l p, pcs !! l = Some p → upto p = num_data data) →
  counted g pcs b = share g b.
Proof.
  intros Hlen Hp. apply zsum_imap_ext2; [by rewrite length_replicate|].
  intros l p q Hl Hq. apply lookup_replicate in Hq as [-> _]. by rewrite (Hp l p Hl).
Qed.

(** *** One item moves *)
Lemma flushed_other g pcs l p p' b : pcs !! l = Some p → 0 <= b →
  (b `mod` lsz = Z.of_nat l → passed p' b = passed p b) → flushed g (<[l := p']> pcs) b = flushed g pcs b.
Proof.
  intros Hl Hb Hp. pose proof (Z.mod_pos_bound b lsz lsz_pos). unfold flushed.
  destruct (decide (Z.to_nat (b `mod` lsz) = l)) as [Heq|Hne].
  - rewrite Heq, list_lookup_insert_eq, Hl by (by eapply lookup_lt_Some). rewrite Hp by lia. done.
  - by rewrite list_lookup_insert_ne.
Qed.

Lemma group_update g lm pcs ph l p p' lm' :
  group_ok g lm pcs ph → pcs !! l = Some p → phase_of p' = ph → item_ok g l p' →
  Z.of_nat (length lm') = num_bins → local_ok ph g lm' (<[l := p']> pcs) → group_ok g lm' (<[l := p']> pcs) ph.
Proof.
  intros [H1 H2 H3 H4] Hl Hph Hok Hlen Hloc. split; [by rewrite length_insert|done| |done].
  intros l' q Hq. destruct (decide (l' = l)) as [->|Hne].
  - rewrite list_lookup_insert_eq in Hq by (by eapply lookup_lt_Some). by injection Hq as <-.
  - rewrite list_lookup_insert_ne in Hq by done. by apply H3.
Qed.


Lemma inv_keep s g lm pcs lm' pcs' ph : inv s → groups s !! g = Some (lm, pcs) → group_ok g lm' pcs' ph →
  (∀ b, 0 <= b < num_bins → flushed g pcs' b = flushed g pcs b) →
  inv (Sys (global s) (<[g := (lm', pcs')]> (groups s))).
Proof.
  intros [H1 H2 H3 H4] Hg Hok Hf. split; simpl; [by rewrite length_insert| |done|].
  - intros g' lm2 pcs2 Hg'. destruct (decide (g' = g)) as [->|Hne].
    + rewrite list_lookup_insert_eq in Hg' by (by eapply lookup_lt_Some). injection Hg' as <- <-. by exists ph.
    + rewrite list_lookup_insert_ne in Hg' by done. exact (H2 g' lm2 pcs2 Hg').
  - intros b Hb. rewrite (zsum_imap_insert _ _ _ _ _ Hg), (H4 b Hb). simpl. rewrite (Hf b Hb). do 2 f_equal. lia.
Qed.

Lemma group_bound s g lm pcs : inv s → groups s !! g = Some (lm, pcs) → (g < num_groups)%nat.
Proof. intros Hi Hg. rewrite <-(inv_groups s Hi). by eapply lookup_lt_Some. Qed.

Lemma gsz_pos g : (g < num_groups)%nat → 0 < gsz.
Proof. pose proof lsz_pos. unfold get_global_size. nia. Qed.

(** Clearing one cell, and the end of the first loop. *)
Lemma clear_ok g lm pcs l i : group_ok g lm pcs Clearing → pcs !! l = Some (Clear i) → i < num_bins →
  group_ok g (<[Z.to_nat i := 0]> lm) (<[l := Clear (i + lsz)]> pcs) Clearing.
Proof.
  intros Hok Hl Hi. pose proof Hok as [Hlen Hlm Hit Hcell]. destruct (Hit l _ Hl) as [_ [H0 Hm]].
  pose proof lsz_pos. apply (group_update g lm _ _ l (Clear i)); try done.
  - split; [lia|]. rewrite <-Hm, Zplus_mod, Z.mod_same, Z.add_0_r by lia. apply Z.mod_mod. lia.
  - by rewrite length_insert.
  - intros b Hb p Hp Hc. rewrite elem_set by lia. destruct (decide (b = i)) as [->|Hne]; [done|].
    destruct (decide (Z.to_nat (b `mod` lsz) = l)) as [Heq|Hl'].
    + rewrite Heq, list_lookup_insert_eq in Hp by (by eapply lookup_lt_Some). injection Hp as <-. simpl in Hc.
      apply (Hcell b Hb (Clear i)); [by rewrite Heq|]. simpl. pose proof (Z.mod_pos_bound b lsz ltac:(lia)).
      destruct (below_next b i lsz) as [|]; [lia|lia|done|done|done].
    + rewrite list_lookup_insert_ne in Hp by done. by apply (Hcell b Hb p).
Qed.

Lemma clear_end g lm pcs l i : group_ok g lm pcs Clearing → pcs !! l = Some (Clear i) → num_bins <= i →
  group_ok g lm (<[l := Barrier1]> pcs) Clearing.
Proof.
  intros Hok Hl Hi. pose proof Hok as [Hlen Hlm Hit Hcell]. apply (group_update g lm _ _ l (Clear i)); try done.
  intros b Hb p Hp Hc. destruct (decide (Z.to_nat (b `mod` lsz) = l)) as [Heq|Hl'].
  - apply (Hcell b Hb (Clear i)); [by rewrite Heq|]. simpl. lia.
  - rewrite list_lookup_insert_ne in Hp by done. by apply (Hcell b Hb p).
Qed.

(** Counting one element, and the end of the second loop. *)
Lemma count_ok g lm pcs l i d lm' : (g < num_groups)%nat → group_ok g lm pcs Counting → pcs !! l = Some (Count i) →
  i < num_data data → elem data i = Some d → atomic_add lm d 1 = Some lm' →
  group_ok g lm' (<[l := Count (i + gsz)]> pcs) Counting.
Proof.
  intros Hg Hok Hl Hi Hd Ha. pose proof Hok as [Hlen Hlm Hit Hcell]. destruct (Hit l _ Hl) as [_ [H0 Hm]].
  pose proof (gsz_pos g Hg). destruct (data_at i ltac:(lia)) as (d' & Hd' & Hdl & Hdb).
  rewrite Hd in Hd'. injection Hd' as <-.
  destruct (atomic_add_run lm d 1 ltac:(lia)) as (m' & Hm' & Hlen' & Helem). rewrite Ha in Hm'. injection Hm' as <-.
  apply (group_update g lm _ _ l (Count i)); try done.
  - split; [lia|]. rewrite <-Hm, Zplus_mod, Z.mod_same, Z.add_0_r by lia. apply Z.mod_mod. lia.
  - lia.
  - intros b Hb. rewrite Helem. unfold counted. rewrite (zsum_imap_insert _ _ _ _ _ Hl). simpl.
    rewrite (cnt_next _ i d b ltac:(lia) H0 Hdl Hm). specialize (Hcell b Hb). simpl in Hcell. rewrite Hcell.
    unfold counted. destruct (decide (b = d)) as [->|Hne]; simpl.
    + rewrite i32_plus, decide_True by done. do 2 f_equal. lia.
    + rewrite decide_False by congruence. do 2 f_equal. lia.
Qed.

Lemma count_end g lm pcs l i : group_ok g lm pcs Counting → pcs !! l = Some (Count i) → num_data data <= i →
  group_ok g lm (<[l := Barrier2]> pcs) Counting.
Proof.
  intros Hok Hl Hi. pose proof Hok as [Hlen Hlm Hit Hcell]. apply (group_update g lm _ _ l (Count i)); try done.
  intros b Hb. unfold counted. rewrite (zsum_imap_insert _ _ _ _ _ Hl). simpl.
  rewrite <-(cnt_end _ i b Hi). specialize (Hcell b Hb). simpl in Hcell. rewrite Hcell. unfold counted. do 2 f_equal. lia.
Qed.

(** Reading a local count, adding it to the histogram, and the end of the third loop. *)
Lemma flush_ok g lm pcs l i v : group_ok g lm pcs Flushes → pcs !! l = Some (Flush i) → i < num_bins →
  elem lm i = Some v → group_ok g lm (<[l := Flushing i v]> pcs) Flushes.
Proof.
  intros Hok Hl Hi Hv. pose proof Hok as [Hlen Hlm Hit Hcell]. destruct (Hit l _ Hl) as [_ [H0 Hm]].
  apply (group_update g lm _ _ l (Flush i)); try done. split; [split; [lia|done]|].
  specialize (Hcell i ltac:(lia)). simpl in Hcell. congruence.
Qed.

Lemma flushing_ok g lm pcs l i v : group_ok g lm pcs Flushes → pcs !! l = Some (Flushing i v) →
  group_ok g lm (<[l := Flush (i + lsz)]> pcs) Flushes.
Proof.
  intros Hok Hl. pose proof Hok as [Hlen Hlm Hit Hcell]. destruct (Hit l _ Hl) as [_ [[H0 Hm] _]].
  pose proof lsz_pos. apply (group_update g lm _ _ l (Flushing i v)); try done.
  split; [lia|]. rewrite <-Hm, Zplus_mod, Z.mod_same, Z.add_0_r by lia. apply Z.mod_mod. lia.
Qed.

Lemma flush_end g lm pcs l i : group_ok g lm pcs Flushes → pcs !! l = Some (Flush i) →
  group_ok g lm (<[l := End_]> pcs) Flushes.
Proof.
  intros Hok Hl. pose proof Hok as [Hlen Hlm Hit Hcell]. by apply (group_update g lm _ _ l (Flush i)).
Qed.

Lemma flushing_sum g lm pcs l i v b : group_ok g lm pcs Flushes → pcs !! l = Some (Flushing i v) → 0 <= b < num_bins →
  flushed g (<[l := Flush (i + lsz)]> pcs) b = flushed g pcs b + (if decide (b = i) then share g i else 0).
Proof.
  intros [Hlen _ Hit _] Hl Hb. destruct (Hit l _ Hl) as [_ [[H0 Hm] _]]. pose proof lsz_pos.
  pose proof (Z.mod_pos_bound b lsz ltac:(lia)).
  destruct (decide (b = i)) as [->|Hne].
  - unfold flushed. rewrite Hm, Nat2Z.id, Hl, list_lookup_insert_eq by (by eapply lookup_lt_Some). simpl.
    rewrite Z.ltb_irrefl, (proj2 (Z.ltb_lt _ _)) by lia. lia.
  - rewrite (flushed_other g pcs l (Flushing i v)); [lia|done|lia|]. intros Hbm. simpl.
    destruct (Z.ltb_spec b i), (Z.ltb_spec b (i + lsz)); try lia.
    destruct (below_next b i lsz); [lia|congruence|lia|lia|lia].
Qed.

Lemma item_preserves s g l lm pcs p p' h' lm' : inv s → groups s !! g = Some (lm, pcs) → pcs !! l = Some p →
  hist_step data num_bins num_groups local_size g l p (global s) lm = Some (p', h', lm') →
  inv (Sys h' (<[g := (lm', <[l := p']> pcs)]> (groups s))).
Proof.
  intros Hi Hg Hl Hs. pose proof (group_bound s g lm pcs Hi Hg) as Hgb.
  destruct (inv_group s Hi g lm pcs Hg) as [ph Hok]. destruct (gr_item _ _ _ _ Hok l p Hl) as [<- Hitem].
  assert (Hsame : ∀ q, (∀ b, 0 <= b < num_bins → passed q b = passed p b) →
    ∀ b, 0 <= b < num_bins → flushed g (<[l := q]> pcs) b = flushed g pcs b).
  { intros q Hq b Hb. apply (flushed_other g pcs l p); [done|lia|]. intros _. by apply Hq. }
  destruct p as [i| |i| |i|i v|]; cbn [hist_step] in Hs; try discriminate; simpl in Hitem.
  - destruct (Z.ltb_spec i num_bins) as [Hlt|Hge].
    + apply bind_Some in Hs as (lm1 & Hset & Hs). apply bind_Some in Hs as (i1 & Ha & Hs). injection Hs as <- <- <-.
      rewrite set_elem_run in Hset by (pose proof (gr_local _ _ _ _ Hok); lia). injection Hset as <-.
      apply advance_Some in Ha as ->. apply (inv_keep s g lm pcs _ _ Clearing); [done|done| |by apply Hsame].
      by apply clear_ok.
    + injection Hs as <- <- <-. apply (inv_keep s g lm pcs _ _ Clearing); [done|done| |by apply Hsame].
      by apply clear_end with i.
  - destruct (Z.ltb_spec i (num_data data)) as [Hlt|Hge].
    + apply bind_Some in Hs as (d & Hd & Hs). apply bind_Some in Hs as (lm1 & Hadd & Hs).
      apply bind_Some in Hs as (i1 & Ha & Hs). injection Hs as <- <- <-.
      apply advance_Some in Ha as ->. apply (inv_keep s g lm pcs _ _ Counting); [done|done| |by apply Hsame].
      by apply (count_ok g lm pcs l i d).
    + injection Hs as <- <- <-. apply (inv_keep s g lm pcs _ _ Counting); [done|done| |by apply Hsame].
      by apply count_end with i.
  - destruct (Z.ltb_spec i num_bins) as [Hlt|Hge].
    + apply bind_Some in Hs as (v & Hv & Hs). injection Hs as <- <- <-.
      apply (inv_keep s g lm pcs _ _ Flushes); [done|done| |by apply Hsame]. by apply flush_ok.
    + injection Hs as <- <- <-.
      apply (inv_keep s g lm pcs _ _ Flushes); [done|done| |]; [by apply flush_end with i|].
      apply Hsame. intros b Hb. simpl. symmetry. apply Z.ltb_lt. lia.
  - apply bind_Some in Hs as (h1 & Hadd & Hs). apply bind_Some in Hs as (i1 & Ha & Hs). injection Hs as <- <- <-.
    apply advance_Some in Ha as ->. destruct Hitem as [[Hib Hm] ->].
    destruct (atomic_add_run (global s) i (i32 (share g i))) as (m' & Hm' & Hlen & Helem); [by rewrite (inv_bins s Hi)|].
    rewrite Hadd in Hm'. injection Hm' as <-. pose proof Hi as [H1 H2 H3 H4]. split; simpl.
    + by rewrite length_insert.
    + intros g' lm2 pcs2 Hg'. destruct (decide (g' = g)) as [->|Hne].
      * rewrite list_lookup_insert_eq in Hg' by (by eapply lookup_lt_Some). injection Hg' as <- <-.
        exists Flushes. by apply (flushing_ok g lm pcs l i (i32 (share g i))).
      * rewrite list_lookup_insert_ne in Hg' by done. exact (H2 g' lm2 pcs2 Hg').
    + lia.
    + intros b Hb. rewrite Helem, (zsum_imap_insert _ _ _ _ _ Hg), (H4 b Hb). simpl.
      rewrite (flushing_sum g lm pcs l i _ b Hok Hl Hb).
      destruct (decide (b = i)) as [->|]; simpl; [|do 2 f_equal; lia].
      rewrite i32_plus, Z.add_comm, i32_plus. do 2 f_equal. lia.
Qed.

(** *** A group passes a barrier *)
Lemma barrier_item f pcs pcs' l p' : imap f pcs = Some <$> pcs' → pcs' !! l = Some p' →
  ∃ p : pc, pcs !! l = Some p ∧ f l p = Some (p' : pc).
Proof.
  intros Hb Hl. assert (Hl' : imap f pcs !! l = Some (Some p')) by (by rewrite Hb, list_lookup_fmap, Hl).
  rewrite list_lookup_imap in Hl'. apply fmap_Some in Hl' as (p & Hp & Hf). by exists p.
Qed.

Lemma barrier_length (f : nat → pc → option pc) pcs pcs' : imap f pcs = Some <$> pcs' → length pcs' = length pcs.
Proof. intros Hb. apply (f_equal length) in Hb. rewrite length_imap, length_fmap in Hb. done. Qed.

Lemma barrier_ok g lm pcs pcs' ph : (g < num_groups)%nat → group_ok g lm pcs ph → pcs ≠ [] →
  imap (hist_barrier local_size g) pcs = Some <$> pcs' →
  ∃ ph', group_ok g lm pcs' ph' ∧ ∀ b, 0 <= b < num_bins → flushed g pcs' b = flushed g pcs b.
Proof.
  intros Hg Hok Hne Hb. pose proof Hok as [Hlen Hlm Hit Hcell]. pose proof (barrier_length _ _ _ Hb) as Hlen'.
  assert (Hfrom : ∀ l p', pcs' !! l = Some p' → ∃ p, pcs !! l = Some p ∧ phase_of p = ph ∧
    hist_barrier local_size g l p = Some p' ∧ (l < local_size)%nat).
  { intros l p' Hp'. destruct (barrier_item _ _ _ _ _ Hb Hp') as (p & Hp & Hf). exists p.
    split; [done|]. split; [apply (Hit l p Hp)|]. split; [done|]. rewrite <-Hlen. by eapply lookup_lt_Some. }
  assert (Hto : ∀ l p, pcs !! l = Some p → ∃ p', pcs' !! l = Some p' ∧ hist_barrier local_size g l p = Some p').
  { intros l p Hp. destruct (lookup_lt_is_Some_2 pcs' l) as [p' Hp'].
    { rewrite Hlen'. by eapply lookup_lt_Some. }
    destruct (Hfrom l p' Hp') as (q & Hq & _ & Hf & _). exists p'. split; [done|]. congruence. }
  pose proof lsz_pos.
  assert (Hflush : ∀ b, 0 <= b < num_bins → flushed g pcs' b = flushed g pcs b).
  { intros b Hbb. unfold flushed. destruct (pcs' !! _) as [p'|] eqn:Hp'.
    - destruct (Hfrom _ _ Hp') as (p & Hp & _ & Hf & _). rewrite Hp.
      pose proof (Z.mod_pos_bound b lsz ltac:(lia)). pose proof (Z.mod_le b lsz ltac:(lia) ltac:(lia)).
      destruct p; simpl in Hf; try discriminate; injection Hf as <-; [done|]. simpl.
      rewrite Z2Nat.id by lia. by rewrite (proj2 (Z.ltb_ge _ _)) by lia.
    - destruct (pcs !! _) as [p|] eqn:Hp; [|done]. destruct (Hto _ _ Hp) as (p' & Hq & _). congruence. }
  destruct ph.
  - exists Counting. split; [|done]. split; [lia|done| |].
    + intros l p' Hp'. destruct (Hfrom l p' Hp') as (p & Hp & Hph & Hf & Hll).
      destruct p; simpl in Hf, Hph; try discriminate. injection Hf as <-. pose proof (gid_bound g l Hg Hll).
      split; [done|]. split; [lia|]. apply Z.mod_small. lia.
    + intros b Hbb. simpl.
      assert (H0 : counted g pcs' b = 0).
      { unfold counted. rewrite (zsum_imap_ext _ (λ _ _, 0)); [apply zsum_imap_0|]. intros l p' Hp'.
        destruct (Hfrom l p' Hp') as (p & Hp & Hph & Hf & Hll). destruct p; simpl in Hf, Hph; try discriminate.
        injection Hf as <-. by apply cnt_start. }
      rewrite H0. change (i32 0) with 0.
      destruct (lookup_lt_is_Some_2 pcs (Z.to_nat (b `mod` lsz))) as [p Hp].
      { rewrite Hlen. apply local_id_bound. lia. }
      destruct (Hto _ _ Hp) as (p' & _ & Hf). destruct (Hit _ p Hp) as [Hph _].
      apply (Hcell b Hbb p Hp). by destruct p.
  - exists Flushes. split; [|done]. split; [lia|done| |].
    + intros l p' Hp'. destruct (Hfrom l p' Hp') as (p & Hp & Hph & Hf & Hll).
      destruct p; simpl in Hf, Hph; try discriminate. injection Hf as <-.
      split; [done|]. split; [lia|]. apply Z.mod_small. unfold get_local_size. lia.
    + intros b Hbb. simpl. rewrite <-(counted_share g pcs b Hlen); [by apply (Hcell b Hbb)|].
      intros l p Hp. destruct (Hto l p Hp) as (p' & _ & Hf), (Hit l p Hp) as [Hph _]. by destruct p.
  - exfalso. destruct pcs as [|p pcs]; [done|]. destruct (Hto 0%nat p eq_refl) as (p' & _ & Hf), (Hit 0%nat p eq_refl) as [Hph _].
    by destruct p.
Qed.

Lemma inv_step s s' : inv s → step K s s' → inv s'.
Proof.
  intros Hi. destruct 1 as [g l lm pcs p p' h' lm' Hg Hl Hs|g lm pcs pcs' b0 Hg Hne _ Hb].
  - by apply (item_preserves s g l lm pcs p).
  - destruct (inv_group s Hi g lm pcs Hg) as [ph Hok].
    destruct (barrier_ok g lm pcs pcs' ph (group_bound s g lm pcs Hi Hg) Hok Hne Hb) as (ph' & Hok' & Hf).
    by apply (inv_keep s g lm pcs lm pcs' ph').
Qed.

(** *** Progress *)
Definition at_barrier (p : pc) : Prop := p = Barrier1 ∨ p = Barrier2 ∨ p = End_.
#[local] Instance at_barrier_dec p : Decision (at_barrier p).
Proof. destruct p; (right; unfold at_barrier; naive_solver discriminate) || (left; unfold at_barrier; tauto). Defined.

Lemma item_runs s g l lm pcs p : inv s → groups s !! g = Some (lm, pcs) → pcs !! l = Some p → ¬ at_barrier p →
  ∃ r, hist_step data num_bins num_groups local_size g l p (global s) lm = Some r.
Proof.
  intros Hi Hg Hl Hp. destruct (inv_group s Hi g lm pcs Hg) as [ph [Hlen Hlm Hit Hcell]].
  destruct (Hit l p Hl) as [_ Hitem]. pose proof (group_bound s g lm pcs Hi Hg) as Hgb. pose proof lsz_pos. pose proof (gsz_pos g Hgb).
  unfold at_barrier in Hp. destruct p as [i| |i| |i|i v|]; try tauto; simpl in Hitem; cbn [hist_step].
  - destruct (Z.ltb_spec i num_bins); [|by eexists]. rewrite set_elem_run by lia. simpl. rewrite advance_run by lia. by eexists.
  - destruct (Z.ltb_spec i (num_data data)); [|by eexists]. destruct (data_at i ltac:(lia)) as (d & -> & _ & Hd). simpl.
    destruct (atomic_add_run lm d 1) as (m & -> & _); [lia|]. simpl. rewrite advance_run by lia. by eexists.
  - destruct (Z.ltb_spec i num_bins); [|by eexists]. destruct (elem_in lm i ltac:(lia)) as [v ->]. by eexists.
  - destruct (atomic_add_run (global s) i v) as (m & -> & _); [rewrite (inv_bins s Hi); lia|]. simpl.
    rewrite advance_run by lia. by eexists.
Qed.

(** Items of one phase that are all waiting wait for the same thing. *)
Lemma all_waiting g lm pcs ph : group_ok g lm pcs ph → Forall at_barrier pcs →
  Forall (λ p, hist_end p = true) pcs ∨
  ∃ pcs' b, Forall (λ p, hist_waits p = Some b) pcs ∧ imap (hist_barrier local_size g) pcs = Some <$> pcs'.
Proof.
  intros [Hlen Hlm Hit _] Hall. rewrite Forall_lookup in Hall. destruct ph.
  - right. exists (imap (λ l _, Count (gid g l)) pcs), 1. split.
    { apply Forall_lookup. intros l p Hp. destruct (Hit l p Hp) as [Hph _].
      destruct (Hall l p Hp) as [-> |[-> | ->]]; done. }
    apply list_eq. intros l.
    rewrite list_lookup_fmap, !list_lookup_imap. destruct (pcs !! l) as [p|] eqn:Hp; [|done]. simpl.
    destruct (Hit l p Hp) as [Hph _]. destruct (Hall l p Hp) as [-> |[-> | ->]]; done.
  - right. exists (imap (λ l _, Flush (Z.of_nat l)) pcs), 2. split.
    { apply Forall_lookup. intros l p Hp. destruct (Hit l p Hp) as [Hph _].
      destruct (Hall l p Hp) as [-> |[-> | ->]]; done. }
    apply list_eq. intros l.
    rewrite list_lookup_fmap, !list_lookup_imap. destruct (pcs !! l) as [p|] eqn:Hp; [|done]. simpl.
    destruct (Hit l p Hp) as [Hph _]. destruct (Hall l p Hp) as [-> |[-> | ->]]; done.
  - left. apply Forall_lookup. intros l p Hp. destruct (Hit l p Hp) as [Hph _].
    destruct (Hall l p Hp) as [-> |[-> | ->]]; done.
Qed.

Lemma inv_progress s : inv s → final K s ∨ ∃ s', step K s s'.
Proof.
  intros Hi. destruct (decide (Forall (λ gr, Forall (λ p, hist_end p = true) gr.2) (groups s))) as [Hf|Hn].
  { left. intros g lm pcs Hg. rewrite Forall_lookup in Hf. exact (Hf g _ Hg). }
  right. apply not_Forall_Exists in Hn; [|intros x; apply _]. apply Exists_exists in Hn as ([lm pcs] & Hin & Hn).
  apply list_elem_of_lookup in Hin as [g Hg]. simpl in Hn.
  destruct (decide (Forall at_barrier pcs)) as [Hw|Hw].
  - destruct (inv_group s Hi g lm pcs Hg) as [ph Hok].
    destruct (all_waiting g lm pcs ph Hok Hw) as [|(pcs' & b & Hb & Hp)]; [done|]. eexists. apply (step_barrier K s g lm pcs pcs' b); [done| |done|done].
    intros ->. apply Hn. constructor.
  - apply not_Forall_Exists in Hw; [|intros x; apply _]. apply Exists_exists in Hw as (p & Hin & Hp).
    apply list_elem_of_lookup in Hin as [l Hl].
    destruct (item_runs s g l lm pcs p Hi Hg Hl Hp) as [[[p' h'] lm'] Hr].
    eexists. by apply (step_item K s g l lm pcs p p' h' lm').
Qed.

(** *** The end *)
Definition pc_weight (g l : nat) (p : pc) : Z :=
  let left n i := Z.max 0 (n - i) in
  match p with
  | Clear i => 2 * num_bins + num_data data + 9 + left num_bins i
  | Barrier1 => 2 * num_bins + num_data data + 8
  | Count i => 2 * num_bins + 6 + left (num_data data) i
  | Barrier2 => 2 * num_bins + 5
  | Flush i => 1 + 2 * left num_bins i
  | Flushing i _ => 2 + 2 * left num_bins (i + 1)
  | End_ => 0
  end.

Lemma pc_weight_nonneg g l p : 0 <= pc_weight g l p.
Proof. unfold num_data, pc_weight. destruct p; unfold num_data; lia. Qed.

Lemma pc_weight_step g l p m lm p' m' lm' :
  hist_step data num_bins num_groups local_size g l p m lm = Some (p', m', lm') → 0 < gsz →
  pc_weight g l p' < pc_weight g l p.
Proof.
  intros Hs Hg. pose proof lsz_pos. unfold num_data in *.
  destruct p as [i| |i| |i|i v|]; cbn [hist_step] in Hs; try discriminate.
  - destruct (Z.ltb_spec i num_bins); [|injection Hs as <- <- <-; unfold pc_weight, num_data; lia].
    apply bind_Some in Hs as (lm1 & _ & Hs). apply bind_Some in Hs as (i1 & Ha & Hs). injection Hs as <- <- <-.
    apply advance_Some in Ha as ->. unfold pc_weight, num_data. lia.
  - unfold num_data in Hs. destruct (Z.ltb_spec i (Z.of_nat (length data))); [|injection Hs as <- <- <-; unfold pc_weight, num_data; lia].
    apply bind_Some in Hs as (d & _ & Hs). apply bind_Some in Hs as (lm1 & _ & Hs).
    apply bind_Some in Hs as (i1 & Ha & Hs). injection Hs as <- <- <-.
    apply advance_Some in Ha as ->. unfold pc_weight, num_data. lia.
  - destruct (Z.ltb_spec i num_bins); [|injection Hs as <- <- <-; unfold pc_weight; lia].
    apply bind_Some in Hs as (v & _ & Hs). injection Hs as <- <- <-. unfold pc_weight. lia.
  - apply bind_Some in Hs as (h1 & _ & Hs). apply bind_Some in Hs as (i1 & Ha & Hs). injection Hs as <- <- <-.
    apply advance_Some in Ha as ->. unfold pc_weight. lia.
Qed.

Lemma pc_weight_barrier g l p p' : hist_barrier local_size g l p = Some p' → pc_weight g l p' < pc_weight g l p.
Proof.
  pose proof lsz_pos. destruct p; simpl; intros Hp; try discriminate; injection Hp as <-; unfold pc_weight, num_data;
    [unfold get_global_id; nia|lia].
Qed.

(** Each element is of one item. *)
Lemma zsum_swap {A B} (h : nat → nat → B → Z) (xs : list A) (ys : list B) :
  zsum (imap (λ i _, zsum (imap (h i) ys)) xs) = zsum (imap (λ j y, zsum (imap (λ i _, h i j y) xs)) ys).
Proof.
  revert h. induction xs as [|x xs IH]; intros h.
  - simpl. by rewrite zsum_imap_0.
  - rewrite imap_cons. simpl. unfold compose. rewrite (IH (λ i, h (S i))).
    rewrite <-zsum_imap_plus. by apply zsum_imap_ext.
Qed.

Lemma zsum_only {A} (f : nat → A → Z) l i x :
  l !! i = Some x → (∀ j y, l !! j = Some y → j ≠ i → f j y = 0) → zsum (imap f l) = f i x.
Proof.
  intros Hi H. rewrite (zsum_imap_one (λ _ _, 0) f l i x Hi) by done. rewrite zsum_imap_0. lia.
Qed.

Lemma one_owner (j : Z) (n : nat) : 0 <= j → n = num_groups → (0 < num_groups)%nat →
  zsum (imap (λ g _, zsum (imap (λ l _, if decide (j `mod` gsz = gid g l) then 1 else 0) (seq 0 local_size))) (seq 0 n)) = 1.
Proof.
  intros Hj -> Hn. pose proof lsz_pos. assert (Hg : 0 < gsz) by (by apply (gsz_pos 0)).
  set (r := j `mod` gsz). pose proof (Z.mod_pos_bound j gsz Hg) as Hr. fold r in Hr.
  assert (Hdiv : r = lsz * (r / lsz) + r `mod` lsz) by (apply Z.div_mod; lia).
  pose proof (Z.mod_pos_bound r lsz ltac:(lia)) as Hm.
  assert (Hq : 0 <= r / lsz < Z.of_nat num_groups).
  { split; [apply Z.div_pos; lia|]. apply Z.div_lt_upper_bound; [lia|]. unfold get_global_size in Hr. lia. }
  assert (Huniq : ∀ g l, (l < local_size)%nat → r = gid g l → Z.of_nat g = r / lsz ∧ Z.of_nat l = r `mod` lsz).
  { intros g l Hl Hrg. unfold get_global_id in Hrg. assert (0 <= Z.of_nat l < lsz) by (unfold get_local_size; lia).
    split; [apply (Z.div_unique r lsz (Z.of_nat g) (Z.of_nat l)); lia|apply (Z.mod_unique r lsz (Z.of_nat g) (Z.of_nat l)); lia]. }
  rewrite (zsum_only _ _ (Z.to_nat (r / lsz)) (Z.to_nat (r / lsz))).
  - rewrite (zsum_only _ _ (Z.to_nat (r `mod` lsz)) (Z.to_nat (r `mod` lsz))).
    + rewrite decide_True; [done|]. unfold get_global_id. lia.
    + apply lookup_seq. assert (lsz = Z.of_nat local_size) by done. lia.
    + intros l y Hl Hne. apply lookup_seq in Hl as [_ Hl]. apply decide_False. intros Heq.
      destruct (Huniq _ _ Hl Heq). lia.
  - apply lookup_seq. lia.
  - intros g y Hg' Hne. rewrite (zsum_imap_ext _ (λ _ _, 0)); [apply zsum_imap_0|].
    intros l z Hl. apply lookup_seq in Hl as [_ Hl]. apply decide_False. intros Heq. destruct (Huniq _ _ Hl Heq). lia.
Qed.

Lemma shares_sum b : (0 < num_groups)%nat → zsum (imap (λ g _, share g b) (seq 0 num_groups)) = occurrences b data.
Proof.
  intros Hn.
  rewrite (zsum_imap_ext _ (λ g _, zsum (imap (λ j d, zsum (imap (λ l _, mark (gid g l) (num_data data) b j d) (seq 0 local_size))) data))).
  2: { intros g _ _. unfold share, counted.
       rewrite (zsum_imap_ext2 _ (λ l _, cnt (gid g l) (num_data data) b) _ (seq 0 local_size)).
       - unfold cnt. apply zsum_swap.
       - by rewrite length_replicate, length_seq.
       - intros l p x Hp _. by apply lookup_replicate in Hp as [-> _]. }
  rewrite (zsum_swap (λ g j d, zsum (imap (λ l _, mark (gid g l) (num_data data) b j d) (seq 0 local_size)))).
  unfold occurrences. rewrite <-(imap_const (λ d, if decide (d = b) then 1 else 0)).
  apply zsum_imap_ext. intros j d Hd. apply lookup_lt_Some in Hd. unfold mark, num_data, const.
  destruct (decide (d = b)) as [->|Hne].
  - trans (zsum (imap (λ g _, zsum (imap (λ l _, if decide (Z.of_nat j `mod` gsz = gid g l) then 1 else 0)
      (seq 0 local_size))) (seq 0 num_groups))); [|apply one_owner; (done || lia)].
    apply zsum_imap_ext. intros g _ _. apply zsum_imap_ext. intros l _ _. apply decide_ext. split; [tauto|]. intros Heq. split; [lia|done].
  - rewrite (zsum_imap_ext _ (λ _ _, 0)); [apply zsum_imap_0|]. intros g _ _.
    rewrite (zsum_imap_ext _ (λ _ _, 0)); [apply zsum_imap_0|]. intros l _ _. apply decide_False. tauto.
Qed.

Definition counts (h : list Z) : Prop :=
  Z.of_nat (length h) = num_bins ∧
  ∀ b, 0 <= b < num_bins → elem h b = Some (i32 (default 0 (elem h0 b) + occurrences b data)).

Lemma inv_final s : (0 < num_groups)%nat → inv s → final K s → counts (global s).
Proof.
  intros Hn [H1 H2 H3 H4] Hf. split; [done|]. intros b Hb. rewrite (H4 b Hb), <-(shares_sum b Hn). do 3 f_equal.
  apply zsum_imap_ext2; [by rewrite length_seq|]. intros g [lm pcs] x Hg _. simpl.
  destruct (H2 g lm pcs Hg) as [ph [Hlen _ _ _]]. specialize (Hf g lm pcs Hg). rewrite Forall_lookup in Hf. unfold flushed.
  destruct (lookup_lt_is_Some_2 pcs (Z.to_nat (b `mod` lsz))) as [p Hp]; [rewrite Hlen; apply local_id_bound; lia|].
  rewrite Hp. specialize (Hf _ p Hp). by destruct p.
Qed.

Lemma inv_start locals : length locals = num_groups → Forall (λ lm, Z.of_nat (length lm) = num_bins) locals →
  inv (hist_start local_size h0 locals).
Proof.
  intros Hn Hl. pose proof lsz_pos. rewrite Forall_lookup in Hl. split; unfold hist_start, start; simpl.
  - by rewrite length_imap.
  - intros g lm pcs Hg. rewrite list_lookup_imap in Hg. apply fmap_Some in Hg as (lm' & Hlm & [= -> ->]).
    exists Clearing. split.
    + by rewrite length_fmap, length_seq.
    + by apply (Hl g).
    + intros l p Hp. rewrite list_lookup_fmap in Hp. apply fmap_Some in Hp as (l' & Hl' & ->).
      apply lookup_seq in Hl' as [-> Hl']. simpl. split; [done|]. split; [lia|]. apply Z.mod_small. unfold get_local_size. lia.
    + intros b Hb p Hp Hc. rewrite list_lookup_fmap in Hp. apply fmap_Some in Hp as (l' & Hl' & ->).
      apply lookup_seq in Hl' as [-> Hl']. simpl in Hc.
      pose proof (Z.mod_pos_bound b lsz ltac:(lia)). pose proof (Z.mod_le b lsz ltac:(lia) ltac:(lia)). lia.
  - done.
  - intros b Hb. rewrite (zsum_imap_ext _ (λ _ _, 0)), zsum_imap_0, Z.add_0_r.
    + destruct (elem_in h0 b) as [x Hx]; [by rewrite h0_bins|]. rewrite Hx. simpl. f_equal. symmetry.
      apply elem_Some in Hx as [_ Hx]. rewrite Forall_lookup in h0_ints. by apply (h0_ints (Z.to_nat b)).
    + intros g [lm pcs] Hg. rewrite list_lookup_imap in Hg. apply fmap_Some in Hg as (lm' & _ & [= -> ->]).
      unfold flushed. simpl. rewrite list_lookup_fmap. destruct (seq 0 local_size !! _); done.
Qed.

Lemma hist_cl_run locals : (0 < num_groups)%nat →
  length locals = num_groups → Forall (λ lm, Z.of_nat (length lm) = num_bins) locals →
  always_ends K (λ s, counts (global s)) (hist_start local_size h0 locals).
Proof.
  intros Hn Hlen Hl. pose proof (gsz_pos 0 Hn) as Hg.
  apply (always_ends_by K inv _ (weight pc_weight)).
  - intros s _. apply weight_nonneg, pc_weight_nonneg.
  - apply inv_progress.
  - intros s s' Hi Hs. split; [by apply (inv_step s)|]. apply (weight_step K pc_weight); [| |exact Hs].
    + intros g l p m lm p' m' lm' Hs'. by apply (pc_weight_step g l p m lm p' m' lm').
    + intros g l p p'. apply pc_weight_barrier.
  - intros s. by apply inv_final.
  - by apply inv_start.
Qed.

Lemma hist_cl_result locals s' : (0 < num_groups)%nat →
  length locals = num_groups → Forall (λ lm, Z.of_nat (length lm) = num_bins) locals →
  rtc (step K) (hist_start local_size h0 locals) s' → final K s' → counts (global s').
Proof.
  intros Hn Hlen Hl Hr. apply (inv_final s' Hn). pose proof (inv_start locals Hlen Hl) as Hi.
  induction Hr as [|s1 s2 s3 H12 _ IH]; [done|]. apply IH. by apply (inv_step s1).
Qed.

(** *** Without local memory *)
Abbreviation KG := (onlyg_corr_cl data num_groups local_size).

Definition gupto (p : gpc) : Z := match p with Loop i | Store i _ _ => i | Done => num_data data end.
Definition gcounted (g : nat) (pcs : list gpc) (b : Z) : Z := zsum (imap (λ l p, cnt (gid g l) (gupto p) b) pcs).
Definition gitem_ok (g l : nat) (p : gpc) : Prop :=
  match p with Loop i => 0 <= i ∧ i `mod` gsz = gid g l | Store _ _ _ => False | Done => True end.

Record ginv (s : sys gpc (list Z) ()) : Prop := {
  ginv_groups : length (groups s) = num_groups;
  ginv_item : ∀ g u pcs, groups s !! g = Some (u, pcs) → length pcs = local_size ∧
    ∀ l p, pcs !! l = Some p → gitem_ok g l p;
  ginv_bins : Z.of_nat (length (global s)) = num_bins;
  ginv_sum : ∀ b, 0 <= b < num_bins → elem (global s) b =
    Some (i32 (default 0 (elem h0 b) + zsum (imap (λ g p, gcounted g p.2 b) (groups s)))) }.

Lemma gitem_preserves s g l u pcs p p' h' u' : ginv s → groups s !! g = Some (u, pcs) → pcs !! l = Some p →
  onlyg_corr_step data num_groups local_size g l p (global s) u = Some (p', h', u') →
  ginv (Sys h' (<[g := (u', <[l := p']> pcs)]> (groups s))).
Proof.
  intros Hi Hg Hl Hs. pose proof Hi as [H1 H2 H3 H4]. destruct (H2 g u pcs Hg) as [Hlen Hit].
  assert (Hgp : 0 < gsz) by (apply (gsz_pos g); rewrite <-H1; by eapply lookup_lt_Some).
  assert (Hnew : gitem_ok g l p' ∧ Z.of_nat (length h') = num_bins ∧ ∀ b, 0 <= b < num_bins → ∃ x,
    elem (global s) b = Some (i32 x) ∧ elem h' b = Some (i32 (x + (cnt (gid g l) (gupto p') b - cnt (gid g l) (gupto p) b)))).
  { specialize (Hit l p Hl). destruct p as [i| |]; cbn [onlyg_corr_step] in Hs; try discriminate. simpl in Hit.
    destruct Hit as [H0 Hm]. destruct (Z.ltb_spec i (num_data data)) as [Hlt|Hge].
    - apply bind_Some in Hs as (d & Hd & Hs). apply bind_Some in Hs as (h1 & Hadd & Hs).
      apply bind_Some in Hs as (i1 & Ha & Hs). injection Hs as <- <- <-. apply advance_Some in Ha as ->.
      destruct (data_at i ltac:(lia)) as (d' & Hd' & Hdl & Hdb). rewrite Hd in Hd'. injection Hd' as <-.
      destruct (atomic_add_run (global s) d 1) as (m' & Hm' & Hlen' & Helem); [lia|]. rewrite Hadd in Hm'. injection Hm' as <-.
      split; [|split; [lia|]].
      + simpl. split; [lia|]. rewrite <-Hm, Zplus_mod, Z.mod_same, Z.add_0_r by lia. apply Z.mod_mod. lia.
      + intros b Hb. eexists. split; [by apply H4|]. rewrite Helem, (H4 b Hb). simpl.
        rewrite (cnt_next _ i d b Hgp H0 Hdl Hm). destruct (decide (b = d)) as [->|Hne]; simpl.
        * rewrite i32_plus, decide_True by done. do 2 f_equal. lia.
        * rewrite decide_False by congruence. do 2 f_equal. lia.
    - injection Hs as <- <- <-. split; [done|]. split; [done|]. intros b Hb. eexists. split; [by apply H4|].
      simpl. rewrite (cnt_end _ i b Hge), Z.sub_diag, Z.add_0_r. by apply H4. }
  destruct Hnew as (Hok & Hb' & Hsum). split; simpl; [by rewrite length_insert| |done|].
  - intros g' u2 pcs2 Hg'. destruct (decide (g' = g)) as [->|Hne].
    + rewrite list_lookup_insert_eq in Hg' by (by eapply lookup_lt_Some). injection Hg' as <- <-.
      split; [by rewrite length_insert|]. intros l' q Hq. destruct (decide (l' = l)) as [->|Hnl].
      * rewrite list_lookup_insert_eq in Hq by (by eapply lookup_lt_Some). by injection Hq as <-.
      * rewrite list_lookup_insert_ne in Hq by done. by apply Hit.
    + rewrite list_lookup_insert_ne in Hg' by done. exact (H2 g' u2 pcs2 Hg').
  - intros b Hb. destruct (Hsum b Hb) as (x & Hx & Hx'). rewrite Hx'. rewrite (H4 b Hb) in Hx. injection Hx as Hx.
    rewrite <-i32_plus, <-Hx, i32_plus. do 2 f_equal.
    rewrite (zsum_imap_insert _ _ _ _ _ Hg). unfold gcounted. simpl. rewrite (zsum_imap_insert _ _ _ _ _ Hl). lia.
Qed.

Lemma ginv_step s s' : ginv s → step KG s s' → ginv s'.
Proof.
  intros Hi. destruct 1 as [g l lm pcs p p' h' lm' Hg Hl Hs|g lm pcs pcs' b0 Hg Hne _ Hb].
  - by apply (gitem_preserves s g l lm pcs p).
  - exfalso. destruct pcs as [|p pcs]; [done|]. rewrite imap_cons in Hb. by destruct pcs'.
Qed.

#[local] Instance gend_dec (p : gpc) : Decision (gend p = true) := _.

Lemma ginv_progress s : ginv s → final KG s ∨ ∃ s', step KG s s'.
Proof.
  intros Hi. destruct (decide (Forall (λ gr, Forall (λ p, gend p = true) gr.2) (groups s))) as [Hf|Hn].
  { left. intros g lm pcs Hg. rewrite Forall_lookup in Hf. exact (Hf g _ Hg). }
  right. apply not_Forall_Exists in Hn; [|intros x; apply _]. apply Exists_exists in Hn as ([u pcs] & Hin & Hn).
  apply list_elem_of_lookup in Hin as [g Hg]. simpl in Hn.
  apply not_Forall_Exists in Hn; [|intros x; apply _]. apply Exists_exists in Hn as (p & Hin & Hp).
  apply list_elem_of_lookup in Hin as [l Hl]. pose proof Hi as [H1 H2 H3 H4]. destruct (H2 g u pcs Hg) as [_ Hit].
  assert (Hr : ∃ r, onlyg_corr_step data num_groups local_size g l p (global s) u = Some r).
  { specialize (Hit l p Hl). destruct p as [i| |]; [|done|by destruct Hp]. cbn [onlyg_corr_step]. simpl in Hit.
    destruct (Z.ltb_spec i (num_data data)); [|by eexists]. destruct (data_at i ltac:(lia)) as (d & -> & _ & Hd). simpl.
    destruct (atomic_add_run (global s) d 1) as (m & -> & _); [lia|]. simpl. rewrite advance_run by lia. by eexists. }
  destruct Hr as [[[p' h'] u'] Hr]. eexists. by apply (step_item KG s g l u pcs p p' h' u').
Qed.

Definition gweight (g l : nat) (p : gpc) : Z :=
  match p with Loop i => 1 + Z.max 0 (num_data data - i) | _ => 0 end.

Lemma onlyg_corr_run : (0 < num_groups)%nat →
  always_ends KG (λ s, counts (global s)) (onlyg_start num_groups local_size h0).
Proof.
  intros Hn. pose proof (gsz_pos 0 Hn) as Hg.
  apply (always_ends_by KG ginv _ (weight gweight)).
  - intros s _. apply weight_nonneg. intros g l p. unfold gweight. destruct p; lia.
  - apply ginv_progress.
  - intros s s' Hi Hs. split; [by apply (ginv_step s)|]. apply (weight_step KG gweight); [|done|exact Hs].
    intros g l p m u p' m' u' Hs'. destruct p as [i| |]; simpl in Hs'; try discriminate.
    destruct (Z.ltb_spec i (num_data data)); [|injection Hs' as <- <- <-; unfold gweight; lia].
    apply bind_Some in Hs' as (d & _ & Hs'). apply bind_Some in Hs' as (h1 & _ & Hs').
    apply bind_Some in Hs' as (i1 & Ha & Hs'). injection Hs' as <- <- <-. apply advance_Some in Ha as ->.
    unfold gweight. lia.
  - intros s [H1 H2 H3 H4] Hf. split; [done|]. intros b Hb. rewrite (H4 b Hb), <-(shares_sum b Hn). do 3 f_equal.
    apply zsum_imap_ext2; [by rewrite length_seq|]. intros g [u pcs] x Hg' _. simpl.
    destruct (H2 g u pcs Hg') as [Hlen _]. specialize (Hf g u pcs Hg'). rewrite Forall_lookup in Hf.
    unfold share, counted, gcounted. apply zsum_imap_ext2; [by rewrite length_replicate|].
    intros l p q Hp Hq. apply lookup_replicate in Hq as [-> _]. specialize (Hf l p Hp). by destruct p.
  - split; unfold onlyg_start, start; simpl.
    + by rewrite length_imap, length_replicate.
    + intros g u pcs Hg'. rewrite list_lookup_imap in Hg'. apply fmap_Some in Hg' as (u' & Hu & [= -> ->]).
      apply lookup_replicate in Hu as [_ Hgn]. split; [by rewrite length_fmap, length_seq|].
      intros l p Hp. rewrite list_lookup_fmap in Hp. apply fmap_Some in Hp as (l' & Hl' & ->).
      apply lookup_seq in Hl' as [-> Hl']. simpl. pose proof (gid_bound g l Hgn Hl').
      split; [lia|]. apply Z.mod_small. lia.
    + done.
    + intros b Hb. rewrite (zsum_imap_ext _ (λ _ _, 0)), zsum_imap_0, Z.add_0_r.
      * destruct (elem_in h0 b) as [x Hx]; [by rewrite h0_bins|]. rewrite Hx. simpl. f_equal. symmetry.
        apply elem_Some in Hx as [_ Hx]. rewrite Forall_lookup in h0_ints. by apply (h0_ints (Z.to_nat b)).
      * intros g [u pcs] Hg'. rewrite list_lookup_imap in Hg'. apply fmap_Some in Hg' as (u' & Hu & [= -> ->]).
        apply lookup_replicate in Hu as [_ Hgn]. unfold gcounted. simpl.
        rewrite (zsum_imap_ext _ (λ _ _, 0)); [apply zsum_imap_0|]. intros l p Hp. rewrite list_lookup_fmap in Hp.
        apply fmap_Some in Hp as (l' & Hl' & ->). apply lookup_seq in Hl' as [-> Hl']. by apply cnt_start.
Qed.
End hist_cl.

(** C34: however the work-items of [hist.cl] interleave, whatever their local memories hold at
    first, every execution ends, no item is stuck at a barrier or out of bounds, and the
    histogram has grown by the number of occurrences of each bin. The same holds of
    [hist-onlyg-corr.cl]. *)
Theorem hist_kernels_count (data : list Z) (num_bins : Z) (num_groups local_size : nat) (h0 : list Z) locals :
  (0 < local_size)%nat → (0 < num_groups)%nat →
  num_bins + get_local_size local_size <= 2 ^ 31 →
  num_data data + get_global_size num_groups local_size <= 2 ^ 31 →
  Forall (λ d, 0 <= d < num_bins) data →
  Z.of_nat (length h0) = num_bins → Forall (λ x, i32 x = x) h0 →
  length locals = num_groups → Forall (λ lm : list Z, Z.of_nat (length lm) = num_bins) locals →
  always_ends (hist_cl data num_bins num_groups local_size)
    (λ s, counts data num_bins h0 (global s)) (hist_start local_size h0 locals) ∧
  always_ends (onlyg_corr_cl data num_groups local_size)
    (λ s, counts data num_bins h0 (global s)) (onlyg_start num_groups local_size h0).
Proof.
  intros Hl Hg Hb Hd Hin Hh Hi Hn Hlm.
  split; [by apply hist_cl_run; [|lia|..]|by apply onlyg_corr_run; [|lia|..]].
Qed.

Lemma hist_kernels_count_witness :
  always_ends (hist_cl [1; 0; 1; 1; 2] 3 2 2)
    (λ s, counts [1; 0; 1; 1; 2] 3 [5; 0; 2] (global s)) (hist_start 2 [5; 0; 2] [[9; 9; 9]; [8; 8; 8]]) ∧
  always_ends (onlyg_corr_cl [1; 0; 1; 1; 2] 2 2)
    (λ s, counts [1; 0; 1; 1; 2] 3 [5; 0; 2] (global s)) (onlyg_start 2 2 [5; 0; 2]).
Proof.
  apply (hist_kernels_count [1; 0; 1; 1; 2] 3 2 2 [5; 0; 2]); repeat constructor; unfold num_data, get_global_size, get_local_size; simpl; lia.
Defined.

(** ** The kernel without atomic additions loses updates

    Two items read the same bin before one of them writes it. *)
Abbreviation racy := (onlyg_cl [0; 0] 1 2).

Example onlyg_in_order : rtc (step racy) (onlyg_start 1 2 [0]) (Sys [2] [((), [Done; Done])]).
Proof. exact (schedule_steps racy 10 _). Qed.

Example onlyg_lost_update : rtc (step racy) (onlyg_start 1 2 [0]) (Sys [1] [((), [Done; Done])]).
Proof.
  eapply rtc_l; [by eapply (step_item racy _ 0 0)|]. eapply rtc_l; [by eapply (step_item racy _ 0 1)|].
  exact (schedule_steps racy 10 _).
Qed.
