(* ===== verification/OclCfg.v ===== *)
(** * Options of the OpenCL programs: [Config::readCfg] of [src/11-compute/cl_hist.cc] and
    [cl_gemm.cc]

    [std::from_chars] reads an optional minus sign and decimal digits; a number out of the
    range of [int] leaves the variable as it is. *)

From Stdlib Require Import Ascii.
From stdpp Require Import pretty.
From S2P Require Import Prelude.
#[local] Open Scope string_scope.
#[local] Open Scope Z_scope.

(** ** [std::from_chars] for [int] *)
Inductive parsed := InvalidArgument | OutOfRange | Value (z : Z).

Definition digit (c : ascii) : option Z :=
  let n := Z.of_N (N_of_ascii c) in if (48 <=? n) && (n <=? 57) then Some (n - 48) else None.

(** The digits in front of [s], after the number [acc]. *)
Fixpoint digits (acc : Z) (s : string) : Z :=
  match s with
  | String c s => match digit c with Some d => digits (10 * acc + d) s | None => acc end
  | EmptyString => acc
  end.

Definition starts_digit (s : string) : bool :=
  match s with String c _ => match digit c with Some _ => true | None => false end | EmptyString => false end.

Definition in_range (z : Z) : parsed := if (- 2 ^ 31 <=? z) && (z <? 2 ^ 31) then Value z else OutOfRange.

Definition from_chars (s : string) : parsed :=
  match s with
  | String "-" s' => if starts_digit s' then in_range (- digits 0 s') else InvalidArgument
  | _ => if starts_digit s then in_range (digits 0 s) else InvalidArgument
  end.

(** [Argvi.data() + n] *)
Fixpoint skip (n : nat) (s : string) : string :=
  match n, s with S n, String _ s => skip n s | _, _ => s end.

(** One numeric option: the new value of the variable and what is printed. *)
Definition read_option (name : string) (arg : string) (n : nat) (old : Z) : Z * list string :=
  match from_chars (skip n arg) with
  | Value z => (z, [])
  | OutOfRange => (old, [])
  | InvalidArgument => (old, ["Can not parse " +:+ name +:+ " option, using default"])
  end.

(** The end of a line. *)
Definition nl : string := String "010" "".

(** What [readCfg] throws: [option_error(argv[i])]. *)
Definition option_error (arg : string) : exn := runtime_error arg.

(** ** [cl_hist.cc] *)
Module Hist.
Record Config := mkConfig { DataSize : Z; GlobalSize : Z; HistSize : Z; LSZ : Z; PATH : string }.
Definition default : Config := mkConfig 1 1 32 1 "hist.cl".

Definition readArg (c : Config) (arg : string) : result (Config * list string) :=
  if String.prefix "-dsz=" arg then
    let '(v, out) := read_option "-dsz" arg 5 (DataSize c) in Ok (mkConfig v (GlobalSize c) (HistSize c) (LSZ c) (PATH c), out)
  else if String.prefix "-gsz=" arg then
    let '(v, out) := read_option "-gsz" arg 5 (GlobalSize c) in Ok (mkConfig (DataSize c) v (HistSize c) (LSZ c) (PATH c), out)
  else if String.prefix "-hsz=" arg then
    let '(v, out) := read_option "-hsz" arg 5 (HistSize c) in Ok (mkConfig (DataSize c) (GlobalSize c) v (LSZ c) (PATH c), out)
  else if String.prefix "-lsz=" arg then
    let '(v, out) := read_option "-lsz" arg 5 (LSZ c) in Ok (mkConfig (DataSize c) (GlobalSize c) (HistSize c) v (PATH c), out)
  else if String.prefix "-kernel=" arg then
    Ok (mkConfig (DataSize c) (GlobalSize c) (HistSize c) (LSZ c) (skip 8 arg), [])
  else Throw (option_error arg).

Fixpoint readCfg_from (c : Config) (err : list string) (args : list string) : result (Config * list string) :=
  match args with
  | [] => Ok (c, err)
  | arg :: args =>
    match readArg c arg with Ok (c, out) => readCfg_from c (err ++ out) args | Throw e => Throw e end
  end.
Definition readCfg (args : list string) : result (Config * list string) := readCfg_from default [] args.

Definition dump (c : Config) : string :=
  "data size = " +:+ pretty (DataSize c) +:+ nl +:+ "hist size = " +:+ pretty (HistSize c) +:+ nl +:+
  "global size = " +:+ pretty (GlobalSize c) +:+ nl +:+ "local size = " +:+ pretty (LSZ c) +:+ nl +:+
  "kernel path = " +:+ PATH c.
End Hist.

(** ** [cl_gemm.cc] *)
Module Gemm.
Record Config := mkConfig { AX : Z; AY : Z; BY : Z; LSZ : Z; PATH : string }.
Definition default : Config := mkConfig 512 512 512 1 "gemm_simple.cl".

Definition readArg (c : Config) (arg : string) : result (Config * list string) :=
  if String.prefix "-ax=" arg then
    let '(v, out) := read_option "-ax" arg 4 (AX c) in Ok (mkConfig v (AY c) (BY c) (LSZ c) (PATH c), out)
  else if String.prefix "-ay=" arg then
    let '(v, out) := read_option "-ay" arg 4 (AY c) in Ok (mkConfig (AX c) v (BY c) (LSZ c) (PATH c), out)
  else if String.prefix "-by=" arg then
    let '(v, out) := read_option "-by" arg 4 (BY c) in Ok (mkConfig (AX c) (AY c) v (LSZ c) (PATH c), out)
  else if String.prefix "-lsz=" arg then
    let '(v, out) := read_option "-lsz" arg 5 (LSZ c) in Ok (mkConfig (AX c) (AY c) (BY c) v (PATH c), out)
  else if String.prefix "-kernel=" arg then
    Ok (mkConfig (AX c) (AY c) (BY c) (LSZ c) (skip 8 arg), [])
  else Throw (option_error arg).

Fixpoint readCfg_from (c : Config) (err : list string) (args : list string) : result (Config * list string) :=
  match args with
  | [] => Ok (c, err)
  | arg :: args =>
    match readArg c arg with Ok (c, out) => readCfg_from c (err ++ out) args | Throw e => Throw e end
  end.
Definition readCfg (args : list string) : result (Config * list string) := readCfg_from default [] args.

Definition dump (c : Config) : string :=
  "[" +:+ pretty (AX c) +:+ " x " +:+ pretty (AY c) +:+ "] * " +:+
  "[" +:+ pretty (AY c) +:+ " x " +:+ pretty (BY c) +:+ "]" +:+ nl +:+
  "local size = [" +:+ pretty (LSZ c) +:+ " x " +:+ pretty (LSZ c) +:+ "]" +:+ nl +:+
  "kernel path = " +:+ PATH c.
End Gemm.

Example readCfg_gemm :
  Gemm.readCfg ["-ax=64"; "-ay=12x"; "-by=x"; "-lsz=99999999999"; "-kernel=k.cl"]
  = Ok (Gemm.mkConfig 64 12 512 1 "k.cl", ["Can not parse -by option, using default"]).
Proof. reflexivity. Qed.

Example readCfg_hist_unknown : Hist.readCfg ["-dsz=-4"; "--help"] = Throw (option_error "--help").
Proof. reflexivity. Qed.

(** ** What is read

    [pretty] writes a number in decimal, with a minus sign in front of a negative one. *)
Lemma digit_pretty x : (x < 10)%N → digit (pretty_N_char x) = Some (Z.of_N x).
Proof.
  intros Hx. assert (Hc : (x = 0 ∨ x = 1 ∨ x = 2 ∨ x = 3 ∨ x = 4 ∨ x = 5 ∨ x = 6 ∨ x = 7 ∨ x = 8 ∨ x = 9)%N) by lia.
  repeat (destruct Hc as [->|Hc]; [reflexivity|]). by subst x.
Qed.

Lemma digits_pretty x : ∀ s, digits 0 (pretty_N_go x s) = digits (Z.of_N x) s.
Proof.
  induction (N.lt_wf_0 x) as [x _ IH]. intros s.
  destruct (decide (x = 0)%N) as [->|Hne]; [by rewrite pretty_N_go_0|].
  pose proof (N.div_lt x 10 ltac:(lia) ltac:(lia)) as Hlt. pose proof (N.mod_lt x 10 ltac:(lia)) as Hm.
  rewrite pretty_N_go_step by lia. rewrite (IH _ Hlt). cbn [digits]. rewrite digit_pretty by done. f_equal.
  rewrite N2Z.inj_div, N2Z.inj_mod. pose proof (Z.div_mod (Z.of_N x) 10 ltac:(lia)). lia.
Qed.

Lemma starts_pretty x : ∀ s, starts_digit s = true ∨ (0 < x)%N → starts_digit (pretty_N_go x s) = true.
Proof.
  induction (N.lt_wf_0 x) as [x _ IH]. intros s Hs.
  destruct (decide (x = 0)%N) as [->|Hne]; [rewrite pretty_N_go_0; destruct Hs; [done|lia]|].
  pose proof (N.div_lt x 10 ltac:(lia) ltac:(lia)) as Hlt. pose proof (N.mod_lt x 10 ltac:(lia)) as Hm.
  rewrite pretty_N_go_step by lia. apply IH; [done|]. left. simpl. by rewrite digit_pretty.
Qed.

Lemma pretty_N_read (x : N) : starts_digit (pretty x) = true ∧ digits 0 (pretty x) = Z.of_N x.
Proof.
  unfold pretty, pretty_N. destruct (decide (x = 0)%N) as [->|Hne]; [done|].
  split; [apply starts_pretty; right; lia|by rewrite digits_pretty].
Qed.

Lemma from_chars_digit s : starts_digit s = true → from_chars s = in_range (digits 0 s).
Proof.
  intros Hs. unfold from_chars. destruct s as [|c s]; [done|]. unfold starts_digit in Hs.
  destruct c as [[] [] [] [] [] [] [] []]; try discriminate; reflexivity.
Qed.

Lemma from_chars_dash s :
  from_chars ("-" +:+ s) = if starts_digit s then in_range (- digits 0 s) else InvalidArgument.
Proof. reflexivity. Qed.

Lemma in_range_ok z : - 2 ^ 31 <= z < 2 ^ 31 → in_range z = Value z.
Proof. intros [H1 H2]. unfold in_range. by rewrite (proj2 (Z.leb_le _ _) H1), (proj2 (Z.ltb_lt _ _) H2). Qed.

Lemma from_chars_pretty (z : Z) : - 2 ^ 31 <= z < 2 ^ 31 → from_chars (pretty z) = Value z.
Proof.
  intros Hz. destruct z as [|p|p]; [reflexivity| |].
  - change (pretty (Z.pos p)) with (pretty (N.pos p)). destruct (pretty_N_read (N.pos p)) as [Hs Hd].
    by rewrite from_chars_digit, Hd, in_range_ok.
  - change (pretty (Z.neg p)) with ("-" +:+ pretty (N.pos p)). destruct (pretty_N_read (N.pos p)) as [Hs Hd].
    rewrite from_chars_dash, Hs, Hd. by rewrite in_range_ok.
Qed.

Lemma prefix_append p s : String.prefix p (p +:+ s) = true.
Proof.
  induction p as [|c p IH]; [by destruct s|]. change (String.prefix (String c p) (String c (p +:+ s)) = true).
  simpl. destruct (Ascii.ascii_dec c c); [exact IH|done].
Qed.

(** A numeric option written in decimal, with the characters of its name. *)
Lemma read_option_pretty name p n old (z : Z) : - 2 ^ 31 <= z < 2 ^ 31 → (∀ s, skip n (p +:+ s) = s) →
  read_option name (p +:+ pretty z) n old = (z, []).
Proof. intros Hz Hn. unfold read_option. by rewrite Hn, from_chars_pretty. Qed.

(** Reads an argument: the tests of the other names fail on the first letters. *)
Ltac read_arg :=
  lazymatch goal with
  | |- context [String.prefix ?p (?p +:+ _)] => rewrite (prefix_append p)
  | |- context [String.prefix ?p (?q +:+ ?s)] => change (String.prefix p (q +:+ s)) with false
  end; cbv iota.

(** Options written in decimal are read back, by both programs; nothing is printed. *)
Theorem readCfg_pretty (a b c d : Z) (path : string) :
  Forall (λ z, - 2 ^ 31 <= z < 2 ^ 31) [a; b; c; d] →
  Hist.readCfg ["-dsz=" +:+ pretty a; "-gsz=" +:+ pretty b; "-hsz=" +:+ pretty c; "-lsz=" +:+ pretty d; "-kernel=" +:+ path]
    = Ok (Hist.mkConfig a b c d path, []) ∧
  Gemm.readCfg ["-ax=" +:+ pretty a; "-ay=" +:+ pretty b; "-by=" +:+ pretty c; "-lsz=" +:+ pretty d; "-kernel=" +:+ path]
    = Ok (Gemm.mkConfig a b c d path, []).
Proof.
  intros Hall. rewrite !Forall_cons in Hall. destruct Hall as (Ha & Hb & Hc & Hd & _).
  unfold Hist.readCfg, Gemm.readCfg, Hist.readCfg_from, Gemm.readCfg_from.
  split; unfold Hist.readArg, Gemm.readArg; repeat read_arg;
    rewrite !read_option_pretty by done; repeat (cbv beta iota; read_arg); rewrite ?read_option_pretty by done; reflexivity.
Qed.

Lemma readCfg_pretty_witness :
  Hist.readCfg ["-dsz=" +:+ pretty 4; "-gsz=" +:+ pretty 2; "-hsz=" +:+ pretty (-7); "-lsz=" +:+ pretty 16; "-kernel=" +:+ "h.cl"]
    = Ok (Hist.mkConfig 4 2 (-7) 16 "h.cl", []) ∧
  Gemm.readCfg ["-ax=" +:+ pretty 4; "-ay=" +:+ pretty 2; "-by=" +:+ pretty (-7); "-lsz=" +:+ pretty 16; "-kernel=" +:+ "h.cl"]
    = Ok (Gemm.mkConfig 4 2 (-7) 16 "h.cl", []).
Proof. apply (readCfg_pretty 4 2 (-7) 16 "h.cl"). repeat constructor; lia. Defined.
