(* ===== verification/OclHost.v ===== *)
(** * The histogram program: [OclApp::hist] and [main] of [src/11-compute/cl_hist.cc]

    The OpenCL runtime is a parameter: what it does with a kernel is [enqueue]. *)

From S2P Require Import Prelude CInt Ocl OclHist OclCfg.
Import OclCfg.Hist.

Definition DATABLOCK : Z := 256.

(** [cl::vector<T> v(n)]: zeros. *)
Definition zeros (n : Z) : E (list Z) := if n <? 0 then raise length_error else mret (replicate (Z.to_nat n) 0).

(** [rand_init(begin, end, low, up)]: the numbers of [std::uniform_int_distribution], which
    needs [low <= up], stored in elements of type [unsigned char]. *)
Definition rand_init (rnd : nat → Z) (n : nat) (low up : Z) : E (list Z) :=
  require (low <=? up);; mret ((λ i, rnd i `mod` 256) <$> seq 0 n).

(** The first place where the results differ. *)
Fixpoint check_from (i : nat) (Hist HistCPU : list Z) : option nat :=
  match Hist, HistCPU with
  | l :: Hist, r :: HistCPU => if l =? r then check_from (S i) Hist HistCPU else Some i
  | _, _ => None
  end.

Section host.
(** [enqueue global local D DataSize access H local_bytes HistSize] runs the kernel on the
    buffers [D] and [H], created with [access], and gives the contents of [H], or throws
    [cl::Error]. *)
Variable enqueue : Z → Z → list Z → Z → access → list Z → Z → Z → E (list Z).

(** [fresh n] is what a buffer of [n] elements holds when it is created. *)
Variable fresh : nat → list Z.

(** The flag that the program creates [H] with is [CL_MEM_WRITE_ONLY], see [main]. *)
Variable flag : access.

Definition hist (Cfg : Config) (Data : list Z) (HistSize : Z) : E (list Z) :=
  let D := Data in
  let H := fresh (Z.to_nat HistSize) in
  global ← int (GlobalSize Cfg * DATABLOCK);
  enqueue global (LSZ Cfg) D (Z.of_nat (length Data)) flag H (HistSize * 4) HistSize.

(** The results of [main]: 0 (all checks passed), or the first index in error and -1. *)
Definition main_body (Cfg : Config) (rnd : nat → Z) : E (option nat) :=
  n ← int (DataSize Cfg * DATABLOCK);
  Data ← zeros n;
  Hist ← zeros (HistSize Cfg);
  up ← int (HistSize Cfg - 1);
  Data ← rand_init rnd (length Data) 0 up;
  Hist ← hist Cfg Data (HistSize Cfg);
  HistCPU ← zeros (HistSize Cfg);
  HistCPU ← checked (hist_ref Data (HistSize Cfg) HistCPU);
  mret (check_from 0 Hist HistCPU).

(** Every exception is caught: the exit code. *)
Definition main_with (args : list string) (rnd : nat → Z) : option Z :=
  match readCfg args with
  | Throw _ => Some (-1)
  | Ok (Cfg, _) =>
    match main_body Cfg rnd with
    | Some (Ok None) => Some 0
    | Some _ => Some (-1)
    | None => None
    end
  end.
End host.


(** ** The reference counts *)
Lemma occurrences_cons b d data : occurrences b (d :: data) = (if decide (d = b) then 1 else 0) + occurrences b data.
Proof. done. Qed.

Lemma occurrences_bounds b data : 0 <= occurrences b data <= Z.of_nat (length data).
Proof.
  induction data as [|d data IH]; [done|]. rewrite occurrences_cons. cbn [length]. destruct (decide (d = b)); lia.
Qed.

Lemma hist_ref_run (bins : Z) (data : list Z) : ∀ h, Z.of_nat (length h) = bins → Forall (λ d, 0 <= d < bins) data →
  (∀ b x, elem h b = Some x → 0 <= x ∧ x + Z.of_nat (length data) < 2 ^ 31) →
  ∃ h', hist_ref data bins h = Some h' ∧ Z.of_nat (length h') = bins ∧
    ∀ b, 0 <= b < bins → elem h' b = (λ x, x + occurrences b data) <$> elem h b.
Proof.
  induction data as [|d data IH]; intros h Hlen Hd Hx.
  - exists h. split; [done|]. split; [done|]. intros b Hb. destruct (elem_in h b) as [x Hxb]; [lia|]. rewrite Hxb. simpl.
    f_equal. unfold occurrences. simpl. lia.
  - apply Forall_cons in Hd as [Hdb Hd]. cbn [length] in Hx.
    destruct (elem_in h d) as [x Hxd]; [lia|]. destruct (Hx d x Hxd) as [Hx0 Hxm].
    destruct (IH (<[Z.to_nat d := x + 1]> h)) as (h' & Hrun & Hlen' & Helem).
    { by rewrite length_insert. }
    { done. }
    { intros b y. rewrite elem_set by lia. destruct (decide (b = d)) as [->|Hne].
      - intros [= <-]. lia.
      - intros Hy. destruct (Hx b y Hy). lia. }
    exists h'. split; [|split; [done|]].
    + cbn [hist_ref]. unfold hist_ref_step. rewrite (proj2 (Z.ltb_lt _ _)), (proj2 (Z.leb_le _ _)) by lia. simpl.
      rewrite Hxd. simpl. rewrite (proj2 (Z.ltb_lt _ _)) by lia. by rewrite set_elem_run by lia.
    + intros b Hb. rewrite Helem, elem_set, occurrences_cons by lia. destruct (decide (b = d)) as [->|Hne].
      * rewrite decide_True by done. rewrite Hxd. simpl. f_equal. lia.
      * rewrite decide_False by congruence. destruct (elem h b); [|done]. simpl. f_equal.
Qed.

Lemma elem_replicate n b (x : Z) : 0 <= b < Z.of_nat n → elem (replicate n x) b = Some x.
Proof. intros Hb. unfold elem. rewrite (proj2 (Z.leb_le _ _)) by lia. apply lookup_replicate_2. lia. Qed.

Lemma hist_ref_zeros (bins : Z) (data : list Z) : 0 <= bins → Forall (λ d, 0 <= d < bins) data →
  Z.of_nat (length data) < 2 ^ 31 →
  ∃ h, hist_ref data bins (replicate (Z.to_nat bins) 0) = Some h ∧ Z.of_nat (length h) = bins ∧
    ∀ b, 0 <= b < bins → elem h b = Some (occurrences b data).
Proof.
  intros Hbins Hd Hlen. destruct (hist_ref_run bins data (replicate (Z.to_nat bins) 0)) as (h & Hrun & Hl & He).
  - rewrite length_replicate. lia.
  - done.
  - intros b x Hx. apply elem_Some in Hx as [_ Hx]. apply lookup_replicate in Hx as [-> _]. lia.
  - exists h. split; [done|]. split; [done|]. intros b Hb. by rewrite (He b Hb), elem_replicate by lia.
Qed.

(** ** Comparing *)
Lemma i32_same x n : i32 x = x → 0 <= n < 2 ^ 31 → (i32 (x + n) =? n) = (x =? 0).
Proof.
  intros Hx Hn. destruct (Z.eqb_spec x 0) as [->|Hne].
  - apply Z.eqb_eq. unfold i32. rewrite Z.mod_small by lia. lia.
  - apply Z.eqb_neq. intros Heq. unfold i32 in *.
    assert (- 2 ^ 31 <= x < 2 ^ 31) by (pose proof (Z.mod_pos_bound (x + 2 ^ 31) (2 ^ 32) ltac:(lia)); lia).
    destruct (Z.lt_ge_cases (x + n) (2 ^ 31)) as [|Hge].
    + destruct (Z.lt_ge_cases (x + n + 2 ^ 31) 0) as [Hlt|]; [lia|]. rewrite Z.mod_small in Heq by lia. lia.
    + rewrite <-(Z.mod_unique (x + n + 2 ^ 31) (2 ^ 32) 1 (x + n - 2 ^ 31)) in Heq by lia. lia.
Qed.

(** The result of the comparison depends only on where the two lists agree. *)
Lemma check_from_ext (xs ys us vs : list Z) : ∀ i, length xs = length us → length ys = length us → length vs = length us →
  (∀ j x y u v, xs !! j = Some x → ys !! j = Some y → us !! j = Some u → vs !! j = Some v → (x =? y) = (u =? v)) →
  check_from i xs ys = check_from i us vs.
Proof.
  revert xs ys vs. induction us as [|u us IH]; intros [|x xs] [|y ys] [|v vs] i H1 H2 H3 H; try done. simpl.
  rewrite (H 0%nat x y u v) by done. destruct (u =? v); [|done]. apply IH; [simpl in *; lia..|].
  intros j. apply (H (S j)).
Qed.

(** The sizes of a launch: the local size divides the global one. *)
Definition launch_ok (gs ls : Z) : Prop := 0 < ls ∧ 0 < gs ∧ gs `mod` ls = 0.

(** What [cl::KernelFunctor] does, when it succeeds: the buffer is the global memory of an
    execution that has ended, and the local memories have the size asked for. A kernel that
    reads a buffer created with [CL_MEM_WRITE_ONLY] has no defined behaviour. *)
Definition runtime (enqueue : Z → Z → list Z → Z → access → list Z → Z → Z → E (list Z)) : Prop := ∀ gs ls D a H bytes bins H',
  enqueue gs ls D (Z.of_nat (length D)) a H bytes bins = Some (Ok H') →
  launch_ok gs ls ∧ ∃ locals s',
    length locals = Z.to_nat (gs / ls) ∧ Forall (λ lm : list Z, Z.of_nat (length lm) = bytes / 4) locals ∧
    let K := with_access a hist_reads (hist_cl D bins (Z.to_nat (gs / ls)) (Z.to_nat ls)) in
    rtc (step K) (hist_start (Z.to_nat ls) H locals) s' ∧ final K s' ∧ H' = global s'.

(** Sizes that [int] holds; the runtime checks the launch. *)
Definition sizes_ok (c : Config) : Prop :=
  0 < DataSize c ∧ 0 < HistSize c ∧ 0 < GlobalSize c ∧
  DataSize c * 256 + GlobalSize c * 256 <= 2 ^ 31 ∧ HistSize c + LSZ c <= 2 ^ 31 ∧ HistSize c < 2 ^ 31.

(** ** The buffer that may only be written

    The first item of a group comes to add to the histogram, and gets no further. *)
Section write_only.
Variables (data : list Z) (bins : Z) (n ls : nat).
Hypothesis Hbins : 0 < bins.
Abbreviation K := (with_access CL_MEM_WRITE_ONLY hist_reads (hist_cl data bins n ls)).






End write_only.

Section host_runs.
Variable enqueue : Z → Z → list Z → Z → access → list Z → Z → Z → E (list Z).
Variable fresh : nat → list Z.
Hypothesis is_runtime : runtime enqueue.
Hypothesis fresh_ok : ∀ n, length (fresh n) = n ∧ Forall (λ x, i32 x = x) (fresh n).

Definition random_data (c : Config) (rnd : nat → Z) : list Z := (λ i, rnd i `mod` 256) <$> seq 0 (Z.to_nat (DataSize c * 256)).

Lemma random_in_bins c rnd : (∀ i, 0 <= rnd i <= HistSize c - 1) → Forall (λ d, 0 <= d < HistSize c) (random_data c rnd).
Proof.
  intros Hr. apply Forall_fmap, Forall_forall. intros i _. simpl. specialize (Hr i).
  pose proof (Z.mod_pos_bound (rnd i) 256 ltac:(lia)). pose proof (Z.mod_le (rnd i) 256 ltac:(lia) ltac:(lia)). lia.
Qed.

Lemma kernel_counts c rnd H' : sizes_ok c → (∀ i, 0 <= rnd i <= HistSize c - 1) →
  hist enqueue fresh CL_MEM_READ_WRITE c (random_data c rnd) (HistSize c) = Some (Ok H') →
  counts (random_data c rnd) (HistSize c) (fresh (Z.to_nat (HistSize c))) H'.
Proof.
  intros (Hd & Hh & Hg & Hsz & Hl & Hi) Hr Hrun. unfold hist in Hrun.
  rewrite (E_bind_Ok _ _ _ (int_ok (GlobalSize c * DATABLOCK) ltac:(unfold is_int, DATABLOCK; lia))) in Hrun.
  apply is_runtime in Hrun as ((Hls & Hgs & Hmod) & locals & s' & Hlen & Hlm & Hsteps & Hfin & ->).
  unfold DATABLOCK in *. set (gs := GlobalSize c * 256) in *.
  assert (Hdiv : gs = LSZ c * (gs / LSZ c)) by (pose proof (Z.div_mod gs (LSZ c)); lia).
  assert (Hn : 0 < gs / LSZ c) by nia.
  destruct (fresh_ok (Z.to_nat (HistSize c))) as [Hfl Hfi].
  apply (hist_cl_result _ _ (Z.to_nat (gs / LSZ c)) (Z.to_nat (LSZ c)) _ ltac:(lia)) with locals; try done.
  - unfold get_local_size. lia.
  - by apply random_in_bins.
  - rewrite Hfl. lia.
  - lia.
  - eapply Forall_impl; [exact Hlm|]. simpl. intros lm Hlm'. rewrite Hlm'. apply Z.div_mul. lia.
Qed.


Lemma zeros_ok n : 0 <= n → zeros n = Some (Ok (replicate (Z.to_nat n) 0)).
Proof. intros Hn. unfold zeros. by rewrite (proj2 (Z.ltb_ge _ _)) by lia. Qed.

Lemma main_body_start flag c rnd : sizes_ok c →
  main_body enqueue fresh flag c rnd =
    (Hist ← hist enqueue fresh flag c (random_data c rnd) (HistSize c);
     HistCPU ← zeros (HistSize c);
     HistCPU ← checked (hist_ref (random_data c rnd) (HistSize c) HistCPU);
     mret (check_from 0 Hist HistCPU)).
Proof.
  intros (Hd & Hh & Hg & Hsz & Hl & Hi). unfold main_body.
  rewrite (E_bind_Ok _ _ _ (int_ok (DataSize c * DATABLOCK) ltac:(unfold is_int, DATABLOCK; lia))).
  rewrite (E_bind_Ok _ _ _ (zeros_ok (DataSize c * DATABLOCK) ltac:(unfold DATABLOCK; lia))).
  rewrite (E_bind_Ok _ _ _ (zeros_ok (HistSize c) ltac:(lia))).
  rewrite (E_bind_Ok _ _ _ (int_ok (HistSize c - 1) ltac:(unfold is_int; lia))).
  assert (Hrand : rand_init rnd (length (replicate (Z.to_nat (DataSize c * DATABLOCK)) 0)) 0 (HistSize c - 1)
    = Some (Ok (random_data c rnd))).
  { unfold rand_init. rewrite (proj2 (Z.leb_le _ _)) by lia. by rewrite length_replicate. }
  by rewrite (E_bind_Ok _ _ _ Hrand).
Qed.

Lemma main_body_run c rnd : sizes_ok c → (∀ i, 0 <= rnd i <= HistSize c - 1) →
  main_body enqueue fresh CL_MEM_READ_WRITE c rnd =
    (_ ← hist enqueue fresh CL_MEM_READ_WRITE c (random_data c rnd) (HistSize c);
     mret (check_from 0 (fresh (Z.to_nat (HistSize c))) (replicate (Z.to_nat (HistSize c)) 0))).
Proof.
  intros Hok Hr. pose proof Hok as (Hd & Hh & Hg & Hsz & Hl & Hi). rewrite main_body_start by done.
  destruct (hist enqueue fresh CL_MEM_READ_WRITE c (random_data c rnd) (HistSize c)) as [[H'|e]|] eqn:Hrun; [|done..].
  rewrite !(E_bind_Ok (Some (Ok H')) _ _ eq_refl). rewrite (E_bind_Ok _ _ _ (zeros_ok (HistSize c) ltac:(lia))).
  pose proof (random_in_bins c rnd Hr) as Hbins.
  assert (Hdl : Z.of_nat (length (random_data c rnd)) < 2 ^ 31).
  { unfold random_data. rewrite length_fmap, length_seq. lia. }
  destruct (hist_ref_zeros (HistSize c) (random_data c rnd) ltac:(lia) Hbins Hdl) as (h & Href & Hhl & Hhe).
  rewrite Href, (E_bind_checked _ _ h eq_refl).
  destruct (kernel_counts c rnd H' Hok Hr Hrun) as [HHl HHe].
  destruct (fresh_ok (Z.to_nat (HistSize c))) as [Hfl Hfi]. unfold mret. apply (f_equal (λ r, Some (Ok r))).
  apply check_from_ext; [lia|lia|rewrite length_replicate; lia|].
  intros j x y u v Hx Hy Hu Hv. apply lookup_replicate in Hv as [-> _].
  apply lookup_lt_Some in Hu as Hj. assert (Hjb : 0 <= Z.of_nat j < HistSize c) by lia.
  specialize (HHe _ Hjb). specialize (Hhe _ Hjb). unfold elem in HHe, Hhe.
  rewrite (proj2 (Z.leb_le _ _)), Nat2Z.id in HHe, Hhe by lia. rewrite Hu in HHe. simpl in HHe.
  rewrite Hx in HHe. injection HHe as ->. rewrite Hy in Hhe. injection Hhe as ->.
  apply i32_same; [by apply (Forall_lookup_1 _ _ _ _ Hfi Hu)|].
  pose proof (occurrences_bounds (Z.of_nat j) (random_data c rnd)). lia.
Qed.
End host_runs.

(** ** The programs *)
Lemma check_from_zeros (xs : list Z) n : ∀ i, length xs = n →
  check_from i xs (replicate n 0) = None ↔ Forall (λ x, x = 0) xs.
Proof.
  revert n. induction xs as [|x xs IH]; intros [|n] i Hn; try done. simpl. rewrite Forall_cons.
  destruct (Z.eqb_spec x 0) as [->|Hne].
  - rewrite IH by (simpl in Hn; lia). naive_solver.
  - naive_solver.
Qed.

(** If the buffer could be read, the program would pass exactly when the buffer, which it
    never initialises, happened to be created zeroed. *)
Lemma main_passes_iff_zeroed enqueue fresh args rnd c rest H' :
  runtime enqueue →
  (∀ n, length (fresh n) = n ∧ Forall (λ x, i32 x = x) (fresh n)) →
  readCfg args = Ok (c, rest) → sizes_ok c →
  (∀ i, 0 <= rnd i <= HistSize c - 1) →
  hist enqueue fresh CL_MEM_READ_WRITE c (random_data c rnd) (HistSize c) = Some (Ok H') →
  main_with enqueue fresh CL_MEM_READ_WRITE args rnd =
    Some (if decide (Forall (λ x, x = 0) (fresh (Z.to_nat (HistSize c)))) then 0 else -1).
Proof.
  intros Hrt Hfresh Hcfg Hok Hr Hrun. unfold main_with. rewrite Hcfg, (main_body_run _ _ Hrt Hfresh c rnd Hok Hr), Hrun.
  rewrite (E_bind_Ok (Some (Ok H')) _ _ eq_refl). unfold mret.
  destruct (Hfresh (Z.to_nat (HistSize c))) as [Hlen _].
  pose proof (check_from_zeros (fresh (Z.to_nat (HistSize c))) (Z.to_nat (HistSize c)) 0 Hlen) as Hz.
  destruct (decide _) as [Hf|Hf]; [by rewrite (proj2 Hz Hf)|]. destruct (check_from _ _ _); [done|]. tauto.
Qed.

(** A runtime that lets the first item that can step go on. *)
Definition in_order (gs ls : Z) (D : list Z) (n : Z) (a : access) (H : list Z) (bytes bins : Z) : E (list Z) :=
  if decide (launch_ok gs ls ∧ 0 <= bytes) then
    let K := with_access a hist_reads (hist_cl D bins (Z.to_nat (gs / ls)) (Z.to_nat ls)) in
    let s := exec K (Z.to_nat (16 * gs)) (hist_start (Z.to_nat ls) H
      (replicate (Z.to_nat (gs / ls)) (replicate (Z.to_nat (bytes / 4)) 7))) in
    if is_final K s then mret (global s) else None
  else raise (cl_error "clEnqueueNDRangeKernel").


(** 256 data in two bins; the groups have 64 items. *)
Definition zeroed (n : nat) : list Z := replicate n 0.
Definition alternate (i : nat) : Z := Z.of_nat (i `mod` 2).

Example readable_would_pass : main_with in_order zeroed CL_MEM_READ_WRITE ["-hsz=2"; "-lsz=64"] alternate = Some 0.
Proof. vm_compute. reflexivity. Qed.


