(* ===== verification/OclGemm.v ===== *)
(** * Matrix multiplication: the kernels of [src/11-compute/cl_gemm.cc]

    [gemm_simple.cl] has an item per element of the product; the items of a group of
    [gemm_localmem.cl] load tiles of the factors into local memory, with a barrier after each
    load and after each use. [TYPE] is a macro: a type with its zero, [+] and [*], of which
    no law is used. *)

From S2P Require Import Prelude Ocl.

(** An element of a buffer, and an [int] expression [r * n + c]. *)
Definition get {T} (m : list T) (i : Z) : option T := if 0 <=? i then m !! Z.to_nat i else None.
Definition put {T} (m : list T) (i : Z) (v : T) : option (list T) := _ ← get m i; Some (<[Z.to_nat i := v]> m).
Definition offset (r n c : Z) : option Z :=
  if (- 2 ^ 31 <=? r * n) && (r * n <? 2 ^ 31) && (- 2 ^ 31 <=? r * n + c) && (r * n + c <? 2 ^ 31) then Some (r * n + c) else None.

(** An element of [TYPE m[TS][TS]]. *)
Definition cell (TS x y : Z) : option Z :=
  if (0 <=? x) && (x <? TS) && (0 <=? y) && (y <? TS) then Some (x * TS + y) else None.

Section kernels.
Context {T P : Type} (zero : T) (add : T → P → T) (mul : T → T → P).
Variables (AX AY BY : Z) (A B : list T) (TS : Z).
(** The groups of the second dimension. *)
Variable num_groups1 : Z.

Definition get_local_id0 (l : nat) : Z := Z.of_nat l / TS.
Definition get_local_id1 (l : nat) : Z := Z.of_nat l `mod` TS.
Definition get_group_id0 (g : nat) : Z := Z.of_nat g / num_groups1.
Definition get_group_id1 (g : nat) : Z := Z.of_nat g `mod` num_groups1.
Definition globalRow (g l : nat) : Z := TS * get_group_id0 g + get_local_id0 l.
Definition globalCol (g l : nat) : Z := TS * get_group_id1 g + get_local_id1 l.

(** ** [gemm_simple.cl] *)
Inductive spc := Sum (k : Z) (sum : T) | Stored.

Definition simple_step (g l : nat) (p : spc) (C : list T) (u : ()) : option (spc * list T * ()) :=
  match p with
  | Sum k sum =>
    if k <? AY then
      i ← offset (globalRow g l) AY k; x ← get A i;
      j ← offset k BY (globalCol g l); y ← get B j;
      Some (Sum (k + 1) (add sum (mul x y)), C, u)
    else
      i ← offset (globalRow g l) BY (globalCol g l);
      C ← put C i sum;
      Some (Stored, C, u)
  | Stored => None
  end.
Definition stored (p : spc) : bool := match p with Stored => true | _ => false end.
Definition gemm_simple : kernel spc (list T) () := Kernel simple_step (λ _, None) (λ _ _ _, None) stored.

(** ** [gemm_localmem.cl] *)
Inductive lpc :=
  | Head (t : Z) (acc : T) | LoadB (t : Z) (acc : T) | Loaded (t : Z) (acc : T)
  | Mul (t k : Z) (acc : T) | MulB (t k : Z) (acc x : T) | Used (t : Z) (acc : T) | Finished.

Definition numTiles : Z := Z.quot AY TS.

Definition localmem_step (g l : nat) (p : lpc) (C : list T) (sub : list T * list T) :
    option (lpc * list T * (list T * list T)) :=
  let row := get_local_id0 l in
  let col := get_local_id1 l in
  let '(Asub, Bsub) := sub in
  match p with
  | Head t acc =>
    if t <? numTiles then
      tiledCol ← offset TS t col;
      i ← offset (globalRow g l) AY tiledCol; x ← get A i;
      j ← cell TS col row; Asub ← put Asub j x;
      Some (LoadB t acc, C, (Asub, Bsub))
    else
      i ← offset (globalRow g l) BY (globalCol g l);
      C ← put C i acc;
      Some (Finished, C, sub)
  | LoadB t acc =>
    tiledRow ← offset TS t row;
    i ← offset tiledRow BY (globalCol g l); y ← get B i;
    j ← cell TS col row; Bsub ← put Bsub j y;
    Some (Loaded t acc, C, (Asub, Bsub))
  | Mul t k acc =>
    if k <? TS then (i ← cell TS k row; x ← get Asub i; Some (MulB t k acc x, C, sub))
    else Some (Used t acc, C, sub)
  | MulB t k acc x =>
    i ← cell TS col k; y ← get Bsub i;
    Some (Mul t (k + 1) (add acc (mul x y)), C, sub)
  | Loaded _ _ | Used _ _ | Finished => None
  end.

Definition localmem_waits (p : lpc) : option Z :=
  match p with Loaded t _ => Some (2 * t) | Used t _ => Some (2 * t + 1) | _ => None end.
Definition localmem_barrier (g l : nat) (p : lpc) : option lpc :=
  match p with Loaded t acc => Some (Mul t 0 acc) | Used t acc => Some (Head (t + 1) acc) | _ => None end.
Definition is_finished (p : lpc) : bool := match p with Finished => true | _ => false end.
Definition gemm_localmem : kernel lpc (list T) (list T * list T) :=
  Kernel localmem_step localmem_waits localmem_barrier is_finished.

(** How the kernels are started: [num_groups] groups of [TS * TS] items. *)
Definition items : nat := Z.to_nat (TS * TS).
Definition simple_start (num_groups : nat) (C : list T) : sys spc (list T) () :=
  start C (replicate num_groups ()) items (λ _ _, Sum 0 zero).
Definition localmem_start (C : list T) (locals : list (list T * list T)) : sys lpc (list T) (list T * list T) :=
  start C locals items (λ _ _, Head 0 zero).
End kernels.

Example simple_2 : exec (gemm_simple Z.add Z.mul 2 2 [1; 2; 3; 4] [5; 6; 7; 8] 1 2) 20 (simple_start 0 1 4 [0; 0; 0; 0])
  = Sys [19; 22; 43; 50] (replicate 4 ((), [Stored])).
Proof. vm_compute. reflexivity. Qed.
Example localmem_2 : global (exec (gemm_localmem Z.add Z.mul 2 2 [1; 2; 3; 4] [5; 6; 7; 8] 2 1) 90
  (localmem_start 0 2 [0; 0; 0; 0] [([9; 9; 9; 9], [9; 9; 9; 9])]))
  = [19; 22; 43; 50].
Proof. vm_compute. reflexivity. Qed.
(** Three columns in tiles of two: the last products are left out. *)
Example localmem_3 : global (exec (gemm_localmem Z.add Z.mul 3 2 [1; 2; 1; 3; 4; 1] [5; 6; 7; 8; 100; 100] 2 1) 90
  (localmem_start 0 2 [0; 0; 0; 0] [([9; 9; 9; 9], [9; 9; 9; 9])]))
  = [19; 22; 43; 50].
Proof. vm_compute. reflexivity. Qed.

(** ** Facts *)
Lemma get_Some {T} (m : list T) i v : get m i = Some v ↔ 0 <= i ∧ m !! Z.to_nat i = Some v.
Proof. unfold get. destruct (Z.leb_spec 0 i); naive_solver lia. Qed.

Lemma get_run {T} (m : list T) i : 0 <= i < Z.of_nat (length m) → ∃ v, get m i = Some v.
Proof.
  intros Hi. unfold get. rewrite (proj2 (Z.leb_le _ _)) by lia. apply lookup_lt_is_Some_2. lia.
Qed.

Lemma put_Some {T} (m : list T) i v m' : put m i v = Some m' →
  0 <= i < Z.of_nat (length m) ∧ length m' = length m ∧ ∀ j, get m' j = if decide (j = i) then Some v else get m j.
Proof.
  intros Hp. apply bind_Some in Hp as (u & Hu & [= <-]). apply get_Some in Hu as [H0 Hu].
  apply lookup_lt_Some in Hu as Hlt. split; [lia|]. split; [by rewrite length_insert|]. intros j. unfold get.
  destruct (decide (j = i)) as [->|Hne].
  - rewrite (proj2 (Z.leb_le _ _)) by lia. by apply list_lookup_insert_eq.
  - destruct (Z.leb_spec 0 j); [|done]. apply list_lookup_insert_ne. lia.
Qed.

Lemma put_run {T} (m : list T) i v : 0 <= i < Z.of_nat (length m) → ∃ m', put m i v = Some m'.
Proof. intros Hi. unfold put. destruct (get_run m i Hi) as [u ->]. by eexists. Qed.

Lemma offset_Some r n c i : offset r n c = Some i → i = r * n + c.
Proof. unfold offset. destruct (_ && _); congruence. Qed.

Lemma offset_run h r n c : 0 <= r < h → 0 <= c < n → h * n < 2 ^ 31 → offset r n c = Some (r * n + c) ∧ 0 <= r * n + c < h * n.
Proof.
  intros Hr Hc Hs. assert (Hb : 0 <= r * n ∧ r * n + c < h * n) by nia. split; [|lia]. unfold offset.
  rewrite (proj2 (Z.leb_le _ (r * n))), (proj2 (Z.ltb_lt (r * n) _)), (proj2 (Z.leb_le _ (r * n + c))), (proj2 (Z.ltb_lt (r * n + c) _)) by lia.
  done.
Qed.

Lemma cell_Some TS x y i : cell TS x y = Some i → i = x * TS + y ∧ 0 <= x < TS ∧ 0 <= y < TS.
Proof.
  unfold cell. destruct (Z.leb_spec 0 x), (Z.ltb_spec x TS), (Z.leb_spec 0 y), (Z.ltb_spec y TS); simpl; try discriminate.
  intros [= <-]. lia.
Qed.

Lemma cell_run TS x y : 0 <= x < TS → 0 <= y < TS → cell TS x y = Some (x * TS + y) ∧ 0 <= x * TS + y < TS * TS.
Proof.
  intros Hx Hy. split; [|nia]. unfold cell.
  by rewrite (proj2 (Z.leb_le _ x)), (proj2 (Z.ltb_lt x _)), (proj2 (Z.leb_le _ y)), (proj2 (Z.ltb_lt y _)) by lia.
Qed.

(** Two positions in lines of [w] elements. *)
Lemma position_inj w x y x' y' : 0 <= y < w → 0 <= y' < w → x * w + y = x' * w + y' → x = x' ∧ y = y'.
Proof. intros. assert (x = x') by nia. subst. lia. Qed.

Lemma position_div w x y : 0 <= y < w → (x * w + y) / w = x ∧ (x * w + y) `mod` w = y.
Proof. intros Hy. split; [symmetry; apply Z.div_unique with y; lia|symmetry; apply Z.mod_unique with x; lia]. Qed.

(** A lookup in a list that has been updated at an index. *)
Lemma lookup_update {A} (l : list A) i j x y : <[i := x]> l !! j = Some y → (j = i ∧ y = x) ∨ (j ≠ i ∧ l !! j = Some y).
Proof.
  intros H. destruct (decide (j = i)) as [->|Hne].
  - assert (Hlt : (i < length l)%nat) by (apply lookup_lt_Some in H; by rewrite length_insert in H).
    rewrite list_lookup_insert_eq in H by done. injection H as <-. by left.
  - rewrite list_lookup_insert_ne in H by done. by right.
Qed.

(** ** The product *)
Section proofs.
Context {T P : Type} (zero : T) (add : T → P → T) (mul : T → T → P).
Variables (AX AY BY : Z) (A B : list T) (TS : Z) (n0 n1 : Z).
Variables fa fb : Z → Z → T.
Hypothesis TS_pos : 0 < TS.
Hypothesis sizes : 0 <= AY ∧ AX * AY < 2 ^ 31 ∧ AY * BY < 2 ^ 31 ∧ AX * BY < 2 ^ 31.
(** The ranges of the launch are those of the product. *)
Hypothesis launch : 0 < n0 ∧ 0 < n1 ∧ AX = n0 * TS ∧ BY = n1 * TS.
Hypothesis A_is : ∀ i k, 0 <= i < AX → 0 <= k < AY → get A (i * AY + k) = Some (fa i k).
Hypothesis B_is : ∀ k j, 0 <= k < AY → 0 <= j < BY → get B (k * BY + j) = Some (fb k j).

(** The first [n] terms of an element, added from the left. *)
Fixpoint psum (n : nat) (i j : Z) : T :=
  match n with
  | O => zero
  | S n => add (psum n i j) (mul (fa i (Z.of_nat n)) (fb (Z.of_nat n) j))
  end.

(** [C] is the product of the first [n] columns and lines. *)
Definition product (n : Z) (C : list T) : Prop :=
  Z.of_nat (length C) = AX * BY ∧
  ∀ i j, 0 <= i < AX → 0 <= j < BY → get C (i * BY + j) = Some (psum (Z.to_nat n) i j).

Lemma psum_next k i j : 0 <= k → add (psum (Z.to_nat k) i j) (mul (fa i k) (fb k j)) = psum (Z.to_nat (k + 1)) i j.
Proof. intros Hk. rewrite Z2Nat.inj_add by lia. rewrite Nat.add_1_r. cbn [psum]. by rewrite Z2Nat.id by lia. Qed.

Abbreviation row := (get_local_id0 TS).
Abbreviation col := (get_local_id1 TS).
Abbreviation R := (globalRow TS n1).
Abbreviation Co := (globalCol TS n1).
Abbreviation num_items := (items TS).
Definition num_groups : nat := Z.to_nat (n0 * n1).

Lemma local_ids l : (l < num_items)%nat → 0 <= row l < TS ∧ 0 <= col l < TS ∧ Z.of_nat l = row l * TS + col l.
Proof.
  unfold items, get_local_id0, get_local_id1. intros Hl.
  pose proof (Z.mod_pos_bound (Z.of_nat l) TS TS_pos). pose proof (Z.div_mod (Z.of_nat l) TS ltac:(lia)). nia.
Qed.

Lemma local_of x y : 0 <= x < TS → 0 <= y < TS → ∃ l, (l < num_items)%nat ∧ row l = x ∧ col l = y.
Proof.
  intros Hx Hy. exists (Z.to_nat (x * TS + y)). unfold items, get_local_id0, get_local_id1.
  split; [apply Z2Nat.inj_lt; nia|]. rewrite Z2Nat.id by nia.
  by apply position_div.
Qed.

Lemma group_ids g : (g < num_groups)%nat →
  0 <= get_group_id0 n1 g < n0 ∧ 0 <= get_group_id1 n1 g < n1 ∧ Z.of_nat g = get_group_id0 n1 g * n1 + get_group_id1 n1 g.
Proof.
  unfold num_groups, get_group_id0, get_group_id1. intros Hg. destruct launch as (H0 & H1 & _).
  pose proof (Z.mod_pos_bound (Z.of_nat g) n1 H1). pose proof (Z.div_mod (Z.of_nat g) n1 ltac:(lia)). nia.
Qed.

Lemma group_of x y : 0 <= x < n0 → 0 <= y < n1 → ∃ g, (g < num_groups)%nat ∧ get_group_id0 n1 g = x ∧ get_group_id1 n1 g = y.
Proof.
  intros Hx Hy. exists (Z.to_nat (x * n1 + y)). unfold num_groups, get_group_id0, get_group_id1.
  split; [apply Z2Nat.inj_lt; nia|]. rewrite Z2Nat.id by nia.
  by apply position_div.
Qed.

Lemma global_ids g l : (g < num_groups)%nat → (l < num_items)%nat → 0 <= R g l < AX ∧ 0 <= Co g l < BY.
Proof.
  intros Hg Hl. destruct (group_ids g Hg) as (H0 & H1 & _), (local_ids l Hl) as (H2 & H3 & _), launch as (_ & _ & -> & ->).
  unfold globalRow, globalCol. nia.
Qed.

(** Every element is of exactly one item. *)
Lemma owner i j : 0 <= i < AX → 0 <= j < BY → ∃ g l, (g < num_groups)%nat ∧ (l < num_items)%nat ∧ R g l = i ∧ Co g l = j.
Proof.
  intros Hi Hj. destruct launch as (_ & _ & HX & HY).
  pose proof (Z.mod_pos_bound i TS TS_pos). pose proof (Z.div_mod i TS ltac:(lia)).
  pose proof (Z.mod_pos_bound j TS TS_pos). pose proof (Z.div_mod j TS ltac:(lia)).
  destruct (group_of (i / TS) (j / TS)) as (g & Hg & Hg0 & Hg1); [nia|nia|].
  destruct (local_of (i `mod` TS) (j `mod` TS)) as (l & Hl & Hl0 & Hl1); [done|done|].
  exists g, l. unfold globalRow, globalCol. rewrite Hg0, Hg1, Hl0, Hl1. repeat split; [done|done|lia|lia].
Qed.

Lemma owner_unique g l g' l' : (g < num_groups)%nat → (l < num_items)%nat → (g' < num_groups)%nat → (l' < num_items)%nat →
  R g l = R g' l' → Co g l = Co g' l' → g = g' ∧ l = l'.
Proof.
  intros Hg Hl Hg' Hl' HR HC.
  destruct (group_ids g Hg) as (? & ? & Hge), (local_ids l Hl) as (? & ? & Hle).
  destruct (group_ids g' Hg') as (? & ? & Hge'), (local_ids l' Hl') as (? & ? & Hle'). unfold globalRow, globalCol in *.
  destruct (position_inj TS (get_group_id0 n1 g) (row l) (get_group_id0 n1 g') (row l')) as [Ha Hb]; [lia..|].
  destruct (position_inj TS (get_group_id1 n1 g) (col l) (get_group_id1 n1 g') (col l')) as [Hc Hd]; [lia..|].
  split; apply Nat2Z.inj; congruence.
Qed.

(** *** The elements that are stored *)
Section stores.
Context {PC L : Type} (K : kernel PC (list T) L).

Definition shaped (s : sys PC (list T) L) : Prop :=
  length (groups s) = num_groups ∧ ∀ g lm pcs, groups s !! g = Some (lm, pcs) → length pcs = num_items.

Lemma shaped_bound s g lm pcs l p : shaped s → groups s !! g = Some (lm, pcs) → pcs !! l = Some p →
  (g < num_groups)%nat ∧ (l < num_items)%nat.
Proof.
  intros [Hn Hi] Hg Hl. rewrite <-Hn, <-(Hi g lm pcs Hg). by apply lookup_lt_Some in Hg, Hl.
Qed.

Lemma shaped_group s g lm pcs C lm' pcs' : shaped s → groups s !! g = Some (lm, pcs) → length pcs' = length pcs →
  shaped (Sys C (<[g := (lm', pcs')]> (groups s))).
Proof.
  intros [Hn Hi] Hg Hlen. split; simpl; [by rewrite length_insert|].
  intros g' lm2 pcs2 Hg'. apply lookup_update in Hg' as [[-> [= -> ->]]|[_ Hg']].
  - rewrite Hlen. exact (Hi g lm pcs Hg).
  - exact (Hi g' lm2 pcs2 Hg').
Qed.

(** What the finished items have stored. *)
Definition written (n : Z) (s : sys PC (list T) L) : Prop :=
  Z.of_nat (length (global s)) = AX * BY ∧
  ∀ g lm pcs l p, groups s !! g = Some (lm, pcs) → pcs !! l = Some p → finished K p = true →
    get (global s) (R g l * BY + Co g l) = Some (psum (Z.to_nat n) (R g l) (Co g l)).

(** A step of an item that does not finish it. *)
Lemma written_work n s g lm pcs lm' pcs' : written n s → groups s !! g = Some (lm, pcs) →
  (∀ l p, pcs' !! l = Some p → finished K p = true → pcs !! l = Some p) →
  written n (Sys (global s) (<[g := (lm', pcs')]> (groups s))).
Proof.
  intros [Hlen Hw] Hg Hp. split; [done|]. simpl. intros g' lm2 pcs2 l2 p2 Hg' Hl' Hf.
  apply lookup_update in Hg' as [[-> [= -> ->]]|[_ Hg']]; [|by apply (Hw g' lm2 pcs2 l2 p2)].
  by apply (Hw g lm pcs l2 p2); [|apply Hp|].
Qed.

(** A step that stores an element and finishes the item. *)
Lemma written_store n s g lm pcs l p C' lm' p' : shaped s → written n s →
  groups s !! g = Some (lm, pcs) → pcs !! l = Some p →
  put (global s) (R g l * BY + Co g l) (psum (Z.to_nat n) (R g l) (Co g l)) = Some C' →
  written n (Sys C' (<[g := (lm', <[l := p']> pcs)]> (groups s))).
Proof.
  intros Hs [Hlen Hw] Hg Hl Hput. apply put_Some in Hput as (_ & Hlen' & Hget).
  destruct (shaped_bound s g lm pcs l p Hs Hg Hl) as [Hgn Hln].
  split; [simpl; by rewrite Hlen'|]. simpl. intros g2 lm2 pcs2 l2 p2 Hg2 Hl2 Hf. rewrite Hget.
  destruct (decide (g2 = g ∧ l2 = l)) as [[-> ->]|Hne]; [by rewrite decide_True|].
  assert (Hold : ∃ lm3 pcs3, groups s !! g2 = Some (lm3, pcs3) ∧ pcs3 !! l2 = Some p2).
  { apply lookup_update in Hg2 as [[-> [= -> ->]]|[_ Hg2]]; [|by eauto].
    apply lookup_update in Hl2 as [[-> _]|[_ Hl2]]; [tauto|by eauto]. }
  destruct Hold as (lm3 & pcs3 & Hg3 & Hl3). destruct (shaped_bound s g2 lm3 pcs3 l2 p2 Hs Hg3 Hl3) as [Hgn2 Hln2].
  rewrite decide_False; [by apply (Hw g2 lm3 pcs3 l2 p2)|]. intros Heq. apply Hne.
  destruct (global_ids g l Hgn Hln), (global_ids g2 l2 Hgn2 Hln2).
  destruct (position_inj BY (R g2 l2) (Co g2 l2) (R g l) (Co g l)); [done|done|done|].
  by apply owner_unique.
Qed.

Lemma written_final n s : shaped s → written n s → final K s → product n (global s).
Proof.
  intros [Hn Hi] [Hlen Hw] Hf. split; [done|]. intros i j Hi' Hj.
  destruct (owner i j Hi' Hj) as (g & l & Hg & Hl & <- & <-).
  destruct (lookup_lt_is_Some_2 (groups s) g) as [[lm pcs] Hgs]; [lia|].
  destruct (lookup_lt_is_Some_2 pcs l) as [p Hp]; [by rewrite (Hi g lm pcs Hgs)|].
  apply (Hw g lm pcs l p Hgs Hp). specialize (Hf g lm pcs Hgs). rewrite Forall_lookup in Hf. by apply (Hf l).
Qed.

Lemma shaped_start C (ls : list L) (pc : nat → nat → PC) : length ls = num_groups → shaped (start C ls num_items pc : sys PC (list T) L).
Proof.
  intros Hn. split; unfold start; simpl; [by rewrite length_imap|]. intros g lm pcs Hg.
  rewrite list_lookup_imap in Hg. apply fmap_Some in Hg as (lm' & _ & [= -> ->]). by rewrite length_fmap, length_seq.
Qed.

Lemma start_item C (ls : list L) (pc : nat → nat → PC) g lm pcs l p :
  groups (start C ls num_items pc : sys PC (list T) L) !! g = Some (lm, pcs) → pcs !! l = Some p → p = pc g l ∧ ls !! g = Some lm.
Proof.
  unfold start. simpl. intros Hg Hl. rewrite list_lookup_imap in Hg. apply fmap_Some in Hg as (lm' & Hlm & [= -> ->]).
  rewrite list_lookup_fmap in Hl. apply fmap_Some in Hl as (l' & Hl' & ->). by apply lookup_seq in Hl' as [-> _].
Qed.

Lemma written_start n C (ls : list L) (pc : nat → nat → PC) : Z.of_nat (length C) = AX * BY →
  (∀ g l, finished K (pc g l) = false) → written n (start C ls num_items pc).
Proof.
  intros HC Hpc. split; [done|]. intros g lm pcs l p Hg Hl Hf.
  destruct (start_item C ls pc g lm pcs l p Hg Hl) as [-> _]. by rewrite Hpc in Hf.
Qed.

(** A state that is not final has an item to run. *)
Lemma not_final (s : sys PC (list T) L) : final K s ∨ ∃ g lm pcs l p, groups s !! g = Some (lm, pcs) ∧ pcs !! l = Some p ∧ finished K p = false.
Proof.
  destruct (decide (Forall (λ gr, Forall (λ p, finished K p = true) gr.2) (groups s))) as [Hf|Hf].
  { left. intros g lm pcs Hg. rewrite Forall_lookup in Hf. exact (Hf g _ Hg). }
  right.
  apply not_Forall_Exists in Hf; [|intros x; apply _]. apply Exists_exists in Hf as ([lm pcs] & Hin & Hf).
  apply list_elem_of_lookup in Hin as [g Hg]. simpl in Hf.
  apply not_Forall_Exists in Hf; [|intros x; apply _]. apply Exists_exists in Hf as (p & Hin & Hp).
  apply list_elem_of_lookup in Hin as [l Hl]. exists g, lm, pcs, l, p. split; [done|]. split; [done|].
  by apply not_true_is_false.
Qed.
End stores.

(** *** [gemm_simple.cl] *)
Abbreviation KS := (gemm_simple add mul AY BY A B TS n1).

Record sinv (s : sys spc (list T) ()) : Prop := {
  si_shape : shaped s;
  si_written : written KS AY s;
  si_item : ∀ g u pcs l k sum, groups s !! g = Some (u, pcs) → pcs !! l = Some (Sum k sum) →
    0 <= k <= AY ∧ sum = psum (Z.to_nat k) (R g l) (Co g l) }.

(** The factors of a term of an item. *)
Lemma factors g l k : (g < num_groups)%nat → (l < num_items)%nat → 0 <= k < AY →
  (offset (R g l) AY k = Some (R g l * AY + k) ∧ get A (R g l * AY + k) = Some (fa (R g l) k)) ∧
  (offset k BY (Co g l) = Some (k * BY + Co g l) ∧ get B (k * BY + Co g l) = Some (fb k (Co g l))).
Proof.
  intros Hg Hl Hk. destruct (global_ids g l Hg Hl) as [HR HC]. destruct sizes as (_ & H1 & H2 & _).
  destruct (offset_run AX (R g l) AY k HR Hk H1) as [-> _], (offset_run AY k BY (Co g l) Hk HC H2) as [-> _].
  split; (split; [done|]); auto.
Qed.

Lemma store_runs g l (C : list T) v : (g < num_groups)%nat → (l < num_items)%nat → Z.of_nat (length C) = AX * BY →
  offset (R g l) BY (Co g l) = Some (R g l * BY + Co g l) ∧ ∃ C', put C (R g l * BY + Co g l) v = Some C'.
Proof.
  intros Hg Hl HC. destruct (global_ids g l Hg Hl) as [HR HCo]. destruct sizes as (_ & _ & _ & H3).
  destruct (offset_run AX (R g l) BY (Co g l) HR HCo H3) as [-> Hb]. split; [done|]. apply put_run. lia.
Qed.

Lemma sinv_step s s' : sinv s → step KS s s' → sinv s'.
Proof.
  intros [H1 H2 H3]. destruct 1 as [g l lm pcs p p' C' lm' Hg Hl Hs|g lm pcs pcs' b Hg Hne Hb _].
  2: { destruct pcs; [done|]. by apply Forall_cons in Hb as [Hb _]. }
  destruct (shaped_bound s g lm pcs l p H1 Hg Hl) as [Hgn Hln].
  destruct p as [k sum|]; [|done]. destruct (H3 g lm pcs l k sum Hg Hl) as [Hk Hsum]. simpl in Hs.
  assert (Hshape : shaped (Sys C' (<[g := (lm', <[l := p']> pcs)]> (groups s)))).
  { apply shaped_group with lm pcs; [done|done|]. by rewrite length_insert. }
  assert (Hold : ∀ g2 u2 pcs2 l2 k2 sum2, <[g := (lm', <[l := p']> pcs)]> (groups s) !! g2 = Some (u2, pcs2) →
    pcs2 !! l2 = Some (Sum k2 sum2) → (g2 = g ∧ l2 = l ∧ p' = Sum k2 sum2) ∨
    0 <= k2 <= AY ∧ sum2 = psum (Z.to_nat k2) (R g2 l2) (Co g2 l2)).
  { intros g2 u2 pcs2 l2 k2 sum2 Hg2 Hl2. apply lookup_update in Hg2 as [[-> [= -> ->]]|[_ Hg2]]; [|right; eauto].
    apply lookup_update in Hl2 as [[-> ->]|[_ Hl2]]; [by left|right; eauto]. }
  destruct (Z.ltb_spec k AY).
  - destruct (factors g l k Hgn Hln ltac:(lia)) as [[Ho Ha] [Ho' Hb]].
    rewrite Ho in Hs. simpl in Hs. rewrite Ha in Hs. simpl in Hs. rewrite Ho' in Hs. simpl in Hs.
    rewrite Hb in Hs. simpl in Hs. injection Hs as <- <- <-. split; [done| |].
    + apply (written_work KS AY s g lm pcs); [done|done|]. intros l2 p2 Hl2 Hf.
      apply lookup_update in Hl2 as [[-> ->]|[_ Hl2]]; [done|done].
    + simpl. intros g2 u2 pcs2 l2 k2 sum2 Hg2 Hl2.
      destruct (Hold g2 u2 pcs2 l2 k2 sum2 Hg2 Hl2) as [(-> & -> & [= <- <-])|]; [|done].
      split; [lia|]. rewrite Hsum. apply psum_next. lia.
  - assert (k = AY) as -> by lia. apply bind_Some in Hs as (i & Hi & Hs). apply offset_Some in Hi as ->.
    apply bind_Some in Hs as (C2 & HC2 & Hs). injection Hs as <- <- <-. split; [done| |].
    + apply (written_store KS AY s g lm pcs l (Sum AY sum)); [done..|]. by rewrite <-Hsum.
    + simpl. intros g2 u2 pcs2 l2 k2 sum2 Hg2 Hl2. by destruct (Hold g2 u2 pcs2 l2 k2 sum2 Hg2 Hl2) as [(_ & _ & ?)|].
Qed.

Lemma sinv_progress s : sinv s → final KS s ∨ ∃ s', step KS s s'.
Proof.
  intros [H1 H2 H3]. destruct (not_final KS s) as [|(g & u & pcs & l & p & Hg & Hl & Hp)]; [by left|right].
  destruct p as [k sum|]; [|done].
  destruct (shaped_bound s g u pcs l _ H1 Hg Hl) as [Hgn Hln], (H3 g u pcs l k sum Hg Hl) as [Hk _].
  assert (Hr : ∃ p' C' u', simple_step add mul AY BY A B TS n1 g l (Sum k sum) (global s) u = Some (p', C', u')).
  { simpl. destruct (Z.ltb_spec k AY).
    - destruct (factors g l k Hgn Hln ltac:(lia)) as [[-> Ha] [Ho' Hb]]. simpl. rewrite Ha. simpl.
      rewrite Ho'. simpl. rewrite Hb. simpl. by do 3 eexists.
    - destruct (store_runs g l (global s) sum Hgn Hln (proj1 H2)) as [-> [C' HC']]. simpl. rewrite HC'. by do 3 eexists. }
  destruct Hr as (p' & C' & u' & Hr). eexists. by apply (step_item KS s g l u pcs (Sum k sum) p' C' u').
Qed.

Definition sweight (g l : nat) (p : @spc T) : Z := match p with Sum k _ => 1 + Z.max 0 (AY - k) | Stored => 0 end.

Lemma simple_run C : Z.of_nat (length C) = AX * BY →
  always_ends KS (λ s, product AY (global s)) (simple_start zero TS num_groups C).
Proof.
  intros HC. apply (always_ends_by KS sinv _ (weight sweight)).
  - intros s _. apply weight_nonneg. intros g l p. unfold sweight. destruct p; lia.
  - apply sinv_progress.
  - intros s s' Hi Hs. split; [by apply (sinv_step s)|]. apply (weight_step KS sweight); [|done|exact Hs].
    intros g l p m u p' m' u' Hs'. destruct p as [k sum|]; [|done]. simpl in Hs'.
    destruct (Z.ltb_spec k AY).
    + repeat (apply bind_Some in Hs' as (? & _ & Hs')). injection Hs' as <- <- <-. unfold sweight. lia.
    + repeat (apply bind_Some in Hs' as (? & _ & Hs')). injection Hs' as <- <- <-. unfold sweight. lia.
  - intros s [H1 H2 _] Hf. by apply (written_final KS).
  - split.
    + apply shaped_start, length_replicate.
    + by apply written_start.
    + intros g u pcs l k sum Hg Hl. destruct (start_item C _ _ g u pcs l _ Hg Hl) as [[= -> ->] _].
      split; [lia|done].
Qed.

(** *** [gemm_localmem.cl] *)
Abbreviation KL := (gemm_localmem add mul AY BY A B TS n1).
Abbreviation nt := (AY / TS).

Inductive stage := Loading (t : Z) | Computing (t : Z).
Definition tile (st : stage) : Z := match st with Loading t | Computing t => t end.

Definition item_ok (g l : nat) (st : stage) (p : @lpc T) : Prop :=
  let acc_is k acc := acc = psum (Z.to_nat k) (R g l) (Co g l) in
  match st, p with
  | Loading t, Head t' acc => t' = t ∧ acc_is (TS * t) acc
  | Loading t, LoadB t' acc | Loading t, Loaded t' acc => t' = t ∧ t < nt ∧ acc_is (TS * t) acc
  | Loading t, Finished => t = nt
  | Computing t, Mul t' k acc => t' = t ∧ 0 <= k <= TS ∧ acc_is (TS * t + k) acc
  | Computing t, MulB t' k acc x => t' = t ∧ 0 <= k < TS ∧ acc_is (TS * t + k) acc ∧ x = fa (R g l) (TS * t + k)
  | Computing t, Used t' acc => t' = t ∧ acc_is (TS * (t + 1)) acc
  | _, _ => False
  end.

Definition stage_ok (st : stage) : Prop := match st with Loading t => 0 <= t <= nt | Computing t => 0 <= t < nt end.

(** Whether the item has loaded its elements of the tiles. *)
Definition a_loaded (st : stage) (p : @lpc T) : bool :=
  match st, p with Loading _, (LoadB _ _ | Loaded _ _) => true | Loading _, _ => false | Computing _, _ => true end.
Definition b_loaded (st : stage) (p : @lpc T) : bool :=
  match st, p with Loading _, Loaded _ _ => true | Loading _, _ => false | Computing _, _ => true end.

Definition tiles_ok (g : nat) (st : stage) (sub : list T * list T) (pcs : list lpc) : Prop :=
  ∀ l p, pcs !! l = Some p →
    (a_loaded st p = true → get sub.1 (col l * TS + row l) = Some (fa (R g l) (TS * tile st + col l))) ∧
    (b_loaded st p = true → get sub.2 (col l * TS + row l) = Some (fb (TS * tile st + row l) (Co g l))).

Record group_ok (g : nat) (sub : list T * list T) (pcs : list lpc) (st : stage) : Prop := {
  gr_stage : stage_ok st;
  gr_a : Z.of_nat (length sub.1) = TS * TS;
  gr_b : Z.of_nat (length sub.2) = TS * TS;
  gr_item : ∀ l p, pcs !! l = Some p → item_ok g l st p;
  gr_tiles : tiles_ok g st sub pcs }.

Record linv (s : sys lpc (list T) (list T * list T)) : Prop := {
  li_shape : shaped s;
  li_written : written KL (TS * nt) s;
  li_group : ∀ g sub pcs, groups s !! g = Some (sub, pcs) → ∃ st, group_ok g sub pcs st }.

Lemma tiles_fit t x : 0 <= t < nt → 0 <= x < TS → 0 <= TS * t + x < AY.
Proof.
  intros Ht Hx. destruct sizes as (H0 & _). pose proof (Z.div_mod AY TS ltac:(lia)). pose proof (Z.mod_pos_bound AY TS TS_pos). nia.
Qed.

Lemma numTiles_is : numTiles AY TS = nt.
Proof. unfold numTiles. apply Z.quot_div_nonneg; [tauto|done]. Qed.

(** The cells of different items are different. *)
Lemma cell_unique l l' : (l < num_items)%nat → (l' < num_items)%nat → col l * TS + row l = col l' * TS + row l' → l = l'.
Proof.
  intros Hl Hl' Heq. destruct (local_ids l Hl) as (? & ? & Hle), (local_ids l' Hl') as (? & ? & Hle').
  destruct (position_inj TS (col l) (row l) (col l') (row l')); [done..|]. apply Nat2Z.inj. congruence.
Qed.

Lemma item_cell l : (l < num_items)%nat →
  cell TS (col l) (row l) = Some (col l * TS + row l) ∧ 0 <= col l * TS + row l < TS * TS.
Proof. intros Hl. destruct (local_ids l Hl) as (? & ? & _). by apply cell_run. Qed.

(** In a stage of computation the tiles are there: [Asub[k][row]] and [Bsub[col][k]]. *)
Lemma tile_elements g sub pcs t l k : group_ok g sub pcs (Computing t) → length pcs = num_items →
  (l < num_items)%nat → 0 <= k < TS →
  get sub.1 (k * TS + row l) = Some (fa (R g l) (TS * t + k)) ∧
  get sub.2 (col l * TS + k) = Some (fb (TS * t + k) (Co g l)).
Proof.
  intros Hok Hlen Hl Hk. destruct (local_ids l Hl) as (Hr & Hc & _). split.
  - destruct (local_of (row l) k Hr Hk) as (l' & Hl' & Hrow & Hcol).
    destruct (lookup_lt_is_Some_2 pcs l') as [p Hp]; [by rewrite Hlen|].
    destruct (gr_tiles _ _ _ _ Hok l' p Hp) as [Ha _]. specialize (Ha eq_refl). unfold globalRow in *.
    by rewrite Hrow, Hcol in Ha.
  - destruct (local_of k (col l) Hk Hc) as (l' & Hl' & Hrow & Hcol).
    destruct (lookup_lt_is_Some_2 pcs l') as [p Hp]; [by rewrite Hlen|].
    destruct (gr_tiles _ _ _ _ Hok l' p Hp) as [_ Hb]. specialize (Hb eq_refl). unfold globalCol in *.
    by rewrite Hrow, Hcol in Hb.
Qed.

Lemma group_ok_item g sub pcs st l p' sub' : (l < num_items)%nat → length pcs = num_items → group_ok g sub pcs st →
  Z.of_nat (length sub'.1) = TS * TS → Z.of_nat (length sub'.2) = TS * TS → item_ok g l st p' →
  (∀ l2, (l2 < num_items)%nat → l2 ≠ l →
    get sub'.1 (col l2 * TS + row l2) = get sub.1 (col l2 * TS + row l2) ∧
    get sub'.2 (col l2 * TS + row l2) = get sub.2 (col l2 * TS + row l2)) →
  (a_loaded st p' = true → get sub'.1 (col l * TS + row l) = Some (fa (R g l) (TS * tile st + col l))) →
  (b_loaded st p' = true → get sub'.2 (col l * TS + row l) = Some (fb (TS * tile st + row l) (Co g l))) →
  group_ok g sub' (<[l := p']> pcs) st.
Proof.
  intros Hl Hlen [Hst _ _ Hit Htl] Ha Hb Hp' Hsame Hla Hlb. split; [done..| |].
  - intros l2 p2 Hl2. apply lookup_update in Hl2 as [[-> ->]|[_ Hl2]]; [done|by apply Hit].
  - intros l2 p2 Hl2. apply lookup_update in Hl2 as [[-> ->]|[Hne Hl2]]; [done|].
    apply lookup_lt_Some in Hl2 as Hlt. rewrite Hlen in Hlt.
    destruct (Hsame l2 Hlt Hne) as [-> ->]. by apply Htl.
Qed.

(** The same, when the tiles do not change. *)
Lemma group_ok_same g sub pcs st l p p' : (l < num_items)%nat → length pcs = num_items → group_ok g sub pcs st →
  pcs !! l = Some p → item_ok g l st p' →
  (a_loaded st p' = true → a_loaded st p = true) → (b_loaded st p' = true → b_loaded st p = true) →
  group_ok g sub (<[l := p']> pcs) st.
Proof.
  intros Hl Hlen Hok Hp Hp' Ha Hb. destruct (gr_tiles _ _ _ _ Hok l p Hp) as [Hla Hlb].
  apply (group_ok_item g sub pcs); [done..|by eapply gr_a|by eapply gr_b|done|done|auto|auto].
Qed.

Lemma litem_ok g sub pcs st l p C p' C' sub' : (g < num_groups)%nat → (l < num_items)%nat → length pcs = num_items →
  group_ok g sub pcs st → pcs !! l = Some p →
  localmem_step add mul AY BY A B TS n1 g l p C sub = Some (p', C', sub') →
  group_ok g sub' (<[l := p']> pcs) st ∧
  ((C' = C ∧ is_finished p' = false) ∨
   put C (R g l * BY + Co g l) (psum (Z.to_nat (TS * nt)) (R g l) (Co g l)) = Some C').
Proof.
  intros Hg Hl Hlen Hok Hp Hs. destruct sub as [Asub Bsub].
  pose proof Hok as [Hst Hla Hlb Hit Htl]. pose proof (Hit l p Hp) as Hpi.
  destruct (global_ids g l Hg Hl) as [HR HCo], (local_ids l Hl) as (Hr & Hc & _), (item_cell l Hl) as [Hcell Hcb].
  cbn [localmem_step] in Hs. rewrite numTiles_is in Hs.
  destruct p as [t acc|t acc| |t k acc|t k acc x| |]; try discriminate Hs; destruct st as [t0|t0]; try done; simpl in Hst, Hpi.
  - destruct Hpi as [-> Hacc]. destruct (Z.ltb_spec t0 nt) as [Hlt|Hge].
    + apply bind_Some in Hs as (tc & Htc & Hs). apply offset_Some in Htc as ->.
      apply bind_Some in Hs as (i & Hi & Hs). apply offset_Some in Hi as ->.
      rewrite (A_is (R g l) (TS * t0 + col l) HR (tiles_fit _ _ (conj (proj1 Hst) Hlt) Hc)) in Hs. simpl in Hs.
      rewrite Hcell in Hs. simpl in Hs. apply bind_Some in Hs as (As & HAs & Hs). injection Hs as <- <- <-.
      apply put_Some in HAs as (_ & HlA & HgA). split; [|by left].
      apply (group_ok_item g (Asub, Bsub) pcs); simpl; [done..|by rewrite HlA|done|done| | |done].
      * intros l2 Hl2 Hne. split; [|done]. rewrite HgA, decide_False; [done|]. intros Heq. by apply Hne, cell_unique.
      * intros _. by rewrite HgA, decide_True.
    + apply bind_Some in Hs as (i & Hi & Hs). apply offset_Some in Hi as ->.
      apply bind_Some in Hs as (C2 & HC2 & Hs). injection Hs as <- <- <-.
      assert (t0 = nt) as -> by lia. split; [|right; by rewrite <-Hacc].
      by apply (group_ok_same g (Asub, Bsub) pcs _ l (Head nt acc)).
  - destruct Hpi as (-> & Hlt & Hacc).
    apply bind_Some in Hs as (tr & Htr & Hs). apply offset_Some in Htr as ->.
    apply bind_Some in Hs as (i & Hi & Hs). apply offset_Some in Hi as ->.
    rewrite (B_is (TS * t0 + row l) (Co g l) (tiles_fit _ _ (conj (proj1 Hst) Hlt) Hr) HCo) in Hs. simpl in Hs.
    rewrite Hcell in Hs. simpl in Hs. apply bind_Some in Hs as (Bs & HBs & Hs). injection Hs as <- <- <-.
    apply put_Some in HBs as (_ & HlB & HgB). split; [|by left].
    apply (group_ok_item g (Asub, Bsub) pcs); simpl; [done..|by rewrite HlB|done| | |].
    + intros l2 Hl2 Hne. split; [done|]. rewrite HgB, decide_False; [done|]. intros Heq. by apply Hne, cell_unique.
    + intros _. by apply (Htl l (LoadB t0 acc)).
    + intros _. by rewrite HgB, decide_True.
  - destruct Hpi as (-> & Hk & Hacc). destruct (Z.ltb_spec k TS).
    + destruct (cell_run TS k (row l)) as [Hcr _]; [lia|done|]. rewrite Hcr in Hs. simpl in Hs.
      destruct (tile_elements g (Asub, Bsub) pcs t0 l k Hok Hlen Hl ltac:(lia)) as [He _]. simpl in He.
      rewrite He in Hs. simpl in Hs. injection Hs as <- <- <-. split; [|by left].
      apply (group_ok_same g (Asub, Bsub) pcs _ l (Mul t0 k acc)); [done..| |done|done].
      simpl. repeat split; (done || lia).
    + injection Hs as <- <- <-. split; [|by left].
      apply (group_ok_same g (Asub, Bsub) pcs _ l (Mul t0 k acc)); [done..| |done|done].
      simpl. split; [done|]. rewrite Hacc. do 2 f_equal. assert (k = TS) as -> by lia. lia.
  - destruct Hpi as (-> & Hk & Hacc & Hx). destruct (cell_run TS (col l) k) as [Hcr _]; [done|lia|].
    rewrite Hcr in Hs. simpl in Hs.
    destruct (tile_elements g (Asub, Bsub) pcs t0 l k Hok Hlen Hl ltac:(lia)) as [_ He]. simpl in He.
    rewrite He in Hs. simpl in Hs. injection Hs as <- <- <-. split; [|by left].
    apply (group_ok_same g (Asub, Bsub) pcs _ l (MulB t0 k acc x)); [done..| |done|done].
    simpl. split; [done|]. split; [lia|]. rewrite Hacc, Hx, psum_next by nia. do 2 f_equal. lia.
Qed.

(** A barrier ends a stage. *)
Lemma tile_barrier_ok g sub pcs pcs' st b : (g < num_groups)%nat → length pcs = num_items → group_ok g sub pcs st →
  pcs ≠ [] → Forall (λ p, localmem_waits p = Some b) pcs → imap (localmem_barrier g) pcs = Some <$> pcs' →
  length pcs' = length pcs ∧ Forall (λ p, is_finished p = false) pcs' ∧ ∃ st', group_ok g sub pcs' st'.
Proof.
  intros Hg Hlen [Hst Hla Hlb Hit Htl] Hne Hall Hb.
  assert (Hlen' : length pcs' = length pcs) by (apply (f_equal length) in Hb; by rewrite length_imap, length_fmap in Hb).
  assert (Hfrom : ∀ l p', pcs' !! l = Some p' → ∃ p, pcs !! l = Some p ∧ localmem_waits p = Some b ∧
    item_ok g l st p ∧ localmem_barrier g l p = Some p').
  { intros l p' Hp'. assert (Hl : imap (localmem_barrier g) pcs !! l = Some (Some p')) by (by rewrite Hb, list_lookup_fmap, Hp').
    rewrite list_lookup_imap in Hl. apply fmap_Some in Hl as (p & Hp & Hf). exists p. rewrite Forall_lookup in Hall.
    exact (conj Hp (conj (Hall l p Hp) (conj (Hit l p Hp) (eq_sym Hf)))). }
  split; [done|]. split.
  { apply Forall_lookup. intros l p' Hp'. destruct (Hfrom l p' Hp') as (p & _ & _ & _ & Hf). destruct p; try discriminate Hf; by injection Hf as <-. }
  destruct pcs as [|p0 pcs0]; [done|]. destruct st as [t|t].
  - assert (Ht : t < nt).
    { specialize (Hit 0%nat p0 eq_refl). apply Forall_cons in Hall as [Hw _]. destruct p0; try discriminate Hw; simpl in Hit; tauto. }
    exists (Computing t). split; [simpl in *; lia|done..| |].
    + intros l p' Hp'. destruct (Hfrom l p' Hp') as (p & _ & Hw & Hi & Hf). destruct p; try discriminate Hw; try done.
      injection Hf as <-. simpl in *. destruct Hi as (-> & _ & ->). rewrite Z.add_0_r. repeat split; lia.
    + intros l p' Hp'. destruct (Hfrom l p' Hp') as (p & Hp & Hw & Hi & _). destruct p; try discriminate Hw; try done.
      destruct (Htl l _ Hp) as [Ha Hb']. simpl in *. auto.
  - exists (Loading (t + 1)). split; [simpl in *; lia|done..| |].
    + intros l p' Hp'. destruct (Hfrom l p' Hp') as (p & _ & Hw & Hi & Hf). destruct p; try discriminate Hw; try done.
      injection Hf as <-. simpl in *. destruct Hi as (-> & ->). done.
    + intros l p' Hp'. destruct (Hfrom l p' Hp') as (p & _ & Hw & Hi & Hf). destruct p; try discriminate Hw; try done.
      injection Hf as <-. done.
Qed.

Lemma linv_step s s' : linv s → step KL s s' → linv s'.
Proof.
  intros [H1 H2 H3]. destruct 1 as [g l sub pcs p p' C' sub' Hg Hl Hs|g sub pcs pcs' b Hg Hne Hall Hb];
    pose proof (proj2 H1 g sub pcs Hg) as Hlen; destruct (H3 g sub pcs Hg) as [st Hok].
  - destruct (shaped_bound s g sub pcs l p H1 Hg Hl) as [Hgn Hln].
    destruct (litem_ok g sub pcs st l p (global s) p' C' sub' Hgn Hln Hlen Hok Hl Hs) as [Hok' HC]. split.
    + apply shaped_group with sub pcs; [done|done|]. by rewrite length_insert.
    + destruct HC as [[-> Hf]|Hput].
      * apply (written_work KL _ s g sub pcs); [done|done|]. intros l2 p2 Hl2 Hf2.
        apply lookup_update in Hl2 as [[-> ->]|[_ Hl2]]; [|done]. simpl in Hf2. congruence.
      * by apply (written_store KL _ s g sub pcs l p).
    + simpl. intros g2 sub2 pcs2 Hg2. apply lookup_update in Hg2 as [[-> [= -> ->]]|[_ Hg2]]; [by exists st|by apply H3].
  - assert (Hgn : (g < num_groups)%nat) by (rewrite <-(proj1 H1); by apply lookup_lt_Some in Hg).
    destruct (tile_barrier_ok g sub pcs pcs' st b Hgn Hlen Hok Hne Hall Hb) as (Hlen' & Hf & st' & Hok'). split.
    + by apply shaped_group with sub pcs.
    + apply (written_work KL _ s g sub pcs); [done|done|]. intros l2 p2 Hl2 Hf2. rewrite Forall_lookup in Hf.
      specialize (Hf l2 p2 Hl2). simpl in Hf2. congruence.
    + simpl. intros g2 sub2 pcs2 Hg2. apply lookup_update in Hg2 as [[-> [= -> ->]]|[_ Hg2]]; [by exists st'|by apply H3].
Qed.

(** *** Progress *)
Lemma tile_item_runs g sub pcs st l p C : (g < num_groups)%nat → (l < num_items)%nat → length pcs = num_items →
  group_ok g sub pcs st → pcs !! l = Some p → Z.of_nat (length C) = AX * BY →
  localmem_waits p = None → is_finished p = false →
  ∃ p' C' sub', localmem_step add mul AY BY A B TS n1 g l p C sub = Some (p', C', sub').
Proof.
  intros Hg Hl Hlen Hok Hp HC Hw Hf. destruct sub as [Asub Bsub].
  pose proof Hok as [Hst Hla Hlb Hit Htl]. pose proof (Hit l p Hp) as Hpi. simpl in Hla, Hlb.
  destruct (local_ids l Hl) as (Hr & Hc & _), (item_cell l Hl) as [Hcell Hcb].
  assert (Hoff : ∀ t x, 0 <= t < nt → 0 <= x < TS → offset TS t x = Some (TS * t + x)).
  { intros t x Ht Hx. pose proof (tiles_fit t x Ht Hx). destruct sizes as (? & H4 & _), launch as (? & ? & HX & _).
    pose proof (Z.mul_nonneg_nonneg TS t). unfold offset.
    assert (AY < 2 ^ 31) by nia.
    rewrite (proj2 (Z.leb_le _ (TS * t))), (proj2 (Z.ltb_lt (TS * t) _)), (proj2 (Z.leb_le _ (TS * t + x))), (proj2 (Z.ltb_lt (TS * t + x) _)) by lia.
    done. }
  cbn [localmem_step]. rewrite numTiles_is.
  destruct p as [t acc|t acc|t acc|t k acc|t k acc x|t acc|]; try done; destruct st as [t0|t0]; try done; simpl in Hst, Hpi.
  - destruct Hpi as [-> _]. destruct (Z.ltb_spec t0 nt) as [Hlt|Hge].
    + assert (Ht0 : 0 <= t0 < nt) by lia. rewrite (Hoff t0 (col l) Ht0 Hc). simpl.
      destruct (factors g l _ Hg Hl (tiles_fit t0 (col l) Ht0 Hc)) as [[-> Ha] _]. simpl. rewrite Ha. simpl. rewrite Hcell. simpl.
      destruct (put_run Asub _ (fa (R g l) (TS * t0 + col l)) ltac:(rewrite Hla; exact Hcb)) as [As ->]. by do 3 eexists.
    + destruct (store_runs g l C acc Hg Hl HC) as [-> [C' HC']]. simpl. rewrite HC'. by do 3 eexists.
  - destruct Hpi as (-> & Hlt & _). assert (Ht0 : 0 <= t0 < nt) by lia. rewrite (Hoff t0 (row l) Ht0 Hr). simpl.
    destruct (factors g l _ Hg Hl (tiles_fit t0 (row l) Ht0 Hr)) as [_ [-> Hb]]. simpl. rewrite Hb. simpl. rewrite Hcell. simpl.
    destruct (put_run Bsub _ (fb (TS * t0 + row l) (Co g l)) ltac:(rewrite Hlb; exact Hcb)) as [Bs ->]. by do 3 eexists.
  - destruct Hpi as (-> & Hk & _). destruct (Z.ltb_spec k TS); [|by do 3 eexists].
    destruct (cell_run TS k (row l)) as [-> _]; [lia|done|]. simpl.
    destruct (tile_elements g (Asub, Bsub) pcs t0 l k Hok Hlen Hl ltac:(lia)) as [He _]. simpl in He.
    rewrite He. by do 3 eexists.
  - destruct Hpi as (-> & Hk & _). destruct (cell_run TS (col l) k) as [-> _]; [done|lia|]. simpl.
    destruct (tile_elements g (Asub, Bsub) pcs t0 l k Hok Hlen Hl ltac:(lia)) as [_ He]. simpl in He.
    rewrite He. by do 3 eexists.
Qed.

(** Items that are all waiting or finished, one of them not finished, wait for one barrier. *)
Lemma all_wait g sub pcs st l p : group_ok g sub pcs st → pcs !! l = Some p → is_finished p = false →
  Forall (λ p, localmem_waits p ≠ None ∨ is_finished p = true) pcs →
  ∃ b pcs', Forall (λ p, localmem_waits p = Some b) pcs ∧ imap (localmem_barrier g) pcs = Some <$> pcs'.
Proof.
  intros [Hst _ _ Hit _] Hp Hf Hall. rewrite Forall_lookup in Hall.
  assert (Hw : ∃ b, ∀ l2 p2, pcs !! l2 = Some p2 → localmem_waits p2 = Some b).
  { destruct st as [t|t].
    - exists (2 * t). pose proof (Hit l p Hp) as Hpi.
      assert (Ht : t < nt) by (destruct p, (Hall l _ Hp) as [Hl|Hl]; simpl in *; (done || tauto)).
      intros l2 p2 Hp2. specialize (Hit l2 p2 Hp2). destruct p2, (Hall l2 _ Hp2) as [Hl|Hl]; simpl in *; try done;
        [by destruct Hit as [-> _]|lia].
    - exists (2 * t + 1). intros l2 p2 Hp2. specialize (Hit l2 p2 Hp2).
      destruct p2, (Hall l2 _ Hp2) as [Hl|Hl]; simpl in *; try done. by destruct Hit as [-> _]. }
  destruct Hw as [b Hw].
  exists b, (imap (λ l p, default p (localmem_barrier g l p)) pcs). split; [by apply Forall_lookup|].
  apply list_eq. intros l2. rewrite list_lookup_fmap, !list_lookup_imap.
  destruct (pcs !! l2) as [p2|] eqn:Hp2; [|done]. simpl. specialize (Hw l2 p2 Hp2). by destruct p2.
Qed.

Lemma linv_progress s : linv s → final KL s ∨ ∃ s', step KL s s'.
Proof.
  intros [H1 H2 H3]. destruct (not_final KL s) as [|(g & sub & pcs & l & p & Hg & Hl & Hp)]; [by left|right].
  destruct (H3 g sub pcs Hg) as [st Hok]. pose proof (proj2 H1 g sub pcs Hg) as Hlen.
  destruct (decide (Forall (λ p, localmem_waits p ≠ None ∨ is_finished p = true) pcs)) as [Hall|Hn].
  - destruct (all_wait g sub pcs st l p Hok Hl Hp Hall) as (b & pcs' & Hw & Hb).
    eexists. apply (step_barrier KL s g sub pcs pcs' b); [done|by intros ->|done|done].
  - apply not_Forall_Exists in Hn; [|intros x; apply _]. apply Exists_exists in Hn as (p2 & Hin & Hp2).
    apply list_elem_of_lookup in Hin as [l2 Hl2]. destruct (shaped_bound s g sub pcs l2 p2 H1 Hg Hl2) as [Hgn Hln].
    destruct (tile_item_runs g sub pcs st l2 p2 (global s)) as (p' & C' & sub' & Hr); [done..|by apply H2| | |].
    + destruct (localmem_waits p2) eqn:Hw; [|done]. exfalso. apply Hp2. left. by rewrite Hw.
    + apply not_true_is_false. intros Hf. apply Hp2. by right.
    + eexists. by apply (step_item KL s g l2 sub pcs p2 p' C' sub').
Qed.

Definition lweight (g l : nat) (p : @lpc T) : Z :=
  let left t := Z.max 0 (nt - t) * (2 * TS + 5) in
  match p with
  | Head t _ => left t + 1
  | LoadB t _ => left (t + 1) + 2 * TS + 5
  | Loaded t _ => left (t + 1) + 2 * TS + 4
  | Mul t k _ => left (t + 1) + 3 + 2 * Z.max 0 (TS - k)
  | MulB t k _ _ => left (t + 1) + 4 + 2 * Z.max 0 (TS - (k + 1))
  | Used t _ => left (t + 1) + 2
  | Finished => 0
  end.

Lemma left_tiles t : t < nt → Z.max 0 (nt - t) * (2 * TS + 5) = Z.max 0 (nt - (t + 1)) * (2 * TS + 5) + (2 * TS + 5).
Proof. intros Ht. rewrite !Z.max_r by lia. lia. Qed.

Lemma lweight_step g l p m sub p' m' sub' : localmem_step add mul AY BY A B TS n1 g l p m sub = Some (p', m', sub') →
  lweight g l p' < lweight g l p.
Proof.
  intros Hs. destruct sub as [Asub Bsub]. cbn [localmem_step] in Hs. rewrite numTiles_is in Hs.
  assert (Hpos : ∀ t, 0 <= Z.max 0 (nt - t) * (2 * TS + 5)) by (intros t; nia).
  destruct p as [t acc|t acc| |t k acc|t k acc x| |]; try discriminate Hs.
  - pose proof (Hpos t). destruct (Z.ltb_spec t nt) as [Hlt|Hge]; repeat (apply bind_Some in Hs as (? & _ & Hs));
      injection Hs as <- <- <-; unfold lweight; [rewrite (left_tiles t Hlt)|]; lia.
  - repeat (apply bind_Some in Hs as (? & _ & Hs)). injection Hs as <- <- <-. unfold lweight. lia.
  - destruct (Z.ltb_spec k TS); repeat (apply bind_Some in Hs as (? & _ & Hs)); injection Hs as <- <- <-; unfold lweight; lia.
  - repeat (apply bind_Some in Hs as (? & _ & Hs)). injection Hs as <- <- <-. unfold lweight. lia.
Qed.

Lemma localmem_run C locals : Z.of_nat (length C) = AX * BY → length locals = num_groups →
  Forall (λ sub : list T * list T, Z.of_nat (length sub.1) = TS * TS ∧ Z.of_nat (length sub.2) = TS * TS) locals →
  always_ends KL (λ s, product (TS * nt) (global s)) (localmem_start zero TS C locals).
Proof.
  intros HC Hn Hloc. assert (Hnt : 0 <= nt) by (apply Z.div_pos; [tauto|done]).
  apply (always_ends_by KL linv _ (weight lweight)).
  - intros s _. apply weight_nonneg. intros g l p. unfold lweight. destruct p; nia.
  - apply linv_progress.
  - intros s s' Hi Hs. split; [by apply (linv_step s)|]. apply (weight_step KL lweight); [| |exact Hs].
    + intros g l p m sub p' m' sub'. apply lweight_step.
    + intros g l p p' Hp. destruct p; try discriminate Hp; injection Hp as <-; unfold lweight; lia.
  - intros s [H1 H2 _] Hf. by apply (written_final KL).
  - split.
    + by apply shaped_start.
    + by apply written_start.
    + intros g sub pcs Hg. exists (Loading 0).
      assert (Hit : ∀ l p, pcs !! l = Some p → p = Head 0 zero ∧ locals !! g = Some sub).
      { intros l p Hl. exact (start_item C locals _ g sub pcs l p Hg Hl). }
      assert (Hsub : locals !! g = Some sub).
      { unfold localmem_start, start in Hg. simpl in Hg. rewrite list_lookup_imap in Hg.
        by apply fmap_Some in Hg as (sub' & Hs & [= -> ->]). }
      pose proof (Forall_lookup_1 _ _ _ _ Hloc Hsub) as [Ha Hb]. split; [simpl; lia|done|done| |].
      * intros l p Hl. destruct (Hit l p Hl) as [-> _]. simpl. split; [done|]. by rewrite Z.mul_0_r.
      * intros l p Hl. by destruct (Hit l p Hl) as [-> _].
Qed.
End proofs.

(** ** The theorem *)
Definition entry {T} (zero : T) (m : list T) (w i j : Z) : T := default zero (get m (i * w + j)).

Lemma element_is {T} (zero : T) (m : list T) h w i j : Z.of_nat (length m) = h * w → 0 <= i < h → 0 <= j < w →
  get m (i * w + j) = Some (entry zero m w i j).
Proof. intros Hm Hi Hj. unfold entry. destruct (get_run m (i * w + j)) as [v ->]; [nia|done]. Qed.

(** C36: however the items interleave, every execution of the two kernels ends: no item is
    stuck at a barrier or out of bounds, whatever [C] and the local memories hold at first.
    [gemm_simple.cl] stores the product; [gemm_localmem.cl] stores the product of as many
    columns and lines as its tiles cover. The terms are added in the same order. *)
Theorem gemm_kernels_multiply {T P} (zero : T) (add : T → P → T) (mul : T → T → P) (AX AY BY TS n0 n1 : Z) (A B C : list T) locals :
  0 < TS → 0 <= AY → AX * AY < 2 ^ 31 → AY * BY < 2 ^ 31 → AX * BY < 2 ^ 31 →
  0 < n0 ∧ 0 < n1 ∧ AX = n0 * TS ∧ BY = n1 * TS →
  Z.of_nat (length A) = AX * AY → Z.of_nat (length B) = AY * BY → Z.of_nat (length C) = AX * BY →
  length locals = num_groups n0 n1 →
  Forall (λ sub : list T * list T, Z.of_nat (length sub.1) = TS * TS ∧ Z.of_nat (length sub.2) = TS * TS) locals →
  let product := product zero add mul AX BY (entry zero A AY) (entry zero B BY) in
  always_ends (gemm_simple add mul AY BY A B TS n1) (λ s, product AY (global s)) (simple_start zero TS (num_groups n0 n1) C) ∧
  always_ends (gemm_localmem add mul AY BY A B TS n1) (λ s, product (TS * (AY / TS)) (global s)) (localmem_start zero TS C locals).
Proof.
  intros HT HY H1 H2 H3 Hl HA HB HC Hn Hlm. cbv zeta.
  split; [apply simple_run|apply (localmem_run _ _ _ AX AY BY A B TS n0)]; try done; intros i j Hi Hj; by eapply element_is.
Qed.

Lemma gemm_kernels_multiply_witness :
  let product := product 0 Z.add Z.mul 2 4 (entry 0 [1; 2; 3; 4; 5; 6] 3) (entry 0 (seqZ 1 12) 4) in
  always_ends (gemm_simple Z.add Z.mul 3 4 [1; 2; 3; 4; 5; 6] (seqZ 1 12) 2 2) (λ s, product 3 (global s))
    (simple_start 0 2 2 (replicate 8 7)) ∧
  always_ends (gemm_localmem Z.add Z.mul 3 4 [1; 2; 3; 4; 5; 6] (seqZ 1 12) 2 2) (λ s, product 2 (global s))
    (localmem_start 0 2 (replicate 8 7) (replicate 2 (replicate 4 9, replicate 4 9))).
Proof.
  apply (gemm_kernels_multiply 0 Z.add Z.mul 2 3 4 2 1 2 [1; 2; 3; 4; 5; 6] (seqZ 1 12) (replicate 8 7)); try done; try lia.
  by repeat constructor.
Defined.
