(* ===== verification/OclGemmHost.v ===== *)
(** * The multiplication program: [cl_gemm.cc]

    [TYPE] is a parameter, with [==] and the conversion from the [int] that is drawn; [add] and
    [mul] may be contracted, so a product need not be of that type. What the OpenCL runtime
    does with the kernel is [enqueue]. *)

From S2P Require Import Prelude CInt Ocl OclGemm OclCfg.
Import OclCfg.Gemm.

Section host.
Context {T P : Type} (zero : T) (add : T → P → T) (mul : T → T → P) (eqb : T → T → bool) (of_int : Z → T).

(** [m[r * n + c]] *)
Definition at_ (m : list T) (r n c : Z) : E T := i ← checked (offset r n c); checked (get m i).
Definition set_at (m : list T) (r n c : Z) (v : T) : E (list T) := i ← checked (offset r n c); checked (put m i v).

(** ** The references *)
Definition matrix_mult_ref (A B C : list T) (AX AY BY : Z) : E (list T) :=
  require ((0 <? AX) && (0 <? AY) && (0 <? BY));;
  for_ (Z.to_nat AX) 0 (λ i C, for_ (Z.to_nat BY) 0 (λ j C,
    acc ← for_ (Z.to_nat AY) 0 (λ k acc, x ← at_ A i AY k; y ← at_ B k BY j; mret (add acc (mul x y))) zero;
    set_at C i BY j acc) C) C.

(** [std::vector<T> v(n)] *)
Definition vector (n : Z) : E (list T) := if n <? 0 then raise length_error else mret (replicate (Z.to_nat n) zero).

Definition transpose_mult_ref (A B C : list T) (AX AY BY : Z) : E (list T) :=
  require ((0 <? AX) && (0 <? AY) && (0 <? BY));;
  n ← int (BY * AY);
  tmp ← vector n;
  tmp ← for_ (Z.to_nat AY) 0 (λ i tmp, for_ (Z.to_nat BY) 0 (λ j tmp, v ← at_ B i BY j; set_at tmp j AY i v) tmp) tmp;
  for_ (Z.to_nat AX) 0 (λ i C, for_ (Z.to_nat BY) 0 (λ j C,
    acc ← for_ (Z.to_nat AY) 0 (λ k acc, x ← at_ A i AY k; y ← at_ tmp j AY k; mret (add acc (mul x y))) zero;
    set_at C i BY j acc) C) C.

(** ** [OclApp::mmult] *)

(** [fresh k n] is what the [k]th buffer, of [n] elements, holds when it is created;
    [enqueue] gives what the buffer [C] holds in the end. *)
Variable fresh : nat → nat → list T.
Variable enqueue : Z * Z → Z * Z → list T → list T → list T → Z → Z → Z → E (list T).

(** Sizes are converted to [size_t]; a buffer cannot be empty nor of about [2 ^ 64] bytes. *)
Definition Buffer (k : nat) (n : Z) : E (list T) :=
  if n <=? 0 then raise (cl_error "clCreateBuffer") else mret (fresh k (Z.to_nat n)).

(** [cl::copy(queue, p, p + n, buffer)]: [p + n] is at most one past the end of the array;
    [n] elements of the buffer are mapped and copied. *)
Definition copy_to (src : list T) (n : Z) (buffer : list T) : E (list T) :=
  require (n <=? Z.of_nat (length src));;
  if Z.of_nat (length buffer) <? n then raise (cl_error "clEnqueueMapBuffer") else
  mret (take (Z.to_nat n) src ++ drop (Z.to_nat n) buffer).

Definition mmult (Cfg : Config) (APtr BPtr : list T) (AX AY BY : Z) : E (list T) :=
  ASz ← int (AX * AY);
  BSz ← int (AY * BY);
  CSz ← int (AX * BY);
  A ← Buffer 0 ASz;
  B ← Buffer 1 BSz;
  C ← Buffer 2 CSz;
  A ← copy_to APtr ASz A;
  B ← copy_to BPtr ASz B;
  enqueue (AX, BY) (LSZ Cfg, LSZ Cfg) A B C AX AY BY.

(** ** [main] *)
Definition rand_init (rnd : nat → Z) (n : nat) : list T := (λ i, of_int (rnd i)) <$> seq 0 n.

(** The first place where the results differ. *)
Fixpoint check_from (i : nat) (C CCPU : list T) : option nat :=
  match C, CCPU with
  | l :: C, r :: CCPU => if eqb l r then check_from (S i) C CCPU else Some i
  | _, _ => None
  end.

(** The generator is shared: the numbers of [B] come after those of [A]. *)
Definition main_body (Cfg : Config) (rnd : nat → Z) : E (option nat) :=
  ASz ← int (AX Cfg * AY Cfg); A ← vector ASz;
  BSz ← int (AY Cfg * BY Cfg); B ← vector BSz;
  CSz ← int (AX Cfg * BY Cfg); C ← vector CSz;
  let A := rand_init rnd (length A) in
  let B := rand_init (λ i, rnd (length A + i)%nat) (length B) in
  C ← mmult Cfg A B (AX Cfg) (AY Cfg) (BY Cfg);
  CCPU ← vector CSz;
  CCPU ← transpose_mult_ref A B CCPU (AX Cfg) (AY Cfg) (BY Cfg);
  mret (check_from 0 C CCPU).

(** Every exception is caught: the exit code. *)
Definition main (args : list string) (rnd : nat → Z) : option Z :=
  match readCfg args with
  | Throw _ => Some (-1)
  | Ok (Cfg, _) =>
    match main_body Cfg rnd with
    | Some (Ok None) => Some 0
    | Some _ => Some (-1)
    | None => None
    end
  end.
End host.

(** ** Facts *)
Lemma checked_bind {A B} (o : option A) (k : A → E B) a : o = Some a → (checked o ≫= k) = k a.
Proof. apply E_bind_checked. Qed.

Section fill.
Context {T : Type}.
Variables (h w len : Z) (pos : Z → Z → Z) (f : Z → Z → T) (body : Z → Z → list T → E (list T)).
Hypothesis pos_inj : ∀ i j i' j', 0 <= i < h → 0 <= j < w → 0 <= i' < h → 0 <= j' < w → pos i j = pos i' j' → i = i' ∧ j = j'.
Hypothesis body_is : ∀ i j b, 0 <= i < h → 0 <= j < w → Z.of_nat (length b) = len →
  ∃ b', body i j b = Some (Ok b') ∧ put b (pos i j) (f i j) = Some b'.

(** What the loops have filled before [i] and [j]. *)
Definition filled (i j : Z) (b : list T) : Prop :=
  Z.of_nat (length b) = len ∧
  ∀ i' j', 0 <= i' < h → 0 <= j' < w → i' < i ∨ i' = i ∧ j' < j → get b (pos i' j') = Some (f i' j').

Lemma filled_body i j b : 0 <= i < h → 0 <= j < w → filled i j b → ∃ b', body i j b = Some (Ok b') ∧ filled i (j + 1) b'.
Proof.
  intros Hi Hj [Hlen Hf]. destruct (body_is i j b Hi Hj Hlen) as (b' & Hb & Hput). exists b'. split; [done|].
  apply put_Some in Hput as (_ & Hlen' & Hget). split; [by rewrite Hlen'|]. intros i' j' Hi' Hj' Hlt. rewrite Hget.
  destruct (decide (pos i' j' = pos i j)) as [Heq|Hne].
  - by destruct (pos_inj i' j' i j Hi' Hj' Hi Hj Heq) as [-> ->].
  - apply Hf; [done|done|]. destruct Hlt as [|[-> Hlt]]; [by left|right]. split; [done|].
    destruct (Z.eq_dec j' j) as [->|]; [done|lia].
Qed.

Lemma fill_loops_run buf : Z.of_nat (length buf) = len →
  ∃ b, for_ (Z.to_nat h) 0 (λ i b, for_ (Z.to_nat w) 0 (λ j b, body i j b) b) buf = Some (Ok b) ∧
    Z.of_nat (length b) = len ∧ ∀ i j, 0 <= i < h → 0 <= j < w → get b (pos i j) = Some (f i j).
Proof.
  intros Hlen. destruct (for_run (λ i b, filled i 0 b) (λ i b, for_ (Z.to_nat w) 0 (λ j b, body i j b) b) (Z.to_nat h) 0 buf)
    as (b & Hb & [Hl Hf]).
  - split; [done|]. intros i' j' Hi' Hj' Hlt. lia.
  - intros i b Hi Hfill. destruct (for_run (λ j b, filled i j b) (λ j b, body i j b) (Z.to_nat w) 0 b) as (b' & Hb & [Hl Hf]).
    + done.
    + intros j b1 Hj Hb1. apply filled_body; [lia|lia|done].
    + exists b'. split; [done|]. split; [done|]. intros i' j' Hi' Hj' Hlt. apply Hf; [done|done|]. lia.
  - exists b. split; [done|]. split; [done|]. intros i j Hi Hj. apply Hf; [done|done|]. lia.
Qed.
End fill.

Section references.
Context {T P : Type} (zero : T) (add : T → P → T) (mul : T → T → P).
Variables (AX AY BY : Z) (A B : list T).
Hypothesis pos : 0 < AX ∧ 0 < AY ∧ 0 < BY.
Hypothesis fit : AX * AY < 2 ^ 31 ∧ AY * BY < 2 ^ 31 ∧ AX * BY < 2 ^ 31.
Hypothesis A_size : Z.of_nat (length A) = AX * AY.
Hypothesis B_size : Z.of_nat (length B) = AY * BY.

Abbreviation fa := (entry zero A AY).
Abbreviation fb := (entry zero B BY).
Abbreviation product := (product zero add mul AX BY fa fb).

Lemma read_run (m : list T) hh ww r c v : 0 <= r < hh → 0 <= c < ww → hh * ww < 2 ^ 31 →
  get m (r * ww + c) = Some v → at_ m r ww c = Some (Ok v).
Proof.
  intros Hr Hc Hs Hv. unfold at_. destruct (offset_run hh r ww c Hr Hc Hs) as [-> _].
  rewrite (checked_bind (Some (r * ww + c)) _ _ eq_refl). by rewrite Hv.
Qed.

Lemma write_run (m : list T) hh ww r c v : 0 <= r < hh → 0 <= c < ww → hh * ww < 2 ^ 31 → Z.of_nat (length m) = hh * ww →
  ∃ m', set_at m r ww c v = Some (Ok m') ∧ put m (r * ww + c) v = Some m'.
Proof.
  intros Hr Hc Hs Hm. unfold set_at. destruct (offset_run hh r ww c Hr Hc Hs) as [-> Hb].
  rewrite (checked_bind (Some (r * ww + c)) _ _ eq_refl). destruct (put_run m (r * ww + c) v) as [m' Hm']; [lia|].
  exists m'. by rewrite Hm'.
Qed.

(** The loop over [k]. *)
Lemma acc_run i j (y : Z → E T) : 0 <= i < AX → 0 <= j < BY → (∀ k, 0 <= k < AY → y k = Some (Ok (fb k j))) →
  for_ (Z.to_nat AY) 0 (λ k acc, x ← at_ A i AY k; y ← y k; mret (add acc (mul x y))) zero
  = Some (Ok (psum zero add mul fa fb (Z.to_nat AY) i j)).
Proof.
  intros Hi Hj Hy. destruct pos as (H1 & H2 & H3), fit as (F1 & F2 & F3).
  destruct (for_run (λ k acc, acc = psum zero add mul fa fb (Z.to_nat k) i j)
    (λ k acc, x ← at_ A i AY k; y ← y k; mret (add acc (mul x y))) (Z.to_nat AY) 0 zero) as (acc & Hacc & ->).
  - done.
  - intros k acc Hk ->. assert (Hk' : 0 <= k < AY) by lia.
    rewrite (E_bind_Ok _ _ _ (read_run A AX AY i k _ Hi Hk' F1 (element_is zero A AX AY i k A_size Hi Hk'))).
    rewrite (E_bind_Ok _ _ _ (Hy k Hk')). eexists. split; [reflexivity|]. simpl. apply psum_next. lia.
  - rewrite Hacc. by rewrite Z2Nat.id, Z.add_0_l by lia.
Qed.

(** The loops of a product. *)
Lemma loops_run (y : Z → Z → E T) C : (∀ k j, 0 <= k < AY → 0 <= j < BY → y k j = Some (Ok (fb k j))) →
  Z.of_nat (length C) = AX * BY →
  ∃ C', for_ (Z.to_nat AX) 0 (λ i C, for_ (Z.to_nat BY) 0 (λ j C,
      acc ← for_ (Z.to_nat AY) 0 (λ k acc, x ← at_ A i AY k; y ← y k j; mret (add acc (mul x y))) zero;
      set_at C i BY j acc) C) C = Some (Ok C') ∧ product AY C'.
Proof.
  intros Hy HC. destruct pos as (H1 & H2 & H3), fit as (F1 & F2 & F3).
  destruct (fill_loops_run AX BY (AX * BY) (λ i j, i * BY + j) (psum zero add mul fa fb (Z.to_nat AY))
    (λ i j C, acc ← for_ (Z.to_nat AY) 0 (λ k acc, x ← at_ A i AY k; y ← y k j; mret (add acc (mul x y))) zero; set_at C i BY j acc)) with C as (C' & Hrun & Hlen & Hget).
  - intros i j i' j' Hi Hj Hi' Hj'. by apply position_inj.
  - intros i j b Hi Hj Hb. rewrite (E_bind_Ok _ _ _ (acc_run i j (λ k, y k j) Hi Hj (λ k Hk, Hy k j Hk Hj))).
    by apply (write_run b AX).
  - done.
  - exists C'. by split.
Qed.

Lemma matrix_mult_ref_run C : Z.of_nat (length C) = AX * BY →
  ∃ C', matrix_mult_ref zero add mul A B C AX AY BY = Some (Ok C') ∧ product AY C'.
Proof.
  intros HC. destruct pos as (H1 & H2 & H3), fit as (F1 & F2 & F3). unfold matrix_mult_ref.
  rewrite E_bind_require.
  2: { by rewrite !(proj2 (Z.ltb_lt _ _)) by lia. }
  apply (loops_run (λ k j, at_ B k BY j)); [|done]. intros k j Hk Hj. apply (read_run B AY); [done..|]. by apply element_is with AY.
Qed.

Lemma tmp_run : ∃ tmp,
  for_ (Z.to_nat AY) 0 (λ i tmp, for_ (Z.to_nat BY) 0 (λ j tmp, v ← at_ B i BY j; set_at tmp j AY i v) tmp)
    (replicate (Z.to_nat (BY * AY)) zero) = Some (Ok tmp) ∧
  ∀ k j, 0 <= k < AY → 0 <= j < BY → get tmp (j * AY + k) = Some (fb k j).
Proof.
  destruct pos as (H1 & H2 & H3), fit as (F1 & F2 & F3).
  destruct (fill_loops_run AY BY (BY * AY) (λ i j, j * AY + i) fb (λ i j tmp, v ← at_ B i BY j; set_at tmp j AY i v))
    with (replicate (Z.to_nat (BY * AY)) zero) as (tmp & Hrun & _ & Hget).
  - intros i j i' j' Hi Hj Hi' Hj' Heq. destruct (position_inj AY j i j' i' Hi Hi' Heq). done.
  - intros i j b Hi Hj Hb.
    rewrite (E_bind_Ok _ _ _ (read_run B AY BY i j _ Hi Hj F2 (element_is zero B AY BY i j B_size Hi Hj))).
    apply (write_run b BY); [done|done|lia|done].
  - rewrite length_replicate. lia.
  - by exists tmp.
Qed.

Lemma transpose_mult_ref_run C : Z.of_nat (length C) = AX * BY →
  ∃ C', transpose_mult_ref zero add mul A B C AX AY BY = Some (Ok C') ∧ product AY C'.
Proof.
  intros HC. destruct pos as (H1 & H2 & H3), fit as (F1 & F2 & F3). unfold transpose_mult_ref.
  rewrite E_bind_require.
  2: { by rewrite !(proj2 (Z.ltb_lt _ _)) by lia. }
  rewrite (E_bind_Ok _ _ _ (int_ok (BY * AY) ltac:(unfold is_int; nia))).
  rewrite (E_bind_Ok (vector zero (BY * AY)) _ (replicate (Z.to_nat (BY * AY)) zero)).
  2: { unfold vector. by rewrite (proj2 (Z.ltb_ge _ _)) by nia. }
  destruct tmp_run as (tmp & Htmp & Hget). rewrite (E_bind_Ok _ _ _ Htmp).
  apply (loops_run (λ k j, at_ tmp j AY k)); [|done]. intros k j Hk Hj. apply (read_run tmp BY); [done|done|lia|by apply Hget].
Qed.
End references.

(** There is one product. *)
Lemma product_unique {T P} (zero : T) (add : T → P → T) mul AX BY fa fb n C C' : 0 <= AX → 0 <= BY →
  product zero add mul AX BY fa fb n C → product zero add mul AX BY fa fb n C' → C = C'.
Proof.
  intros HX HY [Hl Hg] [Hl' Hg']. apply list_eq. intros p. destruct (decide (p < length C)%nat) as [Hp|Hp].
  - assert (HBY : 0 < BY) by nia. pose proof (Z.mod_pos_bound (Z.of_nat p) BY HBY). pose proof (Z.div_mod (Z.of_nat p) BY ltac:(lia)) as Hd.
    assert (Hi : 0 <= Z.of_nat p / BY < AX) by nia.
    specialize (Hg _ _ Hi H). specialize (Hg' _ _ Hi H).
    replace (Z.of_nat p / BY * BY + Z.of_nat p `mod` BY) with (Z.of_nat p) in * by lia.
    apply get_Some in Hg as [_ Hg], Hg' as [_ Hg']. rewrite Nat2Z.id in *. congruence.
  - rewrite !lookup_ge_None_2; [done|lia|lia].
Qed.

(** The two references compute the same product, the second through a transposed copy. *)
Theorem references_agree {T P} (zero : T) (add : T → P → T) (mul : T → T → P) (AX AY BY : Z) (A B C C' : list T) :
  0 < AX ∧ 0 < AY ∧ 0 < BY → AX * AY < 2 ^ 31 ∧ AY * BY < 2 ^ 31 ∧ AX * BY < 2 ^ 31 →
  Z.of_nat (length A) = AX * AY → Z.of_nat (length B) = AY * BY →
  Z.of_nat (length C) = AX * BY → Z.of_nat (length C') = AX * BY →
  ∃ C1, matrix_mult_ref zero add mul A B C AX AY BY = Some (Ok C1) ∧
    transpose_mult_ref zero add mul A B C' AX AY BY = Some (Ok C1) ∧
    product zero add mul AX BY (entry zero A AY) (entry zero B BY) AY C1.
Proof.
  intros Hpos Hfit HA HB HC HC'.
  destruct (matrix_mult_ref_run zero add mul AX AY BY A B Hpos Hfit HA HB C HC) as (C1 & HP & Hprod).
  destruct (transpose_mult_ref_run zero add mul AX AY BY A B Hpos Hfit HA HB C' HC') as (C2 & HP' & Hprod').
  exists C1. split; [done|]. split; [|done]. rewrite HP'. do 2 f_equal. eapply product_unique; [| |done|done]; lia.
Qed.

Lemma references_agree_witness :
  ∃ P, matrix_mult_ref 0 Z.add Z.mul [1; 2; 3; 4; 5; 6] [7; 8; 9; 10; 11; 12] [0; 0; 0; 0] 2 3 2 = Some (Ok P) ∧
    transpose_mult_ref 0 Z.add Z.mul [1; 2; 3; 4; 5; 6] [7; 8; 9; 10; 11; 12] [5; 6; 7; 8] 2 3 2 = Some (Ok P) ∧
    product 0 Z.add Z.mul 2 2 (entry 0 [1; 2; 3; 4; 5; 6] 3) (entry 0 [7; 8; 9; 10; 11; 12] 2) 3 P.
Proof. apply references_agree; (done || lia). Defined.

(** ** The program *)
Inductive program := Simple | LocalMem.

Definition config_ok (c : Config) : Prop :=
  (0 < AX c ∧ 0 < AY c ∧ 0 < BY c) ∧ AX c * AY c < 2 ^ 31 ∧ AY c * BY c < 2 ^ 31 ∧ AX c * BY c < 2 ^ 31.

(** [mmult] up to the copy of [B]. *)
Lemma mmult_copies {T} fresh enqueue c (A B : list T) : config_ok c → (∀ k n, length (fresh k n) = n) →
  Z.of_nat (length A) = AX c * AY c →
  mmult fresh enqueue c A B (AX c) (AY c) (BY c) =
    (B ← copy_to B (AX c * AY c) (fresh 1%nat (Z.to_nat (AY c * BY c)));
     enqueue (AX c, BY c) (LSZ c, LSZ c) A B (fresh 2%nat (Z.to_nat (AX c * BY c))) (AX c) (AY c) (BY c)).
Proof.
  intros ((P1 & P2 & P3) & F1 & F2 & F3) Hf HA. unfold mmult.
  rewrite (E_bind_Ok _ _ _ (int_ok (AX c * AY c) ltac:(unfold is_int; nia))).
  rewrite (E_bind_Ok _ _ _ (int_ok (AY c * BY c) ltac:(unfold is_int; nia))).
  rewrite (E_bind_Ok _ _ _ (int_ok (AX c * BY c) ltac:(unfold is_int; nia))).
  assert (Hbuf : ∀ k n, 0 < n → Buffer fresh k n = Some (Ok (fresh k (Z.to_nat n)))).
  { intros k n Hn. unfold Buffer. by rewrite (proj2 (Z.leb_gt _ _)) by lia. }
  rewrite (E_bind_Ok _ _ _ (Hbuf 0%nat (AX c * AY c) ltac:(nia))).
  rewrite (E_bind_Ok _ _ _ (Hbuf 1%nat (AY c * BY c) ltac:(nia))).
  rewrite (E_bind_Ok _ _ _ (Hbuf 2%nat (AX c * BY c) ltac:(nia))).
  rewrite (E_bind_Ok (copy_to A _ _) _ A); [done|]. unfold copy_to. rewrite Hf.
  rewrite E_bind_require by (apply Z.leb_le; lia). rewrite (proj2 (Z.ltb_ge _ _)) by lia.
  rewrite take_ge, drop_ge by (rewrite ?Hf; lia). by rewrite app_nil_r.
Qed.

Section main.
Context {T P : Type} (zero : T) (add : T → P → T) (mul : T → T → P).
Variable fresh : nat → nat → list T.
Variable enqueue : Z * Z → Z * Z → list T → list T → list T → Z → Z → Z → E (list T).

(** What [cl::KernelFunctor] does with the text of a kernel, when it succeeds: the local sizes
    divide the global ones, and [C] is the global memory of an execution that has ended. The
    operations are those of the kernel's compiler, which may round the product or contract
    it with the sum. *)
Definition runtime (prog : program) : Prop := ∀ gs0 gs1 ls A B C AX AY BY C',
  enqueue (gs0, gs1) (ls, ls) A B C AX AY BY = Some (Ok C') →
  (0 < ls ∧ 0 < gs0 ∧ 0 < gs1 ∧ gs0 `mod` ls = 0 ∧ gs1 `mod` ls = 0) ∧
  match prog with
  | Simple => let K := gemm_simple add mul AY BY A B ls (gs1 / ls) in
    ∃ s', rtc (step K) (simple_start zero ls (num_groups (gs0 / ls) (gs1 / ls)) C) s' ∧ final K s' ∧ C' = global s'
  | LocalMem => let K := gemm_localmem add mul AY BY A B ls (gs1 / ls) in
    ∃ locals s', length locals = num_groups (gs0 / ls) (gs1 / ls) ∧
      Forall (λ sub : list T * list T, Z.of_nat (length sub.1) = ls * ls ∧ Z.of_nat (length sub.2) = ls * ls) locals ∧
      rtc (step K) (localmem_start zero ls C locals) s' ∧ final K s' ∧ C' = global s'
  end.

Variable prog : program.
Hypothesis is_runtime : runtime prog.
Hypothesis fresh_size : ∀ k n, length (fresh k n) = n.

(** What the kernel stores, in a buffer of the size of the product. *)
Lemma enqueue_run gs0 gs1 ls A B C AY C' : 0 <= AY → gs0 * AY < 2 ^ 31 → AY * gs1 < 2 ^ 31 → gs0 * gs1 < 2 ^ 31 →
  (prog = LocalMem → AY `mod` ls = 0) →
  Z.of_nat (length A) = gs0 * AY → Z.of_nat (length B) = AY * gs1 → Z.of_nat (length C) = gs0 * gs1 →
  enqueue (gs0, gs1) (ls, ls) A B C gs0 AY gs1 = Some (Ok C') →
  product zero add mul gs0 gs1 (entry zero A AY) (entry zero B gs1) AY C'.
Proof.
  intros H0 H1 H2 H3 Hdiv HA HB HC Hrun. apply is_runtime in Hrun as ((Hls & Hg0 & Hg1 & Hm0 & Hm1) & Hrun).
  pose proof (Z.div_mod gs0 ls ltac:(lia)) as Hd0. pose proof (Z.div_mod gs1 ls ltac:(lia)) as Hd1.
  assert (Hl : 0 < gs0 / ls ∧ 0 < gs1 / ls ∧ gs0 = gs0 / ls * ls ∧ gs1 = gs1 / ls * ls) by nia.
  destruct prog.
  - destruct Hrun as (s' & Hr & Hf & ->).
    assert (Hends : always_ends (gemm_simple add mul AY gs1 A B ls (gs1 / ls))
      (λ s, product zero add mul gs0 gs1 (entry zero A AY) (entry zero B gs1) AY (global s))
      (simple_start zero ls (num_groups (gs0 / ls) (gs1 / ls)) C)).
    { apply simple_run; try done; intros i j Hi Hj; by eapply element_is. }
    refine (always_ends_result _ _ _ s' _ _ Hends Hr Hf); [by intros g l []|done].
  - destruct Hrun as (locals & s' & Hn & Hlm & Hr & Hf & ->).
    assert (Hends : always_ends (gemm_localmem add mul AY gs1 A B ls (gs1 / ls))
      (λ s, product zero add mul gs0 gs1 (entry zero A AY) (entry zero B gs1) (ls * (AY / ls)) (global s))
      (localmem_start zero ls C locals)).
    { apply (localmem_run _ _ _ gs0 AY gs1 A B ls (gs0 / ls)); try done; intros i j Hi Hj; by eapply element_is. }
    assert (Heq : ls * (AY / ls) = AY) by (pose proof (Z.div_mod AY ls ltac:(lia)); specialize (Hdiv eq_refl); lia).
    rewrite Heq in Hends.
    refine (always_ends_result _ _ _ s' _ _ Hends Hr Hf); [|by intros []].
    intros g l p m [lm1 lm2]. by destruct p.
Qed.

(** The result of [mmult], whose copy of [B] has the length of that of [A]: when [A] is the
    larger there is none, when [B] is, the rest of the buffer is never written. *)
Lemma mmult_run c A B C' : config_ok c → (prog = LocalMem → AY c `mod` LSZ c = 0) →
  Z.of_nat (length A) = AX c * AY c → Z.of_nat (length B) = AY c * BY c →
  mmult fresh enqueue c A B (AX c) (AY c) (BY c) = Some (Ok C') →
  AX c <= BY c ∧
  let B' := take (Z.to_nat (AX c * AY c)) B ++ drop (Z.to_nat (AX c * AY c)) (fresh 1 (Z.to_nat (AY c * BY c))) in
  product zero add mul (AX c) (BY c) (entry zero A (AY c)) (entry zero B' (BY c)) (AY c) C'.
Proof.
  intros Hok Hdiv HA HB Hrun. rewrite (mmult_copies fresh enqueue c A B Hok fresh_size HA) in Hrun.
  destruct Hok as ((P1 & P2 & P3) & F1 & F2 & F3). unfold copy_to in Hrun. rewrite fresh_size in Hrun.
  destruct (Z.leb_spec (AX c * AY c) (Z.of_nat (length B))) as [Hle|]; [|done].
  rewrite E_bind_require in Hrun by done. rewrite (proj2 (Z.ltb_ge _ _)) in Hrun by nia.
  rewrite (E_bind_Ok (mret (take _ B ++ _)) _ _ eq_refl) in Hrun.
  split; [nia|]. revert Hrun. apply enqueue_run; [lia|done|done|done|done|done| |].
  - rewrite length_app, length_take, length_drop, fresh_size. nia.
  - rewrite fresh_size. nia.
Qed.
End main.

Lemma check_from_same {T} (eqb : T → T → bool) (xs : list T) : ∀ i, Forall (λ x, eqb x x = true) xs → check_from eqb i xs xs = None.
Proof. induction xs as [|x xs IH]; intros i H; [done|]. apply Forall_cons in H as [Hx H]. simpl. rewrite Hx. by apply IH. Qed.

(** Larger [A] than [B]: [BPtr + ASz] is not a pointer into the array. *)
Lemma mmult_undefined {T} fresh enqueue c (A B : list T) : config_ok c → (∀ k n, length (fresh k n) = n) →
  Z.of_nat (length A) = AX c * AY c → Z.of_nat (length B) = AY c * BY c → BY c < AX c →
  mmult fresh enqueue c A B (AX c) (AY c) (BY c) = None.
Proof.
  intros Hok Hf HA HB Hlt. rewrite (mmult_copies fresh enqueue c A B Hok Hf HA).
  destruct Hok as ((P1 & P2 & P3) & F1 & F2 & F3). unfold copy_to. by rewrite (proj2 (Z.leb_gt _ _)) by nia.
Qed.

(** The factors that are drawn. *)
Definition random_A {T} (of_int : Z → T) (c : Config) (rnd : nat → Z) : list T := rand_init of_int rnd (Z.to_nat (AX c * AY c)).
Definition random_B {T} (of_int : Z → T) (c : Config) (rnd : nat → Z) : list T :=
  rand_init of_int (λ i, rnd (Z.to_nat (AX c * AY c) + i)%nat) (Z.to_nat (AY c * BY c)).

Lemma gemm_body_run {T P} (zero : T) (add : T → P → T) mul eqb of_int fresh enqueue c rnd : config_ok c →
  main_body zero add mul eqb of_int fresh enqueue c rnd =
    (let A := random_A of_int c rnd in let B := random_B of_int c rnd in
     C ← mmult fresh enqueue c A B (AX c) (AY c) (BY c);
     CCPU ← transpose_mult_ref zero add mul A B (replicate (Z.to_nat (AX c * BY c)) zero) (AX c) (AY c) (BY c);
     mret (check_from eqb 0 C CCPU)).
Proof.
  intros ((P1 & P2 & P3) & F1 & F2 & F3). unfold main_body.
  assert (Hv : ∀ n, 0 <= n → vector zero n = Some (Ok (replicate (Z.to_nat n) zero))).
  { intros n Hn. unfold vector. by rewrite (proj2 (Z.ltb_ge _ _)) by lia. }
  rewrite (E_bind_Ok _ _ _ (int_ok (AX c * AY c) ltac:(unfold is_int; nia))), (E_bind_Ok _ _ _ (Hv (AX c * AY c) ltac:(nia))).
  rewrite (E_bind_Ok _ _ _ (int_ok (AY c * BY c) ltac:(unfold is_int; nia))), (E_bind_Ok _ _ _ (Hv (AY c * BY c) ltac:(nia))).
  rewrite (E_bind_Ok _ _ _ (int_ok (AX c * BY c) ltac:(unfold is_int; nia))), (E_bind_Ok _ _ _ (Hv (AX c * BY c) ltac:(nia))).
  cbv zeta. rewrite !length_replicate. unfold random_A, random_B.
  assert (Hl : ∀ n, length (rand_init of_int rnd n) = n) by (intros n; unfold rand_init; by rewrite length_fmap, length_seq).
  rewrite !Hl. destruct (mmult _ _ _ _ _ _ _ _) as [[C|e]|]; [|done..].
  rewrite !(E_bind_Ok (Some (Ok C)) _ _ eq_refl). by rewrite (E_bind_Ok _ _ _ (Hv (AX c * BY c) ltac:(nia))).
Qed.

(** ** Exact data *)

(** Integers from 0 to [bound] are values of [TYPE], on which a multiplication and an addition
    of the host or of the kernel make no error, contracted or not: [2 ^ 24] for [float]. *)
Record exact {T P} (zero : T) (add : T → P → T) (mul : T → T → P) (of_int : Z → T) (bound : Z) : Prop := {
  ex_zero : zero = of_int 0;
  ex_add : ∀ s x y, 0 <= s → 0 <= x → 0 <= y → s + x * y <= bound →
    add (of_int s) (mul (of_int x) (of_int y)) = of_int (s + x * y);
}.

Section exact.
Context {T P : Type} (zero : T) (add : T → P → T) (mul : T → T → P) (of_int : Z → T) (bound : Z).
Hypothesis is_exact : exact zero add mul of_int bound.
Variables a b : Z → Z → Z.
Hypothesis drawn : ∀ i j, 0 <= a i j <= 10 ∧ 0 <= b i j <= 10.

Lemma psum_exact n i j : 100 * Z.of_nat n <= bound →
  psum zero add mul (λ i k, of_int (a i k)) (λ k j, of_int (b k j)) n i j = of_int (psum 0 Z.add Z.mul a b n i j) ∧
  0 <= psum 0 Z.add Z.mul a b n i j <= 100 * Z.of_nat n.
Proof.
  induction n as [|n IH]; intros Hn; simpl; [split; [apply (ex_zero _ _ _ _ _ is_exact)|lia]|].
  destruct IH as [-> Hs]; [lia|]. destruct (drawn i (Z.of_nat n)) as [Ha _], (drawn (Z.of_nat n) j) as [_ Hb].
  split; [|nia]. apply (ex_add _ _ _ _ _ is_exact); nia.
Qed.
End exact.

(** What is drawn, and its elements. *)
Definition drawn_at (rnd : nat → Z) (m n : nat) (w i j : Z) : Z :=
  entry 0 ((λ k, rnd (m + k)%nat) <$> seq 0 n) w i j.

Lemma drawn_range rnd m n w i j : (∀ k, 0 <= rnd k <= 10) → 0 <= drawn_at rnd m n w i j <= 10.
Proof.
  intros H. unfold drawn_at, entry. destruct (get _ _) as [v|] eqn:Hv; simpl; [|lia].
  apply get_Some in Hv as [_ Hv]. apply list_lookup_fmap_Some in Hv as (k & -> & _). apply H.
Qed.

Lemma entry_drawn {T} (zero : T) of_int rnd m n w i j : zero = of_int 0 →
  entry zero (rand_init of_int (λ k, rnd (m + k)%nat) n) w i j = of_int (drawn_at rnd m n w i j).
Proof.
  intros H0. unfold drawn_at, entry, rand_init, get. destruct (0 <=? i * w + j); simpl; [|done].
  rewrite !list_lookup_fmap. by destruct (seq 0 n !! _).
Qed.

Lemma psum_ext {T P} (zero : T) (add : T → P → T) mul fa fb fa' fb' n i j : (∀ i j, fa i j = fa' i j) → (∀ i j, fb i j = fb' i j) →
  psum zero add mul fa fb n i j = psum zero add mul fa' fb' n i j.
Proof. intros Ha Hb. induction n as [|n IH]; simpl; [done|]. by rewrite IH, Ha, Hb. Qed.

(** The sum of the first [n] terms of an element of the product of the drawn factors. *)
Definition drawn_sum (c : Config) (rnd : nat → Z) (n : nat) : Z → Z → Z :=
  let nA := Z.to_nat (AX c * AY c) in
  psum 0 Z.add Z.mul (drawn_at rnd 0 nA (AY c)) (drawn_at rnd nA (Z.to_nat (AY c * BY c)) (BY c)) n.

Lemma drawn_psum {T P} zero add mul of_int bound c rnd n i j : @exact T P zero add mul of_int bound →
  (∀ k, 0 <= rnd k <= 10) → 100 * Z.of_nat n <= bound →
  psum zero add mul (entry zero (random_A of_int c rnd) (AY c)) (entry zero (random_B of_int c rnd) (BY c)) n i j
  = of_int (drawn_sum c rnd n i j) ∧ 0 <= drawn_sum c rnd n i j <= bound.
Proof.
  intros Hex Hr Hn. set (nA := Z.to_nat (AX c * AY c)).
  destruct (psum_exact zero add mul of_int bound Hex (drawn_at rnd 0 nA (AY c)) (drawn_at rnd nA (Z.to_nat (AY c * BY c)) (BY c))
    ltac:(intros; split; by apply drawn_range) n i j Hn) as [Heq Hs].
  split; [|unfold drawn_sum; cbv zeta; fold nA; lia]. unfold drawn_sum. cbv zeta. fold nA. rewrite <- Heq.
  pose proof (ex_zero _ _ _ _ _ Hex) as H0.
  apply psum_ext; intros i' j'; [apply (entry_drawn zero of_int rnd 0)|apply entry_drawn]; done.
Qed.

(** Both sides compute these sums. *)
Lemma drawn_product {T P} zero add mul of_int bound c rnd C : @exact T P zero add mul of_int bound →
  (∀ k, 0 <= rnd k <= 10) → 0 < AY c → 100 * AY c <= bound → 0 < BY c →
  product zero add mul (AX c) (BY c) (entry zero (random_A of_int c rnd) (AY c)) (entry zero (random_B of_int c rnd) (BY c)) (AY c) C →
  C = (λ p, of_int (drawn_sum c rnd (Z.to_nat (AY c)) (Z.of_nat p / BY c) (Z.of_nat p `mod` BY c))) <$> seq 0 (Z.to_nat (AX c * BY c)).
Proof.
  intros Hex Hr HA Hb HB [Hlen Hget]. apply list_eq. intros p. rewrite list_lookup_fmap.
  destruct (C !! p) as [x|] eqn:Hp.
  - apply lookup_lt_Some in Hp as Hlt. rewrite lookup_seq_lt by lia. simpl.
    pose proof (Z.mod_pos_bound (Z.of_nat p) (BY c) HB) as Hm. pose proof (Z.div_mod (Z.of_nat p) (BY c) ltac:(lia)) as Hd.
    specialize (Hget (Z.of_nat p / BY c) (Z.of_nat p `mod` BY c) ltac:(nia) Hm).
    replace (Z.of_nat p / BY c * BY c + Z.of_nat p `mod` BY c) with (Z.of_nat p) in Hget by lia.
    apply get_Some in Hget as [_ Hget]. rewrite Nat2Z.id, Hp in Hget. injection Hget as ->.
    by destruct (drawn_psum zero add mul of_int bound c rnd (Z.to_nat (AY c)) (Z.of_nat p / BY c) (Z.of_nat p `mod` BY c)
      Hex Hr ltac:(lia)) as [-> _].
  - apply lookup_ge_None in Hp. by rewrite lookup_seq_ge by lia.
Qed.

(** C37: [main] of the multiplication program, with any runtime that executes one of the two
    kernels (for [gemm_localmem.cl] the local size divides the inner one), on factors drawn
    from 0 to 10 whose sums of products the operations of [TYPE] compute exactly, on the host
    and, contracted or not, in the kernel: when the product is square and no call fails the
    check passes. When [A] is larger than [B] the program has no defined behaviour, since
    the end of [B] is computed with the size of [A]. *)
Theorem gemm_main_result {T P Pk} (zero : T) (add : T → P → T) (mul : T → T → P) (kadd : T → Pk → T) (kmul : T → T → Pk)
    eqb of_int bound fresh enqueue prog args rnd c rest :
  runtime zero kadd kmul enqueue prog → (∀ k n, length (fresh k n) = n) →
  exact zero add mul of_int bound → exact zero kadd kmul of_int bound → (∀ s, 0 <= s <= bound → eqb (of_int s) (of_int s) = true) →
  (∀ k, 0 <= rnd k <= 10) → readCfg args = Ok (c, rest) → config_ok c → 100 * AY c <= bound → (prog = LocalMem → AY c `mod` LSZ c = 0) →
  let main := main zero add mul eqb of_int fresh enqueue args rnd in
  (AX c = BY c → ∀ C, mmult fresh enqueue c (random_A of_int c rnd) (random_B of_int c rnd) (AX c) (AY c) (BY c) = Some (Ok C) →
    main = Some 0) ∧
  (BY c < AX c → main = None).
Proof.
  intros Hrt Hfresh Hex Hkex Heqb Hrnd Hcfg Hok Hbound Hdiv. cbv zeta. unfold main. rewrite Hcfg, gemm_body_run by done. cbv zeta.
  pose proof Hok as ((P1 & P2 & P3) & F1 & F2 & F3). set (A := random_A of_int c rnd). set (B := random_B of_int c rnd).
  assert (HA : Z.of_nat (length A) = AX c * AY c) by (unfold A, random_A, rand_init; rewrite length_fmap, length_seq; nia).
  assert (HB : Z.of_nat (length B) = AY c * BY c) by (unfold B, random_B, rand_init; rewrite length_fmap, length_seq; nia).
  split.
  - intros Hsq C Hmm. destruct (mmult_run zero kadd kmul fresh enqueue prog Hrt Hfresh c A B C Hok Hdiv HA HB Hmm) as [_ HC].
    cbv zeta in HC. rewrite take_ge, drop_ge, app_nil_r in HC by (rewrite ?Hfresh; nia).
    rewrite Hmm, (E_bind_Ok (Some (Ok C)) _ _ eq_refl).
    destruct (transpose_mult_ref_run zero add mul (AX c) (AY c) (BY c) A B ltac:(done) ltac:(done) HA HB
      (replicate (Z.to_nat (AX c * BY c)) zero)) as (C' & Href & HC'); [rewrite length_replicate; nia|].
    rewrite Href, (E_bind_Ok (Some (Ok C')) _ _ eq_refl).
    apply (drawn_product _ _ _ _ _ _ _ _ Hkex) in HC as ->; [|done..]. apply (drawn_product _ _ _ _ _ _ _ _ Hex) in HC' as ->; [|done..].
    rewrite check_from_same; [done|]. apply Forall_fmap, Forall_forall. intros p Hp. apply Heqb.
    by eapply (drawn_psum _ _ _ _ bound c rnd (Z.to_nat (AY c)) _ _ Hex Hrnd); lia.
  - intros Hlt. by rewrite mmult_undefined by done.
Qed.

(** A runtime for [gemm_localmem.cl] that lets the first item that can step go on. *)
Definition some_locals (gs0 gs1 ls : Z) : list (list Z * list Z) :=
  let tile := replicate (Z.to_nat (ls * ls)) 9 in replicate (num_groups (gs0 / ls) (gs1 / ls)) (tile, tile).
Definition run_in_order (gs0 gs1 ls : Z) (A B C : list Z) (AY BY : Z) : sys lpc (list Z) (list Z * list Z) :=
  exec (gemm_localmem Z.add Z.mul AY BY A B ls (gs1 / ls)) 1000 (localmem_start 0 ls C (some_locals gs0 gs1 ls)).
Definition in_order (gs ls : Z * Z) (A B C : list Z) (AX AY BY : Z) : E (list Z) :=
  let '(gs0, gs1) := gs in
  let '(ls0, ls1) := ls in
  if decide (ls0 = ls1 ∧ 0 < ls0 ∧ 0 < gs0 ∧ 0 < gs1 ∧ gs0 `mod` ls0 = 0 ∧ gs1 `mod` ls0 = 0) then
    let s := run_in_order gs0 gs1 ls0 A B C AY BY in
    if is_final (gemm_localmem Z.add Z.mul AY BY A B ls0 (gs1 / ls0)) s then mret (global s) else None
  else raise (cl_error "clEnqueueNDRangeKernel").

Lemma gemm_in_order_runtime : runtime 0 Z.add Z.mul in_order LocalMem.
Proof.
  intros gs0 gs1 ls A B C AX AY BY C' Hrun. unfold in_order in Hrun.
  destruct (decide _) as [(_ & H1 & H2 & H3 & H4 & H5)|]; [|done]. cbv zeta in Hrun.
  destruct (is_final _ _) eqn:Hf; [|done]. injection Hrun as <-. split; [done|].
  exists (some_locals gs0 gs1 ls), (run_in_order gs0 gs1 ls A B C AY BY). split; [apply length_replicate|]. split.
  - apply Forall_replicate. cbn [fst snd]. rewrite length_replicate. split; apply Z2Nat.id; nia.
  - split; [apply schedule_steps|]. split; [|reflexivity]. by apply is_final_true.
Qed.

(** Sizes 2, 4 and 2 with tiles of 2, and 4, 2 and 2. *)
Definition stale (k n : nat) : list Z := replicate n (Z.of_nat k).
Definition square : list string := ["-ax=2"; "-ay=4"; "-by=2"; "-lsz=2"; "-kernel=gemm_localmem.cl"].
Definition tall : list string := ["-ax=4"; "-ay=2"; "-by=2"; "-lsz=2"; "-kernel=gemm_localmem.cl"].

Definition digits (i : nat) : Z := Z.of_nat i `mod` 11.

Lemma gemm_main_result_witness :
  main 0 Z.add Z.mul Z.eqb id stale in_order square digits = Some 0 ∧
  main 0 Z.add Z.mul Z.eqb id stale in_order tall digits = None.
Proof.
  assert (Hex : exact 0 Z.add Z.mul id 400) by (by constructor).
  assert (Hd : ∀ k, 0 <= digits k <= 10) by (intros k; unfold digits; pose proof (Z.mod_pos_bound (Z.of_nat k) 11 eq_refl); lia).
  assert (Hf : ∀ k n, length (stale k n) = n) by (intros k n; apply length_replicate).
  assert (Hs : ∀ s, 0 <= s <= 400 → Z.eqb (id s) (id s) = true) by (intros s _; apply Z.eqb_refl).
  split.
  - apply (gemm_main_result 0 Z.add Z.mul Z.add Z.mul Z.eqb id 400 stale in_order LocalMem square digits
      (mkConfig 2 4 2 2 "gemm_localmem.cl") [] gemm_in_order_runtime Hf Hex Hex Hs Hd eq_refl) with (C := [21; 16; 109; 76]);
      (unfold config_ok; simpl; lia) || (vm_compute; reflexivity).
  - apply (gemm_main_result 0 Z.add Z.mul Z.add Z.mul Z.eqb id 400 stale in_order LocalMem tall digits
      (mkConfig 4 2 2 2 "gemm_localmem.cl") [] gemm_in_order_runtime Hf Hex Hex Hs Hd eq_refl);
      (unfold config_ok; simpl; lia) || (vm_compute; reflexivity).
Defined.
