(* ===== verification/OclVadd.v ===== *)
(** * Adding vectors: [src/11-compute/cl_vectoradd.cc]

    The kernel is a string of the program. Each work-item stores one element, and makes a
    group of its own. *)

From S2P Require Import Prelude CInt Ocl OclGemm.

Definition ARR_SIZE : nat := 64.
Definition LOCAL_SIZE : nat := 1.

(** ** The kernel [vector_add] *)
Inductive vpc := Add | Added.

Definition vector_add_step (A B : list Z) (g l : nat) (p : vpc) (C : list Z) (u : ()) : option (vpc * list Z * ()) :=
  match p with
  | Add =>
    let i := Z.of_nat g * Z.of_nat LOCAL_SIZE + Z.of_nat l in
    a ← get A i; b ← get B i;
    if (- 2 ^ 31 <=? a + b) && (a + b <? 2 ^ 31) then (C ← put C i (a + b); Some (Added, C, u)) else None
  | Added => None
  end.
Definition is_added (p : vpc) : bool := match p with Added => true | Add => false end.
Definition vector_add (A B : list Z) : kernel vpc (list Z) () :=
  Kernel (vector_add_step A B) (λ _, None) (λ _ _ _, None) is_added.
Definition vector_add_start (n : nat) (C : list Z) : sys vpc (list Z) () :=
  start C (replicate n ()) LOCAL_SIZE (λ _ _, Add).

(** ** The host *)
Section host.
(** [fresh n] is what a buffer of [n] elements holds when it is created; [enqueue A B C n]
    runs the kernel on [n] work-items and gives what [C] holds then. *)
Variable fresh : nat → list Z.
Variable enqueue : list Z → list Z → list Z → nat → E (list Z).

(** [cl::copy(queue, p, p + n, buffer)] *)
Definition first (p : list Z) (n : nat) : option (list Z) := if decide (n <= length p)%nat then Some (take n p) else None.

Definition vadd (APtr BPtr : list Z) (Sz : nat) : E (list Z) :=
  let C := fresh Sz in
  A ← checked (first APtr Sz); B ← checked (first BPtr Sz);
  enqueue A B C Sz.

(** [std::iota] forwards and backwards. *)
Definition src1 : list Z := seqZ 0 (Z.of_nat ARR_SIZE).
Definition src2 : list Z := reverse (seqZ 0 (Z.of_nat ARR_SIZE)).

Fixpoint check (i : nat) (dst src1 src2 : list Z) : option nat :=
  match dst, src1, src2 with
  | lhs :: dst, x :: src1, y :: src2 => if lhs =? x + y then check (S i) dst src1 src2 else Some i
  | _, _, _ => None
  end.

(** Every exception is caught. *)
Definition main : option Z :=
  match vadd src1 src2 ARR_SIZE with
  | Some (Ok dst) => Some (if check 0 dst src1 src2 then -1 else 0)
  | Some (Throw _) => Some (-1)
  | None => None
  end.
End host.

(** ** The kernel adds *)
Section adds.
Variables (A B : list Z) (n : nat).
Hypothesis A_size : length A = n.
Hypothesis B_size : length B = n.
Hypothesis fits : ∀ i a b, A !! i = Some a → B !! i = Some b → is_int (a + b).

(** The item of a group has stored its sum, or not yet. *)
Record vinv (s : sys vpc (list Z) ()) : Prop := {
  vi_groups : length (groups s) = n;
  vi_size : length (global s) = n;
  vi_item : ∀ g u pcs, groups s !! g = Some (u, pcs) → ∃ p, pcs = [p] ∧
    (p = Added → global s !! g = zip_with Z.add A B !! g) }.

Lemma item_sum g : (g < n)%nat → ∃ a b, A !! g = Some a ∧ B !! g = Some b ∧ is_int (a + b).
Proof.
  intros Hg. destruct (lookup_lt_is_Some_2 A g) as [a Ha]; [lia|]. destruct (lookup_lt_is_Some_2 B g) as [b Hb]; [lia|].
  exists a, b. split; [done|]. split; [done|]. by apply (fits g).
Qed.

Lemma get_nat (m : list Z) g : get m (Z.of_nat g * Z.of_nat LOCAL_SIZE + Z.of_nat 0) = m !! g.
Proof. unfold get, LOCAL_SIZE. rewrite (proj2 (Z.leb_le _ _)) by lia. f_equal. lia. Qed.

Lemma item_adds g u (C : list Z) : (g < n)%nat → length C = n → ∃ v,
  vector_add_step A B g 0 Add C u = Some (Added, <[g := v]> C, u) ∧ zip_with Z.add A B !! g = Some v.
Proof.
  intros Hg HC. destruct (item_sum g Hg) as (a & b & Ha & Hb & Hlo & Hhi). exists (a + b). unfold vector_add_step.
  rewrite !get_nat, Ha. simpl. rewrite Hb. simpl. rewrite (proj2 (Z.leb_le _ _)), (proj2 (Z.ltb_lt _ _)) by done. simpl.
  unfold put. change 0 with (Z.of_nat 0). rewrite get_nat. destruct (lookup_lt_is_Some_2 C g) as [c ->]; [lia|]. simpl. split.
  - do 4 f_equal. unfold LOCAL_SIZE. lia.
  - rewrite lookup_zip_with, Ha. simpl. by rewrite Hb.
Qed.

Lemma vadd_run C : length C = n →
  always_ends (vector_add A B) (λ s, global s = zip_with Z.add A B) (vector_add_start n C).
Proof.
  intros HC. apply (always_ends_by _ vinv _ (weight (λ _ _ p, if is_added p then 0 else 1))).
  - intros s _. apply weight_nonneg. intros g l p. destruct (is_added p); lia.
  - intros s [H1 H2 H3]. destruct (decide (Forall (λ gr, Forall (λ p, is_added p = true) gr.2) (groups s))) as [Hf|Hn].
    { left. intros g lm pcs Hg. rewrite Forall_lookup in Hf. exact (Hf g _ Hg). }
    right. apply not_Forall_Exists in Hn; [|intros x; apply _]. apply Exists_exists in Hn as ([u pcs] & Hin & Hn).
    apply list_elem_of_lookup in Hin as [g Hg]. destruct (H3 g u pcs Hg) as ([] & -> & _).
    + apply lookup_lt_Some in Hg as Hlt. destruct (item_adds g u (global s)) as (v & Hs & _); [lia|done|].
      eexists. exact (step_item (vector_add A B) s g 0 u [Add] Add Added _ u Hg eq_refl Hs).
    + exfalso. apply Hn. by constructor.
  - intros s s' [H1 H2 H3] Hs. split.
    2: { apply (weight_step (vector_add A B)); [|done|exact Hs]. intros g l [] m lm p' m' lm' Hi; [|done].
         simpl in Hi. apply bind_Some in Hi as (? & _ & Hi). apply bind_Some in Hi as (? & _ & Hi).
         destruct (_ && _); [|done]. apply bind_Some in Hi as (? & _ & Hi). by injection Hi as <- <- <-. }
    destruct Hs as [g l u pcs p p' C' u' Hg Hl Hs|g u pcs pcs' b Hg Hne Hb _].
    2: { destruct pcs; [done|]. by apply Forall_cons in Hb as [Hb _]. }
    destruct (H3 g u pcs Hg) as (p0 & -> & _). destruct l as [|l]; [|done]. injection Hl as ->. destruct p; [|done].
    apply lookup_lt_Some in Hg as Hlt. destruct (item_adds g u (global s)) as (v & Hs' & Hv); [lia|done|].
    cbn [item_step vector_add] in Hs. rewrite Hs' in Hs. injection Hs as <- <- <-. split; simpl.
    + by rewrite length_insert.
    + by rewrite length_insert.
    + intros g2 u2 pcs2 Hg2. apply lookup_update in Hg2 as [[-> [= -> ->]]|[Hne Hg2]].
      * exists Added. split; [done|]. intros _. rewrite Hv. apply list_lookup_insert_eq. lia.
      * destruct (H3 g2 u2 pcs2 Hg2) as (p2 & -> & Hp2). exists p2. split; [done|]. intros Heq.
        rewrite list_lookup_insert_ne by done. by apply Hp2.
  - intros s [H1 H2 H3] Hf. apply list_eq. intros g. destruct (decide (g < n)%nat) as [Hg|Hg].
    + destruct (lookup_lt_is_Some_2 (groups s) g) as [[u pcs] Hgs]; [lia|]. destruct (H3 g u pcs Hgs) as (p & -> & Hp).
      apply Hp. specialize (Hf g u [p] Hgs). apply Forall_cons in Hf as [Hf _]. by destruct p.
    + rewrite !lookup_ge_None_2; [done|rewrite length_zip_with; lia|lia].
  - split; unfold vector_add_start, start; simpl.
    + by rewrite length_imap, length_replicate.
    + done.
    + intros g u pcs Hg. rewrite list_lookup_imap in Hg. apply fmap_Some in Hg as (u' & _ & [= -> ->]). by exists Add.
Qed.
End adds.

(** The check of the program passes, whatever the order of the work-items. *)
Definition runtime (enqueue : list Z → list Z → list Z → nat → E (list Z)) : Prop := ∀ A B C n C',
  enqueue A B C n = Some (Ok C') →
  ∃ s', rtc (step (vector_add A B)) (vector_add_start n C) s' ∧ final (vector_add A B) s' ∧ C' = global s'.

Lemma src_sizes : length src1 = ARR_SIZE ∧ length src2 = ARR_SIZE.
Proof. done. Qed.

Lemma src_fits i a b : src1 !! i = Some a → src2 !! i = Some b → is_int (a + b).
Proof.
  intros Ha Hb.
  assert (Hall : Forall (λ x, 0 <= x < 64) src1 ∧ Forall (λ x, 0 <= x < 64) src2) by (split; repeat (constructor; [lia|]); constructor).
  destruct Hall as [H1 H2]. pose proof (Forall_lookup_1 _ _ _ _ H1 Ha). pose proof (Forall_lookup_1 _ _ _ _ H2 Hb).
  simpl in *. unfold is_int. lia.
Qed.

Theorem vadd_main_passes fresh enqueue dst : runtime enqueue → (∀ n, length (fresh n) = n) →
  vadd fresh enqueue src1 src2 ARR_SIZE = Some (Ok dst) → main fresh enqueue = Some 0.
Proof.
  intros Hrt Hfresh Hrun. unfold main. rewrite Hrun. unfold vadd in Hrun. destruct src_sizes as [H1 H2].
  rewrite (E_bind_checked (first src1 ARR_SIZE) _ src1 eq_refl), (E_bind_checked (first src2 ARR_SIZE) _ src2 eq_refl) in Hrun.
  apply Hrt in Hrun as (s' & Hr & Hf & ->).
  rewrite (always_ends_result (vector_add src1 src2) (λ s, global s = zip_with Z.add src1 src2) _ s' ltac:(by intros g l [])
    ltac:(done) (vadd_run src1 src2 ARR_SIZE H1 H2 src_fits (fresh ARR_SIZE) (Hfresh _)) Hr Hf).
  reflexivity.
Qed.
