(* ===== verification/Meta.v ===== *)
(** * Programs that run in the compiler: [src/18-constexpr] and [src/archive/14-constexpr]

    A template that calls itself is a function with the number of nested instantiations that
    the compiler allows: without a specialisation that fits, with a value that is no [int] or
    with no instantiations left the program is ill-formed and there is no result. *)

From Stdlib Require Import Ascii Znumtheory.
From S2P Require Import Prelude CInt.

Module Meta.
(** ** [isqrt.cc]: [Sqrt<N, L, H, mid>]

    The names of both instantiations are formed, with their default [mid]; the one that the
    condition selects is instantiated. *)
Definition default_mid (L H : Z) : E Z := a ← int (L + H); a ← int (a + 1); idiv a 2.

Fixpoint Sqrt (depth : nat) (N L H mid : Z) : E Z :=
  match depth with
  | O => None
  | S depth =>
    if (L =? H) && (mid =? L) then mret L
    else
      H1 ← int (mid - 1); mid1 ← default_mid L H1;
      mid2 ← default_mid mid H;
      sq ← int (mid * mid);
      if N <? sq then Sqrt depth N L H1 mid1 else Sqrt depth N mid H mid2
  end.
Definition Sqrt_of (depth : nat) (N : Z) : E Z := mid ← default_mid 1 N; Sqrt depth N 1 N mid.

(** ** [fact.cc] and [fib.cc] *)
Fixpoint fact (depth : nat) (N : Z) : E Z :=
  match depth with
  | O => None
  | S depth => if N =? 0 then mret 1 else n ← int (N - 1); f ← fact depth n; int (N * f)
  end.

Fixpoint fibonacci (depth : nat) (N : Z) : E Z :=
  match depth with
  | O => None
  | S depth =>
    if N =? 0 then mret 0
    else if N =? 1 then mret 1
    else n ← int (N - 1); a ← fibonacci depth n; n ← int (N - 2); b ← fibonacci depth n; int (a + b)
  end.

(** ** [fibmodulo.cc], in [unsigned]: at compile time and at run time *)
Definition umod (a b m : Z) : E Z := if m =? 0 then None else mret (((a + b) `mod` 2 ^ 32) `mod` m).

Fixpoint Fibonacci (depth : nat) (N Mod : Z) : E Z :=
  match depth with
  | O => None
  | S depth =>
    if N =? 0 then mret 0
    else if N =? 1 then mret 1
    else a ← Fibonacci depth (N - 1) Mod; b ← Fibonacci depth (N - 2) Mod; umod a b Mod
  end.

Fixpoint fib_naive_mod (n : nat) (m : Z) : E Z :=
  match n with
  | 0%nat => mret 0
  | 1%nat => mret 1
  | S (S n2 as n1) => a ← fib_naive_mod n1 m; b ← fib_naive_mod n2 m; umod a b m
  end.

(** ** [binsuffix_ce.cc] and [binsuffix_types.cc]: the characters of a literal *)
Fixpoint binary_loop (sum : Z) (chars : list ascii) : E Z :=
  match chars with
  | [] => mret sum
  | "0"%char :: chars => sum ← int (sum * 2); binary_loop sum chars
  | "1"%char :: chars => sum ← int (sum * 2); sum ← int (sum + 1); binary_loop sum chars
  | _ :: _ => raise (runtime_error "Unexpected symbol")
  end.
Definition binary_ce (chars : list ascii) : E Z := binary_loop 0 chars.

Fixpoint binparser (depth : nat) (Sum : Z) (chars : list ascii) : E Z :=
  match depth with
  | O => None
  | S depth =>
    match chars with
    | [] => mret Sum
    | "0"%char :: Rest => s ← int (Sum * 2); binparser depth s Rest
    | "1"%char :: Rest => s ← int (Sum * 2); s ← int (s + 1); binparser depth s Rest
    | _ :: _ => None
    end
  end.
Definition binary_types (depth : nat) (chars : list ascii) : E Z := binparser depth 0 chars.

(** ** [static-log.cc], in 64 bits *)
Fixpoint log_loop (pos : nat) (N : Z) : E (Z * Z) :=
  match pos with
  | O => None
  | S pos =>
    let mask := Z.shiftl 1 (Z.of_nat pos) in
    if Z.land N mask =? mask then mret (Z.of_nat pos, mask) else log_loop pos N
  end.
Definition static_log (N : Z) : E Z :=
  if N =? 0 then raise (runtime_error "N == 0 not supported")
  else '(pos, mask) ← log_loop 64 N; mret (if N =? mask then pos else pos + 1).

(** ** [unruh.cc]: the value of [is_prime<p, i>::prim], whose inner instantiation is made
    whatever the other operands are *)
Fixpoint is_prime (depth : nat) (p i : Z) : E bool :=
  match depth with
  | O => None
  | S depth =>
    if (p =? 0) && ((i =? 0) || (i =? 1)) then mret true
    else
      n ← int (i - 1);
      prim ← is_prime depth (if 2 <? i then p else 0) n;
      if p =? 2 then mret true
      else r ← irem p i; mret (negb (r =? 0) && prim)
  end.

(** The [D<i>] that [Prime_print<n>] cannot initialise, in the order of the calls of [f]: the
    value of [CondNull<1>] is not a pointer. [depth] instantiations are left for [is_prime]. *)
Fixpoint Prime_print (depth n : nat) : E (list Z) :=
  match n with
  | O => None
  | 1%nat => mret []
  | S (_ as m) =>
    a ← Prime_print depth m;
    prim ← is_prime depth (Z.of_nat n) (Z.of_nat n - 1);
    mret (if prim : bool then Z.of_nat n :: a else a)
  end.
End Meta.
Import Meta.

Example Sqrt_16 : Sqrt_of 18 16 = Some (Ok 4). Proof. reflexivity. Qed.
Example binary_202 : binary_ce (String.list_ascii_of_string "11001010") = Some (Ok 202). Proof. reflexivity. Qed.
Example log_128 : static_log 128 = Some (Ok 7). Proof. reflexivity. Qed.
Example primes_70 : Prime_print 70 70
  = Some (Ok [67; 61; 59; 53; 47; 43; 41; 37; 31; 29; 23; 19; 17; 13; 11; 7; 5; 3; 2]).
Proof. vm_compute. reflexivity. Qed.
(** Modulo one, the first number is not reduced. *)
Example fib_naive_mod_1 : fib_naive_mod 1 1 = Some (Ok 1) ∧ fib_naive_mod 2 1 = Some (Ok 0). Proof. done. Qed.

(** ** [Sqrt] *)
Lemma default_mid_ok L H : 0 <= L + H → L + H + 1 < 2 ^ 31 → default_mid L H = Some (Ok ((L + H + 1) / 2)).
Proof.
  intros H0 H1. unfold default_mid.
  rewrite (E_bind_Ok _ _ _ (int_ok (L + H) ltac:(unfold is_int; lia))), (E_bind_Ok _ _ _ (int_ok (L + H + 1) ltac:(unfold is_int; lia))).
  apply idiv_ok; unfold is_int; lia.
Qed.

Lemma Sqrt_run depth N L H : 1 <= L <= H → H <= 92679 → N <= 92679 → L * L <= N → N < (H + 1) * (H + 1) →
  (L + H + 1) / 2 <= 46340 → H - L < 2 ^ Z.of_nat depth →
  Sqrt (S depth) N L H ((L + H + 1) / 2) = Some (Ok (Z.sqrt N)).
Proof.
  revert L H. induction depth as [|depth IH]; intros L H HL HH HN Hlo Hhi Hmid Hd;
    destruct (Z.eqb_spec L H) as [->|Hne].
  1, 3: replace ((H + H + 1) / 2) with H by (apply Z.div_unique with 1; lia); cbn [Sqrt]; rewrite Z.eqb_refl; simpl;
        apply (f_equal (λ r, Some (Ok r))); symmetry; apply Z.sqrt_unique; lia.
  - exfalso. change (2 ^ Z.of_nat 0) with 1 in Hd. lia.
  - set (mid := (L + H + 1) / 2) in *. cbn [Sqrt]. fold Sqrt. rewrite (proj2 (Z.eqb_neq L H) Hne). cbn [andb].
    assert (Hm : L + 1 <= mid <= H ∧ 2 * mid <= L + H + 1 < 2 * mid + 2).
    { pose proof (Z.div_mod (L + H + 1) 2 ltac:(lia)). pose proof (Z.mod_pos_bound (L + H + 1) 2 ltac:(lia)). lia. }
    rewrite Nat2Z.inj_succ, Z.pow_succ_r in Hd by lia.
    rewrite (E_bind_Ok _ _ _ (int_ok (mid - 1) ltac:(unfold is_int; lia))).
    rewrite (E_bind_Ok _ _ _ (default_mid_ok L (mid - 1) ltac:(lia) ltac:(lia))).
    rewrite (E_bind_Ok _ _ _ (default_mid_ok mid H ltac:(lia) ltac:(lia))).
    rewrite (E_bind_Ok _ _ _ (int_ok (mid * mid) ltac:(unfold is_int; nia))).
    destruct (Z.ltb_spec N (mid * mid)).
    + apply IH; try lia. transitivity mid; [|done]. apply Z.div_le_upper_bound; lia.
    + assert (mid <= 304) by nia. apply IH; try lia. apply Z.div_le_upper_bound; lia.
Qed.

(** What an arithmetic that has a value is. *)
Lemma int_Some z x : int z = Some x → x = Ok z.
Proof. unfold int. destruct (_ && _); [|done]. by intros [= <-]. Qed.

Lemma default_mid_Some L H x : default_mid L H = Some x → x = Ok (Z.quot (L + H + 1) 2).
Proof.
  unfold default_mid, idiv. destruct (int (L + H)) eqn:H1; [apply int_Some in H1 as ->|done].
  rewrite (E_bind_Ok (Some (Ok (L + H))) _ _ eq_refl). destruct (int (L + H + 1)) eqn:H2; [apply int_Some in H2 as ->|done].
  rewrite (E_bind_Ok (Some (Ok (L + H + 1))) _ _ eq_refl). simpl. apply int_Some.
Qed.

(** From a bound that is not positive the interval never becomes a point. *)
Lemma Sqrt_never depth N H : N <= 0 → H <= 0 → (N = 0 → H = 0) → Sqrt depth N 1 H (Z.quot (1 + H + 1) 2) = None.
Proof.
  revert H. induction depth as [|depth IH]; intros H HN HH H0; [done|]. set (mid := Z.quot (1 + H + 1) 2). cbn [Sqrt].
  rewrite (proj2 (Z.eqb_neq 1 H)) by lia. cbn [andb].
  destruct (int (mid - 1)) eqn:H1; [apply int_Some in H1 as ->|done]. rewrite (E_bind_Ok (Some (Ok (mid - 1))) _ _ eq_refl).
  destruct (default_mid 1 (mid - 1)) eqn:H2; [apply default_mid_Some in H2 as ->|done].
  rewrite (E_bind_Ok (Some (Ok (Z.quot (1 + (mid - 1) + 1) 2))) _ _ eq_refl).
  destruct (default_mid mid H) as [x|] eqn:H3; [apply default_mid_Some in H3 as ->|done].
  rewrite (E_bind_Ok (Some (Ok (Z.quot (mid + H + 1) 2))) _ _ eq_refl).
  destruct (int (mid * mid)) eqn:H4; [apply int_Some in H4 as ->|done]. rewrite (E_bind_Ok (Some (Ok (mid * mid))) _ _ eq_refl).
  assert (Hm : mid <= 1) by (unfold mid; apply Z.quot_le_upper_bound; lia).
  assert (Hm0 : N = 0 → mid = 1) by (intros ->; unfold mid; by rewrite H0).
  rewrite (proj2 (Z.ltb_lt _ _)) by (destruct (Z.eq_dec N 0) as [->|]; [rewrite Hm0; lia|nia]).
  apply IH; [lia|lia|]. intros ->. rewrite Hm0; lia.
Qed.

(** From a bound that is too large the first square is no [int]. *)
Lemma Sqrt_overflow depth N : 92680 <= N → Sqrt_of depth N = None.
Proof.
  intros HN. unfold Sqrt_of. destruct (default_mid 1 N) eqn:H1; [apply default_mid_Some in H1 as ->|done].
  rewrite (E_bind_Ok (Some (Ok (Z.quot (1 + N + 1) 2))) _ _ eq_refl). set (mid := Z.quot (1 + N + 1) 2).
  assert (Hm : 46341 <= mid) by (unfold mid; apply Z.quot_le_lower_bound; lia).
  destruct depth as [|depth]; [done|]. cbn [Sqrt]. rewrite (proj2 (Z.eqb_neq 1 N)) by lia. cbn [andb].
  destruct (int (mid - 1)) eqn:H1; [apply int_Some in H1 as ->|done]. rewrite (E_bind_Ok (Some (Ok (mid - 1))) _ _ eq_refl).
  destruct (default_mid 1 (mid - 1)) eqn:H2; [apply default_mid_Some in H2 as ->|done].
  rewrite (E_bind_Ok (Some (Ok (Z.quot (1 + (mid - 1) + 1) 2))) _ _ eq_refl).
  destruct (default_mid mid N) as [x|] eqn:H3; [apply default_mid_Some in H3 as ->|done].
  rewrite (E_bind_Ok (Some (Ok (Z.quot (mid + N + 1) 2))) _ _ eq_refl).
  destruct (int (mid * mid)) eqn:H4; [|done]. unfold int in H4. exfalso.
  rewrite (proj2 (Z.ltb_ge (mid * mid) _)) in H4 by nia. by rewrite andb_false_r in H4.
Qed.

(** The root is found exactly for 1 to 92679, by 18 nested instantiations; zero and negative
    numbers recur for ever. *)
Theorem Sqrt_is_sqrt N depth : (18 <= depth)%nat →
  Sqrt_of depth N = if decide (1 <= N <= 92679) then Some (Ok (Z.sqrt N)) else None.
Proof.
  intros Hd. destruct (decide (1 <= N <= 92679)) as [HN|HN].
  - unfold Sqrt_of. rewrite (E_bind_Ok _ _ _ (default_mid_ok 1 N ltac:(lia) ltac:(lia))).
    destruct depth as [|depth]; [lia|]. apply Sqrt_run; try nia.
    + Z.to_euclidean_division_equations. lia.
    + apply Z.lt_le_trans with (2 ^ 17); [lia|]. apply Z.pow_le_mono_r; lia.
  - destruct (Z.le_gt_cases N 0) as [H0|H0]; [|apply Sqrt_overflow; lia].
    unfold Sqrt_of. destruct (default_mid 1 N) eqn:H1; [apply default_mid_Some in H1 as ->|done].
    rewrite (E_bind_Ok (Some (Ok (Z.quot (1 + N + 1) 2))) _ _ eq_refl). apply Sqrt_never; lia.
Qed.

(** ** [fact] *)
Lemma int_is z x : int z = Some x → is_int z.
Proof.
  unfold int, is_int. destruct (Z.leb_spec (- 2 ^ 31) z), (Z.ltb_spec z (2 ^ 31)); done.
Qed.

(** Two computations one after the other, when both have values. *)
Lemma bind_value {A B} (m : E A) (k : A → E B) y : (∀ x, m = Some x → ∃ a, x = Ok a) → (m ≫= k) = Some y →
  ∃ a, m = Some (Ok a) ∧ k a = Some y.
Proof.
  intros Hm Hk. destruct m as [x|]; [|done]. destruct (Hm x eq_refl) as [a ->]. by exists a.
Qed.

Lemma int_value z x : int z = Some x → ∃ a, x = Ok a.
Proof. intros H. apply int_Some in H as ->. by eexists. Qed.

Definition factorial (n : Z) : Z := Z.of_nat (Factorial.fact (Z.to_nat n)).

Lemma factorial_next n : 0 < n → factorial n = n * factorial (n - 1).
Proof.
  intros Hn. unfold factorial. set (m := Z.to_nat (n - 1)). replace (Z.to_nat n) with (S m) by lia.
  change (Factorial.fact (S m)) with (S m * Factorial.fact m)%nat. rewrite Nat2Z.inj_mul.
  by replace (Z.of_nat (S m)) with n by lia.
Qed.

Lemma fact_value depth N x : fact depth N = Some x → 0 <= N ∧ x = Ok (factorial N) ∧ is_int (factorial N).
Proof.
  revert N x. induction depth as [|depth IH]; intros N x Hx; [done|]. cbn [fact] in Hx.
  destruct (Z.eqb_spec N 0) as [->|HN]; [injection Hx as <-; split; [done|]; split; [done|]; change (factorial 0) with 1; unfold is_int; lia|].
  apply (bind_value _ _ _ (int_value _)) in Hx as (n & Hn & Hx). apply int_Some in Hn. injection Hn as ->.
  apply bind_value in Hx as (f & Hf & Hx); [|intros y Hy; destruct (IH _ _ Hy) as (_ & -> & _); by eexists].
  destruct (IH _ _ Hf) as (H0 & [= ->] & _). pose proof (int_is _ _ Hx) as Hi. apply int_Some in Hx as ->.
  rewrite <-factorial_next in * by lia. split; [lia|done].
Qed.

Lemma fact_defined n depth : (n < depth)%nat → is_int (factorial (Z.of_nat n)) → ∃ x, fact depth (Z.of_nat n) = Some x.
Proof.
  revert depth. induction n as [|n IH]; intros [|depth] Hd Hi; [lia|by eexists|lia|]. cbn [fact].
  rewrite (proj2 (Z.eqb_neq _ 0)) by lia. rewrite factorial_next in Hi by lia.
  replace (Z.of_nat (S n) - 1) with (Z.of_nat n) in * by lia.
  assert (Hf : 1 <= factorial (Z.of_nat n)) by (unfold factorial; pose proof (Factorial.lt_O_fact (Z.to_nat (Z.of_nat n))); lia).
  unfold is_int in Hi. rewrite (E_bind_Ok _ _ _ (int_ok (Z.of_nat n) ltac:(unfold is_int; nia))).
  destruct (IH depth ltac:(lia)) as [x Hx]; [unfold is_int; nia|]. destruct (fact_value _ _ _ Hx) as (_ & -> & _).
  rewrite (E_bind_Ok _ _ _ Hx). eexists. apply int_ok. exact Hi.
Qed.

Lemma factorial_le a b : a <= b → factorial a <= factorial b.
Proof. intros Hab. unfold factorial. apply inj_le, Factorial.fact_le. lia. Qed.

Lemma factorial_pos n : 1 <= factorial n.
Proof. unfold factorial. pose proof (Factorial.lt_O_fact (Z.to_nat n)). lia. Qed.

Lemma factorial_12 : factorial 12 = 479001600.
Proof.
  assert (Hs : ∀ n x, 0 < n → factorial (n - 1) = x → factorial n = n * x) by (intros n x Hn <-; by apply factorial_next).
  change 479001600 with (12 * (11 * (10 * (9 * (8 * (7 * (6 * (5 * (4 * (3 * (2 * (1 * 1)))))))))))).
  do 12 (apply Hs; [lia|]; cbn [Z.sub Z.opp Z.add Z.pos_sub Pos.pred_double Z.succ_double Z.pred_double Z.double]). reflexivity.
Qed.
#[local] Opaque factorial.

(** [fact<N>] is the factorial of [N] where that is an [int], that is from 0 to 12. *)
Theorem fact_is_factorial N depth : (13 <= depth)%nat →
  fact depth N = if decide (0 <= N <= 12) then Some (Ok (factorial N)) else None.
Proof.
  intros Hd. pose proof factorial_12 as H12. destruct (decide (0 <= N <= 12)) as [HN|HN].
  - destruct (fact_defined (Z.to_nat N) depth ltac:(lia)) as [x Hx]; rewrite Z2Nat.id in * by lia.
    + pose proof (factorial_le N 12 ltac:(lia)). pose proof (factorial_pos N). unfold is_int. lia.
    + destruct (fact_value _ _ _ Hx) as (_ & -> & _). exact Hx.
  - destruct (fact depth N) as [x|] eqn:Hx; [exfalso|done]. destruct (fact_value _ _ _ Hx) as (H0 & _ & Hi).
    pose proof (factorial_next 13 ltac:(lia)) as H13. change (13 - 1) with 12 in H13.
    pose proof (factorial_le 13 N ltac:(lia)). unfold is_int in Hi. lia.
Qed.

(** ** [fibonacci] *)
Fixpoint fib_pair (n : nat) : Z * Z :=
  match n with O => (0, 1) | S n => let '(a, b) := fib_pair n in (b, a + b) end.
Definition fib (n : Z) : Z := (fib_pair (Z.to_nat n)).1.

Lemma fib_next n : 2 <= n → fib n = fib (n - 1) + fib (n - 2).
Proof.
  intros Hn. unfold fib. replace (Z.to_nat n) with (S (S (Z.to_nat (n - 2)))) by lia.
  replace (Z.to_nat (n - 1)) with (S (Z.to_nat (n - 2))) by lia. simpl. destruct (fib_pair _) as [a b]. simpl. lia.
Qed.

Lemma fib_pair_nonneg n : 0 <= (fib_pair n).1 ∧ 0 <= (fib_pair n).2.
Proof. induction n as [|n IH]; simpl; [lia|]. destruct (fib_pair n) as [a b]. simpl in *. lia. Qed.

Lemma fib_nonneg n : 0 <= fib n.
Proof. apply fib_pair_nonneg. Qed.

Lemma fib_le a b : 1 <= a <= b → fib a <= fib b.
Proof.
  intros [Ha Hab]. replace b with (a + Z.of_nat (Z.to_nat (b - a))) by lia. clear Hab.
  induction (Z.to_nat (b - a)) as [|k IH]; [by rewrite Z.add_0_r|].
  rewrite (fib_next (a + Z.of_nat (S k))) by lia. pose proof (fib_nonneg (a + Z.of_nat (S k) - 2)).
  replace (a + Z.of_nat (S k) - 1) with (a + Z.of_nat k) by lia. lia.
Qed.

Lemma fibonacci_value depth N x : fibonacci depth N = Some x → 0 <= N ∧ x = Ok (fib N) ∧ is_int (fib N).
Proof.
  revert N x. induction depth as [|depth IH]; intros N x Hx; [done|]. cbn [fibonacci] in Hx.
  destruct (Z.eqb_spec N 0) as [->|HN]; [injection Hx as <-; done|].
  destruct (Z.eqb_spec N 1) as [->|HN1]; [injection Hx as <-; done|].
  assert (Hok : ∀ n y, fibonacci depth n = Some y → ∃ a, y = Ok a) by (intros n y Hy; destruct (IH _ _ Hy) as (_ & -> & _); by eexists).
  apply (bind_value _ _ _ (int_value _)) in Hx as (n & Hn & Hx). apply int_Some in Hn. injection Hn as ->.
  apply (bind_value _ _ _ (Hok _)) in Hx as (a & Ha & Hx).
  apply (bind_value _ _ _ (int_value _)) in Hx as (n & Hn & Hx). apply int_Some in Hn. injection Hn as ->.
  apply (bind_value _ _ _ (Hok _)) in Hx as (b & Hb & Hx).
  destruct (IH _ _ Ha) as (H0 & [= ->] & _), (IH _ _ Hb) as (H1 & [= ->] & _).
  pose proof (int_is _ _ Hx) as Hi. apply int_Some in Hx as ->. rewrite <-fib_next in * by lia. split; [lia|done].
Qed.

Lemma fibonacci_defined depth N : 0 <= N < Z.of_nat depth → N < 2 ^ 31 → is_int (fib N) → ∃ x, fibonacci depth N = Some x.
Proof.
  revert N. induction depth as [|depth IH]; intros N Hd HN Hi; [lia|]. cbn [fibonacci].
  destruct (Z.eqb_spec N 0) as [->|HN0]; [by eexists|]. destruct (Z.eqb_spec N 1) as [->|HN1]; [by eexists|].
  rewrite fib_next in Hi by lia. pose proof (fib_nonneg (N - 1)). pose proof (fib_nonneg (N - 2)). unfold is_int in Hi.
  rewrite (E_bind_Ok _ _ _ (int_ok (N - 1) ltac:(unfold is_int; lia))).
  destruct (IH (N - 1)) as [x Hx]; [lia|lia|unfold is_int; lia|]. destruct (fibonacci_value _ _ _ Hx) as (_ & -> & _).
  rewrite (E_bind_Ok _ _ _ Hx), (E_bind_Ok _ _ _ (int_ok (N - 2) ltac:(unfold is_int; lia))).
  destruct (IH (N - 2)) as [x Hx']; [lia|lia|unfold is_int; lia|]. destruct (fibonacci_value _ _ _ Hx') as (_ & -> & _).
  rewrite (E_bind_Ok _ _ _ Hx'). eexists. apply int_ok. exact Hi.
Qed.

(** [fibonacci<N>] is the number of Fibonacci where that is an [int], that is from 0 to 46. *)
Theorem fibonacci_is_fib N depth : (47 <= depth)%nat →
  fibonacci depth N = if decide (0 <= N <= 46) then Some (Ok (fib N)) else None.
Proof.
  intros Hd. assert (H46 : fib 46 = 1836311903) by (vm_compute; reflexivity).
  assert (H47 : fib 47 = 2971215073) by (vm_compute; reflexivity).
  destruct (decide (0 <= N <= 46)) as [HN|HN].
  - destruct (fibonacci_defined depth N) as [x Hx]; [lia|lia| |by destruct (fibonacci_value _ _ _ Hx) as (_ & -> & _)].
    pose proof (fib_nonneg N). unfold is_int. destruct (Z.eq_dec N 0) as [->|]; [change (fib 0) with 0; lia|].
    pose proof (fib_le N 46 ltac:(lia)). lia.
  - destruct (fibonacci depth N) as [x|] eqn:Hx; [exfalso|done]. destruct (fibonacci_value _ _ _ Hx) as (H0 & _ & Hi).
    pose proof (fib_le 47 N ltac:(lia)). unfold is_int in Hi. lia.
Qed.

(** ** Modulo *)
Lemma umod_fib n m : 2 <= n → 1 < m <= 2 ^ 31 → umod (fib (n - 1) `mod` m) (fib (n - 2) `mod` m) m = Some (Ok (fib n `mod` m)).
Proof.
  intros Hn Hm. unfold umod. rewrite (proj2 (Z.eqb_neq m 0)) by lia.
  pose proof (Z.mod_pos_bound (fib (n - 1)) m ltac:(lia)). pose proof (Z.mod_pos_bound (fib (n - 2)) m ltac:(lia)).
  rewrite (Z.mod_small _ (2 ^ 32)) by lia. by rewrite <-Z.add_mod, <-fib_next by lia.
Qed.

Lemma fib_naive_mod_run m : 1 < m <= 2 ^ 31 → ∀ n,
  fib_naive_mod n m = Some (Ok (fib (Z.of_nat n) `mod` m)) ∧ fib_naive_mod (S n) m = Some (Ok (fib (Z.of_nat (S n)) `mod` m)).
Proof.
  intros Hm. induction n as [|n [IH1 IH2]].
  - split; [done|]. change (fib (Z.of_nat 1)) with 1. by rewrite Z.mod_small by lia.
  - split; [done|]. cbn [fib_naive_mod]. fold (fib_naive_mod (S n) m). rewrite (E_bind_Ok _ _ _ IH2), (E_bind_Ok _ _ _ IH1).
    rewrite <-(umod_fib (Z.of_nat (S (S n))) m) by lia. do 2 f_equal; f_equal; lia.
Qed.

Lemma Fibonacci_run m : 1 < m <= 2 ^ 31 → ∀ depth N, 0 <= N < Z.of_nat depth →
  Fibonacci depth N m = Some (Ok (fib N `mod` m)).
Proof.
  intros Hm. induction depth as [|depth IH]; intros N HN; [lia|]. cbn [Fibonacci].
  destruct (Z.eqb_spec N 0) as [->|H0]; [by rewrite Z.mod_0_l by lia|].
  destruct (Z.eqb_spec N 1) as [->|H1]; [change (fib 1) with 1; by rewrite Z.mod_small by lia|].
  rewrite (E_bind_Ok _ _ _ (IH (N - 1) ltac:(lia))), (E_bind_Ok _ _ _ (IH (N - 2) ltac:(lia))). apply umod_fib; lia.
Qed.

(** The number of the compiler and that of the program are those of Fibonacci, modulo. *)
Theorem fib_modulo_agree (n : nat) m depth : 1 < m <= 2 ^ 31 → (n < depth)%nat →
  Fibonacci depth (Z.of_nat n) m = Some (Ok (fib (Z.of_nat n) `mod` m)) ∧
  fib_naive_mod n m = Some (Ok (fib (Z.of_nat n) `mod` m)).
Proof. intros Hm Hd. split; [apply Fibonacci_run; lia|by apply fib_naive_mod_run]. Qed.

(** ** Binary literals *)
Definition bit (c : ascii) : option Z := if decide (c = "0"%char) then Some 0 else if decide (c = "1"%char) then Some 1 else None.

Lemma binary_loop_step sum c chars : binary_loop sum (c :: chars) =
  match bit c with
  | Some b => s ← int (sum * 2); s ← (if b =? 0 then mret s else int (s + 1)); binary_loop s chars
  | None => raise (runtime_error "Unexpected symbol")
  end.
Proof. by destruct c as [[] [] [] [] [] [] [] []]. Qed.

Lemma binparser_step depth sum c chars : binparser (S depth) sum (c :: chars) =
  match bit c with
  | Some b => s ← int (sum * 2); s ← (if b =? 0 then mret s else int (s + 1)); binparser depth s chars
  | None => None
  end.
Proof. by destruct c as [[] [] [] [] [] [] [] []]. Qed.

(** The number that the digits write, after [sum]. *)
Definition digits_value (sum : Z) (bits : list Z) : Z := foldl (λ s b, 2 * s + b) sum bits.

Lemma digits_value_ge sum bits : 0 <= sum → Forall (λ b, b = 0 ∨ b = 1) bits → sum <= digits_value sum bits.
Proof.
  revert sum. induction bits as [|b bits IH]; intros sum Hs Hb; [done|]. apply Forall_cons in Hb as [Hb Hbs].
  change (digits_value sum (b :: bits)) with (digits_value (2 * sum + b) bits).
  pose proof (IH (2 * sum + b) ltac:(lia) Hbs). lia.
Qed.

Lemma digit_run sum b {A} (k : Z → E A) : 0 <= sum → b = 0 ∨ b = 1 → 2 * sum + b < 2 ^ 31 →
  (s ← int (sum * 2); s ← (if b =? 0 then mret s else int (s + 1)); k s) = k (2 * sum + b).
Proof.
  intros Hs Hb Hlt. rewrite (E_bind_Ok _ _ _ (int_ok (sum * 2) ltac:(unfold is_int; lia))).
  destruct Hb as [-> | ->]; simpl.
  - by replace (2 * sum + 0) with (sum * 2) by lia.
  - rewrite (E_bind_Ok _ _ _ (int_ok (sum * 2 + 1) ltac:(unfold is_int; lia))). by replace (2 * sum + 1) with (sum * 2 + 1) by lia.
Qed.

Lemma bits_are chars bits : bit <$> chars = Some <$> bits → Forall (λ b, b = 0 ∨ b = 1) bits.
Proof.
  revert bits. induction chars as [|c chars IH]; intros [|b bits] Hb; try done. injection Hb as Hc Hb.
  constructor; [|by apply IH]. unfold bit in Hc. repeat destruct (decide _); naive_solver.
Qed.

Lemma literal_run chars : ∀ bits depth sum, bit <$> chars = Some <$> bits → (length chars < depth)%nat → 0 <= sum →
  digits_value sum bits < 2 ^ 31 →
  binary_loop sum chars = Some (Ok (digits_value sum bits)) ∧ binparser depth sum chars = Some (Ok (digits_value sum bits)).
Proof.
  induction chars as [|c chars IH]; intros [|b bits] [|depth] sum Hb Hd Hs Hv; simpl in Hd; try (done || lia).
  pose proof (bits_are _ _ Hb) as Hbits. apply Forall_cons in Hbits as [Hbit Hbits]. injection Hb as Hc Hb.
  rewrite binary_loop_step, binparser_step, Hc.
  change (digits_value sum (b :: bits)) with (digits_value (2 * sum + b) bits) in *.
  pose proof (digits_value_ge (2 * sum + b) bits ltac:(lia) Hbits).
  rewrite !digit_run by (done || lia). apply IH; (done || lia).
Qed.

(** A literal of zeros and ones has the value of its digits with both operators, if that is an
    [int]. *)
Theorem binary_literals chars bits depth : bit <$> chars = Some <$> bits → (length chars < depth)%nat →
  digits_value 0 bits < 2 ^ 31 →
  binary_ce chars = Some (Ok (digits_value 0 bits)) ∧ binary_types depth chars = Some (Ok (digits_value 0 bits)).
Proof. intros Hb Hd Hv. by apply literal_run. Qed.

(** ** [static_log] *)
Lemma has_bit N p : 0 <= p → (Z.land N (Z.shiftl 1 p) =? Z.shiftl 1 p) = Z.testbit N p.
Proof.
  intros Hp. destruct (Z.testbit N p) eqn:Hb.
  - apply Z.eqb_eq. rewrite Z.shiftl_1_l. apply Z.bits_inj'. intros i Hi. rewrite Z.land_spec, Z.pow2_bits_eqb by done.
    destruct (Z.eqb_spec p i) as [<-|]; [by rewrite Hb|by rewrite andb_false_r].
  - apply Z.eqb_neq. intros Heq. apply (f_equal (λ x, Z.testbit x p)) in Heq.
    rewrite Z.land_spec, Hb, Z.shiftl_1_l, Z.pow2_bits_true in Heq by done. done.
Qed.

Lemma log_loop_run pos N : 0 < N < 2 ^ Z.of_nat pos → log_loop pos N = Some (Ok (Z.log2 N, 2 ^ Z.log2 N)).
Proof.
  induction pos as [|pos IH]; intros HN; [simpl in HN; lia|]. cbn [log_loop]. rewrite has_bit by lia.
  rewrite Nat2Z.inj_succ, Z.pow_succ_r in HN by lia.
  destruct (Z.le_gt_cases (2 ^ Z.of_nat pos) N) as [Hle|Hlt].
  - assert (Hlog : Z.log2 N = Z.of_nat pos) by (apply Z.log2_unique; [lia|rewrite Z.pow_succ_r; lia]).
    rewrite <-Hlog, Z.bit_log2 by lia. by rewrite Z.shiftl_1_l.
  - rewrite Z.bits_above_log2; [|lia|apply Z.log2_lt_pow2; lia]. apply IH. lia.
Qed.

(** [static_log] is the logarithm to base two, rounded up; of zero there is none. *)
Theorem static_log_rounds_up N : 0 <= N < 2 ^ 64 →
  static_log N = if decide (N = 0) then raise (runtime_error "N == 0 not supported") else Some (Ok (Z.log2_up N)).
Proof.
  intros HN. unfold static_log. destruct (decide (N = 0)) as [->|H0]; [done|]. rewrite (proj2 (Z.eqb_neq N 0) H0).
  rewrite (E_bind_Ok _ _ _ (log_loop_run 64 N ltac:(lia))). unfold mret. apply (f_equal (λ r, Some (Ok r))).
  pose proof (Z.log2_spec N ltac:(lia)) as Hs. pose proof (Z.log2_nonneg N). rewrite Z.pow_succ_r in Hs by lia.
  destruct (Z.eqb_spec N (2 ^ Z.log2 N)) as [Heq|Hne].
  - rewrite Heq at 2. by rewrite Z.log2_up_pow2.
  - symmetry. apply Z.log2_up_unique; [lia|]. rewrite Z.add_1_r, Z.pred_succ, Z.pow_succ_r by lia. lia.
Qed.

(** ** Primes *)

(** No number from two to [i] divides [p]. *)
Definition no_divisor (p i : Z) : Prop := ∀ d, 2 <= d <= i → ¬ (d | p).

Lemma is_prime_0 depth i : 0 <= i <= 1 → is_prime (S depth) 0 i = Some (Ok true).
Proof. intros Hi. assert (i = 0 ∨ i = 1) as [-> | ->] by lia; done. Qed.

Lemma is_prime_run depth p i : 2 < p → 1 <= i < p → p < 2 ^ 31 → i <= Z.of_nat depth →
  ∃ b, is_prime (S depth) p i = Some (Ok b) ∧ (b = true ↔ no_divisor p i ∧ p `mod` i ≠ 0).
Proof.
  revert i. induction depth as [|depth IH]; intros i Hp Hi Hlt Hd; [lia|].
  change (is_prime (S (S depth)) p i) with (if (p =? 0) && ((i =? 0) || (i =? 1)) then mret true
    else n ← int (i - 1); prim ← is_prime (S depth) (if 2 <? i then p else 0) n;
      if p =? 2 then mret true else r ← irem p i; mret (negb (r =? 0) && prim)).
  rewrite (proj2 (Z.eqb_neq p 0)), (proj2 (Z.eqb_neq p 2)) by lia. cbn [andb].
  rewrite (E_bind_Ok _ _ _ (int_ok (i - 1) ltac:(unfold is_int; lia))).
  assert (Hrem : irem p i = Some (Ok (p `mod` i))) by (apply irem_ok; unfold is_int; lia).
  destruct (Z.ltb_spec 2 i).
  - destruct (IH (i - 1)) as (b & Hb & Hbt); [lia|lia|lia|lia|]. rewrite (E_bind_Ok _ _ _ Hb), (E_bind_Ok _ _ _ Hrem).
    eexists. split; [reflexivity|]. rewrite andb_true_iff, negb_true_iff, Z.eqb_neq, Hbt. split.
    + intros [Hm [Hno _]]. split; [|done]. intros d Hdr. destruct (Z.eq_dec d i) as [->|]; [|apply Hno; lia].
      intros Hdiv. by apply Hm, Z.mod_divide; [lia|].
    + intros [Hno Hm]. split; [done|]. split; [intros d Hdr; apply Hno; lia|]. intros Hm1.
      apply (Hno (i - 1)); [lia|]. apply Z.mod_divide; [lia|done].
  - rewrite (E_bind_Ok _ _ _ (is_prime_0 depth (i - 1) ltac:(lia))), (E_bind_Ok _ _ _ Hrem).
    eexists. split; [reflexivity|]. rewrite andb_true_r, negb_true_iff, Z.eqb_neq. split; [|tauto].
    intros Hm. split; [|done]. intros d Hdr. assert (d = i) as -> by lia. intros Hdiv. by apply Hm, Z.mod_divide; [lia|].
Qed.

Lemma prime_no_divisor p : 2 < p → prime p ↔ no_divisor p (p - 1) ∧ p `mod` (p - 1) ≠ 0.
Proof.
  intros Hp. assert (Hm : p `mod` (p - 1) = 1) by (symmetry; apply Z.mod_unique with 1; lia). rewrite Hm.
  rewrite <-prime_alt. split.
  - intros [_ Hno]. split; [|lia]. intros d Hd. apply Hno. lia.
  - intros [Hno _]. split; [lia|]. intros d Hd. apply Hno. lia.
Qed.

(** [is_prime<p, p - 1>::prim] tells whether [p] is prime; [p] nested instantiations are
    enough. *)
Theorem is_prime_correct p depth : 2 <= p < 2 ^ 31 → p <= Z.of_nat depth →
  ∃ b, is_prime depth p (p - 1) = Some (Ok b) ∧ (b = true ↔ prime p).
Proof.
  intros Hp Hd. destruct depth as [|depth]; [lia|]. destruct (Z.eq_dec p 2) as [->|Hne].
  - destruct depth as [|depth]; [lia|]. exists true. split; [|split; [intros _; apply prime_2|done]]. cbn [is_prime].
    change ((2 =? 0) && _) with false. cbv iota. rewrite (E_bind_Ok _ _ _ (int_ok (2 - 1 - 1) ltac:(unfold is_int; lia))). reflexivity.
  - destruct (is_prime_run depth p (p - 1)) as (b & Hb & Hbt); [lia..|]. exists b. split; [done|].
    by rewrite Hbt, <-prime_no_divisor by lia.
Qed.

(** The compiler complains of the primes up to [n], in descending order. *)
Lemma complaints_are_primes (n depth : nat) : (1 <= n)%nat → Z.of_nat n < 2 ^ 31 → (n <= depth)%nat →
  ∃ l, Prime_print depth n = Some (Ok l) ∧ Sorted Z.gt l ∧ ∀ p, p ∈ l ↔ 2 <= p <= Z.of_nat n ∧ prime p.
Proof.
  intros Hn. revert depth. induction n as [|[|n] IH]; intros depth Hlt Hd; [lia| |].
  - exists []. split; [done|]. split; [done|]. intros p. rewrite elem_of_nil. lia.
  - destruct (IH ltac:(lia) depth ltac:(lia) ltac:(lia)) as (l & Hl & Hs & Hp).
    destruct (is_prime_correct (Z.of_nat (S (S n))) depth ltac:(lia) ltac:(lia)) as (b & Hb & Hbt).
    change (Prime_print depth (S (S n))) with (a ← Prime_print depth (S n);
      prim ← is_prime depth (Z.of_nat (S (S n))) (Z.of_nat (S (S n)) - 1);
      mret (if prim : bool then Z.of_nat (S (S n)) :: a else a)).
    rewrite (E_bind_Ok _ _ _ Hl), (E_bind_Ok _ _ _ Hb). destruct b; (eexists; split; [reflexivity|]).
    + split.
      * constructor; [done|]. destruct l as [|q l]; constructor. pose proof (proj1 (Hp q) ltac:(constructor)). lia.
      * intros p. rewrite elem_of_cons, Hp. split.
        -- intros [-> |[Hr Hpr]]; [split; [lia|by apply Hbt]|split; [lia|done]].
        -- intros [Hr Hpr]. destruct (Z.eq_dec p (Z.of_nat (S (S n)))) as [->|]; [by left|right; split; [lia|done]].
    + split; [done|]. intros p. rewrite Hp. split; [intros [Hr Hpr]; split; [lia|done]|]. intros [Hr Hpr].
      destruct (Z.eq_dec p (Z.of_nat (S (S n)))) as [->|]; [|split; [lia|done]]. by apply Hbt in Hpr.
Qed.

(** The three templates on [int] have a value exactly where no [int] overflows: the root
    from 1 to 92679, the factorial from 0 to 12 and the number of Fibonacci from 0 to 46.
    47 nested instantiations are enough; elsewhere no number of them is. *)
Theorem templates_have_values N depth : (47 <= depth)%nat →
  Sqrt_of depth N = (if decide (1 <= N <= 92679) then Some (Ok (Z.sqrt N)) else None) ∧
  fact depth N = (if decide (0 <= N <= 12) then Some (Ok (factorial N)) else None) ∧
  fibonacci depth N = (if decide (0 <= N <= 46) then Some (Ok (fib N)) else None).
Proof.
  intros Hd. split; [apply Sqrt_is_sqrt; lia|]. split; [apply fact_is_factorial; lia|by apply fibonacci_is_fib].
Qed.

Lemma templates_have_values_witness :
  Sqrt_of 50 12 = Some (Ok 3) ∧ fact 50 12 = Some (Ok (factorial 12)) ∧ fibonacci 50 12 = Some (Ok 144).
Proof. apply (templates_have_values 12 50). lia. Defined.

(** Compiled, the program of primes makes the compiler complain of exactly the primes up
    to [n], in descending order; it never divides by zero on the way. *)
Theorem diagnosed_are_primes (n depth : nat) : (1 <= n)%nat → Z.of_nat n < 2 ^ 31 → (n <= depth)%nat →
  ∃ l, Prime_print depth n = Some (Ok l) ∧ Sorted Z.gt l ∧ ∀ p, p ∈ l ↔ 2 <= p <= Z.of_nat n ∧ prime p.
Proof. apply complaints_are_primes. Qed.

Lemma diagnosed_are_primes_witness :
  ∃ l, Prime_print 70 70 = Some (Ok l) ∧ Sorted Z.gt l ∧ ∀ p, p ∈ l ↔ 2 <= p <= Z.of_nat 70 ∧ prime p.
Proof. apply (diagnosed_are_primes 70 70); lia. Defined.
