(* ===== verification/Algo.v ===== *)
(** * Algorithms: [src/17-algorithms/repose.cc] and [src/16-containers/orbit.cc]

    Iterators of a vector are positions from zero to its length. *)

From stdpp Require Import gmap.
From S2P Require Import Prelude.

(** ** [repose.cc] *)
Module Repose.
Section repose.
Context {A : Type}.

Definition segment (v : list A) (first last : nat) : list A := take (last - first) (drop first v).

(** [std::rotate], on a valid range with the middle inside. *)
Definition rotate (first middle last : nat) (v : list A) : E (list A) :=
  require (bool_decide (first <= middle ∧ middle <= last ∧ last <= length v)%nat);;
  mret (take first v ++ segment v middle last ++ segment v first middle ++ drop last v).

Definition repose (first last pos : nat) (v : list A) : E (list A) :=
  if decide (first = pos ∨ last = pos) then mret v
  else if decide ((last < pos)%nat ∧ (pos < first)%nat) then
    raise (runtime_error "Can not move to position inside interval")
  else if decide (first < pos)%nat then rotate first last pos v
  else rotate pos first last v.
End repose.

(** [std::find] for an element that is there, and the two calls of [main]. *)
Definition find (x : Z) (v : list Z) : nat :=
  match list_find (x =.) v with Some (i, _) => i | None => length v end.
Definition main : E (list Z * list Z) :=
  let v := seqZ 1 10 in
  v ← repose (find 3 v) (find 6 v) (find 8 v) v;
  let first := v in
  let v := seqZ 1 10 in
  v ← repose (find 7 v) (find 9 v) (find 2 v) v;
  mret (first, v).
End Repose.

(** ** [orbit.cc] *)
Module Orbit.
Section orbit.
Context {G T : Type} `{Countable T} (op : G → T → T) (gens : list G).

(** The images of the elements of [next] that are not in the orbit yet, with what is printed:
    the element, the generator and the image. *)
Definition images (orbit : gset T) (next : list T) : list (T * G * T) :=
  elem ← next; igen ← gens; (let newelem := op igen elem in if decide (newelem ∈ orbit) then [] else [(elem, igen, newelem)]).

Fixpoint orbit_loop (fuel : nat) (orbit : gset T) (next : list T) (out : list (T * G * T)) : option (gset T * list (T * G * T)) :=
  match next with
  | [] => Some (orbit, out)
  | _ =>
    match fuel with
    | O => None
    | S fuel =>
      let orbit := orbit ∪ list_to_set next in
      let tmp := images orbit next in
      orbit_loop fuel orbit tmp.*2 (out ++ tmp)
    end
  end.
Definition orbit (fuel : nat) (num : T) : option (gset T * list (T * G * T)) := orbit_loop fuel ∅ [num] [].
End orbit.

(** *** [Z7]; the numbers of the program are far from overflow *)
Definition Z7_mul (lhs rhs : Z) : Z := Z.rem (lhs * rhs) 7.
Definition main : option (list (gset Z)) :=
  mapM (λ n, fst <$> orbit Z7_mul [3; 5] 8 n) (seqZ 1 6).
End Orbit.

Example repose_main : Repose.main = Some (Ok ([1; 2; 6; 7; 3; 4; 5; 8; 9; 10], [1; 7; 8; 2; 3; 4; 5; 6; 9; 10])).
Proof. vm_compute. reflexivity. Qed.
Example orbit_main : Orbit.main = Some (replicate 6 (list_to_set (seqZ 1 6))).
Proof. vm_compute. reflexivity. Qed.

(** ** What [repose] does *)
Import Repose.

Lemma segment_app {A} (u x y : list A) : segment (u ++ x ++ y) (length u) (length u + length x) = x.
Proof. unfold segment. rewrite drop_app_length. replace (_ + _ - _)%nat with (length x) by lia. apply take_app_length. Qed.

Lemma rotate_app {A} (u x y w : list A) :
  rotate (length u) (length u + length x) (length u + length x + length y) (u ++ x ++ y ++ w) = Some (Ok (u ++ y ++ x ++ w)).
Proof.
  unfold rotate. rewrite E_bind_require by (apply bool_decide_eq_true_2; rewrite !length_app; lia).
  unfold mret. do 2 f_equal. rewrite take_app_length, segment_app.
  replace (segment (u ++ x ++ y ++ w) _ _) with y.
  2: { rewrite (assoc_L (++)). rewrite <-(segment_app (u ++ x) y w) at 1. by rewrite length_app. }
  do 3 f_equal. replace (length u + length x + length y)%nat with (length (u ++ x ++ y)) by (rewrite !length_app; lia).
  rewrite !(assoc_L (++)). rewrite drop_app_length. done.
Qed.

(** A segment is moved in front of a position after it or before it, and nothing else moves;
    the exception for a position inside the segment is never thrown, for the condition asks
    the position to be after the end and before the start: such a call is undefined. *)
Theorem repose_moves {A} (u x y w : list A) :
  repose (length u) (length (u ++ x)) (length (u ++ x ++ y)) (u ++ x ++ y ++ w) = Some (Ok (u ++ y ++ x ++ w)) ∧
  repose (length (u ++ y)) (length (u ++ y ++ x)) (length u) (u ++ y ++ x ++ w) = Some (Ok (u ++ x ++ y ++ w)) ∧
  (∀ first last pos (v : list A), (first < pos < last)%nat → repose first last pos v = None).
Proof.
  split; [|split].
  - unfold repose. rewrite !length_app.
    destruct (decide _) as [[Hx|Hy]|Hn].
    + assert (x = []) as -> by (apply length_zero_iff_nil; lia). assert (y = []) as -> by (apply length_zero_iff_nil; lia). done.
    + assert (y = []) as -> by (apply length_zero_iff_nil; lia). done.
    + rewrite decide_False by lia. rewrite decide_True by lia. rewrite Nat.add_assoc. apply rotate_app.
  - unfold repose. rewrite !length_app.
    destruct (decide _) as [[Hy|Hx]|Hn].
    + assert (y = []) as -> by (apply length_zero_iff_nil; lia). done.
    + assert (x = []) as -> by (apply length_zero_iff_nil; lia). assert (y = []) as -> by (apply length_zero_iff_nil; lia). done.
    + rewrite decide_False by lia. rewrite decide_False by lia. rewrite Nat.add_assoc. apply rotate_app.
  - intros first last pos v Hp. unfold repose. rewrite decide_False by lia. rewrite decide_False by lia. rewrite decide_True by lia.
    unfold rotate. by rewrite bool_decide_eq_false_2 by lia.
Qed.

(** ** What [orbit] is *)
Import Orbit.
Section orbit_facts.
Context {G T : Type} `{Countable T} (op : G → T → T) (gens : list G).

Definition image (x y : T) : Prop := ∃ g, g ∈ gens ∧ y = op g x.

Lemma elem_of_images orbit next x g y : (x, g, y) ∈ images op gens orbit next ↔ x ∈ next ∧ g ∈ gens ∧ y = op g x ∧ y ∉ orbit.
Proof.
  unfold images. rewrite list_elem_of_bind. split.
  - intros (x' & Hx & Hn). apply list_elem_of_bind in Hx as (g' & Hg & Hg'). simpl in Hg.
    destruct (decide _); [by apply elem_of_nil in Hg|]. apply list_elem_of_singleton in Hg. naive_solver.
  - intros (Hx & Hg & -> & Hn). exists x. split; [|done]. apply list_elem_of_bind. exists g. split; [|done]. simpl.
    rewrite decide_False by done. by left.
Qed.

Lemma elem_of_tmp orbit next y : y ∈ (images op gens orbit next).*2 ↔ ∃ x, x ∈ next ∧ image x y ∧ y ∉ orbit.
Proof.
  rewrite list_elem_of_fmap. split.
  - intros ([[x g] y'] & -> & Hy). apply elem_of_images in Hy as (Hx & Hg & -> & Hn). exists x. split; [done|]. split; [by exists g|done].
  - intros (x & Hx & (g & Hg & ->) & Hn). exists (x, g, op g x). split; [done|]. by apply elem_of_images.
Qed.

(** The orbit so far is reached from [num] and is closed but for the elements of [next],
    which are new. *)
Record progress (num : T) (orbit : gset T) (next : list T) : Prop := {
  pr_reached : ∀ x, x ∈ orbit ∨ x ∈ next → rtc image num x;
  pr_closed : ∀ x y, x ∈ orbit → image x y → y ∈ orbit ∨ y ∈ next;
  pr_start : num ∈ orbit ∨ num ∈ next;
  pr_new : ∀ x, x ∈ next → x ∉ orbit }.

Lemma progress_step num orbit next : progress num orbit next →
  progress num (orbit ∪ list_to_set next) (images op gens (orbit ∪ list_to_set next) next).*2.
Proof.
  intros [H1 H2 H3 H4]. split.
  - intros x [Hx|Hx].
    + apply H1. rewrite elem_of_union, elem_of_list_to_set in Hx. done.
    + apply elem_of_tmp in Hx as (y & Hy & Hi & _). apply rtc_r with y; [apply H1; by right|done].
  - intros x y Hx Hi. rewrite elem_of_union, elem_of_list_to_set in Hx.
    destruct (decide (y ∈ orbit ∪ list_to_set next)) as [|Hn]; [by left|]. destruct Hx as [Hx|Hx].
    + exfalso. apply Hn. rewrite elem_of_union, elem_of_list_to_set. by apply (H2 x).
    + right. apply elem_of_tmp. by exists x.
  - left. by rewrite elem_of_union, elem_of_list_to_set.
  - intros x Hx. by apply elem_of_tmp in Hx as (_ & _ & _ & Hn).
Qed.

Lemma closed_reached (O : gset T) : (∀ x y, x ∈ O → image x y → y ∈ O) → ∀ x y, rtc image x y → x ∈ O → y ∈ O.
Proof. intros HO x y. induction 1; eauto. Qed.

(** Nothing is left to visit. *)
Lemma progress_end num orbit : progress num orbit [] → ∀ x, x ∈ orbit ↔ rtc image num x.
Proof.
  intros [H1 H2 H3 _] x. split; [intros Hx; apply H1; by left|]. intros Hx.
  assert (Hnil : ∀ y : T, y ∉ []) by apply not_elem_of_nil.
  apply (closed_reached orbit) with num; [|done|by destruct H3 as [|?%Hnil]].
  intros y z Hy Hi. by destruct (H2 y z Hy Hi) as [|?%Hnil].
Qed.

(** An element of [next] is one that is not in the orbit yet. *)
Lemma progress_next (U : gset T) num orbit y next : num ∈ U → (∀ x y, x ∈ U → image x y → y ∈ U) →
  progress num orbit (y :: next) → y ∈ U ∖ orbit.
Proof.
  intros Hnum HU [H1 _ _ H4]. apply elem_of_difference. split; [|apply H4; by left].
  apply (closed_reached U HU num); [apply H1; right; by left|done].
Qed.

Lemma visit_all_run (U : gset T) num : num ∈ U → (∀ x y, x ∈ U → image x y → y ∈ U) →
  ∀ fuel orbit next out, progress num orbit next → (size (U ∖ orbit) <= fuel)%nat →
  ∃ O out', orbit_loop op gens fuel orbit next out = Some (O, out') ∧ ∀ x, x ∈ O ↔ rtc image num x.
Proof.
  intros Hnum HU. induction fuel as [|fuel IH]; intros orbit [|y next] out Hp Hf.
  1, 3: exists orbit, out; split; [done|]; by apply progress_end.
  - exfalso. pose proof (progress_next U num orbit y next Hnum HU Hp). apply Nat.le_0_r, size_empty_inv in Hf. set_solver.
  - apply (IH _ _ _ (progress_step num orbit (y :: next) Hp)). pose proof (progress_next U num orbit y next Hnum HU Hp).
    enough (size (U ∖ (orbit ∪ list_to_set (y :: next))) < size (U ∖ orbit))%nat by lia.
    apply subset_size. set_solver.
Qed.

(** Within a finite set that is closed under the generators the search ends, after at most as
    many rounds as the set has elements, with the elements that products of generators take
    [num] to. *)
Theorem orbit_is_reachable (U : gset T) num fuel : num ∈ U → (∀ x y, x ∈ U → image x y → y ∈ U) →
  (size U <= fuel)%nat →
  ∃ O out, orbit op gens fuel num = Some (O, out) ∧ ∀ x, x ∈ O ↔ rtc image num x.
Proof.
  intros Hnum HU Hf. apply (visit_all_run U); [done|done| |by rewrite difference_empty_L].
  split; [|set_solver|by right; left|set_solver]. intros x [?|Hx]; [set_solver|].
  apply list_elem_of_singleton in Hx as ->. apply rtc_refl.
Qed.
End orbit_facts.
