(* ===== verification/Doc.v ===== *)
(** * Documents: [src/09-solid/common-model.cc] and [str-model.cc]

    A [Drawable] owns an object through a [unique_ptr]; a copy clones the object with all
    that it owns. [objects] maps the addresses of the live objects to their data. Allocations
    succeed. *)

From Stdlib Require Import Ascii.
From stdpp Require Import gmap fin_maps pretty.
From S2P Require Import Prelude.
#[local] Open Scope string_scope.
#[local] Open Scope Z_scope.

Module Doc.
Record Vector3D := mkVector3D { x : Z; y : Z; z : Z }.

(** What the instances of [DrawableObject<T>] hold: an [int], a vector, a polygon, or a
    [Model], whose elements are the pointers [self_]. *)
Inductive data := DInt (i : Z) | DVector (v : Vector3D) | DPolygon (vs : list Vector3D) | DModel (m : list positive).
Abbreviation store := (gmap positive data).

(** ** [draw]: the text, with [position] blanks in front *)
Fixpoint blanks (n : nat) : string := match n with O => "" | S n => String " "%char (blanks n) end.
Definition nl : string := String "010"%char "".
Definition draw_int (i : Z) (position : nat) : string := blanks position +:+ pretty i +:+ nl.
Definition draw_vector (v : Vector3D) (position : nat) : string :=
  blanks position +:+ "(" +:+ pretty (x v) +:+ ", " +:+ pretty (y v) +:+ ", " +:+ pretty (z v) +:+ ")" +:+ nl.
Definition concat (l : list string) : string := foldr String.append "" l.
Definition draw_polygon (vs : list Vector3D) (position : nat) : string :=
  blanks position +:+ "<polygon>" +:+ nl +:+
  concat ((λ v, draw_vector v (position + 2)) <$> vs) +:+ blanks position +:+ "</polygon>" +:+ nl.

Fixpoint draw_ (fuel : nat) (h : store) (self : positive) (position : nat) : option string :=
  match fuel with
  | O => None
  | S fuel =>
    d ← h !! self;
    match d with
    | DInt i => Some (draw_int i position)
    | DVector v => Some (draw_vector v position)
    | DPolygon vs => Some (draw_polygon vs position)
    | DModel m =>
      body ← mapM (λ e, draw_ fuel h e (position + 2)) m;
      Some (blanks position +:+ "<world>" +:+ nl +:+ concat body +:+ blanks position +:+ "</world>" +:+ nl)
    end
  end.
(** [draw(const Model &, ...)] *)
Definition draw (fuel : nat) (h : store) (m : list positive) (position : nat) : option string :=
  body ← mapM (λ e, draw_ fuel h e (position + 2)) m;
  Some (blanks position +:+ "<world>" +:+ nl +:+ concat body +:+ blanks position +:+ "</world>" +:+ nl).

(** ** Copies and destruction *)

(** [make_unique<DrawableObject>(d)] *)
Definition make_unique (d : data) (h : store) : positive * store := let p := fresh (dom h) in (p, <[p := d]> h).

(** The copy constructor of [std::vector<Drawable>], given that of [Drawable]. *)
Fixpoint copy_vector (copy : positive → store → option (positive * store)) (m : list positive) (h : store) :
    option (list positive * store) :=
  match m with
  | [] => Some ([], h)
  | e :: m => '(e, h) ← copy e h; '(m, h) ← copy_vector copy m h; Some (e :: m, h)
  end.

Fixpoint copy_ (fuel : nat) (self : positive) (h : store) : option (positive * store) :=
  match fuel with
  | O => None
  | S fuel =>
    d ← h !! self;
    match d with
    | DModel m => '(m, h) ← copy_vector (copy_ fuel) m h; Some (make_unique (DModel m) h)
    | _ => Some (make_unique d h)
    end
  end.

(** The destructors of a vector and of an object. *)
Fixpoint destroy_vector (destroy : positive → store → option store) (m : list positive) (h : store) : option store :=
  match m with [] => Some h | e :: m => h ← destroy e h; destroy_vector destroy m h end.
Fixpoint destroy (fuel : nat) (self : positive) (h : store) : option store :=
  match fuel with
  | O => None
  | S fuel =>
    d ← h !! self;
    match d with
    | DModel m => h ← destroy_vector (destroy fuel) m h; Some (delete self h)
    | _ => Some (delete self h)
    end
  end.

(** [document.push_back(d)] for a value, and for a document, which is copied. *)
Definition push_back (document : list positive) (d : data) (h : store) : list positive * store :=
  let '(p, h) := make_unique d h in (app document [p], h).
Definition push_back_model (fuel : nat) (document m : list positive) (h : store) : option (list positive * store) :=
  '(m, h) ← copy_vector (copy_ fuel) m h; Some (push_back document (DModel m) h).

(** The assignment of [x], which was passed by value: its object moves, the old one goes. *)
Definition assign (fuel : nat) (self rhs : positive) (h : store) : option (positive * store) :=
  '(p, h) ← copy_ fuel rhs h; h ← destroy fuel self h; Some (p, h).

(** [main] of [common-model.cc] and of [str-model.cc]: the text and what is left allocated. *)
Definition finish (fuel : nat) (document : list positive) (h : store) : option (string * store) :=
  out ← draw fuel h document 0; h ← destroy_vector (destroy fuel) document h; Some (out, h).
Definition main (fuel : nat) : option (string * store) :=
  let '(document, h) := push_back [] (DInt 0) ∅ in
  let '(document, h) := push_back document (DPolygon [mkVector3D 2 1 6; mkVector3D (-3) 7 4]) h in
  '(document, h) ← push_back_model fuel document document h;
  let '(document, h) := push_back document (DVector (mkVector3D (-3) 7 4)) h in
  finish fuel document h.
Definition str_main (fuel : nat) : option (string * store) :=
  let '(document, h) := push_back [] (DInt 0) ∅ in
  let '(document, h) := push_back document (DVector (mkVector3D 2 1 6)) h in
  let '(document, h) := push_back document (DVector (mkVector3D (-3) 7 4)) h in
  let '(document, h) := push_back document (DInt 3) h in
  finish fuel document h.
End Doc.
Import Doc.

Example str_main_out : str_main 5 =
  Some ("<world>" +:+ nl +:+ "  0" +:+ nl +:+ "  (2, 1, 6)" +:+ nl +:+ "  (-3, 7, 4)" +:+ nl +:+ "  3" +:+ nl +:+ "</world>" +:+ nl, ∅).
Proof. vm_compute. reflexivity. Qed.
Example main_out : main 5 = Some ("<world>" +:+ nl +:+ "  0" +:+ nl +:+ "  <polygon>" +:+ nl +:+ "    (2, 1, 6)" +:+ nl +:+
  "    (-3, 7, 4)" +:+ nl +:+ "  </polygon>" +:+ nl +:+ "  <world>" +:+ nl +:+ "    0" +:+ nl +:+ "    <polygon>" +:+ nl +:+
  "      (2, 1, 6)" +:+ nl +:+ "      (-3, 7, 4)" +:+ nl +:+ "    </polygon>" +:+ nl +:+ "  </world>" +:+ nl +:+ "  (-3, 7, 4)" +:+ nl +:+
  "</world>" +:+ nl, ∅).
Proof. vm_compute. reflexivity. Qed.

(** ** Documents as values *)
#[local] Unset Elimination Schemes.
Inductive tree := TInt (i : Z) | TVector (v : Vector3D) | TPolygon (vs : list Vector3D) | TModel (ts : list tree).
#[local] Set Elimination Schemes.

Definition leaf (t : tree) : option data :=
  match t with TInt i => Some (DInt i) | TVector v => Some (DVector v) | TPolygon vs => Some (DPolygon vs) | TModel _ => None end.

Fixpoint depth (t : tree) : nat :=
  match t with TModel ts => S (foldr (λ t n, depth t `max` n)%nat 0%nat ts) | _ => 1%nat end.
Definition depths (ts : list tree) : nat := foldr (λ t n, depth t `max` n)%nat 0%nat ts.

Definition render_model (bodies : list string) (position : nat) : string :=
  blanks position +:+ "<world>" +:+ nl +:+ concat bodies +:+ blanks position +:+ "</world>" +:+ nl.
Fixpoint render (position : nat) (t : tree) : string :=
  match t with
  | TInt i => draw_int i position
  | TVector v => draw_vector v position
  | TPolygon vs => draw_polygon vs position
  | TModel ts => render_model (render (position + 2) <$> ts) position
  end.

(** [h] consists of the objects of the value, and no two pointers share one. *)
Inductive owns : store → tree → positive → Prop :=
  | owns_leaf p d t : leaf t = Some d → owns {[p := d]} t p
  | owns_model p m ts h : owns_all h ts m → h !! p = None → owns (<[p := DModel m]> h) (TModel ts) p
with owns_all : store → list tree → list positive → Prop :=
  | owns_nil : owns_all ∅ [] []
  | owns_cons h1 h2 t ts p m : owns h1 t p → owns_all h2 ts m → h1 ##ₘ h2 → owns_all (h1 ∪ h2) (t :: ts) (p :: m).
Scheme owns_mut := Minimality for owns Sort Prop with owns_all_mut := Minimality for owns_all Sort Prop.
Combined Scheme owns_both from owns_mut, owns_all_mut.

Lemma leaf_depth t d : leaf t = Some d → depth t = 1%nat.
Proof. by destruct t. Qed.

Lemma model_at (h H : store) p m : <[p := DModel m]> h ⊆ H → H !! p = Some (DModel m).
Proof. intros Hsub. eapply lookup_weaken; [apply lookup_insert_eq|exact Hsub]. Qed.

Lemma union_parts (h1 h2 H : store) : h1 ##ₘ h2 → h1 ∪ h2 ⊆ H → h1 ⊆ H ∧ h2 ⊆ H.
Proof. intros Hd Hs. split; (etrans; [|exact Hs]); [apply map_union_subseteq_l|by apply map_union_subseteq_r]. Qed.

Lemma draw_run :
  (∀ h t p, owns h t p → ∀ H fuel position, h ⊆ H → (depth t <= fuel)%nat → draw_ fuel H p position = Some (render position t)) ∧
  (∀ h ts m, owns_all h ts m → ∀ H fuel position, h ⊆ H → (depths ts <= fuel)%nat →
    mapM (λ e, draw_ fuel H e position) m = Some (render position <$> ts)).
Proof.
  apply owns_both.
  - intros p d t Ht H fuel position Hsub Hf. rewrite (leaf_depth t d Ht) in Hf. destruct fuel as [|fuel]; [lia|]. simpl.
    rewrite (lookup_weaken {[p := d]} H p d); [|by apply lookup_singleton_eq|done]. simpl. by destruct t; simplify_eq/=.
  - intros p m ts h Hall IH Hp H [|fuel] position Hsub Hf; [simpl in Hf; lia|]. simpl.
    rewrite (model_at h H p m Hsub). simpl.
    rewrite IH; [done| |unfold depths; simpl in Hf; lia]. etrans; [|exact Hsub]. by apply insert_subseteq.
  - done.
  - intros h1 h2 t ts p m _ IH1 _ IH2 Hd H fuel position Hsub Hf. unfold depths in *. simpl in *.
    destruct (union_parts h1 h2 H Hd Hsub) as [Hs1 Hs2].
    rewrite (IH1 H fuel position Hs1 ltac:(lia)). simpl. by rewrite (IH2 H fuel position Hs2 ltac:(lia)).
Qed.

(** A new object, apart from those that there are. *)
Lemma make_unique_run d h : ∃ p, make_unique d h = (p, {[p := d]} ∪ h) ∧ h !! p = None.
Proof.
  exists (fresh (dom h)). unfold make_unique. rewrite <-insert_union_singleton_l. split; [done|].
  apply not_elem_of_dom, is_fresh.
Qed.

Lemma copy_run :
  (∀ h t p, owns h t p → ∀ H fuel, h ⊆ H → (depth t <= fuel)%nat →
    ∃ p' h', copy_ fuel p H = Some (p', h' ∪ H) ∧ h' ##ₘ H ∧ owns h' t p') ∧
  (∀ h ts m, owns_all h ts m → ∀ H fuel, h ⊆ H → (depths ts <= fuel)%nat →
    ∃ m' h', copy_vector (copy_ fuel) m H = Some (m', h' ∪ H) ∧ h' ##ₘ H ∧ owns_all h' ts m').
Proof.
  apply owns_both.
  - intros p d t Ht H fuel Hsub Hf. rewrite (leaf_depth t d Ht) in Hf. destruct fuel as [|fuel]; [lia|]. simpl.
    rewrite (lookup_weaken {[p := d]} H p d); [|by apply lookup_singleton_eq|done]. simpl.
    destruct (make_unique_run d H) as (p' & Hnew & Hp'). exists p', {[p' := d]}.
    split; [|split; [by apply map_disjoint_singleton_l_2|by apply owns_leaf]].
    destruct t; simplify_eq/=; by rewrite Hnew.
  - intros p m ts h Hall IH Hp H [|fuel] Hsub Hf; [simpl in Hf; lia|]. simpl.
    rewrite (model_at h H p m Hsub). simpl.
    destruct (IH H fuel) as (m' & h' & Hrun & Hd & Hown); [etrans; [|exact Hsub]; by apply insert_subseteq|unfold depths; simpl in Hf; lia|].
    rewrite Hrun. simpl. destruct (make_unique_run (DModel m') (h' ∪ H)) as (p' & -> & Hp').
    apply lookup_union_None in Hp' as [Hph' HpH]. exists p', (<[p' := DModel m']> h').
    split; [by rewrite insert_union_singleton_l, map_union_assoc|]. split; [by apply map_disjoint_insert_l|by apply owns_model].
  - intros H fuel _ _. exists [], ∅. rewrite map_empty_union. split; [done|]. split; [apply map_disjoint_empty_l|constructor].
  - intros h1 h2 t ts p m _ IH1 _ IH2 Hd H fuel Hsub Hf. unfold depths in *. simpl in *.
    destruct (union_parts h1 h2 H Hd Hsub) as [Hs1 Hs2].
    destruct (IH1 H fuel Hs1 ltac:(lia)) as (p' & h1' & Hrun1 & Hd1 & Hown1). rewrite Hrun1. simpl.
    destruct (IH2 (h1' ∪ H) fuel) as (m' & h2' & Hrun2 & Hd2 & Hown2); [by apply map_union_subseteq_r'|lia|].
    rewrite Hrun2. simpl. apply map_disjoint_union_r in Hd2 as [Hd21 Hd2H].
    exists (p' :: m'), (h1' ∪ h2'). split; [|split; [by apply map_disjoint_union_l|by constructor]].
    rewrite map_union_assoc. do 3 f_equal. by apply map_union_comm.
Qed.

Lemma destroy_owned_run :
  (∀ h t p, owns h t p → ∀ H fuel, h ##ₘ H → (depth t <= fuel)%nat → destroy fuel p (h ∪ H) = Some H) ∧
  (∀ h ts m, owns_all h ts m → ∀ H fuel, h ##ₘ H → (depths ts <= fuel)%nat →
    destroy_vector (destroy fuel) m (h ∪ H) = Some H).
Proof.
  apply owns_both.
  - intros p d t Ht H fuel Hd Hf. rewrite (leaf_depth t d Ht) in Hf. destruct fuel as [|fuel]; [lia|]. simpl.
    apply map_disjoint_singleton_l in Hd. rewrite <-insert_union_singleton_l, lookup_insert_eq. simpl.
    destruct t; simplify_eq/=; by rewrite delete_insert_id.
  - intros p m ts h Hall IH Hp H [|fuel] Hd Hf; [simpl in Hf; lia|]. simpl.
    apply map_disjoint_insert_l in Hd as [HpH Hd]. rewrite <-insert_union_l, lookup_insert_eq. simpl.
    rewrite insert_union_r by done. rewrite IH; [|by apply map_disjoint_insert_r|unfold depths; simpl in Hf; lia].
    simpl. by rewrite delete_insert_id.
  - intros H fuel _ _. simpl. by rewrite map_empty_union.
  - intros h1 h2 t ts p m _ IH1 _ IH2 Hd H fuel HdH Hf. unfold depths in *. simpl in *.
    apply map_disjoint_union_l in HdH as [Hd1 Hd2]. rewrite <-map_union_assoc.
    rewrite IH1; [|by apply map_disjoint_union_r|lia]. simpl. apply IH2; [done|lia].
Qed.

(** ** Sequences of statements on a document *)
Inductive statement := PushLeaf (d : data) | PushDocument | Assign (i j : nat).

Definition execute (fuel : nat) (st : statement) (m : list positive) (h : store) : option (list positive * store) :=
  match st with
  | PushLeaf d => Some (push_back m d h)
  | PushDocument => push_back_model fuel m m h
  | Assign i j => self ← m !! i; rhs ← m !! j; '(p, h) ← assign fuel self rhs h; Some (<[i := p]> m, h)
  end.
Fixpoint execute_all (fuel : nat) (l : list statement) (m : list positive) (h : store) : option (list positive * store) :=
  match l with [] => Some (m, h) | st :: l => '(m, h) ← execute fuel st m h; execute_all fuel l m h end.

(** The same on values: [None] for an element that is not there. *)
Definition meaning (st : statement) (ts : list tree) : option (list tree) :=
  match st with
  | PushLeaf (DInt i) => Some (app ts [TInt i])
  | PushLeaf (DVector v) => Some (app ts [TVector v])
  | PushLeaf (DPolygon vs) => Some (app ts [TPolygon vs])
  | PushLeaf (DModel _) => None
  | PushDocument => Some (app ts [TModel ts])
  | Assign i j => _ ← ts !! i; t ← ts !! j; Some (<[i := t]> ts)
  end.
Fixpoint meanings (l : list statement) (ts : list tree) : option (list tree) :=
  match l with [] => Some ts | st :: l => ts ← meaning st ts; meanings l ts end.

Lemma owns_all_inv h ts m : owns_all h ts m →
  match ts, m with
  | [], [] => h = ∅
  | t :: ts, p :: m => ∃ h1 h2, h = h1 ∪ h2 ∧ h1 ##ₘ h2 ∧ owns h1 t p ∧ owns_all h2 ts m
  | _, _ => False
  end.
Proof. destruct 1; [done|]. naive_solver. Qed.

Lemma owns_app ts1 : ∀ h1 h2 m1 ts2 m2, owns_all h1 ts1 m1 → owns_all h2 ts2 m2 → h1 ##ₘ h2 →
  owns_all (h1 ∪ h2) (app ts1 ts2) (app m1 m2).
Proof.
  induction ts1 as [|t ts1 IH]; intros h1 h2 [|p m1] ts2 m2 H1 H2 Hd; apply owns_all_inv in H1; try done.
  - rewrite H1. by rewrite map_empty_union.
  - destruct H1 as (ha & hb & -> & Hab & Ho & Hall). apply map_disjoint_union_l in Hd as [Hda Hdb].
    rewrite <-map_union_assoc. simpl. constructor; [done|by apply IH|by apply map_disjoint_union_r].
Qed.

(** One element of a document is apart from the others. *)
Lemma owns_split ts : ∀ h m i t p, owns_all h ts m → ts !! i = Some t → m !! i = Some p →
  ∃ hi hr, h = hi ∪ hr ∧ hi ##ₘ hr ∧ owns hi t p ∧
    ∀ hi' t' p', hi' ##ₘ hr → owns hi' t' p' → owns_all (hi' ∪ hr) (<[i := t']> ts) (<[i := p']> m).
Proof.
  induction ts as [|t0 ts IH]; intros h [|p0 m] i t p Hall Ht Hp; apply owns_all_inv in Hall; try done.
  destruct Hall as (h1 & h2 & -> & Hd & Ho & Hall). destruct i as [|i].
  - injection Ht as <-. injection Hp as <-. exists h1, h2. split; [done|]. split; [done|]. split; [done|].
    intros hi' t' p' Hd' Ho'. by constructor.
  - destruct (IH h2 m i t p Hall Ht Hp) as (hi & hr & -> & Hir & Hoi & Hrep). apply map_disjoint_union_r in Hd as [Hd1 Hd2].
    exists hi, (h1 ∪ hr). split; [|split; [by apply map_disjoint_union_r|split; [done|]]].
    + rewrite !map_union_assoc. f_equal. by apply map_union_comm.
    + intros hi' t' p' Hd' Ho'. apply map_disjoint_union_r in Hd' as [Hd1' Hdr'].
      rewrite map_union_assoc, (map_union_comm hi' h1), <-map_union_assoc by done. simpl.
      constructor; [done|by apply Hrep|]. by apply map_disjoint_union_r.
Qed.

Lemma owns_lengths ts : ∀ h m, owns_all h ts m → length m = length ts.
Proof.
  induction ts as [|t ts IH]; intros h [|p m] Hall; apply owns_all_inv in Hall; try done.
  destruct Hall as (h1 & h2 & _ & _ & _ & Hall). simpl. f_equal. by apply (IH h2).
Qed.

Lemma depth_elem ts i t : ts !! i = Some t → (depth t <= depths ts)%nat.
Proof.
  revert i. induction ts as [|t0 ts IH]; intros [|i] Ht; try done; unfold depths in *; simpl.
  - injection Ht as ->. lia.
  - specialize (IH i Ht). lia.
Qed.

(** One statement; a document of depth [n] becomes one of depth at most [n + 1]. *)
Lemma execute_run st ts ts' h m fuel : owns_all h ts m → meaning st ts = Some ts' → (depths ts < fuel)%nat →
  ∃ m' h', execute fuel st m h = Some (m', h') ∧ owns_all h' ts' m'.
Proof.
  intros Hall Hst Hf. assert (Hnew : ∀ d t, leaf t = Some d → ts' = app ts [t] → ∃ m' h', Some (push_back m d h) = Some (m', h') ∧ owns_all h' ts' m').
  { intros d t Ht ->. destruct (make_unique_run d h) as (p & Hnew & Hp). exists (app m [p]), (h ∪ {[p := d]}).
    unfold push_back. rewrite Hnew. split.
    - do 2 f_equal. apply map_union_comm. by apply map_disjoint_singleton_l_2.
    - apply owns_app; [done| |by apply map_disjoint_singleton_r_2]. rewrite <-(map_union_empty {[p := d]}).
      constructor; [by constructor|constructor|apply map_disjoint_empty_r]. }
  destruct st as [[i|v|vs|x]| |i j]; simpl in Hst; try discriminate Hst.
  - injection Hst as <-. by apply (Hnew _ (TInt i)).
  - injection Hst as <-. by apply (Hnew _ (TVector v)).
  - injection Hst as <-. by apply (Hnew _ (TPolygon vs)).
  - injection Hst as <-. cbn [execute]. unfold push_back_model.
    destruct (proj2 copy_run h ts m Hall h fuel) as (m' & h' & Hrun & Hd & Hown); [done|lia|]. rewrite Hrun. simpl.
    unfold push_back. destruct (make_unique_run (DModel m') (h' ∪ h)) as (p & -> & Hp). apply lookup_union_None in Hp as [Hp1 Hp2].
    exists (app m [p]), (h ∪ <[p := DModel m']> h'). split.
    + do 2 f_equal. rewrite (map_union_comm h) by (by apply map_disjoint_insert_r).
      by rewrite insert_union_singleton_l, map_union_assoc.
    + apply owns_app; [done| |by apply map_disjoint_insert_r]. rewrite <-(map_union_empty (<[p := _]> h')).
      constructor; [by constructor|constructor|apply map_disjoint_empty_r].
  - apply bind_Some in Hst as (ti & Hi & Hst). apply bind_Some in Hst as (tj & Hj & [= <-]). cbn [execute].
    pose proof (owns_lengths ts h m Hall) as Hlen.
    destruct (lookup_lt_is_Some_2 m i) as [pi Hpi]; [rewrite Hlen; by eapply lookup_lt_Some|].
    destruct (lookup_lt_is_Some_2 m j) as [pj Hpj]; [rewrite Hlen; by eapply lookup_lt_Some|].
    rewrite Hpi, Hpj. simpl. unfold assign.
    destruct (owns_split ts h m j tj pj Hall Hj Hpj) as (hj & hrj & Hhj & _ & Hoj & _).
    destruct (owns_split ts h m i ti pi Hall Hi Hpi) as (hi & hr & Hhi & Hir & Hoi & Hrep).
    pose proof (depth_elem ts i ti Hi). pose proof (depth_elem ts j tj Hj).
    destruct (proj1 copy_run hj tj pj Hoj h fuel) as (p' & h' & Hrun & Hd & Hown); [rewrite Hhj; apply map_union_subseteq_l|lia|].
    rewrite Hrun. simpl. rewrite Hhi in Hd |- *. apply map_disjoint_union_r in Hd as [Hdi Hdr].
    rewrite map_union_assoc, (map_union_comm h' hi), <-map_union_assoc by done.
    rewrite (proj1 destroy_owned_run hi ti pi Hoi (h' ∪ hr) fuel) by (first [by apply map_disjoint_union_r|lia]). simpl.
    exists (<[i := p']> m), (h' ∪ hr). split; [done|by apply Hrep].
Qed.

Lemma meaning_depth st ts ts' : meaning st ts = Some ts' → (depths ts' <= S (depths ts))%nat.
Proof.
  assert (Happ : ∀ t, (depths (app ts [t]) <= depths ts `max` depth t)%nat).
  { intros t. unfold depths. induction ts as [|t0 ts0 IH]; simpl; lia. }
  intros Hst. destruct st as [[i|v|vs|x]| |i j]; simpl in Hst; try discriminate Hst.
  1-3: injection Hst as <-; etrans; [apply Happ|simpl; lia].
  - injection Hst as <-. etrans; [apply Happ|]. cbn [depth]. fold (depths ts). lia.
  - apply bind_Some in Hst as (ti & Hi & Hst). apply bind_Some in Hst as (tj & Hj & [= <-]).
    pose proof (depth_elem ts j tj Hj) as Hd. clear Hj Hi.
    assert (Hins : ∀ n, (depth tj <= n)%nat → (depths ts <= n)%nat → (depths (<[i := tj]> ts) <= n)%nat).
    { clear. intros n Ht. revert i. induction ts as [|t0 ts IH]; intros [|i]; unfold depths in *; simpl; try lia.
      intros Hn. specialize (IH i). lia. }
    apply Nat.le_le_succ_r, Hins; [done|lia].
Qed.

Lemma execute_all_run l : ∀ ts ts' h m fuel, owns_all h ts m → meanings l ts = Some ts' → (depths ts + length l < fuel)%nat →
  ∃ m' h', execute_all fuel l m h = Some (m', h') ∧ owns_all h' ts' m' ∧ (depths ts' < fuel)%nat.
Proof.
  induction l as [|st l IH]; intros ts ts' h m fuel Hall Hl Hf; simpl in *.
  - injection Hl as <-. exists m, h. split; [done|]. split; [done|lia].
  - apply bind_Some in Hl as (ts1 & Hst & Hl). pose proof (meaning_depth st ts ts1 Hst).
    destruct (execute_run st ts ts1 h m fuel Hall Hst ltac:(lia)) as (m1 & h1 & Hrun & Hall1). rewrite Hrun. simpl.
    apply (IH ts1 ts' h1 m1 fuel Hall1 Hl). lia.
Qed.

(** C38: a document is a value: after any sequence of insertions of leaves, of the document
    into itself and of assignments of elements, the text is that of the list of trees to which
    the same statements lead without any sharing, and destroying the document leaves no
    object; an object is never destroyed twice. As many turns as there are statements, and
    two, are enough. *)
Theorem documents_are_values (l : list statement) ts fuel : meanings l [] = Some ts → (length l + 2 <= fuel)%nat →
  ('(m, h) ← execute_all fuel l [] ∅; finish fuel m h) = Some (render 0 (TModel ts), ∅).
Proof.
  intros Hl Hf. destruct (execute_all_run l [] ts ∅ [] fuel) as (m & h & Hrun & Hall & Hd); [constructor|done|unfold depths; simpl; lia|].
  rewrite Hrun. simpl. unfold finish, draw.
  rewrite (proj2 draw_run h ts m Hall h fuel (0 + 2)%nat) by (done || lia). simpl.
  rewrite <-(map_union_empty h). rewrite (proj2 destroy_owned_run h ts m Hall ∅ fuel) by (apply map_disjoint_empty_r || lia).
  done.
Qed.

Lemma documents_are_values_witness :
  ('(m, h) ← execute_all 7 [PushLeaf (DInt 0); PushDocument; PushDocument; Assign 0 2; Assign 1 1] [] ∅; finish 7 m h) =
  Some (render 0 (TModel [TModel [TInt 0; TModel [TInt 0]]; TModel [TInt 0]; TModel [TInt 0; TModel [TInt 0]]]), ∅).
Proof. apply documents_are_values; [reflexivity|simpl; lia]. Defined.
