(* ===== verification/Zip.v ===== *)
(** * Zipped ranges: [src/14-iterators/ziprange.hpp] and [ziptests.cc]

    Iterators of the two containers are positions; increments and reads past the end have no
    behaviour. *)

From S2P Require Import Prelude.

Module Zip.
Section zip.
Context {Key Value : Type}.

(** [zip_iterator_t], and [zip_range_t] as the pair of its containers. *)
Record zip_iterator := mkZip { Kit_ : nat; Vit_ : nat }.

Definition increment (keys : list Key) (values : list Value) (it : zip_iterator) : option zip_iterator :=
  if decide (Kit_ it < length keys ∧ Vit_ it < length values)%nat then Some (mkZip (S (Kit_ it)) (S (Vit_ it))) else None.
Definition equals (lhs rhs : zip_iterator) : bool := bool_decide (Kit_ lhs = Kit_ rhs) && bool_decide (Vit_ lhs = Vit_ rhs).
Definition differs (lhs rhs : zip_iterator) : bool := negb (equals lhs rhs).

(** [*it], whose components are references: what they refer to, and assignments to them. *)
Definition deref (keys : list Key) (values : list Value) (it : zip_iterator) : option (Key * Value) :=
  k ← keys !! Kit_ it; v ← values !! Vit_ it; Some (k, v).
Definition set_first (keys : list Key) (values : list Value) (it : zip_iterator) (k : Key) : option (list Key) :=
  _ ← deref keys values it; Some (<[Kit_ it := k]> keys).
Definition set_second (keys : list Key) (values : list Value) (it : zip_iterator) (v : Value) : option (list Value) :=
  _ ← deref keys values it; Some (<[Vit_ it := v]> values).

Definition begin (keys : list Key) (values : list Value) : zip_iterator := mkZip 0 0.
Definition end_ (keys : list Key) (values : list Value) : zip_iterator := mkZip (length keys) (length values).

(** [for (auto &&both : make_zip_range(keys, values))]: the pairs that are visited. *)
Fixpoint loop (fuel : nat) (keys : list Key) (values : list Value) (it last : zip_iterator) : option (list (Key * Value)) :=
  if differs it last then
    match fuel with
    | O => None
    | S fuel =>
      both ← deref keys values it;
      it ← increment keys values it;
      rest ← loop fuel keys values it last;
      Some (both :: rest)
    end
  else Some [].
Definition range_for (fuel : nat) (keys : list Key) (values : list Value) : option (list (Key * Value)) :=
  loop fuel keys values (begin keys values) (end_ keys values).
End zip.

(** [main], on the doubles [v]. *)
Definition main {Double : Type} (v : list Double) : option (list (Z * Double)) :=
  let b := [false; false; true; false] in
  let k := [1; 2; 3; 4] in
  let zit := begin k b in
  first ← fst <$> deref k b zit; front ← head k; _ ← (if first =? front then Some () else None);
  k ← set_first k b zit 42;
  first ← fst <$> deref k b zit; _ ← (if first =? 42 then Some () else None);
  b ← set_second k b zit true;
  front ← head b; _ ← (if front : bool then Some () else None);
  range_for 4 k v.
End Zip.
Import Zip.

Example main_zips {Double} (a b c d : Double) : Zip.main [a; b; c; d] = Some [(42, a); (2, b); (3, c); (4, d)].
Proof. reflexivity. Qed.

Lemma zip_loop_run {Key Value} (keys : list Key) (values : list Value) n : ∀ fuel i,
  (i <= length keys)%nat → (i <= length values)%nat → n = (length keys - i)%nat → (n <= fuel)%nat →
  loop fuel keys values (mkZip i i) (end_ keys values) =
    if decide (length keys = length values) then Some (zip (drop i keys) (drop i values)) else None.
Proof.
  induction n as [|n IH]; intros fuel i Hk Hv Hn Hf.
  - assert (i = length keys) as -> by lia. rewrite (drop_ge keys) by lia. destruct (decide _) as [Heq|Hne].
    + assert (Hd : differs (mkZip (length keys) (length keys)) (end_ keys values) = false).
      { unfold differs, equals, end_. simpl. by rewrite !bool_decide_eq_true_2 by lia. }
      destruct fuel; simpl; by rewrite Hd.
    + assert (Hd : differs (mkZip (length keys) (length keys)) (end_ keys values) = true).
      { unfold differs, equals, end_. simpl. by rewrite bool_decide_eq_true_2, bool_decide_eq_false_2 by lia. }
      destruct fuel; simpl; rewrite Hd; [done|]. unfold deref. simpl. by rewrite (lookup_ge_None_2 keys (length keys)) by lia.
  - destruct fuel as [|fuel]; [lia|]. cbn [loop].
    assert (Hd : differs (mkZip i i) (end_ keys values) = true).
    { unfold differs, equals, end_. simpl. by rewrite (bool_decide_eq_false_2 (i = length keys)) by lia. }
    rewrite Hd. unfold deref. simpl. destruct (lookup_lt_is_Some_2 keys i) as [k Hki]; [lia|]. rewrite Hki. simpl.
    destruct (values !! i) as [v|] eqn:Hvi; simpl.
    2: { apply lookup_ge_None_1 in Hvi. by rewrite decide_False by lia. }
    apply lookup_lt_Some in Hvi as Hlt. unfold increment. simpl. rewrite decide_True by lia. simpl.
    rewrite IH by lia. destruct (decide _); [|done]. simpl. by rewrite (drop_S keys k i Hki), (drop_S values v i Hvi).
Qed.

(** A loop over a zipped range visits the pairs in order when the containers have one length,
    and otherwise has no behaviour: two iterators are equal only when both components are, so
    that the loop goes on past the end of the shorter container. *)
Theorem range_for_zips {Key Value} (keys : list Key) (values : list Value) fuel : (length keys <= fuel)%nat →
  range_for fuel keys values = if decide (length keys = length values) then Some (zip keys values) else None.
Proof. intros Hf. by apply (zip_loop_run keys values (length keys) fuel 0); lia. Qed.
