(* ===== verification/Vk.v ===== *)
(** * The rules of Vulkan that a program has to keep

    The specification side of [src/10-3d/vk-simplest.cc]: the calls that matter for lifetime
    and synchronisation as events, what the host knows of the device after them, and which
    event is allowed when (the valid usage of the Vulkan specification). Nothing of an
    implementation of Vulkan is modelled: what the calls answer is up to the driver. *)

From S2P Require Import Prelude.

Abbreviation handle := nat.

Inductive kind :=
| KWindow | KInstance | KSurface | KDevice | KShaderModule | KSwapchain | KImage | KImageView
| KRenderPass | KPipelineLayout | KPipeline | KFramebuffer | KCommandPool | KCommandBuffer
| KBuffer | KMemory | KSemaphore | KFence.

#[export] Instance kind_eq_dec : EqDecision kind.
Proof. solve_decision. Defined.

(** [VkSwapchainCreateInfoKHR] *)
Record SwapchainCreateInfo := {
  minImageCount : Z; imageFormat : Z; imageColorSpace : Z; imageExtent : Z * Z; imageArrayLayers : Z; imageUsage : Z;
  imageSharingMode : Z; queueFamilyIndices : list Z; preTransform : Z; compositeAlpha : Z; presentMode : Z; clipped : bool }.

(** [VkImageViewCreateInfo]; the components are not swizzled. *)
Record ImageViewCreateInfo := {
  viewType : Z; viewFormat : Z; aspectMask : Z; baseMipLevel : Z; levelCount : Z; baseArrayLayer : Z; layerCount : Z }.

(** [VkRenderPassCreateInfo] with one attachment (and its layouts before and after), one
    subpass that refers to it, and one dependency: source, destination, stages and accesses. *)
Record RenderPassCreateInfo := {
  passFormat : Z; passSamples : Z; loadOp : Z; storeOp : Z; stencilLoadOp : Z; stencilStoreOp : Z; initialLayout : Z; finalLayout : Z;
  pipelineBindPoint : Z; colorAttachments : list (Z * Z); dependency : (Z * Z) * (Z * Z) * (Z * Z) }.

(** [VkGraphicsPipelineCreateInfo] and the states it points to. *)
Record PipelineCreateInfo := {
  stages : list (Z * handle); bindings : list (Z * Z * Z); attributes : list (Z * Z * Z * Z); topology : Z;
  primitiveRestartEnable : bool; viewport : Z * Z; scissor : Z * Z; depthClampEnable : bool; rasterizerDiscardEnable : bool;
  polygonMode : Z; lineWidth : Z; cullMode : Z; frontFace : Z; depthBiasEnable : bool; sampleShadingEnable : bool;
  rasterizationSamples : Z; colorWriteMask : Z; blendEnable : bool; logicOpEnable : bool; logicOp : Z; blendConstants : list Z; subpass : Z }.

(** What an object is created with, besides other objects. *)
Inductive info :=
| NoInfo
| InfoQueues (families : list Z)
| InfoCode (size : Z)
| InfoSwapchain (i : SwapchainCreateInfo)
| InfoView (i : ImageViewCreateInfo)
| InfoPass (i : RenderPassCreateInfo)
| InfoPipeline (i : PipelineCreateInfo)
| InfoFramebuffer (extent : Z * Z) (layers : Z)
| InfoFamily (family : Z)
| InfoBuffer (size usage sharingMode : Z)
| InfoMemory (size type : Z)
| InfoSignaled.

(** What a command buffer records. *)
Inductive command :=
| CmdCopyBuffer (src dst : handle) (size : Z)
| CmdBeginRenderPass (pass framebuffer : handle) (area : Z * Z)
| CmdBindPipeline (pipeline : handle)
| CmdBindVertexBuffer (buffer : handle)
| CmdBindIndexBuffer (buffer : handle)
| CmdDrawIndexed (count : Z)
| CmdEndRenderPass.

(** [from]: the objects that the call names; the parent is among them. [Noticed] is a call
    that only reads, [Refused] one that returned an error. *)
Inductive event :=
| Noticed
| Refused (res : Z)
| Created (k : kind) (h : handle) (from : list handle) (i : info)
| Destroyed (k : kind) (h : handle)
| Images (swapchain : handle) (images : list handle)
| Used (hs : list handle)
| Recorded (buffer : handle) (commands : list command)
| Waited (fence : handle)
| ResetFence (fence : handle)
| Acquired (swapchain semaphore image : handle)
| Submitted (buffer : handle) (wait signal fence : option handle)
| Presented (swapchain semaphore image : handle)
| Idle.

(** [InFlight]: given to a submission that the host has not yet seen complete. *)
Inductive fence_state := Unsignaled | InFlight | Signaled.

#[export] Instance fence_state_eq_dec : EqDecision fence_state.
Proof. solve_decision. Defined.

Record submission := Submission { s_buffer : handle; s_fence : option handle; s_uses : list handle }.

(** What the host knows: the objects, with kind and origin; the fences; the semaphores with a
    signal that nothing waits for yet; the images acquired and not presented; the recorded
    command buffers, with the framebuffer they draw into and the objects they use; the
    submissions that may be executing. *)
Record gpu := Gpu {
  live : gmap handle (kind * list handle);
  fences : gmap handle fence_state;
  signals : gset handle;
  acquired : gset handle;
  recorded : gmap handle (option handle * list handle);
  pending : list submission }.

Definition gpu0 : gpu := Gpu ∅ ∅ ∅ ∅ ∅ [].

Definition alive (g : gpu) (hs : list handle) : Prop := Forall (λ h, is_Some (live g !! h)) hs.
Definition of_kind (g : gpu) (k : kind) (h : handle) : Prop := fst <$> live g !! h = Some k.
Definition idle (g : gpu) (h : handle) : Prop := Forall (λ s, h ∉ s_uses s) (pending g).

#[export] Instance alive_dec g hs : Decision (alive g hs).
Proof. unfold alive. apply _. Defined.
#[export] Instance of_kind_dec g k h : Decision (of_kind g k h).
Proof. unfold of_kind. apply _. Defined.
#[export] Instance idle_dec g h : Decision (idle g h).
Proof. unfold idle. apply _. Defined.

(** The image that a framebuffer is a view of. *)
Definition image_of (g : gpu) (fb : handle) : option handle :=
  match live g !! fb with
  | Some (KFramebuffer, [_; _; view]) =>
    match live g !! view with Some (KImageView, [_; image]) => Some image | _ => None end
  | _ => None
  end.

Definition set_live x g := Gpu x (fences g) (signals g) (acquired g) (recorded g) (pending g).
Definition set_fences x g := Gpu (live g) x (signals g) (acquired g) (recorded g) (pending g).
Definition set_signals x g := Gpu (live g) (fences g) x (acquired g) (recorded g) (pending g).
Definition set_acquired x g := Gpu (live g) (fences g) (signals g) x (recorded g) (pending g).
Definition set_recorded x g := Gpu (live g) (fences g) (signals g) (acquired g) x (pending g).
Definition set_pending x g := Gpu (live g) (fences g) (signals g) (acquired g) (recorded g) x.

(** ** The rules *)
Definition allow (P : Prop) `{Decision P} (g : gpu) : option gpu := if decide P then Some g else None.

(** A created object is new, its origins are alive. *)
Definition create (k : kind) (h : handle) (from : list handle) (i : info) (g : gpu) : option gpu :=
  allow (live g !! h = None ∧ alive g from)
    (let g := set_live (<[h := (k, from)]> (live g)) g in
     match k, i with
     | KFence, InfoSignaled => set_fences (<[h := Signaled]> (fences g)) g
     | KFence, _ => set_fences (<[h := Unsignaled]> (fences g)) g
     | _, _ => g
     end).

(** The objects that have to outlive the objects created from them: an instance, a device,
    and a surface its swapchains. *)
Definition owners : list kind := [KInstance; KDevice; KSurface].
Definition childless (g : gpu) (h : handle) : Prop := map_Forall (λ _ x, h ∉ x.2) (live g).
#[export] Instance childless_dec g h : Decision (childless g h).
Proof. unfold childless. apply _. Defined.

(** A destroyed object exists, and nothing that may be executing uses it; nothing executes on
    a device that is destroyed; an owner has no children left. With a swapchain go its images. *)
Definition destroy (k : kind) (h : handle) (g : gpu) : option gpu :=
  allow (of_kind g k h ∧ idle g h ∧ (k = KDevice → pending g = []) ∧ (k ∈ owners → childless g h))
    (let g := set_live (delete h (live g)) g in
     match k with
     | KSwapchain => set_live (filter (λ x, x.2 ≠ (KImage, [h])) (live g)) g
     | KCommandBuffer => set_recorded (delete h (recorded g)) g
     | _ => g
     end).

Definition images (swapchain : handle) (hs : list handle) (g : gpu) : option gpu :=
  allow (of_kind g KSwapchain swapchain ∧ NoDup hs ∧ Forall (λ h, live g !! h = None) hs)
    (set_live (foldr (λ h, <[h := (KImage, [swapchain])]>) (live g) hs) g).

(** The objects of a command, with their kinds. *)
Definition objects (c : command) : list (kind * handle) :=
  match c with
  | CmdCopyBuffer src dst _ => [(KBuffer, src); (KBuffer, dst)]
  | CmdBeginRenderPass pass fb _ => [(KRenderPass, pass); (KFramebuffer, fb)]
  | CmdBindPipeline p => [(KPipeline, p)]
  | CmdBindVertexBuffer b | CmdBindIndexBuffer b => [(KBuffer, b)]
  | CmdDrawIndexed _ | CmdEndRenderPass => []
  end.

(** What is drawn into. *)
Fixpoint target_of (cs : list command) : option handle :=
  match cs with [] => None | CmdBeginRenderPass _ fb _ :: _ => Some fb | _ :: cs => target_of cs end.

(** Copies are outside and drawing is inside a render pass that ends; there is one pass at most, and a draw finds
    what it needs bound. *)
Fixpoint ordered (ended pass pipeline vertices indices : bool) (cs : list command) : bool :=
  match cs with
  | [] => negb pass
  | CmdCopyBuffer _ _ _ :: cs => negb pass && ordered ended pass pipeline vertices indices cs
  | CmdBeginRenderPass _ _ _ :: cs => negb pass && negb ended && ordered ended true pipeline vertices indices cs
  | CmdBindPipeline _ :: cs => ordered ended pass true vertices indices cs
  | CmdBindVertexBuffer _ :: cs => ordered ended pass pipeline true indices cs
  | CmdBindIndexBuffer _ :: cs => ordered ended pass pipeline vertices true cs
  | CmdDrawIndexed _ :: cs => pass && pipeline && vertices && indices && ordered ended pass pipeline vertices indices cs
  | CmdEndRenderPass :: cs => pass && ordered true false pipeline vertices indices cs
  end.

(** A command buffer is not recorded while it executes. *)
Definition record (buffer : handle) (cs : list command) (g : gpu) : option gpu :=
  allow (of_kind g KCommandBuffer buffer ∧ idle g buffer ∧ Forall (λ x, of_kind g x.1 x.2) (cs ≫= objects) ∧
      ordered false false false false false cs = true)
    (set_recorded (<[buffer := (target_of cs, snd <$> (cs ≫= objects))]> (recorded g)) g).

(** Waiting for a fence that was neither created signaled nor submitted would never end. *)
Definition wait_fence (fence : handle) (g : gpu) : option gpu :=
  allow (fences g !! fence = Some InFlight ∨ fences g !! fence = Some Signaled)
    (set_pending (filter (λ s, s_fence s ≠ Some fence) (pending g))
      (set_fences (<[fence := Signaled]> (fences g)) g)).
Definition reset_fence (fence : handle) (g : gpu) : option gpu :=
  allow (fences g !! fence = Some Signaled) (set_fences (<[fence := Unsignaled]> (fences g)) g).

(** The semaphore of an acquisition is unsignaled and not in use. *)
Definition acquire (swapchain semaphore image : handle) (g : gpu) : option gpu :=
  allow (of_kind g KSwapchain swapchain ∧ live g !! image = Some (KImage, [swapchain]) ∧ (image ∉ acquired g) ∧
      of_kind g KSemaphore semaphore ∧ (semaphore ∉ signals g) ∧ idle g semaphore)
    (set_acquired ({[image]} ∪ acquired g) (set_signals ({[semaphore]} ∪ signals g) g)).

(** A submitted command buffer is recorded and not executing, what it uses is alive, and it
    draws into an acquired image; it waits for a semaphore with a signal, signals one without,
    and its fence is unsignaled. *)
Definition submit (buffer : handle) (waits signal fence : option handle) (g : gpu) : option gpu :=
  match recorded g !! buffer with
  | None => None
  | Some (target, uses) =>
    allow (of_kind g KCommandBuffer buffer ∧ idle g buffer ∧ alive g uses ∧
        Forall (λ fb, Forall (λ x, x ∈ acquired g) (option_list (image_of g fb)) ∧ image_of g fb ≠ None) (option_list target) ∧
        Forall (λ h, h ∈ signals g) (option_list waits) ∧
        Forall (λ h, of_kind g KSemaphore h ∧ h ∉ signals g) (option_list signal) ∧
        Forall (λ h, fences g !! h = Some Unsignaled) (option_list fence))
      (let g := set_signals (list_to_set (option_list signal) ∪ (signals g ∖ list_to_set (option_list waits))) g in
       let g := set_pending (Submission buffer fence (buffer :: option_list target ++ uses ++ option_list waits ++
         option_list signal ++ option_list fence) :: pending g) g in
       match fence with Some f => set_fences (<[f := InFlight]> (fences g)) g | None => g end)
  end.

(** A presented image has been acquired, and the semaphore to wait for has a signal. *)
Definition present (swapchain semaphore image : handle) (g : gpu) : option gpu :=
  allow (of_kind g KSwapchain swapchain ∧ image ∈ acquired g ∧ semaphore ∈ signals g)
    (set_acquired (acquired g ∖ {[image]}) (set_signals (signals g ∖ {[semaphore]}) g)).

(** The device has finished everything. *)
Definition quiesce (g : gpu) : gpu :=
  set_pending [] (set_fences ((λ f, if decide (f = InFlight) then Signaled else f) <$> fences g) g).

Definition step (g : gpu) (e : event) : option gpu :=
  match e with
  | Noticed | Refused _ => Some g
  | Created k h from i => create k h from i g
  | Destroyed k h => destroy k h g
  | Images sc hs => images sc hs g
  | Used hs => allow (alive g hs) g
  | Recorded b cs => record b cs g
  | Waited f => wait_fence f g
  | ResetFence f => reset_fence f g
  | Acquired sc s i => acquire sc s i g
  | Submitted b w s f => submit b w s f g
  | Presented sc s i => present sc s i g
  | Idle => Some (quiesce g)
  end.

(** The state after a trace, the newest event first, when it keeps every rule. *)
Fixpoint legal (trace : list event) : option gpu :=
  match trace with [] => Some gpu0 | e :: trace => g ← legal trace; step g e end.

(** ** A rule kept apart

    A presentation waits for its semaphore at some time after the call, and the host learns
    that it has done so when the image is acquired again or the device is idle. Until then no
    submission may signal the semaphore. [present] above does not keep track of this. *)
Fixpoint presenting (trace : list event) : list (handle * handle) :=
  match trace with
  | [] => []
  | Presented _ s i :: trace => (s, i) :: presenting trace
  | Acquired _ _ i :: trace => filter (λ x, x.2 ≠ i) (presenting trace)
  | Idle :: _ => []
  | _ :: trace => presenting trace
  end.
Fixpoint signals_free (trace : list event) : bool :=
  match trace with
  | [] => true
  | Submitted _ _ (Some s) _ :: trace => bool_decide (s ∉ (presenting trace).*1) && signals_free trace
  | _ :: trace => signals_free trace
  end.

(** How many objects of a kind exist. *)
Definition census (g : gpu) (k : kind) : nat := size (filter (λ x, x.2.1 = k) (live g)).
