(* ===== verification/VkProgram.v ===== *)
(** * A triangle with Vulkan: [src/10-3d/vk-simplest.cc]

    The whole program, from the window to the destructor, as calls that a driver answers. A
    handle is the number of the object it names; a field that has not been assigned holds no
    handle, and using it has no behaviour. The driver answers by the number of calls made so
    far, so that the answers to a call may change in any way. The contents of the vertex
    buffers and the recorded drawing commands are left out, and so is what is printed while
    the program runs. *)

From stdpp Require Import functions.
From S2P Require Import Prelude Vk.

Definition VK_SUCCESS : Z := 0.
Definition VK_SUBOPTIMAL_KHR : Z := 1000001003.
Definition VK_ERROR_OUT_OF_DATE_KHR : Z := -1000001004.
Definition VK_QUEUE_GRAPHICS_BIT : Z := 1.
Definition VK_FORMAT_B8G8R8A8_SRGB : Z := 50.
Definition VK_COLOR_SPACE_SRGB_NONLINEAR_KHR : Z := 0.
Definition VK_PRESENT_MODE_FIFO_KHR : Z := 2.
Definition VK_SHARING_MODE_EXCLUSIVE : Z := 0.
Definition VK_SHARING_MODE_CONCURRENT : Z := 1.
Definition VK_FORMAT_R32G32_SFLOAT : Z := 103.
Definition VK_FORMAT_R32G32B32_SFLOAT : Z := 106.
Definition VK_VERTEX_INPUT_RATE_VERTEX : Z := 0.
Definition VK_SHADER_STAGE_VERTEX_BIT : Z := 1.
Definition VK_SHADER_STAGE_FRAGMENT_BIT : Z := 16.
Definition VK_PRIMITIVE_TOPOLOGY_TRIANGLE_LIST : Z := 3.
Definition VK_POLYGON_MODE_FILL : Z := 0.
Definition VK_CULL_MODE_NONE : Z := 0.
Definition VK_FRONT_FACE_COUNTER_CLOCKWISE : Z := 0.
Definition VK_SAMPLE_COUNT_1_BIT : Z := 1.
Definition VK_COLOR_COMPONENTS_RGBA : Z := 15.
Definition VK_LOGIC_OP_COPY : Z := 3.
Definition VK_BUFFER_USAGE_TRANSFER_SRC_BIT : Z := 1.
Definition VK_BUFFER_USAGE_TRANSFER_DST_BIT : Z := 2.
Definition VK_BUFFER_USAGE_INDEX_BUFFER_BIT : Z := 64.
Definition VK_BUFFER_USAGE_VERTEX_BUFFER_BIT : Z := 128.
Definition VK_MEMORY_PROPERTY_DEVICE_LOCAL_BIT : Z := 1.
Definition VK_MEMORY_PROPERTY_HOST_VISIBLE_BIT : Z := 2.
Definition VK_MEMORY_PROPERTY_HOST_COHERENT_BIT : Z := 4.

Definition VK_IMAGE_USAGE_COLOR_ATTACHMENT_BIT : Z := 16.
Definition VK_COMPOSITE_ALPHA_OPAQUE_BIT_KHR : Z := 1.
Definition VK_IMAGE_VIEW_TYPE_2D : Z := 1.
Definition VK_IMAGE_ASPECT_COLOR_BIT : Z := 1.
Definition VK_ATTACHMENT_LOAD_OP_CLEAR : Z := 1.
Definition VK_ATTACHMENT_LOAD_OP_DONT_CARE : Z := 2.
Definition VK_ATTACHMENT_STORE_OP_STORE : Z := 0.
Definition VK_ATTACHMENT_STORE_OP_DONT_CARE : Z := 1.
Definition VK_IMAGE_LAYOUT_UNDEFINED : Z := 0.
Definition VK_IMAGE_LAYOUT_COLOR_ATTACHMENT_OPTIMAL : Z := 2.
Definition VK_IMAGE_LAYOUT_PRESENT_SRC_KHR : Z := 1000001002.
Definition VK_PIPELINE_BIND_POINT_GRAPHICS : Z := 0.
Definition VK_SUBPASS_EXTERNAL : Z := 2 ^ 32 - 1.
Definition VK_PIPELINE_STAGE_COLOR_ATTACHMENT_OUTPUT_BIT : Z := 1024.
Definition VK_ACCESS_COLOR_ATTACHMENT_WRITE_BIT : Z := 256.

Definition no_family : Z := 2 ^ 32 - 1.   (* -1u *)
Definition MAX_FRAMES_IN_FLIGHT : nat := 2.
Definition VERTNAME : string := "shaders/simplest-v.vert.spv".
Definition FRAGNAME : string := "shaders/simplest-v.frag.spv".
Definition sizeof_Vertex : Z := 20.       (* a [vec2] and a [vec3] of floats *)
Definition sizeof_short : Z := 2.
Definition Vertices_size : Z := 4.
Definition Indices : list Z := [0; 1; 2; 2; 3; 0].

(** [VkSurfaceCapabilitiesKHR] *)
Record SurfaceCapabilities := {
  cap_minImageCount : Z; cap_maxImageCount : Z; minImageExtent : Z * Z; maxImageExtent : Z * Z; currentTransform : Z }.

(** ** The environment

    The results of the calls whose result is looked at ([vk]) and of those whose result is
    ignored ([ignored]), whether GLFW reports an error, the answers of the queries, and the
    files. [acquireImage] is told how many images the swapchain has. *)
Record driver := {
  vk : nat → Z;
  ignored : nat → Z;
  glfw_succeeds : nat → bool;
  deviceCount : nat → Z;
  queueFamilies : list Z;
  presentSupport : Z → bool;
  capabilities : nat → SurfaceCapabilities;
  formats : nat → list (Z * Z);
  presentModes : nat → list Z;
  framebufferSize : nat → Z * Z;
  imageCount : nat → nat;
  memoryTypes : list Z;
  memoryRequirements : nat → Z * Z;
  acquireImage : nat → nat → Z * nat;
  presentImage : nat → Z;
  resized : nat → bool;
  shouldClose : nat → bool;
  files : string → option (list Z) }.

(** ** The state of the program *)
Inductive field :=
| Instance | Device | Surface | SwapChain | RenderPass | PipelineLayout
| GraphicsPipeline | CommandPool | VertexBuffer | VertexBufferMemory | IndexBuffer | IndexBufferMemory
| StoredVertexID | StoredFragmentID.
Inductive vector :=
| SwapChainImages | SwapChainImageViews | SwapChainFramebuffers | CommandBuffers | ImageAvailableSemaphores
| RenderFinishedSemaphores | InFlightFences | ImagesInFlight.

#[export] Instance field_eq_dec : EqDecision field.
Proof. solve_decision. Defined.
#[export] Instance vector_eq_dec : EqDecision vector.
Proof. solve_decision. Defined.

(** An element of a vector is a handle or [VK_NULL_HANDLE]. [FramebufferResized] holds no value
    until it is assigned. *)
Record VkApp := {
  Wnd : option handle;
  handles : field → option handle;
  vectors : vector → list (option handle);
  Extent : Z * Z;
  SurfaceFormat : Z * Z;
  SwapChainImageFormat : Z;
  SwapChainExtent : Z * Z;
  CurrentFrame : nat;
  PresentFamily : Z;
  GraphicsFamily : Z;
  FramebufferResized : option bool }.

Definition set_Wnd x a := Build_VkApp x (handles a) (vectors a) (Extent a) (SurfaceFormat a) (SwapChainImageFormat a)
  (SwapChainExtent a) (CurrentFrame a) (PresentFamily a) (GraphicsFamily a) (FramebufferResized a).
Definition set_handles x a := Build_VkApp (Wnd a) x (vectors a) (Extent a) (SurfaceFormat a) (SwapChainImageFormat a)
  (SwapChainExtent a) (CurrentFrame a) (PresentFamily a) (GraphicsFamily a) (FramebufferResized a).
Definition set_vectors x a := Build_VkApp (Wnd a) (handles a) x (Extent a) (SurfaceFormat a) (SwapChainImageFormat a)
  (SwapChainExtent a) (CurrentFrame a) (PresentFamily a) (GraphicsFamily a) (FramebufferResized a).
Definition set_Extent x a := Build_VkApp (Wnd a) (handles a) (vectors a) x (SurfaceFormat a) (SwapChainImageFormat a)
  (SwapChainExtent a) (CurrentFrame a) (PresentFamily a) (GraphicsFamily a) (FramebufferResized a).
Definition set_SurfaceFormat x a := Build_VkApp (Wnd a) (handles a) (vectors a) (Extent a) x (SwapChainImageFormat a)
  (SwapChainExtent a) (CurrentFrame a) (PresentFamily a) (GraphicsFamily a) (FramebufferResized a).
Definition set_SwapChainImageFormat x a := Build_VkApp (Wnd a) (handles a) (vectors a) (Extent a) (SurfaceFormat a) x
  (SwapChainExtent a) (CurrentFrame a) (PresentFamily a) (GraphicsFamily a) (FramebufferResized a).
Definition set_SwapChainExtent x a := Build_VkApp (Wnd a) (handles a) (vectors a) (Extent a) (SurfaceFormat a)
  (SwapChainImageFormat a) x (CurrentFrame a) (PresentFamily a) (GraphicsFamily a) (FramebufferResized a).
Definition set_CurrentFrame x a := Build_VkApp (Wnd a) (handles a) (vectors a) (Extent a) (SurfaceFormat a)
  (SwapChainImageFormat a) (SwapChainExtent a) x (PresentFamily a) (GraphicsFamily a) (FramebufferResized a).
Definition set_PresentFamily x a := Build_VkApp (Wnd a) (handles a) (vectors a) (Extent a) (SurfaceFormat a)
  (SwapChainImageFormat a) (SwapChainExtent a) (CurrentFrame a) x (GraphicsFamily a) (FramebufferResized a).
Definition set_GraphicsFamily x a := Build_VkApp (Wnd a) (handles a) (vectors a) (Extent a) (SurfaceFormat a)
  (SwapChainImageFormat a) (SwapChainExtent a) (CurrentFrame a) (PresentFamily a) x (FramebufferResized a).
Definition set_FramebufferResized x a := Build_VkApp (Wnd a) (handles a) (vectors a) (Extent a) (SurfaceFormat a)
  (SwapChainImageFormat a) (SwapChainExtent a) (CurrentFrame a) (PresentFamily a) (GraphicsFamily a) x.

(** ** Runs

    A run has no behaviour, or leaves a world with an outcome: a value, an exception, or
    [Paused] when the fuel is used up, so that a prefix of an endless run is a run too, and
    [Indeterminate] when [FramebufferResized] is read before it is assigned: what happens from
    there on is undefined, what happened before is not. *)
Inductive error := vulkan_error (Res : Z) | glfw_error | std_error.

Inductive outcome (A : Type) := Ret (a : A) | Exc (e : error) | Paused | Indeterminate.
Arguments Ret {A} _.
Arguments Exc {A} _.
Arguments Paused {A}.
Arguments Indeterminate {A}.

Record world := World { this : VkApp; trace : list event; next : handle }.

Definition V (A : Type) : Type := world → option (outcome A * world).

#[export] Instance V_ret : MRet V := λ A a w, Some (Ret a, w).
#[export] Instance V_bind : MBind V := λ A B k m w,
  match m w with
  | Some (Ret a, w) => k a w
  | Some (Exc e, w) => Some (Exc e, w)
  | Some (Paused, w) => Some (Paused, w)
  | Some (Indeterminate, w) => Some (Indeterminate, w)
  | None => None
  end.

Definition v_undefined {A} : V A := λ _, None.
Definition v_throw {A} (e : error) : V A := λ w, Some (Exc e, w).
Definition pause {A} : V A := λ w, Some (Paused, w).
Definition initialised {A} (o : option A) : V A := λ w, Some (match o with Some a => Ret a | None => Indeterminate end, w).
Definition app : V VkApp := λ w, Some (Ret (this w), w).
Definition change (f : VkApp → VkApp) : V () := λ w, Some (Ret (), World (f (this w)) (trace w) (next w)).
Definition emit (e : event) : V () := λ w, Some (Ret (), World (this w) (e :: trace w) (next w)).
Definition ask {A} (f : nat → A) : V A := λ w, Some (Ret (f (length (trace w))), w).
Definition fresh : V handle := λ w, Some (Ret (next w), World (this w) (trace w) (S (next w))).
Definition v_option {A} (o : option A) : V A := λ w, match o with Some a => Some (Ret a, w) | None => None end.

Definition load (f : field) : V handle := a ← app; v_option (handles a f).
Definition set (f : field) (h : handle) : V () := change (λ a, set_handles (<[f := Some h]> (handles a)) a).
Definition elements (v : vector) : V (list (option handle)) := a ← app; mret (vectors a v).
Definition set_elements (v : vector) (l : list (option handle)) : V () := change (λ a, set_vectors (<[v := l]> (vectors a)) a).
(** [v[i]], the handle or null; and one that is not null. *)
Definition element (v : vector) (i : nat) : V (option handle) := l ← elements v; v_option (l !! i).
Definition load_element (v : vector) (i : nat) : V handle := h ← element v i; v_option h.
Definition set_element (v : vector) (i : nat) (h : option handle) : V () :=
  _ ← element v i; l ← elements v; set_elements v (<[i := h]> l).
(** [v.resize(n)], and with [VK_NULL_HANDLE]: a new element is null. *)
Definition resize_vector (v : vector) (n : nat) : V () := l ← elements v; set_elements v (resize n None l).

(** [for (i = first; i < first + n; ++i)] *)
Fixpoint for_each (first n : nat) (body : nat → V ()) : V () :=
  match n with O => mret () | S n => body first;; for_each (S first) n body end.

Section program.
Variable d : driver.

(** [VK_CHECK_RESULT] around a call that uses some objects, and around one that creates an
    object; a call whose result is ignored; a call of GLFW, whose error callback throws. *)
Definition VK_CHECK_RESULT (e : event) : V () :=
  r ← ask (vk d);
  if decide (r = VK_SUCCESS) then emit e else emit (Refused r);; v_throw (vulkan_error r).
Definition create_by (c : event → V ()) (k : kind) (from : list handle) (i : info) : V handle :=
  h ← fresh; c (Created k h from i);; mret h.
Definition vkCreate : kind → list handle → info → V handle := create_by VK_CHECK_RESULT.
Definition unchecked (e : event) : V () :=
  r ← ask (ignored d); emit (if decide (r = VK_SUCCESS) then e else Refused r).
Definition glfw (e : event) : V () :=
  ok ← ask (glfw_succeeds d); if ok : bool then emit e else emit (Refused (-1));; v_throw glfw_error.

Definition initialize_window : V () :=
  unchecked Noticed;;
  emit Noticed;;
  glfw Noticed;;
  h ← create_by glfw KWindow [] NoInfo;
  glfw Noticed;;
  glfw Noticed;;
  change (set_Wnd (Some h)).

Definition window : V handle := a ← app; v_option (Wnd a).

Definition create_instance : V () :=
  glfw Noticed;;
  i ← vkCreate KInstance [] NoInfo; set Instance i;;
  w ← window;
  glfw Noticed;;
  s ← vkCreate KSurface [i; w] NoInfo; set Surface s.

Definition peek_device : V () :=
  i ← load Instance;
  n ← ask (deviceCount d);
  VK_CHECK_RESULT (Used [i]);;
  if negb (n =? 1) then v_throw std_error else VK_CHECK_RESULT (Used [i]).

Fixpoint find_queues_from (i : Z) (families : list Z) : V () :=
  match families with
  | [] => mret ()
  | queueFlags :: families =>
    (if negb (Z.land queueFlags VK_QUEUE_GRAPHICS_BIT =? 0) then change (set_GraphicsFamily i) else mret ());;
    s ← load Surface;
    VK_CHECK_RESULT (Used [s]);;
    (if presentSupport d i then change (set_PresentFamily i) else mret ());;
    a ← app;
    if negb (PresentFamily a =? no_family) && negb (GraphicsFamily a =? no_family) then mret ()
    else find_queues_from (i + 1) families
  end.

Definition find_queues : V () :=
  emit Noticed;;
  emit Noticed;;
  find_queues_from 0 (queueFamilies d);;
  a ← app;
  if (PresentFamily a =? no_family) || (GraphicsFamily a =? no_family) then v_throw std_error else mret ().

(** The families of [std::set<unsigned> {PresentFamily, GraphicsFamily}] *)
Definition uniqueQueueFamilies (p g : Z) : list Z :=
  if p =? g then [p] else [Z.min p g; Z.max p g].

Definition create_logical_device : V () :=
  a ← app;
  i ← load Instance;
  dev ← vkCreate KDevice [i] (InfoQueues (uniqueQueueFamilies (PresentFamily a) (GraphicsFamily a)));
  set Device dev;;
  emit (Used [dev]);;
  emit (Used [dev]).

Definition myclamp (x low hi : Z) : Z := if hi <? x then hi else if x <? low then low else x.

Definition choose_format (first : Z * Z) (formats : list (Z * Z)) : Z * Z :=
  default first (snd <$> list_find
    (λ f, f = (VK_FORMAT_B8G8R8A8_SRGB, VK_COLOR_SPACE_SRGB_NONLINEAR_KHR)) formats).
Definition choose_extent (caps : SurfaceCapabilities) (w h : Z) : Z * Z :=
  (myclamp (u32 w) (minImageExtent caps).1 (maxImageExtent caps).1,
   myclamp (u32 h) (minImageExtent caps).2 (maxImageExtent caps).2).
Definition choose_count (caps : SurfaceCapabilities) : Z :=
  let ImageCount := u32 (cap_minImageCount caps + 1) in
  if (0 <? cap_maxImageCount caps) && (cap_maxImageCount caps <? ImageCount) then cap_maxImageCount caps else ImageCount.
Definition choose_mode (modes : list Z) : Z :=
  if decide (VK_PRESENT_MODE_FIFO_KHR ∈ modes) then VK_PRESENT_MODE_FIFO_KHR
  else default VK_PRESENT_MODE_FIFO_KHR (last modes).

Definition create_swap_chain : V () :=
  s ← load Surface;
  caps ← ask (capabilities d);
  VK_CHECK_RESULT (Used [s]);;
  formats ← ask (formats d);
  VK_CHECK_RESULT (Used [s]);;
  (if negb (length formats =? 0)%nat then VK_CHECK_RESULT (Used [s]) else mret ());;
  first ← v_option (head formats);
  change (set_SurfaceFormat (choose_format first formats));;
  size ← ask (framebufferSize d);
  glfw Noticed;;
  change (set_Extent (choose_extent caps size.1 size.2));;
  modes ← ask (presentModes d);
  VK_CHECK_RESULT (Used [s]);;
  if (length modes =? 0)%nat then v_throw std_error
  else
    VK_CHECK_RESULT (Used [s]);;
    a ← app;
    dev ← load Device;
    sc ← vkCreate KSwapchain [dev; s] (InfoSwapchain {|
      minImageCount := choose_count caps;
      imageFormat := (SurfaceFormat a).1; imageColorSpace := (SurfaceFormat a).2; imageExtent := Extent a;
      imageArrayLayers := 1; imageUsage := VK_IMAGE_USAGE_COLOR_ATTACHMENT_BIT;
      imageSharingMode := if GraphicsFamily a =? PresentFamily a then VK_SHARING_MODE_EXCLUSIVE else VK_SHARING_MODE_CONCURRENT;
      queueFamilyIndices := if GraphicsFamily a =? PresentFamily a then [] else [GraphicsFamily a; PresentFamily a];
      preTransform := currentTransform caps; compositeAlpha := VK_COMPOSITE_ALPHA_OPAQUE_BIT_KHR;
      presentMode := choose_mode modes; clipped := true |});
    set SwapChain sc.

(** The images of a swapchain come with it; the second call names them. *)
Definition get_images (sc : handle) (n : nat) : V (list handle) :=
  first ← (λ w, Some (Ret (next w), World (this w) (trace w) (next w + n)%nat));
  VK_CHECK_RESULT (Images sc (seq first n));;
  mret (seq first n).

Definition create_image_views : V () :=
  dev ← load Device; sc ← load SwapChain;
  n ← ask (imageCount d);
  VK_CHECK_RESULT (Used [dev; sc]);;
  resize_vector SwapChainImages n;;
  hs ← get_images sc n;
  set_elements SwapChainImages (Some <$> hs);;
  a ← app;
  change (set_SwapChainImageFormat (SurfaceFormat a).1);;
  change (set_SwapChainExtent (Extent a));;
  resize_vector SwapChainImageViews n;;
  for_each 0 n (λ i,
    image ← load_element SwapChainImages i;
    a ← app;
    view ← vkCreate KImageView [dev; image] (InfoView {|
      viewType := VK_IMAGE_VIEW_TYPE_2D; viewFormat := SwapChainImageFormat a; aspectMask := VK_IMAGE_ASPECT_COLOR_BIT;
      baseMipLevel := 0; levelCount := 1; baseArrayLayer := 0; layerCount := 1 |});
    set_element SwapChainImageViews i (Some view)).

Definition create_render_pass : V () :=
  dev ← load Device;
  a ← app;
  rp ← vkCreate KRenderPass [dev] (InfoPass {|
    passFormat := SwapChainImageFormat a; passSamples := VK_SAMPLE_COUNT_1_BIT;
    loadOp := VK_ATTACHMENT_LOAD_OP_CLEAR; storeOp := VK_ATTACHMENT_STORE_OP_STORE;
    stencilLoadOp := VK_ATTACHMENT_LOAD_OP_DONT_CARE; stencilStoreOp := VK_ATTACHMENT_STORE_OP_DONT_CARE;
    initialLayout := VK_IMAGE_LAYOUT_UNDEFINED; finalLayout := VK_IMAGE_LAYOUT_PRESENT_SRC_KHR;
    pipelineBindPoint := VK_PIPELINE_BIND_POINT_GRAPHICS;
    colorAttachments := [(0, VK_IMAGE_LAYOUT_COLOR_ATTACHMENT_OPTIMAL)];
    dependency := ((VK_SUBPASS_EXTERNAL, 0),
      (VK_PIPELINE_STAGE_COLOR_ATTACHMENT_OUTPUT_BIT, VK_PIPELINE_STAGE_COLOR_ATTACHMENT_OUTPUT_BIT),
      (0, VK_ACCESS_COLOR_ATTACHMENT_WRITE_BIT)) |});
  set RenderPass rp.

(** [Vertex::getBindingDescription] and [Vertex::getAttributeDescriptions]: binding, stride
    and rate; binding, location, format and offset. *)
Definition getBindingDescription : Z * Z * Z := (0, sizeof_Vertex, VK_VERTEX_INPUT_RATE_VERTEX).
Definition getAttributeDescriptions : list (Z * Z * Z * Z) :=
  [(0, 0, VK_FORMAT_R32G32_SFLOAT, 0); (0, 1, VK_FORMAT_R32G32B32_SFLOAT, 8)].

Definition create_pipeline (VertexID FragmentID : handle) : V () :=
  set StoredVertexID VertexID;;
  set StoredFragmentID FragmentID;;
  dev ← load Device;
  a ← app;
  layout ← vkCreate KPipelineLayout [dev] NoInfo;
  set PipelineLayout layout;;
  rp ← load RenderPass;
  pipeline ← vkCreate KPipeline [dev; layout; rp; VertexID; FragmentID] (InfoPipeline {|
    stages := [(VK_SHADER_STAGE_VERTEX_BIT, VertexID); (VK_SHADER_STAGE_FRAGMENT_BIT, FragmentID)];
    bindings := [getBindingDescription]; attributes := getAttributeDescriptions;
    topology := VK_PRIMITIVE_TOPOLOGY_TRIANGLE_LIST; primitiveRestartEnable := false;
    viewport := SwapChainExtent a; scissor := SwapChainExtent a;
    depthClampEnable := false; rasterizerDiscardEnable := false; depthBiasEnable := false; lineWidth := 1;
    polygonMode := VK_POLYGON_MODE_FILL; cullMode := VK_CULL_MODE_NONE; frontFace := VK_FRONT_FACE_COUNTER_CLOCKWISE;
    sampleShadingEnable := false; rasterizationSamples := VK_SAMPLE_COUNT_1_BIT;
    colorWriteMask := VK_COLOR_COMPONENTS_RGBA; blendEnable := false;
    logicOpEnable := false; logicOp := VK_LOGIC_OP_COPY; blendConstants := [0; 0; 0; 0]; subpass := 0 |});
  set GraphicsPipeline pipeline.

Definition create_frame_buffer : V () :=
  views ← elements SwapChainImageViews;
  resize_vector SwapChainFramebuffers (length views);;
  for_each 0 (length views) (λ i,
    view ← load_element SwapChainImageViews i;
    dev ← load Device; rp ← load RenderPass;
    a ← app;
    fb ← vkCreate KFramebuffer [dev; rp; view] (InfoFramebuffer (SwapChainExtent a) 1);
    set_element SwapChainFramebuffers i (Some fb)).

Definition create_command_pool : V () :=
  dev ← load Device;
  a ← app;
  pool ← vkCreate KCommandPool [dev] (InfoFamily (GraphicsFamily a));
  set CommandPool pool.

Fixpoint find_type (typeFilter properties i : Z) (types : list Z) : option Z :=
  match types with
  | [] => None
  | flags :: types =>
    if negb (Z.land typeFilter (Z.shiftl 1 i) =? 0) && (Z.land flags properties =? properties) then Some i
    else find_type typeFilter properties (i + 1) types
  end.
Definition findMemoryType (typeFilter properties : Z) : V Z :=
  emit Noticed;;
  match find_type typeFilter properties 0 (memoryTypes d) with Some i => mret i | None => v_throw std_error end.

(** [buffer] and [bufferMemory] are references: to fields, or to local variables ([None]). *)
Definition assign (f : option field) (h : handle) : V () := match f with Some f => set f h | None => mret () end.
Definition createBuffer (size usage properties : Z) (buffer bufferMemory : option field) : V (handle * handle) :=
  dev ← load Device;
  b ← vkCreate KBuffer [dev] (InfoBuffer size usage VK_SHARING_MODE_EXCLUSIVE);
  assign buffer b;;
  req ← ask (memoryRequirements d);
  emit (Used [dev; b]);;
  type ← findMemoryType req.2 properties;
  m ← vkCreate KMemory [dev] (InfoMemory req.1 type);
  assign bufferMemory m;;
  unchecked (Used [dev; b; m]);;
  mret (b, m).

(** A command buffer that could not be allocated is an uninitialised variable. *)
Definition copyBuffer (srcBuffer dstBuffer : handle) (size : Z) : V () :=
  dev ← load Device; pool ← load CommandPool;
  r ← ask (ignored d);
  c ← create_by unchecked KCommandBuffer [pool] NoInfo;
  if negb (r =? VK_SUCCESS) then v_undefined
  else
    unchecked (Used [c]);;
    unchecked (Recorded c [CmdCopyBuffer srcBuffer dstBuffer size]);;
    unchecked (Submitted c None None None);;
    unchecked Idle;;
    emit (Destroyed KCommandBuffer c).

(** [staging] is mapped, filled and unmapped; without a mapping the copy goes nowhere. *)
Definition fill_buffer (size usage : Z) (buffer memory : field) : V () :=
  let host := Z.lor VK_MEMORY_PROPERTY_HOST_VISIBLE_BIT VK_MEMORY_PROPERTY_HOST_COHERENT_BIT in
  staging ← createBuffer size VK_BUFFER_USAGE_TRANSFER_SRC_BIT host None None;
  dev ← load Device;
  r ← ask (ignored d);
  unchecked (Used [dev; staging.2]);;
  if negb (r =? VK_SUCCESS) then v_undefined
  else
    emit (Used [dev; staging.2]);;
    target ← createBuffer size (Z.lor VK_BUFFER_USAGE_TRANSFER_DST_BIT usage) VK_MEMORY_PROPERTY_DEVICE_LOCAL_BIT
      (Some buffer) (Some memory);
    copyBuffer staging.1 target.1 size;;
    emit (Destroyed KBuffer staging.1);;
    emit (Destroyed KMemory staging.2).

Definition create_buffers : V () :=
  fill_buffer (sizeof_Vertex * Vertices_size) VK_BUFFER_USAGE_VERTEX_BUFFER_BIT VertexBuffer VertexBufferMemory;;
  fill_buffer (sizeof_short * Z.of_nat (length Indices)) VK_BUFFER_USAGE_INDEX_BUFFER_BIT IndexBuffer IndexBufferMemory.

(** [vkAllocateCommandBuffers]: all or none. *)
Definition allocate_buffers (pool : handle) (n : nat) : V () :=
  r ← ask (vk d);
  if decide (r = VK_SUCCESS) then
    for_each 0 n (λ i, c ← create_by emit KCommandBuffer [pool] NoInfo; set_element CommandBuffers i (Some c))
  else emit (Refused r);; v_throw (vulkan_error r).

Definition create_command_buffers : V () :=
  fbs ← elements SwapChainFramebuffers;
  resize_vector CommandBuffers (length fbs);;
  pool ← load CommandPool;
  allocate_buffers pool (length fbs);;
  for_each 0 (length fbs) (λ i,
    c ← load_element CommandBuffers i;
    VK_CHECK_RESULT (Used [c]);;
    rp ← load RenderPass;
    fb ← load_element SwapChainFramebuffers i;
    pipeline ← load GraphicsPipeline;
    vertices ← load VertexBuffer; indices ← load IndexBuffer;
    a ← app;
    VK_CHECK_RESULT (Recorded c [CmdBeginRenderPass rp fb (SwapChainExtent a); CmdBindPipeline pipeline;
      CmdBindVertexBuffer vertices; CmdBindIndexBuffer indices; CmdDrawIndexed (Z.of_nat (length Indices)); CmdEndRenderPass])).

Definition create_sync_objs : V () :=
  resize_vector ImageAvailableSemaphores MAX_FRAMES_IN_FLIGHT;;
  resize_vector RenderFinishedSemaphores MAX_FRAMES_IN_FLIGHT;;
  resize_vector InFlightFences MAX_FRAMES_IN_FLIGHT;;
  images ← elements SwapChainImages;
  resize_vector ImagesInFlight (length images);;
  for_each 0 MAX_FRAMES_IN_FLIGHT (λ i,
    dev ← load Device;
    s ← vkCreate KSemaphore [dev] NoInfo; set_element ImageAvailableSemaphores i (Some s);;
    s ← vkCreate KSemaphore [dev] NoInfo; set_element RenderFinishedSemaphores i (Some s);;
    f ← vkCreate KFence [dev] InfoSignaled; set_element InFlightFences i (Some f)).

(** Destroying a null handle does nothing. *)
Definition vkDestroy (k : kind) (h : option handle) : V () :=
  match h with Some h => emit (Destroyed k h) | None => mret () end.

Definition cleanup_swap_chain : V () :=
  fbs ← elements SwapChainFramebuffers;
  for_each 0 (length fbs) (λ i, _ ← load Device; fb ← element SwapChainFramebuffers i; vkDestroy KFramebuffer fb);;
  _ ← load Device; _ ← load CommandPool;
  buffers ← elements CommandBuffers;
  for_each 0 (length buffers) (λ i, c ← element CommandBuffers i; vkDestroy KCommandBuffer c);;
  h ← load GraphicsPipeline; vkDestroy KPipeline (Some h);;
  h ← load PipelineLayout; vkDestroy KPipelineLayout (Some h);;
  h ← load RenderPass; vkDestroy KRenderPass (Some h);;
  views ← elements SwapChainImageViews;
  for_each 0 (length views) (λ i, view ← element SwapChainImageViews i; vkDestroy KImageView view);;
  h ← load SwapChain; vkDestroy KSwapchain (Some h).

(** GLFW calls [framebuffer_size_callback] while it handles events. *)
Definition handle_events : V () :=
  r ← ask (resized d);
  glfw Noticed;;
  if r : bool then change (set_FramebufferResized (Some true)) else mret ().

(** [while (width == 0 || height == 0)] *)
Fixpoint wait_for_size (fuel : nat) (size : Z * Z) : V () :=
  if (size.1 =? 0) || (size.2 =? 0) then
    match fuel with
    | O => pause
    | S fuel =>
      size ← ask (framebufferSize d);
      glfw Noticed;;
      handle_events;;
      wait_for_size fuel size
    end
  else mret ().

Definition update_swap_chain (fuel : nat) : V () :=
  size ← ask (framebufferSize d);
  glfw Noticed;;
  wait_for_size fuel size;;
  _ ← load Device;
  unchecked Idle;;
  cleanup_swap_chain;;
  create_swap_chain;;
  create_image_views;;
  create_render_pass;;
  vs ← load StoredVertexID; fs ← load StoredFragmentID;
  create_pipeline vs fs;;
  create_frame_buffer;;
  create_command_buffers;;
  images ← elements SwapChainImages;
  resize_vector ImagesInFlight (length images).

Definition next_frame : V () :=
  change (λ a, set_CurrentFrame ((CurrentFrame a + 1) `mod` MAX_FRAMES_IN_FLIGHT)%nat a).

Definition submit_frame (image : nat) (fence available finished : handle) : V () :=
  inflight ← element ImagesInFlight image;
  match inflight with Some f => unchecked (Waited f) | None => mret () end;;
  set_element ImagesInFlight image (Some fence);;
  c ← load_element CommandBuffers image;
  unchecked (ResetFence fence);;
  VK_CHECK_RESULT (Submitted c (Some available) (Some finished) (Some fence)).

Definition present_frame (fuel : nat) (image : nat) (finished : handle) : V () :=
  sc ← load SwapChain;
  h ← load_element SwapChainImages image;
  result ← ask (presentImage d);
  emit (Presented sc finished h);;
  a ← app;
  stale ← (if (result =? VK_ERROR_OUT_OF_DATE_KHR) || (result =? VK_SUBOPTIMAL_KHR) then mret true
    else initialised (FramebufferResized a));
  (if stale : bool then
    change (set_FramebufferResized (Some false));; update_swap_chain fuel
  else if negb (result =? VK_SUCCESS) then v_throw std_error
  else mret ());;
  next_frame.

Definition render_frame (fuel : nat) : V () :=
  a ← app;
  fence ← load_element InFlightFences (CurrentFrame a);
  unchecked (Waited fence);;
  sc ← load SwapChain;
  available ← load_element ImageAvailableSemaphores (CurrentFrame a);
  images ← elements SwapChainImages;
  result ← ask (λ t, acquireImage d t (length images));
  if result.1 =? VK_ERROR_OUT_OF_DATE_KHR then emit (Refused result.1);; update_swap_chain fuel
  else if negb (result.1 =? VK_SUCCESS) && negb (result.1 =? VK_SUBOPTIMAL_KHR) then
    emit (Refused result.1);; v_throw std_error
  else
    image ← load_element SwapChainImages result.2;
    emit (Acquired sc available image);;
    finished ← load_element RenderFinishedSemaphores (CurrentFrame a);
    submit_frame result.2 fence available finished;;
    present_frame fuel result.2 finished.

(** [while (!glfwWindowShouldClose(...))]: the fuel bounds the frames, and the wait for a
    size in each. *)
Fixpoint frames (fuel n : nat) : V () :=
  match n with
  | O => pause
  | S n =>
    close ← ask (shouldClose d);
    glfw Noticed;;
    if close : bool then mret ()
    else handle_events;; render_frame fuel;; frames fuel n
  end.
Definition run (fuel : nat) : V () := frames fuel fuel;; unchecked Idle.

(** [readFile], whose stream throws when the file cannot be opened. *)
Definition readFile (path : string) : V (list Z) :=
  match files d path with Some bytes => mret bytes | None => v_throw std_error end.
Definition installShader (code : list Z) : V handle :=
  dev ← load Device; vkCreate KShaderModule [dev] (InfoCode (Z.of_nat (length code))).

(** [main] up to the end of the [try] block's statements. *)
Definition session (fuel : nat) : V () :=
  initialize_window;;
  create_instance;;
  peek_device;;
  find_queues;;
  create_logical_device;;
  code ← readFile VERTNAME; VertexID ← installShader code;
  code ← readFile FRAGNAME; FragmentID ← installShader code;
  create_swap_chain;;
  create_image_views;;
  create_render_pass;;
  create_pipeline VertexID FragmentID;;
  create_frame_buffer;;
  create_command_pool;;
  create_buffers;;
  create_command_buffers;;
  create_sync_objs;;
  run fuel.

(** [~VkApp], and then the deleter of [Wnd]: an exception in it would end the program. *)
Definition destructor : V () :=
  cleanup_swap_chain;;
  h ← load Device; emit (Destroyed KDevice h);;
  i ← load Instance;
  h ← load Surface; emit (Destroyed KSurface h);;
  emit (Destroyed KInstance i).
Definition Cleanup : V () :=
  a ← app;
  match Wnd a with
  | Some w => ok ← ask (glfw_succeeds d); if ok : bool then emit (Destroyed KWindow w);; emit Noticed else v_undefined
  | None => mret ()
  end.

(** [main] returns the error it has printed, if any. *)
Definition main (fuel : nat) : V (option error) := λ w,
  match session fuel w with
  | Some (Ret _, w) => (destructor;; Cleanup;; mret None) w
  | Some (Exc e, w) => (destructor;; Cleanup;; mret (Some e)) w
  | Some (Paused, w) => Some (Paused, w)
  | Some (Indeterminate, w) => Some (Indeterminate, w)
  | None => None
  end.

(** [VkApp app;]: vectors are empty, handles and [FramebufferResized] are not initialised. *)
Definition start : world :=
  World {| Wnd := None; handles := λ _, None; vectors := λ _, []; Extent := (0, 0); SurfaceFormat := (0, 0);
    SwapChainImageFormat := 0; SwapChainExtent := (0, 0); CurrentFrame := 0; PresentFamily := no_family;
    GraphicsFamily := no_family; FramebufferResized := None |} [] 1.
End program.
