(* ===== verification/VkLogic.v ===== *)
(** * Reasoning about the Vulkan program

    A weakest precondition over the fields of the program and what the host knows of the
    device: a computation is defined, its calls keep the rules, and if it returns its result
    meets the postcondition. It throws only when the driver is not [calm], and pauses only when the driver
    is not [calm], the window is not [visible], or the condition [R], that the fuel is enough, does not hold;
    and it reads an indeterminate value only when nothing has assigned [FramebufferResized]. *)

From stdpp Require Import functions.
From S2P Require Import Prelude Vk VkProgram.

Create HintDb vk discriminated.

(** What the documentation says of the answers: a surface that can be used has a format,
    a swapchain has images and hands out one of them, and a number of queue families is not
    that of none. *)
Record documented (d : driver) : Prop := {
  doc_formats : ∀ t, formats d t ≠ [];
  doc_acquire : ∀ t n, (0 < n)%nat → ((acquireImage d t n).2 < n)%nat;
  doc_images : ∀ t, (0 < imageCount d t)%nat;
  doc_families : Z.of_nat (length (queueFamilies d)) < no_family }.

(** An assumption, which no documentation gives: the calls whose result the program does not
    look at succeed. *)
Definition unchecked_succeed (d : driver) : Prop := ∀ t, ignored d t = VK_SUCCESS.

Record answers (d : driver) : Prop := {
  as_documented : documented d;
  as_unchecked : unchecked_succeed d }.

Definition usable (r : Z) : Prop := r = VK_SUCCESS ∨ r = VK_SUBOPTIMAL_KHR ∨ r = VK_ERROR_OUT_OF_DATE_KHR.

(** The kinds of memory the program asks for. *)
Definition memory_properties : list Z :=
  [VK_MEMORY_PROPERTY_DEVICE_LOCAL_BIT; Z.lor VK_MEMORY_PROPERTY_HOST_VISIBLE_BIT VK_MEMORY_PROPERTY_HOST_COHERENT_BIT].

(** Nothing fails: no call of Vulkan and none of GLFW; there is one device, with a family of
    queues that draws and one that presents, the surface has a mode of presentation, there
    are types of memory for the buffers, and the files of the shaders. A swapchain may still
    go out of date. *)
Record calm (d : driver) : Prop := {
  calm_vk : ∀ t, vk d t = VK_SUCCESS;
  calm_glfw : ∀ t, glfw_succeeds d t = true;
  calm_device : ∀ t, deviceCount d t = 1;
  calm_graphics : ∃ i flags, queueFamilies d !! i = Some flags ∧ Z.land flags VK_QUEUE_GRAPHICS_BIT ≠ 0;
  calm_present : ∃ i, (i < length (queueFamilies d))%nat ∧ presentSupport d (Z.of_nat i) = true;
  calm_modes : ∀ t, presentModes d t ≠ [];
  calm_memory : ∀ t properties, properties ∈ memory_properties → find_type (memoryRequirements d t).2 properties 0 (memoryTypes d) ≠ None;
  calm_files : ∀ path, files d path ≠ None;
  calm_acquire : ∀ t n, usable (acquireImage d t n).1;
  calm_presented : ∀ t, usable (presentImage d t) }.

(** The window is never minimised. *)
Definition visible (d : driver) : Prop := ∀ t, (framebufferSize d t).1 ≠ 0 ∧ (framebufferSize d t).2 ≠ 0.

(** ** What a created and a destroyed object change *)
Record grown (g g' : gpu) (k : kind) (h : handle) (from : list handle) : Prop := {
  gr_new : live g !! h = None;
  gr_live : live g' = <[h := (k, from)]> (live g);
  gr_fences : k ≠ KFence → fences g' = fences g;
  gr_signals : signals g' = signals g;
  gr_acquired : acquired g' = acquired g;
  gr_recorded : recorded g' = recorded g;
  gr_pending : pending g' = pending g }.

Lemma create_grown k h from i g : live g !! h = None → alive g from → ∃ g', create k h from i g = Some g' ∧ grown g g' k h from.
Proof.
  intros Hn Ha. unfold create, allow. rewrite decide_True by done. eexists. split; [done|].
  by destruct k, i; split.
Qed.

Lemma fence_created h from g :
  live g !! h = None → alive g from →
  ∃ g', create KFence h from InfoSignaled g = Some g' ∧ grown g g' KFence h from ∧ fences g' = <[h := Signaled]> (fences g).
Proof. intros Hn Ha. unfold create, allow. rewrite decide_True by done. by eexists. Qed.

Section census.
Implicit Types (g : gpu) (k : kind) (h : handle).

Lemma census_insert g g' k h from k' :
  live g !! h = None → live g' = <[h := (k, from)]> (live g) →
  census g' k' = ((if decide (k' = k) then 1 else 0) + census g k')%nat.
Proof.
  intros Hn Hl. unfold census. rewrite Hl, map_filter_insert. cbn. destruct (decide (k' = k)) as [->|Hne].
  - rewrite decide_True by done. rewrite map_size_insert_None; [done|]. apply map_lookup_filter_None. by left.
  - rewrite decide_False by congruence. by rewrite delete_id by done.
Qed.

Lemma census_delete g g' k h k' :
  of_kind g k h → live g' = delete h (live g) →
  census g k' = ((if decide (k' = k) then 1 else 0) + census g' k')%nat.
Proof.
  intros Hk Hl. apply fmap_Some_1 in Hk as ([k0 from] & Hh & ->). eapply census_insert.
  - by rewrite Hl, lookup_delete_eq.
  - by rewrite Hl, insert_delete_id.
Qed.
End census.

Section wp.
Variable d : driver.
Variable R : Prop.
Hypothesis Hdoc : answers d.

Definition known (w : world) (g : gpu) : Prop :=
  legal (trace w) = Some g ∧ ∀ h, (next w ≤ h)%nat → live g !! h = None.

Definition wp {A} (m : V A) (Q : A → VkApp → gpu → Prop) (a : VkApp) (g : gpu) : Prop :=
  ∀ w, known w g → this w = a →
  ∃ o w' g', m w = Some (o, w') ∧ known w' g' ∧ (length (trace w) ≤ length (trace w'))%nat ∧
    match o with Ret x => Q x (this w') g' | Exc _ => ¬ calm d | Paused => ¬ (calm d ∧ visible d ∧ R)
    | Indeterminate => FramebufferResized (this w') = None end.

Lemma wp_ret {A} (x : A) (Q : A → VkApp → gpu → Prop) a g : Q x a g → wp (mret x) Q a g.
Proof. intros HQ w Hw <-. by exists (Ret x), w, g. Qed.

Lemma wp_bind {A B} (m : V A) (k : A → V B) (Q : B → VkApp → gpu → Prop) a g :
  wp m (λ x, wp (k x) Q) a g → wp (m ≫= k) Q a g.
Proof.
  intros Hm w Hw Ha. destruct (Hm w Hw Ha) as (o & w1 & g1 & R1 & Hw1 & Hl1 & Ho).
  unfold mbind, V_bind. rewrite R1. destruct o as [x|e| |]; [|by eexists _, w1, g1..].
  destruct (Ho w1 Hw1 eq_refl) as (o & w2 & g2 & R2 & Hw2 & Hl2 & Ho2).
  exists o, w2, g2. split; [done|]. split; [done|]. split; [lia|done].
Qed.

Lemma wp_mono {A} (m : V A) (Q Q' : A → VkApp → gpu → Prop) a g :
  wp m Q a g → (∀ x a' g', Q x a' g' → Q' x a' g') → wp m Q' a g.
Proof.
  intros Hm HQ w Hw Ha. destruct (Hm w Hw Ha) as (o & w1 & g1 & R1 & Hw1 & Hl1 & Ho).
  exists o, w1, g1. split; [done|]. split; [done|]. split; [done|]. destruct o; auto.
Qed.

Lemma wp_app (Q : VkApp → VkApp → gpu → Prop) a g : Q a a g → wp app Q a g.
Proof. intros HQ w Hw <-. by exists (Ret (this w)), w, g. Qed.

Lemma wp_change f (Q : () → VkApp → gpu → Prop) a g : Q () (f a) g → wp (change f) Q a g.
Proof. intros HQ w Hw <-. by eexists (Ret ()), _, g. Qed.

Lemma wp_ask {A} (f : nat → A) (Q : A → VkApp → gpu → Prop) a g : (∀ t, Q (f t) a g) → wp (ask f) Q a g.
Proof. intros HQ w Hw <-. eexists (Ret _), w, g. split; [done|]. split; [done|]. split; [done|]. apply HQ. Qed.

Lemma wp_option {A} (o : option A) x (Q : A → VkApp → gpu → Prop) a g : o = Some x → Q x a g → wp (v_option o) Q a g.
Proof. intros -> HQ w Hw <-. by exists (Ret x), w, g. Qed.

Lemma wp_initialised {A} (f : VkApp → option A) (Q : A → VkApp → gpu → Prop) a g :
  (f a = None → FramebufferResized a = None) → (∀ x, f a = Some x → Q x a g) → wp (initialised (f a)) Q a g.
Proof.
  intros Hn HQ w Hw <-. eexists _, w, g. split; [done|]. split; [done|]. split; [done|]. destruct (f (this w)); auto.
Qed.

Lemma wp_throw {A} e (Q : A → VkApp → gpu → Prop) a g : ¬ calm d → wp (v_throw e) Q a g.
Proof. intros Hc w Hw <-. by exists (Exc e), w, g. Qed.

Lemma wp_pause {A} (Q : A → VkApp → gpu → Prop) a g : ¬ (calm d ∧ visible d ∧ R) → wp pause Q a g.
Proof. intros Hc w Hw <-. by exists Paused, w, g. Qed.

(** [Created] is emitted with a fresh handle only, by [create_by]. *)
Definition creates (e : event) : Prop := match e with Created _ _ _ _ | Images _ _ => True | _ => False end.

Lemma step_live g e g' : ¬ creates e → step g e = Some g' → ∀ h, live g !! h = None → live g' !! h = None.
Proof.
  intros Hc Hs h Hh.
  assert (Hd : live g' = live g ∨ ∃ k x, destroy k x g = Some g'); [|destruct Hd as [->|(k & x & Hd)]; [done|]].
  { destruct e; cbn [step] in Hs; try (by destruct Hc); try (right; by eexists _, _); left;
      unfold record, wait_fence, reset_fence, acquire, submit, present, allow in Hs;
      repeat case_match; simplify_eq; done. }
  unfold destroy, allow in Hd. destruct (decide _); [|done].
  destruct k; simplify_eq; cbn; try (apply map_lookup_filter_None; left; cbn); apply lookup_delete_None; auto.
Qed.
(** The wrappers of a call either make it, or make nothing of it and throw. *)
Definition wrapper (c : event → V ()) : Prop :=
  ∀ e w, c e w = emit e w ∨ ¬ calm d ∧ ∃ er r, c e w = Some (Exc er, World (this w) (Refused r :: trace w) (next w)).

Lemma wrapper_check : wrapper (VK_CHECK_RESULT d).
Proof.
  intros e w. unfold VK_CHECK_RESULT, mbind, V_bind, ask. destruct (decide (_ = _)) as [|Hne]; [by left|right].
  split; [intros Hc; by apply Hne, calm_vk|]. by eexists _, _.
Qed.

Lemma wrapper_glfw : wrapper (glfw d).
Proof.
  intros e w. unfold glfw, mbind, V_bind, ask. destruct (glfw_succeeds d _) eqn:Hs; [by left|right].
  split; [intros Hc; by rewrite (calm_glfw d Hc) in Hs|]. by eexists _, _.
Qed.

Lemma wrapper_unchecked : wrapper (unchecked d).
Proof. intros e w. left. unfold unchecked, mbind, V_bind, ask. destruct (decide (_ = _)) as [|[]]; [done|]. by apply as_unchecked. Qed.

Lemma wrapper_emit : wrapper emit.
Proof. intros e w. by left. Qed.

Lemma known_refused w g r : known w g → known (World (this w) (Refused r :: trace w) (next w)) g.
Proof. intros [Hl Hn]. split; [|done]. cbn. by rewrite Hl. Qed.

Lemma wp_refused r (Q : () → VkApp → gpu → Prop) a g : Q () a g → wp (emit (Refused r)) Q a g.
Proof. intros HQ w Hw <-. eexists (Ret ()), _, g. split; [done|]. split; [by apply known_refused|]. split; [cbn; lia|done]. Qed.

Lemma wp_call c e g' (Q : () → VkApp → gpu → Prop) a g :
  wrapper c → ¬ creates e → step g e = Some g' → Q () a g' → wp (c e) Q a g.
Proof.
  intros Hc He Hs HQ w [Hl Hn] Ha. destruct (Hc e w) as [->|(Hnc & er & r & ->)].
  - eexists (Ret ()), _, g'. split; [done|]. split; [split; cbn|].
    + by rewrite Hl.
    + intros h Hh. by eapply step_live, Hn.
    + subst a. split; [cbn; lia|done].
  - eexists (Exc er), _, g. split; [done|]. split; [by apply known_refused|]. split; [cbn; lia|done].
Qed.

Lemma wp_create c k from i (Q : handle → VkApp → gpu → Prop) a g :
  wrapper c → alive g from →
  (∀ h g', live g !! h = None → create k h from i g = Some g' → grown g g' k h from → Q h a g') →
  wp (create_by c k from i) Q a g.
Proof.
  intros Hc Ha HQ w [Hl Hn] <-. assert (Hnew := Hn (next w) (le_n _)).
  destruct (create_grown k (next w) from i g Hnew Ha) as (g' & Hs & Hg).
  unfold create_by, mbind, V_bind, fresh. cbn.
  destruct (Hc (Created k (next w) from i) (World (this w) (trace w) (S (next w)))) as [->|(Hnc & er & r & ->)]; cbn.
  - eexists (Ret _), _, g'. split; [done|]. split; [split; cbn|].
    + by rewrite Hl.
    + intros h Hh. rewrite (gr_live _ _ _ _ _ Hg), lookup_insert_ne by lia. apply Hn. lia.
    + split; [cbn; lia|]. by apply HQ.
  - eexists (Exc er), _, g. split; [done|]. split; [|split; [cbn; lia|done]].
    split; cbn; [by rewrite Hl|]. intros h Hh. apply Hn. lia.
Qed.

Lemma wp_images sc n (Q : list handle → VkApp → gpu → Prop) a g :
  of_kind g KSwapchain sc →
  (∀ hs, length hs = n → NoDup hs → Forall (λ h, live g !! h = None) hs →
    Q hs a (set_live (foldr (λ h, <[h := (KImage, [sc])]>) (live g) hs) g)) →
  wp (get_images d sc n) Q a g.
Proof.
  intros Hk HQ w [Hl Hn] <-. set (hs := seq (next w) n).
  assert (Hnew : Forall (λ h, live g !! h = None) hs).
  { apply Forall_forall. intros h [Hh _]%elem_of_seq. by apply Hn. }
  unfold get_images, mbind, V_bind. cbn -[VK_CHECK_RESULT seq]. fold hs.
  destruct (wrapper_check (Images sc hs) (World (this w) (trace w) (next w + n))) as [->|(Hnc & er & r & ->)]; cbn.
  - eexists (Ret hs), _, _. split; [done|]. split; [split; cbn|].
    + rewrite Hl. cbn. unfold images, allow. rewrite decide_True; [done|]. split; [done|]. split; [apply NoDup_seq|done].
    + intros h Hh. assert (Hd : h ∉ hs) by (intros [? ?]%elem_of_seq; lia). revert Hd. generalize hs. intros l.
      induction l as [|x l IH]; cbn; [intros _; apply Hn; lia|]. intros [Hx Hin]%not_elem_of_cons.
      rewrite lookup_insert_ne by done. by apply IH.
    + split; [cbn; lia|]. apply HQ; [apply length_seq|apply NoDup_seq|done].
  - eexists (Exc er), _, g. split; [done|]. split; [|split; [cbn; lia|done]].
    split; cbn; [by rewrite Hl|]. intros h Hh. apply Hn. lia.
Qed.

(** ** Fields, vectors and loops *)
Lemma wp_load f h (Q : handle → VkApp → gpu → Prop) a g : handles a f = Some h → Q h a g → wp (load f) Q a g.
Proof. intros Hh HQ. apply wp_bind, wp_app. by eapply wp_option. Qed.

Lemma wp_elements v (Q : list (option handle) → VkApp → gpu → Prop) a g : Q (vectors a v) a g → wp (elements v) Q a g.
Proof. intros HQ. by apply wp_bind, wp_app, wp_ret. Qed.

Lemma wp_element v i x (Q : option handle → VkApp → gpu → Prop) a g :
  vectors a v !! i = Some x → Q x a g → wp (element v i) Q a g.
Proof. intros Hx HQ. apply wp_bind, wp_elements. by eapply wp_option. Qed.

Lemma wp_load_element v i h (Q : handle → VkApp → gpu → Prop) a g :
  vectors a v !! i = Some (Some h) → Q h a g → wp (load_element v i) Q a g.
Proof. intros Hx HQ. apply wp_bind. eapply wp_element; [done|]. by eapply wp_option. Qed.

Definition with_vector (v : vector) (l : list (option handle)) (a : VkApp) : VkApp := set_vectors (<[v := l]> (vectors a)) a.
Definition with_handle (f : field) (h : handle) (a : VkApp) : VkApp := set_handles (<[f := Some h]> (handles a)) a.

Lemma wp_set_elements v l (Q : () → VkApp → gpu → Prop) a g : Q () (with_vector v l a) g → wp (set_elements v l) Q a g.
Proof. intros HQ. by apply wp_change. Qed.

Lemma wp_set_element v i h (Q : () → VkApp → gpu → Prop) a g :
  (i < length (vectors a v))%nat → Q () (with_vector v (<[i := h]> (vectors a v)) a) g → wp (set_element v i h) Q a g.
Proof.
  intros Hi HQ. destruct (lookup_lt_is_Some_2 _ _ Hi) as [x Hx]. apply wp_bind. eapply wp_element; [done|].
  by apply wp_bind, wp_elements, wp_set_elements.
Qed.

Lemma wp_resize v n (Q : () → VkApp → gpu → Prop) a g :
  Q () (with_vector v (resize n None (vectors a v)) a) g → wp (resize_vector v n) Q a g.
Proof. intros HQ. by apply wp_bind, wp_elements, wp_set_elements. Qed.

Lemma wp_set f h (Q : () → VkApp → gpu → Prop) a g : Q () (with_handle f h a) g → wp (set f h) Q a g.
Proof. intros HQ. by apply wp_change. Qed.

Lemma wp_for (I : nat → VkApp → gpu → Prop) n : ∀ first body (Q : () → VkApp → gpu → Prop) a g,
  I first a g → (∀ i a g, (first ≤ i < first + n)%nat → I i a g → wp (body i) (λ _, I (S i)) a g) →
  (∀ a g, I (first + n)%nat a g → Q () a g) → wp (for_each first n body) Q a g.
Proof.
  induction n as [|n IH]; intros first body Q a g Hi Hb HQ; cbn [for_each].
  - apply wp_ret, HQ. by rewrite Nat.add_0_r.
  - apply wp_bind. eapply wp_mono; [apply Hb; [lia|done]|]. intros [] a' g' Hi'. apply IH; [done| |].
    + intros i a1 g1 Hr. apply Hb. lia.
    + intros a1 g1 H1. apply HQ. by rewrite Nat.add_succ_r.
Qed.
End wp.

#[export] Hint Resolve wrapper_check wrapper_glfw wrapper_unchecked wrapper_emit : vk.
