(* ===== verification/VkEvents.v ===== *)
(** * What the Vulkan program asks for

    A logic for the events of a run, whatever the driver answers, and the swapchains that
    [src/10-3d/vk-simplest.cc] creates: at the start and whenever the surface changes. *)

From stdpp Require Import functions.
From S2P Require Import Prelude Vk VkProgram.

Create HintDb emits discriminated.

Section emits.
Variable d : driver.

(** [P tr e]: the event [e] may follow the events [tr], the newest first. *)
Variable P : list event → event → Prop.

Fixpoint each (tr : list event) : Prop :=
  match tr with [] => True | e :: tr => P tr e ∧ each tr end.

Hypothesis Prefused : ∀ tr r, P tr (Refused r).

(** [m], from the world [w], adds events that satisfy [P], and a result it has satisfies [Q]. *)
Definition pc {A} (m : V A) (Q : A → world → Prop) (w : world) : Prop :=
  ∀ o w', m w = Some (o, w') → each (trace w) →
  each (trace w') ∧ match o with Ret x => Q x w' | _ => True end.

Definition emits {A} (m : V A) : Prop := ∀ w, pc m (λ _ _, True) w.

(** An event that may follow anything. *)
Definition always (e : event) : Prop := ∀ tr, P tr e.

Lemma pc_ret {A} (x : A) (Q : A → world → Prop) w : Q x w → pc (mret x) Q w.
Proof. intros HQ o w' [= <- <-] Hp. done. Qed.

Lemma pc_bind {A B} (m : V A) (k : A → V B) (Q : B → world → Prop) w :
  pc m (λ x, pc (k x) Q) w → pc (m ≫= k) Q w.
Proof.
  intros Hm o w' Hr Hp. unfold mbind, V_bind in Hr. destruct (m w) as [[o1 w1]|] eqn:Hm1; [|done].
  destruct (Hm o1 w1 Hm1 Hp) as [Hp1 Ho1]. destruct o1 as [x|e| |]; [|by simplify_eq..]. by apply (Ho1 o w').
Qed.

Lemma pc_app (Q : VkApp → world → Prop) w : Q (this w) w → pc app Q w.
Proof. intros HQ o w' [= <- <-] Hp. done. Qed.

Lemma pc_change f (Q : () → world → Prop) w : (∀ w', trace w' = trace w → this w' = f (this w) → Q () w') → pc (change f) Q w.
Proof. intros HQ o w' [= <- <-] Hp. split; [done|]. by apply HQ. Qed.

Lemma pc_ask {A} (f : nat → A) (Q : A → world → Prop) w : Q (f (length (trace w))) w → pc (ask f) Q w.
Proof. intros HQ o w' [= <- <-] Hp. done. Qed.

Lemma pc_option {A} (x : option A) (Q : A → world → Prop) w : (∀ y, x = Some y → Q y w) → pc (v_option x) Q w.
Proof. intros HQ o w' Hr Hp. destruct x; simplify_eq/=. auto. Qed.

Lemma pc_throw {A} e (Q : A → world → Prop) w : pc (v_throw e) Q w.
Proof. intros o w' [= <- <-] Hp. done. Qed.

Lemma pc_fresh (Q : handle → world → Prop) w : (∀ h w', trace w' = trace w → this w' = this w → Q h w') → pc fresh Q w.
Proof. intros HQ o w' [= <- <-] Hp. split; [done|]. by apply HQ. Qed.

Lemma pc_emit e (Q : () → world → Prop) w :
  P (trace w) e → (∀ w', trace w' = e :: trace w → this w' = this w → Q () w') → pc (emit e) Q w.
Proof. intros He HQ o w' [= <- <-] Hp. split; [done|]. by apply HQ. Qed.

Lemma pc_checked (c : event → V ()) e (Q : () → world → Prop) w :
  c = VK_CHECK_RESULT d ∨ c = glfw d →
  P (trace w) e → (∀ w', trace w' = e :: trace w → this w' = this w → Q () w') → pc (c e) Q w.
Proof.
  intros [-> | ->] He HQ; apply pc_bind, pc_ask; [case_decide|case_match]; try (by apply pc_emit);
    (apply pc_bind, pc_emit; [done|]; intros; apply pc_throw).
Qed.

Lemma pc_load f (Q : handle → world → Prop) w : (∀ h, handles (this w) f = Some h → Q h w) → pc (load f) Q w.
Proof. intros HQ. apply pc_bind, pc_app, pc_option, HQ. Qed.

Lemma pc_create k from i (Q : handle → world → Prop) w :
  (∀ h, P (trace w) (Created k h from i)) →
  (∀ h w', trace w' = Created k h from i :: trace w → this w' = this w → Q h w') → pc (vkCreate d k from i) Q w.
Proof.
  intros Hc HQ. apply pc_bind, pc_fresh. intros h w1 Ht1 Ha1. apply pc_bind, pc_checked; [by left|by rewrite Ht1|].
  intros w2 Ht2 Ha2. apply pc_ret, HQ; congruence.
Qed.

(** ** Without a postcondition *)
Lemma pc_emits {A} (m : V A) (Q : A → world → Prop) w : emits m → (∀ x w', Q x w') → pc m Q w.
Proof. intros Hm HQ o w' Hr Hp. destruct (Hm w o w' Hr Hp) as [? _]. split; [done|]. by destruct o. Qed.

Lemma emits_bind {A B} (m : V A) (k : A → V B) : emits m → (∀ x, emits (k x)) → emits (m ≫= k).
Proof. intros Hm Hk w. apply pc_bind, pc_emits; [done|]. intros x w'. apply Hk. Qed.

Lemma emits_ret {A} (x : A) : emits (mret x). Proof. intros w. by apply pc_ret. Qed.
Lemma emits_app : emits app. Proof. intros w. by apply pc_app. Qed.
Lemma emits_change f : emits (change f). Proof. intros w. by apply pc_change. Qed.
Lemma emits_ask {A} (f : nat → A) : emits (ask f). Proof. intros w. by apply pc_ask. Qed.
Lemma emits_option {A} (o : option A) : emits (v_option o). Proof. intros w. by apply pc_option. Qed.
Lemma emits_throw {A} e : emits (@v_throw A e). Proof. intros w. apply pc_throw. Qed.
Lemma emits_pause {A} : emits (@pause A). Proof. by intros w o w' [= <- <-]. Qed.
Lemma emits_initialised {A} (o : option A) : emits (initialised o). Proof. intros w o' w' [= <- <-]. by destruct o. Qed.
Lemma emits_undefined {A} : emits (@v_undefined A). Proof. done. Qed.
Lemma emits_fresh : emits fresh. Proof. intros w. by apply pc_fresh. Qed.
Lemma emits_emit e : always e → emits (emit e). Proof. intros He w. by apply pc_emit. Qed.
Lemma emits_check e : always e → emits (VK_CHECK_RESULT d e). Proof. intros He w. apply pc_checked; auto. Qed.
Lemma emits_glfw e : always e → emits (glfw d e). Proof. intros He w. apply pc_checked; auto. Qed.
Lemma emits_unchecked e : always e → emits (unchecked d e).
Proof. intros He. apply emits_bind; [apply emits_ask|]. intros r. case_decide; apply emits_emit; [done|by intros tr]. Qed.
Lemma emits_for n : ∀ first body, (∀ i, emits (body i)) → emits (for_each first n body).
Proof. induction n as [|n IH]; intros first body Hb; cbn; [apply emits_ret|]. apply emits_bind; auto. Qed.
Lemma emits_create c k from i : (∀ h, always (Created k h from i)) → (∀ e, always e → emits (c e)) → emits (create_by c k from i).
Proof. intros Hp Hc. apply emits_bind; [apply emits_fresh|]. intros h. apply emits_bind; auto. intros _. apply emits_ret. Qed.
Lemma emits_images sc n : (∀ hs, always (Images sc hs)) → emits (get_images d sc n).
Proof.
  intros Hp. apply emits_bind; [by intros w o w' [= <- <-]|]. intros h. apply emits_bind; [by apply emits_check|]. intros _. apply emits_ret.
Qed.
End emits.

#[export] Hint Resolve emits_ret emits_app emits_change emits_ask emits_option emits_throw emits_pause emits_initialised emits_undefined
  emits_fresh emits_emit emits_check emits_glfw emits_unchecked emits_for emits_images : emits.

(** ** What each object is created with *)
Definition within (x low hi : Z) : Prop := low <= x <= hi.

(** [create_swap_chain] makes six calls before it creates the swapchain: it asks for the
    capabilities of the surface with the first, for its formats with the second and third, for
    the size of the window, and for the modes of presentation with the last two. [t] is the
    number of calls before the swapchain is created. The swapchain fits what the surface has
    answered to these calls. *)
Record suits (d : driver) (t : nat) (i : SwapchainCreateInfo) : Prop := {
  su_queried : (6 ≤ t)%nat;
  su_capabilities : let caps := capabilities d (t - 6) in
    within (imageExtent i).1 (minImageExtent caps).1 (maxImageExtent caps).1 ∧
    within (imageExtent i).2 (minImageExtent caps).2 (maxImageExtent caps).2 ∧
    cap_minImageCount caps ≤ minImageCount i ∧ (cap_maxImageCount caps ≠ 0 → minImageCount i ≤ cap_maxImageCount caps) ∧
    preTransform i = currentTransform caps;
  su_format : (imageFormat i, imageColorSpace i) ∈ formats d (t - 5);
  su_mode : presentMode i ∈ presentModes d (t - 2);
  su_sharing : imageSharingMode i = VK_SHARING_MODE_EXCLUSIVE ∨
    imageSharingMode i = VK_SHARING_MODE_CONCURRENT ∧ ∃ p q, queueFamilyIndices i = [p; q] ∧ p ≠ q }.

(** What the memory of a buffer has to be: the host writes what is copied from, and coherently;
    the rest is local to the device. *)
Definition needed (usage : Z) : Z :=
  if Z.testbit usage 0 then Z.lor VK_MEMORY_PROPERTY_HOST_VISIBLE_BIT VK_MEMORY_PROPERTY_HOST_COHERENT_BIT
  else VK_MEMORY_PROPERTY_DEVICE_LOCAL_BIT.

(** The memory is created right after a buffer and the question for its requirements: it has
    the size that the buffer requires, and a type of the device that the buffer allows and
    that is what the use of the buffer needs. *)
Definition memory_suits (d : driver) (tr : list event) (size type : Z) : Prop :=
  ∃ dev b bytes usage mode older flags,
    tr = Noticed :: Used [dev; b] :: Created KBuffer b [dev] (InfoBuffer bytes usage mode) :: older ∧
    let requirements := memoryRequirements d (S (length older)) in
    size = requirements.1 ∧ 0 <= type ∧ memoryTypes d !! Z.to_nat type = Some flags ∧
    Z.testbit requirements.2 type = true ∧ Z.land flags (needed usage) = needed usage.

(** [tr]: the events before [e]. *)
Definition accepted (d : driver) (tr : list event) (e : event) : Prop :=
  match e with
  | Created KDevice _ _ (InfoQueues families) => NoDup families
  | Created KSwapchain _ _ (InfoSwapchain i) => suits d (length tr) i
  | Created KMemory _ _ (InfoMemory size type) => memory_suits d tr size type
  | Created KDevice _ _ _ | Created KSwapchain _ _ _ | Created KMemory _ _ _ => False
  | _ => True
  end.

(** What the capabilities of a surface satisfy. *)
Definition sensible (caps : SurfaceCapabilities) : Prop :=
  (minImageExtent caps).1 ≤ (maxImageExtent caps).1 ∧ (minImageExtent caps).2 ≤ (maxImageExtent caps).2 ∧
  0 ≤ cap_minImageCount caps < 2 ^ 32 - 1 ∧ 0 ≤ cap_maxImageCount caps ∧
  (cap_maxImageCount caps ≠ 0 → cap_minImageCount caps ≤ cap_maxImageCount caps).

Lemma myclamp_within x low hi : low ≤ hi → within (myclamp x low hi) low hi.
Proof. intros Hl. unfold myclamp, within. repeat case_match; lia. Qed.

Lemma choose_count_within caps : sensible caps →
  cap_minImageCount caps ≤ choose_count caps ∧ (cap_maxImageCount caps ≠ 0 → choose_count caps ≤ cap_maxImageCount caps).
Proof.
  intros (_ & _ & Hmin & Hmax & Hle). unfold choose_count. replace (u32 (cap_minImageCount caps + 1)) with (cap_minImageCount caps + 1)
    by (unfold u32; rewrite Z.mod_small; lia).
  case_match eqn:Hb; [apply andb_true_iff in Hb as [?%Z.ltb_lt ?%Z.ltb_lt]; lia|apply andb_false_iff in Hb; rewrite !Z.ltb_ge in Hb; lia].
Qed.

Lemma choose_format_among first l : head l = Some first → choose_format first l ∈ l.
Proof.
  intros Hh. unfold choose_format. destruct (list_find _ l) as [[i f]|] eqn:Hf; cbn.
  - apply list_find_Some in Hf as (Hf & _). by eapply list_elem_of_lookup_2.
  - destruct l; simplify_eq/=. left.
Qed.

Lemma choose_mode_among l : l ≠ [] → choose_mode l ∈ l.
Proof.
  intros Hl. unfold choose_mode. case_decide; [done|]. destruct (last l) as [m|] eqn:Hm; [by apply last_Some_elem_of|].
  by apply last_None in Hm.
Qed.

Lemma families_distinct p g : NoDup (uniqueQueueFamilies p g).
Proof.
  unfold uniqueQueueFamilies. destruct (Z.eqb_spec p g); [apply NoDup_singleton|]. apply NoDup_cons. split; [|apply NoDup_singleton].
  intros Hin%list_elem_of_singleton. lia.
Qed.

Lemma find_type_suits filter properties types : ∀ i type, 0 <= i → find_type filter properties i types = Some type →
  i <= type ∧ ∃ flags, types !! Z.to_nat (type - i) = Some flags ∧ Z.testbit filter type = true ∧ Z.land flags properties = properties.
Proof.
  induction types as [|flags types IH]; intros i type Hi; cbn [find_type]; [done|]. case_match eqn:Hb.
  - intros [= <-]. apply andb_true_iff in Hb as [Hb Hpr%Z.eqb_eq]. split; [lia|]. exists flags. rewrite Z.sub_diag. split; [done|]. split; [|done].
    apply negb_true_iff, Z.eqb_neq in Hb. rewrite Z.shiftl_1_l in Hb. destruct (Z.testbit filter i) eqn:Ht; [done|]. exfalso. apply Hb.
    apply Z.bits_inj'. intros n Hn. rewrite Z.land_spec, Z.bits_0, Z.pow2_bits_eqb by lia. destruct (Z.eqb_spec i n) as [<-|]; [by rewrite Ht|apply andb_false_r].
  - intros Hf. apply IH in Hf as (Hle & flags' & Hl & ?); [|lia]. split; [lia|]. exists flags'.
    replace (Z.to_nat (type - i)) with (S (Z.to_nat (type - (i + 1)))) by lia. done.
Qed.

Section program.
Variable d : driver.
Hypothesis Hcaps : ∀ t, sensible (capabilities d t).

Lemma refused_accepted tr r : accepted d tr (Refused r).
Proof. done. Qed.
#[local] Hint Resolve refused_accepted : emits.

(** The length of the trace after some calls. *)
Ltac trace_length := repeat match goal with H : trace _ = _ |- _ => rewrite H; clear H end; cbn; lia.

Lemma create_swap_chain_emits : emits (accepted d) (create_swap_chain d).
Proof.
  intros w. unfold create_swap_chain. apply pc_bind, pc_load. intros s _. apply pc_bind, pc_ask.
  set (caps := capabilities d _). apply pc_bind, (pc_checked d); [auto with emits|by left|done|]. intros w1 T1 A1.
  apply pc_bind, pc_ask. set (fs := formats d _). apply pc_bind, (pc_checked d); [auto with emits|by left|done|]. intros w2 T2 A2.
  destruct fs as [|f fs'] eqn:Hfs; [intros o w' Hr; done|]. cbn [length Nat.eqb negb head].
  apply pc_bind, (pc_checked d); [auto with emits|by left|done|]. intros w3 T3 A3.
  apply pc_bind, pc_ret, pc_bind, pc_change. intros w4 T4 A4. apply pc_bind, pc_ask. set (size := framebufferSize d _).
  apply pc_bind, (pc_checked d); [auto with emits|by right|done|]. intros w5 T5 A5. apply pc_bind, pc_change. intros w6 T6 A6.
  apply pc_bind, pc_ask. set (modes := presentModes d _). apply pc_bind, (pc_checked d); [auto with emits|by left|done|]. intros w7 T7 A7.
  case_match eqn:Hm; [apply pc_throw|]. apply Nat.eqb_neq in Hm.
  apply pc_bind, (pc_checked d); [auto with emits|by left|done|]. intros w8 T8 A8. apply pc_bind, pc_app, pc_bind, pc_load. intros dev _.
  assert (L : length (trace w8) = (6 + length (trace w))%nat) by trace_length.
  assert (L5 : (length (trace w8) - 5)%nat = length (trace w1)) by (rewrite L, T1; cbn; lia).
  assert (L2 : (length (trace w8) - 2)%nat = length (trace w6)) by trace_length.
  assert (L6 : (length (trace w8) - 6)%nat = length (trace w)) by lia.
  apply pc_bind, pc_create; [auto with emits| |intros h w9 _ _; by apply pc_change]. intros h. unfold accepted.
  assert (Hc : sensible caps) by apply Hcaps. destruct (choose_count_within _ Hc) as [Hc1 Hc2]. destruct Hc as (He1 & He2 & _).
  assert (Ef : SurfaceFormat (this w8) = choose_format f (f :: fs')) by (rewrite A8, A7, A6, A5, A4; done).
  assert (Ee : Extent (this w8) = choose_extent caps size.1 size.2) by (rewrite A8, A7, A6; done).
  rewrite Ef, Ee. split; rewrite ?L2, ?L5, ?L6; cbn -[choose_count choose_format].
  - lia.
  - split; [by apply myclamp_within|]. by split; [apply myclamp_within|].
  - pose proof (choose_format_among f (f :: fs') eq_refl) as Hin. rewrite <- Hfs in Hin at 2.
    by destruct (choose_format f (f :: fs')).
  - apply choose_mode_among. intros H. apply Hm. unfold modes. by rewrite H.
  - destruct (Z.eqb_spec (GraphicsFamily (this w8)) (PresentFamily (this w8))); [by left|right]. split; [done|]. by eexists _, _.
Qed.

Lemma createBuffer_emits size usage properties bf mf :
  properties = needed usage → emits (accepted d) (createBuffer d size usage properties bf mf).
Proof.
  intros -> w. unfold createBuffer. apply pc_bind, pc_load. intros dev _. apply pc_bind, pc_create; [auto with emits|done|]. intros b w1 T1 A1.
  assert (Hassign : ∀ f h (Q : () → world → Prop) w, (∀ w', trace w' = trace w → Q () w') → pc (accepted d) (assign f h) Q w).
  { intros f h Q w0 HQ. destruct f; [apply pc_change; auto|by apply pc_ret, HQ]. }
  apply pc_bind, Hassign. intros w2 T2. apply pc_bind, pc_ask. set (req := memoryRequirements d _).
  apply pc_bind, pc_emit; [done|]. intros w3 T3 _. apply pc_bind, pc_bind, pc_emit; [done|]. intros w4 T4 _.
  destruct (find_type _ _ _ _) as [type|] eqn:Hty; [|apply pc_throw]. apply pc_ret.
  destruct (find_type_suits _ _ _ 0 type ltac:(lia) Hty) as (Hle & flags & Hl & Ht & Hp). rewrite Z.sub_0_r in Hl.
  apply pc_bind, pc_create; [auto with emits| |].
  { intros h. exists dev, b, size, usage, VK_SHARING_MODE_EXCLUSIVE, (trace w), flags. rewrite T4, T3, T2, T1. split; [done|].
    replace (S (length (trace w))) with (length (trace w2)) by (by rewrite T2, T1). done. }
  intros m w5 _ _. apply pc_bind, Hassign. intros w6 _. apply pc_bind, pc_emits; [apply emits_unchecked; [auto with emits|done]|].
  intros _ w7. by apply pc_ret.
Qed.
End program.

#[export] Hint Resolve create_swap_chain_emits refused_accepted : emits.

(** ** Every operation *)
Ltac unfold_access := unfold vkCreate, vkDestroy, load, set, element, load_element, elements, set_elements, set_element, resize_vector, window, assign, next_frame.
Ltac ems :=
  repeat match goal with
  | |- ∀ _, _ => intros
  | |- emits _ (_ ≫= _) => apply emits_bind
  | |- emits _ (for_each _ _ _) => apply emits_for
  | |- emits _ (create_by _ _ _ _) => apply emits_create; [done|]
  | |- emits _ (createBuffer _ _ _ _ _ _) => apply createBuffer_emits; by vm_compute
  | |- emits _ (get_images _ _ _) => apply emits_images; [auto with emits|done]
  | |- emits _ (VK_CHECK_RESULT _ _) => apply emits_check; [auto with emits|done]
  | |- emits _ (glfw _ _) => apply emits_glfw; [auto with emits|done]
  | |- emits _ (unchecked _ _) => apply emits_unchecked; [auto with emits|done]
  | |- emits _ (emit _) => by apply emits_emit
  | |- _ => solve [auto with emits]
  | |- emits _ (match ?x with _ => _ end) => destruct x
  | |- _ => progress unfold_access
  end.

Section operations.
Variable d : driver.
Hypothesis Hcaps : ∀ t, sensible (capabilities d t).
Notation accepts := (emits (accepted d)).

Lemma opening_emits : accepts (initialize_window d) ∧ accepts (create_instance d) ∧ accepts (peek_device d).
Proof. unfold initialize_window, create_instance, peek_device. split_and!; ems. Qed.

Lemma find_queues_emits : accepts (find_queues d).
Proof.
  assert (Hfrom : ∀ l i, accepts (find_queues_from d i l)); [|unfold find_queues; ems; apply Hfrom].
  intros l. induction l as [|flags l IH]; intros i; cbn [find_queues_from]; ems.
Qed.

Lemma create_logical_device_emits : accepts (create_logical_device d).
Proof.
  unfold create_logical_device. ems. apply emits_create; [intros h tr; apply families_distinct|auto with emits].
Qed.

Lemma swapchain_emits : accepts (create_image_views d) ∧ accepts (create_render_pass d) ∧ (∀ v f, accepts (create_pipeline d v f)) ∧
  accepts (create_frame_buffer d) ∧ accepts (create_command_buffers d) ∧ accepts cleanup_swap_chain.
Proof.
  unfold create_image_views, create_render_pass, create_pipeline, create_frame_buffer, create_command_buffers, allocate_buffers, cleanup_swap_chain.
  split_and!; ems.
Qed.

Lemma buffers_emits : accepts (create_command_pool d) ∧ accepts (create_buffers d) ∧ accepts (create_sync_objs d).
Proof.
  unfold create_command_pool, create_buffers, fill_buffer, copyBuffer, create_sync_objs. split_and!; ems.
Qed.

Lemma update_swap_chain_emits fuel : accepts (update_swap_chain d fuel) ∧ accepts (handle_events d).
Proof.
  destruct swapchain_emits as (? & ? & ? & ? & ? & ?). assert (He : accepts (handle_events d)) by (unfold handle_events; ems).
  assert (Hwait : ∀ n size, accepts (wait_for_size d n size)).
  { intros n. induction n as [|n IH]; intros size; cbn [wait_for_size]; ems. }
  split; [|done]. unfold update_swap_chain. ems.
Qed.

Lemma render_frame_emits fuel : accepts (render_frame d fuel).
Proof.
  destruct (update_swap_chain_emits fuel) as [? _]. unfold render_frame, submit_frame, present_frame. ems.
Qed.

Lemma session_emits fuel : accepts (session d fuel).
Proof.
  destruct opening_emits as (? & ? & ?), swapchain_emits as (? & ? & ? & ? & ? & ?), buffers_emits as (? & ? & ?).
  pose proof find_queues_emits. pose proof create_logical_device_emits.
  assert (Hread : ∀ p, accepts (readFile d p)) by (intros; unfold readFile; ems).
  assert (Hinstall : ∀ c, accepts (installShader d c)) by (intros; unfold installShader; ems).
  assert (Hframes : ∀ n, accepts (frames d fuel n)).
  { intros n. destruct (update_swap_chain_emits fuel). pose proof (render_frame_emits fuel). induction n; cbn [frames]; ems. }
  unfold session, run. ems.
Qed.

Lemma destructor_emits : accepts destructor ∧ accepts (Cleanup d).
Proof. destruct swapchain_emits as (? & ? & ? & ? & ? & ?). unfold destructor, Cleanup. split; ems. Qed.

Lemma main_emits fuel : accepts (main d fuel).
Proof.
  intros w o w' Hr Hp. unfold main in Hr. destruct (session d fuel w) as [[o1 w1]|] eqn:Hs; [|done].
  destruct (session_emits fuel w o1 w1 Hs Hp) as [Hp1 _].
  assert (Hend : ∀ x, accepts (destructor;; Cleanup d;; mret (M:=V) (x : option error))).
  { intros x. destruct destructor_emits as [He1 He2]. ems. }
  destruct o1 as [u|e| |]; [exact (Hend None w1 o w' Hr Hp1)|exact (Hend (Some e) w1 o w' Hr Hp1)|by simplify_eq..].
Qed.
End operations.
