(* ===== verification/VkStages.v ===== *)
(** * The swapchain and what is built on it

    Each [create_*] of [src/10-3d/vk-simplest.cc] from what it needs to what it provides: used
    by the start of the program and again by [update_swap_chain]. *)

From stdpp Require Import functions.
From S2P Require Import Prelude Vk VkProgram VkLogic.

Definition field_kind (f : field) : kind :=
  match f with
  | Instance => KInstance | Device => KDevice | Surface => KSurface | SwapChain => KSwapchain | RenderPass => KRenderPass
  | PipelineLayout => KPipelineLayout | GraphicsPipeline => KPipeline | CommandPool => KCommandPool
  | VertexBuffer | IndexBuffer => KBuffer | VertexBufferMemory | IndexBufferMemory => KMemory
  | StoredVertexID | StoredFragmentID => KShaderModule
  end.

Definition good (a : VkApp) (g : gpu) (f : field) : Prop := ∃ h, handles a f = Some h ∧ of_kind g (field_kind f) h.

(** [n] more of the kind [k] *)
Definition adds (k : kind) (n : nat) (c : kind → nat) : kind → nat := λ k', ((if decide (k' = k) then n else 0) + c k')%nat.

(** The fields [fs] hold objects of their kinds, [c] counts the objects, and nothing executes. *)
Record stage (a : VkApp) (g : gpu) (fs : list field) (c : kind → nat) : Prop := {
  st_fields : ∀ f, f ∈ fs → good a g f;
  st_census : ∀ k, k ≠ KImage → census g k = c k;
  st_pending : pending g = [];
  st_signals : signals g = ∅;
  st_acquired : acquired g = ∅ }.

(** What a step leaves alone: everything but the fields [fs] and the vectors [vs]. *)
Record rest (fs : list field) (vs : list vector) (a : VkApp) (g : gpu) (a' : VkApp) (g' : gpu) : Prop := {
  r_live : live g ⊆ live g';
  r_fences : fences g' = fences g;
  r_handles : ∀ f, f ∉ fs → handles a' f = handles a f;
  r_vectors : ∀ v, v ∉ vs → vectors a' v = vectors a v;
  r_frame : CurrentFrame a' = CurrentFrame a;
  r_wnd : Wnd a' = Wnd a }.

Section stages.
Implicit Types (a : VkApp) (g : gpu) (k : kind) (h : handle) (fs : list field) (vs : list vector) (c : kind → nat).

Lemma of_kind_live g g' k h : live g ⊆ live g' → of_kind g k h → of_kind g' k h.
Proof. intros Hl Hk. apply fmap_Some_1 in Hk as (x & Hx & ->). unfold of_kind. by rewrite (lookup_weaken _ _ _ _ Hx Hl). Qed.

Lemma grown_live g g' k h from : grown g g' k h from → live g ⊆ live g'.
Proof. intros Hg. rewrite (gr_live _ _ _ _ _ Hg). apply insert_subseteq, Hg. Qed.

Lemma grown_kind g g' k h from : grown g g' k h from → of_kind g' k h.
Proof. intros Hg. unfold of_kind. by rewrite (gr_live _ _ _ _ _ Hg), lookup_insert_eq. Qed.

Lemma grown_lookup g g' k h from : grown g g' k h from → live g' !! h = Some (k, from).
Proof. intros Hg. by rewrite (gr_live _ _ _ _ _ Hg), lookup_insert_eq. Qed.

Lemma of_kind_alive g k h : of_kind g k h → is_Some (live g !! h).
Proof. intros (x & Hx & _)%fmap_Some_1. by exists x. Qed.

Lemma rest_refl fs vs a g : rest fs vs a g a g.
Proof. by split. Qed.

Lemma rest_trans fs vs a1 g1 a2 g2 a3 g3 : rest fs vs a1 g1 a2 g2 → rest fs vs a2 g2 a3 g3 → rest fs vs a1 g1 a3 g3.
Proof.
  intros [L1 F1 H1 V1 C1 W1] [L2 F2 H2 V2 C2 W2]. split; try congruence; [by trans (live g2)|..].
  - intros f Hf. by rewrite H2, H1.
  - intros v Hv. by rewrite V2, V1.
Qed.

Lemma rest_weaken fs vs fs' vs' a g a' g' : rest fs vs a g a' g' → fs ⊆ fs' → vs ⊆ vs' → rest fs' vs' a g a' g'.
Proof. intros [L F H V0 C W] Hf Hv. split; auto. Qed.

Lemma rest_grown fs vs a g g' k h from : grown g g' k h from → k ≠ KFence → rest fs vs a g a g'.
Proof. intros Hg Hk. split; try done; [by eapply grown_live|by apply Hg]. Qed.

Lemma rest_app fs vs a a' g :
  (∀ f, f ∉ fs → handles a' f = handles a f) → (∀ v, v ∉ vs → vectors a' v = vectors a v) →
  CurrentFrame a' = CurrentFrame a → Wnd a' = Wnd a → rest fs vs a g a' g.
Proof. by split. Qed.

Lemma rest_vector v l fs vs a g : v ∈ vs → rest fs vs a g (with_vector v l a) g.
Proof. intros Hv. apply rest_app; try done. intros v' Hv'. apply fn_lookup_insert_ne. by intros ->. Qed.

Lemma rest_handle f h fs vs a g : f ∈ fs → rest fs vs a g (with_handle f h a) g.
Proof. intros Hf. apply rest_app; try done. intros f' Hf'. apply fn_lookup_insert_ne. by intros ->. Qed.

Lemma good_live a g g' f : live g ⊆ live g' → good a g f → good a g' f.
Proof. intros Hl (h & Hh & Hk). exists h. split; [done|]. by eapply of_kind_live. Qed.

Lemma stage_grown a g g' k h from fs c :
  stage a g fs c → grown g g' k h from → stage a g' fs (adds k 1 c).
Proof.
  intros [S1 S2 S3 S4 S5] Hg. pose proof Hg as [G1 G2 _ G4 G5 _ G7]. split; try congruence.
  - intros f Hf. eapply good_live; [by eapply grown_live|auto].
  - intros k' Hk'. rewrite (census_insert g g' k h from k' G1 G2), S2 by done. done.
Qed.

Lemma stage_app a a' g fs c : stage a g fs c → handles a' = handles a → stage a' g fs c.
Proof. intros [S1 S2 S3 S4 S5] Hh. split; try done. intros f Hf. unfold good. rewrite Hh. by apply S1. Qed.

Lemma stage_vector a g v l fs c : stage a g fs c → stage (with_vector v l a) g fs c.
Proof. intros Hs. by eapply stage_app. Qed.

Lemma stage_set a g f h fs c : stage a g fs c → of_kind g (field_kind f) h → stage (with_handle f h a) g (f :: fs) c.
Proof.
  intros [S1 S2 S3 S4 S5] Hk. split; try done. intros f' Hf'. destruct (decide (f' = f)) as [->|Hne].
  - exists h. split; [apply fn_lookup_insert|done].
  - destruct (S1 f') as (h' & Hh' & Hk'); [set_solver|]. exists h'. split; [|done]. by rewrite <- Hh'; apply fn_lookup_insert_ne.
Qed.

Lemma stage_weaken a g fs fs' c c' : stage a g fs c → fs' ⊆ fs → (∀ k, c k = c' k) → stage a g fs' c'.
Proof. intros [S1 S2 S3 S4 S5] Hf Hc. split; try done; [auto|]. intros k Hk. by rewrite S2. Qed.

Lemma adds_adds k m n c k' : adds k m (adds k n c) k' = adds k (m + n) c k'.
Proof. unfold adds. destruct (decide _); lia. Qed.
End stages.

(** ** Rules for the program in a stage *)
Section rules.
Variable d : driver.
Variable R : Prop.
Hypothesis Hdoc : answers d.

Lemma wp_check e g' (Q : () → VkApp → gpu → Prop) a g :
  ¬ creates e → step g e = Some g' → Q () a g' → wp d R (VK_CHECK_RESULT d e) Q a g.
Proof. apply wp_call; auto using wrapper_check. Qed.

Lemma wp_used c hs (Q : () → VkApp → gpu → Prop) a g : wrapper d c → alive g hs → Q () a g → wp d R (c (Used hs)) Q a g.
Proof. intros Hc Ha HQ. eapply wp_call; [done|auto| |done]. cbn. unfold allow. by rewrite decide_True. Qed.

Lemma wp_noticed c (Q : () → VkApp → gpu → Prop) a g : wrapper d c → Q () a g → wp d R (c Noticed) Q a g.
Proof. intros Hc HQ. eapply wp_call; [done|auto|done|done]. Qed.

Lemma wp_load_good f (Q : handle → VkApp → gpu → Prop) a g :
  good a g f → (∀ h, handles a f = Some h → of_kind g (field_kind f) h → Q h a g) → wp d R (load f) Q a g.
Proof. intros (h & Hh & Hk) HQ. eapply wp_load; [done|by apply HQ]. Qed.

Lemma wp_create_stage c k from i fs n (Q : handle → VkApp → gpu → Prop) a g :
  wrapper d c → k ≠ KFence → stage a g fs n → alive g from →
  (∀ h g', grown g g' k h from → stage a g' fs (adds k 1 n) → rest [] [] a g a g' → Q h a g') →
  wp d R (create_by c k from i) Q a g.
Proof.
  intros Hc Hk Hs Ha HQ. apply wp_create; [done|done|]. intros h g' _ _ Hg. eapply HQ; [done|by eapply stage_grown|].
  by eapply rest_grown.
Qed.

(** A loop that creates an object for each element of a vector. *)
Lemma wp_fill v k n (from : nat → list handle) body fs c a g (Q : () → VkApp → gpu → Prop) :
  stage a g fs c → length (vectors a v) = n → k ≠ KFence →
  (∀ i a' g' (Q' : () → VkApp → gpu → Prop), (i < n)%nat → stage a' g' fs (adds k i c) → rest [] [v] a g a' g' → length (vectors a' v) = n →
    (∀ h g'', grown g' g'' k h (from i) → Q' () (with_vector v (<[i := Some h]> (vectors a' v)) a') g'') →
    wp d R (body i) Q' a' g') →
  (∀ hs a' g', length hs = n → vectors a' v = Some <$> hs → NoDup hs →
    (∀ i h, hs !! i = Some h → live g' !! h = Some (k, from i)) →
    stage a' g' fs (adds k n c) → rest [] [v] a g a' g' → Q () a' g') →
  wp d R (for_each 0 n body) Q a g.
Proof.
  intros Hst Hlen Hk Hbody HQ.
  apply (wp_for d R (λ i a' g', ∃ hs, length hs = i ∧ vectors a' v = (Some <$> hs) ++ drop i (vectors a v) ∧ NoDup hs ∧
    (∀ i h, hs !! i = Some h → live g' !! h = Some (k, from i)) ∧ stage a' g' fs (adds k i c) ∧ rest [] [v] a g a' g')).
  - exists []. split; [done|]. split; [done|]. split; [constructor|]. split; [by intros i h Hi|].
    split; [|apply rest_refl]. eapply stage_weaken; [exact Hst|done|]. intros k'. unfold adds. by destruct (decide _).
  - intros i a' g' Hi (hs & Hn & Hv & Hnd & Hlive & Hs & Hr). apply Hbody; [lia|done|done| |].
    { rewrite Hv, length_app, length_fmap, length_drop. lia. }
    intros h g'' Hg. exists (hs ++ [h]). pose proof (grown_live _ _ _ _ _ Hg) as Hsub.
    assert (Hnew : h ∉ hs).
    { intros [j Hj]%list_elem_of_lookup. apply Hlive in Hj. by rewrite (gr_new _ _ _ _ _ Hg) in Hj. }
    split; [rewrite length_app; cbn; lia|]. split; [|split; [|split; [|split]]].
    + cbn. rewrite fn_lookup_insert, Hv, insert_app_r_alt by (rewrite length_fmap; lia).
      rewrite length_fmap, Hn, Nat.sub_diag, fmap_app, <- app_assoc. f_equal.
      destruct (lookup_lt_is_Some_2 (vectors a v) i) as [x Hx]; [lia|]. by rewrite (drop_S _ _ _ Hx).
    + apply NoDup_app. split; [done|]. split; [|apply NoDup_singleton]. by intros x Hx ->%list_elem_of_singleton.
    + intros j x [Hj|[Hj [Hj0 <-]%list_lookup_singleton_Some]]%lookup_app_Some.
      * eapply lookup_weaken; [by apply Hlive|done].
      * assert (j = i) as -> by lia. eapply grown_lookup; exact Hg.
    + eapply stage_weaken; [apply stage_vector; exact (stage_grown _ _ _ _ _ _ _ _ Hs Hg)|done|]. intros k'. by rewrite adds_adds.
    + eapply rest_trans; [exact Hr|]. eapply rest_trans; [exact (rest_grown _ _ _ _ _ _ _ _ Hg Hk)|]. apply rest_vector. left.
  - intros a' g' (hs & Hn & Hv & Hnd & Hlive & Hs & Hr). rewrite drop_ge, app_nil_r in Hv by lia. by apply (HQ hs).
Qed.
End rules.

Ltac vload f H := apply wp_bind; eapply wp_load_good; [apply (st_fields _ _ _ _ H); set_solver|].
Ltac vused := apply wp_bind; apply wp_used; [auto with vk|repeat constructor; by eapply of_kind_alive|].

Section operations.
Variable d : driver.
Variable R : Prop.
Hypothesis Hdoc : answers d.
Implicit Types (fs : list field) (c : kind → nat) (a : VkApp) (g : gpu) (Q : () → VkApp → gpu → Prop).

(** ** [create_swap_chain] *)
Lemma create_swap_chain_wp fs c a g Q :
  stage a g fs c → Surface ∈ fs → Device ∈ fs →
  (∀ a' g', stage a' g' (SwapChain :: fs) (adds KSwapchain 1 c) → rest [SwapChain] [] a g a' g' → Q () a' g') →
  wp d R (create_swap_chain d) Q a g.
Proof.
  intros Hst Hs Hd HQ. unfold create_swap_chain. vload Surface Hst. intros s Hsh Hsk.
  apply wp_bind, wp_ask. intros t. vused.
  apply wp_bind, wp_ask. intros tf. vused.
  apply wp_bind. assert (Hf := doc_formats d (as_documented d Hdoc) tf). destruct (formats d tf) as [|first formats]; [done|]. cbn [length Nat.eqb negb head].
  apply wp_used; [auto with vk|repeat constructor; by eapply of_kind_alive|].
  apply wp_bind. eapply wp_option; [done|]. apply wp_bind, wp_change. apply wp_bind, wp_ask. intros tsz.
  apply wp_bind. apply wp_noticed; [auto with vk|]. apply wp_bind, wp_change. set (a1 := set_Extent _ _).
  assert (Hst1 : stage a1 g fs c) by (by eapply stage_app).
  assert (Hr1 : rest [SwapChain] [] a g a1 g) by (by apply rest_app). clearbody a1.
  apply wp_bind, wp_ask. intros tm. vused. case_match eqn:Hm.
  { apply wp_throw. intros Hc. apply (calm_modes d Hc tm). by apply length_zero_iff_nil, Nat.eqb_eq. }
  vused. apply wp_bind, wp_app. vload Device Hst1. intros dev Hdev Hdevk.
  apply wp_bind. eapply wp_create_stage; [auto with vk|done|exact Hst1|repeat constructor; by eapply of_kind_alive|].
  intros sc g' Hg Hst' Hr'. apply wp_set. apply HQ.
  - by apply stage_set; [|eapply grown_kind].
  - eapply rest_trans; [exact Hr1|]. eapply rest_trans; [eapply rest_weaken; [exact Hr'|set_solver..]|]. apply rest_handle. left.
Qed.
End operations.

(** ** [create_image_views] *)
Record views (a : VkApp) (g : gpu) (imgs vs : list handle) : Prop := {
  vw_images : vectors a SwapChainImages = Some <$> imgs;
  vw_distinct : NoDup imgs;
  vw_swapchain : ∃ sc, handles a SwapChain = Some sc ∧ ∀ h, h ∈ imgs → live g !! h = Some (KImage, [sc]);
  vw_views : vectors a SwapChainImageViews = Some <$> vs;
  vw_nodup : NoDup vs;
  vw_length : length vs = length imgs;
  vw_of : ∀ i v img, vs !! i = Some v → imgs !! i = Some img → ∃ dev, live g !! v = Some (KImageView, [dev; img]) }.

Section image_views.
Implicit Types (fs : list field) (c : kind → nat) (a : VkApp) (g : gpu).

Lemma images_lookup m sc hs h :
  NoDup hs → Forall (λ h, (m : gmap handle (kind * list handle)) !! h = None) hs →
  foldr (λ h, <[h := (KImage, [sc])]>) m hs !! h = if decide (h ∈ hs) then Some (KImage, [sc]) else m !! h.
Proof.
  intros Hnd Hn. induction hs as [|x hs IH]; cbn; [done|].
  apply NoDup_cons in Hnd as [Hx Hnd]. apply Forall_cons in Hn as [_ Hn]. destruct (decide (h = x)) as [->|Hne].
  - rewrite lookup_insert_eq, decide_True by left. done.
  - rewrite lookup_insert_ne, IH by done. destruct (decide (h ∈ hs)) as [Hin|Hin].
    + by rewrite decide_True by (by right).
    + by rewrite decide_False by (by rewrite elem_of_cons; intros [?|?]).
Qed.

Lemma census_images m sc hs k :
  NoDup hs → Forall (λ h, (m : gmap handle (kind * list handle)) !! h = None) hs → k ≠ KImage →
  filter (λ x, x.2.1 = k) (foldr (λ h, <[h := (KImage, [sc])]>) m hs) = filter (λ x, x.2.1 = k) m.
Proof.
  intros Hnd Hn Hk. induction hs as [|x hs IH]; cbn; [done|].
  apply NoDup_cons in Hnd as [Hx Hnd]. apply Forall_cons in Hn as [Hxn Hn].
  rewrite map_filter_insert_not'; [by apply IH|cbn; congruence|]. intros y.
  rewrite images_lookup by done. rewrite decide_False by done. congruence.
Qed.

Lemma stage_images a g fs c sc hs :
  stage a g fs c → NoDup hs → Forall (λ h, live g !! h = None) hs →
  let g' := set_live (foldr (λ h, <[h := (KImage, [sc])]>) (live g) hs) g in
  stage a g' fs c ∧ rest [] [] a g a g' ∧ ∀ h, h ∈ hs → live g' !! h = Some (KImage, [sc]).
Proof.
  intros [S1 S2 S3 S4 S5] Hnd Hn g'.
  assert (Hl : live g ⊆ live g').
  { apply map_subseteq_spec. intros h x Hx. cbn. rewrite images_lookup by done. rewrite decide_False; [done|].
    intros Hin. rewrite Forall_forall in Hn. by rewrite Hn in Hx. }
  split; [|split; [by split|]].
  - split; try done.
    + intros f Hf. eapply good_live; [exact Hl|by apply S1].
    + intros k Hk. unfold census, g'. cbn. rewrite census_images by done. by apply S2.
  - intros h Hh. cbn. rewrite images_lookup by done. by rewrite decide_True.
Qed.

Lemma views_rest fs vs a g a' g' imgs vws :
  views a g imgs vws → rest fs vs a g a' g' → SwapChain ∉ fs → SwapChainImages ∉ vs → SwapChainImageViews ∉ vs →
  views a' g' imgs vws.
Proof.
  intros [V1 V2 (sc & Hsc & V3) V4 V5 V6 V7] [R1 R2 R3 R4 R5 R6] H1 H2 H3.
  split; try done; [by rewrite R4|exists sc|by rewrite R4|].
  - split; [by rewrite R3|]. intros h Hh. eapply lookup_weaken; [by apply V3|done].
  - intros i v img Hv Hi. destruct (V7 i v img Hv Hi) as (dev & Hd). exists dev. by eapply lookup_weaken.
Qed.

Variable d : driver.
Variable R : Prop.
Hypothesis Hdoc : answers d.

Lemma create_image_views_wp fs c a g (Q : () → VkApp → gpu → Prop) :
  stage a g fs c → SwapChain ∈ fs → Device ∈ fs →
  (∀ imgs vws a' g', (0 < length imgs)%nat → views a' g' imgs vws → stage a' g' fs (adds KImageView (length imgs) c) →
    rest [] [SwapChainImages; SwapChainImageViews] a g a' g' → Q () a' g') →
  wp d R (create_image_views d) Q a g.
Proof.
  intros Hst Hs Hd HQ. unfold create_image_views. vload Device Hst. intros dev Hdev Hdevk. vload SwapChain Hst. intros sc Hsc Hsck.
  apply wp_bind, wp_ask. intros t. set (n := imageCount d t). vused.
  apply wp_bind, wp_resize. set (a1 := with_vector _ _ a).
  apply wp_bind, wp_images; [done|]. intros hs Hlen Hnd Hnew.
  destruct (stage_images a1 g fs c sc hs (stage_vector _ _ _ _ _ _ Hst) Hnd Hnew) as (Hst1 & Hr1 & Himg).
  set (g1 := set_live _ g) in *. apply wp_bind, wp_set_elements.
  apply wp_bind, wp_app, wp_bind, wp_change, wp_bind, wp_change. apply wp_bind, wp_resize. set (a2 := with_vector SwapChainImageViews _ _).
  assert (Hst2 : stage a2 g1 fs c) by (by eapply stage_app).
  assert (Hr2 : rest [] [SwapChainImages; SwapChainImageViews] a g a2 g1).
  { destruct Hr1. split; try done. intros v Hv. cbn. unfold a2, a1. cbn. rewrite !fn_lookup_insert_ne by set_solver. done. }
  assert (Hi2 : vectors a2 SwapChainImages = Some <$> hs).
  { unfold a2. cbn. rewrite fn_lookup_insert_ne by done. apply fn_lookup_insert. }
  assert (Hsc2 : handles a2 SwapChain = Some sc) by done.
  assert (Hv2 : length (vectors a2 SwapChainImageViews) = n).
  { unfold a2. cbn. rewrite fn_lookup_insert. apply length_resize. }
  assert (Hdevk2 : of_kind g1 KDevice dev) by (eapply of_kind_live; [apply Hr1|done]).
  clearbody a2 g1 a1.
  eapply (wp_fill d R SwapChainImageViews KImageView n (λ i, [dev; default 0%nat (hs !! i)])); [exact Hst2|done|done| |].
  - intros i a' g' Q' Hi Hst' Hr' Hv' HQ'. destruct (lookup_lt_is_Some_2 hs i) as [img Himgi]; [lia|]. rewrite Himgi in HQ'.
    apply wp_bind. eapply wp_load_element.
    { rewrite (r_vectors _ _ _ _ _ _ Hr') by set_solver. by rewrite Hi2, list_lookup_fmap, Himgi. }
    apply wp_bind, wp_app, wp_bind. assert (Hlive := r_live _ _ _ _ _ _ Hr'). eapply wp_create_stage; [auto with vk|done|exact Hst'| |].
    { repeat constructor; [by eapply of_kind_alive, of_kind_live|]. eexists. eapply lookup_weaken; [|done].
      apply Himg. by eapply list_elem_of_lookup_2. }
    intros h g'' Hg _ _. apply wp_set_element; [lia|]. by apply HQ'.
  - intros vws a' g' Hlv Hv' Hndv Hof Hst' Hr'. apply (HQ hs vws); [unfold n in *; pose proof (doc_images d (as_documented d Hdoc) t); lia| |by rewrite Hlen|].
    + split; try done; [by rewrite (r_vectors _ _ _ _ _ _ Hr') by set_solver| |congruence|].
      * exists sc. split; [by rewrite (r_handles _ _ _ _ _ _ Hr') by set_solver|]. intros h Hh.
        eapply lookup_weaken; [by apply Himg|apply Hr'].
      * intros i v img Hvi Hii. exists dev. rewrite (Hof i v Hvi), Hii. done.
    + eapply rest_trans; [exact Hr2|]. eapply rest_weaken; [exact Hr'|set_solver..].
Qed.
End image_views.

(** ** Render pass, pipeline, framebuffers, command pool *)
Section objects.
Variable d : driver.
Variable R : Prop.
Hypothesis Hdoc : answers d.
Implicit Types (fs : list field) (c : kind → nat) (a : VkApp) (g : gpu) (Q : () → VkApp → gpu → Prop).

(** One object of [from], kept in the field [f]. *)
Lemma wp_create_field f k from i fs c a g Q :
  field_kind f = k → stage a g fs c → alive g from → k ≠ KFence →
  (∀ a' g', stage a' g' (f :: fs) (adds k 1 c) → rest [f] [] a g a' g' → Q () a' g') →
  wp d R (h ← vkCreate d k from i; set f h) Q a g.
Proof.
  intros <- Hst Ha Hk HQ. apply wp_bind. eapply wp_create_stage; [auto with vk|done|exact Hst|done|].
  intros h g' Hg Hst' Hr. apply wp_set, HQ.
  - apply stage_set; [done|]. by eapply grown_kind.
  - eapply rest_trans; [eapply rest_weaken; [exact Hr|set_solver..]|]. apply rest_handle. left.
Qed.

Lemma create_render_pass_wp fs c a g Q :
  stage a g fs c → Device ∈ fs →
  (∀ a' g', stage a' g' (RenderPass :: fs) (adds KRenderPass 1 c) → rest [RenderPass] [] a g a' g' → Q () a' g') →
  wp d R (create_render_pass d) Q a g.
Proof.
  intros Hst Hd HQ. unfold create_render_pass. vload Device Hst. intros dev Hdev Hdevk. apply wp_bind, wp_app.
  eapply wp_create_field; [done|exact Hst|repeat constructor; by eapply of_kind_alive|done|done].
Qed.

Lemma create_pipeline_wp VertexID FragmentID fs c a g Q :
  stage a g fs c → Device ∈ fs → RenderPass ∈ fs → of_kind g KShaderModule VertexID → of_kind g KShaderModule FragmentID →
  (∀ a' g', stage a' g' (GraphicsPipeline :: PipelineLayout :: StoredFragmentID :: StoredVertexID :: fs)
      (adds KPipeline 1 (adds KPipelineLayout 1 c)) →
    rest [StoredVertexID; StoredFragmentID; PipelineLayout; GraphicsPipeline] [] a g a' g' → Q () a' g') →
  wp d R (create_pipeline d VertexID FragmentID) Q a g.
Proof.
  intros Hst Hd Hrp Hv Hf HQ. unfold create_pipeline. apply wp_bind, wp_set, wp_bind, wp_set.
  assert (Hst1 : stage (with_handle StoredFragmentID FragmentID (with_handle StoredVertexID VertexID a)) g
    (StoredFragmentID :: StoredVertexID :: fs) c) by (by do 2 (apply stage_set; [|done])).
  set (a1 := with_handle _ _ _) in *. vload Device Hst1. intros dev Hdev Hdevk. apply wp_bind, wp_app, wp_bind.
  eapply wp_create_stage; [auto with vk|done|exact Hst1|repeat constructor; by eapply of_kind_alive|].
  intros layout g1 Hg1 Hst2 Hr1. apply wp_bind, wp_set.
  apply (stage_set _ _ PipelineLayout layout) in Hst2; [|by eapply grown_kind]. set (a2 := with_handle PipelineLayout _ _) in *.
  vload RenderPass Hst2. intros rp Hrph Hrpk. pose proof (r_live _ _ _ _ _ _ Hr1) as Hl.
  eapply wp_create_field; [done|exact Hst2| |done|].
  - repeat constructor; eapply of_kind_alive; [by eapply of_kind_live|by eapply grown_kind|done|by eapply of_kind_live..].
  - intros a' g' Hst' Hr'. apply HQ; [done|].
    assert (Hra : ∀ g0, rest [StoredVertexID; StoredFragmentID; PipelineLayout; GraphicsPipeline] [] a1 g0 a2 g0) by (intros; apply rest_handle; set_solver).
    eapply rest_trans; [apply (rest_handle StoredVertexID VertexID); set_solver|].
    eapply rest_trans; [apply (rest_handle StoredFragmentID FragmentID); set_solver|]. fold a1.
    eapply rest_trans; [eapply rest_weaken; [exact Hr1|set_solver..]|].
    eapply rest_trans; [apply Hra|]. eapply rest_weaken; [exact Hr'|set_solver..].
Qed.

(** The command pool is a child of the device. *)
Definition pooled a g : Prop := ∃ dev pool,
  handles a Device = Some dev ∧ handles a CommandPool = Some pool ∧ live g !! pool = Some (KCommandPool, [dev]).

Lemma pooled_rest fs vs a g a' g' :
  pooled a g → rest fs vs a g a' g' → Device ∉ fs → CommandPool ∉ fs → pooled a' g'.
Proof.
  intros (dev & pool & Hd & Hp & Hl) [R1 R2 R3 R4 R5 R6] H1 H2. exists dev, pool. rewrite !R3 by done.
  split; [done|]. split; [done|]. by eapply lookup_weaken.
Qed.

Lemma create_command_pool_wp fs c a g Q :
  stage a g fs c → Device ∈ fs →
  (∀ a' g', stage a' g' (CommandPool :: fs) (adds KCommandPool 1 c) → rest [CommandPool] [] a g a' g' → pooled a' g' → Q () a' g') →
  wp d R (create_command_pool d) Q a g.
Proof.
  intros Hst Hd HQ. unfold create_command_pool. vload Device Hst. intros dev Hdev Hdevk. apply wp_bind, wp_app, wp_bind.
  eapply wp_create_stage; [auto with vk|done|exact Hst|repeat constructor; by eapply of_kind_alive|].
  intros pool g' Hg Hst' Hr. apply wp_set, HQ.
  - apply stage_set; [done|]. by eapply grown_kind.
  - eapply rest_trans; [eapply rest_weaken; [exact Hr|set_solver..]|]. apply rest_handle. left.
  - exists dev, pool. cbn. rewrite fn_lookup_insert, fn_lookup_insert_ne by done. split; [done|]. split; [done|]. by eapply grown_lookup.
Qed.

(** *** [create_frame_buffer] *)
Record framebuffers a g (vws fbs : list handle) : Prop := {
  fb_list : vectors a SwapChainFramebuffers = Some <$> fbs;
  fb_nodup : NoDup fbs;
  fb_length : length fbs = length vws;
  fb_of : ∀ i fb v, fbs !! i = Some fb → vws !! i = Some v → ∃ dev rp, live g !! fb = Some (KFramebuffer, [dev; rp; v]) }.

Lemma framebuffers_rest fs vs a g a' g' vws fbs :
  framebuffers a g vws fbs → rest fs vs a g a' g' → SwapChainFramebuffers ∉ vs → framebuffers a' g' vws fbs.
Proof.
  intros [F1 F2 F3 F4] [R1 R2 R3 R4 R5 R6] H1. split; try done; [by rewrite R4|].
  intros i fb v Hf Hv. destruct (F4 i fb v Hf Hv) as (dev & rp & Hd). exists dev, rp. by eapply lookup_weaken.
Qed.

Lemma create_frame_buffer_wp fs c a g imgs vws Q :
  stage a g fs c → Device ∈ fs → RenderPass ∈ fs → views a g imgs vws →
  (∀ fbs a' g', framebuffers a' g' vws fbs → stage a' g' fs (adds KFramebuffer (length vws) c) →
    rest [] [SwapChainFramebuffers] a g a' g' → Q () a' g') →
  wp d R (create_frame_buffer d) Q a g.
Proof.
  intros Hst Hd Hrp Hvw HQ. unfold create_frame_buffer. apply wp_bind, wp_elements.
  rewrite (vw_views _ _ _ _ Hvw), length_fmap. set (n := length vws). apply wp_bind, wp_resize. set (a1 := with_vector _ _ a).
  destruct (st_fields _ _ _ _ Hst Device Hd) as (dev & Hdev & Hdevk), (st_fields _ _ _ _ Hst RenderPass Hrp) as (rp & Hrph & Hrpk).
  assert (Hr1 : rest [] [SwapChainFramebuffers] a g a1 g) by (apply rest_vector; left).
  assert (Hst1 : stage a1 g fs c) by (by apply stage_vector).
  assert (Hv1 : length (vectors a1 SwapChainFramebuffers) = n) by (unfold a1; cbn; rewrite fn_lookup_insert; apply length_resize).
  pose proof (views_rest _ _ _ _ _ _ _ _ Hvw Hr1 ltac:(set_solver) ltac:(set_solver) ltac:(set_solver)) as Hvw1.
  assert (Hdev1 : handles a1 Device = Some dev) by done. assert (Hrp1 : handles a1 RenderPass = Some rp) by done. clearbody a1.
  eapply (wp_fill d R SwapChainFramebuffers KFramebuffer n (λ i, [dev; rp; default 0%nat (vws !! i)])); [exact Hst1|done|done| |].
  - intros i a' g' Q' Hi Hst' Hr' Hv' HQ'. destruct (lookup_lt_is_Some_2 vws i) as [v Hv]; [done|]. rewrite Hv in HQ'.
    pose proof (views_rest _ _ _ _ _ _ _ _ Hvw1 Hr' ltac:(set_solver) ltac:(set_solver) ltac:(set_solver)) as Hvw'.
    apply wp_bind. eapply wp_load_element; [by rewrite (vw_views _ _ _ _ Hvw'), list_lookup_fmap, Hv|].
    apply wp_bind. eapply wp_load; [by rewrite (r_handles _ _ _ _ _ _ Hr') by set_solver|].
    apply wp_bind. eapply wp_load; [by rewrite (r_handles _ _ _ _ _ _ Hr') by set_solver|].
    apply wp_bind, wp_app, wp_bind. pose proof (r_live _ _ _ _ _ _ Hr') as Hl.
    eapply wp_create_stage; [auto with vk|done|exact Hst'| |].
    + repeat constructor; [by eapply of_kind_alive, of_kind_live..|].
      destruct (lookup_lt_is_Some_2 imgs i) as [img Himg]; [by rewrite <- (vw_length _ _ _ _ Hvw')|].
      destruct (vw_of _ _ _ _ Hvw' i v img Hv Himg) as (dv & Hlv). by eexists.
    + intros h g'' Hg _ _. apply wp_set_element; [lia|]. by apply HQ'.
  - intros fbs a' g' Hlf Hf' Hndf Hof Hst' Hr'. apply (HQ fbs); [|done|].
    + split; try done. intros i fb v Hfb Hv. exists dev, rp. rewrite (Hof i fb Hfb), Hv. done.
    + eapply rest_trans; [exact Hr1|exact Hr'].
Qed.
End objects.
