(* ===== verification/VkObjects.v ===== *)
(** * Buffers, command buffers and synchronisation objects of the Vulkan program *)

From stdpp Require Import functions.
From S2P Require Import Prelude Vk VkProgram VkLogic VkStages.

Section destroying.
Implicit Types (fs : list field) (c : kind → nat) (a : VkApp) (g : gpu) (k : kind) (h : handle).

(** The kinds whose objects are destroyed without regard to others. *)
Definition lone k : Prop := match k with KInstance | KDevice | KSurface | KSwapchain => False | _ => True end.

(** Destroying an object that no field holds. *)
Lemma stage_destroy a g fs c c' k h :
  stage a g fs c → of_kind g k h → lone k → (∀ f, f ∈ fs → field_kind f = k → handles a f ≠ Some h) →
  (∀ k', c k' = adds k 1 c' k') →
  ∃ g', destroy k h g = Some g' ∧ live g' = delete h (live g) ∧ fences g' = fences g ∧ stage a g' fs c' ∧
    (k ≠ KCommandBuffer → recorded g' = recorded g).
Proof.
  intros [S1 S2 S3 S4 S5] Hk Hsc Hf Hc. unfold destroy, allow. rewrite decide_True.
  2: { split; [done|]. split; [unfold idle; rewrite S3; constructor|]. split; [done|]. intros Ho. set_unfold in Ho. by destruct_or! Ho; subst. }
  assert (Hst : ∀ g', live g' = delete h (live g) → pending g' = pending g → signals g' = signals g →
    acquired g' = acquired g → stage a g' fs c').
  { intros g' Hl Hp Hs Ha. split; [| |congruence..].
    - intros f Hin. destruct (S1 f Hin) as (h' & Hh' & Hk'). exists h'. split; [done|]. unfold of_kind. rewrite Hl.
      rewrite lookup_delete_ne; [done|]. intros ->. unfold of_kind in *. apply (Hf f Hin); [congruence|done].
    - intros k' Hk'. pose proof (census_delete g g' k h k' Hk Hl) as Hd. rewrite S2, Hc in Hd by done. unfold adds in Hd. lia. }
  destruct k; try done; eexists; (split; [done|]); (split; [done|]); (split; [done|]); (split; [by apply Hst|done]).
Qed.

Lemma subseteq_delete (m m' : gmap handle (kind * list handle)) h : m ⊆ m' → m !! h = None → m ⊆ delete h m'.
Proof.
  intros Hm Hh. apply map_subseteq_spec. intros x y Hx. rewrite lookup_delete_ne by congruence. by eapply lookup_weaken.
Qed.
End destroying.

Section buffers.
Variable d : driver.
Variable R : Prop.
Hypothesis Hdoc : answers d.
Implicit Types (fs : list field) (c : kind → nat) (a : VkApp) (g : gpu).

Definition with_field (f : option field) (h : handle) (a : VkApp) : VkApp :=
  match f with Some f => with_handle f h a | None => a end.

Lemma wp_assign f h (Q : () → VkApp → gpu → Prop) a g : Q () (with_field f h a) g → wp d R (assign f h) Q a g.
Proof. destruct f; [apply wp_set|apply wp_ret]. Qed.

Lemma stage_field f h a g fs c :
  stage a g fs c → (∀ x, f = Some x → of_kind g (field_kind x) h) → stage (with_field f h a) g (option_list f ++ fs) c.
Proof. intros Hst Hk. destruct f as [x|]; [|done]. apply stage_set; auto. Qed.

Lemma rest_field f h fs vs a g : (∀ x, f = Some x → x ∈ fs) → rest fs vs a g (with_field f h a) g.
Proof. intros Hf. destruct f as [x|]; [apply rest_handle; auto|apply rest_refl]. Qed.

Lemma createBuffer_wp size usage properties bf mf fs c a g (Q : handle * handle → VkApp → gpu → Prop) :
  stage a g fs c → Device ∈ fs → properties ∈ memory_properties → (∀ x, bf = Some x → field_kind x = KBuffer) → (∀ x, mf = Some x → field_kind x = KMemory) →
  (∀ b m a' g', of_kind g' KBuffer b → of_kind g' KMemory m → live g !! b = None → live g !! m = None →
    (∀ f, bf = Some f → handles a' f = Some b) → (∀ f, mf = Some f → handles a' f = Some m) →
    stage a' g' (option_list mf ++ option_list bf ++ fs) (adds KMemory 1 (adds KBuffer 1 c)) →
    rest (option_list mf ++ option_list bf) [] a g a' g' → Q (b, m) a' g') →
  wp d R (createBuffer d size usage properties bf mf) Q a g.
Proof.
  intros Hst Hd Hprop Hbf Hmf HQ. unfold createBuffer. vload Device Hst. intros dev Hdev Hdevk. apply wp_bind.
  eapply wp_create_stage; [auto with vk|done|exact Hst|repeat constructor; by eapply of_kind_alive|].
  intros b g1 Hg1 Hst1 Hr1. apply wp_bind, wp_assign. pose proof (grown_kind _ _ _ _ _ Hg1) as Hbk. pose proof (r_live _ _ _ _ _ _ Hr1) as Hl1.
  apply (stage_field bf b) in Hst1; [|intros x Hx; by rewrite Hbf]. set (a1 := with_field bf b a) in *.
  apply wp_bind, wp_ask. intros t. apply wp_bind, wp_used; [auto with vk|repeat constructor; eapply of_kind_alive; [by eapply of_kind_live|done]|].
  apply wp_bind, wp_bind. apply wp_noticed; [auto with vk|].
  destruct (find_type _ _ _ _) as [ty|] eqn:Hty; [|apply wp_throw; intros Hc; by apply (calm_memory d Hc t properties Hprop)]. apply wp_ret.
  assert (Hdk1 : of_kind g1 KDevice dev) by (by eapply of_kind_live).
  apply wp_bind. eapply wp_create_stage; [auto with vk|done|exact Hst1|repeat constructor; by eapply of_kind_alive|].
  intros m g2 Hg2 Hst2 Hr2. apply wp_bind, wp_assign. pose proof (grown_kind _ _ _ _ _ Hg2) as Hmk. pose proof (r_live _ _ _ _ _ _ Hr2) as Hl2.
  apply (stage_field mf m) in Hst2; [|intros x Hx; by rewrite Hmf]. set (a2 := with_field mf m a1) in *.
  apply wp_bind, wp_used; [by apply wrapper_unchecked|repeat constructor; eapply of_kind_alive; [by eapply of_kind_live|by eapply of_kind_live|done]|].
  apply wp_ret, HQ; try done; [by eapply of_kind_live|apply Hg1| | | |].
  - apply eq_None_not_Some. intros [x Hx]. pose proof (gr_new _ _ _ _ _ Hg2) as Hn. by rewrite (lookup_weaken _ _ _ _ Hx Hl1) in Hn.
  - intros f Hf. unfold a2, a1, with_field. rewrite Hf. destruct mf as [f'|]; cbn; [|apply fn_lookup_insert].
    rewrite fn_lookup_insert_ne; [apply fn_lookup_insert|]. intros ->. specialize (Hbf _ Hf). by rewrite Hmf in Hbf.
  - intros f Hf. unfold a2, with_field. rewrite Hf. apply fn_lookup_insert.
  - eapply rest_trans; [eapply rest_weaken; [exact Hr1|set_solver..]|]. eapply rest_trans; [apply (rest_field bf b); intros; subst; set_solver|].
    eapply rest_trans; [eapply rest_weaken; [exact Hr2|set_solver..]|]. apply (rest_field mf m). intros; subst; set_solver.
Qed.

(** *** [copyBuffer] *)
Lemma copyBuffer_wp src dst size fs c a g (Q : () → VkApp → gpu → Prop) :
  stage a g fs c → Device ∈ fs → CommandPool ∈ fs → of_kind g KBuffer src → of_kind g KBuffer dst → fences g = ∅ →
  (∀ g', stage a g' fs c → live g' = live g → fences g' = ∅ → Q () a g') →
  wp d R (copyBuffer d src dst size) Q a g.
Proof.
  intros Hst Hd Hp Hs Ht Hfe HQ. unfold copyBuffer. vload Device Hst. intros dev _ _. vload CommandPool Hst. intros pool Hpool Hpk.
  apply wp_bind, wp_ask. intros t. assert (Hu := wrapper_unchecked d Hdoc).
  apply wp_bind. eapply wp_create_stage; [done|done|exact Hst|repeat constructor; by eapply of_kind_alive|].
  intros cb g1 Hg1 Hst1 Hr1. rewrite (as_unchecked d Hdoc t). cbn [negb Z.eqb VK_SUCCESS].
  pose proof (grown_kind _ _ _ _ _ Hg1) as Hcb. pose proof Hst1 as [_ _ Hp1 _ _]. pose proof (r_live _ _ _ _ _ _ Hr1) as Hl1.
  assert (Hid : ∀ x, idle g1 x) by (intros x; unfold idle; rewrite Hp1; constructor).
  assert (Hal : alive g1 [src; dst]) by (repeat constructor; by eapply of_kind_alive, of_kind_live).
  apply wp_bind, wp_used; [done|repeat constructor; by eapply of_kind_alive|].
  apply wp_bind. eapply wp_call; [done|auto| |].
  { cbn. unfold record, allow. rewrite decide_True; [done|]. split; [done|]. split; [done|]. split; [|done].
    by repeat constructor; eapply of_kind_live. }
  set (g2 := set_recorded _ g1). apply wp_bind. eapply wp_call; [done|auto| |].
  { cbn. unfold submit. cbn. rewrite lookup_insert_eq. unfold allow. rewrite decide_True; [done|]. cbn.
    split; [exact Hcb|]. split; [exact (Hid cb)|]. split; [exact Hal|]. repeat split; constructor. }
  set (g3 := set_pending _ _). apply wp_bind. eapply wp_call; [done|auto|done|]. set (g4 := quiesce g3).
  assert (Hst4 : stage a g4 fs (adds KCommandBuffer 1 c)).
  { destruct Hst1 as [S1 S2 S3 S4 S5]. split; try done. cbn. rewrite S4. set_solver. }
  destruct (stage_destroy a g4 fs _ c KCommandBuffer cb Hst4) as (g5 & Hs5 & Hl5 & Hf5 & Hst5 & _); [done|done| |done|].
  { intros f _ Hf. by destruct f. }
  eapply wp_call; [apply wrapper_emit|auto|exact Hs5|]. apply HQ; [done| |].
  - rewrite Hl5. cbn. rewrite (gr_live _ _ _ _ _ Hg1). apply delete_insert_id, Hg1.
  - rewrite Hf5. cbn. rewrite (r_fences _ _ _ _ _ _ Hr1), Hfe. apply fmap_empty.
Qed.
End buffers.

Section buffers2.
Variable d : driver.
Variable R : Prop.
Hypothesis Hdoc : answers d.
Implicit Types (fs : list field) (c : kind → nat) (a : VkApp) (g : gpu).

Lemma not_held a g fs c f h :
  stage a g fs c → f ∈ fs → live g !! h = None → handles a f ≠ Some h.
Proof.
  intros Hst Hf Hh Heq. destruct (st_fields _ _ _ _ Hst f Hf) as (x & Hx & Hk).
  assert (x = h) as -> by congruence. apply of_kind_alive in Hk as [y Hy]. congruence.
Qed.

(** A buffer and its memory, filled through a staging buffer that is destroyed again. *)
Lemma fill_buffer_wp size usage bf mf fs c a g (Q : () → VkApp → gpu → Prop) :
  stage a g fs c → Device ∈ fs → CommandPool ∈ fs → field_kind bf = KBuffer → field_kind mf = KMemory → fences g = ∅ →
  (∀ a' g', stage a' g' (mf :: bf :: fs) (adds KMemory 1 (adds KBuffer 1 c)) → rest [mf; bf] [] a g a' g' → Q () a' g') →
  wp d R (fill_buffer d size usage bf mf) Q a g.
Proof.
  intros Hst Hd Hp Hbf Hmf Hfe HQ. unfold fill_buffer. apply wp_bind.
  eapply createBuffer_wp; [done|exact Hst|done|right; left|done|done|].
  intros b1 m1 a1 g1 Hb1 Hm1 Hbn1 Hmn1 _ _ Hst1 Hr1. cbn [option_list app] in Hst1, Hr1. assert (Hu := wrapper_unchecked d Hdoc).
  pose proof (r_live _ _ _ _ _ _ Hr1) as Hl1. vload Device Hst1. intros dev _ Hdevk.
  apply wp_bind, wp_ask. intros t. apply wp_bind, wp_used; [done|repeat constructor; by eapply of_kind_alive|].
  rewrite (as_unchecked d Hdoc t). cbn [negb Z.eqb VK_SUCCESS].
  apply wp_bind, wp_used; [auto with vk|repeat constructor; by eapply of_kind_alive|].
  apply wp_bind. eapply createBuffer_wp; [done|exact Hst1|done|left|by intros x [= <-]|by intros x [= <-]|].
  intros b2 m2 a2 g2 Hb2 Hm2 Hbn2 Hmn2 Hbf2 Hmf2 Hst2 Hr2. cbn [option_list app] in Hst2, Hr2. pose proof (r_live _ _ _ _ _ _ Hr2) as Hl2.
  assert (Hf2 : fences g2 = ∅) by (rewrite (r_fences _ _ _ _ _ _ Hr2), (r_fences _ _ _ _ _ _ Hr1); done).
  apply wp_bind. eapply copyBuffer_wp; [done|exact Hst2|set_solver|set_solver|by eapply of_kind_live|done|done|].
  intros g3 Hst3 Hl3 Hf3. cbn [fst snd].
  assert (Hheld : ∀ f x, f ∈ mf :: bf :: fs → live g !! x = None → is_Some (live g1 !! x) → handles a2 f ≠ Some x).
  { intros f x Hf Hx Hx1. apply elem_of_cons in Hf as [->|[->|Hf]%elem_of_cons].
    - rewrite (Hmf2 mf eq_refl). intros [= ->]. destruct Hx1. congruence.
    - rewrite (Hbf2 bf eq_refl). intros [= ->]. destruct Hx1. congruence.
    - destruct (decide (f = mf)) as [->|Hm]; [rewrite (Hmf2 mf eq_refl); intros [= ->]; destruct Hx1; congruence|].
      destruct (decide (f = bf)) as [->|Hb]; [rewrite (Hbf2 bf eq_refl); intros [= ->]; destruct Hx1; congruence|].
      rewrite (r_handles _ _ _ _ _ _ Hr2), (r_handles _ _ _ _ _ _ Hr1) by set_solver. by eapply not_held. }
  destruct (stage_destroy a2 g3 (mf :: bf :: fs) _ (adds KMemory 1 (adds KBuffer 1 (adds KMemory 1 c))) KBuffer b1 Hst3) as (g4 & Hs4 & Hl4 & Hf4 & Hst4 & _).
  { unfold of_kind. rewrite Hl3. eapply of_kind_live; [exact Hl2|done]. } { done. }
  { intros f Hf _. apply Hheld; [done|done|by eapply of_kind_alive]. }
  { intros k. unfold adds. repeat case_decide; lia. }
  apply wp_bind. eapply wp_call; [apply wrapper_emit|auto|exact Hs4|].
  assert (Hb1m1 : b1 ≠ m1) by (intros ->; unfold of_kind in *; congruence).
  destruct (stage_destroy a2 g4 (mf :: bf :: fs) _ (adds KMemory 1 (adds KBuffer 1 c)) KMemory m1 Hst4) as (g5 & Hs5 & Hl5 & Hf5 & Hst5 & _).
  { unfold of_kind. rewrite Hl4, lookup_delete_ne, Hl3 by done. eapply of_kind_live; [exact Hl2|done]. } { done. }
  { intros f Hf _. apply Hheld; [done|done|by eapply of_kind_alive]. }
  { intros k. unfold adds. repeat case_decide; lia. }
  eapply wp_call; [apply wrapper_emit|auto|exact Hs5|]. apply HQ; [done|].
  assert (Hr : rest [mf; bf] [] a g a2 g2) by (eapply rest_trans; [eapply rest_weaken; [exact Hr1|set_solver..]|exact Hr2]).
  destruct Hr as [R1 R2 R3 R4 R5 R6]. split; try done; [|congruence].
  rewrite Hl5, Hl4, Hl3. by do 2 (apply subseteq_delete; [|done]).
Qed.

Lemma create_buffers_wp fs c a g (Q : () → VkApp → gpu → Prop) :
  stage a g fs c → Device ∈ fs → CommandPool ∈ fs → fences g = ∅ →
  (∀ a' g', stage a' g' (IndexBufferMemory :: IndexBuffer :: VertexBufferMemory :: VertexBuffer :: fs)
      (adds KMemory 2 (adds KBuffer 2 c)) →
    rest [IndexBufferMemory; IndexBuffer; VertexBufferMemory; VertexBuffer] [] a g a' g' → Q () a' g') →
  wp d R (create_buffers d) Q a g.
Proof.
  intros Hst Hd Hp Hfe HQ. unfold create_buffers. apply wp_bind.
  eapply fill_buffer_wp; [exact Hst|done..|]. intros a1 g1 Hst1 Hr1.
  eapply fill_buffer_wp; [exact Hst1|set_solver|set_solver|done|done| |].
  { by rewrite (r_fences _ _ _ _ _ _ Hr1). }
  intros a2 g2 Hst2 Hr2. apply HQ.
  - eapply stage_weaken; [exact Hst2|done|]. intros k. unfold adds. repeat case_decide; lia.
  - eapply rest_trans; (eapply rest_weaken; [eassumption|set_solver..]).
Qed.

(** ** Command buffers *)
Record commands a g (fbs cbs : list handle) : Prop := {
  cm_list : vectors a CommandBuffers = Some <$> cbs;
  cm_nodup : NoDup cbs;
  cm_kind : Forall (of_kind g KCommandBuffer) cbs;
  cm_length : length cbs = length fbs;
  cm_recorded : ∀ i cb fb, cbs !! i = Some cb → fbs !! i = Some fb → ∃ us, recorded g !! cb = Some (Some fb, us) ∧
    Forall (λ x, ∃ k, of_kind g k x ∧ k ≠ KSemaphore ∧ k ≠ KCommandBuffer) us }.

Lemma allocate_buffers_wp pool n fs c a g (Q : () → VkApp → gpu → Prop) :
  stage a g fs c → of_kind g KCommandPool pool → length (vectors a CommandBuffers) = n →
  (∀ cbs a' g', length cbs = n → vectors a' CommandBuffers = Some <$> cbs → NoDup cbs → Forall (of_kind g' KCommandBuffer) cbs →
    stage a' g' fs (adds KCommandBuffer n c) → rest [] [CommandBuffers] a g a' g' → Q () a' g') →
  wp d R (allocate_buffers d pool n) Q a g.
Proof.
  intros Hst Hp Hlen HQ. unfold allocate_buffers. apply wp_bind, wp_ask. intros t. case_decide as Hr.
  2: { apply wp_bind, wp_refused. apply wp_throw. intros Hc. by apply Hr, calm_vk. }
  eapply (wp_fill d R CommandBuffers KCommandBuffer n (λ _, [pool])); [exact Hst|done|done| |].
  - intros i a' g' Q' Hi Hst' Hr' Hv' HQ'. apply wp_bind.
    eapply wp_create_stage; [apply wrapper_emit|done|exact Hst'| |].
    + repeat constructor. eapply of_kind_alive, of_kind_live; [apply Hr'|done].
    + intros h g'' Hg _ _. apply wp_set_element; [lia|]. by apply HQ'.
  - intros cbs a' g' Hl Hv Hnd Hof Hst' Hr'. apply (HQ cbs); try done.
    apply Forall_lookup. intros i cb Hcb. unfold of_kind. by rewrite (Hof i cb Hcb).
Qed.

(** The commands that draw into a framebuffer. *)
Lemma record_drawing g cb rp fb p v i area n :
  of_kind g KCommandBuffer cb → pending g = [] → of_kind g KRenderPass rp → of_kind g KFramebuffer fb → of_kind g KPipeline p →
  of_kind g KBuffer v → of_kind g KBuffer i →
  step g (Recorded cb [CmdBeginRenderPass rp fb area; CmdBindPipeline p; CmdBindVertexBuffer v; CmdBindIndexBuffer i;
    CmdDrawIndexed n; CmdEndRenderPass]) = Some (set_recorded (<[cb := (Some fb, [rp; fb; p; v; i])]> (recorded g)) g).
Proof.
  intros Hc Hp H1 H2 H3 H4 H5. cbn. unfold record, allow. rewrite decide_True; [done|]. split; [done|].
  split; [unfold idle; rewrite Hp; constructor|]. by split; [repeat constructor|].
Qed.

Lemma framebuffer_kind a g vws fbs i fb : framebuffers a g vws fbs → fbs !! i = Some fb → of_kind g KFramebuffer fb.
Proof.
  intros Hf Hi. destruct (lookup_lt_is_Some_2 vws i) as [v Hv]; [rewrite <- (fb_length _ _ _ _ Hf); by eapply lookup_lt_Some|].
  destruct (fb_of _ _ _ _ Hf i fb v Hi Hv) as (dv & rp & Hl). unfold of_kind. by rewrite Hl.
Qed.

Lemma create_command_buffers_wp fs c a g imgs vws fbs (Q : () → VkApp → gpu → Prop) :
  stage a g fs c → Forall (λ f, f ∈ fs) [CommandPool; RenderPass; GraphicsPipeline; VertexBuffer; IndexBuffer] →
  views a g imgs vws → framebuffers a g vws fbs →
  (∀ cbs a' g', commands a' g' fbs cbs → views a' g' imgs vws → framebuffers a' g' vws fbs →
    stage a' g' fs (adds KCommandBuffer (length fbs) c) → rest [] [CommandBuffers] a g a' g' → Q () a' g') →
  wp d R (create_command_buffers d) Q a g.
Proof.
  intros Hst Hfs Hvw Hfb HQ. rewrite Forall_forall in Hfs. unfold create_command_buffers. apply wp_bind, wp_elements.
  rewrite (fb_list _ _ _ _ Hfb), length_fmap. apply wp_bind, wp_resize. set (a1 := with_vector _ _ a).
  assert (Hst1 : stage a1 g fs c) by (by apply stage_vector).
  assert (Hr1 : rest [] [CommandBuffers] a g a1 g) by (apply rest_vector; left).
  apply wp_bind. eapply wp_load_good; [apply (st_fields _ _ _ _ Hst1), Hfs; set_solver|]. intros pool _ Hpk. apply wp_bind.
  eapply allocate_buffers_wp; [exact Hst1|exact Hpk| |].
  { unfold a1. cbn. rewrite fn_lookup_insert. apply length_resize. }
  intros cbs a2 g2 Hl2 Hv2 Hnd2 Hk2 Hst2 Hr2.
  assert (Hr : rest [] [CommandBuffers] a g a2 g2) by (eapply rest_trans; [exact Hr1|exact Hr2]).
  pose proof (views_rest _ _ _ _ _ _ _ _ Hvw Hr ltac:(set_solver) ltac:(set_solver) ltac:(set_solver)) as Hvw2.
  pose proof (framebuffers_rest _ _ _ _ _ _ _ _ Hfb Hr ltac:(set_solver)) as Hfb2. clear Hr1 Hr2 Hst1.
  apply (wp_for d R (λ i a' g', a' = a2 ∧ ∃ r, g' = set_recorded r g2 ∧
    ∀ j cb fb, (j < i)%nat → cbs !! j = Some cb → fbs !! j = Some fb → ∃ us, r !! cb = Some (Some fb, us) ∧
      Forall (λ x, ∃ k, of_kind g2 k x ∧ k ≠ KSemaphore ∧ k ≠ KCommandBuffer) us)).
  - split; [done|]. exists (recorded g2). split; [by destruct g2|]. lia.
  - intros i a' g' Hi (-> & r & -> & Hrec). destruct (lookup_lt_is_Some_2 cbs i) as [cb Hcb]; [lia|].
    destruct (lookup_lt_is_Some_2 fbs i) as [fb Hfbi]; [lia|]. set (g' := set_recorded r g2).
    apply wp_bind. eapply wp_load_element; [by rewrite Hv2, list_lookup_fmap, Hcb|].
    assert (Hcbk : of_kind g2 KCommandBuffer cb) by (eapply Forall_lookup_1; done).
    apply wp_bind, wp_used; [auto with vk|repeat constructor; by eapply (of_kind_alive g2)|].
    assert (Hg : ∀ f, f ∈ fs → good a2 g' f) by (intros f Hf; exact (st_fields _ _ _ _ Hst2 f Hf)).
    apply wp_bind. eapply wp_load_good; [apply Hg, Hfs; set_solver|]. intros rp _ Hrp.
    apply wp_bind. eapply wp_load_element; [by rewrite (fb_list _ _ _ _ Hfb2), list_lookup_fmap, Hfbi|].
    apply wp_bind. eapply wp_load_good; [apply Hg, Hfs; set_solver|]. intros pipeline _ Hpl.
    apply wp_bind. eapply wp_load_good; [apply Hg, Hfs; set_solver|]. intros vertices _ Hvb.
    apply wp_bind. eapply wp_load_good; [apply Hg, Hfs; set_solver|]. intros indices _ Hib. apply wp_bind, wp_app.
    assert (Hfk : of_kind g' KFramebuffer fb) by by eapply (framebuffer_kind a2 g2).
    eapply wp_check; [auto|by eapply record_drawing; [exact Hcbk|apply Hst2|..]|].
    split; [done|]. eexists. split; [done|]. intros j cb' fb' Hj Hcb' Hfb'. cbn. destruct (decide (j = i)) as [->|Hji].
    + simplify_eq. eexists. split; [by rewrite lookup_insert_eq|]. repeat (apply Forall_cons; split; [by eexists|]). constructor.
    + destruct (Hrec j cb' fb') as (us & Hus & Hk); [lia|done|done|]. exists us. split; [|done].
      rewrite lookup_insert_ne; [done|]. intros <-. apply Hji. by eapply NoDup_lookup.
  - intros a' g' (-> & r & -> & Hrec). apply (HQ cbs).
    + split; try done. intros i cb fb Hcb Hfbi. destruct (Hrec i cb fb) as (us & Hus & Hk); [|done..|by exists us].
      apply lookup_lt_Some in Hfbi. lia.
    + by destruct Hvw2; split.
    + by destruct Hfb2; split.
    + by destruct Hst2; split.
    + by destruct Hr; split.
Qed.
End buffers2.
