(* ===== verification/VkCleanup.v ===== *)
(** * From the start of the Vulkan program to the first frame, and its end *)

From stdpp Require Import functions.
From S2P Require Import Prelude Vk VkProgram VkLogic VkStages VkObjects.

(** ** Destroying *)

(** What destroying objects of the kinds [ks] leaves. *)
Record kept (ks : list kind) (g g' : gpu) : Prop := {
  kp_live : ∀ h x, x.1 ∉ ks → live g !! h = Some x → live g' !! h = Some x;
  kp_fences : fences g' = fences g }.

Section cleanup.
Variable d : driver.
Variable R : Prop.
Implicit Types (fs : list field) (c : kind → nat) (a : VkApp) (g : gpu) (Q : () → VkApp → gpu → Prop).

Lemma kept_kind ks g g' k h : kept ks g g' → k ∉ ks → of_kind g k h → of_kind g' k h.
Proof.
  intros Hk Hks Hh. apply fmap_Some_1 in Hh as ([k' from] & Hl & ->). unfold of_kind. by rewrite (kp_live _ _ _ Hk h (k', from)).
Qed.

Lemma kept_refl ks g : kept ks g g.
Proof. by split. Qed.

Lemma kept_trans ks g1 g2 g3 : kept ks g1 g2 → kept ks g2 g3 → kept ks g1 g3.
Proof. intros [K1 F1] [K2 F2]. split; [auto|congruence]. Qed.

Lemma kept_weaken ks ks' g g' : kept ks g g' → ks ⊆ ks' → kept ks' g g'.
Proof. intros [K F] Hs. split; [|done]. intros k h Hk. apply K. set_solver. Qed.

Lemma kept_delete k h g g' : of_kind g k h → live g' = delete h (live g) → fences g' = fences g → kept [k] g g'.
Proof.
  intros Hk Hl Hf. split; [|done]. intros h' x Hx Hh'. rewrite Hl, lookup_delete_ne; [done|].
  intros ->. unfold of_kind in Hk. rewrite Hh' in Hk. injection Hk as Hk. apply Hx. rewrite Hk. left.
Qed.

(** A field that is destroyed. *)
Lemma wp_destroy_field f fs c c' a g Q :
  stage a g (f :: fs) c → lone (field_kind f) → (∀ f', f' ∈ fs → field_kind f' ≠ field_kind f) →
  (∀ k, c k = adds (field_kind f) 1 c' k) →
  (∀ g', stage a g' fs c' → kept [field_kind f] g g' → Q () a g') →
  wp d R (h ← load f; vkDestroy (field_kind f) (Some h)) Q a g.
Proof.
  intros Hst Hsc Hfs Hc HQ. apply wp_bind. eapply wp_load_good; [apply (st_fields _ _ _ _ Hst); left|]. intros h Hh Hk.
  destruct (stage_destroy a g fs c c' (field_kind f) h) as (g' & Hs & Hl & Hf & Hst' & _); [|done|done| |done|].
  { eapply stage_weaken; [exact Hst|set_solver|done]. }
  { intros f' Hf' Heq. by destruct (Hfs f' Hf'). }
  eapply wp_call; [apply wrapper_emit|auto|exact Hs|]. apply HQ; [done|]. by eapply kept_delete.
Qed.

(** All objects of a vector. *)
Lemma wp_destroy_all v k hs body fs c a g Q :
  stage a g fs (adds k (length hs) c) → vectors a v = Some <$> hs → NoDup hs → Forall (of_kind g k) hs →
  lone k → (∀ f, f ∈ fs → field_kind f ≠ k) →
  (∀ i h a g Q', vectors a v !! i = Some (Some h) → stage a g fs (adds k (length hs - i) c) → wp d R (vkDestroy k (Some h)) Q' a g → wp d R (body i) Q' a g) →
  (∀ g', stage a g' fs c → kept [k] g g' → Q () a g') →
  wp d R (for_each 0 (length hs) body) Q a g.
Proof.
  intros Hst Hv Hnd Hk Hsc Hfs Hbody HQ.
  apply (wp_for d R (λ i a' g', a' = a ∧ stage a g' fs (adds k (length hs - i) c) ∧ kept [k] g g' ∧ Forall (of_kind g' k) (drop i hs))).
  - split; [done|]. rewrite Nat.sub_0_r. split; [done|]. split; [apply kept_refl|done].
  - intros i a' g' Hi (-> & Hst' & Hkp & Hk'). destruct (lookup_lt_is_Some_2 hs i) as [h Hh]; [lia|].
    apply (Hbody i h); [by rewrite Hv, list_lookup_fmap, Hh|done|]. rewrite (drop_S _ _ _ Hh) in Hk'. apply Forall_cons in Hk' as [Hkh Hk'].
    destruct (stage_destroy a g' fs _ (adds k (length hs - S i) c) k h Hst' Hkh Hsc) as (g2 & Hs & Hl & Hf & Hst2 & _).
    { intros f Hf Heq. by destruct (Hfs f Hf). }
    { intros k'. unfold adds. case_decide; lia. }
    eapply wp_call; [apply wrapper_emit|auto|exact Hs|]. split; [done|]. split; [done|]. split.
    + eapply kept_trans; [exact Hkp|]. by eapply kept_delete.
    + apply Forall_forall. intros x Hx. rewrite Forall_forall in Hk'. unfold of_kind. rewrite Hl, lookup_delete_ne; [by apply Hk'|].
      intros ->. rewrite <- (take_drop_middle hs i x Hh) in Hnd. apply NoDup_app in Hnd as (_ & _ & Hnd).
      by apply NoDup_cons in Hnd as [? _].
  - intros a' g' (-> & Hst' & Hkp & _). cbn in Hst'. rewrite Nat.sub_diag in Hst'. apply HQ; [|done].
    eapply stage_weaken; [exact Hst'|done|]. intros k'. unfold adds. by case_decide.
Qed.

(** The swapchain, with its images. *)
Lemma wp_destroy_swapchain fs c c' a g Q :
  stage a g (SwapChain :: fs) c → SwapChain ∉ fs → (∀ k, c k = adds KSwapchain 1 c' k) →
  (∀ g', stage a g' fs c' → kept [KSwapchain; KImage] g g' → Q () a g') →
  wp d R (h ← load SwapChain; vkDestroy KSwapchain (Some h)) Q a g.
Proof.
  intros [S1 S2 S3 S4 S5] Hfs Hc HQ. destruct (S1 SwapChain) as (h & Hh & Hk); [left|]. cbn in Hk.
  apply wp_bind. eapply wp_load; [done|]. set (g' := set_live (filter (λ x, x.2 ≠ (KImage, [h])) (delete h (live g))) g).
  assert (Hs : destroy KSwapchain h g = Some g').
  { unfold destroy, allow. rewrite decide_True; [done|]. split; [done|]. split; [unfold idle; rewrite S3; constructor|]. split; [done|].
    intros Ho. set_unfold in Ho. by destruct_or! Ho. }
  assert (Hkp : kept [KSwapchain; KImage] g g').
  { split; [|done]. intros h' [k0 from] Hk' Hl. unfold g'. cbn.
    rewrite not_elem_of_cons, not_elem_of_cons in Hk'. destruct Hk' as (Hk1 & Hk2 & _). cbn in *.
    assert (h' ≠ h) by (intros ->; unfold of_kind in Hk; rewrite Hl in Hk; by injection Hk).
    apply map_lookup_filter_Some. rewrite lookup_delete_ne by done. split; [done|]. cbn. congruence. }
  eapply wp_call; [apply wrapper_emit|auto|exact Hs|]. apply HQ; [|done]. split; try done.
  - intros f Hf. destruct (S1 f) as (x & Hx & Hxk); [by right|]. exists x. split; [done|]. apply (kept_kind _ _ _ _ _ Hkp); [|done].
    destruct f; cbn; set_solver.
  - intros k Hki. pose proof (census_delete g (set_live (delete h (live g)) g) KSwapchain h k Hk eq_refl) as Hd.
    rewrite S2, Hc in Hd by done. unfold adds in Hd. assert (He : census g' k = census (set_live (delete h (live g)) g) k); [|rewrite He; symmetry; exact (proj1 (Nat.add_cancel_l _ _ _) Hd)].
    unfold census, g'. cbn. rewrite map_filter_filter. f_equal. apply map_filter_ext. intros i [k0 from] _. cbn. split; [by intros []|].
    intros ->. split; [done|congruence].
Qed.

Definition chain_kinds : list kind :=
  [KSwapchain; KImage; KImageView; KRenderPass; KPipelineLayout; KPipeline; KFramebuffer; KCommandBuffer].
Definition base_fields : list field :=
  [Instance; Device; Surface; CommandPool; VertexBuffer; VertexBufferMemory; IndexBuffer; IndexBufferMemory;
   StoredVertexID; StoredFragmentID].
Definition chain_fields : list field := [GraphicsPipeline; PipelineLayout; RenderPass; SwapChain].

(** What a swapchain of [n] images adds. *)
Definition chain_count (n : nat) (c : kind → nat) : kind → nat :=
  adds KFramebuffer n (adds KCommandBuffer n (adds KPipeline 1 (adds KPipelineLayout 1 (adds KRenderPass 1
    (adds KImageView n (adds KSwapchain 1 c)))))).

Lemma wp_assoc {A B D} (m : V A) (k : A → V B) (l : B → V D) (Q : D → VkApp → gpu → Prop) a g :
  wp d R ((m ≫= k) ≫= l) Q a g → wp d R (m ≫= λ x, k x ≫= l) Q a g.
Proof.
  intros Hw w Hk Ha. destruct (Hw w Hk Ha) as (o & w' & g' & Hr & Hrest). exists o, w', g'. split; [|done]. rewrite <- Hr.
  unfold mbind, V_bind. by destruct (m w) as [[[] ?]|].
Qed.

Lemma of_kinds g k (hs : list handle) (from : nat → list handle → Prop) :
  (∀ i h, hs !! i = Some h → ∃ f, live g !! h = Some (k, f)) → Forall (of_kind g k) hs.
Proof. intros Hh. apply Forall_lookup. intros i h Hi. destruct (Hh i h Hi) as [f Hf]. unfold of_kind. by rewrite Hf. Qed.

Lemma views_kind a g imgs vws : views a g imgs vws → Forall (of_kind g KImageView) vws.
Proof.
  intros Hv. apply (of_kinds _ _ _ (λ _ _, True)). intros i v Hi. destruct (lookup_lt_is_Some_2 imgs i) as [img Himg].
  { rewrite <- (vw_length _ _ _ _ Hv). by eapply lookup_lt_Some. }
  destruct (vw_of _ _ _ _ Hv i v img Hi Himg) as [dv Hd]. by eexists.
Qed.

Lemma framebuffers_kind a g vws fbs : framebuffers a g vws fbs → Forall (of_kind g KFramebuffer) fbs.
Proof. intros Hf. apply Forall_lookup. intros i fb Hi. by eapply framebuffer_kind. Qed.

Lemma cleanup_swap_chain_wp c a g imgs vws fbs cbs Q :
  stage a g (chain_fields ++ base_fields) (chain_count (length imgs) c) →
  views a g imgs vws → framebuffers a g vws fbs → commands a g fbs cbs →
  (∀ g', stage a g' base_fields c → kept chain_kinds g g' → Q () a g') →
  wp d R cleanup_swap_chain Q a g.
Proof.
  intros Hst Hvw Hfb Hcm HQ. unfold cleanup_swap_chain. apply wp_bind, wp_elements.
  assert (Hdev : good a g Device) by (apply (st_fields _ _ _ _ Hst); set_solver).
  assert (Hn1 : length vws = length imgs) by apply Hvw. assert (Hn2 : length fbs = length vws) by apply Hfb.
  assert (Hn3 : length cbs = length fbs) by apply Hcm.
  rewrite (fb_list _ _ _ _ Hfb), length_fmap. apply wp_bind.
  eapply (wp_destroy_all SwapChainFramebuffers KFramebuffer fbs);
    [rewrite Hn2, Hn1; exact Hst|apply Hfb|apply Hfb|by eapply framebuffers_kind|done| | |].
  { intros f Hf. set_unfold in Hf. by destruct_or! Hf; subst. }
  { intros i h a' g' Q' Hv Hst' Hw. apply wp_bind. eapply wp_load_good; [apply (st_fields _ _ _ _ Hst'); set_solver|]. intros _ _ _.
    apply wp_bind. by eapply wp_element. }
  intros g1 Hst1 Hk1. apply wp_bind. eapply wp_load_good; [apply (st_fields _ _ _ _ Hst1); set_solver|]. intros _ _ _.
  apply wp_bind. eapply wp_load_good; [apply (st_fields _ _ _ _ Hst1); set_solver|]. intros _ _ _.
  apply wp_bind, wp_elements. rewrite (cm_list _ _ _ _ Hcm), length_fmap. apply wp_bind.
  eapply (wp_destroy_all CommandBuffers KCommandBuffer cbs);
    [rewrite Hn3, Hn2, Hn1; exact Hst1|apply Hcm|apply Hcm| |done| | |].
  { eapply Forall_impl; [apply (cm_kind _ _ _ _ Hcm)|]. intros x. apply (kept_kind _ _ _ _ _ Hk1). set_solver. }
  { intros f Hf. set_unfold in Hf. by destruct_or! Hf; subst. }
  { intros i h a' g' Q' Hv Hst' Hw. apply wp_bind. by eapply wp_element. }
  intros g2 Hst2 Hk2.
  apply wp_assoc, wp_bind. eapply (wp_destroy_field GraphicsPipeline (PipelineLayout :: RenderPass :: SwapChain :: base_fields));
    [exact Hst2|done|intros f Hf; set_unfold in Hf; by destruct_or! Hf; subst|done|]. intros g3 Hst3 Hk3.
  apply wp_assoc, wp_bind. eapply (wp_destroy_field PipelineLayout (RenderPass :: SwapChain :: base_fields));
    [exact Hst3|done|intros f Hf; set_unfold in Hf; by destruct_or! Hf; subst|done|]. intros g4 Hst4 Hk4.
  apply wp_assoc, wp_bind. eapply (wp_destroy_field RenderPass (SwapChain :: base_fields));
    [exact Hst4|done|intros f Hf; set_unfold in Hf; by destruct_or! Hf; subst|done|]. intros g5 Hst5 Hk5.
  apply wp_bind, wp_elements. rewrite (vw_views _ _ _ _ Hvw), length_fmap. apply wp_bind.
  eapply (wp_destroy_all SwapChainImageViews KImageView vws);
    [rewrite Hn1; exact Hst5|apply Hvw|apply Hvw| |done| | |].
  { eapply Forall_impl; [by eapply views_kind|]. intros x Hx. apply (kept_kind _ _ _ _ _ Hk5); [set_solver|]. apply (kept_kind _ _ _ _ _ Hk4); [set_solver|].
    apply (kept_kind _ _ _ _ _ Hk3); [set_solver|]. apply (kept_kind _ _ _ _ _ Hk2); [set_solver|]. by apply (kept_kind _ _ _ _ _ Hk1); [set_solver|]. }
  { intros f Hf. set_unfold in Hf. by destruct_or! Hf; subst. }
  { intros i h a' g' Q' Hv Hst' Hw. apply wp_bind. by eapply wp_element. }
  intros g6 Hst6 Hk6. eapply wp_destroy_swapchain; [exact Hst6|set_solver|done|]. intros g7 Hst7 Hk7. apply HQ; [done|].
  repeat (eapply kept_trans; [eapply kept_weaken; [eassumption|set_solver]|]). apply kept_refl.
Qed.
End cleanup.
