(* ===== verification/VkFrames.v ===== *)
(** * The frames of the Vulkan program *)

From stdpp Require Import functions.
From S2P Require Import Prelude Vk VkProgram VkLogic VkStages VkObjects VkCleanup.

(** ** Synchronisation objects *)
Definition settled (g : gpu) (f : handle) : Prop := fences g !! f = Some InFlight ∨ fences g !! f = Some Signaled.

Record sync (a : VkApp) (g : gpu) (avail fin fl : list handle) : Prop := {
  sy_avail : vectors a ImageAvailableSemaphores = Some <$> avail;
  sy_fin : vectors a RenderFinishedSemaphores = Some <$> fin;
  sy_fences : vectors a InFlightFences = Some <$> fl;
  sy_lengths : length avail = MAX_FRAMES_IN_FLIGHT ∧ length fin = MAX_FRAMES_IN_FLIGHT ∧ length fl = MAX_FRAMES_IN_FLIGHT;
  sy_nodup : NoDup (avail ++ fin);
  sy_nodup_fences : NoDup fl;
  sy_kinds : Forall (of_kind g KSemaphore) (avail ++ fin);
  sy_fence_kinds : Forall (of_kind g KFence) fl;
  sy_settled : Forall (settled g) fl;
  sy_frame : (CurrentFrame a < MAX_FRAMES_IN_FLIGHT)%nat }.

(** A submission that may be executing is that of a frame [k] and an image [i]: its fence is
    the one the image remembers, and no other frame's semaphore or image's command buffer is
    in use. *)
Definition of_frame (inflight : list (option handle)) (cbs avail fl : list handle) (s : submission) : Prop :=
  ∃ k i f, s_fence s = Some f ∧ fl !! k = Some f ∧ inflight !! i = Some (Some f) ∧
    (∀ j x, cbs !! j = Some x → x ∈ s_uses s → j = i) ∧ (∀ j x, avail !! j = Some x → x ∈ s_uses s → j = k).

(** The objects of the program besides the swapchain's. *)
Definition base_count : kind → nat := λ k,
  match k with
  | KWindow | KInstance | KSurface | KDevice | KCommandPool => 1
  | KShaderModule | KBuffer | KMemory | KFence => 2
  | KSemaphore => 4
  | _ => 0
  end%nat.

(** The program from the first frame on. *)
Record ready (a : VkApp) (g : gpu) (imgs vws fbs cbs avail fin fl : list handle) (inflight : list (option handle)) : Prop := {
  rd_fields : ∀ f, f ∈ chain_fields ++ base_fields → good a g f;
  rd_census : ∀ k, k ≠ KImage → census g k = chain_count (length imgs) base_count k;
  rd_images : (0 < length imgs)%nat;
  rd_views : views a g imgs vws;
  rd_framebuffers : framebuffers a g vws fbs;
  rd_commands : commands a g fbs cbs;
  rd_sync : sync a g avail fin fl;
  rd_inflight : vectors a ImagesInFlight = inflight;
  rd_inflight_length : length inflight = length imgs;
  rd_inflight_fences : ∀ f, Some f ∈ inflight → f ∈ fl;
  rd_pending : Forall (of_frame inflight cbs avail fl) (pending g);
  rd_pooled : pooled a g;
  rd_window : ∃ w, Wnd a = Some w ∧ of_kind g KWindow w }.

(** Between two frames: nothing is acquired and no signal is left. *)
Definition frame_state (a : VkApp) (g : gpu) : Prop :=
  signals g = ∅ ∧ acquired g = ∅ ∧
  ∃ imgs vws fbs cbs avail fin fl inflight, ready a g imgs vws fbs cbs avail fin fl inflight.

Section frames.
Variable d : driver.
Variable R : Prop.
Hypothesis Hdoc : answers d.
Implicit Types (a : VkApp) (g : gpu).

Lemma sync_kept a g a' g' avail fin fl :
  sync a g avail fin fl → kept chain_kinds g g' →
  (∀ v, v ∈ [ImageAvailableSemaphores; RenderFinishedSemaphores; InFlightFences] → vectors a' v = vectors a v) →
  CurrentFrame a' = CurrentFrame a → sync a' g' avail fin fl.
Proof.
  intros [Y1 Y2 Y3 Y4 Y5 Y6 Y7 Yf Y8 Y9] Hk Hv Hc. pose proof (kp_fences _ _ _ Hk) as F. split; rewrite ?Hc, ?Hv by set_solver; try done.
  - eapply Forall_impl; [exact Y7|]. intros x. apply (kept_kind _ _ _ _ _ Hk). set_solver.
  - eapply Forall_impl; [exact Yf|]. intros x. apply (kept_kind _ _ _ _ _ Hk). set_solver.
  - eapply Forall_impl; [exact Y8|]. intros x. unfold settled. by rewrite F.
Qed.

Lemma rest_kept fs vs a g a' g' ks : rest fs vs a g a' g' → kept ks g g'.
Proof. intros [R1 R2 _ _ _ _]. split; [|done]. intros h x _ Hx. by eapply lookup_weaken. Qed.

Lemma settled_quiesce g f : settled g f → settled (quiesce g) f.
Proof. unfold settled. cbn. rewrite lookup_fmap. by intros [->| ->]; cbn; right. Qed.

(** ** Recreating the swapchain *)
Lemma handle_events_wp (Q : () → VkApp → gpu → Prop) a g :
  (∀ b, Q () (set_FramebufferResized b a) g) → wp d R (handle_events d) Q a g.
Proof.
  intros HQ. unfold handle_events. apply wp_bind, wp_ask. intros t. apply wp_bind, wp_noticed; [auto with vk|].
  destruct (resized d t); [apply wp_change, HQ|]. apply wp_ret. specialize (HQ (FramebufferResized a)). by destruct a.
Qed.

Lemma wait_for_size_wp fuel size (Q : () → VkApp → gpu → Prop) a g :
  (visible d → size.1 ≠ 0 ∧ size.2 ≠ 0) → (∀ b, Q () (set_FramebufferResized b a) g) → wp d R (wait_for_size d fuel size) Q a g.
Proof.
  revert size a. induction fuel as [|fuel IH]; intros size a Hsize HQ; cbn [wait_for_size]; destruct (_ || _) eqn:Hz.
  1: apply wp_pause; intros (_ & Hc & _); destruct (Hsize Hc); apply orb_true_iff in Hz as [Hz|Hz]; apply Z.eqb_eq in Hz; done.
  2: { apply wp_bind, wp_ask. intros t. apply wp_bind, wp_noticed; [auto with vk|]. apply wp_bind, handle_events_wp. intros b.
    apply IH; [intros Hc; by apply Hc|]. intros b'. exact (HQ b'). }
  all: apply wp_ret; specialize (HQ (FramebufferResized a)); by destruct a.
Qed.

Lemma ready_resized b a g imgs vws fbs cbs avail fin fl inflight :
  ready a g imgs vws fbs cbs avail fin fl inflight → ready (set_FramebufferResized b a) g imgs vws fbs cbs avail fin fl inflight.
Proof. intros [F1 F2 F5 [] [] [] [] F10 F11 F12 F13 Fp F14]. split; try done; by split. Qed.

(** [create_swap_chain] to [create_render_pass], and then to [create_frame_buffer]. *)
Lemma surface_wp fs c a g K (Q : () → VkApp → gpu → Prop) :
  stage a g fs c → Surface ∈ fs → Device ∈ fs →
  (∀ imgs vws a' g', (0 < length imgs)%nat → views a' g' imgs vws →
    stage a' g' (RenderPass :: SwapChain :: fs) (adds KRenderPass 1 (adds KImageView (length imgs) (adds KSwapchain 1 c))) →
    rest [RenderPass; SwapChain] [SwapChainImages; SwapChainImageViews] a g a' g' → wp d R K Q a' g') →
  wp d R (create_swap_chain d;; create_image_views d;; create_render_pass d;; K) Q a g.
Proof.
  intros Hst Hs Hd HK. apply wp_bind. eapply create_swap_chain_wp; [done|exact Hst|done|done|]. intros a1 g1 Hst1 Hr1.
  apply wp_bind. eapply create_image_views_wp; [done|exact Hst1|set_solver|set_solver|]. intros imgs vws a2 g2 Hn Hvw Hst2 Hr2.
  apply wp_bind. eapply create_render_pass_wp; [done|exact Hst2|set_solver|]. intros a3 g3 Hst3 Hr3. apply (HK imgs vws); [done| |done|].
  - eapply views_rest; [exact Hvw|exact Hr3|set_solver..].
  - eapply rest_trans; [eapply rest_weaken; [exact Hr1|set_solver..]|].
    eapply rest_trans; (eapply rest_weaken; [eassumption|set_solver..]).
Qed.

Lemma drawing_wp VertexID FragmentID fs c a g imgs vws K (Q : () → VkApp → gpu → Prop) :
  stage a g fs c → Device ∈ fs → RenderPass ∈ fs → SwapChain ∈ fs → views a g imgs vws →
  of_kind g KShaderModule VertexID → of_kind g KShaderModule FragmentID →
  (∀ fbs a' g', views a' g' imgs vws → framebuffers a' g' vws fbs →
    stage a' g' (GraphicsPipeline :: PipelineLayout :: StoredFragmentID :: StoredVertexID :: fs)
      (adds KFramebuffer (length imgs) (adds KPipeline 1 (adds KPipelineLayout 1 c))) →
    rest [StoredVertexID; StoredFragmentID; PipelineLayout; GraphicsPipeline] [SwapChainFramebuffers] a g a' g' →
    wp d R K Q a' g') →
  wp d R (create_pipeline d VertexID FragmentID;; create_frame_buffer d;; K) Q a g.
Proof.
  intros Hst Hd Hrp Hsc Hvw Hv Hf HK. apply wp_bind. eapply create_pipeline_wp; [done|exact Hst|done..|]. intros a1 g1 Hst1 Hr1.
  pose proof (views_rest _ _ _ _ _ _ _ _ Hvw Hr1 ltac:(set_solver) ltac:(set_solver) ltac:(set_solver)) as Hvw1.
  apply wp_bind. eapply create_frame_buffer_wp; [done|exact Hst1|set_solver|set_solver|exact Hvw1|]. intros fbs a2 g2 Hfb2 Hst2 Hr2.
  rewrite (vw_length _ _ _ _ Hvw) in Hst2. apply (HK fbs); [|done|done|].
  - eapply views_rest; [exact Hvw1|exact Hr2|set_solver..].
  - eapply rest_trans; (eapply rest_weaken; [eassumption|set_solver..]).
Qed.

Lemma resize_fences n (inflight : list (option handle)) (fl : list handle) :
  (∀ f, Some f ∈ inflight → f ∈ fl) → ∀ f, Some f ∈ resize n None inflight → f ∈ fl.
Proof.
  intros Hf f [i Hi]%list_elem_of_lookup. apply Hf. destruct (decide (i < n)%nat) as [Hin|Hin].
  2: { rewrite lookup_ge_None_2 in Hi; [done|]. rewrite length_resize. lia. }
  destruct (decide (i < length inflight)%nat) as [Hl|Hl].
  - rewrite lookup_resize in Hi by done. by eapply list_elem_of_lookup_2.
  - rewrite lookup_resize_new in Hi by lia. done.
Qed.

(** A new swapchain, with the synchronisation objects of before. *)
Lemma renewed a0 g1 g2 a g imgs vws fbs cbs avail fin fl inflight :
  stage a g (chain_fields ++ base_fields) (chain_count (length imgs) base_count) → (0 < length imgs)%nat →
  views a g imgs vws → framebuffers a g vws fbs → commands a g fbs cbs →
  sync a0 g1 avail fin fl → kept chain_kinds g1 g2 →
  rest (StoredVertexID :: StoredFragmentID :: chain_fields) [SwapChainImages; SwapChainImageViews; SwapChainFramebuffers; CommandBuffers] a0 g2 a g →
  vectors a0 ImagesInFlight = inflight → (∀ f, Some f ∈ inflight → f ∈ fl) → pooled a0 g2 → (∃ w, Wnd a0 = Some w ∧ of_kind g2 KWindow w) →
  frame_state (with_vector ImagesInFlight (resize (length imgs) None (vectors a ImagesInFlight)) a) g.
Proof.
  intros [S1 S2 S3 S4 S5] Hn Hvw Hfb Hcm Hsy Hk Hr Hin Hfl Hpl (w & Hw & Hwk). set (a' := with_vector _ _ a).
  assert (Hr' : rest [] [ImagesInFlight] a g a' g) by (apply rest_vector; left).
  split; [done|]. split; [done|]. exists imgs, vws, fbs, cbs, avail, fin, fl, (resize (length imgs) None (vectors a ImagesInFlight)).
  split; try done.
  - eapply views_rest; [exact Hvw|exact Hr'|set_solver..].
  - eapply framebuffers_rest; [exact Hfb|exact Hr'|set_solver].
  - by destruct Hcm; split.
  - eapply (sync_kept a0 g1); [done| | |].
    + eapply kept_trans; [exact Hk|]. eapply rest_kept. exact Hr.
    + intros v Hv. rewrite (r_vectors _ _ _ _ _ _ Hr') by set_solver. apply Hr. set_solver.
    + apply Hr.
  - apply length_resize.
  - apply resize_fences. intros f Hf. apply Hfl. rewrite (r_vectors _ _ _ _ _ _ Hr) in Hf by set_solver. by rewrite Hin in Hf.
  - rewrite S3. constructor.
  - eapply pooled_rest; [|exact Hr'|set_solver..]. eapply pooled_rest; [exact Hpl|exact Hr|set_solver..].
  - exists w. split; [by rewrite <- Hw; apply Hr|]. by apply (kept_kind _ _ _ _ _ (rest_kept _ _ _ _ _ _ chain_kinds Hr)); [set_solver|].
Qed.

Lemma update_swap_chain_wp fuel (Q : () → VkApp → gpu → Prop) a g imgs vws fbs cbs avail fin fl inflight :
  signals g = ∅ → acquired g = ∅ → ready a g imgs vws fbs cbs avail fin fl inflight →
  (∀ a' g', frame_state a' g' → CurrentFrame a' = CurrentFrame a → Q () a' g') →
  wp d R (update_swap_chain d fuel) Q a g.
Proof.
  intros F3 F4 Hrd HQ. unfold update_swap_chain. apply wp_bind, wp_ask. intros t. apply wp_bind, wp_noticed; [auto with vk|].
  apply wp_bind, wait_for_size_wp; [intros Hc; by apply Hc|]. intros b. apply (ready_resized b) in Hrd.
  set (a0 := set_FramebufferResized b a) in *. assert (Hc0 : CurrentFrame a0 = CurrentFrame a) by done. clearbody a0.
  destruct Hrd as [F1 F2 F5 F6 F7 F8 F9 F10 F11 F12 F13 Fp (wnd & Hw & Hwk)].
  apply wp_bind. eapply wp_load_good; [apply F1; set_solver|]. intros _ _ _.
  apply wp_bind. eapply wp_call; [by apply wrapper_unchecked|auto|done|].
  set (g1 := quiesce g). assert (Hst1 : stage a0 g1 (chain_fields ++ base_fields) (chain_count (length imgs) base_count)) by (by split).
  assert (Hsy1 : sync a0 g1 avail fin fl).
  { destruct F9 as [Y1 Y2 Y3 Y4 Y5 Y6 Y7 Yf Y8 Y9]. split; try done. eapply Forall_impl; [exact Y8|]. apply settled_quiesce. }
  apply wp_bind. eapply (cleanup_swap_chain_wp d R base_count a0 g1 imgs vws fbs cbs); [done|by destruct F6|by destruct F7|by destruct F8|].
  intros g2 Hst2 Hk2. apply surface_wp with base_fields base_count; [done|set_solver|set_solver|].
  intros imgs' vws' a3 g3 Hn3 Hvw3 Hst3 Hr3.
  apply wp_bind. eapply wp_load_good; [apply (st_fields _ _ _ _ Hst3); set_solver|]. intros vs _ Hvs.
  apply wp_bind. eapply wp_load_good; [apply (st_fields _ _ _ _ Hst3); set_solver|]. intros fs _ Hfs.
  eapply drawing_wp; [exact Hst3|set_solver|set_solver|set_solver|exact Hvw3|done|done|]. intros fbs' a4 g4 Hvw4 Hfb4 Hst4 Hr4.
  apply wp_bind. eapply create_command_buffers_wp; [done|exact Hst4|repeat constructor; set_solver|exact Hvw4|exact Hfb4|].
  intros cbs' a5 g5 Hcm5 Hvw5 Hfb5 Hst5 Hr5. apply wp_bind, wp_elements. rewrite (vw_images _ _ _ _ Hvw5), length_fmap.
  apply wp_resize.
  assert (Hr : rest (StoredVertexID :: StoredFragmentID :: chain_fields) [SwapChainImages; SwapChainImageViews; SwapChainFramebuffers; CommandBuffers]
    a0 g2 a5 g5).
  { eapply rest_trans; [eapply rest_weaken; [exact Hr3|set_solver..]|].
    eapply rest_trans; (eapply rest_weaken; [eassumption|set_solver..]). }
  assert (Hst6 : stage a5 g5 (chain_fields ++ base_fields) (chain_count (length imgs') base_count)).
  { eapply stage_weaken; [exact Hst5|by apply (bool_decide_unpack _)|]. intros k.
    rewrite (fb_length _ _ _ _ Hfb5), (vw_length _ _ _ _ Hvw5). unfold chain_count, adds. repeat case_decide; lia. }
  apply HQ; [|rewrite <- Hc0; apply Hr]. eapply renewed; [exact Hst6|exact Hn3|exact Hvw5|exact Hfb5|exact Hcm5|exact Hsy1|exact Hk2|exact Hr|exact F10|exact F12| |].
  { destruct Fp as (dev & pool & ? & ? & Hpool). exists dev, pool. split; [done|]. split; [done|]. by apply Hk2; [set_solver|]. }
  exists wnd. split; [done|]. by apply (kept_kind _ _ _ _ _ Hk2); [set_solver|].
Qed.

(** ** One frame *)
Lemma ready_same a g g' imgs vws fbs cbs avail fin fl inflight :
  ready a g imgs vws fbs cbs avail fin fl inflight →
  live g' = live g → recorded g' = recorded g → Forall (settled g') fl → Forall (of_frame inflight cbs avail fl) (pending g') →
  ready a g' imgs vws fbs cbs avail fin fl inflight.
Proof.
  intros [F1 F2 F5 [V1 V2 V3 V4 V5 V6 V7] [B1 B2 B3 B4] [C1 C2 C3 C4 C5] [Y1 Y2 Y3 Y4 Y5 Y6 Y7 Yf Y8 Y9] F10 F11 F12 F13 Fp F14]
    Hl Hr Hf Hp.
  assert (Hk : ∀ k h, of_kind g k h → of_kind g' k h) by (intros k h; unfold of_kind; by rewrite Hl).
  split; try done.
  - intros f Hin. destruct (F1 f Hin) as (h & Hh & Hhk). exists h. auto.
  - intros k Hki. unfold census. rewrite Hl. by apply F2.
  - split; try done; by rewrite Hl.
  - split; try done; by rewrite Hl.
  - split; try done; [by eapply Forall_impl; [exact C3|]; auto|]. intros i cb fb Hcb Hfb.
    destruct (C5 i cb fb Hcb Hfb) as (us & Hus & Hu). exists us. rewrite Hr. split; [done|]. eapply Forall_impl; [exact Hu|].
    intros x (k & Hx & ?). exists k. auto.
  - split; try done; [eapply Forall_impl; [exact Y7|]; auto|eapply Forall_impl; [exact Yf|]; auto].
  - destruct Fp as (dev & pool & ? & ? & Hpool). exists dev, pool. by rewrite Hl.
  - destruct F14 as (w & Hw & Hwk). exists w. auto.
Qed.

(** Waiting for a fence: no submission with it is left. *)
Lemma ready_waited a g imgs vws fbs cbs avail fin fl inflight f :
  ready a g imgs vws fbs cbs avail fin fl inflight → f ∈ fl →
  ∃ g', wait_fence f g = Some g' ∧ ready a g' imgs vws fbs cbs avail fin fl inflight ∧
    Forall (λ s, s_fence s ≠ Some f) (pending g') ∧ fences g' !! f = Some Signaled ∧
    (∀ x, fences g !! x = Some Signaled → fences g' !! x = Some Signaled) ∧
    (∀ s, s ∈ pending g' → s ∈ pending g) ∧ signals g' = signals g ∧ acquired g' = acquired g.
Proof.
  intros Hrd Hf. pose proof (sy_settled _ _ _ _ _ (rd_sync _ _ _ _ _ _ _ _ _ _ Hrd)) as Hs. rewrite Forall_forall in Hs.
  unfold wait_fence, allow. rewrite decide_True by (by apply Hs). eexists. split; [done|].
  assert (Hx : ∀ x, fences g !! x = Some Signaled → <[f := Signaled]> (fences g) !! x = Some Signaled).
  { intros x Hx. destruct (decide (x = f)) as [->|Hne]; [by rewrite lookup_insert_eq|by rewrite lookup_insert_ne]. }
  split.
  - eapply ready_same; [exact Hrd|done|done| |].
    + apply Forall_forall. intros x Hin. unfold settled. cbn. destruct (decide (x = f)) as [->|Hne];
        [rewrite lookup_insert_eq; by right|rewrite lookup_insert_ne by done; by apply Hs].
    + cbn. apply Forall_forall. intros s [_ Hin]%list_elem_of_filter. pose proof (rd_pending _ _ _ _ _ _ _ _ _ _ Hrd) as Hp.
      rewrite Forall_forall in Hp. by apply Hp.
  - cbn. split; [apply Forall_forall; by intros s [? _]%list_elem_of_filter|]. split; [apply lookup_insert_eq|].
    split; [done|]. split; [|done]. by intros s [_ ?]%list_elem_of_filter.
Qed.
End frames.
