(* ===== verification/VkFrame.v ===== *)
(** * One frame of the Vulkan program *)

From stdpp Require Import functions.
From S2P Require Import Prelude Vk VkProgram VkLogic VkStages VkObjects VkCleanup VkFrames.
Section frames.
Variable d : driver.
Variable R : Prop.
Hypothesis Hdoc : answers d.
Implicit Types (a : VkApp) (g : gpu).

Lemma image_of_frame a g imgs vws fbs i fb img :
  views a g imgs vws → framebuffers a g vws fbs → fbs !! i = Some fb → imgs !! i = Some img → image_of g fb = Some img.
Proof.
  intros Hv Hf Hfb Himg. destruct (lookup_lt_is_Some_2 vws i) as [v Hvi].
  { rewrite <- (fb_length _ _ _ _ Hf). by eapply lookup_lt_Some. }
  destruct (fb_of _ _ _ _ Hf i fb v Hfb Hvi) as (dv & rp & Hl), (vw_of _ _ _ _ Hv i v img Hvi Himg) as (dv' & Hl').
  unfold image_of. by rewrite Hl, Hl'.
Qed.

(** What the submission of the frame [k] for the image [i] uses does not mix with others'. *)
Lemma submission_of_frame a g imgs vws fbs cbs avail fin fl inflight i k cb fb us av fi f :
  ready a g imgs vws fbs cbs avail fin fl inflight →
  cbs !! i = Some cb → fbs !! i = Some fb →
  Forall (λ x, ∃ k, of_kind g k x ∧ k ≠ KSemaphore ∧ k ≠ KCommandBuffer) us →
  avail !! k = Some av → fin !! k = Some fi → fl !! k = Some f → (i < length inflight)%nat →
  of_frame (<[i := Some f]> inflight) cbs avail fl
    (Submission cb (Some f) (cb :: [fb] ++ us ++ [av] ++ [fi] ++ [f])).
Proof.
  intros Hrd Hcb Hfb Hus Hav Hfi Hf Hi. pose proof (rd_sync _ _ _ _ _ _ _ _ _ _ Hrd) as [_ _ _ _ Y5 Y6 Y7 Yf _ _].
  pose proof (rd_commands _ _ _ _ _ _ _ _ _ _ Hrd) as [_ C2 C3 _ _].
  apply Forall_app in Y7 as [Ya Yb]. apply NoDup_app in Y5 as (Na & Nd & _).
  assert (Hfbk : of_kind g KFramebuffer fb).
  { eapply Forall_lookup_1; [by eapply framebuffers_kind, rd_framebuffers|done]. }
  assert (Hkinds : ∀ x k' , of_kind g k' x → (k' = KCommandBuffer ∨ k' = KSemaphore) → x ∉ us ∧ x ≠ fb ∧ x ≠ f).
  { intros x k' Hx Hk'. split; [|split].
    - intros Hin. rewrite Forall_forall in Hus. destruct (Hus x Hin) as (k0 & Hk0 & ?). unfold of_kind in *.
      rewrite Hk0 in Hx. injection Hx as ->. naive_solver.
    - intros ->. unfold of_kind in *. rewrite Hfbk in Hx. injection Hx as <-. naive_solver.
    - intros ->. pose proof (Forall_lookup_1 _ _ _ _ Yf Hf) as Hff. cbn in Hff. unfold of_kind in *.
      rewrite Hff in Hx. injection Hx as <-. naive_solver. }
  exists k, i, f. split; [done|]. split; [done|]. split; [by apply list_lookup_insert_eq|]. split.
  - intros j x Hx Hin. cbn in Hin. assert (Hxk : of_kind g KCommandBuffer x) by exact (Forall_lookup_1 _ _ _ _ C3 Hx).
    destruct (Hkinds x _ Hxk ltac:(by left)) as (K1 & K2 & K3).
    assert (K4 : x ≠ av ∧ x ≠ fi).
    { split; intros ->; [pose proof (Forall_lookup_1 _ _ _ _ Ya Hav)|pose proof (Forall_lookup_1 _ _ _ _ Yb Hfi)]; unfold of_kind in *; congruence. }
    assert (x = cb) as ->; [|exact (NoDup_lookup _ _ _ _ C2 Hx Hcb)]. rewrite !elem_of_cons, elem_of_app, !elem_of_cons, elem_of_nil in Hin. naive_solver.
  - intros j x Hx Hin. cbn in Hin. assert (Hxk : of_kind g KSemaphore x) by exact (Forall_lookup_1 _ _ _ _ Ya Hx).
    destruct (Hkinds x _ Hxk ltac:(by right)) as (K1 & K2 & K3).
    assert (K4 : x ≠ cb).
    { intros ->. pose proof (Forall_lookup_1 _ _ _ _ C3 Hcb). unfold of_kind in *. congruence. }
    assert (K5 : x ≠ fi).
    { intros ->. apply (Nd fi); by eapply list_elem_of_lookup_2. }
    assert (x = av) as ->; [|exact (NoDup_lookup _ _ _ _ Na Hx Hav)]. rewrite !elem_of_cons, elem_of_app, !elem_of_cons, elem_of_nil in Hin. naive_solver.
Qed.

(** A submission of another frame than [k], for another image than [i]. *)
Lemma of_frame_other inflight cbs avail fl s i k f (x : option handle) :
  of_frame inflight cbs avail fl s → fl !! k = Some f → s_fence s ≠ Some f → inflight !! i = Some x → s_fence s ≠ x ∨ x = None →
  (∀ cb, cbs !! i = Some cb → cb ∉ s_uses s) ∧ (∀ av, avail !! k = Some av → av ∉ s_uses s) ∧
  ∀ y, of_frame (<[i := y]> inflight) cbs avail fl s.
Proof.
  intros (k' & i' & f' & H1 & H2 & H3 & H4 & H5) Hf Hne Hx Hxs.
  assert (Hi : i' ≠ i) by (intros ->; destruct Hxs; congruence). assert (Hk : k' ≠ k) by (intros ->; congruence). split; [|split].
  - intros cb Hcb Hin. apply Hi. symmetry. by eapply H4.
  - intros av Hav Hin. apply Hk. symmetry. by eapply H5.
  - intros y. exists k', i', f'. by rewrite list_lookup_insert_ne.
Qed.

(** Waiting for the frame that the image [i] was given to last. *)
Lemma wait_image_wp a g imgs vws fbs cbs avail fin fl inflight i x k f (Q : () → VkApp → gpu → Prop) :
  ready a g imgs vws fbs cbs avail fin fl inflight → inflight !! i = Some x → fl !! k = Some f →
  Forall (λ s, s_fence s ≠ Some f) (pending g) → fences g !! f = Some Signaled →
  (∀ g', ready a g' imgs vws fbs cbs avail fin fl inflight → fences g' !! f = Some Signaled →
    signals g' = signals g → acquired g' = acquired g →
    Forall (λ s, (∀ cb, cbs !! i = Some cb → cb ∉ s_uses s) ∧ ∀ y, of_frame (<[i := y]> inflight) cbs avail fl s) (pending g') →
    Q () a g') →
  wp d R (match x with Some f0 => unchecked d (Waited f0) | None => mret () end) Q a g.
Proof.
  intros Hrd Hx Hf Hp Hsig HQ.
  assert (Hother : ∀ g', ready a g' imgs vws fbs cbs avail fin fl inflight → Forall (λ s, s_fence s ≠ Some f) (pending g') →
    Forall (λ s, s_fence s ≠ x ∨ x = None) (pending g') →
    Forall (λ s, (∀ cb, cbs !! i = Some cb → cb ∉ s_uses s) ∧ ∀ y, of_frame (<[i := y]> inflight) cbs avail fl s) (pending g')).
  { intros g' Hrd' Hp' Hpx. pose proof (rd_pending _ _ _ _ _ _ _ _ _ _ Hrd') as Hpd. rewrite Forall_forall in *. intros s Hs.
    destruct (of_frame_other inflight cbs avail fl s i k f x (Hpd s Hs) Hf (Hp' s Hs) Hx (Hpx s Hs)) as (H1 & _ & H3). done. }
  destruct x as [f0|].
  - destruct (ready_waited _ _ _ _ _ _ _ _ _ _ f0 Hrd) as (g1 & Hw & Hrd1 & Hp1 & _ & Hk1 & Hin1 & Hs1 & Ha1).
    { apply (rd_inflight_fences _ _ _ _ _ _ _ _ _ _ Hrd). by eapply list_elem_of_lookup_2. }
    eapply wp_call; [by apply wrapper_unchecked|auto|exact Hw|]. apply HQ; auto. apply Hother; [done| |].
    + rewrite Forall_forall in Hp |- *. auto.
    + eapply Forall_impl; [exact Hp1|]. by left.
  - apply wp_ret, HQ; try done. apply Hother; [done..|]. apply Forall_forall. by right.
Qed.

(** The submission of the frame [k] for the image [i] keeps the rules. *)
Lemma submit_allowed a g imgs vws fbs cbs avail fin fl inflight i k img cb fb us av fi f :
  ready a g imgs vws fbs cbs avail fin fl inflight → imgs !! i = Some img → cbs !! i = Some cb → fbs !! i = Some fb →
  recorded g !! cb = Some (Some fb, us) →
  Forall (λ x, ∃ k, of_kind g k x ∧ k ≠ KSemaphore ∧ k ≠ KCommandBuffer) us →
  avail !! k = Some av → fin !! k = Some fi → idle g cb → signals g = {[av]} → acquired g = {[img]} →
  let g' := set_fences (<[f := Unsignaled]> (fences g)) g in
  submit cb (Some av) (Some fi) (Some f) g' = Some
    (set_fences (<[f := InFlight]> (fences g')) (set_pending (Submission cb (Some f) (cb :: [fb] ++ us ++ [av] ++ [fi] ++ [f]) :: pending g)
      (set_signals ({[fi]} ∪ ∅ ∪ (signals g ∖ ({[av]} ∪ ∅))) g'))).
Proof.
  intros Hrd Himg Hcb Hfb Hrec Hus Hav Hfi Hid Hsg Hac g'. pose proof (rd_sync _ _ _ _ _ _ _ _ _ _ Hrd) as Hsy.
  pose proof (sy_kinds _ _ _ _ _ Hsy) as Hsk. apply Forall_app in Hsk as [_ Hfk].
  assert (Hfik : of_kind g KSemaphore fi) by exact (Forall_lookup_1 _ _ _ _ Hfk Hfi).
  assert (Hfiav : fi ≠ av).
  { intros ->. pose proof (sy_nodup _ _ _ _ _ Hsy) as Hnd. apply NoDup_app in Hnd as (_ & Hnd & _).
    apply (Hnd av); by eapply list_elem_of_lookup_2. }
  assert (Hio : image_of g' fb = Some img) by (eapply (image_of_frame a g); [apply Hrd|apply Hrd|done|done]).
  unfold submit. change (recorded g') with (recorded g). rewrite Hrec. unfold allow. rewrite decide_True; [done|].
  cbn [option_list]. split; [|split; [exact Hid|split]].
  - pose proof (cm_kind _ _ _ _ (rd_commands _ _ _ _ _ _ _ _ _ _ Hrd)) as Hk. exact (Forall_lookup_1 _ _ _ _ Hk Hcb).
  - eapply Forall_impl; [exact Hus|]. intros y (ky & Hy & _). exact (of_kind_alive g ky y Hy).
  - change (signals g') with (signals g). change (acquired g') with (acquired g). rewrite Hsg, Hac.
    split; [apply Forall_cons; rewrite Hio; repeat constructor; set_solver|]. split; [repeat constructor; set_solver|].
    split; [repeat constructor; [exact Hfik|set_solver]|]. repeat constructor. apply lookup_insert_eq.
Qed.

Lemma submit_frame_wp a g imgs vws fbs cbs avail fin fl inflight i k img av fi f (Q : () → VkApp → gpu → Prop) :
  ready a g imgs vws fbs cbs avail fin fl inflight → imgs !! i = Some img →
  avail !! k = Some av → fin !! k = Some fi → fl !! k = Some f →
  Forall (λ s, s_fence s ≠ Some f) (pending g) → fences g !! f = Some Signaled → signals g = {[av]} → acquired g = {[img]} →
  (∀ a' g' inflight', ready a' g' imgs vws fbs cbs avail fin fl inflight' → signals g' = {[fi]} → acquired g' = {[img]} →
    CurrentFrame a' = CurrentFrame a → Q () a' g') →
  wp d R (submit_frame d i f av fi) Q a g.
Proof.
  intros Hrd Himg Hav Hfi Hf Hp Hsig Hsg Hac HQ. unfold submit_frame.
  assert (Hi : (i < length imgs)%nat) by (by eapply lookup_lt_Some).
  assert (Hi2 : (i < length inflight)%nat) by (by rewrite (rd_inflight_length _ _ _ _ _ _ _ _ _ _ Hrd)).
  destruct (lookup_lt_is_Some_2 inflight i Hi2) as [x Hx].
  apply wp_bind. eapply wp_element; [by rewrite (rd_inflight _ _ _ _ _ _ _ _ _ _ Hrd)|].
  apply wp_bind. eapply wait_image_wp; [exact Hrd|exact Hx|exact Hf|done|done|]. intros g1 Hrd1 Hsig1 Hs1 Ha1 Hother.
  apply wp_bind, wp_set_element; [by rewrite (rd_inflight _ _ _ _ _ _ _ _ _ _ Hrd1)|].
  rewrite (rd_inflight _ _ _ _ _ _ _ _ _ _ Hrd1). set (a1 := with_vector _ _ a).
  pose proof Hrd1 as [F1 F2 F5 F6 F7 F8 F9 F10 F11 F12 F13 Fp F14]. rewrite <- (vw_length _ _ _ _ F6), <- (fb_length _ _ _ _ F7) in Hi.
  destruct (lookup_lt_is_Some_2 fbs i Hi) as [fb Hfb]. rewrite <- (cm_length _ _ _ _ F8) in Hi.
  destruct (lookup_lt_is_Some_2 cbs i Hi) as [cb Hcb]. destruct (cm_recorded _ _ _ _ F8 i cb fb Hcb Hfb) as (us & Hrec & Hus).
  apply wp_bind. eapply wp_load_element.
  { change (vectors a1 CommandBuffers) with (vectors a CommandBuffers). by rewrite (cm_list _ _ _ _ F8), list_lookup_fmap, Hcb. }
  apply wp_bind. eapply wp_call; [by apply wrapper_unchecked|auto|cbn; unfold reset_fence, allow; by rewrite decide_True|].
  assert (Hid : idle g1 cb) by (eapply Forall_impl; [exact Hother|]; intros s [Hs _]; by apply Hs).
  eapply wp_check; [auto| |].
  { exact (submit_allowed a g1 imgs vws fbs cbs avail fin fl inflight i k img cb fb us av fi f Hrd1 Himg Hcb Hfb Hrec Hus Hav Hfi Hid
      (eq_trans Hs1 Hsg) (eq_trans Ha1 Hac)). }
  apply (HQ _ _ (<[i := Some f]> inflight)); [|cbn; rewrite Hs1, Hsg; set_solver|by cbn; rewrite Ha1|done].
  eapply (ready_same a1 g1); [|done|done| |].
  - split; try done; [by destruct F6; split|by destruct F7; split|by destruct F8; split|by destruct F9; split|by rewrite length_insert| |].
    + intros f0 [j Hj]%list_elem_of_lookup. destruct (decide (j = i)) as [->|Hne].
      * rewrite list_lookup_insert_eq in Hj by done. injection Hj as <-. by eapply list_elem_of_lookup_2.
      * rewrite list_lookup_insert_ne in Hj by done. apply F12. by eapply list_elem_of_lookup_2.
    + eapply Forall_impl; [exact Hother|]. intros s [_ Hs]. apply Hs.
  - cbn. eapply Forall_impl; [apply (sy_settled _ _ _ _ _ F9)|]. intros y Hy. unfold settled in *. cbn.
    destruct (decide (y = f)) as [->|Hne]; [rewrite lookup_insert_eq; by left|]. by rewrite !lookup_insert_ne.
  - cbn. apply Forall_cons. split; [by eapply (submission_of_frame a g1)|]. eapply Forall_impl; [exact Hother|]. intros s [_ Hs]. apply Hs.
Qed.

Lemma next_frame_wp a g (Q : () → VkApp → gpu → Prop) :
  frame_state a g → (∀ a', frame_state a' g → Q () a' g) → wp d R next_frame Q a g.
Proof.
  intros (Hs & Ha & imgs & vws & fbs & cbs & avail & fin & fl & inflight & [F1 F2 F5 F6 F7 F8 F9 F10 F11 F12 F13 Fp F14]) HQ.
  apply wp_change, HQ. split; [done|]. split; [done|]. exists imgs, vws, fbs, cbs, avail, fin, fl, inflight. split; try done.
  - by destruct F6; split.
  - by destruct F7; split.
  - by destruct F8; split.
  - destruct F9; split; try done. by apply Nat.mod_upper_bound.
Qed.

Lemma usable_cases r : usable r → r = VK_ERROR_OUT_OF_DATE_KHR ∨ r = VK_SUBOPTIMAL_KHR ∨ r = VK_SUCCESS.
Proof. unfold usable. tauto. Qed.

Lemma present_frame_wp fuel a g imgs vws fbs cbs avail fin fl inflight i img fi (Q : () → VkApp → gpu → Prop) :
  ready a g imgs vws fbs cbs avail fin fl inflight → imgs !! i = Some img → signals g = {[fi]} → acquired g = {[img]} →
  (∀ a' g', frame_state a' g' → Q () a' g') → wp d R (present_frame d fuel i fi) Q a g.
Proof.
  intros Hrd Himg Hsg Hac HQ. unfold present_frame. pose proof Hrd as [F1 F2 F5 F6 F7 F8 F9 F10 F11 F12 F13 Fp F14].
  apply wp_bind. eapply wp_load_good; [apply F1; set_solver|]. intros sc _ Hsc.
  apply wp_bind. eapply wp_load_element; [by rewrite (vw_images _ _ _ _ F6), list_lookup_fmap, Himg|].
  apply wp_bind, wp_ask. intros t. apply wp_bind. eapply wp_call; [apply wrapper_emit|auto| |].
  { cbn. unfold present, allow. rewrite decide_True; [done|]. rewrite Hsg, Hac. split; [done|]. set_solver. }
  set (g1 := set_acquired _ _). assert (Hrd1 : ready a g1 imgs vws fbs cbs avail fin fl inflight).
  { eapply ready_same; [exact Hrd|done|done|apply F9|done]. }
  assert (Hs1 : signals g1 = ∅) by (cbn; rewrite Hsg; set_solver).
  assert (Ha1 : acquired g1 = ∅) by (cbn; rewrite Hac; set_solver).
  assert (Hrest : ∀ stale : bool, (stale = false → presentImage d t ≠ VK_ERROR_OUT_OF_DATE_KHR ∧ presentImage d t ≠ VK_SUBOPTIMAL_KHR) →
    wp d R ((if stale then change (set_FramebufferResized (Some false));; update_swap_chain d fuel
      else if negb (presentImage d t =? VK_SUCCESS) then v_throw std_error else mret ());; next_frame) Q a g1).
  { intros [] Hr; apply wp_bind.
    - apply wp_bind, wp_change. apply (ready_resized (Some false)) in Hrd1. eapply update_swap_chain_wp; [done|exact Hs1|exact Ha1|exact Hrd1|].
      intros a2 g2 Hfs _. by apply next_frame_wp; [|auto].
    - destruct (Hr eq_refl) as [Hr1 Hr2]. case_match eqn:Hr3.
      + apply wp_throw. intros Hc. pose proof (usable_cases _ (calm_presented d Hc t)) as Hu.
        apply negb_true_iff, Z.eqb_neq in Hr3. tauto.
      + apply wp_ret, next_frame_wp; [|auto]. split; [done|]. split; [done|]. by eexists _, _, _, _, _, _, _, _. }
  clearbody g1. apply wp_bind, wp_app, wp_bind.
  destruct ((presentImage d t =? VK_ERROR_OUT_OF_DATE_KHR) || _) eqn:Hr.
  - by apply wp_ret, (Hrest true).
  - apply orb_false_iff in Hr as [Hr1%Z.eqb_neq Hr2%Z.eqb_neq]. apply (wp_initialised d R FramebufferResized); [done|]. intros b _. by apply (Hrest b).
Qed.

Lemma render_frame_wp fuel a g (Q : () → VkApp → gpu → Prop) :
  frame_state a g → (∀ a' g', frame_state a' g' → Q () a' g') → wp d R (render_frame d fuel) Q a g.
Proof.
  intros (Hsg & Hac & imgs & vws & fbs & cbs & avail & fin & fl & inflight & Hrd) HQ. unfold render_frame. apply wp_bind, wp_app.
  pose proof (rd_sync _ _ _ _ _ _ _ _ _ _ Hrd) as Hsy. destruct (sy_lengths _ _ _ _ _ Hsy) as (L1 & L2 & L3).
  set (k := CurrentFrame a). assert (Hk : (k < MAX_FRAMES_IN_FLIGHT)%nat) by apply Hsy.
  destruct (lookup_lt_is_Some_2 avail k) as [av Hav]; [lia|]. destruct (lookup_lt_is_Some_2 fin k) as [fi Hfi]; [lia|].
  destruct (lookup_lt_is_Some_2 fl k) as [f Hf]; [lia|].
  apply wp_bind. eapply wp_load_element; [by rewrite (sy_fences _ _ _ _ _ Hsy), list_lookup_fmap, Hf|].
  destruct (ready_waited _ _ _ _ _ _ _ _ _ _ f Hrd) as (g1 & Hw & Hrd1 & Hp1 & Hsig1 & _ & _ & Hs1 & Ha1); [by eapply list_elem_of_lookup_2|].
  apply wp_bind. eapply wp_call; [by apply wrapper_unchecked|auto|exact Hw|].
  apply wp_bind. eapply wp_load_good; [apply Hrd1; set_solver|]. intros sc Hsch Hsc.
  apply wp_bind. eapply wp_load_element; [by rewrite (sy_avail _ _ _ _ _ Hsy), list_lookup_fmap, Hav|].
  pose proof (rd_views _ _ _ _ _ _ _ _ _ _ Hrd1) as Hvw.
  apply wp_bind, wp_elements. rewrite (vw_images _ _ _ _ Hvw), length_fmap. apply wp_bind, wp_ask. intros t.
  assert (Hix := doc_acquire d (as_documented d Hdoc) t (length imgs) (rd_images _ _ _ _ _ _ _ _ _ _ Hrd1)).
  destruct (acquireImage d t (length imgs)) as [result i] eqn:Hacq. cbn [fst snd] in *. case_match eqn:Hr.
  { apply wp_bind, wp_refused. eapply update_swap_chain_wp; [done|congruence|congruence|exact Hrd1|auto]. }
  case_match eqn:Hr2.
  { apply wp_bind, wp_refused, wp_throw. intros Hc. pose proof (usable_cases _ (calm_acquire d Hc t (length imgs))) as Hu.
    rewrite Hacq in Hu. cbn in Hu. apply andb_true_iff in Hr2 as [H1 H2]. rewrite negb_true_iff, Z.eqb_neq in H1, H2.
    apply Z.eqb_neq in Hr. tauto. }
  destruct (lookup_lt_is_Some_2 imgs i Hix) as [img Himg].
  apply wp_bind. eapply wp_load_element; [by rewrite (vw_images _ _ _ _ Hvw), list_lookup_fmap, Himg|].
  assert (Hav1 : of_kind g1 KSemaphore av ∧ idle g1 av).
  { split; [pose proof (sy_kinds _ _ _ _ _ (rd_sync _ _ _ _ _ _ _ _ _ _ Hrd1)) as [Hks _]%Forall_app; exact (Forall_lookup_1 _ _ _ _ Hks Hav)|].
    pose proof (rd_pending _ _ _ _ _ _ _ _ _ _ Hrd1) as Hpd. unfold idle. rewrite Forall_forall in *. intros s Hin.
    destruct (lookup_lt_is_Some_2 inflight i) as [x Hx]; [by rewrite (rd_inflight_length _ _ _ _ _ _ _ _ _ _ Hrd1)|].
    destruct (Hpd s Hin) as (k' & i' & f' & E1 & E2 & _ & _ & E5). intros Hu. assert (k = k') as <- by (by eapply E5).
    apply (Hp1 s Hin). congruence. }
  apply wp_bind. eapply wp_call; [apply wrapper_emit|auto| |].
  { cbn. unfold acquire, allow. rewrite decide_True; [done|]. rewrite Hs1, Ha1, Hsg, Hac.
    destruct (vw_swapchain _ _ _ _ Hvw) as (sc' & Hsc' & Hi'). assert (sc' = sc) as -> by congruence.
    split; [done|]. split; [apply Hi'; by eapply list_elem_of_lookup_2|]. split; [set_solver|]. split; [apply Hav1|]. split; [set_solver|apply Hav1]. }
  set (g2 := set_acquired _ _). assert (Hrd2 : ready a g2 imgs vws fbs cbs avail fin fl inflight).
  { eapply ready_same; [exact Hrd1|done|done|apply (rd_sync _ _ _ _ _ _ _ _ _ _ Hrd1)|apply Hrd1]. }
  apply wp_bind. eapply wp_load_element; [by rewrite (sy_fin _ _ _ _ _ Hsy), list_lookup_fmap, Hfi|].
  apply wp_bind. eapply submit_frame_wp; [exact Hrd2|done..|cbn; rewrite Hs1, Hsg; set_solver|cbn; rewrite Ha1, Hac; set_solver|].
  intros a3 g3 inflight3 Hrd3 Hs3 Ha3 _. eapply present_frame_wp; [exact Hrd3|exact Himg|done|done|done].
Qed.
End frames.
