(* ===== verification/VkStart.v ===== *)
(** * From the window to the last synchronisation object

    The operations of [src/10-3d/vk-simplest.cc] that run once: window, instance, device and
    queues, shaders, and the semaphores and fences of the frames. *)

From stdpp Require Import functions.
From S2P Require Import Prelude Vk VkProgram VkLogic VkStages VkObjects VkCleanup VkFrames VkFrame.

(** ** Window, instance, device *)
Section session.
Variable d : driver.
Variable R : Prop.
Hypothesis Hdoc : answers d.
Implicit Types (a : VkApp) (g : gpu) (fs : list field) (c : kind → nat).

Lemma wp_create_set cw f k from i fs c a g K (Q : () → VkApp → gpu → Prop) :
  wrapper d cw → field_kind f = k → stage a g fs c → alive g from → k ≠ KFence →
  (∀ h a' g', of_kind g' k h → stage a' g' (f :: fs) (adds k 1 c) → rest [f] [] a g a' g' → wp d R (K h) Q a' g') →
  wp d R (h ← create_by cw k from i; set f h;; K h) Q a g.
Proof.
  intros Hw <- Hst Ha Hk HK. apply wp_bind. eapply wp_create_stage; [done|done|exact Hst|done|]. intros h g' Hg Hst' Hr.
  apply wp_bind, wp_set. pose proof (grown_kind _ _ _ _ _ Hg) as Hk'. apply HK; [done|by apply stage_set|].
  eapply rest_trans; [eapply rest_weaken; [exact Hr|set_solver..]|]. apply rest_handle. left.
Qed.

Lemma initialize_window_wp c a g (Q : () → VkApp → gpu → Prop) :
  stage a g [] c →
  (∀ w a' g', Wnd a' = Some w → of_kind g' KWindow w → vectors a' = vectors a → CurrentFrame a' = CurrentFrame a →
    fences g' = fences g → PresentFamily a' = PresentFamily a → GraphicsFamily a' = GraphicsFamily a →
    stage a' g' [] (adds KWindow 1 c) → Q () a' g') →
  wp d R (initialize_window d) Q a g.
Proof.
  intros Hst HQ. unfold initialize_window.
  apply wp_bind, wp_noticed; [by apply wrapper_unchecked|]. apply wp_bind, wp_noticed; [apply wrapper_emit|].
  apply wp_bind, wp_noticed; [auto with vk|]. apply wp_bind. eapply wp_create_stage; [auto with vk|done|exact Hst|constructor|].
  intros w g' Hg Hst' Hr. do 2 (apply wp_bind, wp_noticed; [auto with vk|]). apply wp_change.
  apply (HQ w); try done; [by eapply grown_kind|apply Hr|]. by eapply stage_app.
Qed.

Lemma create_instance_wp w c a g (Q : () → VkApp → gpu → Prop) :
  stage a g [] c → Wnd a = Some w → of_kind g KWindow w →
  (∀ a' g', stage a' g' [Surface; Instance] (adds KSurface 1 (adds KInstance 1 c)) → rest [Surface; Instance] [] a g a' g' →
    PresentFamily a' = PresentFamily a → GraphicsFamily a' = GraphicsFamily a → Q () a' g') →
  wp d R (create_instance d) Q a g.
Proof.
  intros Hst Hw Hwk HQ. unfold create_instance. apply wp_bind, wp_noticed; [auto with vk|].
  apply wp_bind. eapply wp_create_stage; [auto with vk|done|exact Hst|constructor|]. intros i g1 Hg1 Hst1 Hr1.
  apply wp_bind, wp_set. pose proof (grown_kind _ _ _ _ _ Hg1) as Hi. apply (stage_set _ _ Instance i) in Hst1; [|done].
  apply wp_bind, wp_bind, wp_app. eapply wp_option; [exact Hw|]. apply wp_bind, wp_noticed; [auto with vk|].
  apply wp_bind. eapply wp_create_stage; [auto with vk|done|exact Hst1| |].
  { repeat constructor; [by eapply of_kind_alive|]. eapply of_kind_alive, of_kind_live; [apply Hr1|done]. }
  intros s g2 Hg2 Hst2 Hr2. apply wp_set. apply HQ; [| |done|done].
  - apply stage_set; [done|]. by eapply grown_kind.
  - eapply rest_trans; [eapply rest_weaken; [exact Hr1|set_solver..]|]. eapply rest_trans; [apply (rest_handle Instance i); set_solver|].
    eapply rest_trans; [eapply rest_weaken; [exact Hr2|set_solver..]|]. apply rest_handle. left.
Qed.

Lemma peek_device_wp fs c a g (Q : () → VkApp → gpu → Prop) :
  stage a g fs c → Instance ∈ fs → Q () a g → wp d R (peek_device d) Q a g.
Proof.
  intros Hst Hi HQ. unfold peek_device. vload Instance Hst. intros i _ Hik. apply wp_bind, wp_ask. intros t. vused.
  case_match eqn:Hn; [apply wp_throw; intros Hc; by rewrite (calm_device d Hc t) in Hn|].
  apply wp_used; [auto with vk|repeat constructor; by eapply of_kind_alive|done].
Qed.

(** ** Queue families *)
Definition graphics_family (f : Z) : Prop :=
  ∃ i flags, queueFamilies d !! i = Some flags ∧ f = Z.of_nat i ∧ Z.land flags VK_QUEUE_GRAPHICS_BIT ≠ 0.
Definition present_family (f : Z) : Prop :=
  ∃ i, (i < length (queueFamilies d))%nat ∧ f = Z.of_nat i ∧ presentSupport d f = true.

(** Only the families differ. *)
Definition same_but_families a a' : Prop :=
  handles a' = handles a ∧ vectors a' = vectors a ∧ Wnd a' = Wnd a ∧ CurrentFrame a' = CurrentFrame a.

(** The families after the first [k] have been looked at. *)
Record found (k : nat) a : Prop := {
  fo_graphics : GraphicsFamily a = no_family ∨ graphics_family (GraphicsFamily a);
  fo_present : PresentFamily a = no_family ∨ present_family (PresentFamily a);
  fo_no_graphics : GraphicsFamily a = no_family →
    ∀ i flags, (i < k)%nat → queueFamilies d !! i = Some flags → Z.land flags VK_QUEUE_GRAPHICS_BIT = 0;
  fo_no_present : PresentFamily a = no_family → ∀ i, (i < k)%nat → presentSupport d (Z.of_nat i) = false }.

Definition note_graphics (k : nat) (flags : Z) a : VkApp :=
  if negb (Z.land flags VK_QUEUE_GRAPHICS_BIT =? 0) then set_GraphicsFamily (Z.of_nat k) a else a.
Definition note_present (k : nat) a : VkApp := if presentSupport d (Z.of_nat k) then set_PresentFamily (Z.of_nat k) a else a.

Lemma found_next k flags a : queueFamilies d !! k = Some flags → found k a → found (S k) (note_present k (note_graphics k flags a)).
Proof.
  intros Hk [F1 F2 F3 F4]. pose proof (lookup_lt_Some _ _ _ Hk) as Hl. pose proof (doc_families d (as_documented d Hdoc)) as Hlen.
  assert (Hno : Z.of_nat k ≠ no_family) by lia. set (b := note_graphics k flags a).
  assert (Hg : found k a → (GraphicsFamily b = no_family ∨ graphics_family (GraphicsFamily b)) ∧ PresentFamily b = PresentFamily a ∧
    (GraphicsFamily b = no_family → ∀ i f, (i < S k)%nat → queueFamilies d !! i = Some f → Z.land f VK_QUEUE_GRAPHICS_BIT = 0)).
  { intros _. unfold b, note_graphics. destruct (Z.eqb_spec (Z.land flags VK_QUEUE_GRAPHICS_BIT) 0) as [H0|H0]; cbn.
    - split; [done|]. split; [done|]. intros Hn i f Hi Hf. destruct (decide (i = k)) as [->|]; [by simplify_eq|].
      eapply F3; [done| |done]. lia.
    - split; [right; by exists k, flags|]. done. }
  destruct Hg as (G1 & G2 & G3); [by split|]. clearbody b. unfold note_present. destruct (presentSupport d (Z.of_nat k)) eqn:Hp; split; cbn; try done.
  - right. by exists k.
  - by rewrite G2.
  - rewrite G2. intros Hn i Hi. destruct (decide (i = k)) as [->|]; [done|]. apply F4; [done|lia].
Qed.

Lemma note_same k flags a : same_but_families a (note_present k (note_graphics k flags a)).
Proof. unfold note_present, note_graphics. by repeat case_match. Qed.

Lemma find_queues_from_wp s l : ∀ k a g (Q : () → VkApp → gpu → Prop),
  l = drop k (queueFamilies d) → handles a Surface = Some s → of_kind g KSurface s → found k a →
  (∀ a' k', same_but_families a a' → found k' a' →
    ((length (queueFamilies d) ≤ k')%nat ∨ GraphicsFamily a' ≠ no_family ∧ PresentFamily a' ≠ no_family) → Q () a' g) →
  wp d R (find_queues_from d (Z.of_nat k) l) Q a g.
Proof.
  induction l as [|flags l IH]; intros k a g Q Hl Hs Hsk Hfo HQ; cbn [find_queues_from].
  - apply wp_ret, (HQ _ k); [done|done|left]. assert (Hd : length (drop k (queueFamilies d)) = 0%nat) by by rewrite <- Hl.
    rewrite length_drop in Hd. lia.
  - assert (Hfl : queueFamilies d !! k = Some flags) by (rewrite <- (Nat.add_0_r k), <- lookup_drop, <- Hl; done).
    assert (Hl' : l = drop (S k) (queueFamilies d)) by (rewrite (drop_S _ _ _ Hfl) in Hl; congruence).
    pose proof (found_next k flags a Hfl Hfo) as Hfo'. pose proof (note_same k flags a) as Hsame.
    apply wp_bind. apply (wp_mono d R _ (λ _ a' g', a' = note_graphics k flags a ∧ g' = g)).
    { unfold note_graphics. case_match; [by apply wp_change|by apply wp_ret]. }
    intros _ ? ? [-> ->]. apply wp_bind. eapply wp_load; [by unfold note_graphics; case_match|].
    apply wp_bind, wp_used; [auto with vk|repeat constructor; by eapply of_kind_alive|].
    apply wp_bind. apply (wp_mono d R _ (λ _ a' g', a' = note_present k (note_graphics k flags a) ∧ g' = g)).
    { unfold note_present. case_match; [by apply wp_change|by apply wp_ret]. }
    intros _ ? ? [-> ->]. set (b := note_present _ _) in *. clearbody b. apply wp_bind, wp_app. case_match eqn:Hboth.
    + apply andb_true_iff in Hboth as [H1 H2]. rewrite negb_true_iff, Z.eqb_neq in H1, H2. by apply wp_ret, (HQ _ (S k)); [| |right].
    + replace (Z.of_nat k + 1) with (Z.of_nat (S k)) by lia. destruct Hsame as (E1 & E2 & E3 & E4).
      apply IH; [done|by rewrite E1|done|done|]. intros a' k' (A1 & A2 & A3 & A4). apply HQ. unfold same_but_families. split_and!; congruence.
Qed.

Lemma find_queues_wp fs c a g (Q : () → VkApp → gpu → Prop) :
  stage a g fs c → Surface ∈ fs → GraphicsFamily a = no_family → PresentFamily a = no_family →
  (∀ a', same_but_families a a' → graphics_family (GraphicsFamily a') → present_family (PresentFamily a') → Q () a' g) →
  wp d R (find_queues d) Q a g.
Proof.
  intros Hst Hs Hg Hp HQ. unfold find_queues. do 2 (apply wp_bind, wp_noticed; [apply wrapper_emit|]).
  destruct (st_fields _ _ _ _ Hst Surface Hs) as (s & Hsh & Hsk). apply wp_bind.
  apply (find_queues_from_wp s _ 0); [done|done|done|split; [by left|by left|lia|lia]|].
  intros a' k' Hsame [F1 F2 F3 F4] Hend. apply wp_bind, wp_app. case_match eqn:Hb.
  - apply wp_throw. intros Hc. apply orb_true_iff in Hb. rewrite !Z.eqb_eq in Hb. destruct Hend as [Hk|[]]; [|by destruct Hb].
    destruct Hb as [Hb|Hb].
    + destruct (calm_present d Hc) as (i & Hi & Hf). rewrite F4 in Hf; [done|done|lia].
    + destruct (calm_graphics d Hc) as (i & flags & Hi & Hf). apply Hf. eapply F3; [done| |done]. apply lookup_lt_Some in Hi. lia.
  - apply orb_false_iff in Hb as [H1 H2]. apply Z.eqb_neq in H1, H2. apply wp_ret, HQ; [done| |]; tauto.
Qed.

Lemma create_logical_device_wp fs c a g (Q : () → VkApp → gpu → Prop) :
  stage a g fs c → Instance ∈ fs →
  (∀ a' g', stage a' g' (Device :: fs) (adds KDevice 1 c) → rest [Device] [] a g a' g' → Q () a' g') →
  wp d R (create_logical_device d) Q a g.
Proof.
  intros Hst Hi HQ. unfold create_logical_device. apply wp_bind, wp_app. vload Instance Hst. intros i _ Hik.
  apply (wp_create_set _ Device KDevice _ _ fs c); [auto with vk|done|done|repeat constructor; by eapply of_kind_alive|done|].
  intros dev a' g' Hdev Hst' Hr. apply wp_bind, wp_used; [apply wrapper_emit|repeat constructor; by eapply of_kind_alive|].
  apply wp_used; [apply wrapper_emit|repeat constructor; by eapply of_kind_alive|]. by apply HQ.
Qed.

Lemma install_wp path fs c a g K (Q : () → VkApp → gpu → Prop) :
  stage a g fs c → Device ∈ fs →
  (∀ h g', of_kind g' KShaderModule h → stage a g' fs (adds KShaderModule 1 c) → rest [] [] a g a g' → wp d R (K h) Q a g') →
  wp d R (code ← readFile d path; h ← installShader d code; K h) Q a g.
Proof.
  intros Hst Hd HK. apply wp_bind. unfold readFile. destruct (files d path) as [bytes|] eqn:Hf.
  2: { apply wp_throw. intros Hc. by apply (calm_files d Hc path). }
  apply wp_ret, wp_bind. unfold installShader. vload Device Hst. intros dev _ Hdk.
  eapply wp_create_stage; [auto with vk|done|exact Hst|repeat constructor; by eapply of_kind_alive|].
  intros h g' Hg Hst' Hr. apply HK; [by eapply grown_kind|done|done].
Qed.
End session.

(** ** Synchronisation objects *)
Section sync_objects.
Variable d : driver.
Variable R : Prop.
Hypothesis Hdoc : answers d.
Implicit Types (a : VkApp) (g : gpu) (fs : list field) (c : kind → nat).

(** What creating objects changes of the device, fences apart. *)
Record more g g' : Prop := {
  mo_live : live g ⊆ live g';
  mo_recorded : recorded g' = recorded g;
  mo_fences : ∀ f, is_Some (live g !! f) → fences g' !! f = fences g !! f }.

Lemma more_refl g : more g g.
Proof. by split. Qed.

Lemma more_trans g1 g2 g3 : more g1 g2 → more g2 g3 → more g1 g3.
Proof.
  intros [L1 E1 F1] [L2 E2 F2]. split; [by trans (live g2)|congruence|]. intros f [x Hf].
  rewrite F2; [apply F1; by eexists|]. eexists. by eapply lookup_weaken.
Qed.

(** A fence is created signaled. *)
Lemma wp_create_more k dev inf fs c a g (Q : handle → VkApp → gpu → Prop) :
  stage a g fs c → of_kind g KDevice dev → (k = KFence → inf = InfoSignaled) →
  (∀ h g', live g !! h = None → of_kind g' k h → (k = KFence → fences g' !! h = Some Signaled) → more g g' →
    stage a g' fs (adds k 1 c) → Q h a g') →
  wp d R (vkCreate d k [dev] inf) Q a g.
Proof.
  intros Hst Hd Hinf HQ. apply wp_create; [auto with vk|repeat constructor; by eapply of_kind_alive|].
  intros h g' Hn Hc Hg. apply HQ; [done|by eapply grown_kind| | |by eapply stage_grown].
  - intros ->. rewrite (Hinf eq_refl) in Hc. unfold create, allow in Hc. case_decide; simplify_eq. apply lookup_insert_eq.
  - split; [by eapply grown_live|apply Hg|]. intros f [x Hf]. assert (f ≠ h) by congruence.
    unfold create, allow in Hc. case_decide; simplify_eq. destruct k, inf; cbn; try done; by apply lookup_insert_ne.
Qed.

(** The three vectors while they are filled. *)
Record syncing a0 n a (avail fin fl : list (option handle)) : Prop := {
  sg_avail : vectors a ImageAvailableSemaphores = avail;
  sg_fin : vectors a RenderFinishedSemaphores = fin;
  sg_fl : vectors a InFlightFences = fl;
  sg_inflight : vectors a ImagesInFlight = replicate n None;
  sg_others : ∀ v, v ∈ [SwapChainImages; SwapChainImageViews; SwapChainFramebuffers; CommandBuffers] → vectors a v = vectors a0 v;
  sg_handles : handles a = handles a0;
  sg_frame : CurrentFrame a = CurrentFrame a0;
  sg_wnd : Wnd a = Wnd a0 }.

Lemma syncing_avail a0 n a avail fin fl l : syncing a0 n a avail fin fl → syncing a0 n (with_vector ImageAvailableSemaphores l a) l fin fl.
Proof.
  intros [S1 S2 S3 S4 S5 S6 S7 S8]. split; try done; cbn; try (by rewrite fn_lookup_insert_ne); try apply fn_lookup_insert.
  intros v Hv. rewrite fn_lookup_insert_ne by set_solver. auto.
Qed.
Lemma syncing_fin a0 n a avail fin fl l : syncing a0 n a avail fin fl → syncing a0 n (with_vector RenderFinishedSemaphores l a) avail l fl.
Proof.
  intros [S1 S2 S3 S4 S5 S6 S7 S8]. split; try done; cbn; try (by rewrite fn_lookup_insert_ne); try apply fn_lookup_insert.
  intros v Hv. rewrite fn_lookup_insert_ne by set_solver. auto.
Qed.
Lemma syncing_fl a0 n a avail fin fl l : syncing a0 n a avail fin fl → syncing a0 n (with_vector InFlightFences l a) avail fin l.
Proof.
  intros [S1 S2 S3 S4 S5 S6 S7 S8]. split; try done; cbn; try (by rewrite fn_lookup_insert_ne); try apply fn_lookup_insert.
  intros v Hv. rewrite fn_lookup_insert_ne by set_solver. auto.
Qed.

(** [MAX_FRAMES_IN_FLIGHT - length l] elements are still null. *)
Definition filled (l : list handle) : list (option handle) := (Some <$> l) ++ replicate (MAX_FRAMES_IN_FLIGHT - length l) None.

Lemma filled_insert l h : (length l < MAX_FRAMES_IN_FLIGHT)%nat → <[length l := Some h]> (filled l) = filled (l ++ [h]).
Proof.
  intros Hl. unfold filled. rewrite insert_app_r_alt by by rewrite length_fmap. rewrite length_fmap, Nat.sub_diag, length_app, fmap_app, <- app_assoc.
  f_equal. replace (MAX_FRAMES_IN_FLIGHT - length l)%nat with (S (MAX_FRAMES_IN_FLIGHT - (length l + 1))) by lia. done.
Qed.

Lemma filled_length l : (length l ≤ MAX_FRAMES_IN_FLIGHT)%nat → length (filled l) = MAX_FRAMES_IN_FLIGHT.
Proof. intros Hl. unfold filled. rewrite length_app, length_fmap, length_replicate. lia. Qed.

(** The objects of the first [i] frames. *)
Record synced i a0 n fs c a g0 g (avail fin fl : list handle) : Prop := {
  sd_syncing : syncing a0 n a (filled avail) (filled fin) (filled fl);
  sd_lengths : length avail = i ∧ length fin = i ∧ length fl = i;
  sd_nodup : NoDup (avail ++ fin);
  sd_nodup_fences : NoDup fl;
  sd_kinds : Forall (of_kind g KSemaphore) (avail ++ fin);
  sd_fence_kinds : Forall (of_kind g KFence) fl;
  sd_signaled : Forall (λ f, fences g !! f = Some Signaled) fl;
  sd_stage : stage a g fs (adds KFence i (adds KSemaphore (2 * i) c));
  sd_more : more g0 g }.

Lemma new_among g k l h : live g !! h = None → Forall (of_kind g k) l → h ∉ l.
Proof. intros Hh Hl Hin. rewrite Forall_forall in Hl. destruct (of_kind_alive _ _ _ (Hl h Hin)) as [x Hx]. congruence. Qed.

Lemma kinds_more g g' k l : more g g' → Forall (of_kind g k) l → Forall (of_kind g' k) l.
Proof. intros Hm Hl. eapply Forall_impl; [exact Hl|]. intros x. apply of_kind_live, Hm. Qed.

Lemma synced_next i a0 n fs c a g0 g avail fin fl (Q : () → VkApp → gpu → Prop) :
  (i < MAX_FRAMES_IN_FLIGHT)%nat → Device ∈ fs → synced i a0 n fs c a g0 g avail fin fl →
  (∀ a' g' s1 s2 f, synced (S i) a0 n fs c a' g0 g' (avail ++ [s1]) (fin ++ [s2]) (fl ++ [f]) → Q () a' g') →
  wp d R (dev ← load Device;
    s ← vkCreate d KSemaphore [dev] NoInfo; set_element ImageAvailableSemaphores i (Some s);;
    s ← vkCreate d KSemaphore [dev] NoInfo; set_element RenderFinishedSemaphores i (Some s);;
    f ← vkCreate d KFence [dev] InfoSignaled; set_element InFlightFences i (Some f)) Q a g.
Proof.
  intros Hi Hd [Y (L1 & L2 & L3) N1 N2 K1 K2 F Hst Hm] HQ. vload Device Hst. intros dev _ Hdev.
  assert (Hput : ∀ l, length l = i → (i < length (filled l))%nat) by (intros l Hl; rewrite filled_length; lia).
  apply wp_bind. eapply wp_create_more; [exact Hst|done|done|]. intros s1 g1 Hn1 Hk1 _ Hm1 Hst1.
  apply wp_bind, wp_set_element; [rewrite (sg_avail _ _ _ _ _ _ Y); auto|]. rewrite (sg_avail _ _ _ _ _ _ Y), <- L1, filled_insert, L1 by lia.
  eapply syncing_avail in Y. eapply stage_vector in Hst1.
  apply wp_bind. eapply wp_create_more; [exact Hst1|eapply of_kind_live; [apply Hm1|done]|done|]. intros s2 g2 Hn2 Hk2 _ Hm2 Hst2.
  apply wp_bind, wp_set_element; [rewrite (sg_fin _ _ _ _ _ _ Y); auto|]. rewrite (sg_fin _ _ _ _ _ _ Y), <- L2, filled_insert, L2 by lia.
  eapply syncing_fin in Y. eapply stage_vector in Hst2.
  apply wp_bind. eapply wp_create_more; [exact Hst2|eapply of_kind_live; [apply Hm2|eapply of_kind_live; [apply Hm1|done]]|done|].
  intros f g3 Hn3 Hk3 Hsig Hm3 Hst3.
  apply wp_set_element; [rewrite (sg_fl _ _ _ _ _ _ Y); auto|]. rewrite (sg_fl _ _ _ _ _ _ Y), <- L3, filled_insert by lia.
  eapply syncing_fl in Y. eapply stage_vector in Hst3. apply (HQ _ _ s1 s2 f).
  pose proof (more_trans _ _ _ Hm1 Hm2) as Hm12. pose proof (more_trans _ _ _ Hm12 Hm3) as Hm13.
  pose proof (kinds_more _ _ _ _ Hm1 K1) as K1'. split; [exact Y|rewrite !length_app; cbn; lia| | | | | | |].
  - pose proof (new_among _ _ _ _ Hn1 K1) as H1. pose proof (new_among _ _ _ _ Hn2 K1') as H2.
    assert (H12 : s1 ≠ s2) by (intros <-; destruct (of_kind_alive _ _ _ Hk1); congruence).
    rewrite elem_of_app in H1, H2. apply NoDup_app in N1 as (Na & Nb & Nc).
    repeat (apply NoDup_app; split_and!); try done; try apply NoDup_singleton; set_solver.
  - apply NoDup_app. split; [done|]. split; [|apply NoDup_singleton]. intros x Hx ->%list_elem_of_singleton. revert Hx.
    eapply new_among; [exact Hn3|]. by eapply kinds_more.
  - pose proof (kinds_more _ _ _ _ Hm13 K1) as K. rewrite !Forall_app in *. destruct K as [Ka Kb].
    split_and!; try done; repeat constructor; [eapply of_kind_live; [eapply more_trans; [exact Hm2|exact Hm3]|done]|eapply of_kind_live; [apply Hm3|done]].
  - rewrite Forall_app. split; [by eapply kinds_more|by repeat constructor].
  - rewrite Forall_app. split; [|repeat constructor; auto]. rewrite Forall_forall in *. intros x Hx.
    rewrite (mo_fences _ _ Hm13); [auto|]. eapply of_kind_alive; auto.
  - eapply stage_weaken; [exact Hst3|done|]. intros k. unfold adds. repeat case_decide; lia.
  - by eapply more_trans.
Qed.

Lemma synced_sync i a0 n fs c a g0 g avail fin fl :
  synced i a0 n fs c a g0 g avail fin fl → i = MAX_FRAMES_IN_FLIGHT → CurrentFrame a0 = 0%nat → sync a g avail fin fl.
Proof.
  intros [[Y1 Y2 Y3 Y4 Y5 Y6 Y7 Y8] (L1 & L2 & L3) N1 N2 K1 K2 F Hst Hm] -> Hc.
  assert (Hf : ∀ l, length l = MAX_FRAMES_IN_FLIGHT → filled l = Some <$> l).
  { intros l Hl. unfold filled. rewrite Hl, Nat.sub_diag. apply app_nil_r. }
  rewrite Hf in Y1, Y2, Y3 by done. split; try done; [|rewrite Y7, Hc; unfold MAX_FRAMES_IN_FLIGHT; lia].
  eapply Forall_impl; [exact F|]. intros f Hs. by right.
Qed.

Lemma create_sync_objs_wp imgs fs c a g (Q : () → VkApp → gpu → Prop) :
  stage a g fs c → Device ∈ fs → vectors a SwapChainImages = Some <$> imgs → CurrentFrame a = 0%nat →
  (∀ v, v ∈ [ImageAvailableSemaphores; RenderFinishedSemaphores; InFlightFences; ImagesInFlight] → vectors a v = []) →
  (∀ avail fin fl a' g', sync a' g' avail fin fl → syncing a (length imgs) a' (Some <$> avail) (Some <$> fin) (Some <$> fl) →
    stage a' g' fs (adds KFence 2 (adds KSemaphore 4 c)) → more g g' → Q () a' g') →
  wp d R (create_sync_objs d) Q a g.
Proof.
  intros Hst Hd Himgs Hcf Hnil HQ. unfold create_sync_objs. do 3 (apply wp_bind, wp_resize).
  apply wp_bind, wp_elements. apply wp_bind, wp_resize. set (a1 := with_vector ImagesInFlight _ _).
  assert (Hy : syncing a (length imgs) a1 (filled []) (filled []) (filled [])).
  { unfold a1. clear a1. assert (Hr : ∀ v n, v ∈ [ImageAvailableSemaphores; RenderFinishedSemaphores; InFlightFences; ImagesInFlight] →
      resize n None (vectors a v) = replicate n None) by (intros v n Hv; by rewrite Hnil, resize_nil).
    split; try done; cbn; repeat (rewrite fn_lookup_insert || rewrite fn_lookup_insert_ne by done).
    1-3: by rewrite Hr by set_solver.
    - by rewrite Himgs, length_fmap, Hr by set_solver.
    - intros v Hv. by rewrite !fn_lookup_insert_ne by set_solver. }
  assert (Hst1 : stage a1 g fs c) by (by eapply stage_app). clearbody a1.
  apply (wp_for d R (λ i a' g', ∃ avail fin fl, synced i a (length imgs) fs c a' g g' avail fin fl)).
  - exists [], [], []. split; try done; try apply NoDup_nil_2; try apply Forall_nil_2.
    eapply stage_weaken; [exact Hst1|done|]. intros k. unfold adds. by repeat case_decide.
  - intros i a' g' Hi (avail & fin & fl & Hs). eapply synced_next; [lia|exact Hd|exact Hs|]. intros a2 g2 s1 s2 f Hs2. by eexists _, _, _.
  - intros a' g' (avail & fin & fl & Hs). pose proof (synced_sync _ _ _ _ _ _ _ _ _ _ _ Hs eq_refl Hcf) as Hsy.
    apply (HQ avail fin fl); [done| |apply Hs|apply Hs]. destruct (sd_syncing _ _ _ _ _ _ _ _ _ _ _ Hs) as [Y1 Y2 Y3 Y4 Y5 Y6 Y7 Y8].
    destruct Hsy as [Z1 Z2 Z3]. split; done.
Qed.
End sync_objects.

(** Creating synchronisation objects leaves what draws. *)
Section drawing.
Implicit Types (a : VkApp) (g : gpu).
Definition chain_vectors : list vector := [SwapChainImages; SwapChainImageViews; SwapChainFramebuffers; CommandBuffers].

Variables (a : VkApp) (g : gpu) (a' : VkApp) (g' : gpu).
Hypothesis Hm : more g g'.
Hypothesis Hh : handles a' = handles a.
Hypothesis Hv : ∀ v, v ∈ chain_vectors → vectors a' v = vectors a v.

Lemma more_rest : rest [] [ImageAvailableSemaphores; RenderFinishedSemaphores; InFlightFences; ImagesInFlight] a g
  (set_CurrentFrame (CurrentFrame a) (set_Wnd (Wnd a) a')) (set_fences (fences g) g').
Proof.
  split; try done; [apply Hm|intros f _; cbn; by rewrite Hh|]. intros v Hnv. apply Hv. destruct v; set_solver.
Qed.

Lemma views_more imgs vws : views a g imgs vws → views a' g' imgs vws.
Proof. intros Hvw. destruct (views_rest _ _ _ _ _ _ _ _ Hvw more_rest); [set_solver..|]. by split. Qed.

Lemma framebuffers_more vws fbs : framebuffers a g vws fbs → framebuffers a' g' vws fbs.
Proof. intros Hfb. destruct (framebuffers_rest _ _ _ _ _ _ _ _ Hfb more_rest); [set_solver..|]. by split. Qed.

Lemma commands_more fbs cbs : commands a g fbs cbs → commands a' g' fbs cbs.
Proof.
  intros [C1 C2 C3 C4 C5]. split; try done; [by rewrite Hv by set_solver|by eapply kinds_more|].
  intros i cb fb Hcb Hfb. destruct (C5 i cb fb Hcb Hfb) as (us & Hu & Hk). exists us. rewrite (mo_recorded _ _ Hm). split; [done|].
  eapply Forall_impl; [exact Hk|]. intros x (k & Hx & ?). exists k. split; [|done]. eapply of_kind_live; [apply Hm|done].
Qed.
End drawing.
