(* ===== verification/VkMain.v ===== *)
(** * The Vulkan program as a whole

    [main] of [src/10-3d/vk-simplest.cc]: the start, the frames, the end; and the properties. *)

From stdpp Require Import functions.
From S2P Require Import Prelude Vk VkProgram VkLogic VkStages VkObjects VkCleanup VkFrames VkFrame VkStart.

(** ** From the start to the first frame *)
Section start.
Variable d : driver.
Variable R : Prop.
Hypothesis Hdoc : answers d.
Implicit Types (a : VkApp) (g : gpu) (fs : list field) (c : kind → nat).

(** What the program has before the swapchain. *)
Definition opened : kind → nat := λ k,
  match k with KWindow | KInstance | KSurface | KDevice => 1 | KShaderModule => 2 | _ => 0 end%nat.

Record opening a g (VertexID FragmentID : handle) : Prop := {
  op_stage : stage a g [Device; Surface; Instance] opened;
  op_vertex : of_kind g KShaderModule VertexID;
  op_fragment : of_kind g KShaderModule FragmentID;
  op_vectors : ∀ v, vectors a v = [];
  op_frame : CurrentFrame a = 0%nat;
  op_fences : fences g = ∅;
  op_window : ∃ w, Wnd a = Some w ∧ of_kind g KWindow w }.

Lemma rest_fences fs vs a g a' g' : rest fs vs a g a' g' → fences g = ∅ → fences g' = ∅.
Proof. intros Hr Hf. by rewrite (r_fences _ _ _ _ _ _ Hr). Qed.

Lemma stage_start a : stage a gpu0 [] (λ _, 0%nat).
Proof. split; try done. intros f Hf. set_solver. Qed.

Lemma opening_wp K (Q : () → VkApp → gpu → Prop) :
  (∀ VertexID FragmentID a g, opening a g VertexID FragmentID → wp d R (K VertexID FragmentID) Q a g) →
  wp d R (initialize_window d;; create_instance d;; peek_device d;; find_queues d;; create_logical_device d;;
    code ← readFile d VERTNAME; VertexID ← installShader d code;
    code ← readFile d FRAGNAME; FragmentID ← installShader d code; K VertexID FragmentID) Q (this start) gpu0.
Proof.
  intros HK. apply wp_bind. eapply (initialize_window_wp d R Hdoc (λ _, 0%nat)); [apply stage_start|].
  intros w a1 g1 Hw1 Hwk1 Hv1 Hc1 Hf1 Hp1 Hq1 Hst1.
  apply wp_bind. eapply create_instance_wp; [done|exact Hst1|exact Hw1|done|]. intros a2 g2 Hst2 Hr2 Hp2 Hq2.
  apply wp_bind. eapply peek_device_wp; [exact Hst2|set_solver|].
  apply wp_bind. eapply find_queues_wp; [done|exact Hst2|set_solver|by rewrite Hq2, Hq1|by rewrite Hp2, Hp1|].
  intros a3 (E1 & E2 & E3 & E4) _ _. assert (Hst3 := stage_app _ _ _ _ _ Hst2 E1).
  assert (Hr3 : rest [Surface; Instance] [] a1 g1 a3 g2) by (eapply rest_trans; [exact Hr2|by apply rest_app; intros; rewrite ?E1, ?E2]).
  apply wp_bind. eapply create_logical_device_wp; [done|exact Hst3|set_solver|]. intros a4 g4 Hst4 Hr4.
  eapply install_wp; [exact Hst4|set_solver|]. intros vs g5 Hvs Hst5 Hr5.
  eapply install_wp; [exact Hst5|set_solver|]. intros fs g6 Hfs Hst6 Hr6. apply HK.
  assert (Hr : rest [Device; Surface; Instance] [] a1 g1 a4 g6).
  { eapply rest_trans; [eapply rest_weaken; [exact Hr3|set_solver..]|]. eapply rest_trans; [eapply rest_weaken; [exact Hr4|set_solver..]|].
    eapply rest_trans; (eapply rest_weaken; [eassumption|set_solver..]). }
  split; [|eapply of_kind_live; [apply Hr6|done]|done| | | |].
  - eapply stage_weaken; [exact Hst6|done|]. intros k. by destruct k.
  - intros v. rewrite (r_vectors _ _ _ _ _ _ Hr) by set_solver. by rewrite Hv1.
  - by rewrite (r_frame _ _ _ _ _ _ Hr), Hc1.
  - eapply rest_fences; [exact Hr|]. by rewrite Hf1.
  - exists w. split; [by rewrite (r_wnd _ _ _ _ _ _ Hr)|]. eapply of_kind_live; [apply Hr|done].
Qed.

Lemma built_count n k :
  adds KFence 2 (adds KSemaphore 4 (adds KCommandBuffer n (adds KMemory 2 (adds KBuffer 2 (adds KCommandPool 1 (adds KFramebuffer n
    (adds KPipeline 1 (adds KPipelineLayout 1 (adds KRenderPass 1 (adds KImageView n (adds KSwapchain 1 opened))))))))))) k =
  chain_count n base_count k.
Proof.
  unfold chain_count, adds. by destruct k; repeat (rewrite decide_True by done || rewrite decide_False by done).
Qed.

Lemma building_wp VertexID FragmentID a g K (Q : () → VkApp → gpu → Prop) :
  opening a g VertexID FragmentID → (∀ a' g', frame_state a' g' → wp d R K Q a' g') →
  wp d R (create_swap_chain d;; create_image_views d;; create_render_pass d;; create_pipeline d VertexID FragmentID;;
    create_frame_buffer d;; create_command_pool d;; create_buffers d;; create_command_buffers d;; create_sync_objs d;; K) Q a g.
Proof.
  intros [Hst Hvs Hfs Hvec Hcf Hfe (w & Hw & Hwk)] HK.
  eapply surface_wp; [done|exact Hst|set_solver|set_solver|]. intros imgs vws a1 g1 Hn Hvw1 Hst1 Hr1. pose proof (r_live _ _ _ _ _ _ Hr1) as Hl1.
  eapply drawing_wp; [done|exact Hst1|set_solver|set_solver|set_solver|exact Hvw1|by eapply of_kind_live|by eapply of_kind_live|].
  intros fbs a2 g2 Hvw2 Hfb2 Hst2 Hr2.
  apply wp_bind. eapply create_command_pool_wp; [done|exact Hst2|set_solver|]. intros a3 g3 Hst3 Hr3 Hpl3.
  apply wp_bind. eapply create_buffers_wp; [done|exact Hst3|set_solver|set_solver| |].
  { eapply rest_fences; [exact Hr3|]. eapply rest_fences; [exact Hr2|]. by eapply rest_fences. }
  intros a4 g4 Hst4 Hr4.
  assert (Hr24 : rest [CommandPool; IndexBufferMemory; IndexBuffer; VertexBufferMemory; VertexBuffer] [] a2 g2 a4 g4).
  { eapply rest_trans; (eapply rest_weaken; [eassumption|set_solver..]). }
  pose proof (views_rest _ _ _ _ _ _ _ _ Hvw2 Hr24 ltac:(set_solver) ltac:(set_solver) ltac:(set_solver)) as Hvw4.
  pose proof (framebuffers_rest _ _ _ _ _ _ _ _ Hfb2 Hr24 ltac:(set_solver)) as Hfb4.
  apply wp_bind. eapply create_command_buffers_wp; [done|exact Hst4|repeat constructor; set_solver|exact Hvw4|exact Hfb4|].
  intros cbs a5 g5 Hcm5 Hvw5 Hfb5 Hst5 Hr5.
  assert (Hr : rest (chain_fields ++ base_fields) [SwapChainImages; SwapChainImageViews; SwapChainFramebuffers; CommandBuffers] a g a5 g5).
  { eapply rest_trans; [eapply rest_weaken; [exact Hr1|set_solver..]|]. eapply rest_trans; [eapply rest_weaken; [exact Hr2|set_solver..]|].
    eapply rest_trans; (eapply rest_weaken; [eassumption|set_solver..]). }
  apply wp_bind. eapply create_sync_objs_wp; [done|exact Hst5|set_solver|apply Hvw5|by rewrite (r_frame _ _ _ _ _ _ Hr)| |].
  { intros v Hv. rewrite (r_vectors _ _ _ _ _ _ Hr); [done|]. set_unfold in Hv. by destruct_or! Hv; subst; set_solver. }
  intros avail fin fl a6 g6 Hsy Hy Hst6 Hm. apply HK.
  assert (Hst7 : stage a6 g6 (chain_fields ++ base_fields) (chain_count (length imgs) base_count)).
  { eapply stage_weaken; [exact Hst6|by apply (bool_decide_unpack _)|]. intros k.
    rewrite (fb_length _ _ _ _ Hfb5), (vw_length _ _ _ _ Hvw5). apply built_count. }
  destruct Hst7 as [S1 S2 S3 S4 S5]. split; [done|]. split; [done|].
  exists imgs, vws, fbs, cbs, avail, fin, fl, (replicate (length imgs) None).
  assert (Hh := sg_handles _ _ _ _ _ _ Hy). assert (Hv := sg_others _ _ _ _ _ _ Hy). split; try done.
  - by eapply views_more.
  - by eapply framebuffers_more.
  - by eapply commands_more.
  - apply Hy.
  - apply length_replicate.
  - intros f Hf. by apply elem_of_replicate_inv in Hf.
  - rewrite S3. constructor.
  - assert (Hpl : pooled a5 g5).
    { eapply pooled_rest; [|exact Hr5|set_solver..]. eapply pooled_rest; [exact Hpl3|exact Hr4|set_solver..]. }
    destruct Hpl as (dev & pool & Hd & Hp & Hl). exists dev, pool. rewrite Hh. split; [done|]. split; [done|].
    eapply lookup_weaken; [exact Hl|apply Hm].
  - exists w. split; [by rewrite (sg_wnd _ _ _ _ _ _ Hy), (r_wnd _ _ _ _ _ _ Hr)|]. eapply of_kind_live; [apply Hm|].
    eapply of_kind_live; [apply Hr|done].
Qed.

(** ** The loop of frames, whose calls count *)
Definition runs {A} (m : V A) (Q : A → VkApp → gpu → Prop) (w : world) : Prop :=
  ∃ o w' g', m w = Some (o, w') ∧ known w' g' ∧ (length (trace w) ≤ length (trace w'))%nat ∧
    match o with Ret x => Q x (this w') g' | Exc _ => ¬ calm d | Paused => ¬ (calm d ∧ visible d ∧ R)
    | Indeterminate => FramebufferResized (this w') = None end.

Lemma frames_bind {A B} (m : V A) (k : A → V B) P (Q : B → VkApp → gpu → Prop) w g :
  known w g → wp d R m P (this w) g →
  (∀ x w' g', known w' g' → (length (trace w) ≤ length (trace w'))%nat → P x (this w') g' → runs (k x) Q w') →
  runs (m ≫= k) Q w.
Proof.
  intros Hw Hm Hk. destruct (Hm w Hw eq_refl) as (o & w1 & g1 & Rm & Hw1 & Hl1 & Ho). unfold runs, mbind, V_bind. rewrite Rm.
  destruct o as [x|e| |]; [|by eexists _, w1, g1..]. destruct (Hk x w1 g1 Hw1 Hl1 Ho) as (o & w2 & g2 & Rk & Hw2 & Hl2 & Ho2).
  exists o, w2, g2. split; [done|]. split; [done|]. split; [lia|done].
Qed.

Lemma runs_noticed (K : () → V ()) (Q : () → VkApp → gpu → Prop) w g :
  known w g → (known (World (this w) (Noticed :: trace w) (next w)) g → runs (K ()) Q (World (this w) (Noticed :: trace w) (next w))) →
  runs (glfw d Noticed ≫= K) Q w.
Proof.
  intros Hw HK. pose proof Hw as [Hl Hn]. unfold runs, mbind, V_bind. destruct (wrapper_glfw d Noticed w) as [->|(Hc & e & r & ->)]; cbn.
  - destruct HK as (o & w2 & g2 & Rk & Hw2 & Hl2 & Ho2); [split; [cbn; by rewrite Hl|done]|]. exists o, w2, g2. cbn in Hl2.
    split; [done|]. split; [done|]. split; [lia|done].
  - eexists _, _, g. split; [done|]. split; [by apply known_refused|]. split; [cbn; lia|done].
Qed.

Lemma frame_state_resized a g b : frame_state a g → frame_state (set_FramebufferResized b a) g.
Proof.
  intros (Hs & Ha & imgs & vws & fbs & cbs & avail & fin & fl & inflight & Hrd). split; [done|]. split; [done|].
  exists imgs, vws, fbs, cbs, avail, fin, fl, inflight. by apply ready_resized.
Qed.

Lemma frames_runs fuel n : ∀ w g, known w g → frame_state (this w) g →
  (R → (∀ t, (fuel ≤ t)%nat → shouldClose d t = true) ∧ (0 < n)%nat ∧ (fuel < n + length (trace w))%nat) →
  runs (frames d fuel n) (λ _, frame_state) w.
Proof.
  induction n as [|n IH]; intros w g Hw Hfs HR; cbn [frames].
  { eexists _, w, g. split; [done|]. split; [done|]. split; [done|]. intros (_ & _ & H). destruct (HR H) as (_ & ? & _). lia. }
  destruct (shouldClose d (length (trace w))) eqn:Hclose.
  - apply (runs_noticed (λ _, if shouldClose d (length (trace w)) then _ else _) _ w g Hw). rewrite Hclose. intros Hw1.
    by eexists (Ret ()), _, g.
  - apply (runs_noticed (λ _, if shouldClose d (length (trace w)) then _ else _) _ w g Hw). rewrite Hclose. intros Hw1.
    eapply (frames_bind _ _ (λ _, frame_state) _ _ g); [done|apply handle_events_wp; intros b; by apply frame_state_resized|].
    intros _ w2 g2 Hw2 Hl2 Hfs2. eapply (frames_bind _ _ (λ _, frame_state)); [done|by apply render_frame_wp|].
    intros _ w3 g3 Hw3 Hl3 Hfs3. apply (IH w3 g3); [done|done|]. intros H. destruct (HR H) as (Hc & _ & Hlt). cbn in Hl2.
    split; [done|]. destruct (decide (fuel ≤ length (trace w))%nat) as [Hle|]; [by rewrite Hc in Hclose|]. lia.
Qed.

(** Some object exists, so some call has been made. *)
Lemma frame_state_called w g : known w g → frame_state (this w) g → (0 < length (trace w))%nat.
Proof.
  intros [Hl _] (_ & _ & imgs & vws & fbs & cbs & avail & fin & fl & inflight & Hrd).
  destruct (trace w) as [|e tr]; [|cbn; lia]. injection Hl as <-. destruct (rd_window _ _ _ _ _ _ _ _ _ _ Hrd) as (x & _ & Hx). done.
Qed.

Lemma run_wp fuel a g (Q : () → VkApp → gpu → Prop) :
  (R → (0 < fuel)%nat ∧ ∀ t, (fuel ≤ t)%nat → shouldClose d t = true) → frame_state a g →
  (∀ a' g', frame_state a' g' → pending g' = [] → Q () a' g') → wp d R (run d fuel) Q a g.
Proof.
  intros HR Hfs HQ. apply wp_bind. intros w Hw <-. destruct (frames_runs fuel fuel w g Hw Hfs) as (o & w' & g' & Hrun & Hw' & Hl & Ho).
  { intros H. destruct (HR H) as [Hf Hc]. split; [done|]. split; [done|]. pose proof (frame_state_called w g Hw Hfs). lia. }
  exists o, w', g'. split; [done|]. split; [done|]. split; [done|]. destruct o as [[]| | |]; [|done..].
  eapply wp_call; [by apply wrapper_unchecked|auto|done|]. apply HQ; [|done].
  destruct Ho as (Hs & Ha & imgs & vws & fbs & cbs & avail & fin & fl & inflight & Hrd). split; [done|]. split; [done|].
  exists imgs, vws, fbs, cbs, avail, fin, fl, inflight. eapply (ready_same _ g'); [exact Hrd|done|done| |constructor].
  eapply Forall_impl; [apply (sy_settled _ _ _ _ _ (rd_sync _ _ _ _ _ _ _ _ _ _ Hrd))|]. apply settled_quiesce.
Qed.

Lemma session_wp fuel :
  (R → (0 < fuel)%nat ∧ ∀ t, (fuel ≤ t)%nat → shouldClose d t = true) →
  wp d R (session d fuel) (λ _ a g, frame_state a g ∧ pending g = []) (this start) gpu0.
Proof.
  intros HR. apply (opening_wp (λ VertexID FragmentID, create_swap_chain d;; _)). intros VertexID FragmentID a g Hop.
  eapply building_wp; [exact Hop|]. intros a' g' Hfs. by apply run_wp.
Qed.

Lemma known_start : known start gpu0.
Proof. by split. Qed.
End start.

(** ** The end *)
Section end_.
Variable d : driver.
Hypothesis Hdoc : answers d.
Hypothesis Hcalm : calm d.
Implicit Types (a : VkApp) (g : gpu).

(** What the destructor finds when the swapchain and what depends on it are destroyed. *)
Record last_state a g dev i s pool wn : Prop := {
  la_census : ∀ k, k ≠ KImage → census g k = base_count k;
  la_pending : pending g = [];
  la_device : handles a Device = Some dev ∧ of_kind g KDevice dev;
  la_instance : handles a Instance = Some i ∧ of_kind g KInstance i;
  la_surface : handles a Surface = Some s ∧ of_kind g KSurface s;
  la_pool : live g !! pool = Some (KCommandPool, [dev]);
  la_window : Wnd a = Some wn ∧ of_kind g KWindow wn }.

Lemma cleanup_last R a g :
  frame_state a g → pending g = [] →
  wp d R cleanup_swap_chain (λ _ a g, ∃ dev i s pool wn, last_state a g dev i s pool wn) a g.
Proof.
  intros (Hsg & Hac & imgs & vws & fbs & cbs & avail & fin & fl & inflight & [F1 F2 F5 F6 F7 F8 F9 F10 F11 F12 F13 Fp (w & Hw & Hwk)]) Hp.
  eapply (cleanup_swap_chain_wp d R base_count); [by split|exact F6|exact F7|exact F8|].
  intros g1 [S1 S2 S3 S4 S5] Hk1. destruct (S1 Instance) as (i & Hi & Hik); [set_solver|].
  destruct (S1 Surface) as (s & Hs & Hsk); [set_solver|]. destruct (S1 Device) as (dev & Hd & Hdk); [set_solver|].
  destruct Fp as (dev' & pool & Hd' & _ & Hl). assert (dev' = dev) as -> by congruence.
  exists dev, i, s, pool, w. split; try done.
  - by apply Hk1; [set_solver|].
  - split; [done|]. by apply (kept_kind _ _ _ _ _ Hk1); [set_solver|].
Qed.

Definition last_calls (dev i s wn : handle) : list event :=
  [Noticed; Destroyed KWindow wn; Destroyed KInstance i; Destroyed KSurface s; Destroyed KDevice dev].

Lemma ending w w1 g dev i s pool wn :
  cleanup_swap_chain w = Some (Ret (), w1) → last_state (this w1) g dev i s pool wn →
  (destructor;; Cleanup d;; mret (@None error)) w =
    Some (Ret None, World (this w1) (last_calls dev i s wn ++ trace w1) (next w1)).
Proof.
  intros Hc [_ _ [Hd _] [Hi _] [Hs _] _ [Hw _]].
  unfold destructor, Cleanup, load, mbind, V_bind, app, emit, v_option, ask. rewrite Hc. cbn.
  rewrite Hd. cbn. rewrite Hi. cbn. rewrite Hs. cbn. rewrite Hw. cbn.
  by rewrite (calm_glfw d Hcalm).
Qed.

Lemma main_run fuel :
  visible d → (0 < fuel)%nat → (∀ t, (fuel ≤ t)%nat → shouldClose d t = true) →
  ∃ w, main d fuel start = Some (Indeterminate, w) ∧ FramebufferResized (this w) = None ∨
    main d fuel start = Some (Ret None, w) ∧ ∃ g cs dev i s pool wn, trace w = last_calls dev i s wn ++ cs ∧
      legal cs = Some g ∧ last_state (this w) g dev i s pool wn.
Proof.
  intros Hvis Hf Hc. destruct (session_wp d True Hdoc fuel (λ _, conj Hf Hc) start known_start eq_refl)
    as (o & w & g & Hs & Hw & Hl & Ho).
  unfold main. rewrite Hs. destruct o as [[]| | |]; [|by destruct Ho|by destruct Ho|exists w; by left].
  destruct Ho as [Hfs Hp]. destruct (cleanup_last True _ _ Hfs Hp w Hw eq_refl) as (o & w1 & g1 & Hr & [Hl1 _] & _ & Ho).
  destruct o as [[]| | |]; [|by destruct Ho|by destruct Ho|].
  - destruct Ho as (dev & i & s & pool & wn & Hlast). eexists. right. split; [exact (ending w w1 g1 dev i s pool wn Hr Hlast)|].
    by exists g1, (trace w1), dev, i, s, pool, wn.
  - exists w1. left. split; [|done]. unfold destructor, mbind, V_bind. by rewrite Hr.
Qed.

(** The device still has a child. *)
Lemma device_not_childless a g dev i s pool wn :
  last_state a g dev i s pool wn → step g (Destroyed KDevice dev) = None.
Proof.
  intros Hl. cbn. unfold destroy, allow. apply decide_False. intros (_ & _ & _ & Hch).
  specialize (Hch ltac:(right; left) pool _ (la_pool _ _ _ _ _ _ _ Hl)). apply Hch. left.
Qed.
End end_.
