(* ===== verification/VkProps.v ===== *)
(** * The properties of the Vulkan program

    [src/10-3d/vk-simplest.cc] against the rules of [Vk], with any driver that answers as
    documented; what is assumed besides is named in each theorem. *)

From stdpp Require Import functions.
From S2P Require Import Prelude Vk VkProgram VkLogic VkEvents VkStages VkCleanup VkFrames VkMain.

(** A driver: a device with two families of queues, three images, and an end after some calls. *)
Definition sample_capabilities : SurfaceCapabilities := {|
  cap_minImageCount := 2; cap_maxImageCount := 8; minImageExtent := (1, 1); maxImageExtent := (4096, 4096); currentTransform := 1 |}.
Definition sample : driver := {|
  vk := λ _, VK_SUCCESS; ignored := λ _, VK_SUCCESS; glfw_succeeds := λ _, true; deviceCount := λ _, 1; queueFamilies := [4; 1];
  presentSupport := λ i, i =? 0; capabilities := λ _, sample_capabilities; formats := λ _, [(44, 0); (50, 0)];
  presentModes := λ _, [0; 2]; framebufferSize := λ _, (600, 600); imageCount := λ _, 3%nat; memoryTypes := [1; 6];
  memoryRequirements := λ _, (256, 3);
  acquireImage := λ t n, (if (t mod 7 =? 0)%nat then VK_ERROR_OUT_OF_DATE_KHR else VK_SUCCESS, (t mod n)%nat);
  presentImage := λ t, if (t mod 5 =? 0)%nat then VK_SUBOPTIMAL_KHR else VK_SUCCESS; resized := λ t, (t <? 120)%nat || (t mod 11 =? 0)%nat;
  shouldClose := λ t, (300 <=? t)%nat; files := λ _, Some [3; 2; 35; 7] |}.

(** One of three images after another; the window is resized at the start only. *)
Definition steady (start : nat) : driver := {|
  vk := λ _, VK_SUCCESS; ignored := λ _, VK_SUCCESS; glfw_succeeds := λ _, true; deviceCount := λ _, 1; queueFamilies := [1];
  presentSupport := λ i, true; capabilities := λ _, sample_capabilities; formats := λ _, [(50, 0)];
  presentModes := λ _, [2]; framebufferSize := λ _, (600, 600); imageCount := λ _, 3%nat; memoryTypes := [1; 6];
  memoryRequirements := λ _, (256, 3); acquireImage := λ t n, (VK_SUCCESS, (t `div` 8 mod n)%nat);
  presentImage := λ t, VK_SUCCESS; resized := λ t, (t <? start)%nat;
  shouldClose := λ t, (200 <=? t)%nat; files := λ _, Some [3; 2; 35; 7] |}.

Lemma sample_documented : documented sample.
Proof. split; try done; [|cbn; lia]. intros t n Hn. cbn. apply Nat.mod_upper_bound. lia. Qed.

Lemma sample_calm : calm sample.
Proof.
  split; try done.
  - by exists 1%nat, 1.
  - exists 0%nat. split; [cbn; lia|done].
  - intros t properties Hp. set_unfold in Hp. by destruct_or! Hp; subst.
  - intros t n. cbn. unfold usable. case_match; tauto.
  - intros t. cbn. unfold usable. case_match; tauto.
Qed.

Lemma sample_visible : visible sample.
Proof. done. Qed.

Lemma sample_sensible t : sensible (capabilities sample t).
Proof. unfold sensible. cbn. lia. Qed.

(** C17: suppose that the calls whose result the program does not look at succeed
    ([unchecked_succeed]: glfwInit, binding and mapping memory, the calls that copy a buffer,
    waiting for and resetting fences, waiting for the device). Then, whatever a driver answers
    to the others within its documentation (they fail, the swapchain goes out of date, the
    window is resized or minimised, at any time), the program has a defined behaviour up to
    the end of its session, for any number of frames: it reads no unassigned handle and no
    element outside a vector, and every call it makes keeps the rules of [Vk]; the exception
    is the flag [FramebufferResized], which is not initialised: the run stops with
    [Indeterminate] where the flag is read while nothing has assigned it. So it creates
    from and uses what is alive; destroys and records nothing that executes; waits for no
    fence that nothing signals; acquires with a free semaphore; and submits, for the image it
    has acquired, commands that are recorded for that image and not executing, with a fence
    that has been reset. It throws only if a call fails, an image cannot be acquired or
    presented, there is not exactly one device, no family of queues draws or none presents,
    the surface has no mode of presentation, no type of memory fits, or a shader file is
    missing. What presentation does with the semaphore it waits for is not part of these
    rules. *)
Theorem session_keeps_the_rules d fuel :
  documented d → unchecked_succeed d →
  ∃ o w, session d fuel start = Some (o, w) ∧ is_Some (legal (trace w)) ∧ (calm d → ∀ e, o ≠ Exc e) ∧
    (o = Indeterminate → FramebufferResized (this w) = None).
Proof.
  intros Hd Hu. destruct (session_wp d False ltac:(by split) fuel ltac:(done) start known_start eq_refl) as (o & w & g & Hs & [Hl _] & _ & Ho).
  exists o, w. split; [done|]. split; [by eexists|]. split; [intros Hc e ->; by apply Ho|by intros ->].
Qed.
Lemma session_keeps_the_rules_witness :
  ∃ o w, session sample 40 start = Some (o, w) ∧ is_Some (legal (trace w)) ∧ (calm sample → ∀ e, o ≠ Exc e) ∧
    (o = Indeterminate → FramebufferResized (this w) = None).
Proof. apply (session_keeps_the_rules sample 40 sample_documented (λ _, eq_refl)). Defined.

(** The semaphore of a frame is signalled again while a presentation may still wait for it. *)
Example semaphore_signalled_again :
  ∃ o w, session (steady 100) 60 start = Some (o, w) ∧ is_Some (legal (trace w)) ∧ signals_free (trace w) = false.
Proof. eexists _, _. split; [vm_compute; reflexivity|]. split; [vm_compute; by eexists|by vm_compute]. Qed.

(** C18: suppose that no call fails, whether its result is looked at or not, and images can be
    acquired and presented (though the swapchain may go out of date); that there is one
    device, with a family of queues that draws and one that presents; that the surface has a
    mode of presentation, the memory has the types that are needed, and the files of the
    shaders exist; that the window is never minimised, and is to be closed after some number
    of calls. Then the program comes to read [FramebufferResized] while nothing has assigned
    it, or it ends normally. In this case its last calls destroy the device, the surface,
    the instance and the window; all calls before keep the rules and leave nothing executing.
    But the device is destroyed before what was created from it, which breaks a rule: at that
    time there are still, besides the device, surface, instance and window, exactly two shader
    modules, the command pool, two buffers with their memory, four semaphores and two fences,
    which are never destroyed. *)
Theorem main_ends d fuel :
  documented d → unchecked_succeed d → calm d → visible d → (0 < fuel)%nat → (∀ t, (fuel ≤ t)%nat → shouldClose d t = true) →
  (∃ w, main d fuel start = Some (Indeterminate, w) ∧ FramebufferResized (this w) = None) ∨
  ∃ w g cs dev i s pool wn, main d fuel start = Some (Ret None, w) ∧
    trace w = [Noticed; Destroyed KWindow wn; Destroyed KInstance i; Destroyed KSurface s; Destroyed KDevice dev] ++ cs ∧
    legal cs = Some g ∧ pending g = [] ∧ (∀ k, k ≠ KImage → census g k = base_count k) ∧
    of_kind g KDevice dev ∧ of_kind g KSurface s ∧ of_kind g KInstance i ∧ of_kind g KWindow wn ∧
    live g !! pool = Some (KCommandPool, [dev]) ∧ step g (Destroyed KDevice dev) = None.
Proof.
  intros Hd Hu Hcalm Hv Hf Hc.
  destruct (main_run d ltac:(by split) Hcalm fuel Hv Hf Hc) as (w & [?|(Hm & g & cs & dev & i & s & pool & wn & Ht & Hl & Hst)]);
    [by left; exists w|right].
  exists w, g, cs, dev, i, s, pool, wn. split; [done|]. split; [done|]. split; [done|].
  pose proof (device_not_childless _ _ _ _ _ _ _ Hst) as Hbroken. destruct Hst as [? ? [] [] [] ? []]. done.
Qed.
Lemma main_ends_witness :
  (∃ w, main sample 300 start = Some (Indeterminate, w) ∧ FramebufferResized (this w) = None) ∨
  ∃ w g cs dev i s pool wn, main sample 300 start = Some (Ret None, w) ∧
    trace w = [Noticed; Destroyed KWindow wn; Destroyed KInstance i; Destroyed KSurface s; Destroyed KDevice dev] ++ cs ∧
    legal cs = Some g ∧ pending g = [] ∧ (∀ k, k ≠ KImage → census g k = base_count k) ∧
    of_kind g KDevice dev ∧ of_kind g KSurface s ∧ of_kind g KInstance i ∧ of_kind g KWindow wn ∧
    live g !! pool = Some (KCommandPool, [dev]) ∧ step g (Destroyed KDevice dev) = None.
Proof.
  apply (main_ends sample 300 sample_documented (λ _, eq_refl) sample_calm sample_visible); [lia|]. intros t Ht. by apply Nat.leb_le.
Defined.

(** Both ends happen: a driver that presents as it should leads to the indeterminate flag. *)
Example sample_ends : ∃ w, main sample 300 start = Some (Ret None, w).
Proof. eexists. vm_compute. reflexivity. Qed.
Example steady_reads_indeterminate : ∃ w, main (steady 0) 60 start = Some (Indeterminate, w).
Proof. eexists. vm_compute. reflexivity. Qed.

(** C19: what the program asks for is what the driver has just offered. When the capabilities
    of the surface make sense ([sensible]: limits in order), then in every session, for any
    driver and up to any point, every swapchain, at the start and after each change of the
    surface, has an extent within the limits, a number of images that is not below the minimum
    nor above the maximum (where there is one), a format and a mode of presentation of those
    that the surface has answered in the calls right before, and two distinct families when it
    is shared; the device is created with distinct families; and memory has the size and a
    type that the requirements of the buffer just created allow, visible to the host and
    coherent when the buffer is copied from and local to the device otherwise. A session has
    a defined outcome whenever the driver answers as documented and the calls whose result is
    not looked at succeed. *)
Theorem requests_are_supported d fuel :
  (∀ t, sensible (capabilities d t)) →
  (∀ o w, session d fuel start = Some (o, w) → each (accepted d) (trace w)) ∧
  (documented d → unchecked_succeed d → is_Some (session d fuel start)).
Proof.
  intros Hs. split.
  - intros o w Hr. by destruct (session_emits d Hs fuel start o w Hr) as [Hp _].
  - intros Hd Hu. destruct (session_wp d False ltac:(by split) fuel ltac:(done) start known_start eq_refl) as (o & w & g & Hr & _).
    by eexists.
Qed.
Lemma requests_are_supported_witness :
  ∃ o w, session sample 40 start = Some (o, w) ∧ each (accepted sample) (trace w).
Proof.
  destruct (requests_are_supported sample 40 sample_sensible) as [Hall Hdef].
  destruct (Hdef sample_documented (λ _, eq_refl)) as [[o w] Hr]. exists o, w. split; [exact Hr|exact (Hall o w Hr)].
Defined.
