(* ===== verification/Gl.v ===== *)
(** * What OpenGL does with the calls of a program

    The specification side of [src/10-3d/ogl-motion.cc] and [ogl-frag-shader.cc]: the calls as
    events, and the state of a context that they set, as the specification of OpenGL says. A
    call that generates an error changes nothing and is remembered; a call without a current
    context has no meaning. Nothing is drawn here: what a draw call reads is. *)

From S2P Require Import Prelude Lingeo.

Abbreviation name := nat.

Definition GL_DEPTH_TEST : Z := 2929.
Definition GL_CULL_FACE : Z := 2884.
Definition GL_LINE : Z := 6913.
Definition GL_FILL : Z := 6914.
Definition GL_ARRAY_BUFFER : Z := 34962.
Definition GL_ELEMENT_ARRAY_BUFFER : Z := 34963.

(** The contents of a buffer: floats, each an integer number of halves, of four bytes; or bytes. *)
Inductive data := Floats (l : list Z) | Bytes (l : list Z).
Definition sizeof (d : data) : Z := match d with Floats l => 4 * Z.of_nat (length l) | Bytes l => Z.of_nat (length l) end.

(** [Glfw] is a call of GLFW that does not concern the context. A generated name, and whether
    a program could be linked, are part of the event. *)
Inductive call :=
| Glfw
| MakeContextCurrent
| Terminate
| Enable (cap : Z)
| Disable (cap : Z)
| PolygonMode (mode : Z)
| DepthFunc (f : Z)
| ClearColor
| Clear (mask : Z)
| Viewport (width height : Z)
| CreateShader (s : name) (type : Z)
| ShaderSource (s : name) (code : string)
| CompileShader (s : name)
| GetShaderiv (s : name) (pname : Z)
| GetShaderInfoLog (s : name)
| CreateProgram (p : name)
| AttachShader (p s : name)
| LinkProgram (p : name) (linked : bool)
| GetProgramiv (p : name) (pname : Z)
| GetProgramInfoLog (p : name)
| UseProgram (p : name)
| Uniform (p : name) (location : string) (values : list float)
| GenVertexArray (v : name)
| BindVertexArray (v : name)
| DeleteVertexArray (v : name)
| GenBuffer (b : name)
| BindBuffer (target : Z) (b : name)
| DeleteBuffer (b : name)
| BufferData (target : Z) (d : data)
| VertexAttribPointer (index size stride offset : Z)
| EnableVertexAttribArray (index : Z)
| DrawElements (mode count : Z)
| DrawArrays (mode first count : Z).

Record attribute := { a_size : Z; a_stride : Z; a_offset : Z; a_buffer : name }.

(** A vertex array object: the buffer of indices, the attributes, and which are enabled. *)
Record vertex_array := { elements : name; attributes : gmap Z attribute; enabled : gset Z }.
Definition no_attributes : vertex_array := {| elements := 0%nat; attributes := ∅; enabled := ∅ |}.

(** A program is in the state [Some true] when it has been linked. The name 0 is no object. *)
Record gl := Gl {
  current : bool;
  caps : gset Z;
  polygonMode : Z;
  shaders : gset name;
  programs : gmap name bool;
  arrays : gmap name vertex_array;
  buffers : gmap name data;
  vao : name;
  arrayBuffer : name;
  program : name;
  errors : list call }.

Definition gl0 : gl := Gl false ∅ GL_FILL ∅ ∅ ∅ ∅ 0 0 0 [].

Definition set_current x s := Gl x (caps s) (polygonMode s) (shaders s) (programs s) (arrays s) (buffers s) (vao s) (arrayBuffer s) (program s) (errors s).
Definition set_caps x s := Gl (current s) x (polygonMode s) (shaders s) (programs s) (arrays s) (buffers s) (vao s) (arrayBuffer s) (program s) (errors s).
Definition set_polygonMode x s := Gl (current s) (caps s) x (shaders s) (programs s) (arrays s) (buffers s) (vao s) (arrayBuffer s) (program s) (errors s).
Definition set_shaders x s := Gl (current s) (caps s) (polygonMode s) x (programs s) (arrays s) (buffers s) (vao s) (arrayBuffer s) (program s) (errors s).
Definition set_programs x s := Gl (current s) (caps s) (polygonMode s) (shaders s) x (arrays s) (buffers s) (vao s) (arrayBuffer s) (program s) (errors s).
Definition set_arrays x s := Gl (current s) (caps s) (polygonMode s) (shaders s) (programs s) x (buffers s) (vao s) (arrayBuffer s) (program s) (errors s).
Definition set_buffers x s := Gl (current s) (caps s) (polygonMode s) (shaders s) (programs s) (arrays s) x (vao s) (arrayBuffer s) (program s) (errors s).
Definition set_vao x s := Gl (current s) (caps s) (polygonMode s) (shaders s) (programs s) (arrays s) (buffers s) x (arrayBuffer s) (program s) (errors s).
Definition set_arrayBuffer x s := Gl (current s) (caps s) (polygonMode s) (shaders s) (programs s) (arrays s) (buffers s) (vao s) x (program s) (errors s).
Definition set_program x s := Gl (current s) (caps s) (polygonMode s) (shaders s) (programs s) (arrays s) (buffers s) (vao s) (arrayBuffer s) x (errors s).

Definition error (c : call) (s : gl) : gl :=
  Gl (current s) (caps s) (polygonMode s) (shaders s) (programs s) (arrays s) (buffers s) (vao s) (arrayBuffer s) (program s) (c :: errors s).

(** The bound vertex array. *)
Definition bound (s : gl) : option vertex_array := arrays s !! vao s.

(** [size] floats of an attribute for the vertex [i]. *)
Definition fetch (s : gl) (a : attribute) (i : Z) : option (list Z) :=
  match buffers s !! a_buffer a with
  | Some (Floats l) =>
    let first := (a_offset a + i * a_stride a) / 4 in
    if (0 <=? a_offset a + i * a_stride a) && ((a_offset a + i * a_stride a) mod 4 =? 0) &&
       (first + a_size a <=? Z.of_nat (length l))
    then Some (take (Z.to_nat (a_size a)) (drop (Z.to_nat first) l)) else None
  | _ => None
  end.

(** The values of an enabled attribute for some vertices. *)
Definition fetch_all (s : gl) (index : Z) (vertices : list Z) : option (list (list Z)) :=
  v ← bound s; a ← attributes v !! index;
  if decide (index ∈ enabled v) then mapM (fetch s a) vertices else None.

(** The vertices of [DrawElements] with indices in bytes, and of [DrawArrays]. *)
Definition drawn_elements (s : gl) (count : Z) : option (list Z) :=
  v ← bound s;
  match buffers s !! elements v with
  | Some (Bytes l) => if count <=? Z.of_nat (length l) then Some (take (Z.to_nat count) l) else None
  | _ => None
  end.
Definition drawn (s : gl) (c : call) : option (list Z) :=
  match c with
  | DrawElements _ count => drawn_elements s count
  | DrawArrays _ first count => Some (Z.add first <$> (Z.of_nat <$> seq 0 (Z.to_nat count)))
  | _ => None
  end.

Definition on_bound (f : vertex_array → vertex_array) (c : call) (s : gl) : gl :=
  match bound s with Some v => set_arrays (<[vao s := f v]> (arrays s)) s | None => error c s end.

Definition buffer_of (s : gl) (target : Z) : option name :=
  if target =? GL_ARRAY_BUFFER then Some (arrayBuffer s)
  else if target =? GL_ELEMENT_ARRAY_BUFFER then elements <$> bound s else None.

(** A call in a context. *)
Definition effect (c : call) (s : gl) : gl :=
  match c with
  | Enable cap => set_caps ({[cap]} ∪ caps s) s
  | Disable cap => set_caps (caps s ∖ {[cap]}) s
  | PolygonMode mode => set_polygonMode mode s
  | CreateShader h _ => set_shaders ({[h]} ∪ shaders s) s
  | ShaderSource h _ | CompileShader h | GetShaderiv h _ | GetShaderInfoLog h =>
    if decide (h ∈ shaders s) then s else error c s
  | CreateProgram p => set_programs (<[p := false]> (programs s)) s
  | AttachShader p h => if decide (is_Some (programs s !! p) ∧ h ∈ shaders s) then s else error c s
  | LinkProgram p linked => if decide (is_Some (programs s !! p)) then set_programs (<[p := linked]> (programs s)) s else error c s
  | GetProgramiv p _ | GetProgramInfoLog p => if decide (is_Some (programs s !! p)) then s else error c s
  | UseProgram p => if decide (programs s !! p = Some true) then set_program p s else error c s
  | Uniform p _ _ => if decide (programs s !! p = Some true ∧ program s = p) then s else error c s
  | GenVertexArray v => set_arrays (<[v := no_attributes]> (arrays s)) s
  | BindVertexArray v => if decide (is_Some (arrays s !! v)) then set_vao v s else error c s
  | DeleteVertexArray v => set_vao (if decide (vao s = v) then 0%nat else vao s) (set_arrays (delete v (arrays s)) s)
  | GenBuffer b => set_buffers (<[b := Bytes []]> (buffers s)) s
  | BindBuffer target b =>
    if target =? GL_ARRAY_BUFFER then set_arrayBuffer b s
    else if target =? GL_ELEMENT_ARRAY_BUFFER then
      on_bound (λ v, {| elements := b; attributes := attributes v; enabled := enabled v |}) c s
    else error c s
  | DeleteBuffer b => set_buffers (delete b (buffers s)) s
  | BufferData target d =>
    match buffer_of s target with
    | Some b => if decide (is_Some (buffers s !! b)) then set_buffers (<[b := d]> (buffers s)) s else error c s
    | None => error c s
    end
  | VertexAttribPointer index size stride offset =>
    on_bound (λ v, {| elements := elements v;
      attributes := <[index := {| a_size := size; a_stride := stride; a_offset := offset; a_buffer := arrayBuffer s |}]> (attributes v);
      enabled := enabled v |}) c s
  | EnableVertexAttribArray index =>
    on_bound (λ v, {| elements := elements v; attributes := attributes v; enabled := {[index]} ∪ enabled v |}) c s
  | _ => s
  end.

Definition step (c : call) (s : gl) : option gl :=
  match c with
  | Glfw => Some s
  | MakeContextCurrent => Some (set_current true s)
  | Terminate => Some (set_current false s)
  | _ => if current s then Some (effect c s) else None
  end.

(** The state after some calls, the newest first. *)
Fixpoint state_after (calls : list call) : option gl :=
  match calls with [] => Some gl0 | c :: calls => s ← state_after calls; step c s end.

(** Every draw call reads, for each of its vertices, the attributes in [reads]. *)
Fixpoint draws (Draw : gl → call → Prop) (calls : list call) : Prop :=
  match calls with
  | [] => True
  | c :: calls =>
    draws Draw calls ∧
    match c with
    | DrawElements _ _ | DrawArrays _ _ _ => ∃ s, state_after calls = Some s ∧ Draw s c
    | _ => True
    end
  end.
