(* ===== verification/Motion.v ===== *)
(** * A cube and a camera: [src/10-3d/ogl-motion.cc]; a square: [ogl-frag-shader.cc]

    The programs as the calls of OpenGL and GLFW they make, with the state of the camera that
    the events of mouse and keyboard change. An execution is given by the events that each
    [glfwPollEvents] delivers; the window is closed after the last of them. Floating point is
    that of [Lingeo]; trigonometry and the matrices of GLM are parameters. A variable that is
    not initialised holds [None], and a run that reads it has no result. *)

From Stdlib Require Import SpecFloat.
From S2P Require Import Prelude Lingeo Gl.

Definition GL_DEPTH_CLAMP : Z := 34383.
Definition GL_LESS : Z := 513.
Definition GL_QUADS : Z := 7.
Definition GL_TRIANGLE_STRIP : Z := 5.
Definition GL_VERTEX_SHADER : Z := 35633.
Definition GL_FRAGMENT_SHADER : Z := 35632.
Definition GL_COMPILE_STATUS : Z := 35713.
Definition GL_LINK_STATUS : Z := 35714.
Definition GL_INFO_LOG_LENGTH : Z := 35716.
Definition GL_COLOR_BUFFER_BIT : Z := 16384.
Definition GL_DEPTH_BUFFER_BIT : Z := 256.
Definition GLFW_RELEASE : Z := 0.
Definition GLFW_PRESS : Z := 1.
Definition GLFW_REPEAT : Z := 2.
Definition GLFW_KEY_L : Z := 76.
Definition GLFW_KEY_S : Z := 83.
Definition GLFW_KEY_W : Z := 87.
Definition GLFW_KEY_DOWN : Z := 264.
Definition GLFW_KEY_UP : Z := 265.
Definition GLFW_MOUSE_BUTTON_LEFT : Z := 0.

Definition SZX : Z := 600.
Definition SZY : Z := 600.
Definition sizeof_GLfloat : Z := 4.

(** A [float] literal [n / d]. *)
Definition ratio (n d : Z) : float := FP.to_float (FP.ddiv (FP.of_Z n) (FP.of_Z d)).
Definition int_to_float (z : Z) : float := FP.to_float (FP.of_Z z).
Definition Sensitivity : float := ratio 2 10.
Definition RadiusDelta : float := ratio 2 100.
Definition limit : float := int_to_float 89.

(** Positions and colours of the corners of the cube, in halves. *)
Definition Vertices : list Z :=
  [-1; 1; 1; 0; 0; 0;
   1; 1; 1; 0; 2; 0;
   1; -1; 1; 2; 0; 0;
   -1; -1; 1; 2; 2; 0;
   -1; 1; -1; 2; 2; 0;
   1; 1; -1; 2; 0; 0;
   1; -1; -1; 0; 2; 0;
   -1; -1; -1; 0; 0; 0].
Definition Indices : list Z :=
  [0; 3; 2; 1; 4; 7; 3; 0; 1; 2; 6; 5; 4; 0; 1; 5; 3; 7; 6; 2; 5; 6; 7; 4].

(** ** The environment

    [glfw_succeeds] answers whether a call of GLFW succeeds, by the number of calls made; the
    callback of errors throws. [perspective] has a result for the aspects that GLM accepts. *)
Record driver := {
  glfw_succeeds : nat → bool;
  glad_loads : bool;
  files : string → option string;
  compiles : string → bool;
  links : bool;
  time : nat → float;
  cursor : nat → double * double;
  sin : float → float;
  cos : float → float;
  radians : float → float;
  lookAt : float * float * float → list float;
  perspective : float → float → float → float → option (list float) }.

Inductive input :=
| Key (key action : Z)
| MouseMove (xpos ypos : double)
| MouseButton (button action : Z)
| Resize (width height : Z).

(** ** The state *)
Record Renderer := MkRenderer {
  ProgID : name; VAO : name; VBO : name; IBO : name;
  HorizontalAngle : float; VerticalAngle : float; Radius : float;
  FoV : float; Aspect : float; Near : float; Far : float;
  LeftPress : bool; OldX : option double; OldY : option double;
  LineMode : bool }.

Definition set_Radius x r := MkRenderer (ProgID r) (VAO r) (VBO r) (IBO r) (HorizontalAngle r) (VerticalAngle r) x (FoV r) (Aspect r)
  (Near r) (Far r) (LeftPress r) (OldX r) (OldY r) (LineMode r).
Definition set_angles h v r := MkRenderer (ProgID r) (VAO r) (VBO r) (IBO r) h v (Radius r) (FoV r) (Aspect r)
  (Near r) (Far r) (LeftPress r) (OldX r) (OldY r) (LineMode r).
Definition set_Aspect x r := MkRenderer (ProgID r) (VAO r) (VBO r) (IBO r) (HorizontalAngle r) (VerticalAngle r) (Radius r) (FoV r) x
  (Near r) (Far r) (LeftPress r) (OldX r) (OldY r) (LineMode r).
Definition set_LeftPress x r := MkRenderer (ProgID r) (VAO r) (VBO r) (IBO r) (HorizontalAngle r) (VerticalAngle r) (Radius r) (FoV r)
  (Aspect r) (Near r) (Far r) x (OldX r) (OldY r) (LineMode r).
Definition set_Old x y r := MkRenderer (ProgID r) (VAO r) (VBO r) (IBO r) (HorizontalAngle r) (VerticalAngle r) (Radius r) (FoV r)
  (Aspect r) (Near r) (Far r) (LeftPress r) (Some x) (Some y) (LineMode r).
Definition set_LineMode x r := MkRenderer (ProgID r) (VAO r) (VBO r) (IBO r) (HorizontalAngle r) (VerticalAngle r) (Radius r) (FoV r)
  (Aspect r) (Near r) (Far r) (LeftPress r) (OldX r) (OldY r) x.

Record world := World { TheRenderer : option Renderer; calls : list call; next : name }.

Definition M (A : Type) : Type := X world A.
Definition emit (c : call) : M () := λ w, Some (Ok (), World (TheRenderer w) (c :: calls w) (next w)).
Definition ask {A} (f : nat → A) : M A := λ w, Some (Ok (f (length (calls w))), w).
Definition fresh : M name := λ w, Some (Ok (next w), World (TheRenderer w) (calls w) (S (next w))).
(** [TheRenderer->] *)
Definition renderer : M Renderer := λ w, match TheRenderer w with Some r => Some (Ok r, w) | None => None end.
Definition put_renderer (r : option Renderer) : M () := λ w, Some (Ok (), World r (calls w) (next w)).
Definition m_option {A} (o : option A) : M A := λ w, match o with Some a => Some (Ok a, w) | None => None end.
(** [glGetShaderiv(s, pname, &v)], where [v] holds [old] and [value] is what is asked for: a
    call that is an error leaves [v] as it is. *)
Definition getShaderiv (s : name) (pname value : Z) (old : option Z) : M (option Z) := λ w,
  g ← state_after (calls w);
  Some (Ok (if decide (s ∈ shaders g) then Some value else old), World (TheRenderer w) (GetShaderiv s pname :: calls w) (next w)).
Fixpoint each {A} (body : A → M ()) (l : list A) : M () :=
  match l with [] => mret () | a :: l => body a;; each body l end.
(** [m], and then [c] also if it throws. *)
Definition finally (m : M ()) (c : call) : M () := λ w,
  match m w with
  | Some (Ok _, w) => emit c w
  | Some (Throw e, w) => match emit c w with Some (_, w) => Some (Throw e, w) | None => None end
  | None => None
  end.

Section program.
Variable d : driver.

Definition glfw : M () :=
  ok ← ask (glfw_succeeds d); emit Glfw;; if ok : bool then mret () else throw (runtime_error "GLFW").

Definition initialize_window : M () :=
  emit Glfw;;
  glfw;;
  glfw;;
  glfw;; emit MakeContextCurrent;;
  glfw;;
  if glad_loads d then mret () else throw (runtime_error "Failed to initialize GLAD").

Definition readFile (Path : string) : M string :=
  match files d Path with Some Code => mret Code | None => throw (runtime_error "readFile") end.

Definition installShader (ShaderCode : string) (ShaderType : Z) : M name :=
  ShaderID ← fresh; emit (CreateShader ShaderID ShaderType);;
  emit (ShaderSource ShaderID ShaderCode);;
  emit (CompileShader ShaderID);;
  Success ← getShaderiv ShaderID GL_COMPILE_STATUS (Z.b2z (compiles d ShaderCode)) None;
  Success ← m_option Success;
  if Success =? 0 then
    emit (GetShaderiv ShaderID GL_INFO_LOG_LENGTH);;
    emit (GetShaderInfoLog ShaderID);;
    throw (runtime_error "Failed to compile shader")
  else mret ShaderID.

(** [linkShaders] up to the link, and then the question for the status, which is asked as if
    the program were a shader. *)
Definition link (VERTNAME FRAGNAME : string) : M name :=
  ProgID ← fresh; emit (CreateProgram ProgID);;
  code ← readFile VERTNAME; VertexID ← installShader code GL_VERTEX_SHADER;
  code ← readFile FRAGNAME; FragmentID ← installShader code GL_FRAGMENT_SHADER;
  emit (AttachShader ProgID VertexID);;
  emit (AttachShader ProgID FragmentID);;
  emit (LinkProgram ProgID (links d));;
  mret ProgID.
Definition link_status (ProgID : name) : M () :=
  Success ← getShaderiv ProgID GL_LINK_STATUS (Z.b2z (links d)) None;
  Success ← m_option Success;
  if Success =? 0 then
    emit (GetProgramiv ProgID GL_INFO_LOG_LENGTH);;
    emit (GetProgramInfoLog ProgID);;
    throw (runtime_error "Failed to link program")
  else mret ().
Definition linkShaders (VERTNAME FRAGNAME : string) : M name :=
  ProgID ← link VERTNAME FRAGNAME;
  link_status ProgID;;
  mret ProgID.

Definition setFloat (ProgID : name) (Name : string) (Val : float) : M () := emit (Uniform ProgID Name [Val]).
Definition setFloatMatrix4 (ProgID : name) (Name : string) (Vals : list float) : M () := emit (Uniform ProgID Name Vals).

(** ** [ogl-motion.cc] *)
Definition VERTNAME : string := "shaders/models.vert".
Definition FRAGNAME : string := "shaders/sincolor.frag".

(** Positions and colours, interleaved in a buffer of vertices. *)
Definition vertex_buffer (d : data) : M (name * name) :=
  VAO ← fresh; emit (GenVertexArray VAO);;
  emit (BindVertexArray VAO);;
  VBO ← fresh; emit (GenBuffer VBO);;
  emit (BindBuffer GL_ARRAY_BUFFER VBO);;
  emit (BufferData GL_ARRAY_BUFFER d);;
  mret (VAO, VBO).
Definition vertex_attributes : M () :=
  emit (VertexAttribPointer 0 3 (6 * sizeof_GLfloat) (0 * sizeof_GLfloat));;
  emit (EnableVertexAttribArray 0);;
  emit (VertexAttribPointer 1 3 (6 * sizeof_GLfloat) (3 * sizeof_GLfloat));;
  emit (EnableVertexAttribArray 1).

(** The body of the constructor. *)
Definition set_up (ProgID : name) : M Renderer :=
  emit (Viewport SZX SZY);;
  emit (Enable GL_DEPTH_TEST);;
  emit (DepthFunc GL_LESS);;
  emit (Enable GL_DEPTH_CLAMP);;
  emit (Enable GL_CULL_FACE);;
  b ← vertex_buffer (Floats Vertices);
  IBO ← fresh; emit (GenBuffer IBO);;
  emit (BindBuffer GL_ELEMENT_ARRAY_BUFFER IBO);;
  emit (BufferData GL_ELEMENT_ARRAY_BUFFER (Bytes Indices));;
  vertex_attributes;;
  mret {| ProgID := ProgID; VAO := b.1; VBO := b.2; IBO := IBO;
    HorizontalAngle := FP.zero; VerticalAngle := FP.zero; Radius := int_to_float 3;
    FoV := int_to_float 45; Aspect := FP.fdiv (int_to_float SZX) (int_to_float SZY); Near := ratio 1 10; Far := int_to_float 100;
    LeftPress := false; OldX := None; OldY := None; LineMode := false |}.
Definition MakeRenderer : M Renderer := ProgID ← linkShaders VERTNAME FRAGNAME; set_up ProgID.

Definition identity : list float :=
  (λ i, if (i mod 5 =? 0)%nat then FP.to_float FP.one else FP.zero) <$> seq 0 16.

Definition Position (r : Renderer) : float * float * float :=
  let Phi := radians d (FP.fsub (int_to_float 90) (VerticalAngle r)) in
  let Theta := radians d (FP.fadd (HorizontalAngle r) (int_to_float 180)) in
  (FP.fmul (FP.fmul (SFopp (sin d Phi)) (sin d Theta)) (Radius r), FP.fmul (cos d Phi) (Radius r),
   FP.fmul (FP.fmul (sin d Phi) (cos d Theta)) (Radius r)).

Definition display : M () :=
  r ← renderer;
  emit ClearColor;;
  emit (Clear (Z.lor GL_COLOR_BUFFER_BIT GL_DEPTH_BUFFER_BIT));;
  emit (UseProgram (ProgID r));;
  CurTime ← ask (time d);
  glfw;;
  setFloat (ProgID r) "time" CurTime;;
  Projection ← m_option (perspective d (radians d (FoV r)) (Aspect r) (Near r) (Far r));
  setFloatMatrix4 (ProgID r) "model" identity;;
  setFloatMatrix4 (ProgID r) "view" (lookAt d (Position r));;
  setFloatMatrix4 (ProgID r) "projection" Projection;;
  emit (DrawElements GL_QUADS (4 * 6)).

Definition zoom (key : Z) (r : Renderer) : Renderer :=
  let r := if (key =? GLFW_KEY_UP) || (key =? GLFW_KEY_W) then set_Radius (FP.fsub (Radius r) RadiusDelta) r else r in
  if (key =? GLFW_KEY_DOWN) || (key =? GLFW_KEY_S) then set_Radius (FP.fadd (Radius r) RadiusDelta) r else r.

Definition notifyKey (key action : Z) : M () :=
  r ← renderer;
  (if (action =? GLFW_PRESS) || (action =? GLFW_REPEAT) then put_renderer (Some (zoom key r)) else mret ());;
  if (action =? GLFW_PRESS) && (key =? GLFW_KEY_L) then
    r ← renderer;
    let LineMode := negb (LineMode r) in
    put_renderer (Some (set_LineMode LineMode r));;
    emit (PolygonMode (if LineMode then GL_LINE else GL_FILL));;
    if LineMode then emit (Disable GL_DEPTH_TEST);; emit (Disable GL_CULL_FACE)
    else emit (Enable GL_DEPTH_TEST);; emit (Enable GL_CULL_FACE)
  else mret ().

Definition myclamp (x low hi : float) : float := if SFltb hi x then hi else if SFltb x low then low else x.

(** An offset is the difference of [double]s as a [float]. *)
Definition turn (angle : float) (pos old : double) : float :=
  myclamp (FP.fadd angle (FP.fmul (FP.to_float (FP.dsub pos old)) Sensitivity)) (SFopp limit) limit.
Definition notifyMouseMove (xpos ypos : double) : M () :=
  r ← renderer;
  if LeftPress r then
    OldX ← m_option (OldX r); OldY ← m_option (OldY r);
    put_renderer (Some (set_angles (turn (HorizontalAngle r) xpos OldX) (turn (VerticalAngle r) ypos OldY) (set_Old xpos ypos r)))
  else mret ().

Definition notifyMouseButton (button action : Z) : M () :=
  r ← renderer;
  (if (button =? GLFW_MOUSE_BUTTON_LEFT) && (action =? GLFW_PRESS) then
    at_ ← ask (cursor d);
    put_renderer (Some (set_LeftPress true r));;
    glfw;;
    put_renderer (Some (set_Old at_.1 at_.2 (set_LeftPress true r)))
  else mret ());;
  r ← renderer;
  if (button =? GLFW_MOUSE_BUTTON_LEFT) && (action =? GLFW_RELEASE) then put_renderer (Some (set_LeftPress false r)) else mret ().

Definition framebuffer_size_callback (width height : Z) : M () :=
  r ← renderer;
  put_renderer (Some (set_Aspect (FP.fdiv (int_to_float width) (int_to_float height)) r));;
  emit (Viewport width height).

Definition handle (i : input) : M () :=
  match i with
  | Key key action => notifyKey key action
  | MouseMove xpos ypos => notifyMouseMove xpos ypos
  | MouseButton button action => notifyMouseButton button action
  | Resize width height => framebuffer_size_callback width height
  end.

(** The body of the loop of [main], with the events that [glfwPollEvents] delivers. *)
Definition frame (inputs : list input) : M () :=
  glfw;;
  display;;
  glfw;;
  glfw;;
  each handle inputs.

(** [main] from the renderer on, and while there is a window. *)
Definition loop (frames : list (list input)) (r : Renderer) : M () :=
  put_renderer (Some r);;
  glfw;; glfw;; glfw;;
  each frame frames;;
  glfw.
Definition session (frames : list (list input)) : M () := MakeRenderer ≫= loop frames.
Definition main (frames : list (list input)) : M () := initialize_window;; finally (session frames) Terminate.

(** The global [TheRenderer] is destroyed when the program exits. *)
Definition destroy_Renderer : M () :=
  λ w, match TheRenderer w with
  | Some r => (emit (DeleteVertexArray (VAO r));; emit (DeleteBuffer (VBO r));; emit (DeleteBuffer (IBO r));; put_renderer None) w
  | None => Some (Ok (), w)
  end.
(** The error that [main] prints, if any. *)
Definition process (frames : list (list input)) : M (option exn) := λ w,
  match main frames w with
  | Some (Ok _, w) => (destroy_Renderer;; mret None) w
  | Some (Throw e, w) => (destroy_Renderer;; mret (Some e)) w
  | None => None
  end.

(** ** [ogl-frag-shader.cc] *)
Definition square_VERTNAME : string := "shaders/simplest.vert".
Definition square_FRAGNAME : string := "shaders/simplest.frag".
Definition square_Vertices : list Z :=
  [1; 1; 0; 0; 2; 0;
   -1; 1; 0; 0; 0; 0;
   1; -1; 0; 2; 0; 0;
   -1; -1; 0; 2; 2; 0].

Definition do_render (VAO ProgID : name) : M () :=
  emit ClearColor;;
  emit (Clear GL_COLOR_BUFFER_BIT);;
  emit (UseProgram ProgID);;
  CurTime ← ask (time d);
  glfw;;
  setFloat ProgID "time" CurTime;;
  emit (BindVertexArray VAO);;
  emit (DrawArrays GL_TRIANGLE_STRIP 0 4).

(** The sizes that the window gets during one frame. *)
Definition square_frame (VAO ProgID : name) (sizes : list (Z * Z)) : M () :=
  glfw;;
  do_render VAO ProgID;;
  glfw;;
  glfw;;
  each (λ size, emit (Viewport size.1 size.2)) sizes.

Definition square_set_up : M (name * name) :=
  b ← vertex_buffer (Floats square_Vertices); vertex_attributes;; mret b.
Definition square_loop (frames : list (list (Z * Z))) (b : name * name) (ProgID : name) : M () :=
  each (square_frame b.1 ProgID) frames;;
  glfw;;
  emit (DeleteVertexArray b.1);;
  emit (DeleteBuffer b.2).
Definition square_session (frames : list (list (Z * Z))) : M () :=
  b ← square_set_up;
  ProgID ← linkShaders square_VERTNAME square_FRAGNAME;
  square_loop frames b ProgID.
Definition square_main (frames : list (list (Z * Z))) : M () := initialize_window;; finally (square_session frames) Terminate.
End program.

Definition start : world := World None [] 1.
