(* ===== verification/GlLogic.v ===== *)
(** * Reasoning about the OpenGL programs

    What the calls establish ([Gl]), whether a run is defined, and what holds after a return
    and after an exception; then the operations that the programs share. *)

From Stdlib Require Import SpecFloat.
From S2P Require Import Prelude Lingeo Gl Motion.

Section logic.
Variable d : driver.
(** What a draw call has to find. *)
Variable Draw : gl → call → Prop.

(** Nothing fails. *)
Record calm : Prop := {
  ca_glfw : ∀ t, glfw_succeeds d t = true;
  ca_glad : glad_loads d = true;
  ca_files : ∀ path, files d path ≠ None;
  ca_compiles : ∀ code, compiles d code = true;
  ca_links : links d = true }.

Definition at_ (s : gl) (w : world) : Prop := state_after (calls w) = Some s ∧ draws Draw (calls w).
Definition fine (w : world) : Prop := ∃ s, at_ s w ∧ current s = true.
(** After an exception. *)
Definition thrown (w : world) : Prop := fine w ∧ ¬ calm.

(** ** Runs: defined, with what holds after a return and after an exception *)
Definition runs {A} (m : M A) (Q : A → world → Prop) (E : world → Prop) (w : world) : Prop :=
  ∃ r w', m w = Some (r, w') ∧ match r with Ok a => Q a w' | Throw _ => E w' end.

Lemma runs_ret {A} (a : A) (Q : A → world → Prop) E w : Q a w → runs (mret a) Q E w.
Proof. intros HQ. by exists (Ok a), w. Qed.

Lemma gl_runs_bind {A B} (m : M A) (k : A → M B) (Q : B → world → Prop) E w :
  runs m (λ a, runs (k a) Q E) E w → runs (m ≫= k) Q E w.
Proof.
  intros (r & w1 & Hm & Hr). unfold runs, mbind, X_bind. rewrite Hm. destruct r as [a|e]; [done|]. by exists (Throw e), w1.
Qed.

Lemma runs_mono {A} (m : M A) (Q Q' : A → world → Prop) (E E' : world → Prop) w :
  runs m Q E w → (∀ a w', Q a w' → Q' a w') → (∀ w', E w' → E' w') → runs m Q' E' w.
Proof. intros (r & w1 & Hm & Hr) HQ HE. exists r, w1. split; [done|]. destruct r; auto. Qed.

Lemma runs_throw {A} e (Q : A → world → Prop) (E : world → Prop) w : E w → runs (throw e) Q E w.
Proof. intros HE. by exists (Throw e), w. Qed.

Lemma runs_ask {A} (f : nat → A) (Q : A → world → Prop) E w : Q (f (length (calls w))) w → runs (ask f) Q E w.
Proof. intros HQ. by eexists (Ok _), w. Qed.

Lemma runs_renderer r (Q : Renderer → world → Prop) E w : TheRenderer w = Some r → Q r w → runs renderer Q E w.
Proof. intros Hr HQ. exists (Ok r), w. unfold renderer. by rewrite Hr. Qed.

Lemma runs_put r (Q : () → world → Prop) E w : Q () (World r (calls w) (next w)) → runs (put_renderer r) Q E w.
Proof. intros HQ. by eexists (Ok _), _. Qed.

Lemma runs_option {A} (o : option A) a (Q : A → world → Prop) E w : o = Some a → Q a w → runs (m_option o) Q E w.
Proof. intros -> HQ. by exists (Ok a), w. Qed.

Lemma runs_fresh (Q : name → world → Prop) E w : Q (next w) (World (TheRenderer w) (calls w) (S (next w))) → runs fresh Q E w.
Proof. intros HQ. by eexists (Ok _), _. Qed.

Lemma runs_emit c (Q : () → world → Prop) E w :
  Q () (World (TheRenderer w) (c :: calls w) (next w)) → runs (emit c) Q E w.
Proof. intros HQ. by eexists (Ok _), _. Qed.

(** A call that draws nothing. *)
Lemma at_call s s' c w : at_ s w → step c s = Some s' →
  (match c with DrawElements _ _ | DrawArrays _ _ _ => False | _ => True end) →
  at_ s' (World (TheRenderer w) (c :: calls w) (next w)).
Proof.
  intros [Hs Hd] Hst Hc. split; cbn; [by rewrite Hs|]. split; [done|]. by destruct c.
Qed.

Lemma gl_runs_call c s s' (Q : () → world → Prop) E w :
  at_ s w → step c s = Some s' → (match c with DrawElements _ _ | DrawArrays _ _ _ => False | _ => True end) →
  (at_ s' (World (TheRenderer w) (c :: calls w) (next w)) → Q () (World (TheRenderer w) (c :: calls w) (next w))) → runs (emit c) Q E w.
Proof. intros Hs Hst Hc HQ. apply runs_emit, HQ. by eapply at_call. Qed.

(** A property of the state that a call of GLFW keeps; after an exception it holds as well. *)
Lemma runs_glfw s (Q : () → world → Prop) (E : world → Prop) w :
  at_ s w → (∀ w', at_ s w' → TheRenderer w' = TheRenderer w → next w' = next w → Q () w' ∧ (¬ calm → E w')) → runs (glfw d) Q E w.
Proof.
  intros Hs HQ. unfold glfw. apply gl_runs_bind, runs_ask. apply gl_runs_bind. eapply gl_runs_call; [exact Hs|done|done|]. intros Hs'.
  destruct (glfw_succeeds d _) eqn:Hok; [apply runs_ret|apply runs_throw]; apply HQ; try done. intros Hc. by rewrite (ca_glfw Hc) in Hok.
Qed.


(** ** From the window to the scene *)
Definition plain (c : call) : Prop :=
  match c with Glfw | MakeContextCurrent | Terminate | DrawElements _ _ | DrawArrays _ _ _ => False | _ => True end.

Lemma effect_current c s : current (effect c s) = current s.
Proof. destruct c; cbn; unfold on_bound, error; repeat case_match; done. Qed.

Lemma runs_plain c s (Q : () → world → Prop) E w :
  at_ s w → current s = true → plain c →
  (∀ w', at_ (effect c s) w' → TheRenderer w' = TheRenderer w → next w' = next w → Q () w') → runs (emit c) Q E w.
Proof.
  intros Hs Hc Hp HQ. eapply (gl_runs_call c s (effect c s)); [done|by destruct c; cbn; rewrite ?Hc|by destruct c|]. intros Hs'. by apply HQ.
Qed.

Lemma runs_glfw_fine s (Q : () → world → Prop) w :
  at_ s w → current s = true → (∀ w', at_ s w' → TheRenderer w' = TheRenderer w → next w' = next w → Q () w') → runs (glfw d) Q thrown w.
Proof. intros Hs Hc HQ. eapply runs_glfw; [done|]. intros w' Hs' Hr Hn. split; [auto|]. intros Hnc. split; [by exists s|done]. Qed.

(** The question about a shader. *)
Lemma runs_status h pname value s (Q : option Z → world → Prop) E w :
  at_ s w → current s = true → h ∈ shaders s →
  (∀ w', at_ s w' → TheRenderer w' = TheRenderer w → next w' = next w → Q (Some value) w') → runs (getShaderiv h pname value None) Q E w.
Proof.
  intros Hs Hc Hh HQ. pose proof Hs as [Hst _]. unfold runs, getShaderiv. rewrite Hst. cbn [mbind option_bind].
  rewrite decide_True by done. eexists (Ok _), _. split; [done|]. apply HQ; [|done..].
  eapply at_call; [exact Hs| |done]. cbn. rewrite Hc. by rewrite decide_True.
Qed.

Ltac plain := eapply runs_plain; [eassumption|by rewrite ?effect_current|done|].

Lemma installShader_runs code type s (Q : name → world → Prop) w :
  at_ s w → current s = true →
  (∀ w', at_ (set_shaders ({[next w]} ∪ shaders s) s) w' → TheRenderer w' = TheRenderer w → next w' = S (next w) → Q (next w) w') →
  runs (installShader d code type) Q thrown w.
Proof.
  intros Hs Hc HQ. apply gl_runs_bind, runs_fresh. set (h := next w). set (s1 := set_shaders ({[h]} ∪ shaders s) s).
  assert (Hin : h ∈ shaders s1) by set_solver. assert (Hc1 : current s1 = true) by done.
  assert (Hstep : ∀ c w', (c = ShaderSource h code ∨ c = CompileShader h ∨ (∃ p, c = GetShaderiv h p) ∨ c = GetShaderInfoLog h) → at_ s1 w' →
    ∀ Q', (∀ w'', at_ s1 w'' → TheRenderer w'' = TheRenderer w' → next w'' = next w' → Q' () w'') → runs (emit c) Q' thrown w').
  { intros c w' Hcs Hs' Q' HQ'. eapply runs_plain; [done|done|by destruct Hcs as [->|[->|[[? ->]| ->]]]|].
    assert (effect c s1 = s1) as ->; [|done]. destruct Hcs as [->|[->|[[? ->]| ->]]]; cbn [effect]; by rewrite decide_True. }
  apply gl_runs_bind. eapply (runs_plain _ s); [exact Hs|done|done|]. cbn [effect TheRenderer next]. fold s1. intros w1 Hs1 R1 N1.
  apply gl_runs_bind, (Hstep (ShaderSource h code)); [naive_solver|done|]. intros w2 Hs2 R2 N2.
  apply gl_runs_bind, (Hstep (CompileShader h)); [naive_solver|done|]. intros w3 Hs3 R3 N3.
  apply gl_runs_bind. apply (runs_status h _ _ s1); [done|done|done|]. intros w4 Hs4 R4 N4. apply gl_runs_bind.
  eapply runs_option; [done|]. destruct (compiles d code) eqn:Hok; cbn [Z.b2z Z.eqb].
  - apply runs_ret. apply HQ; [done|congruence|unfold h in *; congruence].
  - apply gl_runs_bind, Hstep; [naive_solver|done|]. intros w5 Hs5 R5 N5. apply gl_runs_bind, Hstep; [naive_solver|done|]. intros w6 Hs6 _ _.
    apply runs_throw. split; [by exists s1|]. intros Hcalm. by rewrite (ca_compiles Hcalm) in Hok.
Qed.

Lemma readFile_runs path (Q : string → world → Prop) w : fine w → (∀ code, files d path = Some code → Q code w) → runs (readFile d path) Q thrown w.
Proof.
  intros Hw HQ. unfold readFile. destruct (files d path) eqn:Hf; [apply runs_ret; auto|]. apply runs_throw. split; [done|]. intros Hc.
  by apply (ca_files Hc path).
Qed.

(** The program, linked. *)
Definition linked (p : name) (s : gl) : gl :=
  set_programs (<[p := links d]> (<[p := false]> (programs s))) (set_shaders ({[S (S p)]} ∪ ({[S p]} ∪ shaders s)) s).

Lemma link_runs V F s (Q : name → world → Prop) w :
  at_ s w → current s = true →
  (∀ w', at_ (linked (next w) s) w' → TheRenderer w' = TheRenderer w → next w' = (3 + next w)%nat → Q (next w) w') →
  runs (link d V F) Q thrown w.
Proof.
  intros Hs Hc HQ. apply gl_runs_bind, runs_fresh. set (p := next w).
  apply gl_runs_bind. eapply (runs_plain _ s); [exact Hs|done|done|]. cbn [effect TheRenderer next]. intros w1 Hs1 R1 N1.
  set (s1 := set_programs _ s) in *. assert (Hc1 : current s1 = true) by done.
  apply gl_runs_bind, readFile_runs; [by exists s1|]. intros code _. apply gl_runs_bind.
  eapply installShader_runs; [exact Hs1|done|]. intros w2 Hs2 R2 N2. rewrite N1 in Hs2, N2 |- *.
  apply gl_runs_bind, readFile_runs; [by eexists|]. intros code' _. apply gl_runs_bind.
  eapply installShader_runs; [exact Hs2|done|]. cbn [shaders set_shaders]. intros w3 Hs3 R3 N3. rewrite N2 in Hs3, N3 |- *.
  set (s3 := set_shaders ({[S (S p)]} ∪ _) _) in *. assert (Hp : programs s3 !! p = Some false) by (cbn; by rewrite lookup_insert_eq).
  apply gl_runs_bind. eapply (runs_plain _ s3); [exact Hs3|done|done|]. cbn [effect].
  rewrite decide_True by (split; [by eexists|cbn; set_solver]). intros w4 Hs4 R4 N4.
  apply gl_runs_bind. eapply (runs_plain _ s3); [exact Hs4|done|done|]. cbn [effect].
  rewrite decide_True by (split; [by eexists|cbn; set_solver]). intros w5 Hs5 R5 N5.
  apply gl_runs_bind. eapply (runs_plain _ s3); [exact Hs5|done|done|]. cbn [effect]. rewrite decide_True by by eexists.
  intros w6 Hs6 R6 N6. apply runs_ret, HQ; [exact Hs6|cbn in *; congruence|cbn in *; lia].
Qed.

(** The question names no shader: there is no run. *)
Lemma link_status_undefined p s w : at_ s w → p ∉ shaders s → link_status d p w = None.
Proof.
  intros [Hs _] Hp. unfold link_status, mbind, X_bind, getShaderiv. rewrite Hs. cbn [mbind option_bind]. by rewrite decide_False.
Qed.

(** The window has a context and nothing else has been done. *)
Definition opened : gl := set_current true gl0.

Lemma initialize_window_runs (Q : () → world → Prop) (E : world → Prop) w :
  at_ gl0 w → TheRenderer w = None → (∀ w', at_ opened w' → TheRenderer w' = None → next w' = next w → Q () w') →
  (∀ w' s, at_ s w' → TheRenderer w' = None → ¬ calm → E w') → runs (initialize_window d) Q E w.
Proof.
  intros Hs Hr HQ HE. assert (Hg : ∀ s w (Q : () → world → Prop), at_ s w → TheRenderer w = None →
    (∀ w', at_ s w' → TheRenderer w' = None → next w' = next w → Q () w') → runs (glfw d) Q E w).
  { intros s v Q' Hs' Hr' HQ'. eapply runs_glfw; [exact Hs'|]. intros v' Hv Rv Nv. rewrite Hr' in Rv. split; [auto|]. by eapply HE. }
  apply gl_runs_bind. eapply (gl_runs_call _ gl0); [exact Hs|done|done|]. intros Hs1.
  apply gl_runs_bind. eapply (Hg gl0); [exact Hs1|done|]. intros w2 Hs2 R2 N2.
  apply gl_runs_bind. eapply (Hg gl0); [exact Hs2|done|]. intros w3 Hs3 R3 N3.
  apply gl_runs_bind. eapply (Hg gl0); [exact Hs3|done|]. intros w4 Hs4 R4 N4.
  apply gl_runs_bind. eapply (gl_runs_call _ gl0); [exact Hs4|done|done|]. intros Hs5.
  apply gl_runs_bind. eapply (Hg opened); [exact Hs5|done|]. intros w6 Hs6 R6 N6.
  destruct (glad_loads d) eqn:Hok; [apply runs_ret, HQ; [done|done|]|apply runs_throw; eapply HE; [done|done|]].
  2: { intros Hc. by rewrite (ca_glad Hc) in Hok. }
  rewrite N6. cbn. rewrite N4, N3, N2. done.
Qed.

End logic.

(** The next call, which is no draw. *)
Ltac call_plain H n :=
  apply gl_runs_bind; eapply runs_plain; [exact H|by rewrite ?effect_current|done|]; clear H;
  let v := fresh "v" in let R := fresh "R" in let N := fresh "N" in intros v H R N; rewrite n in N; clear R n; rename N into n.

Ltac call_fresh H N k :=
  let v := fresh "v" in set (v := World _ _ _); match type of H with at_ ?D ?s _ => change (at_ D s v) in H end; clear N; assert (N : next v = k) by done; clearbody v.

