(* ===== verification/MotionProps.v ===== *)
(** * The camera, the scene and the end of [src/10-3d/ogl-motion.cc]

    Rounding and comparison of floats, the geometry of what is drawn, the handlers and a frame,
    then the program up to the link of its shaders and from there on. *)

From Stdlib Require Import SpecFloat.
From S2P Require Import Prelude Lingeo Gl Motion GlLogic.

(** ** Floating point *)
Section floats.
Implicit Types (x y : spec_float).

Definition number x : Prop := x ≠ S754_nan.
Definition finite x : Prop := match x with S754_zero _ | S754_finite _ _ _ => True | _ => False end.
Definition ranged x : Prop := SFleb (SFopp limit) x = true ∧ SFleb x limit = true.

Lemma shr_1_nonneg r : 0 ≤ shr_m r → 0 ≤ shr_m (shr_1 r).
Proof. destruct r as [[|[p|p|]|p] ? ?]; cbn; lia. Qed.

Lemma iter_shr_nonneg p : ∀ r, 0 ≤ shr_m r → 0 ≤ shr_m (SpecFloat.iter_pos shr_1 p r).
Proof. induction p as [p IH|p IH|]; intros r Hr; cbn; auto using shr_1_nonneg. Qed.

Lemma shr_fexp_nonneg prec emax m e l : 0 ≤ m → 0 ≤ shr_m (shr_fexp prec emax m e l).1.
Proof.
  intros Hm. assert (H0 : 0 ≤ shr_m (shr_record_of_loc m l)) by by destruct l as [|[]].
  unfold shr_fexp, shr. case_match; cbn; auto using iter_shr_nonneg.
Qed.

Lemma round_number prec emax s m e l : 0 ≤ m → number (binary_round_aux prec emax s m e l).
Proof.
  intros Hm. unfold binary_round_aux. pose proof (shr_fexp_nonneg prec emax m e l Hm) as H1.
  destruct (shr_fexp prec emax m e l) as [r1 e1]. cbn in H1.
  assert (H2 : 0 ≤ round_nearest_even (shr_m r1) (loc_of_shr_record r1)).
  { unfold round_nearest_even. repeat case_match; lia. }
  pose proof (shr_fexp_nonneg prec emax _ e1 loc_Exact H2) as H3. destruct (shr_fexp _ _ _ e1 _) as [r2 e2]. cbn in H3.
  unfold number. destruct (shr_m r2); [done|by case_match|lia].
Qed.

Lemma normalize_number prec emax m e s : number (binary_normalize prec emax m e s).
Proof.
  unfold binary_normalize, binary_round. destruct m; [done|..]; case_match; by apply round_number.
Qed.

Lemma sub_number prec emax x y : finite x → finite y → number (SFsub prec emax x y).
Proof. destruct x as [[]|[]| |[]], y as [[]|[]| |[]]; cbn -[binary_normalize]; try done; intros _ _; apply normalize_number. Qed.

Lemma add_number prec emax x y : finite x → number y → number (SFadd prec emax x y).
Proof. destruct x as [[]|[]| |[]], y as [[]|[]| |[]]; cbn -[binary_normalize]; try done; intros _ _; apply normalize_number. Qed.

Lemma mul_number prec emax x s m e : number x → number (SFmul prec emax x (S754_finite s m e)).
Proof. destruct x; cbn -[binary_round_aux]; try done. intros _. by apply round_number. Qed.

Lemma convert_number prec emax x : number x → number (FP.convert prec emax x).
Proof. destruct x; try done. intros _. apply normalize_number. Qed.

Lemma compare_swap x y : SFcompare y x = CompOpp <$> SFcompare x y.
Proof.
  destruct x as [sx|sx| |sx mx ex], y as [sy|sy| |sy my ey]; try (by destruct sx); try (by destruct sy); try done; [by destruct sx, sy..|].
  assert (Hm : Pos.compare_cont Eq my mx = CompOpp (Pos.compare_cont Eq mx my)) by by rewrite Pos.compare_cont_antisym.
  cbn. rewrite (Z.compare_antisym ex ey), Hm. destruct sx, sy; try done; by destruct (Z.compare ex ey).
Qed.

Lemma compare_number x y : number x → number y → ∃ c, SFcompare x y = Some c.
Proof. destruct x, y; try done; intros _ _; cbn; eauto. Qed.

Lemma le_of_not_lt x y : number x → number y → SFltb x y = false → SFleb y x = true.
Proof.
  intros Hx Hy. unfold SFltb, SFleb. destruct (compare_number x y Hx Hy) as [c Hc]. rewrite (compare_swap x y), Hc. by destruct c.
Qed.

Lemma clamp_ranged x : number x → ranged (myclamp x (SFopp limit) limit).
Proof.
  intros Hx. unfold myclamp. destruct (SFltb limit x) eqn:H1; [by vm_compute|]. destruct (SFltb x (SFopp limit)) eqn:H2; [by vm_compute|].
  split; by apply le_of_not_lt.
Qed.

Lemma ranged_finite x : ranged x → finite x.
Proof. destruct x as [|[]| |]; [done|by intros [H _]|by intros [_ H]|by intros [H _]|done]. Qed.

Lemma Sensitivity_finite : ∃ s m e, Sensitivity = S754_finite s m e.
Proof. by eexists _, _, _. Qed.

Lemma turn_ranged angle pos old : ranged angle → finite pos → finite old → ranged (turn angle pos old).
Proof.
  intros Ha Hp Ho. apply clamp_ranged, add_number; [by apply ranged_finite|].
  destruct Sensitivity_finite as (s & m & e & ->). apply mul_number, convert_number. by apply sub_number.
Qed.
End floats.

(** ** What is drawn: a closed surface, seen from outside *)
Section geometry.
Definition quad : Type := list (list Z).

Fixpoint quads (fuel : nat) (l : list (list Z)) : list quad :=
  match fuel, l with S fuel, a :: b :: c :: e :: l => [a; b; c; e] :: quads fuel l | _, _ => [] end.

Definition minus (p q : list Z) : list Z := zip_with Z.sub p q.
Definition dot (p q : list Z) : Z := foldr Z.add 0 (zip_with Z.mul p q).
Definition cross (p q : list Z) : list Z :=
  match p, q with [a; b; c], [x; y; z] => [b * z - c * y; c * x - a * z; a * y - b * x] | _, _ => [] end.

(** A flat quadrangle whose corners, taken in order, turn to the left seen from outside: the
    normal points away from the centre of the solid, the origin. *)
Definition outward (q : quad) : bool :=
  match q with
  | [a; b; c; e] =>
    let n := cross (minus b a) (minus c b) in
    (dot n (minus e a) =? 0) && (0 <? dot n a) && (0 <? dot n (cross (minus c b) (minus e c))) &&
    (0 <? dot n (cross (minus e c) (minus a e))) && (0 <? dot n (cross (minus a e) (minus b a)))
  | _ => false
  end.
Definition sides (q : quad) : list (list Z * list Z) := match q with [a; b; c; e] => [(a, b); (b, c); (c, e); (e, a)] | _ => [] end.

(** Every side is that of two faces, which go along it in opposite directions. *)
Definition closed (qs : list quad) : bool :=
  let es := qs ≫= sides in
  bool_decide (NoDup es) && forallb (λ e, bool_decide ((e.2, e.1) ∈ es)) es.
Definition solid (ps : list (list Z)) : Prop :=
  forallb outward (quads (length ps) ps) = true ∧ closed (quads (length ps) ps) = true ∧ length ps = (4 * length (quads (length ps) ps))%nat.
End geometry.

(** The six faces of a cube around the origin, with a colour for each corner. *)
Definition draws_cube (s : gl) (c : call) : Prop :=
  ∃ vs ps cs, drawn s c = Some vs ∧ fetch_all s 0 vs = Some ps ∧ fetch_all s 1 vs = Some cs ∧
    solid ps ∧ length ps = 24%nat ∧ Forall (λ p, Forall (λ x, x = 1 ∨ x = -1) p) ps ∧ Forall (λ c, Forall (λ x, 0 ≤ x ≤ 2) c) cs.

Definition attribute_of (b : name) (offset : Z) : attribute := {| a_size := 3; a_stride := 24; a_offset := offset; a_buffer := b |}.
Definition cube_array (b e : name) : vertex_array := {|
  elements := e; attributes := <[1 := attribute_of b 12]> {[0 := attribute_of b 0]}; enabled := {[1; 0]} |}.

(** The assertion of [glm::perspective]: the aspect is not [epsilon], and a number. *)
Definition epsilon : float := ratio 1 (2 ^ 23).
Definition accepted (aspect : float) : Prop := SFltb FP.zero (SFabs (FP.fsub aspect epsilon)) = true.
Definition glm_projects (d : driver) : Prop := ∀ fovy aspect near far, accepted aspect → is_Some (perspective d fovy aspect near far).

Section program.
Variable d : driver.

(** The skeleton mode of the program is that of OpenGL, and the data are in place. *)
Record scene (r : Renderer) (s : gl) : Prop := {
  sc_current : current s = true;
  sc_vao : vao s = VAO r;
  sc_array : arrays s !! VAO r = Some (cube_array (VBO r) (IBO r));
  sc_vertices : buffers s !! VBO r = Some (Floats Vertices);
  sc_indices : buffers s !! IBO r = Some (Bytes Indices);
  sc_program : programs s !! ProgID r = Some (links d);
  sc_depth : GL_DEPTH_TEST ∈ caps s ↔ LineMode r = false;
  sc_cull : GL_CULL_FACE ∈ caps s ↔ LineMode r = false;
  sc_polygon : polygonMode s = if LineMode r then GL_LINE else GL_FILL;
  sc_errors : links d = true → errors s = [] }.

(** The angles are numbers within their limits, a pressed button has a position, and GLM
    accepts the aspect. *)
Record camera (r : Renderer) : Prop := {
  cm_horizontal : ranged (HorizontalAngle r);
  cm_vertical : ranged (VerticalAngle r);
  cm_old : LeftPress r = true → ∃ x y, OldX r = Some x ∧ OldY r = Some y ∧ finite x ∧ finite y;
  cm_aspect : accepted (Aspect r) }.

Notation at_ := (GlLogic.at_ draws_cube).
Notation fine := (GlLogic.fine draws_cube).
Notation thrown := (GlLogic.thrown d draws_cube).

Definition good (w : world) : Prop := ∃ r s, TheRenderer w = Some r ∧ at_ s w ∧ scene r s ∧ camera r.
Lemma good_fine w : good w → fine w.
Proof. intros (r & s & _ & Hs & Hsc & _). exists s. split; [done|apply Hsc]. Qed.

Lemma scene_draws r s : scene r s → draws_cube s (DrawElements GL_QUADS (4 * 6)).
Proof.
  intros [S1 S2 S3 S4 S5 _ _ _ _ _].
  assert (Hb : bound s = Some (cube_array (VBO r) (IBO r))) by (unfold bound; by rewrite S2).
  assert (Hf : ∀ o i, fetch s (attribute_of (VBO r) o) i =
    if (0 <=? o + i * 24) && ((o + i * 24) mod 4 =? 0) && ((o + i * 24) / 4 + 3 <=? 48)
    then Some (take 3 (drop (Z.to_nat ((o + i * 24) / 4)) Vertices)) else None).
  { intros o i. unfold fetch. cbn [a_buffer attribute_of]. by rewrite S4. }
  exists Indices.
  assert (Hall : ∀ k o, attributes (cube_array (VBO r) (IBO r)) !! k = Some (attribute_of (VBO r) o) → k ∈ enabled (cube_array (VBO r) (IBO r)) →
    fetch_all s k Indices = mapM (λ i, if (0 <=? o + i * 24) && ((o + i * 24) mod 4 =? 0) && ((o + i * 24) / 4 + 3 <=? 48)
      then Some (take 3 (drop (Z.to_nat ((o + i * 24) / 4)) Vertices)) else None) Indices).
  { intros k o Hk He. unfold fetch_all. rewrite Hb. cbn [mbind option_bind]. rewrite Hk. cbn [mbind option_bind].
    rewrite decide_True by done. apply mapM_ext. intros i. apply Hf. }
  eexists _, _. split.
  { cbn. unfold drawn_elements. rewrite Hb. cbn [mbind option_bind elements cube_array]. rewrite S5. by vm_compute. }
  split; [rewrite (Hall 0 0); [by vm_compute|done|set_solver]|]. split; [rewrite (Hall 1 12); [by vm_compute|done|set_solver]|].
  split; [by vm_compute|]. split; [done|]. by split; apply (bool_decide_unpack _); vm_compute.
Qed.

(** ** The handlers *)
Definition acceptable (i : input) : Prop :=
  match i with
  | MouseMove x y => finite x ∧ finite y
  | Resize width height => accepted (FP.fdiv (int_to_float width) (int_to_float height))
  | _ => True
  end.
Hypothesis Hcursor : ∀ t, finite (cursor d t).1 ∧ finite (cursor d t).2.
Hypothesis Hglm : glm_projects d.

Lemma scene_renderer r r' s :
  scene r s → ProgID r' = ProgID r → VAO r' = VAO r → VBO r' = VBO r → IBO r' = IBO r → LineMode r' = LineMode r → scene r' s.
Proof. intros Hs E1 E2 E3 E4 E5. split; rewrite ?E1, ?E2, ?E3, ?E4, ?E5; apply Hs. Qed.

Lemma good_put r r' s w :
  TheRenderer w = Some r' → at_ s w → scene r s → camera r' →
  ProgID r' = ProgID r → VAO r' = VAO r → VBO r' = VBO r → IBO r' = IBO r → LineMode r' = LineMode r → good w.
Proof. intros Hr Hs Hsc Hc E1 E2 E3 E4 E5. exists r', s. split; [done|]. split; [done|]. split; [by eapply scene_renderer|done]. Qed.

Lemma zoom_same key r :
  ProgID (zoom key r) = ProgID r ∧ VAO (zoom key r) = VAO r ∧ VBO (zoom key r) = VBO r ∧ IBO (zoom key r) = IBO r ∧
  LineMode (zoom key r) = LineMode r ∧ (camera r → camera (zoom key r)).
Proof. unfold zoom. do 2 case_match; cbn; split_and!; try done; by intros []; split. Qed.

Lemma notifyMouseMove_runs x y w : finite x → finite y → good w → runs (notifyMouseMove x y) (λ _, good) thrown w.
Proof.
  intros Hx Hy (r & s & Hr & Hs & Hsc & Hc). apply gl_runs_bind. eapply runs_renderer; [done|]. destruct (LeftPress r) eqn:Hl.
  - destruct Hc as [H1 H2 H3 H4]. destruct (H3 Hl) as (x0 & y0 & Hx0 & Hy0 & Hfx & Hfy).
    apply gl_runs_bind. eapply runs_option; [done|]. apply gl_runs_bind. eapply runs_option; [done|]. apply runs_put.
    eapply good_put; [done|exact Hs|exact Hsc| |done..]. split; [by apply turn_ranged..| |exact H4]. intros _. by exists x, y.
  - apply runs_ret. by exists r, s.
Qed.

Lemma notifyMouseButton_runs button action w : good w → runs (notifyMouseButton d button action) (λ _, good) thrown w.
Proof.
  intros (r & s & Hr & Hs & Hsc & Hc). apply gl_runs_bind. eapply runs_renderer; [done|]. apply gl_runs_bind.
  apply (runs_mono _ (λ _, good) _ thrown); [| |done].
  - case_match; [|apply runs_ret; by exists r, s]. apply gl_runs_bind, runs_ask, gl_runs_bind, runs_put, gl_runs_bind.
    destruct (Hcursor (length (calls w))) as [Hx Hy]. eapply (runs_glfw d draws_cube s); [done|]. intros w' Hs' _ _. split; [|intros Hnc; split; [exists s; split; [done|apply Hsc]|done]].
    apply runs_put. eapply good_put; [done|exact Hs'|exact Hsc| |done..]. destruct Hc as [H1 H2 _ H4]. split; try done. intros _. by eexists _, _.
  - intros _ w' (r' & s' & Hr' & Hs' & Hsc' & Hc'). apply gl_runs_bind. eapply runs_renderer; [done|].
    case_match; [|apply runs_ret; by exists r', s']. apply runs_put. eapply good_put; [done|exact Hs'|exact Hsc'| |done..].
    destruct Hc' as [H1 H2 _ H4]. by split.
Qed.

Lemma resize_runs width height w : acceptable (Resize width height) → good w → runs (framebuffer_size_callback width height) (λ _, good) thrown w.
Proof.
  intros Hacc (r & s & Hr & Hs & Hsc & Hc). apply gl_runs_bind. eapply runs_renderer; [done|]. apply gl_runs_bind, runs_put.
  eapply (gl_runs_call draws_cube _ s s); [done|cbn; by rewrite (sc_current _ _ Hsc)|done|]. intros Hs'. eapply good_put; [done|exact Hs'|exact Hsc| |done..].
  by destruct Hc; split.
Qed.

(** Switching the skeleton mode switches OpenGL. *)
Lemma scene_toggle (b : bool) r s :
  scene r s →
  scene (set_LineMode b r) (if b then set_caps (caps s ∖ {[GL_DEPTH_TEST]} ∖ {[GL_CULL_FACE]}) (set_polygonMode GL_LINE s)
    else set_caps ({[GL_CULL_FACE]} ∪ ({[GL_DEPTH_TEST]} ∪ caps s)) (set_polygonMode GL_FILL s)).
Proof. intros []. destruct b; split; cbn; try done; set_solver. Qed.

Lemma notifyKey_runs key action w : good w → runs (notifyKey key action) (λ _, good) thrown w.
Proof.
  intros (r & s & Hr & Hs & Hsc & Hc). apply gl_runs_bind. eapply runs_renderer; [done|]. apply gl_runs_bind.
  apply (runs_mono _ (λ _, good) _ thrown); [| |done].
  - destruct (zoom_same key r) as (E1 & E2 & E3 & E4 & E5 & Ec). case_match; [|apply runs_ret; by exists r, s].
    apply runs_put. eapply good_put; [done|exact Hs|exact Hsc|auto|done..].
  - clear r s Hr Hs Hsc Hc. intros _ w' (r & s & Hr & Hs & Hsc & Hc). case_match; [|apply runs_ret; by exists r, s].
    apply gl_runs_bind. eapply runs_renderer; [done|]. set (b := negb (LineMode r)). apply gl_runs_bind, runs_put.
    pose proof (sc_current _ _ Hsc) as Hcur. apply gl_runs_bind.
    eapply (gl_runs_call draws_cube _ s); [done|cbn; by rewrite Hcur|done|]. intros Hs1.
    pose proof (scene_toggle b r s Hsc) as Hsc'. assert (Hc' : camera (set_LineMode b r)) by by destruct Hc; split.
    destruct b; (apply gl_runs_bind; eapply gl_runs_call; [exact Hs1|cbn; by rewrite Hcur|done|]; intros Hs2;
      eapply gl_runs_call; [exact Hs2|cbn; by rewrite Hcur|done|]; intros Hs3; eexists _, _;
      split; [done|]; split; [exact Hs3|]; split; [exact Hsc'|exact Hc']).
Qed.

Lemma handle_runs i w : acceptable i → good w → runs (handle d i) (λ _, good) thrown w.
Proof.
  destruct i; cbn [handle acceptable]; intros Hi Hw; [by apply notifyKey_runs|destruct Hi; by apply notifyMouseMove_runs|by apply notifyMouseButton_runs|by apply resize_runs].
Qed.

Lemma each_runs {A} (body : A → M ()) (P : A → Prop) l w :
  (∀ a w, P a → good w → runs (body a) (λ _, good) thrown w) → Forall P l → good w → runs (each body l) (λ _, good) thrown w.
Proof.
  intros Hb Hl. revert w. induction Hl as [|a l Ha Hl IH]; intros w Hw; cbn; [by apply runs_ret|].
  apply gl_runs_bind. eapply runs_mono; [by apply Hb|auto|done].
Qed.

(** ** A frame *)
Definition in_use (r : Renderer) (s : gl) : Prop := links d = true → program s = ProgID r.

Lemma scene_error c r s : scene r s → links d = false → scene r (error c s).
Proof. intros [] Hl. split; try done. congruence. Qed.

Lemma scene_use r s : scene r s → scene r (effect (UseProgram (ProgID r)) s) ∧ in_use r (effect (UseProgram (ProgID r)) s).
Proof.
  intros Hs. cbn. rewrite (sc_program _ _ Hs). destruct (links d) eqn:Hl.
  - rewrite decide_True by done. split; [by destruct Hs; split|done].
  - rewrite decide_False by done. split; [by apply scene_error|]. unfold in_use. congruence.
Qed.

Lemma scene_uniform r s name vs :
  scene r s → in_use r s → scene r (effect (Uniform (ProgID r) name vs) s) ∧ in_use r (effect (Uniform (ProgID r) name vs) s).
Proof.
  intros Hs Hu. cbn. rewrite (sc_program _ _ Hs). destruct (links d) eqn:Hl.
  - rewrite decide_True by (split; [done|by apply Hu]). done.
  - rewrite decide_False by (by intros [? _]). split; [by apply scene_error|]. unfold in_use. congruence.
Qed.

(** A call that keeps the scene. *)
Lemma runs_kept r c s (P : gl → Prop) (Q : () → world → Prop) E w :
  at_ s w → TheRenderer w = Some r → scene r s → step c s = Some (effect c s) →
  (match c with DrawElements _ _ | DrawArrays _ _ _ => False | _ => True end) →
  scene r (effect c s) ∧ P (effect c s) →
  (∀ s' w', at_ s' w' → TheRenderer w' = Some r → scene r s' → P s' → Q () w') → runs (emit c) Q E w.
Proof.
  intros Hs Hr Hsc Hst Hc [Hsc' HP] HQ. eapply gl_runs_call; [exact Hs|exact Hst|done|]. intros Hs'. by eapply HQ.
Qed.

Lemma display_runs w : good w → runs (display d) (λ _, good) thrown w.
Proof.
  intros (r & s & Hr & Hs & Hsc & Hc). apply gl_runs_bind. eapply runs_renderer; [done|].
  apply gl_runs_bind. apply (runs_kept r _ s (λ _, True)); [done|done|done|cbn; by rewrite (sc_current _ _ Hsc)|done|done|].
  clear s w Hs Hr Hsc. intros s w Hs Hr Hsc _.
  apply gl_runs_bind. apply (runs_kept r _ s (λ _, True)); [done|done|done|cbn; by rewrite (sc_current _ _ Hsc)|done|done|].
  clear s w Hs Hr Hsc. intros s w Hs Hr Hsc _.
  apply gl_runs_bind. apply (runs_kept r _ s (in_use r)); [done|done|done|unfold step; by rewrite (sc_current _ _ Hsc)|done|by apply scene_use|].
  clear s w Hs Hr Hsc. intros s w Hs Hr Hsc Hu.
  apply gl_runs_bind, runs_ask, gl_runs_bind. eapply (runs_glfw d draws_cube s); [done|]. intros w1 Hs1 Hr1 _. rewrite Hr in Hr1.
  split; [|intros Hnc; split; [exists s; split; [done|apply Hsc]|done]]. generalize (time d (length (calls w))) as t. intros t. clear Hs Hr w.
  assert (Hunif : ∀ name vs (K : M ()) w s, at_ s w → TheRenderer w = Some r → scene r s → in_use r s →
    (∀ s' w', at_ s' w' → TheRenderer w' = Some r → scene r s' → in_use r s' → runs K (λ _, good) thrown w') →
    runs (emit (Uniform (ProgID r) name vs);; K) (λ _, good) thrown w).
  { intros name vs K w' s' Ha Hr' Hsc' Hu' HK. apply gl_runs_bind.
    apply (runs_kept r _ s' (in_use r)); [done|done|done|unfold step; by rewrite (sc_current _ _ Hsc')|done|by apply scene_uniform|done]. }
  apply (Hunif _ _ _ w1 s); [done..|]. clear s w1 Hs1 Hr1 Hsc Hu. intros s w Hs Hr Hsc Hu.
  destruct (Hglm (radians d (FoV r)) (Aspect r) (Near r) (Far r) (cm_aspect _ Hc)) as [proj Hproj].
  apply gl_runs_bind. eapply runs_option; [exact Hproj|].
  apply (Hunif _ _ _ w s); [done..|]. clear s w Hs Hr Hsc Hu. intros s w Hs Hr Hsc Hu.
  apply (Hunif _ _ _ w s); [done..|]. clear s w Hs Hr Hsc Hu. intros s w Hs Hr Hsc Hu.
  apply (Hunif _ _ _ w s); [done..|]. clear s w Hs Hr Hsc Hu. intros s w [Hs Hd] Hr Hsc Hu.
  apply runs_emit. exists r, s. split; [done|]. split; [|done]. split; cbn; [by rewrite Hs; cbn; rewrite (sc_current _ _ Hsc)|].
  split; [done|]. exists s. split; [done|by apply (scene_draws r)].
Qed.

Lemma good_glfw (Q : () → world → Prop) w : good w → (∀ w', good w' → Q () w') → runs (glfw d) Q thrown w.
Proof.
  intros (r & s & Hr & Hs & Hsc & Hc) HQ. eapply runs_glfw; [done|]. intros w' Hs' Hr' _.
  assert (good w') by (exists r, s; by rewrite Hr'). split; [auto|]. intros Hnc. split; [by apply good_fine|done].
Qed.

Lemma frame_runs inputs w : Forall acceptable inputs → good w → runs (frame d inputs) (λ _, good) thrown w.
Proof.
  intros Hi Hw. apply gl_runs_bind, good_glfw; [done|]. intros w1 Hw1.
  apply gl_runs_bind. eapply runs_mono; [by apply display_runs| |done]. intros [] w2 Hw2.
  apply gl_runs_bind, good_glfw; [done|]. intros w3 Hw3. apply gl_runs_bind, good_glfw; [done|]. intros w4 Hw4.
  apply (each_runs _ acceptable); [|done|done]. intros i w' Hi' Hw'. by apply handle_runs.
Qed.

(** The constructor, from a linked program. *)
Lemma set_up_runs (Q : Renderer → world → Prop) w :
  at_ (linked d 1%nat opened) w → next w = 4%nat →
  (∀ r s w', at_ s w' → scene r s → camera r → Q r w') → runs (set_up 1%nat) Q thrown w.
Proof.
  intros H N HQ. unfold set_up.
  do 5 call_plain H N. apply gl_runs_bind. unfold vertex_buffer. apply gl_runs_bind, runs_fresh. rewrite N. call_fresh H N 5%nat.
  do 2 call_plain H N. apply gl_runs_bind, runs_fresh. rewrite N. call_fresh H N 6%nat.
  do 3 call_plain H N. apply runs_ret, gl_runs_bind, runs_fresh. rewrite N. call_fresh H N 7%nat.
  do 3 call_plain H N. apply gl_runs_bind. do 3 call_plain H N.
  eapply runs_plain; [exact H|by rewrite ?effect_current|done|]. clear H. intros w2 Hv' _ _.
  apply runs_ret. eapply HQ; [exact Hv'| |].
  - split; try (by vm_compute).
    all: split; intros _; [done|by apply (bool_decide_unpack _); vm_compute].
  - split; [by vm_compute..|done|by vm_compute].
Qed.

Lemma loop_runs frames w :
  at_ (linked d 1%nat opened) w → next w = 4%nat → Forall (Forall acceptable) frames →
  runs (set_up 1%nat ≫= loop d frames) (λ _, good) thrown w.
Proof.
  intros H Hn Hi. apply gl_runs_bind, set_up_runs; [done|done|]. intros r s w1 Hs Hsc Hc.
  apply gl_runs_bind, runs_put. assert (Hg : good (World (Some r) (calls w1) (next w1))) by by exists r, s.
  apply gl_runs_bind, good_glfw; [exact Hg|]. intros w2 Hw2. apply gl_runs_bind, good_glfw; [done|]. intros w3 Hw3.
  apply gl_runs_bind, good_glfw; [done|]. intros w4 Hw4. apply gl_runs_bind.
  eapply runs_mono; [apply (each_runs _ (Forall acceptable)); [intros inputs v Hin Hv; by apply frame_runs|exact Hi|done]| |done].
  intros [] w5 Hw5. by apply good_glfw.
Qed.
End program.

(** ** Up to the renderer *)
Section opening.
Variable d : driver.
Notation at_ := (GlLogic.at_ draws_cube).

(** The world in which the shaders have been linked. *)
Lemma opening_runs :
  runs (initialize_window d;; link d VERTNAME FRAGNAME) (λ p w, p = 1%nat ∧ at_ (linked d 1 opened) w ∧ next w = 4%nat)
    (λ w, (∃ s, at_ s w) ∧ ¬ calm d) start.
Proof.
  apply gl_runs_bind. eapply initialize_window_runs; [done|done| |].
  - intros w Hs Hr Hn. change (next start) with 1%nat in Hn. eapply (runs_mono _ _ _ (GlLogic.thrown d draws_cube)).
    + eapply link_runs; [exact Hs|done|]. rewrite Hn. intros w' Hs' Hr' Hn'.
      exact (conj eq_refl (conj Hs' Hn') : (λ p w, p = 1%nat ∧ at_ (linked d 1 opened) w ∧ next w = 4%nat) 1%nat w').
    + done.
    + intros w' [(s & Hs' & _) Hc]. split; [by exists s|done].
  - intros w s Hs _ Hc. split; [by exists s|done].
Qed.




End opening.



(** ** A driver for the examples *)
Definition sample : driver := {|
  glfw_succeeds := λ _, true; glad_loads := true; files := λ _, Some ""; compiles := λ _, true; links := true;
  time := λ _, FP.zero; cursor := λ _, (FP.of_Z 3, FP.one); sin := id; cos := id; radians := id;
  lookAt := λ _, [];
  perspective := λ _ aspect _ _, if SFltb FP.zero (SFabs (FP.fsub aspect epsilon)) then Some [] else None |}.
Definition sample_inputs : list (list input) :=
  [[MouseButton GLFW_MOUSE_BUTTON_LEFT GLFW_PRESS; MouseMove (FP.of_Z (-5)) (FP.of_Z 7)]; [Key GLFW_KEY_L GLFW_PRESS; Resize 640 480];
   [MouseButton GLFW_MOUSE_BUTTON_LEFT GLFW_RELEASE; Key GLFW_KEY_UP GLFW_REPEAT]].

Lemma sample_cursor t : finite (cursor sample t).1 ∧ finite (cursor sample t).2.
Proof. by split. Qed.

Lemma sample_projects : glm_projects sample.
Proof. intros fovy aspect near far Ha. cbn. rewrite Ha. by eexists. Qed.


Definition sample_opened : world :=
  match (initialize_window sample;; link sample VERTNAME FRAGNAME) start with Some (_, w) => w | None => start end.


(** A window of no size makes the next picture undefined. *)
Example minimised_is_undefined :
  (set_up 1%nat ≫= loop sample [[Resize 0 0]; []]) sample_opened = None ∧ (set_up 1%nat ≫= loop sample [[Resize 640 0]; []]) sample_opened ≠ None.
Proof. split; by vm_compute. Qed.

(** Nothing keeps the camera out of the cube: 150 strokes take it through the centre. *)
Lemma zoom_up_iter n r : Radius (Nat.iter n (zoom GLFW_KEY_UP) r) = Nat.iter n (λ x, FP.fsub x RadiusDelta) (Radius r).
Proof.
  induction n as [|n IH]; [done|].
  change (FP.fsub (Radius (Nat.iter n (zoom GLFW_KEY_UP) r)) RadiusDelta = FP.fsub (Nat.iter n (λ x, FP.fsub x RadiusDelta) (Radius r)) RadiusDelta).
  by rewrite IH.
Qed.
Example zoom_goes_through r : Radius r = int_to_float 3 → SFltb (Radius (Nat.iter 151 (zoom GLFW_KEY_UP) r)) FP.zero = true.
Proof. intros Hr. rewrite zoom_up_iter, Hr. by vm_compute. Qed.

(** ** Properties *)

(** C39: from the world in which the shaders have been linked (the question for the link
    status apart, which is undefined: C40), whatever events the user produces and whichever
    calls fail, the program is defined, as long as the window has no size whose aspect GLM
    refuses: it uses no renderer that does not exist and no position of the mouse that has
    not been recorded, and when no call fails it ends normally. Every draw call reads a
    closed surface of six flat faces around the origin, each seen counterclockwise from
    outside (so that the culling of back faces is right), with a colour at each corner; and
    after any number of frames the angles of the camera are numbers within their limits, and
    the skeleton mode of the program is that of OpenGL: lines without depth test and culling,
    or filled faces with both. *)
Theorem session_keeps_the_scene d frames p w0 :
  (∀ t, finite (cursor d t).1 ∧ finite (cursor d t).2) → glm_projects d → Forall (Forall acceptable) frames →
  (initialize_window d;; link d VERTNAME FRAGNAME) start = Some (Ok p, w0) →
  ∃ r w s, (set_up p ≫= loop d frames) w0 = Some (r, w) ∧
    state_after (calls w) = Some s ∧ draws draws_cube (calls w) ∧ (calm d → r = Ok ()) ∧
    (r = Ok () → ∃ R, TheRenderer w = Some R ∧ camera R ∧ scene d R s).
Proof.
  intros Hcur Hglm Hi Hw0. destruct (opening_runs d) as (r0 & w1 & Hr0 & Hopen). rewrite Hr0 in Hw0. injection Hw0 as -> ->.
  destruct Hopen as (-> & Hs0 & Hn). destruct (loop_runs d Hcur Hglm frames w0 Hs0 Hn Hi) as (r & w & Hr & Hrest). exists r, w. destruct r as [[]|e].
  - destruct Hrest as (R & s & HR & [Hs Hd] & Hsc & Hc). exists s. split; [exact Hr|]. split; [exact Hs|]. split; [exact Hd|]. split; [by intros _|].
    intros _. exists R. exact (conj HR (conj Hc Hsc)).
  - destruct Hrest as [(s & [Hs Hd] & _) Hc]. exists s. split; [exact Hr|]. split; [exact Hs|]. split; [exact Hd|].
    split; [intros H; destruct (Hc H)|intros H; discriminate H].
Qed.
Lemma session_keeps_the_scene_witness :
  ∃ r w s, (set_up 1%nat ≫= loop sample sample_inputs) sample_opened = Some (r, w) ∧
    state_after (calls w) = Some s ∧ draws draws_cube (calls w) ∧ (calm sample → r = Ok ()) ∧
    (r = Ok () → ∃ R, TheRenderer w = Some R ∧ camera R ∧ scene sample R s).
Proof.
  apply (session_keeps_the_scene sample sample_inputs 1%nat sample_opened sample_cursor sample_projects); [|by vm_compute].
  repeat constructor.
Defined.

