(* ===== verification/Square.v ===== *)
(** * The square of [src/10-3d/ogl-frag-shader.cc]

    What its draw calls read, and what the program has deleted at the end. *)

From Stdlib Require Import SpecFloat.
From S2P Require Import Prelude Lingeo Gl Motion GlLogic.

(** Two triangles of a strip, counterclockwise, that make up the square of side two. *)
Definition doubled_area (a b c : list Z) : Z :=
  match a, b, c with [ax; ay; _], [bx; by_; _], [cx; cy; _] => (bx - ax) * (cy - ay) - (by_ - ay) * (cx - ax) | _, _, _ => 0 end.
Definition draws_square (s : gl) (c : call) : Prop :=
  ∃ p0 p1 p2 p3 cs, drawn s c = Some [0; 1; 2; 3] ∧ fetch_all s 0 [0; 1; 2; 3] = Some [p0; p1; p2; p3] ∧
    fetch_all s 1 [0; 1; 2; 3] = Some cs ∧ doubled_area p0 p1 p2 = 4 ∧ doubled_area p2 p1 p3 = 4 ∧
    Forall (λ p, Forall (λ x, x = 0 ∨ x = 1 ∨ x = -1) p) [p0; p1; p2; p3].

Definition square_attribute (b : name) (offset : Z) : attribute :=
  {| a_size := 3; a_stride := 24; a_offset := offset; a_buffer := b |}.
Definition square_array (b : name) : vertex_array := {|
  elements := 0%nat; attributes := <[1 := square_attribute b 12]> {[0 := square_attribute b 0]}; enabled := {[1; 0]} |}.

Section square.
Variable d : driver.
Notation at_ := (GlLogic.at_ draws_square).
Notation thrown := (GlLogic.thrown d draws_square).

(** Nothing but the array, the buffer and the program. *)
Record square_scene (VAO VBO ProgID : name) (s : gl) : Prop := {
  qs_current : current s = true;
  qs_vao : vao s = VAO;
  qs_arrays : arrays s = {[VAO := square_array VBO]};
  qs_buffers : buffers s = {[VBO := Floats square_Vertices]};
  qs_program : programs s !! ProgID = Some (links d);
  qs_errors : links d = true → errors s = [] }.

Variables VAO VBO ProgID : name.
Notation scene := (square_scene VAO VBO ProgID).
Definition square_in_use (s : gl) : Prop := links d = true → program s = ProgID.

Lemma square_draws s : scene s → draws_square s (DrawArrays GL_TRIANGLE_STRIP 0 4).
Proof.
  intros [S1 S2 S3 S4 _ _].
  assert (Hb : bound s = Some (square_array VBO)) by (unfold bound; by rewrite S2, S3, lookup_singleton_eq).
  assert (Hf : ∀ o i, fetch s (square_attribute VBO o) i =
    if (0 <=? o + i * 24) && ((o + i * 24) mod 4 =? 0) && ((o + i * 24) / 4 + 3 <=? 24)
    then Some (take 3 (drop (Z.to_nat ((o + i * 24) / 4)) square_Vertices)) else None).
  { intros o i. unfold fetch. cbn [a_buffer square_attribute]. by rewrite S4, lookup_singleton_eq. }
  assert (Hall : ∀ k o, attributes (square_array VBO) !! k = Some (square_attribute VBO o) → k ∈ enabled (square_array VBO) →
    fetch_all s k [0; 1; 2; 3] = mapM (λ i, if (0 <=? o + i * 24) && ((o + i * 24) mod 4 =? 0) && ((o + i * 24) / 4 + 3 <=? 24)
      then Some (take 3 (drop (Z.to_nat ((o + i * 24) / 4)) square_Vertices)) else None) [0; 1; 2; 3]).
  { intros k o Hk He. unfold fetch_all. rewrite Hb. cbn [mbind option_bind]. rewrite Hk. cbn [mbind option_bind].
    rewrite decide_True by done. apply mapM_ext. intros i. apply Hf. }
  eexists _, _, _, _, _. split; [by vm_compute|]. split; [rewrite (Hall 0 0); [by vm_compute|done|set_solver]|].
  split; [rewrite (Hall 1 12); [by vm_compute|done|set_solver]|]. split; [done|]. split; [done|].
  by apply (bool_decide_unpack _); vm_compute.
Qed.

Lemma square_error c s : scene s → links d = false → scene (error c s).
Proof. intros [] Hl. split; try done. congruence. Qed.

Lemma square_use s : scene s → scene (effect (UseProgram ProgID) s) ∧ square_in_use (effect (UseProgram ProgID) s).
Proof.
  intros Hs. cbn. rewrite (qs_program _ _ _ _ Hs). destruct (links d) eqn:Hl.
  - rewrite decide_True by done. split; [by destruct Hs; split|done].
  - rewrite decide_False by done. split; [by apply square_error|]. unfold square_in_use. congruence.
Qed.

Lemma square_uniform s name vs : scene s → square_in_use s → scene (effect (Uniform ProgID name vs) s).
Proof.
  intros Hs Hu. cbn. rewrite (qs_program _ _ _ _ Hs). destruct (links d) eqn:Hl.
  - by rewrite decide_True by (split; [done|by apply Hu]).
  - rewrite decide_False by (by intros [? _]). by apply square_error.
Qed.

Lemma square_bind s : scene s → scene (effect (BindVertexArray VAO) s).
Proof.
  intros Hs. cbn. rewrite (qs_arrays _ _ _ _ Hs), decide_True by (rewrite lookup_singleton_eq; by eexists). by destruct Hs; split.
Qed.

Definition square_good (w : world) : Prop := ∃ s, at_ s w ∧ scene s.

Lemma square_glfw (Q : () → world → Prop) w : square_good w → (∀ w', square_good w' → Q () w') → runs (glfw d) Q thrown w.
Proof.
  intros (s & Hs & Hsc) HQ. eapply runs_glfw_fine; [exact Hs|apply Hsc|]. intros w' Hs' _ _. apply HQ. by exists s.
Qed.

Lemma do_render_runs w : square_good w → runs (do_render d VAO ProgID) (λ _, square_good) thrown w.
Proof.
  intros (s & H & Hsc). apply gl_runs_bind. eapply runs_plain; [exact H|apply Hsc|done|]. clear H. intros w1 H _ _.
  apply gl_runs_bind. eapply runs_plain; [exact H|apply Hsc|done|]. clear H. intros w2 H _ _.
  destruct (square_use s Hsc) as [Hsc3 Hu]. apply gl_runs_bind. eapply runs_plain; [exact H|apply Hsc|done|]. clear H. intros w3 H _ _.
  set (s3 := effect (UseProgram ProgID) s) in *. apply gl_runs_bind, runs_ask, gl_runs_bind.
  eapply runs_glfw_fine; [exact H|apply Hsc3|]. generalize (time d (length (calls w3))) as t. intros t. clear H. intros w4 H _ _.
  pose proof (square_uniform s3 "time" [t] Hsc3 Hu) as Hsc5.
  apply gl_runs_bind. eapply runs_plain; [exact H|apply Hsc3|done|]. clear H. intros w5 H _ _.
  pose proof (square_bind _ Hsc5) as Hsc6.
  apply gl_runs_bind. eapply runs_plain; [exact H|apply Hsc5|done|]. clear H. intros w6 [H Hd] _ _.
  set (s6 := effect (BindVertexArray VAO) _) in *. clearbody s6.
  apply runs_emit. exists s6. split; [|exact Hsc6]. split; cbn; [rewrite H; cbn; by rewrite (qs_current _ _ _ _ Hsc6)|].
  split; [done|]. exists s6. split; [exact H|by apply square_draws].
Qed.

Lemma sizes_runs (sizes : list (Z * Z)) w : square_good w → runs (each (λ size, emit (Viewport size.1 size.2)) sizes) (λ _, square_good) thrown w.
Proof.
  revert w. induction sizes as [|size sizes IH]; intros w (s & H & Hsc); cbn [each]; [apply runs_ret; by exists s|].
  apply gl_runs_bind. eapply runs_plain; [exact H|apply Hsc|done|]. intros w' H' _ _. apply IH. by exists s.
Qed.

Lemma square_frames_runs frames w : square_good w → runs (each (square_frame d VAO ProgID) frames) (λ _, square_good) thrown w.
Proof.
  revert w. induction frames as [|sizes frames IH]; intros w Hw; cbn [each]; [by apply runs_ret|].
  apply gl_runs_bind. eapply (runs_mono _ (λ _, square_good)); [|intros [] w' Hw'; by apply IH|done].
  apply gl_runs_bind, square_glfw; [done|]. intros w1 Hw1. apply gl_runs_bind.
  eapply runs_mono; [by apply do_render_runs| |done]. intros [] w2 Hw2. apply gl_runs_bind, square_glfw; [done|]. intros w3 Hw3.
  apply gl_runs_bind, square_glfw; [done|]. intros w4 Hw4. by apply sizes_runs.
Qed.
End square.

Section session.
Variable d : driver.
Notation at_ := (GlLogic.at_ draws_square).
Notation thrown := (GlLogic.thrown d draws_square).

Definition square_opening : M ((name * name) * name) :=
  initialize_window d;; b ← square_set_up; p ← link d square_VERTNAME square_FRAGNAME; mret (b, p).

(** The world in which the buffer has been filled and the shaders have been linked. *)
Lemma square_opening_runs :
  runs square_opening (λ bp w, bp = ((1%nat, 2%nat), 3%nat) ∧ ∃ s, at_ s w ∧ square_scene d 1 2 3 s ∧ 3%nat ∉ shaders s)
    (λ w, (∃ s, at_ s w) ∧ ¬ calm d) start.
Proof.
  apply gl_runs_bind. eapply initialize_window_runs; [done|done| |intros w s Hs _ Hc; split; [by exists s|done]].
  intros w H _ N. change (next start) with 1%nat in N. eapply (runs_mono _ _ _ (GlLogic.thrown d draws_square)).
  2: { intros bp w' Hw'. exact Hw'. }
  2: { intros w' [(s & Hs' & _) Hc]. split; [by exists s|done]. }
  unfold square_set_up, vertex_buffer, vertex_attributes. apply gl_runs_bind, gl_runs_bind, gl_runs_bind, runs_fresh. rewrite N. call_fresh H N 2%nat.
  do 2 call_plain H N. apply gl_runs_bind, runs_fresh. rewrite N. call_fresh H N 3%nat.
  do 3 call_plain H N. apply runs_ret, gl_runs_bind. do 3 call_plain H N.
  eapply runs_plain; [exact H|by rewrite ?effect_current|done|]. clear H. intros w2 H _ N2. rewrite N in N2. clear N. apply runs_ret.
  apply gl_runs_bind. eapply link_runs; [exact H|by rewrite !effect_current|]. clear H. rewrite N2. intros w3 H _ _. apply runs_ret.
  split; [done|]. eexists. split; [exact H|]. split; [split; by vm_compute|]. by apply (bool_decide_unpack _); vm_compute.
Qed.

Lemma square_loop_runs frames w (Q : () → world → Prop) :
  square_good d 1 2 3 w → (∀ s w', at_ s w' → arrays s = ∅ → buffers s = ∅ → (links d = true → errors s = []) → Q () w') →
  runs (square_loop d frames (1%nat, 2%nat) 3%nat) Q thrown w.
Proof.
  intros Hw HQ. unfold square_loop. cbn [fst snd].
  apply gl_runs_bind. eapply (runs_mono _ (λ _, square_good d 1%nat 2%nat 3%nat)); [by apply square_frames_runs| |done].
  intros [] w4 Hw4. apply gl_runs_bind. eapply square_glfw; [exact Hw4|]. intros w5 (s & Hs & Hsc).
  apply gl_runs_bind. eapply runs_plain; [exact Hs|apply Hsc|done|]. intros w6 Hs6 _ _.
  eapply runs_plain; [exact Hs6|by rewrite effect_current; apply Hsc|done|]. intros w7 Hs7 _ _.
  destruct Hsc as [S1 S2 S3 S4 S5 S6]. apply (HQ _ w7 Hs7); cbn; [by rewrite S3, delete_singleton_eq|by rewrite S4, delete_singleton_eq|done].
Qed.

(** From the linked program on the square's program is defined, whatever fails, and every draw
    call reads the square; when nothing fails it deletes what it has created and makes no
    error. But the question for the link status is undefined, as in [ogl-motion.cc]. *)
Theorem square_program_deletes frames b p w0 : square_opening start = Some (Ok (b, p), w0) →
  (∃ r w s, square_loop d frames b p w0 = Some (r, w) ∧ state_after (calls w) = Some s ∧ draws draws_square (calls w) ∧
    (calm d → r = Ok () ∧ arrays s = ∅ ∧ buffers s = ∅ ∧ errors s = [])) ∧
  link_status d p w0 = None.
Proof.
  intros Hw0. destruct square_opening_runs as (r0 & w1 & Hr0 & Hopen). rewrite Hr0 in Hw0. injection Hw0 as -> ->.
  destruct Hopen as ([= -> ->] & s0 & Hs0 & Hsc0 & Hp). split; [|by eapply link_status_undefined].
  assert (Hrun : runs (square_loop d frames (1%nat, 2%nat) 3%nat)
    (λ _ w, ∃ s, at_ s w ∧ (calm d → arrays s = ∅ ∧ buffers s = ∅ ∧ errors s = [])) thrown w0).
  { apply square_loop_runs; [by exists s0|]. intros s w' Hs' Ha Hb He. exists s. split; [done|]. intros Hc. split; [done|]. split; [done|].
    apply He, Hc. }
  destruct Hrun as (r & w & Hr & Hrest). exists r, w. destruct r as [[]|e].
  - destruct Hrest as (s & [Hs Hd] & Hc). exists s. split; [exact Hr|]. split; [exact Hs|]. split; [exact Hd|]. intros Hcalm. split; [done|by apply Hc].
  - destruct Hrest as [(s & [Hs Hd] & _) Hc]. exists s. split; [exact Hr|]. split; [exact Hs|]. split; [exact Hd|]. intros Hcalm. destruct (Hc Hcalm).
Qed.
End session.
